(* ===== verification/_CoqProject ===== *)
-Q . S2P
Prelude.v
FrameHeader.v
Types.v
Store.v
Framer.v
Handlers.v
Processor.v
Receiver.v
ReadLoop.v
Acks.v
Monitor.v
Effects.v
FlowControl.v
Limiter.v
Pool.v
Decimal.v
Duration.v
Request.v
Hpack.v
Sender.v
Permits.v
RecordIO.v
RequestsGen.v
Escape.v
JsonKV.v
JsonRead.v
Formats.v
JsonRecord.v
Reflection.v
Converter.v
Convert.v
Command.v
Lru.v
Decoder.v
DataSource.v
FileSource.v
Report.v
Ticker.v
Phout.v
PhoutFile.v
Scheduler.v
Line.v
Loader.v
TimeoutQueue.v
LoaderRun.v
LoadRun.v
Replies.v
Wire.v
Windows.v
Credit.v
Peer.v
Connection.v
Journey.v
