(* ===== verification/Prelude.v ===== *)
(** * A verification library of the framer gRPC load generator

    framer sends prepared gRPC requests to a server at a given rate over its own
    HTTP/2 client, and reports the outcome of each.  The command
    [cmd/framer/cmd_load.go] starts one [Loader] per client connection; each client
    fetches requests from a data source, waits for the time its scheduler gives and
    hands them to the sender; the receiver reads the answers, ends the streams and
    gives window and permits back; a reporter hears about every stream.  A second
    command converts request files between formats.  All of it under src/ is Go; the
    library models the functions that carry this logic and leaves the network, the
    third-party packages and the command line as parameters.

    ** Which file models what

    - [Prelude]: bytes, machine words, the state-and-error monad [GM] whose outcomes
      are a result, an error, a panic or fuel that ran out, lists and sums, and the
      tactics and hints of the development.
    - [FrameHeader]: frameheader/frameheader.go.  [Types]: loader/types (streams,
      frames, the store interface with its laws as the classes [StreamStore] and
      [StreamStoreSpec]).  [Store]: loader/streams/store/store.go, instances of them.
    - [Framer], [Handlers], [Processor], [Receiver]: loader/reciever.  [Framer] cuts
      buffers into frames, [Handlers] has one [*_Process] per frame type and the
      effects they have on the shared objects as a log of events, [Processor] the
      table and the loop, [Receiver] the composition.  HPACK decoding is the class
      [HpackDecoder]; its law is that decoding does not depend on how a block is cut.
      [ReadLoop]: the goroutine that reads into two buffers in turn beside the one
      that processes them.  [Acks]: the arrays of the replies, shared up to the write.
    - [Effects]: what the receiver does to the rest of the loader.  [Replies]: what
      it sends back.
    - [Monitor]: a lock with a condition variable; callers that sleep, are woken and
      try again are explicit, so schedules are lists of labels.  [FlowControl],
      [Limiter], [Pool]: loader/flowcontrol, loader/streams/limiter,
      loader/streams/pool and utils/pool, each an instance of it.
    - [Decimal], [Duration]: decimal numerals; utils/grpc/encode_duration.go.
      [RequestsGen]: examples/requestsgen/main.go.
    - [Request]: datasource/request.go and meta_middleware.go: how a request becomes
      frames.  [Hpack]: utils/hpack_wrapper, and what a peer's decoder makes of the
      encoder's output (the class [HpackPeer] with its law).  [Sender]:
      loader/sender/sender.go: [send] as the calls it makes, and the batching
      goroutine with the send loop as a step relation.  [Wire]: the requests of a
      connection through [SetUp], [send] and these goroutines, among the replies, as
      one sequence of HTTP/2 frames.  [Peer]: a server that reads them by the book, as
      the specification of the sending side.
    - [Permits]: the limiter, the store, [send] call by call and the receiver frame by
      frame as one system.  [Windows]: the pool, the windows, the store, [send] call
      by call, the receiver frame by frame and the loop over timeouts as one system.
      [Credit]: what a request that waits for its windows depends on.
      [Connection]: that system with the sender's goroutines behind it, and the server.
    - [RecordIO]: formats/grpc/ozon/binary/io, formats/grpc/ozon/json/io and the
      pooled reader.  [Escape]: formats/internal/json.  [JsonKV], [JsonRead]:
      formats/internal/kv/json, writing and reading; the jlexer lexer is the class
      [JLexer], with laws [JLexerLaws] (it makes progress) and [JLexerReads] (it reads
      what JSON says), and a small lexer of ours shows that the laws can hold.
      [Formats]: the record formats of formats/grpc/ozon and the encoder middleware;
      protobuf messages are the class [DynamicMessages].  [JsonRecord]: the grammar of
      JSON values, the rest of the lexer ([JLexerFields], [JLexerFieldsLaws]), JSON
      records read back, and the method name edited inside the record.  [Reflection]:
      ozon/json/encoding/reflection, the messages by method and where methods come from.
    - [Converter], [Convert]: formats/converter and formats/grpc/convert_strategy.go.
      [Command]: cmd/framer/cmd_convert.go on top of them, and the version of main.go.
    - [Lru], [Decoder], [DataSource], [FileSource]: utils/lru, datasource/decoder,
      datasource/cyclic-reader.go and inmem.go, datasource/file.go.
    - [Report], [Ticker], [Phout], [PhoutFile]: report/: the states of streams and the
      counters, the goroutine that prints lines every second, the line of the report file, and the
      goroutine that writes it.
    - [Scheduler], [Line]: scheduler/ (the linear profile in IEEE binary64) and the loop
      of the clients over the shared counter.  [Loader], [LoaderRun], [TimeoutQueue]:
      loader/loader.go, its set-up, GOAWAY, the goroutines of [Run] and [Shutdown], and
      loader/timeout_queue.go.  [LoadRun]: [LoadCommand.Run] of cmd/framer/cmd_load.go,
      its set-up and its goroutines.  [Journey]: a client's loop with the file source,
      the sender and the server, as one system.

    ** How state and operations correspond

    A struct is a [Record] with the names of its fields; a method is a definition of
    the same name (with the type in front where names would clash), from the
    receiver's old state to the result and the new state.  A Go [error] is [Fail], a
    panic [Panic].  Pointers that are shared or pooled are indices into a list of
    objects ([Pool], [FileSource], [Report], [DataSource]), slices that share an array
    are indices into a heap of arrays ([FileSource]), so reuse and aliasing are part of
    the model.  Goroutines are labelled step functions ([Sender], [Converter],
    [Scheduler], [Monitor], [ReadLoop], [Acks], [PhoutFile], [Ticker], [LoaderRun],
    [LoadRun], [TimeoutQueue], [Permits], [Windows], [Connection], [Journey]): a run is
    a list of labels, and a theorem about every run is one about every interleaving.
    In [Permits], [Windows] and [Connection] a frame or a timeout is one step with all
    its calls on shared objects, each call of [send] is one, and [WaitAllow] is a step
    in [Permits] alone; the channels of [Connection] are not bounded.  Integers are [Z] with the wrap-around of their Go
    type written out ([u8] to [u64], [i32], [i64]).

    ** What the theorems show

    - the receiver: cutting the stream into reads changes nothing
      ([receive_any_cut]), the loop ends ([receive_terminates]), and its effects are
      those of the protocol ([streams_end_once], [window_updates_exact],
      [data_credited], [goaway_reported], [pings_acknowledged]); the shared read
      buffers are never spoiled ([reads_unspoiled]), and replies arrive whole as long
      as the server is patient ([patient_acks_arrive], [impatient_ack_overwritten]);
    - the shared objects: the store is a map ([loader_store_refines_map]), streams
      are reused exclusively ([pool_reuse_exclusive]), windows and permits are
      conserved and no wake-up is lost ([window_conserved], [window_sleepers_justified],
      [streams_in_flight_bounded], [limiter_no_lost_wakeup], [single_watcher_woken]);
    - the whole way: what a server has of a connection are the records of the request
      file, and the reused buffers they are read into are not touched before they are
      written ([file_reaches_server]);
    - one connection at work: on a connection made from the server's SETTINGS, under
      every interleaving of requests, frames, timeouts and the sender's goroutines,
      what is written is read without an error, stays within the windows and the frame
      size the server announced, and delivers the requests in order
      ([connection_delivers], on top of [data_within_windows]); credit is all that a
      request that waits needs ([credit_finishes_request]), but one whose stream
      ends while its message waits holds the sender up for good
      ([ended_stream_blocks_sender]);
    - the sending side against a server: a server reads from it the requests that were asked
      for, in order, with their metadata and messages ([server_reads_requests]); what
      is written after the handshake is whole frames, those of the requests in order
      and the replies ([connection_carries_requests]; [reply_splits_header_block],
      [rejected_moves_encoder] and [rejected_request_garbles] for their limits); the
      streams open never exceed what the server allows ([open_streams_bounded]);
    - the sending side: the bytes of a request ([request_on_the_wire],
      [long_message_misframed], [pseudo_headers_first], [wrapper_writes_adapter],
      [timeout_rounds_up]), their way
      to the connection ([send_queues_in_order], [sender_delivers_in_order],
      [batch_bounded]);
    - files and formats: round trips of every layer ([binary_roundtrip],
      [lines_roundtrip], [escape_roundtrip], [metadata_roundtrip],
      [binary_record_roundtrip], [json_record_roundtrip], [json_fields_any_order]), the
      JSON decoder ends ([json_unmarshal_terminates]) and edits no more than the name
      ([method_edited_in_place]), messages are used by one caller at a time and have
      the type of their method ([messages_exclusive], [fetched_methods],
      [fetched_once]), the loader's decoder against that of the formats
      ([decoder_transparent], [lru_interns]), data sources ([cyclic_requests],
      [inmem_rotates], [file_requests_isolated]), and the converter under every
      interleaving ([converter_in_order], [converter_completes], [converted_file]), up
      to the command from one format to another ([convert_command], [run_outcomes]);
    - the run: rates and limits ([constant_rate], [unlimited_limits],
      [degenerate_line_never_stops]), the command as a whole ([load_run_order]), the
      settings of a connection ([loader_follows_settings]), its end
      ([run_reports_the_end], [goaway_ends_refused], [timeouts_in_order],
      [timeouts_end_streams]), the reports ([supersimple_counts], [printed_lines],
      [multi_broadcasts], [phout_line], [phout_file]).

    Some theorems state what the code does where it departs from what it means to do
    ([sharded_even_panics], [rst_releases_twice], [unsupported_frames],
    [long_message_misframed], [failed_setup_leaks], [flush_stops_timer],
    [reset_strands_sleepers], [second_watcher_stranded], [custom_middleware_ignored],
    [ended_stream_blocks_sender], [truncated_record_is_eof],
    [simple_accept_swapped], [simple_goaway_sticks],
    [phout_time], [impatient_ack_overwritten], [end_after_close_panics],
    [failed_writer_blocks], [close_before_receivers], [closed_queue_stays_locked],
    [close_signal_lost], [degenerate_line_never_stops], [tag_newline_shifts],
    [generated_record_overruns], [generated_last_lost], [simple_prints_swapped]).

    ** Fuel

    Loops without a structural measure take fuel: the receiver's loop a number that
    grows with the buffered bytes ([receive_terminates] shows [Diverged] is never
    reached), record readers the number of reads and bytes left (their round trips
    return [Ret]), lexer loops a bound the lexer's progress law justifies
    ([unmarshal_terminates], [json_unmarshal_terminates]), frame builders the length of what they cut.

    ** Not modelled

    Sockets, deadlines, files and the clock (their answers are arguments or labels);
    the HPACK codec, protobuf, its descriptors and gRPC reflection, the JSON lexer (third-party:
    parameters with laws); [WaitResponses], which waits and prints; logging and memory
    statistics; the rates printed in floating point; argument parsing; code nothing
    calls ([readExpiremental], [createUnixConn]); the benchmark server. *)

From stdpp Require Export prelude gmap strings list relations.
From Stdlib Require Export ZArith Lia.

#[global] Open Scope Z_scope.

(** ** Bytes and machine words *)

(** A Go [byte] is a [Z] in [0, 256), a Go [[]byte] a list of them. *)
Abbreviation bytes := (list Z).

Definition is_byte (b : Z) : Prop := 0 <= b < 256.
Definition is_u32 (n : Z) : Prop := 0 <= n < 2 ^ 32.

#[export] Instance is_byte_dec b : Decision (is_byte b).
Proof. unfold is_byte. apply _. Defined.

(** The conversions of the language: [byte(x)], [uint32(x)], [uint64(x)],
    [int32(x)] and [int64(x)], with their wrap-around. *)
Definition u8 (x : Z) : Z := x mod 2 ^ 8.
Definition u32 (x : Z) : Z := x mod 2 ^ 32.
Definition u64 (x : Z) : Z := x mod 2 ^ 64.
Definition i32 (x : Z) : Z := (x + 2 ^ 31) mod 2 ^ 32 - 2 ^ 31.
Definition i64 (x : Z) : Z := (x + 2 ^ 63) mod 2 ^ 64 - 2 ^ 63.

(** The length of a slice as a Go [int]. *)
Definition zlen {A} (l : list A) : Z := Z.of_nat (length l).

(** Text constants: the bytes of a Go string literal (ASCII). *)
Fixpoint str (s : string) : bytes :=
  match s with
  | EmptyString => []
  | String a s => Z.of_N (Ascii.N_of_ascii a) :: str s
  end.

(** ** Outcomes and the state monad of the embedding

    A Go call returns normally, returns an error value, or panics; the fourth
    constructor is a loop that outran the fuel of its model, and every
    component with such a loop proves that it is never reached. *)
Inductive outcome (E A : Type) : Type :=
| Ret (a : A)
| Fail (e : E)
| Panic
| Diverged.
Arguments Ret {E A} _.
Arguments Fail {E A} _.
Arguments Panic {E A}.
Arguments Diverged {E A}.

(** A stateful Go call: the state survives an error or a panic, as the shared
    objects of the program do. *)
Definition GM (S E A : Type) : Type := S → outcome E A * S.

#[export] Instance gm_ret (S E : Type) : MRet (GM S E) := λ A a s, (Ret a, s).
#[export] Instance gm_bind (S E : Type) : MBind (GM S E) := λ A B f m s,
  match m s with
  | (Ret a, s') => f a s'
  | (Fail e, s') => (Fail e, s')
  | (Panic, s') => (Panic, s')
  | (Diverged, s') => (Diverged, s')
  end.

Definition gm_fail {S E A} (e : E) : GM S E A := λ s, (Fail e, s).
Definition gm_panic {S E A} : GM S E A := λ s, (Panic, s).
Definition gm_diverged {S E A} : GM S E A := λ s, (Diverged, s).
Definition gm_get {S E} : GM S E S := λ s, (Ret s, s).
Definition gm_modify {S E} (f : S → S) : GM S E unit := λ s, (Ret tt, f s).

(** A bounds-checked access whose failure is a run-time panic. *)
Definition gm_index {S E A} (o : option A) : GM S E A :=
  match o with Some a => mret a | None => gm_panic end.

(** Two calls are equivalent when, from every state, they have the same outcome
    and leave the same state; after an error or a panic the caller is gone, and
    only the part of the state that [fail_equiv] compares still matters. *)
Class FailEquiv (S : Type) := {
  fail_equiv : S → S → Prop;
  fail_equivalence :: Equivalence fail_equiv
}.

Definition res_equiv {S E A} `{!FailEquiv S} (r1 r2 : outcome E A * S) : Prop :=
  r1.1 = r2.1 ∧ match r1.1 with Ret _ => r1.2 = r2.2 | _ => fail_equiv r1.2 r2.2 end.

Definition gm_equiv {S E A} `{!FailEquiv S} (m1 m2 : GM S E A) : Prop :=
  ∀ s, res_equiv (m1 s) (m2 s).
Infix "≈" := gm_equiv (at level 70) : stdpp_scope.

#[export] Instance gm_equivalence (S E A : Type) `{!FailEquiv S} : Equivalence (@gm_equiv S E A _).
Proof.
  split.
  - intros m s. split; [done|]. destruct (m s) as [[] ?]; cbn; reflexivity.
  - intros m1 m2 H s. destruct (H s) as [H1 H2]. split; [done|]. rewrite <-H1.
    destruct (m1 s) as [[] ?]; cbn in *; by symmetry.
  - intros m1 m2 m3 H H' s. destruct (H s) as [H1 H2], (H' s) as [H1' H2'].
    split; [by etransitivity|]. rewrite <-H1 in H2'.
    destruct (m1 s) as [[] ?]; cbn in *; by etransitivity.
Qed.

#[export] Instance gm_bind_proper (S E A B : Type) `{!FailEquiv S} :
  Proper (pointwise_relation A gm_equiv ==> gm_equiv ==> gm_equiv) (@mbind (GM S E) _ A B).
Proof.
  intros f g Hfg m1 m2 Hm s. unfold mbind, gm_bind. destruct (Hm s) as [H1 H2].
  destruct (m1 s) as [o1 s1], (m2 s) as [o2 s2]. cbn in *. subst o2.
  destruct o1 as [a|e| |]; [subst s2; apply (Hfg a)| | |]; by split.
Qed.

Lemma gm_eq_equiv {S E A} `{!FailEquiv S} (m1 m2 : GM S E A) : (∀ s, m1 s = m2 s) → m1 ≈ m2.
Proof. intros H s. rewrite H. split; [done|]. destruct (m2 s) as [[] ?]; cbn; reflexivity. Qed.

Section gm_laws.
Context {S E : Type} `{!FailEquiv S}.

Lemma gm_bind_assoc {A B C} (m : GM S E A) (f : A → GM S E B) (g : B → GM S E C) :
  (m ≫= f) ≫= g ≈ m ≫= (λ a, f a ≫= g).
Proof. apply gm_eq_equiv. intros s. unfold mbind, gm_bind. by destruct (m s) as [[]]. Qed.

Lemma gm_bind_ret_r (m : GM S E unit) : m ≫= (λ _, mret tt) ≈ m.
Proof. apply gm_eq_equiv. intros s. unfold mbind, gm_bind. by destruct (m s) as [[[]| | |]]. Qed.
End gm_laws.

(** Running a sequence, one call at a time. *)
Lemma bind_run {S E A B} (m : GM S E A) (f : A → GM S E B) s a s' :
  m s = (Ret a, s') → (m ≫= f) s = f a s'.
Proof. intros H. unfold mbind, gm_bind. by rewrite H. Qed.

(** [run_step]: run the first call of a sequence by evaluation;
    [run_with H]: by the equation [H]. *)
Ltac find_bind k :=
  match goal with |- context [?t] => lazymatch t with @mbind _ _ _ _ ?f ?m ?s => k t f m s end end.
Ltac run_step := find_bind ltac:(fun t f m s =>
  let r := eval hnf in (m s) in
  lazymatch r with (?o, ?s') =>
    let o' := eval hnf in o in
    lazymatch o' with Ret ?a => change t with (f a s'); cbn beta end
  end).
Ltac run_with H := find_bind ltac:(fun t f m s =>
  let E := fresh in eassert (t = _) as E by (eapply (bind_run m f s); apply H); rewrite E; clear E; cbn beta).

(** ** Calls that never outrun their fuel *)
Definition gm_total {S E A} (m : GM S E A) : Prop := ∀ s, (m s).1 ≠ Diverged.

Create HintDb total discriminated.

Section total.
Context {S E : Type}.

Lemma total_ret {A} (a : A) : gm_total (mret a : GM S E A).
Proof. done. Qed.
Lemma total_fail {A} (e : E) : gm_total (gm_fail e : GM S E A).
Proof. done. Qed.
Lemma total_panic {A} : gm_total (gm_panic : GM S E A).
Proof. done. Qed.
Lemma total_modify (f : S → S) : gm_total (gm_modify f : GM S E unit).
Proof. done. Qed.
Lemma total_index {A} (o : option A) : gm_total (gm_index o : GM S E A).
Proof. by destruct o. Qed.
Lemma total_bind {A B} (m : GM S E A) (f : A → GM S E B) :
  gm_total m → (∀ a, gm_total (f a)) → gm_total (m ≫= f).
Proof.
  intros Hm Hf s. unfold mbind, gm_bind. specialize (Hm s).
  destruct (m s) as [[a|e| |] s']; try done. apply Hf.
Qed.
End total.
#[export] Hint Resolve total_ret total_fail total_panic total_modify total_index : total.

(** [solve_total]: structural; case splits where the code branches. *)
Ltac solve_total := repeat (
  first [ progress eauto with total
        | apply total_bind; [|intros ?]
        | case_match ]).

(** ** Machine words *)

Create HintDb words discriminated.

Lemma u8_is_byte x : is_byte (u8 x).
Proof. apply Z.mod_pos_bound. lia. Qed.
Lemma u32_is_u32 x : is_u32 (u32 x).
Proof. apply Z.mod_pos_bound. lia. Qed.
Lemma u8_id x : is_byte x → u8 x = x.
Proof. apply Z.mod_small. Qed.
Lemma u32_id x : is_u32 x → u32 x = x.
Proof. apply Z.mod_small. Qed.
Lemma i64_id x : - 2 ^ 63 <= x < 2 ^ 63 → i64 x = x.
Proof. intros ?. unfold i64. rewrite Z.mod_small; lia. Qed.
Lemma i32_id x : - 2 ^ 31 <= x < 2 ^ 31 → i32 x = x.
Proof. intros ?. unfold i32. rewrite Z.mod_small; lia. Qed.
#[export] Hint Resolve u8_is_byte u32_is_u32 : words.

Lemma u32_add_l a b : u32 (u32 a + b) = u32 (a + b).
Proof. unfold u32. apply Zplus_mod_idemp_l. Qed.
Lemma u32_add_r a b : u32 (a + u32 b) = u32 (a + b).
Proof. unfold u32. apply Zplus_mod_idemp_r. Qed.
Lemma u32_sub_l a b : u32 (u32 a - b) = u32 (a - b).
Proof. unfold u32. apply Zminus_mod_idemp_l. Qed.
Lemma u32_idemp a : u32 (u32 a) = u32 a.
Proof. apply u32_id, u32_is_u32. Qed.

Lemma zlen_nonneg {A} (l : list A) : 0 <= zlen l.
Proof. unfold zlen. lia. Qed.
Lemma zlen_app {A} (l k : list A) : zlen (l ++ k) = zlen l + zlen k.
Proof. unfold zlen. rewrite length_app. lia. Qed.
Lemma zlen_nil {A} : zlen (@nil A) = 0.
Proof. done. Qed.
Lemma zlen_cons {A} (x : A) l : zlen (x :: l) = 1 + zlen l.
Proof. unfold zlen. cbn. lia. Qed.
Create Rewrite HintDb lens.
#[export] Hint Rewrite @zlen_app @zlen_nil @zlen_cons @length_app @length_take
  @length_drop @length_insert @length_replicate : lens.

(** [solve_len]: length side conditions. *)
Ltac solve_len := unfold zlen in *; autorewrite with lens in *; cbn [length] in *; lia.

(** [x | y << k] is [x + y * 2^k] when the bits do not overlap; the form in
    which every big-endian accumulation of the program is proved. *)
Lemma lor_shiftl_add x y k :
  0 <= k → 0 <= x < 2 ^ k → Z.lor (Z.shiftl y k) x = y * 2 ^ k + x.
Proof.
  intros Hk Hx. rewrite Z.shiftl_mul_pow2 by done.
  rewrite <-Z.add_lor_land, Z.add_comm.
  enough (Z.land (y * 2 ^ k) x = 0) by lia.
  apply Z.bits_inj'. intros n Hn. rewrite Z.land_spec, Z.bits_0.
  destruct (decide (n < k)) as [Hlt|Hge].
  - by rewrite Z.mul_pow2_bits_low.
  - replace (Z.testbit x n) with false; [apply andb_false_r|].
    symmetry. rewrite <-(Z.mod_small x (2 ^ k)) by done.
    apply Z.mod_pow2_bits_high. lia.
Qed.

(** Big-endian value of a byte sequence, accumulated from [acc] in a 32-bit
    word: [acc = (acc << 8) | uint32(b)] for every byte. *)
Definition be32_step (acc b : Z) : Z := Z.lor (u32 (Z.shiftl acc 8)) b.
Definition be32 (acc : Z) (bs : bytes) : Z := foldl be32_step acc bs.

Lemma be32_step_add acc b :
  is_byte b → be32_step acc b = u32 (acc * 2 ^ 8) + b.
Proof.
  intros Hb. unfold be32_step, u32. rewrite Z.shiftl_mul_pow2 by lia.
  change (2 ^ 32) with (2 ^ 24 * 2 ^ 8). rewrite Zmult_mod_distr_r.
  rewrite <-Z.shiftl_mul_pow2, lor_shiftl_add by (unfold is_byte in Hb; lia).
  by rewrite Z.shiftl_mul_pow2 by lia.
Qed.

Lemma u32_shift_in v b : is_byte b → u32 (u32 v * 2 ^ 8) + b = u32 (v * 256 + b).
Proof.
  unfold is_byte, u32. intros Hb.
  replace (v mod 2 ^ 32 * 2 ^ 8 mod 2 ^ 32) with (v mod 2 ^ 24 * 256).
  - pose proof (Z.mod_pos_bound v (2 ^ 24) eq_refl).
    pose proof (Z.div_mod v (2 ^ 24) ltac:(done)).
    apply (Z.mod_unique_pos _ _ (v / 2 ^ 24)); lia.
  - rewrite Zmult_mod_idemp_l. symmetry.
    change (2 ^ 32) with (2 ^ 24 * 2 ^ 8). apply Zmult_mod_distr_r.
Qed.

(** The mathematical big-endian value. *)
Definition be_val (bs : bytes) : Z := foldl (λ acc b, acc * 256 + b) 0 bs.

Lemma be_fold_shift acc bs :
  foldl (λ acc b, acc * 256 + b) acc bs = acc * 256 ^ zlen bs + be_val bs.
Proof.
  unfold be_val. revert acc. induction bs as [|b bs IH]; intros acc; cbn [foldl].
  - rewrite zlen_nil. lia.
  - rewrite (IH (acc * 256 + b)), (IH (0 * 256 + b)), zlen_cons, Z.pow_add_r.
    + lia.
    + lia.
    + apply zlen_nonneg.
Qed.

Lemma be_val_cons b bs : be_val (b :: bs) = b * 256 ^ zlen bs + be_val bs.
Proof. unfold be_val at 1. cbn [foldl]. by rewrite be_fold_shift. Qed.

Lemma be_val_snoc bs b : be_val (bs ++ [b]) = be_val bs * 256 + b.
Proof. unfold be_val. by rewrite foldl_app. Qed.

Lemma be_val_bound bs : Forall is_byte bs → 0 <= be_val bs < 256 ^ zlen bs.
Proof.
  induction 1 as [|b bs Hb _ IH]; [done|].
  rewrite be_val_cons, zlen_cons, Z.pow_add_r by (pose proof (zlen_nonneg bs); lia).
  unfold is_byte in Hb. nia.
Qed.

(** The accumulated word is the big-endian value, modulo the word size,
    shifted in after whatever the accumulator held. *)
Lemma be32_val acc bs :
  Forall is_byte bs → is_u32 acc → be32 acc bs = u32 (acc * 256 ^ zlen bs + be_val bs).
Proof.
  intros Hbs Hacc. induction bs as [|b bs IH] using rev_ind.
  - cbn. rewrite zlen_nil. symmetry. rewrite u32_id; unfold is_u32 in *; lia.
  - apply Forall_app in Hbs as [Hbs Hb]. apply Forall_cons in Hb as [Hb _].
    unfold be32. rewrite foldl_app. cbn [foldl]. fold (be32 acc bs).
    rewrite be32_step_add, (IH Hbs), be_val_snoc, zlen_app, Z.pow_add_r
      by (done || apply zlen_nonneg).
    change (zlen [b]) with 1. set (v := acc * 256 ^ zlen bs + be_val bs).
    rewrite u32_shift_in by done. f_equal. subst v. lia.
Qed.

(** Four bytes push everything else out of the accumulator. *)
Lemma be32_four acc bs :
  Forall is_byte bs → is_u32 acc → length bs = 4%nat → be32 acc bs = be_val bs.
Proof.
  intros Hbs Hacc Hlen. rewrite be32_val by done.
  pose proof (be_val_bound bs Hbs) as Hb.
  assert (zlen bs = 4) as Hz by (unfold zlen; lia). rewrite Hz in *.
  change (256 ^ 4) with (2 ^ 32) in *. unfold u32.
  rewrite Z.add_comm, Z_mod_plus_full. by apply Z.mod_small.
Qed.

Lemma be32_four_any acc bs : Forall is_byte bs → length bs = 4%nat → be32 acc bs = be_val bs.
Proof.
  intros Hbs Hlen. destruct bs as [|b bs]; [done|]. rewrite <-(be32_four (u32 acc) (b :: bs)) by (done || apply u32_is_u32).
  unfold be32. cbn [foldl]. f_equal. unfold be32_step, u32. f_equal. by rewrite !Z.shiftl_mul_pow2, Zmult_mod_idemp_l by lia.
Qed.

Lemma be32_u32 acc bs : Forall is_byte bs → is_u32 acc → is_u32 (be32 acc bs).
Proof. intros. rewrite be32_val by done. apply u32_is_u32. Qed.

Lemma be32_app acc bs1 bs2 : be32 acc (bs1 ++ bs2) = be32 (be32 acc bs1) bs2.
Proof. apply foldl_app. Qed.

(** ** Slices *)

(** [s[:n]] and [s[n:]], for the uses that stay within the length of [s];
    a negative or larger [n] panics. *)
Definition slice_to {A} (n : Z) (s : list A) : option (list A) :=
  if decide (0 <= n <= zlen s) then Some (take (Z.to_nat n) s) else None.
Definition slice_from {A} (n : Z) (s : list A) : option (list A) :=
  if decide (0 <= n <= zlen s) then Some (drop (Z.to_nat n) s) else None.

Section slices.
Context {A : Type}.
Implicit Types s : list A.

Lemma slice_to_Some n s : 0 <= n <= zlen s → slice_to n s = Some (take (Z.to_nat n) s).
Proof. intros. unfold slice_to. by rewrite decide_True. Qed.
Lemma slice_from_Some n s : 0 <= n <= zlen s → slice_from n s = Some (drop (Z.to_nat n) s).
Proof. intros. unfold slice_from. by rewrite decide_True. Qed.
Lemma take_zlen_app s k : take (Z.to_nat (zlen s)) (s ++ k) = s.
Proof. unfold zlen. by rewrite Nat2Z.id, take_app_length. Qed.
Lemma drop_zlen_app s k : drop (Z.to_nat (zlen s)) (s ++ k) = k.
Proof. unfold zlen. by rewrite Nat2Z.id, drop_app_length. Qed.

(** Two decompositions of one list agree up to the shorter prefix. *)
Lemma app_eq_prefix (l1 k1 l2 k2 : list A) :
  l1 ++ k1 = l2 ++ k2 → (length l1 ≤ length l2)%nat → ∃ m, l2 = l1 ++ m ∧ k1 = m ++ k2.
Proof.
  intros H Hl. apply app_eq_inv in H as [(m & -> & ->)|(m & -> & ->)].
  - rewrite length_app in Hl. destruct m; [|cbn in Hl; lia].
    exists []. by rewrite !app_nil_r.
  - by exists m.
Qed.
End slices.

(** [id & max] never exceeds [max]. *)
Lemma land_le_r a b : 0 <= b → Z.land a b <= b.
Proof.
  intros Hb. pose proof (Z.add_lor_land (Z.land a b) (Z.ldiff b a)) as H.
  assert (Z.lor (Z.land a b) (Z.ldiff b a) = b) as H1.
  { apply Z.bits_inj'. intros n Hn. rewrite Z.lor_spec, Z.land_spec, Z.ldiff_spec.
    by destruct (Z.testbit a n), (Z.testbit b n). }
  assert (Z.land (Z.land a b) (Z.ldiff b a) = 0) as H2.
  { apply Z.bits_inj'. intros n Hn. rewrite !Z.land_spec, Z.ldiff_spec, Z.bits_0.
    by destruct (Z.testbit a n), (Z.testbit b n). }
  assert (0 <= Z.ldiff b a) by (apply Z.ldiff_nonneg; lia). lia.
Qed.

Lemma land_odd a b : Z.odd (Z.land a b) = Z.odd a && Z.odd b.
Proof. by rewrite <-!Z.bit0_odd, Z.land_spec. Qed.

(** Lists indexed by a function of their elements do not overlap. *)
Lemma NoDup_concat_index {A} (f : A → nat) (ls : list (list A)) n :
  (∀ i l, ls !! i = Some l → NoDup l ∧ ∀ x, x ∈ l → f x = (n + i)%nat) → NoDup (concat ls).
Proof.
  revert n. induction ls as [|l ls IH]; intros n H; cbn; [constructor|].
  apply NoDup_app. destruct (H 0%nat l eq_refl) as [Hl Hf]. split_and!; [done| |].
  - intros x Hx Hin. apply list_elem_of_In, in_concat in Hin as (k & Hk & Hxk).
    apply list_elem_of_In, list_elem_of_lookup in Hk as [i Hi].
    apply list_elem_of_In in Hxk.
    pose proof (Hf x Hx). destruct (H (S i) k Hi) as [_ Hf']. pose proof (Hf' x Hxk). lia.
  - apply (IH (S n)). intros i k Hk. destruct (H (S i) k Hk) as [? Hf'].
    split; [done|]. intros x Hx. rewrite (Hf' x Hx). lia.
Qed.

(** The elements at odd positions. *)
Fixpoint odds {A} (l : list A) : list A :=
  match l with
  | _ :: x :: l => x :: odds l
  | _ => []
  end.

Lemma fmap_concat {A B} (f : A → B) (ls : list (list A)) : f <$> concat ls = concat ((λ l : list A, f <$> l) <$> ls).
Proof. induction ls as [|l ls IH]; [done|]. cbn. by rewrite fmap_app, IH. Qed.

(** Induction two elements at a time. *)
Lemma list_pair_ind {A} (P : list A → Prop) :
  P [] → (∀ x, P [x]) → (∀ x y l, P l → P (x :: y :: l)) → ∀ l, P l.
Proof. intros H0 H1 H2. fix IH 1. intros [|x [|y l]]; [exact H0|apply H1|]. apply H2, IH. Qed.

Lemma concat_odds {A} (ls : list (list A)) :
  (∀ i l, ls !! i = Some l → l ≠ [] → Nat.odd i = true) → concat ls = concat (odds ls).
Proof.
  induction ls as [|l0|l0 l1 ls IH] using list_pair_ind; intros H; [done| |];
    (destruct l0 as [|x l0]; [|by discriminate (H 0%nat _ eq_refl)]); [done|].
  cbn. f_equal. apply IH. intros i l Hl Hne. apply (H (S (S i)) l Hl Hne).
Qed.

Lemma odds_fmap {A B} (f : A → B) (l : list A) : odds (f <$> l) = f <$> odds l.
Proof. induction l as [| |x y l IH] using list_pair_ind; [done..|]. cbn. by rewrite IH. Qed.

(** Sums. *)
Definition zsum (l : list Z) : Z := foldr Z.add 0 l.
Lemma zsum_cons x l : zsum (x :: l) = x + zsum l.
Proof. done. Qed.
Lemma zsum_app l k : zsum (l ++ k) = zsum l + zsum k.
Proof. induction l as [|x l IH]; [done|]. cbn [app]. rewrite !zsum_cons, IH. lia. Qed.

(** The members of a concatenation. *)
Lemma elem_of_concat_fmap {A B} (f : A → list B) l x : x ∈ concat (f <$> l) ↔ ∃ a, a ∈ l ∧ x ∈ f a.
Proof.
  induction l as [|a l IH]; cbn [fmap list_fmap concat]; [set_solver|]. rewrite elem_of_app, IH. setoid_rewrite elem_of_cons. naive_solver.
Qed.
