(* ===== verification/FrameHeader.v ===== *)
(** * frameheader: the nine bytes in front of every HTTP/2 frame

    Models src/frameheader/frameheader.go. A [FrameHeader] is a byte slice;
    the accessors check its bounds and panic beyond them, which the model
    writes as [None]. *)

From S2P Require Import Prelude.

(** golang.org/x/net/http2 constants the program names. *)
Definition FrameData : Z := 0.
Definition FrameHeaders : Z := 1.
Definition FramePriority : Z := 2.
Definition FramePushPromise : Z := 5.
Definition FrameRSTStream : Z := 3.
Definition FrameSettings : Z := 4.
Definition FramePing : Z := 6.
Definition FrameGoAway : Z := 7.
Definition FrameWindowUpdate : Z := 8.
Definition FrameContinuation : Z := 9.
Definition FlagDataEndStream : Z := 1.
Definition FlagHeadersEndStream : Z := 1.
Definition FlagHeadersEndHeaders : Z := 4.
Definition FlagSettingsAck : Z := 1.
Definition FlagPingAck : Z := 1.

(** [Flags.Has] of that package: [(f & v) == v]. *)
Definition flags_has (f v : Z) : bool := Z.land f v =? v.

Definition NewFrameHeader : bytes := replicate 9 0.

(** [_ = f[8]] panics on a slice shorter than nine bytes. *)
Definition Fill (f : bytes) (len t flags streamID : Z) : option bytes :=
  _ ← f !! 8%nat;
  Some (<[8%nat := u8 streamID]> (<[7%nat := u8 (Z.shiftr streamID 8)]>
       (<[6%nat := u8 (Z.shiftr streamID 16)]> (<[5%nat := u8 (Z.shiftr streamID 24)]>
       (<[4%nat := u8 flags]> (<[3%nat := u8 t]>
       (<[2%nat := u8 len]> (<[1%nat := u8 (Z.shiftr len 8)]>
       (<[0%nat := u8 (Z.shiftr len 16)]> f))))))))).

Definition Length (f : bytes) : option Z :=
  b0 ← f !! 0%nat; b1 ← f !! 1%nat; b2 ← f !! 2%nat;
  Some (Z.lor (Z.lor (Z.shiftl b0 16) (Z.shiftl b1 8)) b2).

Definition SetLength (l : Z) (f : bytes) : option bytes :=
  _ ← f !! 2%nat;
  Some (<[2%nat := u8 l]> (<[1%nat := u8 (Z.shiftr l 8)]>
       (<[0%nat := u8 (Z.shiftr l 16)]> f))).

Definition Type_ (f : bytes) : option Z := f !! 3%nat.
Definition SetType (t : Z) (f : bytes) : option bytes :=
  _ ← f !! 3%nat; Some (<[3%nat := u8 t]> f).

Definition Flags (f : bytes) : option Z := f !! 4%nat.
Definition SetFlags (flag : Z) (f : bytes) : option bytes :=
  _ ← f !! 4%nat; Some (<[4%nat := u8 flag]> f).

(** [binary.BigEndian.Uint32(f[5:])]. *)
Definition StreamID (f : bytes) : option Z :=
  b0 ← f !! 5%nat; b1 ← f !! 6%nat; b2 ← f !! 7%nat; b3 ← f !! 8%nat;
  Some (Z.lor (Z.lor (Z.lor b3 (Z.shiftl b2 8)) (Z.shiftl b1 16)) (Z.shiftl b0 24)).

Definition SetStreamID (streamID : Z) (f : bytes) : option bytes :=
  _ ← f !! 8%nat;
  Some (<[8%nat := u8 streamID]> (<[7%nat := u8 (Z.shiftr streamID 8)]>
       (<[6%nat := u8 (Z.shiftr streamID 16)]> (<[5%nat := u8 (Z.shiftr streamID 24)]> f)))).

(** ** Lemmas *)

(** The nine bytes of a header with the given fields. *)
Definition header_bytes (len t flags streamID : Z) : bytes :=
  [u8 (Z.shiftr len 16); u8 (Z.shiftr len 8); u8 len; u8 t; u8 flags;
   u8 (Z.shiftr streamID 24); u8 (Z.shiftr streamID 16); u8 (Z.shiftr streamID 8); u8 streamID].

(** [nine f]: a list of nine bytes, opened. *)
Ltac nine f :=
  do 9 (destruct f as [|? f]; [discriminate|]); destruct f; [|discriminate].

Lemma u8_shiftr x k : 0 <= k → u8 (Z.shiftr x k) = x / 2 ^ k mod 2 ^ 8.
Proof. intros. unfold u8. by rewrite Z.shiftr_div_pow2. Qed.

Lemma three_bytes_value x :
  Z.lor (Z.lor (Z.shiftl (u8 (Z.shiftr x 16)) 16) (Z.shiftl (u8 (Z.shiftr x 8)) 8)) (u8 x)
  = x mod 2 ^ 24.
Proof.
  rewrite !u8_shiftr by lia. unfold u8.
  pose proof (Z.mod_pos_bound (x / 2 ^ 16) (2 ^ 8) eq_refl).
  pose proof (Z.mod_pos_bound (x / 2 ^ 8) (2 ^ 8) eq_refl).
  pose proof (Z.mod_pos_bound x (2 ^ 8) eq_refl).
  rewrite (lor_shiftl_add (Z.shiftl _ 8)) by (rewrite ?Z.shiftl_mul_pow2 by lia; lia).
  rewrite Z.shiftl_mul_pow2 by lia.
  replace (x / 2 ^ 16 mod 2 ^ 8 * 2 ^ 16 + x / 2 ^ 8 mod 2 ^ 8 * 2 ^ 8)
    with (Z.shiftl (x / 2 ^ 16 mod 2 ^ 8 * 2 ^ 8 + x / 2 ^ 8 mod 2 ^ 8) 8)
    by (rewrite Z.shiftl_mul_pow2; lia).
  rewrite lor_shiftl_add by lia.
  Z.div_mod_to_equations. lia.
Qed.

Lemma four_bytes_value x :
  Z.lor (Z.lor (Z.lor (u8 x) (Z.shiftl (u8 (Z.shiftr x 8)) 8))
    (Z.shiftl (u8 (Z.shiftr x 16)) 16)) (Z.shiftl (u8 (Z.shiftr x 24)) 24)
  = u32 x.
Proof.
  rewrite !u8_shiftr by lia. unfold u8, u32.
  pose proof (Z.mod_pos_bound (x / 2 ^ 24) (2 ^ 8) eq_refl).
  pose proof (Z.mod_pos_bound (x / 2 ^ 16) (2 ^ 8) eq_refl).
  pose proof (Z.mod_pos_bound (x / 2 ^ 8) (2 ^ 8) eq_refl).
  pose proof (Z.mod_pos_bound x (2 ^ 8) eq_refl).
  rewrite (Z.lor_comm (x mod 2 ^ 8)), (lor_shiftl_add (x mod 2 ^ 8)) by lia.
  rewrite (Z.lor_comm _ (Z.shiftl _ 16)), lor_shiftl_add by lia.
  rewrite (Z.lor_comm _ (Z.shiftl _ 24)), lor_shiftl_add by lia.
  Z.div_mod_to_equations. lia.
Qed.

Lemma Fill_spec f len t flags id :
  length f = 9%nat → Fill f len t flags id = Some (header_bytes len t flags id).
Proof. intros H. nine f. done. Qed.

(** The setters called in the order of [setUpHeaders] write the whole header. *)
Lemma setters_spec f len t flags id :
  length f = 9%nat →
  ((SetLength len f ≫= SetType t) ≫= SetFlags flags) ≫= SetStreamID id
  = Some (header_bytes len t flags id).
Proof. intros H. nine f. done. Qed.

Lemma header_bytes_length len t flags id : length (header_bytes len t flags id) = 9%nat.
Proof. done. Qed.

Lemma header_bytes_ok len t flags id : Forall is_byte (header_bytes len t flags id).
Proof. unfold header_bytes. repeat (apply Forall_cons; split; [apply u8_is_byte|]). apply Forall_nil_2. Qed.

Lemma Length_header_bytes len t flags id :
  0 <= len < 2 ^ 24 → Length (header_bytes len t flags id) = Some len.
Proof.
  intros H. unfold Length, header_bytes. cbn -[Z.lor Z.shiftl].
  rewrite three_bytes_value. by rewrite Z.mod_small.
Qed.

Lemma StreamID_header_bytes len t flags id :
  StreamID (header_bytes len t flags id) = Some (u32 id).
Proof. unfold StreamID, header_bytes. cbn -[Z.lor Z.shiftl]. by rewrite four_bytes_value. Qed.

Lemma header_nine f : length f = 9%nat →
  ∃ len t flags id, Length f = Some len ∧ Type_ f = Some t ∧ Flags f = Some flags ∧ StreamID f = Some id.
Proof. intros H. nine f. by eexists _, _, _, _. Qed.

Lemma Length_nonneg f n : Forall is_byte f → Length f = Some n → 0 <= n.
Proof.
  unfold Length. intros Hf Hn.
  destruct f as [|b0 [|b1 [|b2 f]]]; try discriminate. cbn -[Z.lor Z.shiftl] in Hn.
  injection Hn as <-. do 3 (apply Forall_cons in Hf as [? Hf]). unfold is_byte in *.
  rewrite !Z.lor_nonneg, !Z.shiftl_nonneg. lia.
Qed.

#[export] Hint Resolve header_bytes_ok header_bytes_length : words.

(** The getters read back what [Fill] wrote, whatever the slice held. *)
Theorem header_roundtrip f len t flags id :
  length f = 9%nat → 0 <= len < 2 ^ 24 → is_byte t → is_byte flags → is_u32 id →
  ∃ f', Fill f len t flags id = Some f' ∧ length f' = 9%nat ∧
    Length f' = Some len ∧ Type_ f' = Some t ∧ Flags f' = Some flags ∧ StreamID f' = Some id.
Proof.
  intros Hf Hlen Ht Hfl Hid. exists (header_bytes len t flags id).
  rewrite Fill_spec, Length_header_bytes, StreamID_header_bytes, u32_id by done.
  unfold Type_, Flags, header_bytes. cbn. by rewrite (u8_id t), (u8_id flags).
Qed.

Theorem header_roundtrip_witness :
  ∃ f', Fill NewFrameHeader 70000 FrameData FlagDataEndStream 3 = Some f' ∧ length f' = 9%nat ∧
    Length f' = Some 70000 ∧ Type_ f' = Some FrameData ∧ Flags f' = Some FlagDataEndStream ∧ StreamID f' = Some 3.
Proof. apply header_roundtrip; unfold is_byte, is_u32, FrameData, FlagDataEndStream; (reflexivity || lia). Defined.
