(* ===== verification/Types.v ===== *)
(** * Types: the interfaces between the loader's components

    Models src/loader/types (stream.go, req.go). A stream is a pointer to a
    pooled object, so the model passes its reference around; what the other
    components do to a stream, to the limiter, to the flow controls and to the
    outgoing frame channel is recorded, in order, as a log of events. *)

From S2P Require Import Prelude.

(** A [types.Stream]: the address of a [*streamImpl]. [nil] is [None]. *)
Definition stream : Type := nat.

(** The calls on [types.StreamState]. *)
Inductive StreamState :=
| RequestError
| FirstByteSent
| LastByteSent
| SetSize (size : Z)
| OnHeader (name value : bytes)
| IoError
| RSTStream (code : Z)
| GoAway (code : Z) (debugData : bytes)
| Timeout
| End_.

(** The calls the receiving side makes on the objects it shares. *)
Inductive event :=
| EvStream (s : stream) (c : StreamState)
| EvLimiterRelease
| EvFcAdd (fc : option stream) (n : Z)   (** [None]: the connection's flow control *)
| EvSend (frame : bytes).                 (** a frame put on the priority channel *)

#[export] Instance StreamState_eq_dec : EqDecision StreamState.
Proof. solve_decision. Defined.
#[export] Instance event_eq_dec : EqDecision event.
Proof. solve_decision. Defined.

(** [types.Frame]: up to three chunks and what the frame costs in window. *)
Record Frame := mkFrame { Chunks : list bytes; FlowControlPrice : Z }.

(** ** [types.StreamStore]

    The interface and what it promises. An operation that panics is [None];
    [Get] and [GetAndDelete] answer [nil] with [Some None]. The promise is
    stated on the ids the store accepts, over a finite map. *)
Class StreamStore (S : Type) := {
  store_Set : Z → stream → S → option S;
  store_Get : Z → S → option (option stream);
  store_GetAndDelete : Z → S → option (option stream * S);
  store_Delete : Z → S → option S;
  store_Each : S → list stream
}.

Class StreamStoreSpec (S : Type) `{!StreamStore S} := {
  store_ok : S → Prop;
  store_key : Z → Prop;
  store_abs : S → gmap Z stream;
  store_Set_spec s id st : store_ok s → store_key id →
    ∃ s', store_Set id st s = Some s' ∧ store_ok s' ∧ store_abs s' = <[id := st]> (store_abs s);
  store_Get_spec s id : store_ok s → store_key id →
    store_Get id s = Some (store_abs s !! id);
  store_GetAndDelete_spec s id : store_ok s → store_key id →
    ∃ s', store_GetAndDelete id s = Some (store_abs s !! id, s') ∧ store_ok s' ∧
      store_abs s' = delete id (store_abs s);
  store_Delete_spec s id : store_ok s → store_key id →
    ∃ s', store_Delete id s = Some s' ∧ store_ok s' ∧ store_abs s' = delete id (store_abs s);
  store_Each_spec s : store_ok s →
    ∃ kvs, kvs ≡ₚ map_to_list (store_abs s) ∧ store_Each s = kvs.*2
}.
