(* ===== verification/Store.v ===== *)
(** * Store: the streams in flight, by id

    Models src/loader/streams/store/store.go: the plain map, the locked map,
    the sharded map the loader uses, and the no-op store. Each method of a
    locked store is one critical section, hence one step of the model. *)

From S2P Require Import Prelude Types.

(** ** StreamsNoop *)
Module Noop.
Definition StreamsNoop : Type := unit.
#[export] Instance StreamsNoop_store : StreamStore StreamsNoop := {|
  store_Set _ _ s := Some s;
  store_Get _ _ := Some None;
  store_GetAndDelete _ s := Some (None, s);
  store_Delete _ s := Some s;
  store_Each _ := []
|}.
End Noop.

(** ** StreamsMapUnlocked: [map[uint32]types.Stream] *)
Record StreamsMapUnlocked := mkStreamsMapUnlocked { unlocked_map : gmap Z stream }.

Definition NewStreamsMapUnlocked : StreamsMapUnlocked := mkStreamsMapUnlocked ∅.

Definition unlocked_Each (m : StreamsMapUnlocked) : list stream := (map_to_list (unlocked_map m)).*2.
Definition unlocked_Set (id : Z) (st : stream) (m : StreamsMapUnlocked) : StreamsMapUnlocked :=
  mkStreamsMapUnlocked (<[id := st]> (unlocked_map m)).
Definition unlocked_Get (id : Z) (m : StreamsMapUnlocked) : option stream := unlocked_map m !! id.
Definition unlocked_Delete (id : Z) (m : StreamsMapUnlocked) : StreamsMapUnlocked :=
  mkStreamsMapUnlocked (delete id (unlocked_map m)).
Definition unlocked_GetAndDelete (id : Z) (m : StreamsMapUnlocked)
    : option stream * StreamsMapUnlocked :=
  let stream := unlocked_Get id m in
  match stream with
  | Some _ => (stream, unlocked_Delete id m)
  | None => (stream, m)
  end.

(** ** StreamsMap: the same map behind a lock *)
Record StreamsMap := mkStreamsMap { sm_m : StreamsMapUnlocked }.

Definition NewStreamsMap : StreamsMap := mkStreamsMap NewStreamsMapUnlocked.

#[export] Instance StreamsMap_store : StreamStore StreamsMap := {|
  store_Set id st s := Some (mkStreamsMap (unlocked_Set id st (sm_m s)));
  store_Get id s := Some (unlocked_Get id (sm_m s));
  store_GetAndDelete id s :=
    let '(o, m) := unlocked_GetAndDelete id (sm_m s) in Some (o, mkStreamsMap m);
  store_Delete id s := Some (mkStreamsMap (unlocked_Delete id (sm_m s)));
  store_Each s := unlocked_Each (sm_m s)
|}.

#[export] Program Instance StreamsMap_spec : StreamStoreSpec StreamsMap := {|
  store_ok _ := True;
  store_key _ := True;
  store_abs s := unlocked_map (sm_m s)
|}.
Next Obligation. intros s id st _ _. by eexists. Qed.
Next Obligation. done. Qed.
Next Obligation.
  intros [[m]] id _ _. cbn. unfold unlocked_GetAndDelete, unlocked_Get. cbn.
  destruct (m !! id) as [st|] eqn:E; eexists; split_and!; try done.
  cbn. by rewrite delete_id.
Qed.
Next Obligation. intros s id _ _. by eexists. Qed.
Next Obligation. intros s _. by eexists. Qed.

(** ** ShardedStreamsMap

    [size*2] slots, of which only the odd ones hold a shard; [shard] picks slot
    [id & (size-1)]. An empty slot is a nil interface: a method call panics. *)
Section sharded.
Context {S : Type} `{!StreamStore S}.

Record ShardedStreamsMap := mkSharded { shards : list (option S); max : Z }.

Definition NewShardedStreamsMap (size : Z) (build : S) : ShardedStreamsMap :=
  mkSharded ((λ i, if Nat.odd i then Some build else None) <$> seq 0 (Z.to_nat (u32 (size * 2))))
            (u32 (size - 1)).

Definition shard_index (id : Z) (s : ShardedStreamsMap) : nat := Z.to_nat (Z.land id (max s)).

(** [s.shards[id&s.max]]; the outer [option] is the index check, the inner
    one the nil interface, and both panic. *)
Definition shard (id : Z) (s : ShardedStreamsMap) : option S := mjoin (shards s !! shard_index id s).

(** [for i := 1; i < len(s.shards); i += 2]. *)
Definition sharded_Each (s : ShardedStreamsMap) : list stream :=
  concat (from_option store_Each [] <$> odds (shards s)).

Definition set_shard (id : Z) (c : S) (s : ShardedStreamsMap) : ShardedStreamsMap :=
  mkSharded (<[shard_index id s := Some c]> (shards s)) (max s).

#[export] Instance Sharded_store : StreamStore ShardedStreamsMap := {|
  store_Set id st s := c ← shard id s; c' ← store_Set id st c; Some (set_shard id c' s);
  store_Get id s := c ← shard id s; store_Get id c;
  store_GetAndDelete id s :=
    c ← shard id s; r ← store_GetAndDelete id c; Some (r.1, set_shard id r.2 s);
  store_Delete id s := c ← shard id s; c' ← store_Delete id c; Some (set_shard id c' s);
  store_Each := sharded_Each
|}.
End sharded.
Arguments ShardedStreamsMap : clear implicits.

(** ** The sharded map implements the interface on odd ids

    Client-initiated HTTP/2 streams are odd; [sharded_even_panics] below shows
    that the others are not merely unsupported. *)
Section sharded_spec.
Context {S : Type} `{!StreamStore S} `{!StreamStoreSpec S}.
Implicit Types s : ShardedStreamsMap S.

Definition slot_kvs (o : option S) : list (Z * stream) :=
  from_option (λ c, map_to_list (store_abs c)) [] o.

Definition sharded_abs s : gmap Z stream := list_to_map (concat (slot_kvs <$> shards s)).

(** Shards sit exactly at odd positions, at least up to [max], each is well
    formed, and holds only ids that [shard] sends to it. *)
Record sharded_ok s : Prop := {
  so_max : 0 <= max s ∧ Z.odd (max s) = true;
  so_slots i : Nat.odd i = true → (i <= Z.to_nat (max s))%nat → ∃ c, shards s !! i = Some (Some c);
  so_odd i c : shards s !! i = Some (Some c) → Nat.odd i = true;
  so_inner i c : shards s !! i = Some (Some c) → store_ok c;
  so_index i c k : shards s !! i = Some (Some c) → is_Some (store_abs c !! k) → shard_index k s = i
}.

Lemma shard_index_odd s id :
  sharded_ok s → Z.odd id = true → Nat.odd (shard_index id s) = true.
Proof.
  intros [[Hm Ho] _ _ _ _] Hid. unfold shard_index.
  assert (0 <= Z.land id (max s)) by (apply Z.land_nonneg; lia).
  pose proof (land_odd id (max s)) as Hodd. rewrite Hid, Ho in Hodd.
  apply Z.odd_spec in Hodd as [m Hm']. apply Nat.odd_spec. exists (Z.to_nat m). lia.
Qed.

Lemma shard_index_le s id : 0 <= max s → (shard_index id s <= Z.to_nat (max s))%nat.
Proof. intros. unfold shard_index. pose proof (land_le_r id (max s)). lia. Qed.

Lemma shard_some s id :
  sharded_ok s → Z.odd id = true →
  ∃ c, shards s !! shard_index id s = Some (Some c) ∧ shard id s = Some c ∧ store_ok c.
Proof.
  intros Hok Hid. pose proof (shard_index_odd s id Hok Hid) as Hodd.
  destruct Hok as [[Hm ?] Hslots _ Hin _].
  destruct (Hslots _ Hodd (shard_index_le s id Hm)) as [c Hc].
  exists c. unfold shard. rewrite Hc. eauto.
Qed.

(** *** The abstract map *)
Lemma slot_kvs_elem o k v : (k, v) ∈ slot_kvs o ↔ ∃ c, o = Some c ∧ store_abs c !! k = Some v.
Proof.
  destruct o as [c|]; cbn.
  - rewrite elem_of_map_to_list. naive_solver.
  - rewrite list_elem_of_In. naive_solver.
Qed.

Lemma sharded_kvs_NoDup s : sharded_ok s → NoDup (concat (slot_kvs <$> shards s)).*1.
Proof.
  intros Hok. rewrite fmap_concat.
  apply (NoDup_concat_index (λ k, shard_index k s) _ 0).
  intros i l Hl. apply list_lookup_fmap_Some in Hl as (l' & -> & Hl).
  apply list_lookup_fmap_Some in Hl as (o & -> & Ho). split.
  - destruct o as [c|]; [|constructor]. apply NoDup_fst_map_to_list.
  - intros k Hk. apply list_elem_of_fmap in Hk as ([k' v] & -> & Hkv).
    apply slot_kvs_elem in Hkv as (c & -> & Hc). eapply so_index; eauto.
Qed.

Lemma sharded_abs_lookup s k :
  sharded_ok s → sharded_abs s !! k = shard k s ≫= λ c, store_abs c !! k.
Proof.
  intros Hok. apply option_eq. intros v. unfold sharded_abs.
  rewrite <-elem_of_list_to_map by by apply sharded_kvs_NoDup.
  rewrite list_elem_of_In, in_concat. split.
  - intros (l & Hl & Hkv). apply list_elem_of_In, list_elem_of_lookup in Hl as [i Hl].
    apply list_lookup_fmap_Some in Hl as (o & -> & Ho).
    apply list_elem_of_In, slot_kvs_elem in Hkv as (c & -> & Hc).
    assert (shard_index k s = i) as <- by (eapply so_index; eauto).
    unfold shard. by rewrite Ho.
  - intros (c & Hc & Hk)%bind_Some. unfold shard in Hc.
    destruct (shards s !! shard_index k s) as [o|] eqn:Ho; [|done]. cbn in Hc. subst o.
    exists (slot_kvs (Some c)). rewrite <-!list_elem_of_In. split.
    + apply list_elem_of_fmap. exists (Some c). split; [done|].
      apply list_elem_of_lookup. eauto.
    + apply slot_kvs_elem. eauto.
Qed.

(** Replacing one shard by a shard whose content differs at [id] only. *)
Lemma set_shard_ok s id c c' m :
  sharded_ok s → Z.odd id = true → shards s !! shard_index id s = Some (Some c) →
  store_ok c' → (∀ k, k ≠ id → store_abs c' !! k = store_abs c !! k) →
  (∀ k, k ≠ id → m !! k = sharded_abs s !! k) → m !! id = store_abs c' !! id →
  sharded_ok (set_shard id c' s) ∧ sharded_abs (set_shard id c' s) = m.
Proof.
  intros Hok Hid Hc Hc' Hdiff Hm Hmid.
  assert (sharded_ok (set_shard id c' s)) as Hok'.
  { destruct Hok as [H1 H2 H3 H4 H5].
    assert (∀ i d, <[shard_index id s:=Some c']> (shards s) !! i = Some (Some d) →
      i = shard_index id s ∧ d = c' ∨ i ≠ shard_index id s ∧ shards s !! i = Some (Some d)) as Hcase.
    { intros i d [(-> & ? & ?)|[? ?]]%list_lookup_insert_Some; naive_solver. }
    split; cbn.
    - done.
    - intros i Hi Hle. destruct (H2 i Hi Hle) as [d Hd].
      destruct (decide (i = shard_index id s)) as [->|].
      + exists c'. rewrite list_lookup_insert_eq; [done|]. by eapply lookup_lt_Some.
      + exists d. by rewrite list_lookup_insert_ne.
    - intros i d [(-> & _)|[_ Hd]]%Hcase; eauto.
    - intros i d [(-> & ->)|[_ Hd]]%Hcase; eauto.
    - intros i d k [(-> & ->)|[_ Hd]]%Hcase Hk.
      + destruct (decide (k = id)) as [->|Hne]; [done|].
        rewrite (Hdiff k Hne) in Hk. by apply (H5 _ c).
      + by apply (H5 _ d). }
  split; [done|]. apply map_eq. intros k. rewrite sharded_abs_lookup by done.
  unfold shard. change (shard_index k (set_shard id c' s)) with (shard_index k s). cbn [set_shard shards].
  destruct (decide (k = id)) as [->|Hne].
  { rewrite list_lookup_insert_eq by (by eapply lookup_lt_Some). done. }
  rewrite (Hm k Hne), sharded_abs_lookup by done. unfold shard.
  destruct (decide (shard_index k s = shard_index id s)) as [->|Hi].
  - rewrite list_lookup_insert_eq by (by eapply lookup_lt_Some). rewrite Hc. cbn. by apply Hdiff.
  - by rewrite list_lookup_insert_ne by done.
Qed.

(** [Each] visits the odd slots, which is everything there is. *)
Lemma sharded_Each_perm s :
  sharded_ok s → ∃ kvs, kvs ≡ₚ map_to_list (sharded_abs s) ∧ sharded_Each s = kvs.*2.
Proof.
  intros Hok.
  assert (∃ kvss, Forall2 (λ o l, l ≡ₚ slot_kvs o ∧ from_option store_Each [] o = l.*2) (odds (shards s)) kvss)
    as [kvss Hkvss].
  { assert (Forall (λ o : option S, ∀ c, o = Some c → store_ok c) (shards s)) as Hin.
    { apply Forall_lookup. intros i o Ho c ->. by eapply so_inner. }
    revert Hin. generalize (shards s). intros l.
    induction l as [|o|o o' l IH] using list_pair_ind; intros Hin; cbn; [by exists [] |by exists [] |].
    apply Forall_cons in Hin as [_ Hin]. apply Forall_cons in Hin as [Ho Hin].
    destruct (IH Hin) as [kvss Hk]. destruct o' as [c|]; cbn.
    - destruct (store_Each_spec c (Ho c eq_refl)) as (kvs & Hp & He). exists (kvs :: kvss). by constructor.
    - exists ([] :: kvss). by constructor. }
  exists (concat kvss). split.
  - unfold sharded_abs. rewrite map_to_list_to_map by by apply sharded_kvs_NoDup.
    rewrite (concat_odds (slot_kvs <$> shards s)).
    + rewrite odds_fmap. clear Hok. induction Hkvss as [|o l os ls [Hp _] _ IH]; [done|].
      cbn. by rewrite Hp, IH.
    + intros i l Hl Hne. apply list_lookup_fmap_Some in Hl as (o & -> & Ho).
      destruct o as [c|]; [by eapply so_odd|done].
  - unfold sharded_Each. rewrite fmap_concat. clear Hok.
    induction Hkvss as [|o l os ls [_ He] _ IH]; [done|]. cbn. by rewrite He, IH.
Qed.

#[export] Program Instance Sharded_spec : StreamStoreSpec (ShardedStreamsMap S) := {|
  store_ok := sharded_ok;
  store_key id := Z.odd id = true ∧ store_key (S := S) id;
  store_abs := sharded_abs
|}.
Next Obligation.
  intros s id st Hok [Hid Hk]. destruct (shard_some s id Hok Hid) as (c & Hc & Hsh & Hcok).
  destruct (store_Set_spec c id st Hcok Hk) as (c' & Hset & Hc'ok & Habs).
  cbn. rewrite Hsh. cbn. rewrite Hset. cbn. eexists. split; [done|].
  eapply set_shard_ok; try done; rewrite ?Habs.
  - intros k Hne. by rewrite lookup_insert_ne.
  - intros k Hne. by rewrite lookup_insert_ne.
  - by rewrite !lookup_insert_eq.
Qed.
Next Obligation.
  intros s id Hok [Hid Hk]. destruct (shard_some s id Hok Hid) as (c & Hc & Hsh & Hcok).
  cbn. rewrite Hsh. cbn. rewrite store_Get_spec by done.
  by rewrite sharded_abs_lookup, Hsh.
Qed.
Next Obligation.
  intros s id Hok [Hid Hk]. destruct (shard_some s id Hok Hid) as (c & Hc & Hsh & Hcok).
  destruct (store_GetAndDelete_spec c id Hcok Hk) as (c' & Hset & Hc'ok & Habs).
  cbn. rewrite Hsh. cbn. rewrite Hset. cbn. eexists. split.
  { by rewrite sharded_abs_lookup, Hsh. }
  eapply set_shard_ok; try done; rewrite ?Habs.
  - intros k Hne. by rewrite lookup_delete_ne.
  - intros k Hne. by rewrite lookup_delete_ne.
  - by rewrite !lookup_delete_eq.
Qed.
Next Obligation.
  intros s id Hok [Hid Hk]. destruct (shard_some s id Hok Hid) as (c & Hc & Hsh & Hcok).
  destruct (store_Delete_spec c id Hcok Hk) as (c' & Hset & Hc'ok & Habs).
  cbn. rewrite Hsh. cbn. rewrite Hset. cbn. eexists. split; [done|].
  eapply set_shard_ok; try done; rewrite ?Habs.
  - intros k Hne. by rewrite lookup_delete_ne.
  - intros k Hne. by rewrite lookup_delete_ne.
  - by rewrite !lookup_delete_eq.
Qed.
Next Obligation. exact sharded_Each_perm. Qed.

(** *** Construction *)
Lemma new_sharded_lookup size (build : S) i :
  0 < size < 2 ^ 31 →
  shards (NewShardedStreamsMap size build) !! i =
    if decide (i < Z.to_nat (size * 2))%nat then Some (if Nat.odd i then Some build else None) else None.
Proof.
  intros Hs. cbn. rewrite u32_id by (unfold is_u32; lia).
  case_decide as Hi.
  - rewrite list_lookup_fmap, lookup_seq_lt by done. done.
  - rewrite list_lookup_fmap, lookup_seq_ge by lia. done.
Qed.

Lemma new_sharded_ok size (build : S) :
  0 < size < 2 ^ 31 → Z.even size = true → store_ok build → store_abs build = ∅ →
  sharded_ok (NewShardedStreamsMap size build) ∧ sharded_abs (NewShardedStreamsMap size build) = ∅.
Proof.
  intros Hs Heven Hok Hempty.
  assert (max (NewShardedStreamsMap size build) = size - 1) as Hmax.
  { cbn. apply u32_id. unfold is_u32. lia. }
  assert (∀ i c, shards (NewShardedStreamsMap size build) !! i = Some (Some c) →
    Nat.odd i = true ∧ c = build) as Hinv.
  { intros i c. rewrite new_sharded_lookup by done. case_decide; [|done].
    destruct (Nat.odd i); [|done]. by intros [= ->]. }
  assert (sharded_ok (NewShardedStreamsMap size build)) as H.
  { split.
    - rewrite Hmax. split; [lia|]. rewrite Z.odd_sub. by rewrite <-Z.negb_even, Heven.
    - intros i Hi Hle. exists build. rewrite new_sharded_lookup by done.
      rewrite decide_True by lia. by rewrite Hi.
    - intros i c Hc. by apply Hinv in Hc as [? _].
    - intros i c Hc. by apply Hinv in Hc as [_ ->].
    - intros i c k Hc. apply Hinv in Hc as [_ ->]. rewrite Hempty, lookup_empty. by intros [? [=]]. }
  split; [done|]. apply map_eq. intros k. rewrite sharded_abs_lookup, lookup_empty by done.
  unfold shard. destruct (_ !! _) as [[c|]|] eqn:E; [|done|done]. cbn.
  apply Hinv in E as [_ ->]. by rewrite Hempty.
Qed.
End sharded_spec.

(** The store of the loader, [NewShardedStreamsMap(16, NewStreamsMap)]. *)
Definition loaderStore : ShardedStreamsMap StreamsMap := NewShardedStreamsMap 16 NewStreamsMap.

(** ** Sequences of operations *)
Inductive store_op := OSet (id : Z) (st : stream) | OGet (id : Z) | OGetAndDelete (id : Z) | ODelete (id : Z).

Definition op_id (o : store_op) : Z :=
  match o with OSet id _ | OGet id | OGetAndDelete id | ODelete id => id end.

(** One operation against an implementation, and against a finite map. *)
Definition run_op {S} `{!StreamStore S} (o : store_op) (s : S) : option (option stream * S) :=
  match o with
  | OSet id st => s' ← store_Set id st s; Some (None, s')
  | OGet id => r ← store_Get id s; Some (r, s)
  | OGetAndDelete id => store_GetAndDelete id s
  | ODelete id => s' ← store_Delete id s; Some (None, s')
  end.

Definition spec_op (o : store_op) (m : gmap Z stream) : option stream * gmap Z stream :=
  match o with
  | OSet id st => (None, <[id := st]> m)
  | OGet id => (m !! id, m)
  | OGetAndDelete id => (m !! id, delete id m)
  | ODelete id => (None, delete id m)
  end.

Fixpoint run_ops {S} `{!StreamStore S} (os : list store_op) (s : S) : option (list (option stream) * S) :=
  match os with
  | [] => Some ([], s)
  | o :: os => r ← run_op o s; rs ← run_ops os r.2; Some (r.1 :: rs.1, rs.2)
  end.

Fixpoint spec_ops (os : list store_op) (m : gmap Z stream) : list (option stream) * gmap Z stream :=
  match os with
  | [] => ([], m)
  | o :: os => let r := spec_op o m in let rs := spec_ops os r.2 in (r.1 :: rs.1, rs.2)
  end.

Section refinement.
Context {S : Type} `{!StreamStore S} `{!StreamStoreSpec S}.

Lemma run_op_refines o (s : S) :
  store_ok s → store_key (S := S) (op_id o) →
  ∃ s', run_op o s = Some ((spec_op o (store_abs s)).1, s') ∧ store_ok s' ∧
    store_abs s' = (spec_op o (store_abs s)).2.
Proof.
  intros Hok Hk. destruct o as [id st|id|id|id]; cbn in *.
  - destruct (store_Set_spec s id st Hok Hk) as (s' & -> & ? & ?). by exists s'.
  - rewrite store_Get_spec by done. by exists s.
  - destruct (store_GetAndDelete_spec s id Hok Hk) as (s' & -> & ? & ?). by exists s'.
  - destruct (store_Delete_spec s id Hok Hk) as (s' & -> & ? & ?). by exists s'.
Qed.

Lemma run_ops_refines os (s : S) :
  store_ok s → Forall (λ o, store_key (S := S) (op_id o)) os →
  ∃ s', run_ops os s = Some ((spec_ops os (store_abs s)).1, s') ∧ store_ok s' ∧
    store_abs s' = (spec_ops os (store_abs s)).2.
Proof.
  revert s. induction os as [|o os IH]; intros s Hok Hks; [by exists s|].
  apply Forall_cons in Hks as [Hk Hks].
  destruct (run_op_refines o s Hok Hk) as (s1 & Hr & Hok1 & Habs1).
  destruct (IH s1 Hok1 Hks) as (s2 & Hrs & Hok2 & Habs2).
  exists s2. cbn. rewrite Hr. cbn. rewrite Hrs. cbn. by rewrite Habs1 in *.
Qed.
End refinement.

Lemma loaderStore_ok : store_ok loaderStore ∧ store_abs loaderStore = ∅.
Proof. by apply new_sharded_ok. Qed.

(** C12: The loader's sharded store behaves as one finite map on client stream ids:
    every sequence of operations with odd ids runs without a panic, answers
    what the map answers, and [Each] visits exactly the streams of the map. *)
Theorem loader_store_refines_map os :
  Forall (λ o, Z.odd (op_id o) = true) os →
  ∃ s, run_ops os loaderStore = Some ((spec_ops os ∅).1, s) ∧
    store_abs s = (spec_ops os ∅).2 ∧
    store_Each s ≡ₚ (map_to_list (spec_ops os ∅).2).*2.
Proof.
  intros Hos. destruct loaderStore_ok as [Hok Hempty].
  destruct (run_ops_refines os loaderStore Hok) as (s & Hrun & Hsok & Habs).
  { apply (Forall_impl _ _ _ Hos). by intros o Ho. }
  rewrite Hempty in *.
  exists s. split_and!; [done..|].
  destruct (store_Each_spec s Hsok) as (kvs & Hp & ->). rewrite <-Habs. by rewrite Hp.
Qed.

Theorem loader_store_refines_map_witness :
  ∃ s, run_ops [OSet 3 7%nat; OSet 19 8%nat; OGet 3; OGetAndDelete 19; OGet 19] loaderStore
       = Some ([None; None; Some 7%nat; Some 8%nat; None], s) ∧
    store_abs s = {[3 := 7%nat]} ∧ store_Each s ≡ₚ [7%nat].
Proof.
  destruct (loader_store_refines_map [OSet 3 7%nat; OSet 19 8%nat; OGet 3; OGetAndDelete 19; OGet 19])
    as (s & H1 & H2 & H3); [repeat constructor|].
  exists s. split; [exact H1|]. split; [exact H2|]. exact H3.
Defined.

(** An even id has no shard: in every well-formed sharded store each operation
    on it panics. A frame of the server that names such a stream, or stream 0
    where a stream is expected, takes this path. *)
Theorem sharded_even_panics {S} `{!StreamStore S} `{!StreamStoreSpec S} (s : ShardedStreamsMap S) id st :
  sharded_ok s → Z.even id = true →
  store_Set id st s = None ∧ store_Get id s = None ∧
  store_GetAndDelete id s = None ∧ store_Delete id s = None.
Proof.
  intros [[Hm Ho] _ Hodd _ _] Hid.
  assert (shard id s = None) as Hsh.
  { unfold shard. destruct (shards s !! shard_index id s) as [[c|]|] eqn:E; [|done|done].
    apply Hodd in E. apply Nat.odd_spec in E as [k Hk]. unfold shard_index in Hk.
    assert (0 <= Z.land id (max s)) by (apply Z.land_nonneg; lia).
    pose proof (land_odd id (max s)) as HZ. rewrite <-(Z.negb_even id), Hid in HZ. cbn in HZ.
    rewrite <-Z.negb_even in HZ. apply negb_false_iff, Z.even_spec in HZ as [j Hj]. lia. }
  cbn. by rewrite Hsh.
Qed.

Theorem sharded_even_panics_witness :
  store_Set 2 0%nat loaderStore = None ∧ store_Get 2 loaderStore = None ∧
  store_GetAndDelete 2 loaderStore = None ∧ store_Delete 2 loaderStore = None.
Proof. apply (sharded_even_panics loaderStore 2 0%nat); [apply loaderStore_ok|reflexivity]. Defined.
