(* ===== verification/Framer.v ===== *)
(** * Framer: cutting the received byte stream into frames

    Models src/loader/reciever/framer.go: an incremental parser that is given
    the stream in arbitrary buffers ([Fill]) and hands out, for every buffer,
    the header and the payload bytes seen so far ([Next]). *)

From S2P Require Import Prelude FrameHeader.

Record Framer := mkFramer {
  currentHeader : bytes;
  header : bytes;
  payloadLeft : Z;
  buf : bytes
}.

(** [new(Framer)]. *)
Definition newFramer : Framer := mkFramer [] [] 0 [].

Inductive Status :=
| StatusFrameDone
| StatusFrameDoneBufEmpty
| StatusHeaderIncomplete
| StatusPayloadIncomplete.

#[export] Instance Status_eq_dec : EqDecision Status.
Proof. solve_decision. Defined.

Definition Header (p : Framer) : bytes := header p.

(** The part of [Next] that follows [p.header = p.currentHeader]. *)
Definition next_payload (p : Framer) : option (bytes * Status * Framer) :=
  let bufLen := zlen (buf p) in
  if payloadLeft p <? bufLen then
    payload ← slice_to (payloadLeft p) (buf p);
    rest ← slice_from (payloadLeft p) (buf p);
    Some (payload, StatusFrameDone, mkFramer [] (header p) (payloadLeft p) rest)
  else if bufLen =? payloadLeft p then
    Some (buf p, StatusFrameDoneBufEmpty, mkFramer [] (header p) (payloadLeft p) (buf p))
  else
    Some (buf p, StatusPayloadIncomplete,
          mkFramer (currentHeader p) (header p) (payloadLeft p - bufLen) (buf p)).

Definition Next (p : Framer) : option (bytes * Status * Framer) :=
  let currentHeaderLen := zlen (currentHeader p) in
  if currentHeaderLen =? 9 then
    next_payload (mkFramer (currentHeader p) (currentHeader p) (payloadLeft p) (buf p))
  else
    let bufLen := zlen (buf p) in
    let needToFill := 9 - currentHeaderLen in
    if bufLen <? needToFill then
      Some ([], StatusHeaderIncomplete,
            mkFramer (currentHeader p ++ buf p) (header p) (payloadLeft p) (buf p))
    else
      filled ← slice_to needToFill (buf p);
      rest ← slice_from needToFill (buf p);
      let currentHeader := currentHeader p ++ filled in
      payloadLeft ← Length currentHeader;
      next_payload (mkFramer currentHeader currentHeader payloadLeft rest).

Definition FFill (b : bytes) (p : Framer) : Framer :=
  mkFramer (currentHeader p) (header p) (payloadLeft p) b.

(** ** Frames on the wire *)

(** A frame is its nine header bytes and the payload their length field announces. *)
Definition frame : Type := bytes * bytes.
Definition frame_wf (f : frame) : Prop :=
  length f.1 = 9%nat ∧ Forall is_byte f.1 ∧ Length f.1 = Some (zlen f.2).
Definition encode_frames (fs : list frame) : bytes := concat ((λ f, f.1 ++ f.2) <$> fs).

(** ** Frames of each type *)
Definition mk_frame (t flags id : Z) (payload : bytes) : frame :=
  (header_bytes (zlen payload) t flags id, payload).

Lemma mk_frame_wf t flags id payload :
  zlen payload < 2 ^ 24 → frame_wf (mk_frame t flags id payload).
Proof.
  intros H. split; [done|]. split; [apply header_bytes_ok|].
  assert (0 <= zlen payload) by apply zlen_nonneg. by apply Length_header_bytes.
Qed.

(** The wire cannot be read ambiguously: a complete header is the first frame's. *)
Lemma encode_frames_header h rest fs :
  Forall frame_wf fs → length h = 9%nat → h ++ rest = encode_frames fs →
  ∃ p fs', fs = (h, p) :: fs' ∧ rest = p ++ encode_frames fs' ∧ Length h = Some (zlen p).
Proof.
  intros Hwf Hh Heq. destruct Hwf as [|[h0 p0] fs (Hl & _ & Hlen) _].
  { apply (f_equal length) in Heq. rewrite length_app in Heq. cbn in Heq. lia. }
  cbn in *. rewrite <-app_assoc in Heq. apply app_inj_1 in Heq as [-> ->]; [|lia].
  eauto.
Qed.

Section next_lemmas.
Implicit Types p : Framer.

(** *** [Next] while the header is incomplete *)
Lemma Next_short_header p :
  (length (currentHeader p) < 9)%nat →
  (length (currentHeader p) + length (buf p) < 9)%nat →
  Next p = Some ([], StatusHeaderIncomplete,
    mkFramer (currentHeader p ++ buf p) (header p) (payloadLeft p) (buf p)).
Proof.
  intros H1 H2. unfold Next.
  rewrite (proj2 (Z.eqb_neq _ _)) by solve_len.
  by rewrite (proj2 (Z.ltb_lt _ _)) by solve_len.
Qed.

(** A buffer that completes the header continues as if the header had been
    there and the buffer began with the payload. *)
Lemma Next_header_done p m rest n :
  (length (currentHeader p) < 9)%nat → length (currentHeader p ++ m) = 9%nat →
  buf p = m ++ rest → Length (currentHeader p ++ m) = Some n →
  Next p = next_payload (mkFramer (currentHeader p ++ m) (currentHeader p ++ m) n rest).
Proof.
  intros H1 H2 Hbuf Hn. unfold Next. rewrite length_app in H2.
  rewrite (proj2 (Z.eqb_neq _ _)) by solve_len.
  rewrite (proj2 (Z.ltb_ge _ _)) by (rewrite Hbuf; solve_len).
  replace (9 - zlen (currentHeader p)) with (zlen m) by solve_len.
  rewrite Hbuf, slice_to_Some, slice_from_Some by solve_len.
  rewrite take_zlen_app, drop_zlen_app. cbn [mbind option_bind]. by rewrite Hn.
Qed.

Lemma Next_mid_frame p :
  length (currentHeader p) = 9%nat →
  Next p = next_payload (mkFramer (currentHeader p) (currentHeader p) (payloadLeft p) (buf p)).
Proof. intros H. unfold Next. by rewrite (proj2 (Z.eqb_eq _ _)) by solve_len. Qed.

(** *** The three ends of a payload *)
Lemma next_payload_done p payload rest :
  buf p = payload ++ rest → rest ≠ [] → payloadLeft p = zlen payload →
  next_payload p = Some (payload, StatusFrameDone, mkFramer [] (header p) (payloadLeft p) rest).
Proof.
  intros Hbuf Hr Hpl. unfold next_payload.
  assert (0 < zlen rest) by (destruct rest; [done|solve_len]).
  rewrite (proj2 (Z.ltb_lt _ _)) by (rewrite Hbuf, zlen_app; lia).
  pose proof (zlen_nonneg payload).
  rewrite Hbuf, slice_to_Some, slice_from_Some by (rewrite zlen_app; lia).
  rewrite Hpl, take_zlen_app, drop_zlen_app. done.
Qed.

Lemma next_payload_exact p :
  payloadLeft p = zlen (buf p) →
  next_payload p = Some (buf p, StatusFrameDoneBufEmpty, mkFramer [] (header p) (payloadLeft p) (buf p)).
Proof.
  intros Hpl. unfold next_payload.
  rewrite (proj2 (Z.ltb_ge _ _)) by lia. by rewrite (proj2 (Z.eqb_eq _ _)) by lia.
Qed.

Lemma next_payload_short p :
  zlen (buf p) < payloadLeft p →
  next_payload p = Some (buf p, StatusPayloadIncomplete,
    mkFramer (currentHeader p) (header p) (payloadLeft p - zlen (buf p)) (buf p)).
Proof.
  intros Hpl. unfold next_payload.
  rewrite (proj2 (Z.ltb_ge _ _)) by lia. by rewrite (proj2 (Z.eqb_neq _ _)) by lia.
Qed.
End next_lemmas.
