(* ===== verification/Handlers.v ===== *)
(** * Handlers: one processor per frame type

    Models the frame processors of src/loader/reciever/processor.go. A processor
    is called with the header of a frame, a piece of its payload and whether
    more pieces follow ([incomplete]). *)

From S2P Require Import Prelude FrameHeader Types.

(** ** The HPACK decoder (golang.org/x/net/http2/hpack)

    Third-party: a parameter. [hpack_Write d emit p] feeds the bytes [p] with
    emission switched on or off and gives the fields emitted, and the decoder
    after it or the error. *)
Class HpackDecoder (D HErr : Type) := {
  hpack_Write : D → bool → bytes → list (bytes * bytes) * (D + HErr)
}.

(** What the package documents: [SetEmitEnabled(false)] silences the callback,
    and a header block may be written in pieces. *)
Class HpackLaws (D HErr : Type) `{!HpackDecoder D HErr} := {
  hpack_silent (d : D) p : (hpack_Write d false p).1 = [];
  hpack_Write_app (d : D) emit p q :
    hpack_Write d emit (p ++ q) =
      match hpack_Write d emit p with
      | (fs, inr e) => (fs, inr e)
      | (fs, inl d') => let '(gs, r) := hpack_Write d' emit q in (fs ++ gs, r)
      end
}.

(** The errors a receiver stops with. *)
Inductive RecvError (HErr : Type) :=
| ErrFrameTypeNotSupported (t : Z)
| ErrHpackDecoding (e : HErr)
| GoAwayError (Code LastStreamID : Z) (DebugData : bytes)
| ErrSettings.
Arguments ErrFrameTypeNotSupported {HErr} _.
Arguments ErrHpackDecoding {HErr} _.
Arguments GoAwayError {HErr} _ _ _.
Arguments ErrSettings {HErr}.

(** The shared objects a processor reaches: the stream store, and the log of
    its calls on streams, limiter, flow controls and the outgoing channel. *)
Record World (S : Type) := mkWorld { w_store : S; w_log : list event }.
Arguments mkWorld {S} _ _.
Arguments w_store {S} _.
Arguments w_log {S} _.

Section handlers.
Context {S D HErr : Type} `{!StreamStore S} `{!HpackDecoder D HErr}.

(** A processor with state [P] in the world [World S]. *)
Definition PM (P A : Type) : Type := GM (P * World S) (RecvError HErr) A.

Definition emit_ {P} (e : event) : PM P unit :=
  gm_modify (λ s, (s.1, mkWorld (w_store s.2) (w_log s.2 ++ [e]))).
Definition get_state {P} : PM P P := λ s, (Ret s.1, s).
Definition put_state {P} (p : P) : PM P unit := gm_modify (λ s, (p, s.2)).

(** Calls on the store; a nil shard panics. *)
Definition storeGet {P} (id : Z) : PM P (option stream) := λ s,
  match store_Get id (w_store s.2) with
  | Some o => (Ret o, s)
  | None => (Panic, s)
  end.
Definition storeGetAndDelete {P} (id : Z) : PM P (option stream) := λ s,
  match store_GetAndDelete id (w_store s.2) with
  | Some (o, st) => (Ret o, (s.1, mkWorld st (w_log s.2)))
  | None => (Panic, s)
  end.
Definition storeDelete {P} (id : Z) : PM P unit := λ s,
  match store_Delete id (w_store s.2) with
  | Some st => (Ret tt, (s.1, mkWorld st (w_log s.2)))
  | None => (Panic, s)
  end.

(** *** pingFrameProcessor *)
Record pingFrameProcessor := mkPing { currentPingAckFrame : bytes; nextPingAckFrame : bytes }.

Definition pingAckHeader : bytes := [0; 0; 8; FramePing; FlagPingAck; 0; 0; 0; 0].
Definition newPingFrameProcessor : pingFrameProcessor := mkPing pingAckHeader pingAckHeader.

Definition ping_Process (h payload : bytes) (incomplete : bool) : PM pingFrameProcessor unit :=
  p ← get_state;
  let current := currentPingAckFrame p ++ payload in
  put_state (mkPing current (nextPingAckFrame p));;
  if incomplete then mret tt
  else
    emit_ (EvSend current);;
    next ← gm_index (slice_to 9 (nextPingAckFrame p));
    put_state (mkPing next current).

(** *** dataFrameProcessor *)
Record dataFrameProcessor := mkData {
  currentWindowUpdateFrame : bytes; nextWindowUpdateFrame : bytes; windowUpdateAcc : Z }.

Definition windowUpdateTemplate : bytes := [0; 0; 4; FrameWindowUpdate; 0; 0; 0; 0; 0; 0; 0; 0; 0].
Definition newDataFrameProcessor : dataFrameProcessor :=
  mkData windowUpdateTemplate windowUpdateTemplate 0.

Definition windowUpdateMinValue : Z := 65535 / 4.

(** The four assignments [p.currentWindowUpdateFrame[9..12] = byte(acc >> ..)]. *)
Definition put_increment (acc : Z) (f : bytes) : option bytes :=
  _ ← f !! 12%nat;
  Some (<[12%nat := u8 acc]> (<[11%nat := u8 (Z.shiftr acc 8)]>
       (<[10%nat := u8 (Z.shiftr acc 16)]> (<[9%nat := u8 (Z.shiftr acc 24)]> f)))).

Definition data_Process (h payload : bytes) (incomplete : bool) : PM dataFrameProcessor unit :=
  if incomplete then mret tt
  else
    p ← get_state;
    len ← gm_index (Length h);
    let acc := windowUpdateAcc p + len in
    (if windowUpdateMinValue <=? acc then
       frame ← gm_index (put_increment acc (currentWindowUpdateFrame p));
       emit_ (EvSend frame);;
       put_state (mkData (nextWindowUpdateFrame p) frame 0)
     else put_state (mkData (currentWindowUpdateFrame p) (nextWindowUpdateFrame p) acc));;
    flags ← gm_index (Flags h);
    if flags_has flags FlagDataEndStream then
      emit_ EvLimiterRelease;;
      id ← gm_index (StreamID h);
      st ← storeGetAndDelete id;
      match st with
      | Some s => emit_ (EvStream s End_)
      | None => mret tt
      end
    else mret tt.

(** *** headersFrameProcessor (HEADERS and CONTINUATION) *)
Record headersFrameProcessor := mkHeaders { hpackDecoder : D; currentStream : option stream }.

Definition newHeadersFrameProcessor (d : D) : headersFrameProcessor := mkHeaders d None.

(** The callback [OnHeader] the decoder invokes for every field. *)
Fixpoint onHeaders (fs : list (bytes * bytes)) : PM headersFrameProcessor unit :=
  match fs with
  | [] => mret tt
  | f :: fs =>
      p ← get_state;
      match currentStream p with
      | Some s => emit_ (EvStream s (OnHeader f.1 f.2))
      | None => gm_panic
      end;;
      onHeaders fs
  end.

Definition hpackWrite (payload : bytes) (emit : bool) : PM headersFrameProcessor unit :=
  p ← get_state;
  let r := hpack_Write (hpackDecoder p) emit payload in
  onHeaders r.1;;
  match r.2 with
  | inl d => put_state (mkHeaders d (currentStream p))
  | inr e => gm_fail (ErrHpackDecoding e)
  end.

Definition headers_Process (h payload : bytes) (incomplete : bool) : PM headersFrameProcessor unit :=
  streamID ← gm_index (StreamID h);
  stream ← storeGet streamID;
  p ← get_state;
  put_state (mkHeaders (hpackDecoder p) stream);;
  hpackWrite payload (bool_decide (is_Some stream));;
  if incomplete then mret tt
  else
    flags ← gm_index (Flags h);
    match flags_has flags FlagHeadersEndStream, stream with
    | true, Some s =>
        emit_ (EvStream s End_);;
        storeDelete streamID;;
        emit_ EvLimiterRelease
    | _, _ => mret tt
    end.

(** *** rstStreamFrameProcessor *)
Record rstStreamFrameProcessor := mkRst { rst_errCode : Z }.
Definition newRSTStreamFrameProcessor : rstStreamFrameProcessor := mkRst 0.

Definition rst_Process (h payload : bytes) (incomplete : bool) : PM rstStreamFrameProcessor unit :=
  p ← get_state;
  let code := be32 (rst_errCode p) payload in
  put_state (mkRst code);;
  if incomplete then mret tt
  else
    streamID ← gm_index (StreamID h);
    emit_ EvLimiterRelease;;
    st ← storeGetAndDelete streamID;
    match st with
    | Some s => emit_ (EvStream s (RSTStream code));; emit_ (EvStream s End_)
    | None => mret tt
    end.

(** *** windowUpdateFrameProcessor *)
Record windowUpdateFrameProcessor := mkWU { increment : Z }.
Definition newWindowUpdateFrameProcessor : windowUpdateFrameProcessor := mkWU 0.

Definition wu_Process (h payload : bytes) (incomplete : bool) : PM windowUpdateFrameProcessor unit :=
  p ← get_state;
  let inc := be32 (increment p) payload in
  put_state (mkWU inc);;
  if incomplete then mret tt
  else
    streamID ← gm_index (StreamID h);
    if streamID =? 0 then
      emit_ (EvFcAdd None inc);; put_state (mkWU 0)
    else
      st ← storeGet streamID;
      match st with
      | None => mret tt
      | Some s => emit_ (EvFcAdd (Some s) inc);; put_state (mkWU 0)
      end.

(** *** goAwayFrameProcessor *)
Record goAwayFrameProcessor := mkGoAway {
  ga_errCode : Z; ga_lastStreamID : Z; ga_debugData : bytes; ga_index : Z }.
Definition newGoAwayFrameProcessor : goAwayFrameProcessor := mkGoAway 0 0 [] 0.

(** [for ; p.index < lim; p.index++ { b := payload[0]; payload = payload[1:];
    acc = (acc << 8) | uint32(b) }]: the accumulator, the index and the rest
    of the payload; [payload[0]] on an empty payload panics. *)
Fixpoint goaway_loop (lim index acc : Z) (payload : bytes) : option (Z * Z * bytes) :=
  if index <? lim then
    match payload with
    | [] => None
    | b :: payload => goaway_loop lim (index + 1) (be32_step acc b) payload
    end
  else Some (acc, index, payload).

Definition goaway_Process (h payload : bytes) (incomplete : bool) : PM goAwayFrameProcessor unit :=
  p ← get_state;
  let maxIndex := ga_index p + zlen payload in
  '(last, index, payload) ← gm_index (goaway_loop (Z.min 4 maxIndex) (ga_index p) (ga_lastStreamID p) payload);
  '(code, index, payload) ← gm_index (goaway_loop (Z.min 8 maxIndex) index (ga_errCode p) payload);
  let debug := ga_debugData p ++ payload in
  put_state (mkGoAway code last debug index);;
  if incomplete then mret tt
  else put_state (mkGoAway 0 0 [] 0);; gm_fail (GoAwayError code last debug).

(** *** settingsProcessor *)
Definition settings_Process (h payload : bytes) (incomplete : bool) : PM unit unit :=
  if incomplete then mret tt
  else
    flags ← gm_index (Flags h);
    if negb (flags_has flags FlagSettingsAck) then gm_fail ErrSettings else mret tt.
End handlers.
Arguments headersFrameProcessor : clear implicits.
Arguments PM : clear implicits.

(** ** Splitting a payload

    The receiver hands out payloads in the pieces the network delivers. A
    processor is insensitive to that when feeding [p ++ q] is feeding [p] as an
    incomplete piece and then [q]. *)
Class Chunked {W E : Type} `{!FailEquiv W} (f : bytes → bytes → bool → GM W E unit) : Prop :=
  chunked h p q incomplete : f h (p ++ q) incomplete ≈ (f h p true;; f h q incomplete).

(** After a failure the receiver is gone; the shared objects remain. *)
#[export] Program Instance world_fail_equiv (P S : Type) : FailEquiv (P * World S) := {|
  fail_equiv s t := s.2 = t.2
|}.
Next Obligation. intros P S. split; repeat intro; congruence. Qed.

(** Running a handler on a concrete state. *)
Ltac run_gm :=
  unfold mbind, mret, gm_bind, gm_ret, get_state, put_state, gm_modify, emit_, gm_fail, gm_panic;
  cbn -[be32 goaway_loop zlen Z.min Length Flags StreamID flags_has slice_to hpack_Write
        store_Get store_GetAndDelete store_Delete Z.eqb Z.leb].

Section chunked.
Context {S D HErr : Type} `{!StreamStore S} `{!HpackDecoder D HErr}.
Abbreviation PM := (PM S HErr).

#[export] Instance settings_chunked : Chunked (settings_Process (S := S) (HErr := HErr)).
Proof. intros h p q incomplete. by apply gm_eq_equiv. Qed.

#[export] Instance data_chunked : Chunked (data_Process (S := S) (HErr := HErr)).
Proof. intros h p q incomplete. by apply gm_eq_equiv. Qed.

#[export] Instance ping_chunked : Chunked (ping_Process (S := S) (HErr := HErr)).
Proof. intros h p q incomplete. apply gm_eq_equiv. intros [st w]. unfold ping_Process. run_gm. by rewrite <-app_assoc. Qed.

#[export] Instance rst_chunked : Chunked (rst_Process (S := S) (HErr := HErr)).
Proof. intros h p q incomplete. apply gm_eq_equiv. intros [st w]. unfold rst_Process. run_gm. by rewrite be32_app. Qed.

#[export] Instance wu_chunked : Chunked (wu_Process (S := S) (HErr := HErr)).
Proof. intros h p q incomplete. apply gm_eq_equiv. intros [st w]. unfold wu_Process. run_gm. by rewrite be32_app. Qed.

(** *** GOAWAY, one byte at a time *)
Definition goaway_byte (p : goAwayFrameProcessor) (b : Z) : goAwayFrameProcessor :=
  if ga_index p <? 4 then
    mkGoAway (ga_errCode p) (be32_step (ga_lastStreamID p) b) (ga_debugData p) (ga_index p + 1)
  else if ga_index p <? 8 then
    mkGoAway (be32_step (ga_errCode p) b) (ga_lastStreamID p) (ga_debugData p) (ga_index p + 1)
  else mkGoAway (ga_errCode p) (ga_lastStreamID p) (ga_debugData p ++ [b]) (ga_index p).

Lemma goaway_loop_stop lim index acc payload :
  lim <= index → goaway_loop lim index acc payload = Some (acc, index, payload).
Proof. intros H. destruct payload; cbn [goaway_loop]; by rewrite (proj2 (Z.ltb_ge _ _)). Qed.

Lemma goaway_loop_step lim index acc b payload :
  index < lim → goaway_loop lim index acc (b :: payload)
    = goaway_loop lim (index + 1) (be32_step acc b) payload.
Proof. intros H. cbn [goaway_loop]. by rewrite (proj2 (Z.ltb_lt _ _)). Qed.

(** Both loops of the handler and the append, as a fold. *)
Lemma goaway_loops p payload :
  ∃ last i1 rest1 code i2 rest2,
    goaway_loop (Z.min 4 (ga_index p + zlen payload)) (ga_index p) (ga_lastStreamID p) payload
      = Some (last, i1, rest1) ∧
    goaway_loop (Z.min 8 (ga_index p + zlen payload)) i1 (ga_errCode p) rest1 = Some (code, i2, rest2) ∧
    foldl goaway_byte p payload = mkGoAway code last (ga_debugData p ++ rest2) i2.
Proof.
  revert p. induction payload as [|b payload IH]; intros p.
  - rewrite zlen_nil, Z.add_0_r. do 6 eexists.
    rewrite goaway_loop_stop by lia. split; [done|].
    rewrite goaway_loop_stop by lia. split; [done|]. cbn. rewrite app_nil_r. by destruct p.
  - pose proof (zlen_nonneg payload). cbn [foldl]. rewrite zlen_cons.
    destruct (IH (goaway_byte p b)) as (last & i1 & r1 & code & i2 & r2 & H1 & H2 & Hf).
    unfold goaway_byte in H1, H2, Hf |- *.
    destruct (Z.ltb_spec (ga_index p) 4); [|destruct (Z.ltb_spec (ga_index p) 8)];
      cbn [ga_index ga_errCode ga_lastStreamID ga_debugData] in H1, H2, Hf |- *.
    + do 6 eexists. rewrite goaway_loop_step by lia. rewrite Z.add_assoc. eauto.
    + do 6 eexists. rewrite goaway_loop_stop in H1 by lia. injection H1 as <- <- <-.
      rewrite goaway_loop_stop by lia. split; [done|].
      rewrite goaway_loop_step by lia. rewrite Z.add_assoc. eauto.
    + do 6 eexists. rewrite goaway_loop_stop in H1 by lia. injection H1 as <- <- <-.
      rewrite goaway_loop_stop in H2 by lia. injection H2 as <- <- <-.
      rewrite goaway_loop_stop by lia. split; [done|].
      rewrite goaway_loop_stop by lia. split; [done|]. rewrite Hf. by rewrite <-app_assoc.
Qed.

Lemma goaway_Process_run h p (w : World S) payload incomplete :
  let p' := foldl goaway_byte p payload in
  goaway_Process (HErr := HErr) h payload incomplete (p, w) =
    if incomplete then (Ret tt, (p', w))
    else (Fail (GoAwayError (ga_errCode p') (ga_lastStreamID p') (ga_debugData p')),
          (newGoAwayFrameProcessor, w)).
Proof.
  cbn zeta. destruct (goaway_loops p payload) as (last & i1 & r1 & code & i2 & r2 & H1 & H2 & ->).
  unfold goaway_Process. run_gm. rewrite H1. run_gm. rewrite H2. run_gm. by destruct incomplete.
Qed.

#[export] Instance goaway_chunked : Chunked (goaway_Process (S := S) (HErr := HErr)).
Proof.
  intros h p q incomplete. apply gm_eq_equiv. intros [st w]. unfold mbind, gm_bind.
  rewrite !goaway_Process_run. by rewrite foldl_app.
Qed.

(** *** HEADERS, given the laws of the decoder *)
Definition onHeader_events (st : stream) (fs : list (bytes * bytes)) : list event :=
  (λ f, EvStream st (OnHeader f.1 f.2)) <$> fs.

Lemma onHeaders_run st (d : D) fs (w : World S) :
  onHeaders (HErr := HErr) fs (mkHeaders d (Some st), w)
    = (Ret tt, (mkHeaders d (Some st), mkWorld (w_store w) (w_log w ++ onHeader_events st fs))).
Proof.
  revert w. induction fs as [|f fs IH]; intros w; cbn [onHeaders onHeader_events].
  - run_gm. rewrite app_nil_r. by destruct w.
  - unfold mbind, gm_bind, get_state, emit_, gm_modify. cbn [fst snd currentStream].
    rewrite IH. cbn. by rewrite <-app_assoc.
Qed.

Context `{!HpackLaws D HErr}.

(** One piece of a header block: the events emitted and the decoder after it. *)
Lemma hpackWrite_run st (d : D) p (w : World S) :
  hpackWrite (HErr := HErr) p (bool_decide (is_Some st)) (mkHeaders d st, w) =
    let r := hpack_Write d (bool_decide (is_Some st)) p in
    let w' := mkWorld (w_store w) (w_log w ++ from_option (λ s, onHeader_events s r.1) [] st) in
    match r.2 with
    | inl d' => (Ret tt, (mkHeaders d' st, w'))
    | inr e => (Fail (ErrHpackDecoding e), (mkHeaders d st, w'))
    end.
Proof.
  unfold hpackWrite. unfold mbind at 1, gm_bind at 1, get_state. cbn [fst hpackDecoder].
  unfold mbind, gm_bind. destruct st as [st|].
  - rewrite onHeaders_run. cbn zeta. by destruct (hpack_Write d _ p) as [fs [d'|e]].
  - change (bool_decide (is_Some None)) with false. rewrite hpack_silent.
    pose proof (hpack_silent d p). destruct (hpack_Write d false p) as [fs [d'|e]], w;
      cbn; by rewrite app_nil_r.
Qed.

Lemma onHeader_events_app st fs gs :
  onHeader_events st (fs ++ gs) = onHeader_events st fs ++ onHeader_events st gs.
Proof. apply fmap_app. Qed.

Lemma hpackWrite_app st p q (d : D) (w : World S) :
  let e := bool_decide (is_Some st) in
  res_equiv (hpackWrite (HErr := HErr) (p ++ q) e (mkHeaders d st, w))
    ((hpackWrite p e;; hpackWrite q e) (mkHeaders d st, w)).
Proof.
  cbn zeta. unfold mbind, gm_bind. rewrite !hpackWrite_run, hpack_Write_app.
  destruct (hpack_Write d _ p) as [fs [d'|err]]; cbn [fst snd]; [|by split].
  rewrite hpackWrite_run. destruct (hpack_Write d' _ q) as [gs [d''|err]]; cbn [fst snd];
    cbn [w_store w_log]; rewrite <-app_assoc;
    destruct st; cbn [from_option]; by rewrite ?onHeader_events_app.
Qed.

(** What a piece that did not fail leaves behind. *)
Lemma hpackWrite_ret st p (d : D) (w : World S) :
  ∃ o d' w', hpackWrite (HErr := HErr) p (bool_decide (is_Some st)) (mkHeaders d st, w)
    = (o, (mkHeaders d' st, w')) ∧ w_store w' = w_store w.
Proof.
  rewrite hpackWrite_run. cbn zeta.
  destruct (hpack_Write d _ p) as [fs [d'|err]]; cbn; by do 3 eexists.
Qed.

#[export] Instance headers_chunked : Chunked (headers_Process (S := S) (D := D) (HErr := HErr)).
Proof.
  intros h p q incomplete [[d cs] w]. unfold headers_Process.
  unfold mbind, gm_bind, gm_index, storeGet, get_state, put_state, gm_modify.
  destruct (StreamID h) as [id|]; cbn [fst snd mret gm_ret gm_panic]; [|by split].
  destruct (store_Get id (w_store w)) as [st|] eqn:Hget; cbn [fst snd hpackDecoder]; [|by split].
  pose proof (hpackWrite_app st p q d w) as [Ho Hs]. unfold mbind, gm_bind in Ho, Hs.
  destruct (hpackWrite_ret st p d w) as (o1 & d1 & w1 & H1 & Hw1). rewrite H1 in Ho, Hs |- *.
  destruct (hpackWrite (p ++ q) _ (mkHeaders d st, w)) as [o s2] eqn:Happ. cbn [fst snd] in *.
  destruct o1 as [[]|e| |]; [|subst o; by split..]. cbn [mret gm_ret fst snd w_store].
  rewrite Hw1, Hget. cbn [fst snd hpackDecoder].
  destruct (hpackWrite q _ (mkHeaders d1 st, w1)) as [o2 s3] eqn:H2. cbn [fst snd] in *. subst o2.
  destruct o as [[]|e| |]; [|by split..]. subst s3. cbn. split; [done|].
  destruct (_ s2) as [[]]; done.
Qed.
End chunked.
