(* ===== verification/Processor.v ===== *)
(** * Processor: dispatching frames, whatever the network does to the stream

    Models [Processor] of src/loader/reciever/processor.go: the table of frame
    processors, [process] (one received buffer) and [Run] (all of them). The
    central theorem is that the way the stream is cut into buffers does not
    matter: the processors see exactly the frames that were sent. *)

From S2P Require Import Prelude FrameHeader Types Framer Handlers.

(** ** Focusing a call on a part of the state *)
Section zoom.
Context {A B E : Type} (get : A → B) (set : B → A → A).
Context `{!FailEquiv A, !FailEquiv B}.
Hypothesis get_set : ∀ b a, get (set b a) = b.
Hypothesis set_set : ∀ b b' a, set b (set b' a) = set b a.
Hypothesis set_fail : ∀ a, Proper (fail_equiv ==> fail_equiv) (λ b, set b a).

Definition gm_zoom (m : GM B E unit) : GM A E unit := λ a,
  let '(o, b) := m (get a) in (o, set b a).

Lemma gm_zoom_bind (m1 m2 : GM B E unit) :
  gm_zoom (m1;; m2) ≈ (gm_zoom m1;; gm_zoom m2).
Proof.
  apply gm_eq_equiv. intros a. unfold gm_zoom, mbind, gm_bind.
  destruct (m1 (get a)) as [[[]|e| |] b]; try done. rewrite get_set.
  destruct (m2 b) as [o b']. by rewrite set_set.
Qed.

Lemma gm_zoom_proper (m1 m2 : GM B E unit) : m1 ≈ m2 → gm_zoom m1 ≈ gm_zoom m2.
Proof.
  intros H a. unfold gm_zoom. destruct (H (get a)) as [H1 H2].
  destruct (m1 (get a)) as [o1 b1], (m2 (get a)) as [o2 b2]. cbn in *. subst o2.
  split; [done|]. destruct o1; cbn in *; [by subst|by apply set_fail..].
Qed.

Lemma gm_zoom_chunked (f : bytes → bytes → bool → GM B E unit) :
  Chunked f → Chunked (λ h p i, gm_zoom (f h p i)).
Proof.
  intros Hf h p q i. rewrite <-gm_zoom_bind. apply gm_zoom_proper, Hf.
Qed.
End zoom.

Section processor.
Context {S D HErr : Type} `{!StreamStore S} `{!HpackDecoder D HErr}.

(** The state of all frame processors and the objects they share. *)
Record pstate := mkPState {
  ps_data : dataFrameProcessor;
  ps_headers : headersFrameProcessor D;
  ps_rst : rstStreamFrameProcessor;
  ps_ping : pingFrameProcessor;
  ps_goaway : goAwayFrameProcessor;
  ps_wu : windowUpdateFrameProcessor;
  ps_world : World S
}.

#[export] Program Instance pstate_fail_equiv : FailEquiv pstate := {|
  fail_equiv s t := ps_world s = ps_world t
|}.
Next Obligation. split; repeat intro; congruence. Qed.

(** The objects in the table of [NewDefaultProcessor]; the same headers
    processor serves HEADERS and CONTINUATION. *)
Inductive processor_kind := PData | PHeaders | PRSTStream | PSettings | PPing | PGoAway | PWindowUpdate.

Definition subprocessors : list (option processor_kind) :=
  [Some PData; Some PHeaders; None; Some PRSTStream; Some PSettings; None;
   Some PPing; Some PGoAway; Some PWindowUpdate; Some PHeaders].

Definition kind_Process (k : processor_kind) (h payload : bytes) (incomplete : bool)
    : GM pstate (RecvError HErr) unit :=
  match k with
  | PData => gm_zoom (λ s, (ps_data s, ps_world s))
      (λ b s, mkPState b.1 (ps_headers s) (ps_rst s) (ps_ping s) (ps_goaway s) (ps_wu s) b.2)
      (data_Process h payload incomplete)
  | PHeaders => gm_zoom (λ s, (ps_headers s, ps_world s))
      (λ b s, mkPState (ps_data s) b.1 (ps_rst s) (ps_ping s) (ps_goaway s) (ps_wu s) b.2)
      (headers_Process h payload incomplete)
  | PRSTStream => gm_zoom (λ s, (ps_rst s, ps_world s))
      (λ b s, mkPState (ps_data s) (ps_headers s) b.1 (ps_ping s) (ps_goaway s) (ps_wu s) b.2)
      (rst_Process h payload incomplete)
  | PSettings => gm_zoom (λ s, (tt, ps_world s))
      (λ b s, mkPState (ps_data s) (ps_headers s) (ps_rst s) (ps_ping s) (ps_goaway s) (ps_wu s) b.2)
      (settings_Process h payload incomplete)
  | PPing => gm_zoom (λ s, (ps_ping s, ps_world s))
      (λ b s, mkPState (ps_data s) (ps_headers s) (ps_rst s) b.1 (ps_goaway s) (ps_wu s) b.2)
      (ping_Process h payload incomplete)
  | PGoAway => gm_zoom (λ s, (ps_goaway s, ps_world s))
      (λ b s, mkPState (ps_data s) (ps_headers s) (ps_rst s) (ps_ping s) b.1 (ps_wu s) b.2)
      (goaway_Process h payload incomplete)
  | PWindowUpdate => gm_zoom (λ s, (ps_wu s, ps_world s))
      (λ b s, mkPState (ps_data s) (ps_headers s) (ps_rst s) (ps_ping s) (ps_goaway s) b.1 b.2)
      (wu_Process h payload incomplete)
  end.

(** [sp := p.subprocessors[header.Type()]], its nil check, and the call. *)
Definition dispatch (h payload : bytes) (incomplete : bool) : GM pstate (RecvError HErr) unit :=
  t ← gm_index (Type_ h);
  sp ← gm_index (subprocessors !! Z.to_nat t);
  match sp with
  | None => gm_fail (ErrFrameTypeNotSupported t)
  | Some k => kind_Process k h payload incomplete
  end.

(** [NewDefaultProcessor]. *)
Definition NewDefaultProcessor (d : D) (store : S) : pstate :=
  mkPState newDataFrameProcessor (newHeadersFrameProcessor d) newRSTStreamFrameProcessor
    newPingFrameProcessor newGoAwayFrameProcessor newWindowUpdateFrameProcessor (mkWorld store []).

Lemma gm_index_chunked {W E A} `{!FailEquiv W} (o : bytes → option A) (f : A → bytes → bytes → bool → GM W E unit) :
  (∀ a, Chunked (f a)) → Chunked (λ h p i, a ← gm_index (o h); f a h p i).
Proof.
  intros Hf h p q i. destruct (o h) as [a|]; cbn; [apply (Hf a)|].
  apply gm_eq_equiv. done.
Qed.

Context `{!HpackLaws D HErr}.

Lemma kind_chunked k : Chunked (kind_Process k).
Proof.
  destruct k; unfold kind_Process; refine (gm_zoom_chunked _ _ _ _ _ _ _);
    try apply _; try done; try (by intros [[] ?]); intros ? ? ? H; exact H.
Qed.

#[export] Instance dispatch_chunked : Chunked dispatch.
Proof.
  apply (gm_index_chunked Type_ (λ t h p i, sp ← gm_index (subprocessors !! Z.to_nat t);
    match sp with None => gm_fail (ErrFrameTypeNotSupported t) | Some k => kind_Process k h p i end)).
  intros t. apply (gm_index_chunked (λ _, subprocessors !! Z.to_nat t)
    (λ sp h p i, match sp with None => gm_fail (ErrFrameTypeNotSupported t) | Some k => kind_Process k h p i end)).
  intros [k|]; [apply kind_chunked|]. intros h p q i. by apply gm_eq_equiv.
Qed.
End processor.
Arguments pstate : clear implicits.

(** ** [process] and [Run] over any frame handler *)
Record receiver (W : Type) := mkReceiver { rv_framer : Framer; rv_world : W }.
Arguments mkReceiver {W} _ _.
Arguments rv_framer {W} _.
Arguments rv_world {W} _.

Section receive.
Context {W E : Type} `{!FailEquiv W}.
Variable handle : bytes → bytes → bool → GM W E unit.

(** [b, status = p.framer.Next()]. *)
Definition framer_Next : GM (receiver W) E (bytes * Status) := λ s,
  match Next (rv_framer s) with
  | Some (b, status, fr) => (Ret (b, status), mkReceiver fr (rv_world s))
  | None => (Panic, s)
  end.
Definition framer_Header : GM (receiver W) E bytes := λ s, (Ret (Header (rv_framer s)), s).
Definition framer_Fill (b : bytes) : GM (receiver W) E unit :=
  gm_modify (λ s, mkReceiver (FFill b (rv_framer s)) (rv_world s)).
Definition call_handler (h b : bytes) (incomplete : bool) : GM (receiver W) E unit := λ s,
  let '(o, w) := handle h b incomplete (rv_world s) in (o, mkReceiver (rv_framer s) w).

(** The [for] loop of [process]; a turn that goes round again has consumed at
    least one byte, so [length buf + 1] turns are enough. *)
Fixpoint process_loop (fuel : nat) : GM (receiver W) E unit :=
  match fuel with
  | O => gm_diverged
  | S fuel =>
      '(b, status) ← framer_Next;
      if decide (status = StatusHeaderIncomplete) then mret tt
      else
        header ← framer_Header;
        call_handler header b (bool_decide (status = StatusPayloadIncomplete));;
        if decide (status = StatusFrameDone) then process_loop fuel else mret tt
  end.

Definition process (b : bytes) : GM (receiver W) E unit :=
  framer_Fill b;; process_loop (S (length b)).

(** [for b := range ch]: every received buffer in turn, until an error. *)
Fixpoint Run (chunks : list bytes) : GM (receiver W) E unit :=
  match chunks with
  | [] => mret tt
  | b :: chunks => process b;; Run chunks
  end.

(** The specification: the handler is called once per frame. *)
Fixpoint run_frames (fs : list frame) : GM W E unit :=
  match fs with
  | [] => mret tt
  | f :: fs => handle f.1 f.2 false;; run_frames fs
  end.

(** What a framer in the middle of the stream still owes its handler, given
    the bytes to come. *)
Inductive expects (fr : Framer) (rest : bytes) : GM W E unit → Prop :=
| expects_header fs :
    (length (currentHeader fr) < 9)%nat → Forall frame_wf fs →
    currentHeader fr ++ rest = encode_frames fs → expects fr rest (run_frames fs)
| expects_payload p fs :
    length (currentHeader fr) = 9%nat → p ≠ [] → Forall frame_wf fs →
    payloadLeft fr = zlen p → rest = p ++ encode_frames fs →
    expects fr rest (handle (currentHeader fr) p false;; run_frames fs).

(** The three ways [next_payload] can cut the awaited payload [p]. *)
Lemma next_payload_cases fr rest p fs :
  header fr = currentHeader fr → payloadLeft fr = zlen p →
  buf fr ++ rest = p ++ encode_frames fs →
  (∃ c', buf fr = p ++ c' ∧ c' ≠ [] ∧ c' ++ rest = encode_frames fs ∧
     next_payload fr = Some (p, StatusFrameDone, mkFramer [] (currentHeader fr) (zlen p) c')) ∨
  (buf fr = p ∧ rest = encode_frames fs ∧
     next_payload fr = Some (p, StatusFrameDoneBufEmpty, mkFramer [] (currentHeader fr) (zlen p) p)) ∨
  (∃ p', p = buf fr ++ p' ∧ p' ≠ [] ∧ rest = p' ++ encode_frames fs ∧
     next_payload fr = Some (buf fr, StatusPayloadIncomplete,
       mkFramer (currentHeader fr) (currentHeader fr) (zlen p') (buf fr))).
Proof.
  intros Hh Hpl Heq. destruct (decide (length p <= length (buf fr)))%nat as [Hle|Hgt].
  - destruct (app_eq_prefix p (encode_frames fs) (buf fr) rest) as (m & Hb & Hr); [done..|].
    destruct m as [|x m].
    + right. left. rewrite app_nil_r in Hb. split_and!; [done..|].
      rewrite next_payload_exact by by rewrite Hb. by rewrite Hb, Hpl, Hh.
    + left. exists (x :: m). split_and!; [done..|].
      rewrite (next_payload_done fr p (x :: m)) by done. by rewrite Hpl, Hh.
  - right. right. destruct (app_eq_prefix (buf fr) rest p (encode_frames fs)) as (m & Hp & Hr); [done|lia|].
    assert (m ≠ []). { intros ->. rewrite app_nil_r in Hp. subst p. lia. }
    exists m. split_and!; [done..|].
    assert (0 < zlen m) by (destruct m; [done|solve_len]).
    rewrite next_payload_short by (rewrite Hpl, Hp, zlen_app; lia).
    rewrite Hpl, Hp, zlen_app, Hh. repeat f_equal. lia.
Qed.

(** One buffer, seen from what the handler is owed: either the loop asks for
    more and owes the rest, or it stopped as the specification does. *)
Inductive processed (rest : bytes) (m : GM W E unit) (w : W) : outcome E unit * receiver W → Prop :=
| processed_more fr m' w' :
    expects fr rest m' → res_equiv (m w) (m' w') → processed rest m w (Ret tt, mkReceiver fr w')
| processed_stop o s :
    (∀ a, o ≠ Ret a) → res_equiv (m w) (o, rv_world s) → processed rest m w (o, s).

Lemma processed_equiv rest m m' w w' r :
  res_equiv (m w) (m' w') → processed rest m' w' r → processed rest m w r.
Proof.
  assert (∀ r1 r2 r3 : outcome E unit * W, res_equiv r1 r2 → res_equiv r2 r3 → res_equiv r1 r3) as Htrans.
  { intros r1 r2 r3 [H1 H2] [H3 H4]. split; [congruence|].
    rewrite H1 in *. destruct (r2.1); cbn in *; by etransitivity. }
  intros H [fr m'' w'' He Hr|o s Ho Hr].
  - eapply processed_more; eauto.
  - eapply processed_stop; eauto.
Qed.

(** One turn of the loop after [Next] returned. *)
Definition turn (k : GM (receiver W) E unit) (r : option (bytes * Status * Framer)) (s : receiver W)
    : outcome E unit * receiver W :=
  match r with
  | None => (Panic, s)
  | Some (b, status, fr) =>
      if decide (status = StatusHeaderIncomplete) then (Ret tt, mkReceiver fr (rv_world s))
      else
        match handle (Header fr) b (bool_decide (status = StatusPayloadIncomplete)) (rv_world s) with
        | (Ret _, w) => if decide (status = StatusFrameDone) then k (mkReceiver fr w) else (Ret tt, mkReceiver fr w)
        | (o, w) => (o, mkReceiver fr w)
        end
  end.

Lemma process_loop_turn fuel s :
  process_loop (S fuel) s = turn (process_loop fuel) (Next (rv_framer s)) s.
Proof.
  cbn [process_loop]. unfold turn, framer_Next, framer_Header, call_handler, mbind, gm_bind.
  destruct (Next (rv_framer s)) as [[[b status] fr]|]; [|done].
  destruct (decide (status = StatusHeaderIncomplete)); [done|]. cbn [rv_framer rv_world].
  destruct (handle _ _ _ _) as [[[]|e| |] w]; try done.
  by destruct (decide (status = StatusFrameDone)).
Qed.

Context (Hchunked : Chunked handle).

Definition loop_ok (fuel : nat) : Prop := ∀ fr w rest m,
  (length (buf fr) < fuel)%nat → expects fr (buf fr ++ rest) m →
  processed rest m w (process_loop fuel (mkReceiver fr w)).

Lemma res_equiv_refl (r : outcome E unit * W) : res_equiv r r.
Proof. split; [done|]. destruct r as [[] ?]; cbn; reflexivity. Qed.

Lemma bind_ret_equiv (f m : GM W E unit) w w' a :
  f w = (Ret a, w') → res_equiv ((f;; m) w) (m w').
Proof. intros H. unfold mbind, gm_bind. rewrite H. apply res_equiv_refl. Qed.

Lemma bind_stop_processed (f m : GM W E unit) rest w fr w' o :
  f w = (o, w') → (∀ a, o ≠ Ret a) → processed rest (f;; m) w (o, mkReceiver fr w').
Proof.
  intros H Ho. apply processed_stop; [done|]. unfold mbind, gm_bind. rewrite H.
  destruct o as [a|e| |]; [by destruct (Ho a)|..]; apply res_equiv_refl.
Qed.

Lemma turn_payload fuel fr w rest p fs :
  loop_ok fuel →
  header fr = currentHeader fr → length (currentHeader fr) = 9%nat → payloadLeft fr = zlen p →
  buf fr ++ rest = p ++ encode_frames fs → Forall frame_wf fs →
  (length (buf fr) < fuel + length p)%nat → ∀ s, rv_world s = w →
  processed rest (handle (currentHeader fr) p false;; run_frames fs) w
    (turn (process_loop fuel) (next_payload fr) s).
Proof.
  intros IH Hh Hlen Hpl Heq Hwf Hfuel s Hs. unfold turn.
  destruct (next_payload_cases fr rest p fs Hh Hpl Heq)
    as [(c' & Hb & Hne & Hc' & ->)|[(Hb & Hr & ->)|(p' & Hp & Hne & Hr & ->)]];
    cbn [Header header]; rewrite Hs, decide_False by done.
  - change (bool_decide _) with false.
    destruct (handle (currentHeader fr) p false w) as [o w'] eqn:Hcall.
    destruct o as [[]|e| |]; [|by apply bind_stop_processed..].
    rewrite decide_True by done. eapply processed_equiv; [by eapply bind_ret_equiv|].
    apply IH; [rewrite Hb, length_app in Hfuel; cbn; lia|].
    apply expects_header; [cbn; lia|done|done].
  - change (bool_decide _) with false.
    destruct (handle (currentHeader fr) p false w) as [o w'] eqn:Hcall.
    destruct o as [[]|e| |]; [|by apply bind_stop_processed..].
    rewrite decide_False by done. eapply processed_more; [|by eapply bind_ret_equiv].
    apply expects_header; [cbn; lia|done|done].
  - change (bool_decide _) with true.
    apply (processed_equiv _ _ (handle (currentHeader fr) (buf fr) true;;
      (handle (currentHeader fr) p' false;; run_frames fs)) _ w).
    { assert (handle (currentHeader fr) p false ≈
        (handle (currentHeader fr) (buf fr) true;; handle (currentHeader fr) p' false)) as Hsplit
        by (rewrite Hp; apply Hchunked).
      pose proof (gm_bind_proper W E _ _ _ _ (reflexivity (λ _, run_frames fs)) _ _ Hsplit) as Heqv.
      rewrite (gm_bind_assoc _ _ _) in Heqv. apply Heqv. }
    destruct (handle (currentHeader fr) (buf fr) true w) as [o w'] eqn:Hcall.
    destruct o as [[]|e| |]; [|by apply bind_stop_processed..].
    rewrite decide_False by done. eapply processed_more; [|by eapply bind_ret_equiv].
    by apply (expects_payload (mkFramer _ _ _ _)).
Qed.

Lemma process_loop_ok fuel : loop_ok fuel.
Proof.
  induction fuel as [|fuel IH]; intros fr w rest m Hfuel Hexp; [lia|].
  rewrite process_loop_turn. cbn [rv_framer].
  inversion Hexp as [fs Hlen Hwf Heq|p fs Hlen Hne Hwf Hpl Heq]; subst m.
  - destruct (decide (length (currentHeader fr) + length (buf fr) < 9)%nat) as [Hs|Hl].
    + rewrite Next_short_header by done. eapply processed_more.
      * apply expects_header; [|done|]; cbn; [rewrite length_app; lia|by rewrite <-app_assoc].
      * apply res_equiv_refl.
    + set (need := (9 - length (currentHeader fr))%nat).
      assert (length (currentHeader fr ++ take need (buf fr)) = 9%nat) as Hnine.
      { rewrite length_app, length_take. lia. }
      rewrite <-(take_drop need (buf fr)), <-app_assoc, app_assoc in Heq.
      destruct (encode_frames_header _ _ _ Hwf Hnine Heq) as (p & fs' & -> & Hrest & Hpl).
      apply Forall_cons in Hwf as [_ Hwf].
      rewrite (Next_header_done fr (take need (buf fr)) (drop need (buf fr)) (zlen p))
        by (done || by rewrite take_drop).
      apply (turn_payload fuel (mkFramer _ _ _ _)); try done.
      cbn [buf]. rewrite length_drop. lia.
  - rewrite Next_mid_frame by done.
    apply (turn_payload fuel (mkFramer _ _ _ _)); try done.
    cbn [buf]. destruct p; [done|]. cbn [length]. lia.
Qed.

(** *** All buffers *)
Lemma run_ok chunks : ∀ fr w m,
  expects fr (concat chunks) m → processed [] m w (Run chunks (mkReceiver fr w)).
Proof.
  induction chunks as [|b chunks IH]; intros fr w m Hexp; cbn [Run concat] in *.
  { eapply processed_more; [done|apply res_equiv_refl]. }
  assert (expects (FFill b fr) (b ++ concat chunks) m) as Hexp'.
  { inversion Hexp as [fs Hlen Hwf Heq|p fs Hlen Hne Hwf Hpl Heq]; subst m.
    - by apply expects_header.
    - by apply (expects_payload (FFill b fr)). }
  pose proof (process_loop_ok (S (length b)) (FFill b fr) w (concat chunks) m) as Hp.
  specialize (Hp ltac:(cbn; lia) Hexp').
  change ((process b;; Run chunks) (mkReceiver fr w)) with
    ((process_loop (S (length b));; Run chunks) (mkReceiver (FFill b fr) w)).
  destruct (process_loop (S (length b)) (mkReceiver (FFill b fr) w)) as [o s] eqn:Hl.
  unfold mbind, gm_bind. rewrite Hl.
  inversion Hp as [fr' m' w' He Hr Heq|o' s' Ho Hr Heq]; subst.
  - eapply processed_equiv; [exact Hr|]. by apply IH.
  - destruct o as [a|e| |]; [by destruct (Ho a)|..]; by apply processed_stop.
Qed.
End receive.

(** The stream may be cut anywhere: a handler that is insensitive to the pieces
    of a payload has the outcome, and leaves the state, of one call per frame. *)
Lemma receive_chunk_invariance {W E} `{!FailEquiv W} (handle : bytes → bytes → bool → GM W E unit)
    (fs : list frame) (chunks : list bytes) (w : W) :
  Chunked handle → Forall frame_wf fs → concat chunks = encode_frames fs →
  let r := Run handle chunks (mkReceiver newFramer w) in
  res_equiv (run_frames handle fs w) (r.1, rv_world r.2) ∧
  (r.1 = Ret tt → currentHeader (rv_framer r.2) = []).
Proof.
  intros Hch Hwf Hcat. cbn zeta.
  assert (expects handle newFramer (concat chunks) (run_frames handle fs)) as Hexp.
  { apply expects_header; [cbn; lia|done|done]. }
  pose proof (run_ok handle Hch chunks newFramer w _ Hexp) as Hp.
  inversion Hp as [fr' m' w' He Hr Heq|o s Ho Hr Heq]; rewrite <-Heq in *; cbn [fst snd rv_world rv_framer].
  - inversion He as [fs' Hlen Hwf' Heq'|p fs' Hlen Hne Hwf' Hpl Heq']; subst m'.
    + destruct fs' as [|[h p] fs'].
      * rewrite app_nil_r in Heq'. by split.
      * apply Forall_cons in Hwf' as [(Hl & _ & _) _]. cbn in Heq', Hl.
        apply (f_equal length) in Heq'. rewrite !length_app in Heq'. cbn in Heq'. lia.
    + by destruct p.
  - split; [done|]. intros ->. by destruct (Ho tt).
Qed.
