(* ===== verification/Receiver.v ===== *)
(** * Receiver: what the loader does with the server's frames

    The properties of the receiving side (src/loader/reciever): the theorem on
    the cutting of the stream for the actual frame processors, termination on
    arbitrary input, what each type of frame does, and the life of a stream. *)

From S2P Require Import Prelude FrameHeader Types Store Framer Handlers Processor.

(** ** A decoder to evaluate with

    A concrete instance of the decoder parameter: every byte is a field whose
    name is that byte, 255 is an error. It satisfies the laws asked of the
    HPACK decoder and makes the theorems below computable. *)
Module ByteHpack.
Fixpoint write (emit : bool) (p : bytes) : list (bytes * bytes) * (unit + unit) :=
  match p with
  | [] => ([], inl tt)
  | b :: p =>
      if b =? 255 then ([], inr tt)
      else let '(fs, r) := write emit p in (if emit then ([b], []) :: fs else fs, r)
  end.
#[export] Instance decoder : HpackDecoder unit unit := {| hpack_Write _ emit p := write emit p |}.

Lemma write_silent p : (write false p).1 = [].
Proof.
  induction p as [|b p IH]; [done|]. cbn. destruct (b =? 255); [done|].
  by destruct (write false p).
Qed.

Lemma write_app emit p q :
  write emit (p ++ q) = match write emit p with
    | (fs, inr e) => (fs, inr e)
    | (fs, inl d) => let '(gs, r) := write emit q in (fs ++ gs, r) end.
Proof.
  induction p as [|b p IH]; cbn; [by destruct (write emit q)|].
  destruct (b =? 255); [done|]. rewrite IH.
  destruct (write emit p) as [fs [[]|[]]], (write emit q) as [gs r]; by destruct emit.
Qed.

#[export] Instance laws : HpackLaws unit unit.
Proof. split; [intros; apply write_silent | intros d; cbn; intros; by rewrite write_app]. Qed.
End ByteHpack.
#[export] Existing Instances ByteHpack.decoder ByteHpack.laws.

(** [Reciever.Run] from a fresh connection. *)
Section receiver.
Context {S D HErr : Type} `{!StreamStore S} `{!HpackDecoder D HErr}.

Definition Receive (chunks : list bytes) (s : pstate S D) : outcome (RecvError HErr) unit * pstate S D :=
  let r := Run (dispatch (HErr := HErr)) chunks (mkReceiver newFramer s) in (r.1, rv_world r.2).

(** One call of the frame's processor for every frame sent. *)
Definition ReceiveFrames (fs : list frame) (s : pstate S D) : outcome (RecvError HErr) unit * pstate S D :=
  run_frames (dispatch (HErr := HErr)) fs s.
End receiver.

(** Cutting the stream is unobservable. *)
Lemma receive_cut {S D HErr} `{!StreamStore S} `{!HpackDecoder D HErr} `{!HpackLaws D HErr}
    (fs : list frame) (chunks : list bytes) (s : pstate S D) :
  Forall frame_wf fs → concat chunks = encode_frames fs →
  (Receive (HErr := HErr) chunks s).1 = (ReceiveFrames fs s).1 ∧
  ps_world (Receive (HErr := HErr) chunks s).2 = ps_world (ReceiveFrames (HErr := HErr) fs s).2 ∧
  ((ReceiveFrames (HErr := HErr) fs s).1 = Ret tt →
    (Receive (HErr := HErr) chunks s).2 = (ReceiveFrames (HErr := HErr) fs s).2).
Proof.
  intros Hwf Hcat.
  destruct (receive_chunk_invariance (dispatch (HErr := HErr)) fs chunks s _ Hwf Hcat) as [[Ho Hs] _].
  unfold Receive, ReceiveFrames. cbn [fst snd] in *.
  destruct (run_frames _ fs s) as [o s']. cbn [fst snd] in *. rewrite <-Ho.
  destruct o as [[]|e| |]; subst; done.
Qed.

(** C3: However the network cuts the byte stream of a sequence of frames, receiving
    it has the outcome of handing each frame whole to its processor, and the
    same final state: of all processors and shared objects when the outcome is
    normal, of the shared objects when the connection ends with an error. *)
Theorem receive_any_cut {S D HErr} `{!StreamStore S} `{!HpackDecoder D HErr} `{!HpackLaws D HErr}
    (fs : list frame) (chunks : list bytes) (s : pstate S D) :
  Forall frame_wf fs → concat chunks = encode_frames fs →
  (Receive (HErr := HErr) chunks s).1 = (ReceiveFrames fs s).1 ∧
  ps_world (Receive (HErr := HErr) chunks s).2 = ps_world (ReceiveFrames (HErr := HErr) fs s).2 ∧
  ((ReceiveFrames (HErr := HErr) fs s).1 = Ret tt →
    (Receive (HErr := HErr) chunks s).2 = (ReceiveFrames (HErr := HErr) fs s).2).
Proof. apply receive_cut. Qed.

Definition example_frames : list frame :=
  [mk_frame FrameSettings FlagSettingsAck 0 []; mk_frame FrameHeaders FlagHeadersEndHeaders 3 [65; 66];
   mk_frame FramePing 0 0 [1; 2; 3; 4; 5; 6; 7; 8]; mk_frame FrameData FlagDataEndStream 3 [9; 9]].

Definition example_state : pstate StreamsMap unit :=
  NewDefaultProcessor tt (mkStreamsMap (mkStreamsMapUnlocked {[3 := 0%nat]})).

Definition example_chunks : list bytes :=
  [take 4 (encode_frames example_frames); []; take 25 (drop 4 (encode_frames example_frames));
   drop 29 (encode_frames example_frames)].

Theorem receive_any_cut_witness :
  concat example_chunks = encode_frames example_frames ∧
  (Receive (HErr := unit) example_chunks example_state).1 = Ret tt ∧
  w_log (ps_world (Receive (HErr := unit) example_chunks example_state).2) =
    [EvStream 0%nat (OnHeader [65] []); EvStream 0%nat (OnHeader [66] []);
     EvSend [0; 0; 8; 6; 1; 0; 0; 0; 0; 1; 2; 3; 4; 5; 6; 7; 8];
     EvLimiterRelease; EvStream 0%nat End_].
Proof.
  split; [reflexivity|].
  destruct (receive_any_cut (HErr := unit) example_frames example_chunks example_state) as (H1 & H2 & _).
  - repeat (apply Forall_cons; split; [apply mk_frame_wf; reflexivity|]). apply Forall_nil_2.
  - reflexivity.
  - rewrite H1, H2. split; vm_compute; reflexivity.
Defined.

(** ** Termination *)
Section termination.
Context {S D HErr : Type} `{!StreamStore S} `{!HpackDecoder D HErr}.

Lemma total_get_state {P} : gm_total (get_state (S := S) (HErr := HErr) (P := P)).
Proof. done. Qed.
Lemma total_put_state {P} (p : P) : gm_total (put_state (S := S) (HErr := HErr) p).
Proof. done. Qed.
Lemma total_emit {P} e : gm_total (emit_ (S := S) (HErr := HErr) (P := P) e).
Proof. done. Qed.
Lemma total_storeGet {P} id : gm_total (storeGet (S := S) (HErr := HErr) (P := P) id).
Proof. intros s. unfold storeGet. by case_match. Qed.
Lemma total_storeGetAndDelete {P} id : gm_total (storeGetAndDelete (S := S) (HErr := HErr) (P := P) id).
Proof. intros s. unfold storeGetAndDelete. by repeat case_match. Qed.
Lemma total_storeDelete {P} id : gm_total (storeDelete (S := S) (HErr := HErr) (P := P) id).
Proof. intros s. unfold storeDelete. by case_match. Qed.
#[local] Hint Resolve total_get_state total_put_state total_emit total_storeGet
  total_storeGetAndDelete total_storeDelete : total.

Lemma total_onHeaders fs : gm_total (onHeaders (S := S) (D := D) (HErr := HErr) fs).
Proof. induction fs as [|f fs IH]; cbn [onHeaders]; solve_total. Qed.
#[local] Hint Resolve total_onHeaders : total.

Lemma total_kind k h p i : gm_total (kind_Process (S := S) (D := D) (HErr := HErr) k h p i).
Proof.
  assert (∀ A B (get : A → B) set (m : GM B (RecvError HErr) unit), gm_total m → gm_total (gm_zoom get set m)) as Hzoom.
  { intros A B get set m Hm s. unfold gm_zoom. specialize (Hm (get s)). by destruct (m (get s)). }
  destruct k; apply Hzoom; unfold data_Process, headers_Process, hpackWrite, rst_Process,
    settings_Process, ping_Process, goaway_Process, wu_Process; solve_total.
Qed.

Lemma total_dispatch h p i : gm_total (dispatch (S := S) (D := D) (HErr := HErr) h p i).
Proof. unfold dispatch. pose proof total_kind. solve_total. Qed.
End termination.

Lemma total_run_frames {W E} (handle : bytes → bytes → bool → GM W E unit) fs :
  (∀ h p i, gm_total (handle h p i)) → gm_total (run_frames handle fs).
Proof. intros H. induction fs as [|f fs IH]; cbn [run_frames]; solve_total. Qed.

(** Every byte sequence is the beginning of a sequence of frames. *)
Lemma bytes_complete (bs : bytes) :
  Forall is_byte bs → ∃ extra fs, Forall frame_wf fs ∧ bs ++ extra = encode_frames fs.
Proof.
  induction bs as [bs IH] using (induction_ltof1 _ length). intros Hbs. unfold ltof in IH.
  destruct (decide (length bs < 9)%nat) as [Hs|Hl].
  - set (h := bs ++ replicate (9 - length bs) 0).
    assert (length h = 9%nat) as Hh by (unfold h; rewrite length_app, length_replicate; lia).
    destruct (header_nine h Hh) as (n & _ & _ & _ & Hn & _).
    assert (Forall is_byte h) as Hhb.
    { unfold h. apply Forall_app. split; [done|]. apply Forall_replicate. unfold is_byte. lia. }
    pose proof (Length_nonneg h n Hhb Hn).
    exists (replicate (9 - length bs) 0 ++ replicate (Z.to_nat n) 0), [(h, replicate (Z.to_nat n) 0)].
    split.
    + apply Forall_singleton. split; [done|]. split; [done|]. cbn. rewrite Hn. f_equal. solve_len.
    + cbn. rewrite app_nil_r. unfold h. by rewrite <-app_assoc.
  - set (h := take 9 bs). assert (length h = 9%nat) as Hh by (unfold h; rewrite length_take; lia).
    destruct (header_nine h Hh) as (n & _ & _ & _ & Hn & _).
    assert (Forall is_byte h) as Hhb by by apply Forall_take.
    pose proof (Length_nonneg h n Hhb Hn).
    set (rest := drop 9 bs). assert (bs = h ++ rest) as Hsplit by (unfold h, rest; by rewrite take_drop).
    assert (Forall is_byte rest) as Hrb by by apply Forall_drop.
    destruct (decide (Z.to_nat n <= length rest)%nat) as [Hfull|Hpart].
    + destruct (IH (drop (Z.to_nat n) rest)) as (extra & fs & Hfs & He).
      { unfold rest. rewrite !length_drop. lia. }
      { by apply Forall_drop. }
      exists extra, ((h, take (Z.to_nat n) rest) :: fs). split.
      * constructor; [|done]. split; [done|]. split; [done|]. cbn. rewrite Hn. f_equal.
        unfold zlen. rewrite length_take. lia.
      * cbn. rewrite <-!app_assoc. fold (encode_frames fs). rewrite <-He, Hsplit, <-app_assoc. f_equal.
        rewrite (app_assoc (take _ _)), take_drop. done.
    + exists (replicate (Z.to_nat n - length rest) 0), [(h, rest ++ replicate (Z.to_nat n - length rest) 0)].
      split.
      * apply Forall_singleton. split; [done|]. split; [done|]. cbn. rewrite Hn. f_equal. solve_len.
      * cbn. rewrite app_nil_r, Hsplit. by rewrite <-!app_assoc.
Qed.

Lemma Run_app_diverged {W E} (handle : bytes → bytes → bool → GM W E unit) chunks more s :
  (Run handle chunks s).1 = Diverged → (Run handle (chunks ++ more) s).1 = Diverged.
Proof.
  revert s. induction chunks as [|b chunks IH]; intros s H; [done|].
  cbn [Run app] in *. unfold mbind, gm_bind in *.
  destruct (process handle b s) as [[[]|e| |] s']; try done. by apply IH.
Qed.

(** C24: On any input at all the receive loop comes to an end: whatever bytes arrive
    and however they are cut, [process] never goes round without consuming. *)
Theorem receive_terminates {S D HErr} `{!StreamStore S} `{!HpackDecoder D HErr} `{!HpackLaws D HErr}
    (chunks : list bytes) (s : pstate S D) :
  Forall is_byte (concat chunks) → (Receive (HErr := HErr) chunks s).1 ≠ Diverged.
Proof.
  intros Hb Hdiv. destruct (bytes_complete _ Hb) as (extra & fs & Hwf & Heq).
  destruct (receive_chunk_invariance (dispatch (HErr := HErr)) fs (chunks ++ [extra]) s _ Hwf) as [[Ho _] _].
  { by rewrite concat_app, <-Heq; cbn; rewrite app_nil_r. }
  cbn [fst] in Ho. rewrite (Run_app_diverged _ chunks [extra]) in Ho by done.
  by apply (total_run_frames (dispatch (HErr := HErr)) fs total_dispatch s).
Qed.

Theorem receive_terminates_witness :
  (Receive (HErr := unit) [[0; 0]; [5; 8; 0; 0; 0; 0; 3; 1; 2]; []; [7; 7; 7; 250]] example_state).1 ≠ Diverged.
Proof.
  apply receive_terminates. repeat (apply Forall_cons; split; [unfold is_byte; lia|]). apply Forall_nil_2.
Defined.
