(* ===== verification/ReadLoop.v ===== *)
(** * ReadLoop: two read buffers in turn

    Models the two goroutines of [Reciever.Run] (src/loader/reciever/reciever.go):
    one reads the connection into two buffers in turn and sends slices of them over
    an unbuffered channel, the other processes what it receives.  The buffers are
    shared, so what the processor sees of a slice is read byte by byte out of a
    buffer that the reader will fill again. *)
From S2P Require Import Prelude FrameHeader Types Store Framer Handlers Processor Receiver.

#[local] Open Scope Z_scope.

Definition RecieveBufferSize : nat := Z.to_nat 2048.

Section readloop.
Context {A E : Type}.

(** [Processor.process] and the object it works on. *)
Context (proc : bytes → GM A E unit).

(** What a goroutine returns: its error, if any. *)
Inductive read_error := ConnErr | CtxErr.

Inductive reader := Reading (b : bool) | Offering (b : bool) (n : nat) | Returned (err : option read_error).
Inductive worker := Waiting | Working (b : bool) (n : nat) (seen : bytes) | Stopped (o : outcome E unit).

(** [buf1] is the buffer of [false]. *)
Record rsys := mkRsys {
  r_bufs : bool → bytes; r_reader : reader; r_worker : worker; r_cancelled : bool; r_obj : A
}.

Definition rsys_init (a : A) : rsys := mkRsys (λ _, replicate RecieveBufferSize 0) (Reading false) Waiting false a.

Inductive rlabel :=
| RRead (data : bytes)   (** the connection delivers [data] *)
| RReadErr               (** or fails *)
| RHandOver              (** the channel *)
| RByte                  (** the processor looks at the next byte of its slice *)
| RProcess               (** and has done so with all of them *)
| RChanClosed            (** [range ch] ends *)
| RStop (head : bool)    (** the reader notices the end of the context, at the head of its loop or in [read] *)
| RCancel.               (** the context is cancelled from outside *)

Definition fill_with (b : bool) (data : bytes) (bufs : bool → bytes) : bool → bytes :=
  λ j, if eqb j b then data ++ drop (length data) (bufs b) else bufs j.

Definition ended (o : outcome E unit) : bool := match o with Ret _ => false | _ => true end.

Definition rstep (l : rlabel) (s : rsys) : option rsys :=
  match l with
  | RRead data =>
      match r_reader s with
      | Reading b =>
          if decide (length data <= RecieveBufferSize)%nat then
            Some (mkRsys (fill_with b data (r_bufs s)) (Offering b (length data)) (r_worker s) (r_cancelled s) (r_obj s))
          else None
      | _ => None
      end
  | RReadErr =>
      match r_reader s with
      | Reading b => Some (mkRsys (r_bufs s) (Returned (Some ConnErr)) (r_worker s) true (r_obj s))
      | _ => None
      end
  | RHandOver =>
      match r_reader s, r_worker s with
      | Offering b n, Waiting => Some (mkRsys (r_bufs s) (Reading (negb b)) (Working b n []) (r_cancelled s) (r_obj s))
      | _, _ => None
      end
  | RByte =>
      match r_worker s with
      | Working b n seen =>
          if decide (length seen < n)%nat then
            c ← r_bufs s b !! length seen;
            Some (mkRsys (r_bufs s) (r_reader s) (Working b n (seen ++ [c])) (r_cancelled s) (r_obj s))
          else None
      | _ => None
      end
  | RProcess =>
      match r_worker s with
      | Working b n seen =>
          if decide (length seen = n) then
            let '(o, a) := proc seen (r_obj s) in
            Some (mkRsys (r_bufs s) (r_reader s) (if ended o then Stopped o else Waiting) (ended o || r_cancelled s) a)
          else None
      | _ => None
      end
  | RChanClosed =>
      match r_reader s, r_worker s with
      | Returned _, Waiting => Some (mkRsys (r_bufs s) (r_reader s) (Stopped (Ret tt)) (r_cancelled s) (r_obj s))
      | _, _ => None
      end
  | RStop head =>
      if r_cancelled s then
        match r_reader s, head with
        | Returned _, _ => None
        | Reading false, true => Some (mkRsys (r_bufs s) (Returned None) (r_worker s) true (r_obj s))
        | _, true => None
        | _, false => Some (mkRsys (r_bufs s) (Returned (Some CtxErr)) (r_worker s) true (r_obj s))
        end
      else None
  | RCancel => Some (mkRsys (r_bufs s) (r_reader s) (r_worker s) true (r_obj s))
  end.

Fixpoint rsteps (ls : list rlabel) (s : rsys) : option rsys :=
  match ls with [] => Some s | l :: ls => s ← rstep l s; rsteps ls s end.

(** What the connection has delivered, and processing buffers one after the other. *)
Definition delivered (ls : list rlabel) : list bytes := omap (λ l, match l with RRead data => Some data | _ => None end) ls.

Fixpoint process_all (bs : list bytes) : GM A E unit :=
  match bs with [] => mret tt | b :: bs => proc b;; process_all bs end.

Lemma process_all_snoc bs b a a' : process_all bs a = (Ret tt, a') → process_all (bs ++ [b]) a = proc b a'.
Proof.
  revert a. induction bs as [|x bs IH]; intros a; cbn.
  - intros [= <-]. unfold mret, gm_ret, mbind, gm_bind. by destruct (proc b a) as [[[]|e| |] a2].
  - unfold mbind, gm_bind. destruct (proc x a) as [[[]|e| |] a1]; try done. apply IH.
Qed.

(** ** The invariant *)

(** What the reader has read and not handed over; when it has returned, it may
    have dropped it. *)
Definition offered (s : rsys) (rest : list bytes) : Prop :=
  match r_reader s with
  | Reading _ => rest = []
  | Offering b n => rest = [take n (r_bufs s b)] ∧ (n <= RecieveBufferSize)%nat
  | Returned _ => (length rest <= 1)%nat
  end.

(** The buffer of the processor is not the reader's. *)
Definition apart (s : rsys) (b : bool) : Prop :=
  match r_reader s with Reading b' | Offering b' _ => b' = negb b | Returned _ => True end.

Definition outcome_of (w : worker) : outcome E unit := match w with Stopped o => o | _ => Ret tt end.

Record rinv (a0 : A) (ls : list rlabel) (s : rsys) (done rest : list bytes) : Prop := {
  ri_len : ∀ b, length (r_bufs s b) = RecieveBufferSize;
  ri_done : process_all done a0 = (outcome_of (r_worker s), r_obj s);
  ri_work : match r_worker s with
    | Waiting => delivered ls = done ++ rest ∧ offered s rest
    | Working b n seen => ∃ more, rest = take n (r_bufs s b) :: more ∧ delivered ls = done ++ rest ∧ offered s more ∧
        apart s b ∧ (n <= RecieveBufferSize)%nat ∧ (length seen <= n)%nat ∧ seen = take (length seen) (r_bufs s b)
    | Stopped _ => delivered ls = done ++ rest ∧ offered s rest
    end
}.

Lemma fill_with_same b data bufs : fill_with b data bufs b = data ++ drop (length data) (bufs b).
Proof. unfold fill_with. by rewrite eqb_reflx. Qed.
Lemma fill_with_other b data bufs : fill_with b data bufs (negb b) = bufs (negb b).
Proof. unfold fill_with. by destruct b. Qed.
Lemma delivered_app ls ls' : delivered (ls ++ ls') = delivered ls ++ delivered ls'.
Proof. apply omap_app. Qed.

Lemma ri_quiet a0 ls s s' done rest l : delivered [l] = [] → (∀ b, r_bufs s' b = r_bufs s b) → r_worker s' = r_worker s →
  r_obj s' = r_obj s → (r_reader s' = r_reader s ∨ ∃ e, r_reader s' = Returned e) →
  rinv a0 ls s done rest → rinv a0 (ls ++ [l]) s' done rest.
Proof.
  intros Hl Hb Hw Ho Hr [Hlen Hdone Hwork].
  assert (∀ more, offered s more → offered s' more) as Hoff.
  { intros more. unfold offered. destruct Hr as [->|[e ->]].
    - destruct (r_reader s); [done| |done]. by rewrite Hb.
    - destruct (r_reader s); [intros ->; cbn; lia|intros [-> _]; cbn; lia|done]. }
  split; [intros b; by rewrite Hb|by rewrite Hw, Ho|]. rewrite Hw, delivered_app, Hl, app_nil_r.
  destruct (r_worker s) as [|b n seen|o]; [naive_solver| |naive_solver].
  destruct Hwork as (more & -> & ? & ? & Hap & ? & ? & ?). exists more. rewrite Hb. split_and!; try done; [by apply Hoff|].
  unfold apart in *. destruct Hr as [->|[e ->]]; [done|done].
Qed.

Lemma ri_read a0 ls s done rest b data : r_reader s = Reading b → (length data <= RecieveBufferSize)%nat →
  rinv a0 ls s done rest →
  rinv a0 (ls ++ [RRead data]) (mkRsys (fill_with b data (r_bufs s)) (Offering b (length data)) (r_worker s) (r_cancelled s) (r_obj s))
    done (rest ++ [data]).
Proof.
  intros Hr Hd [Hlen Hdone Hwork].
  assert (take (length data) (fill_with b data (r_bufs s) b) = data) as Htake by (rewrite fill_with_same; by rewrite take_app_length).
  split; cbn [r_bufs r_worker r_obj r_reader r_cancelled]; [|done|].
  - intros b'. unfold fill_with. destruct (eqb b' b) eqn:Eb; [|done]. apply eqb_prop in Eb as ->.
    rewrite length_app, length_drop, Hlen. lia.
  - rewrite delivered_app. cbn [delivered omap list_omap]. unfold offered in Hwork. rewrite Hr in Hwork.
    destruct (r_worker s) as [|b' n seen|o].
    + destruct Hwork as [-> ->]. unfold offered. cbn [r_reader r_bufs]. rewrite Htake, !app_nil_r. done.
    + destruct Hwork as (more & -> & -> & -> & Hap & Hn & Hs & Hseen). unfold apart in *. rewrite Hr in Hap.
      assert (b' = negb b) as -> by (subst b; by rewrite negb_involutive). clear Hap.
      exists [data]. unfold offered, apart. cbn [r_reader r_bufs]. rewrite Htake, fill_with_other, negb_involutive, <-app_assoc.
      split_and!; done.
    + destruct Hwork as [-> ->]. unfold offered. cbn [r_reader r_bufs]. rewrite Htake, !app_nil_r. done.
Qed.

Lemma ri_handover a0 ls s done rest b n : r_reader s = Offering b n → r_worker s = Waiting → rinv a0 ls s done rest →
  rinv a0 (ls ++ [RHandOver]) (mkRsys (r_bufs s) (Reading (negb b)) (Working b n []) (r_cancelled s) (r_obj s)) done rest.
Proof.
  intros Hr Hw [Hlen Hdone Hwork]. rewrite Hw in *. unfold offered in Hwork. rewrite Hr in Hwork. destruct Hwork as (Hd & -> & Hn).
  split; cbn [r_bufs r_worker r_obj r_reader]; [done|done|]. exists [].
  rewrite delivered_app, app_nil_r. split_and!; try done. cbn. lia.
Qed.

Lemma ri_byte a0 ls s done rest b n seen c : r_worker s = Working b n seen → (length seen < n)%nat →
  r_bufs s b !! length seen = Some c → rinv a0 ls s done rest →
  rinv a0 (ls ++ [RByte]) (mkRsys (r_bufs s) (r_reader s) (Working b n (seen ++ [c])) (r_cancelled s) (r_obj s)) done rest.
Proof.
  intros Hw Hl Hc [Hlen Hdone Hwork]. rewrite Hw in *. destruct Hwork as (more & -> & Hd & Ho & Ha & Hn & Hs & Hseen).
  split; cbn [r_bufs r_worker r_obj]; [done|done|]. exists more. rewrite delivered_app, app_nil_r.
  split_and!; try done; [rewrite length_app; cbn; lia|]. rewrite length_app, Nat.add_1_r.
  erewrite take_S_r by done. by rewrite <-Hseen.
Qed.

Lemma ri_process a0 ls s done rest b n seen o a : r_worker s = Working b n seen → length seen = n →
  proc seen (r_obj s) = (o, a) → rinv a0 ls s done rest →
  ∃ done' rest', rinv a0 (ls ++ [RProcess])
    (mkRsys (r_bufs s) (r_reader s) (if ended o then Stopped o else Waiting) (ended o || r_cancelled s) a) done' rest'.
Proof.
  intros Hw Hl Hp [Hlen Hdone Hwork]. rewrite Hw in *. destruct Hwork as (more & -> & Hd & Ho & Ha & Hn & Hs & Hseen).
  rewrite Hl in Hseen. exists (done ++ [seen]), more. split; cbn [r_bufs r_worker r_obj]; [done| |].
  - rewrite (process_all_snoc _ _ _ _ Hdone), Hp. by destruct o as [[]|e| |].
  - rewrite delivered_app, app_nil_r. rewrite <-Hseen in Hd. rewrite <-app_assoc. by destruct (ended o).
Qed.

Lemma rstep_inv a0 ls s l s' done rest : rstep l s = Some s' → rinv a0 ls s done rest →
  ∃ done' rest', rinv a0 (ls ++ [l]) s' done' rest'.
Proof.
  intros Hs Hi. destruct l as [data| | | | | |head|]; cbn in Hs.
  - destruct (r_reader s) as [b| |] eqn:Hr; try done. case_decide; [|done]. injection Hs as <-.
    do 2 eexists. by apply ri_read.
  - destruct (r_reader s) eqn:Hr; try done. injection Hs as <-. do 2 eexists. eapply (ri_quiet _ _ s); cbn; eauto.
  - destruct (r_reader s) as [|b n|] eqn:Hr; try done. destruct (r_worker s) eqn:Hw; try done. injection Hs as <-.
    do 2 eexists. by apply ri_handover.
  - destruct (r_worker s) as [|b n seen|] eqn:Hw; try done. case_decide; [|done].
    destruct (r_bufs s b !! length seen) eqn:Hc; [|done]. injection Hs as <-. do 2 eexists. by eapply ri_byte.
  - destruct (r_worker s) as [|b n seen|] eqn:Hw; try done. case_decide; [|done].
    destruct (proc seen (r_obj s)) as [o a] eqn:Hp. injection Hs as <-. by eapply ri_process.
  - destruct (r_reader s) eqn:Hr; try done. destruct (r_worker s) eqn:Hw; try done. injection Hs as <-.
    exists done, rest. destruct Hi as [Hlen Hdone Hwork]. rewrite Hw in *. unfold offered in *. rewrite Hr in Hwork.
    split; cbn; [done|done|]. unfold offered. by rewrite delivered_app, app_nil_r.
  - destruct (r_cancelled s); [|done]. exists done, rest.
    destruct (r_reader s) as [[]| |] eqn:Hr, head; try done; injection Hs as <-; eapply (ri_quiet _ _ s); cbn; eauto.
  - injection Hs as <-. do 2 eexists. eapply (ri_quiet _ _ s); cbn; eauto.
Qed.

Lemma rinit_inv a0 : rinv a0 [] (rsys_init a0) [] [].
Proof. split; [intros b; apply length_replicate|done|done]. Qed.

Lemma rsteps_inv a0 ls' : ∀ ls s s' done rest, rsteps ls' s = Some s' → rinv a0 ls s done rest →
  ∃ done' rest', rinv a0 (ls ++ ls') s' done' rest'.
Proof.
  induction ls' as [|l ls' IH]; intros ls s s' done rest Hs Hi; cbn in Hs.
  - injection Hs as <-. rewrite app_nil_r. eauto.
  - apply bind_Some in Hs as (s1 & H1 & Hs). destruct (rstep_inv _ _ _ _ _ _ _ H1 Hi) as (d1 & r1 & Hi1).
    destruct (IH _ _ _ _ _ Hs Hi1) as (d & r & Hd). rewrite <-app_assoc in Hd. eauto.
Qed.

Lemma rinv_rest a0 ls s done rest : rinv a0 ls s done rest → delivered ls = done ++ rest ∧ (length rest <= 2)%nat ∧
  ∀ b n seen, r_worker s = Working b n seen → ∃ x more, rest = x :: more ∧ seen `prefix_of` x.
Proof.
  intros [_ _ Hwork].
  assert (∀ more, offered s more → (length more <= 1)%nat) as Hoff.
  { intros more. unfold offered. destruct (r_reader s); [intros ->; cbn; lia|intros [-> _]; cbn; lia|done]. }
  destruct (r_worker s) as [|b n seen|o].
  - destruct Hwork as [Hd Ho]. specialize (Hoff _ Ho). split_and!; [done|lia|done].
  - destruct Hwork as (more & -> & Hd & Ho & _ & _ & Hl & Hseen). specialize (Hoff _ Ho). split_and!; [done|cbn; lia|].
    intros b' n' seen' [= <- <- <-]. eexists _, _. split; [done|]. rewrite Hseen.
    rewrite <-(Nat.min_l (length seen) n) by done. rewrite <-take_take. apply prefix_take.
  - destruct Hwork as [Hd Ho]. specialize (Hoff _ Ho). split_and!; [done|lia|done].
Qed.
End readloop.

(** ** The receiver *)
Section receiver.
Context {S D HErr : Type} `{!StreamStore S} `{!HpackDecoder D HErr}.

(** The reader and the processor of a connection. *)
Definition conn_steps (ls : list rlabel) (st : pstate S D) : option (@rsys (receiver (pstate S D)) (RecvError HErr)) :=
  rsteps (process (dispatch (HErr := HErr))) ls (rsys_init (mkReceiver newFramer st)).

Lemma process_all_Run bs s : process_all (process (dispatch (S := S) (D := D) (HErr := HErr))) bs s = Run dispatch bs s.
Proof.
  revert s. induction bs as [|b bs IH]; intros s; [done|]. cbn [process_all Run]. unfold mbind, gm_bind.
  destruct (process dispatch b s) as [[[]|e| |] s1]; done || apply IH.
Qed.
End receiver.

(** C7: Filling two buffers in turn while the other is being processed spoils nothing:
    under every interleaving of the two goroutines, with any sizes of the reads,
    errors of the connection and cancellations, the processor has processed
    exactly the first of the delivered buffers, byte for byte as they were read,
    and at most two are still to come.  So once it has all of the frames sent, it
    has had the effects of handling each of them. *)
Theorem reads_unspoiled {S D HErr} `{!StreamStore S} `{!HpackDecoder D HErr} `{!HpackLaws D HErr} ls (st : pstate S D) s :
  conn_steps (HErr := HErr) ls st = Some s →
  ∃ done rest, delivered ls = done ++ rest ∧ (length rest <= 2)%nat ∧
    (∀ b n seen, r_worker s = Working b n seen → ∃ x more, rest = x :: more ∧ seen `prefix_of` x) ∧
    Receive done st = (outcome_of (r_worker s), rv_world (r_obj s)) ∧
    ∀ fs, Forall frame_wf fs → concat done = encode_frames fs →
      ps_world (rv_world (r_obj s)) = ps_world (ReceiveFrames (HErr := HErr) fs st).2.
Proof.
  intros Hs. destruct (rsteps_inv _ (mkReceiver newFramer st) ls [] _ _ [] [] Hs (rinit_inv _ _)) as (done & rest & Hi).
  destruct (rinv_rest _ _ _ _ _ _ Hi) as (Hd & Hl & Hw). exists done, rest. split_and!; [done..| |].
  - unfold Receive. rewrite <-process_all_Run, (ri_done _ _ _ _ _ _ Hi). done.
  - intros fs Hwf Hcat. destruct (receive_cut (HErr := HErr) fs done st Hwf Hcat) as (_ & Hw' & _).
    rewrite <-Hw'. unfold Receive. by rewrite <-process_all_Run, (ri_done _ _ _ _ _ _ Hi).
Qed.

Definition example_reads : list rlabel :=
  let es := encode_frames example_frames in
  let all n := replicate n RByte in
  [RRead (take 4 es); RHandOver; RRead (take 25 (drop 4 es))] ++ all 4%nat ++ [RProcess; RHandOver] ++ all 10%nat ++
  [RRead (drop 29 es)] ++ all 15%nat ++ [RProcess; RHandOver; RReadErr] ++ all (length (drop 29 es)) ++ [RProcess; RChanClosed].

Theorem reads_unspoiled_witness : ∃ s,
  conn_steps (HErr := unit) example_reads example_state = Some s ∧ r_worker s = Stopped (Ret tt) ∧
  ∃ done rest, delivered example_reads = done ++ rest ∧ (length rest <= 2)%nat ∧
    (∀ b n seen, r_worker s = Working b n seen → ∃ x more, rest = x :: more ∧ seen `prefix_of` x) ∧
    Receive done example_state = (outcome_of (r_worker s), rv_world (r_obj s)) ∧
    ∀ fs, Forall frame_wf fs → concat done = encode_frames fs →
      ps_world (rv_world (r_obj s)) = ps_world (ReceiveFrames (HErr := unit) fs example_state).2.
Proof.
  destruct (conn_steps (HErr := unit) example_reads example_state) as [s|] eqn:Hs; [|exfalso; vm_compute in Hs; done].
  exists s. split; [done|]. split; [vm_compute in Hs; by injection Hs as <-|].
  by apply (reads_unspoiled (HErr := unit) example_reads example_state s).
Defined.
