(* ===== verification/Acks.v ===== *)
(** * Acks: the two buffers of a reply on their way to the connection

    [pingFrameProcessor] and [dataFrameProcessor] of
    src/loader/reciever/processor.go build each reply in one of two arrays, put the
    slice on the priority channel and go on with the other array.  The slice passes
    the channel of capacity one, the batching goroutine and the send loop of
    src/loader/sender/sender.go, which writes it byte by byte; the arrays are
    shared all the way.  The replies themselves are those of [ping_Process] and
    [data_Process]. *)
From S2P Require Import Prelude FrameHeader Types Handlers.

#[local] Open Scope Z_scope.

(** An array is named by a [bool].  [k_cur]: the array the next reply goes into;
    [k_blocked]: it holds a reply that waits for room in the channel; [k_writing]:
    the array the send loop is writing, and what it has written of it. *)
Record acks := mkAcks {
  k_arrays : bool → bytes; k_cur : bool; k_blocked : bool;
  k_chan : option bool; k_hand : option bool; k_writing : option (bool * bytes);
  k_conn : list bytes
}.

Definition acks_init (template : bytes) : acks := mkAcks (λ _, template) false false None None None [].

Inductive klabel :=
| KFill (reply : bytes)  (** the processor writes a reply into the current array *)
| KSend                  (** the channel takes it, and the arrays are exchanged *)
| KTake                  (** the batching goroutine takes it from the channel *)
| KHandOver              (** and passes it to the send loop *)
| KByte                  (** which writes a byte *)
| KDone.                 (** or has written them all *)

Definition set_array (i : bool) (b : bytes) (f : bool → bytes) : bool → bytes := λ j, if eqb j i then b else f j.

Definition kstep (l : klabel) (s : acks) : option acks :=
  let '(mkAcks arrays cur blocked chan hand writing conn) := s in
  match l with
  | KFill reply => if blocked then None else Some (mkAcks (set_array cur reply arrays) cur true chan hand writing conn)
  | KSend =>
      match blocked, chan with
      | true, None => Some (mkAcks arrays (negb cur) false (Some cur) hand writing conn)
      | _, _ => None
      end
  | KTake =>
      match chan, hand with
      | Some i, None => Some (mkAcks arrays cur blocked None (Some i) writing conn)
      | _, _ => None
      end
  | KHandOver =>
      match hand, writing with
      | Some i, None => Some (mkAcks arrays cur blocked chan None (Some (i, [])) conn)
      | _, _ => None
      end
  | KByte =>
      match writing with
      | Some (i, w) => c ← arrays i !! length w; Some (mkAcks arrays cur blocked chan hand (Some (i, w ++ [c])) conn)
      | None => None
      end
  | KDone =>
      match writing with
      | Some (i, w) => if decide (length w = length (arrays i)) then Some (mkAcks arrays cur blocked chan hand None (conn ++ [w])) else None
      | None => None
      end
  end.

Fixpoint ksteps (ls : list klabel) (s : acks) : option acks :=
  match ls with [] => Some s | l :: ls => s ← kstep l s; ksteps ls s end.

Definition replies (ls : list klabel) : list bytes := omap (λ l, match l with KFill r => Some r | _ => None end) ls.

(** The peer waits: when a reply is asked for, all those before the last one have
    been written; [n]: how many have not. *)
Fixpoint patient (n : nat) (ls : list klabel) : bool :=
  match ls with
  | [] => true
  | KFill _ :: ls => (n <=? 1)%nat && patient (S n) ls
  | KDone :: ls => patient (Nat.pred n) ls
  | _ :: ls => patient n ls
  end.

(** ** The invariant *)

(** The arrays on their way, the one furthest along first. *)
Definition under_way (s : acks) : list bool :=
  match k_writing s with Some (i, _) => [i] | None => [] end ++ option_list (k_hand s) ++ option_list (k_chan s) ++
  (if k_blocked s then [k_cur s] else []).

(** The array of the newest reply on its way. *)
Definition newest (s : acks) : bool := if k_blocked s then k_cur s else negb (k_cur s).

(** At most two replies are on their way, in different arrays. *)
Record ack_inv (rs : list bytes) (s : acks) (left : list bytes) : Prop := {
  ai_replies : rs = k_conn s ++ left;
  ai_arrays : k_arrays s <$> under_way s = left;
  ai_way : under_way s = [] ∨ under_way s = [newest s] ∨ under_way s = [negb (newest s); newest s];
  ai_written : ∀ i w, k_writing s = Some (i, w) → w `prefix_of` k_arrays s i
}.

Lemma set_array_same i b f : set_array i b f i = b.
Proof. unfold set_array. by rewrite eqb_reflx. Qed.
Lemma set_array_other i b f : set_array i b f (negb i) = f (negb i).
Proof. unfold set_array. by destruct i. Qed.

Lemma prefix_byte (w a : bytes) c : w `prefix_of` a → a !! length w = Some c → (w ++ [c]) `prefix_of` a.
Proof.
  intros [k ->] Hc. rewrite lookup_app_r in Hc by done. rewrite Nat.sub_diag in Hc.
  destruct k as [|x k]; [done|]. injection Hc as ->. exists k. by rewrite <-app_assoc.
Qed.

(** A step that only moves a reply along. *)
Lemma ack_moves rs s s' left : k_arrays s' = k_arrays s → k_conn s' = k_conn s → under_way s' = under_way s → newest s' = newest s →
  (∀ i w, k_writing s' = Some (i, w) → w `prefix_of` k_arrays s i) → ack_inv rs s left → ack_inv rs s' left.
Proof. intros Ha Hc Hu Hn Hw [H1 H2 H3 H4]. split; rewrite ?Ha, ?Hc, ?Hu, ?Hn; done. Qed.

Lemma ack_fill rs s left reply s' : kstep (KFill reply) s = Some s' → (length left <= 1)%nat → ack_inv rs s left →
  ack_inv (rs ++ [reply]) s' (left ++ [reply]).
Proof.
  destruct s as [arrays cur [|] chan hand writing conn]; cbn; [done|]. intros [= <-] Hl [H1 H2 H3 H4].
  unfold under_way, newest in *. cbn in *.
  set (way := match writing with Some (i, _) => [i] | None => [] end ++ option_list hand ++ option_list chan ++ []) in *.
  assert (match writing with Some (i, _) => [i] | None => [] end ++ option_list hand ++ option_list chan ++ [cur] = way ++ [cur]) as Hway
    by (subst way; by rewrite app_nil_r, <-!app_assoc).
  assert (length way <= 1)%nat as Hlw by (rewrite <-H2, length_fmap in Hl; done).
  assert (set_array cur reply arrays <$> way = arrays <$> way ∧ (way = [] ∨ way = [negb cur])) as [Hsame Hcases].
  { destruct H3 as [->|[->|E]]; [naive_solver| |rewrite E in Hlw; cbn in Hlw; lia].
    cbn. rewrite set_array_other. naive_solver. }
  split; unfold under_way, newest; cbn; rewrite ?Hway.
  - by rewrite H1, app_assoc.
  - rewrite fmap_app, Hsame, H2. cbn. by rewrite set_array_same.
  - destruct Hcases as [->| ->]; naive_solver.
  - intros i w Hw. assert (i = negb cur) as ->.
    { subst way. rewrite Hw in Hcases. destruct hand, chan; cbn in Hcases; naive_solver. }
    rewrite set_array_other. by apply H4.
Qed.

Lemma ack_done rs s left s' : kstep KDone s = Some s' → ack_inv rs s left → ack_inv rs s' (tail left) ∧ left ≠ [].
Proof.
  destruct s as [arrays cur blocked chan hand [[i w]|] conn]; cbn; [|done]. case_decide as Hlen; [|done]. intros [= <-] [H1 H2 H3 H4].
  unfold under_way, newest in *. cbn in *. subst left. cbn. split; [|done].
  assert (w = arrays i) as ->.
  { destruct (H4 i w eq_refl) as [k Hk]. rewrite Hk, length_app in Hlen. rewrite Hk.
    destruct k; [by rewrite app_nil_r|cbn in Hlen; lia]. }
  split; unfold under_way, newest; cbn; [by rewrite <-app_assoc|done| |done].
  destruct H3 as [?|[[= _ ->]|[= _ ->]]]; naive_solver.
Qed.

Lemma ack_step rs s left l s' : kstep l s = Some s' → patient (length left) [l] = true → ack_inv rs s left →
  ∃ left', ack_inv (rs ++ replies [l]) s' left' ∧ ∀ ls, patient (length left) (l :: ls) = true → patient (length left') ls = true.
Proof.
  intros Hs Hp Hi. destruct l as [reply| | | | |].
  - exists (left ++ [reply]). cbn in Hp |- *. rewrite andb_true_r in Hp. apply Nat.leb_le in Hp. split; [by eapply ack_fill|].
    rewrite length_app, Nat.add_1_r. intros ls Hls. by apply andb_true_iff in Hls as [_ ?].
  - exists left. rewrite app_nil_r. split; [|done]. destruct s as [arrays cur [|] [|] hand writing conn]; cbn in Hs; try done.
    injection Hs as <-. eapply ack_moves; [..|exact Hi]; try done; [unfold newest; cbn; by destruct cur|apply Hi].
  - exists left. rewrite app_nil_r. split; [|done]. destruct s as [arrays cur blocked [c|] [|] writing conn]; cbn in Hs; try done.
    injection Hs as <-. eapply ack_moves; [..|exact Hi]; done || apply Hi.
  - exists left. rewrite app_nil_r. split; [|done]. destruct s as [arrays cur blocked chan [h|] [|] conn]; cbn in Hs; try done.
    injection Hs as <-. eapply ack_moves; [..|exact Hi]; try done. intros i w [= _ <-]. apply prefix_nil.
  - exists left. rewrite app_nil_r. split; [|done]. destruct s as [arrays cur blocked chan hand [[i w]|] conn]; cbn in Hs; try done.
    destruct (arrays i !! length w) as [c|] eqn:Hc; [|done]. injection Hs as <-. eapply ack_moves; [..|exact Hi]; try done.
    intros i' w' [= <- <-]. apply prefix_byte; [|done]. by apply (ai_written _ _ _ Hi).
  - destruct (ack_done _ _ _ _ Hs Hi) as [Hi' Hne]. exists (tail left). rewrite app_nil_r. split; [done|].
    cbn. by destruct left.
Qed.

Lemma ack_run ls : ∀ rs s left s', ksteps ls s = Some s' → patient (length left) ls = true → ack_inv rs s left →
  ∃ left', ack_inv (rs ++ replies ls) s' left'.
Proof.
  induction ls as [|l ls IH]; intros rs s left s' Hs Hp Hi; cbn [ksteps] in Hs.
  - injection Hs as <-. exists left. by rewrite app_nil_r.
  - apply bind_Some in Hs as (s1 & H1 & Hs).
    assert (patient (length left) [l] = true) as Hp1.
    { destruct l; cbn in Hp |- *; try done. rewrite andb_true_r. by apply andb_true_iff in Hp as [? _]. }
    destruct (ack_step _ _ _ _ _ H1 Hp1 Hi) as (left1 & Hi1 & Hp'). specialize (Hp' _ Hp).
    destruct (IH _ _ _ _ Hs Hp' Hi1) as (left' & Hi'). exists left'. rewrite <-app_assoc in Hi'.
    change (replies (l :: ls)) with (replies ([l] ++ ls)). unfold replies in *. by rewrite omap_app.
Qed.

(** C22: Replies arrive whole and in order as long as the server is patient: when it
    asks for a reply, all those before the last one have been written.  What is on
    the connection is then the replies asked for but the last two at most, and
    what is being written is the beginning of the next one. *)
Theorem patient_acks_arrive template ls s :
  patient 0 ls = true → ksteps ls (acks_init template) = Some s →
  ∃ left, replies ls = k_conn s ++ left ∧ (length left <= 2)%nat ∧
    ∀ i w, k_writing s = Some (i, w) → ∃ reply more, left = reply :: more ∧ w `prefix_of` reply.
Proof.
  intros Hp Hs. destruct (ack_run ls [] (acks_init template) [] s Hs Hp) as [left Hi].
  { split; try done. by left. }
  destruct Hi as [H1 H2 H3 H4]. exists left. split_and!; [done| |].
  - rewrite <-H2, length_fmap. destruct H3 as [->|[->| ->]]; cbn; lia.
  - intros i w Hw. specialize (H4 i w Hw). unfold under_way in H2. rewrite Hw in H2. cbn in H2. subst left. eauto.
Qed.

Definition example_acks : list klabel :=
  [KFill [1; 2]; KSend; KTake; KHandOver; KByte; KFill [3; 4]; KSend; KByte; KDone; KTake; KHandOver; KFill [5; 6]; KByte].

Theorem patient_acks_arrive_witness :
  patient 0 example_acks = true ∧ ∃ s, ksteps example_acks (acks_init [0; 0]) = Some s ∧ k_conn s = [[1; 2]] ∧
  ∃ left, [[1; 2]; [3; 4]; [5; 6]] = k_conn s ++ left ∧ (length left <= 2)%nat ∧
    ∀ i w, k_writing s = Some (i, w) → ∃ reply more, left = reply :: more ∧ w `prefix_of` reply.
Proof.
  split; [reflexivity|]. eexists. split; [reflexivity|]. split; [reflexivity|].
  apply (patient_acks_arrive [0; 0] example_acks); reflexivity.
Defined.

(** A server that is not: while its first PING is being acknowledged and the second
    acknowledgement waits behind it, the third is written over the first, and the
    connection gets the answer to the third PING in place of that to the first. *)
Theorem impatient_ack_overwritten a b c :
  length a = 2%nat → length c = 2%nat →
  let ls := [KFill a; KSend; KTake; KHandOver; KFill b; KSend; KTake; KFill c; KByte; KByte; KDone] in
  ∃ s, ksteps ls (acks_init a) = Some s ∧ replies ls = [a; b; c] ∧ k_conn s = [c].
Proof.
  intros Ha Hc. destruct a as [|a1 [|a2 [|]]], c as [|c1 [|c2 [|]]]; try done. eexists. split; [reflexivity|]. split; reflexivity.
Qed.
