(* ===== verification/Monitor.v ===== *)
(** * Monitor: mutex and condition variable

    The blocking objects of the loader share one shape: a [sync.Mutex] guards a
    state, a call re-tests a condition in a loop around [cond.Wait()], and the
    operations that may make it true call [cond.Signal()] or
    [cond.Broadcast()]. This file gives that shape once, as an executable
    transition system over explicit schedules, and proves when no caller is
    left asleep although it could go on. *)

From S2P Require Import Prelude.

(** What an operation does to the sleeping callers. [WakeOne] is a [Signal]
    deferred past the unlock, so other steps may come in between. *)
Inductive wakeup := WakeNone | WakeAll | WakeOne.

(** A guarded object: [attempt] is the body of the blocking call, once ([None]:
    the condition is false and the caller waits); [perform] are the other
    operations. *)
Class Monitor (St Req Res Op : Type) := {
  attempt : Req → St → option (Res * St);
  perform : Op → St → St * wakeup
}.

Section monitor.
Context {St Req Res Op : Type} `{!Monitor St Req Res Op}.

(** The object, its callers asleep in [cond.Wait()], those woken and queued on
    the mutex, signals not yet sent, and the calls that returned. *)
Record mon := mkMon {
  m_st : St;
  m_waiting : list Req;
  m_ready : list Req;
  m_pending : nat;
  m_done : list (Req * Res) }.

Definition mon_init (st : St) : mon := mkMon st [] [] 0 [].

Inductive label :=
| LCall (r : Req)     (** a goroutine makes the blocking call *)
| LWake (i : nat)     (** the [i]-th woken goroutine gets the mutex *)
| LOp (o : Op)        (** one of the other operations *)
| LSignal.            (** a deferred [Signal] *)

(** A caller holding the mutex tests the condition. *)
Definition test (r : Req) (m : mon) : mon :=
  match attempt r (m_st m) with
  | Some (res, st) => mkMon st (m_waiting m) (m_ready m) (m_pending m) (m_done m ++ [(r, res)])
  | None => mkMon (m_st m) (m_waiting m ++ [r]) (m_ready m) (m_pending m) (m_done m)
  end.

Definition exec (l : label) (m : mon) : option mon :=
  match l with
  | LCall r => Some (test r m)
  | LWake i =>
      r ← m_ready m !! i;
      Some (test r (mkMon (m_st m) (m_waiting m) (delete i (m_ready m)) (m_pending m) (m_done m)))
  | LOp o =>
      let '(st, w) := perform o (m_st m) in
      Some match w with
      | WakeNone => mkMon st (m_waiting m) (m_ready m) (m_pending m) (m_done m)
      | WakeAll => mkMon st [] (m_ready m ++ m_waiting m) (m_pending m) (m_done m)
      | WakeOne => mkMon st (m_waiting m) (m_ready m) (S (m_pending m)) (m_done m)
      end
  | LSignal =>
      match m_pending m with
      | O => None
      | S k =>
          Some match m_waiting m with
          | [] => mkMon (m_st m) [] (m_ready m) k (m_done m)
          | r :: rs => mkMon (m_st m) rs (m_ready m ++ [r]) k (m_done m)
          end
      end
  end.

(** A schedule; [None] when it names a step that is not enabled. *)
Fixpoint run (ls : list label) (m : mon) : option mon :=
  match ls with
  | [] => Some m
  | l :: ls => m ← exec l m; run ls m
  end.

Definition reachable (st : St) (m : mon) : Prop := ∃ ls, run ls (mon_init st) = Some m.

(** Invariants, over the steps of a schedule whose labels satisfy [P]. *)
Lemma run_invariant (P : label → Prop) (I : mon → Prop) :
  (∀ l m m', P l → I m → exec l m = Some m' → I m') →
  ∀ ls m m', Forall P ls → I m → run ls m = Some m' → I m'.
Proof.
  intros Hstep ls. induction ls as [|l ls IH]; intros m m' Hl Hm Hrun; cbn in Hrun.
  - by simplify_eq.
  - apply Forall_cons in Hl as [Hl Hls]. apply bind_Some in Hrun as (m1 & H1 & Hrun). eauto.
Qed.

Lemma exec_call r m m' : exec (LCall r) m = Some m' → m' = test r m.
Proof. by intros [= <-]. Qed.

Lemma exec_wake i m m' : exec (LWake i) m = Some m' → ∃ r, m_ready m !! i = Some r ∧
  m' = test r (mkMon (m_st m) (m_waiting m) (delete i (m_ready m)) (m_pending m) (m_done m)).
Proof. intros (r & Hr & [= <-])%bind_Some. eauto. Qed.

(** ** Broadcast

    Sleeping is justified when the condition of every sleeper is false. It stays
    so if an operation that does not broadcast cannot make a false condition
    true, and neither can a call that goes through. *)
Class BroadcastSafe (allowed : Op → Prop) : Prop := {
  quiet_perform o st r :
    allowed o → attempt r st = None → (perform o st).2 ≠ WakeAll → attempt r (perform o st).1 = None;
  grant_blocks r st r' res st' :
    attempt r st = None → attempt r' st = Some (res, st') → attempt r st' = None
}.

Definition sleepers_blocked (m : mon) : Prop := Forall (λ r, attempt r (m_st m) = None) (m_waiting m).

Definition op_allowed (allowed : Op → Prop) (l : label) : Prop :=
  match l with LOp o => allowed o | _ => True end.

Lemma test_blocked allowed `{!BroadcastSafe allowed} r m : sleepers_blocked m → sleepers_blocked (test r m).
Proof.
  unfold sleepers_blocked, test. intros H. destruct (attempt r (m_st m)) as [[res st]|] eqn:E; cbn.
  - eapply Forall_impl; [exact H|]. intros r' Hr'. exact (grant_blocks _ _ _ _ _ Hr' E).
  - apply Forall_app; split; [done|by apply Forall_singleton].
Qed.

Lemma broadcast_exec allowed `{!BroadcastSafe allowed} l m m' :
  op_allowed allowed l → sleepers_blocked m → exec l m = Some m' → sleepers_blocked m'.
Proof.
  intros Hl H. destruct l as [r|i|o|].
  - intros ->%exec_call. eauto using test_blocked.
  - intros (r & _ & ->)%exec_wake. eapply test_blocked; eauto.
  - cbn in *. destruct (perform o (m_st m)) as [st w] eqn:E. intros [= <-].
    assert (w ≠ WakeAll → Forall (λ r, attempt r st = None) (m_waiting m)) as Hq.
    { intros Hw. eapply Forall_impl; [exact H|]. intros r Hr.
      pose proof (quiet_perform o (m_st m) r Hl Hr) as Hp. rewrite E in Hp. auto. }
    destruct w; cbn; unfold sleepers_blocked; cbn; [by apply Hq|by apply Forall_nil_2|by apply Hq].
  - cbn. destruct (m_pending m) as [|k]; [done|]. intros [= <-]. unfold sleepers_blocked in *.
    destruct (m_waiting m) as [|r rs] eqn:E; cbn; [done|]. by apply Forall_cons in H as [_ ?].
Qed.

(** ** Signal

    When the condition is the same for all callers and counts permits, waking
    one sleeper per new permit is enough: as long as anyone sleeps there are no
    more permits than goroutines on their way to take them. *)
Class SignalSafe (permits : St → Z) : Prop := {
  permits_attempt r st : attempt r st = None ↔ permits st = 0;
  permits_nonneg st : 0 <= permits st;
  permits_grant r st res st' : attempt r st = Some (res, st') → permits st' = permits st - 1;
  permits_perform o st : permits (perform o st).1 <= permits st + 1 ∧
    (permits st < permits (perform o st).1 → (perform o st).2 ≠ WakeNone)
}.

Definition enough_wakers (permits : St → Z) (m : mon) : Prop :=
  m_waiting m = [] ∨ permits (m_st m) <= zlen (m_ready m) + Z.of_nat (m_pending m).

Lemma test_wakers permits `{!SignalSafe permits} r m :
  m_waiting m = [] ∨ permits (m_st m) <= zlen (m_ready m) + Z.of_nat (m_pending m) + 1 →
  enough_wakers permits (test r m).
Proof.
  intros H. unfold enough_wakers, test in *.
  destruct (attempt r (m_st m)) as [[res st]|] eqn:E; cbn.
  - pose proof (permits_grant _ _ _ _ E). destruct H; [by left|right; lia].
  - apply permits_attempt in E. right. pose proof (zlen_nonneg (m_ready m)). lia.
Qed.

Lemma signal_exec permits `{!SignalSafe permits} l m m' :
  (∀ o, l = LOp o → (perform o (m_st m)).2 ≠ WakeAll) →
  enough_wakers permits m → exec l m = Some m' → enough_wakers permits m'.
Proof.
  intros Hl H. destruct l as [r|i|o|].
  - intros ->%exec_call. apply test_wakers; [done|]. destruct H; [by left|right; lia].
  - intros (r & Hr & ->)%exec_wake. apply test_wakers; [done|]. cbn.
    destruct H as [H|H]; [by left|right]. unfold zlen in *. rewrite length_delete by eauto.
    apply lookup_lt_Some in Hr. lia.
  - specialize (Hl o eq_refl). cbn. pose proof (permits_perform o (m_st m)) as [H1 H2].
    destruct (perform o (m_st m)) as [st w]. cbn in *. intros [= <-]. unfold enough_wakers in *.
    destruct w; cbn; [|done|]; (destruct H as [H|H]; [by left|right; cbn]); [|lia].
    destruct (Z.lt_ge_cases (permits (m_st m)) (permits st)) as [Hlt|]; [by destruct (H2 Hlt)|lia].
  - cbn. destruct (m_pending m) as [|k] eqn:Hk; [done|]. intros [= <-]. unfold enough_wakers in *.
    destruct (m_waiting m) as [|r rs] eqn:E; cbn; [by left|].
    destruct H as [H|H]; [done|right]. rewrite zlen_app. change (zlen [r]) with 1. lia.
Qed.
End monitor.

Arguments mon : clear implicits.
Arguments label : clear implicits.
