(* ===== verification/Effects.v ===== *)
(** * Effects: what each type of frame does to the loader

    The functional behaviour of the frame processors of
    src/loader/reciever/processor.go on whole frames, in sequences, from any
    state the previous frames may have left. With [receive_any_cut] it holds of
    the byte stream however it was cut. *)

From S2P Require Import Prelude FrameHeader Types Store Framer Handlers Processor Receiver.

Section effects.
Context {S D HErr : Type} `{!StreamStore S} `{!HpackDecoder D HErr}.
Implicit Types s : pstate S D.
Abbreviation dispatch := (dispatch (S := S) (D := D) (HErr := HErr)).

(** A frame reaches the processor of its type. *)
Lemma dispatch_kind t k flags id len p i s :
  is_byte t → subprocessors !! Z.to_nat t = Some (Some k) →
  dispatch (header_bytes len t flags id) p i s = kind_Process k (header_bytes len t flags id) p i s.
Proof.
  intros Ht Hk. unfold dispatch, mbind, gm_bind.
  change (Type_ (header_bytes len t flags id)) with (Some (u8 t)).
  rewrite u8_id by done. cbn [gm_index mret gm_ret]. by rewrite Hk.
Qed.

Lemma ReceiveFrames_cons (f : frame) (fs : list frame) s o s' :
  dispatch f.1 f.2 false s = (o, s') →
  ReceiveFrames (HErr := HErr) (f :: fs) s =
    match o with Ret _ => ReceiveFrames fs s' | Fail e => (Fail e, s') | Panic => (Panic, s') | Diverged => (Diverged, s') end.
Proof. intros H. unfold ReceiveFrames. cbn [run_frames]. unfold mbind, gm_bind. by rewrite H. Qed.

Lemma ReceiveFrames_one f s : ReceiveFrames (HErr := HErr) [f] s = dispatch f.1 f.2 false s.
Proof.
  unfold ReceiveFrames. cbn [run_frames]. unfold mbind, gm_bind.
  by destruct (dispatch f.1 f.2 false s) as [[[]|e| |] s'].
Qed.

(** ** Appending to the log *)
Definition log_app (es : list event) (w : World S) : World S := mkWorld (w_store w) (w_log w ++ es).

Lemma log_app_nil w : log_app [] w = w.
Proof. unfold log_app. rewrite app_nil_r. by destruct w. Qed.
Lemma log_app_app es es' w : log_app es' (log_app es w) = log_app (es ++ es') w.
Proof. unfold log_app. cbn. by rewrite app_assoc. Qed.

(** ** WINDOW_UPDATE *)

(** What one frame [(id, payload)] adds, and where. *)
Definition wu_events (get : Z → option stream) (f : Z * bytes) : list event :=
  if decide (f.1 = 0) then [EvFcAdd None (be_val f.2)]
  else from_option (λ st, [EvFcAdd (Some st) (be_val f.2)]) [] (get f.1).

Definition wu_frame_ok (f : Z * bytes) : Prop :=
  is_u32 f.1 ∧ length f.2 = 4%nat ∧ Forall is_byte f.2.

Definition set_wu (p : windowUpdateFrameProcessor) (w : World S) s : pstate S D :=
  mkPState (ps_data s) (ps_headers s) (ps_rst s) (ps_ping s) (ps_goaway s) p w.

(** The handler, whatever header names the stream. *)
Lemma wu_Process_any h id payload r (p : windowUpdateFrameProcessor) (w : World S) :
  StreamID h = Some id → length payload = 4%nat → Forall is_byte payload →
  (id ≠ 0 → store_Get id (w_store w) = Some r) →
  ∃ p', wu_Process (HErr := HErr) h payload false (p, w) =
      (Ret tt, (p', log_app (wu_events (λ _, r) (id, payload)) w)).
Proof.
  intros Hid Hlen Hb Hget. unfold wu_Process, mbind, gm_bind, get_state, put_state, gm_modify.
  cbn [fst snd]. rewrite Hid. cbn [gm_index mret gm_ret]. rewrite be32_four_any by done.
  unfold wu_events. cbn [fst snd]. destruct (decide (id = 0)) as [->|Hne]; cbn [Z.eqb].
  - by exists (mkWU 0).
  - rewrite (proj2 (Z.eqb_neq _ _)) by done. unfold storeGet. cbn [snd].
    rewrite Hget by done. destruct r as [st|]; cbn.
    + by exists (mkWU 0).
    + exists (mkWU (be_val payload)). by rewrite log_app_nil.
Qed.

Lemma wu_Process_run s id payload r :
  wu_frame_ok (id, payload) →
  (id ≠ 0 → store_Get id (w_store (ps_world s)) = Some r) →
  ∃ p,
    dispatch (mk_frame FrameWindowUpdate 0 id payload).1 payload false s
      = (Ret tt, set_wu p (log_app (wu_events (λ _, r) (id, payload)) (ps_world s)) s).
Proof.
  intros (Hid & Hlen & Hb) Hget. cbn [fst snd] in *. unfold mk_frame. cbn [fst].
  rewrite (dispatch_kind _ PWindowUpdate) by (done || reflexivity). cbn [kind_Process]. unfold gm_zoom.
  destruct (wu_Process_any (header_bytes (zlen payload) FrameWindowUpdate 0 id) id payload r (ps_wu s) (ps_world s))
    as (p & Hrun); [|done..|exists p; by rewrite Hrun].
  rewrite StreamID_header_bytes. by rewrite u32_id.
Qed.

(** ** RST_STREAM *)
Definition set_rst (p : rstStreamFrameProcessor) (w : World S) s : pstate S D :=
  mkPState (ps_data s) (ps_headers s) p (ps_ping s) (ps_goaway s) (ps_wu s) w.

Lemma rst_Process_run s id payload r st' :
  is_u32 id → length payload = 4%nat → Forall is_byte payload → is_u32 (rst_errCode (ps_rst s)) →
  store_GetAndDelete id (w_store (ps_world s)) = Some (r, st') →
  dispatch (mk_frame FrameRSTStream 0 id payload).1 payload false s
    = (Ret tt, set_rst (mkRst (be_val payload))
        (mkWorld st' (w_log (ps_world s) ++ EvLimiterRelease ::
           from_option (λ x, [EvStream x (RSTStream (be_val payload)); EvStream x End_]) [] r)) s).
Proof.
  intros Hid Hlen Hb Hcode Hget. unfold mk_frame. cbn [fst].
  rewrite (dispatch_kind _ PRSTStream) by (done || reflexivity).
  cbn [kind_Process]. unfold gm_zoom, rst_Process, mbind, gm_bind, get_state, put_state, emit_, gm_modify.
  cbn [fst snd]. rewrite StreamID_header_bytes, u32_id by done. cbn [gm_index mret gm_ret fst snd w_store w_log].
  rewrite be32_four by done. unfold storeGetAndDelete. cbn [snd w_store]. rewrite Hget.
  destruct r as [x|]; cbn; by rewrite <-?app_assoc.
Qed.

(** ** PING *)
Definition set_ping (p : pingFrameProcessor) (w : World S) s : pstate S D :=
  mkPState (ps_data s) (ps_headers s) (ps_rst s) p (ps_goaway s) (ps_wu s) w.

(** Both buffers start with the header of an acknowledgement. *)
Definition ping_inv (p : pingFrameProcessor) : Prop :=
  currentPingAckFrame p = pingAckHeader ∧ ∃ rest, nextPingAckFrame p = pingAckHeader ++ rest.

Lemma ping_Process_run s flags id payload :
  ping_inv (ps_ping s) →
  ∃ p, ping_inv p ∧
    dispatch (mk_frame FramePing flags id payload).1 payload false s
      = (Ret tt, set_ping p (log_app [EvSend (pingAckHeader ++ payload)] (ps_world s)) s).
Proof.
  intros (Hcur & rest & Hnext). exists (mkPing pingAckHeader (pingAckHeader ++ payload)).
  split; [by split; eauto|]. unfold mk_frame. cbn [fst].
  rewrite (dispatch_kind _ PPing) by (done || reflexivity).
  cbn [kind_Process]. unfold gm_zoom, ping_Process, mbind, gm_bind, get_state, put_state, emit_, gm_modify.
  cbn [fst snd currentPingAckFrame nextPingAckFrame]. rewrite Hcur, Hnext.
  rewrite slice_to_Some by (change (zlen (pingAckHeader ++ rest)) with (zlen (pingAckHeader ++ rest));
    rewrite zlen_app; change (zlen pingAckHeader) with 9; pose proof (zlen_nonneg rest); lia).
  change 9 with (zlen pingAckHeader). rewrite take_zlen_app. done.
Qed.

(** ** DATA *)
Definition set_data (p : dataFrameProcessor) (w : World S) s : pstate S D :=
  mkPState p (ps_headers s) (ps_rst s) (ps_ping s) (ps_goaway s) (ps_wu s) w.

(** A WINDOW_UPDATE frame for the connection. *)
Definition wu_frame (inc : Z) : bytes :=
  header_bytes 4 FrameWindowUpdate 0 0 ++ [u8 (Z.shiftr inc 24); u8 (Z.shiftr inc 16); u8 (Z.shiftr inc 8); u8 inc].

Definition data_inv (p : dataFrameProcessor) : Prop :=
  (length (currentWindowUpdateFrame p) = 13%nat ∧ take 9 (currentWindowUpdateFrame p) = header_bytes 4 FrameWindowUpdate 0 0) ∧
  (length (nextWindowUpdateFrame p) = 13%nat ∧ take 9 (nextWindowUpdateFrame p) = header_bytes 4 FrameWindowUpdate 0 0) ∧
  0 <= windowUpdateAcc p < windowUpdateMinValue.

Lemma put_increment_spec inc f :
  length f = 13%nat → take 9 f = header_bytes 4 FrameWindowUpdate 0 0 → put_increment inc f = Some (wu_frame inc).
Proof.
  intros Hlen Htake. unfold wu_frame. rewrite <-Htake.
  do 13 (destruct f as [|? f]; [discriminate|]). destruct f; [|discriminate]. done.
Qed.

Lemma wu_frame_template inc :
  length (wu_frame inc) = 13%nat ∧ take 9 (wu_frame inc) = header_bytes 4 FrameWindowUpdate 0 0.
Proof. done. Qed.

(** The frames sent and the bytes owed after [len] more bytes. *)
Definition data_credit (acc len : Z) : list Z * Z :=
  if windowUpdateMinValue <=? acc + len then ([acc + len], 0) else ([], acc + len).

Lemma data_credit_bounds acc len :
  0 <= acc < windowUpdateMinValue → 0 <= len < 2 ^ 24 →
  let '(incs, acc') := data_credit acc len in
  acc + len = zsum incs + acc' ∧ 0 <= acc' < windowUpdateMinValue ∧
  Forall (λ i, windowUpdateMinValue <= i < 2 ^ 31) incs.
Proof.
  intros Hacc Hlen. unfold data_credit. change windowUpdateMinValue with 16383 in *.
  destruct (Z.leb_spec 16383 (acc + len)); cbn; split_and!; try lia.
  - apply Forall_singleton. lia.
  - apply Forall_nil_2.
Qed.

(** The stream side of a DATA frame. *)
Definition data_end (flags : Z) (r : option stream) : list event :=
  if flags_has (u8 flags) FlagDataEndStream then
    EvLimiterRelease :: from_option (λ x, [EvStream x End_]) [] r
  else [].

Lemma data_Process_run s flags id payload r st' :
  is_u32 id → zlen payload < 2 ^ 24 → data_inv (ps_data s) →
  (flags_has (u8 flags) FlagDataEndStream = true →
     store_GetAndDelete id (w_store (ps_world s)) = Some (r, st')) →
  (flags_has (u8 flags) FlagDataEndStream = false → st' = w_store (ps_world s)) →
  let c := data_credit (windowUpdateAcc (ps_data s)) (zlen payload) in
  ∃ p, data_inv p ∧ windowUpdateAcc p = c.2 ∧
    dispatch (mk_frame FrameData flags id payload).1 payload false s
      = (Ret tt, set_data p (mkWorld st' (w_log (ps_world s) ++
           ((λ i, EvSend (wu_frame i)) <$> c.1) ++ data_end flags r)) s).
Proof.
  intros Hid Hlen ((Hc1 & Hc2) & (Hn1 & Hn2) & Hacc) Hget Hst. cbn zeta.
  pose proof (zlen_nonneg payload).
  pose proof (data_credit_bounds (windowUpdateAcc (ps_data s)) (zlen payload) Hacc ltac:(lia)) as Hcr.
  unfold mk_frame. cbn [fst]. rewrite (dispatch_kind _ PData) by (done || reflexivity).
  cbn [kind_Process]. unfold gm_zoom, data_Process, mbind, gm_bind, get_state, put_state, emit_, gm_modify.
  cbn [fst snd]. rewrite Length_header_bytes by lia. cbn [gm_index mret gm_ret].
  change (Flags (header_bytes (zlen payload) FrameData flags id)) with (Some (u8 flags)).
  rewrite StreamID_header_bytes, u32_id by done. unfold data_credit, data_end in *.
  unfold storeGetAndDelete.
  destruct (windowUpdateMinValue <=? windowUpdateAcc (ps_data s) + zlen payload);
    destruct Hcr as (_ & Hacc' & _).
  - rewrite put_increment_spec by done.
    exists (mkData (nextWindowUpdateFrame (ps_data s)) (wu_frame (windowUpdateAcc (ps_data s) + zlen payload)) 0).
    split; [split_and!; done|]. split; [done|]. cbn [gm_index mret gm_ret fst snd w_store w_log].
    destruct (flags_has (u8 flags) FlagDataEndStream).
    + cbn [fst snd w_store w_log]. rewrite Hget by done. destruct r; cbn; by rewrite <-?app_assoc.
    + by rewrite Hst.
  - eexists (mkData _ _ _). split; [|split]; cycle 2.
    + cbn [gm_index mret gm_ret fst snd w_store w_log].
      destruct (flags_has (u8 flags) FlagDataEndStream).
      * cbn [fst snd w_store w_log]. rewrite Hget by done. destruct r; cbn; by rewrite <-?app_assoc.
      * rewrite Hst by done. cbn. rewrite app_nil_r. destruct (ps_world s). done.
    + done.
    + done.
Qed.

(** ** HEADERS and CONTINUATION *)
Definition set_headers (p : headersFrameProcessor D) (w : World S) s : pstate S D :=
  mkPState (ps_data s) p (ps_rst s) (ps_ping s) (ps_goaway s) (ps_wu s) w.

Definition field_events (r : option stream) (fs : list (bytes * bytes)) : list event :=
  from_option (λ x, onHeader_events x fs) [] r.

Context `{!HpackLaws D HErr}.

Lemma headers_Process_run s flags id payload r st' t :
  t = FrameHeaders ∨ t = FrameContinuation → is_u32 id →
  store_Get id (w_store (ps_world s)) = Some r →
  (flags_has (u8 flags) FlagHeadersEndStream = true → is_Some r →
     store_Delete id (w_store (ps_world s)) = Some st') →
  let res := hpack_Write (hpackDecoder (ps_headers s)) (bool_decide (is_Some r)) payload in
  let w := log_app (field_events r res.1) (ps_world s) in
  dispatch (mk_frame t flags id payload).1 payload false s =
    match res.2 with
    | inr e => (Fail (ErrHpackDecoding e), set_headers (mkHeaders (hpackDecoder (ps_headers s)) r) w s)
    | inl d =>
        (Ret tt, set_headers (mkHeaders d r)
          match flags_has (u8 flags) FlagHeadersEndStream, r with
          | true, Some x => mkWorld st' (w_log w ++ [EvStream x End_; EvLimiterRelease])
          | _, _ => w
          end s)
    end.
Proof.
  intros Ht Hid Hget Hdel. cbn zeta. unfold mk_frame. cbn [fst].
  rewrite (dispatch_kind _ PHeaders) by (destruct Ht as [->| ->]; (done || reflexivity)).
  cbn [kind_Process]. unfold gm_zoom, headers_Process.
  unfold mbind at 1, gm_bind at 1. rewrite StreamID_header_bytes, u32_id by done.
  cbn [gm_index mret gm_ret]. unfold mbind at 1, gm_bind at 1, storeGet. cbn [snd]. rewrite Hget.
  unfold mbind at 1, gm_bind at 1, get_state. cbn [fst].
  unfold mbind at 1, gm_bind at 1, put_state, gm_modify. cbn [fst snd].
  unfold mbind at 1, gm_bind at 1. rewrite (hpackWrite_run r). cbn zeta.
  destruct (hpack_Write (hpackDecoder (ps_headers s)) (bool_decide (is_Some r)) payload) as [fs [d|e]];
    cbn [fst snd]; [|done].
  change (Flags (header_bytes (zlen payload) t flags id)) with (Some (u8 flags)).
  unfold mbind, gm_bind. cbn [gm_index mret gm_ret].
  destruct (flags_has (u8 flags) FlagHeadersEndStream) eqn:Hf; [|done].
  destruct r as [x|]; [|done]. unfold emit_, gm_modify, storeDelete. cbn [fst snd w_store w_log].
  rewrite Hdel by eauto. cbn. by rewrite <-!app_assoc.
Qed.
End effects.

(** ** GOAWAY *)
Lemma goaway_bytes_fixed p bs : Forall is_byte bs → length bs = 8%nat →
  ga_index p = 0 → is_u32 (ga_lastStreamID p) → is_u32 (ga_errCode p) →
  foldl goaway_byte p bs = mkGoAway (be_val (drop 4 bs)) (be_val (take 4 bs)) (ga_debugData p) 8.
Proof.
  intros Hb Hlen Hi Hl Hc. destruct p as [code last debug i]. cbn in *. subst i.
  do 8 (destruct bs as [|? bs]; [discriminate|]). destruct bs; [|discriminate].
  cbn [foldl goaway_byte ga_index ga_lastStreamID ga_errCode ga_debugData Z.ltb Z.compare Pos.compare Pos.compare_cont Z.add Pos.add Pos.succ].
  cbn [take drop]. do 8 (apply Forall_cons in Hb as [? Hb]).
  rewrite <-(be32_four last [z; z0; z1; z2]), <-(be32_four code [z3; z4; z5; z6]); try done;
    repeat (apply Forall_cons; split; [done|]); apply Forall_nil_2.
Qed.

Lemma goaway_bytes_debug p bs :
  8 <= ga_index p → foldl goaway_byte p bs =
    mkGoAway (ga_errCode p) (ga_lastStreamID p) (ga_debugData p ++ bs) (ga_index p).
Proof.
  revert p. induction bs as [|b bs IH]; intros p Hp; cbn [foldl].
  - rewrite app_nil_r. by destruct p.
  - rewrite IH; unfold goaway_byte;
      rewrite (proj2 (Z.ltb_ge _ 4)), (proj2 (Z.ltb_ge _ 8)) by lia; cbn; [|done].
    by rewrite <-app_assoc.
Qed.

Lemma goaway_payload p last code debug :
  Forall is_byte last → Forall is_byte code → length last = 4%nat → length code = 4%nat →
  p = newGoAwayFrameProcessor →
  foldl goaway_byte p (last ++ code ++ debug) = mkGoAway (be_val code) (be_val last) debug 8.
Proof.
  intros Hl Hc Hll Hlc ->. rewrite (app_assoc last code debug), foldl_app.
  rewrite (goaway_bytes_fixed _ (last ++ code)); [|by apply Forall_app|rewrite length_app; lia|done..].
  rewrite goaway_bytes_debug by done. cbn [ga_errCode ga_lastStreamID ga_debugData ga_index].
  by rewrite <-Hll, drop_app_length, take_app_length.
Qed.

(** ** Handlers that keep an invariant of the world, from every state *)
Create HintDb keeps.

Section keeps.
Context {S HErr : Type} (I : World S → Prop).

Definition keeps {P A} (m : PM S HErr P A) : Prop := ∀ s, I s.2 → I (m s).2.2.

Lemma keeps_bind {P A B} (m : PM S HErr P A) (f : A → PM S HErr P B) :
  keeps m → (∀ a, keeps (f a)) → keeps (m ≫= f).
Proof.
  intros Hm Hf s Hs. specialize (Hm s Hs). unfold mbind, gm_bind.
  destruct (m s) as [[a|e| |] s']; cbn in *; [by apply Hf|done..].
Qed.

Lemma keeps_same {P A} (m : PM S HErr P A) : (∀ s, (m s).2.2 = s.2) → keeps m.
Proof. intros H s Hs. by rewrite H. Qed.

Lemma keeps_index {P A} (o : option A) : keeps (gm_index o : PM S HErr P A).
Proof. apply keeps_same. by destruct o. Qed.
Lemma keeps_get {P} : keeps (get_state : PM S HErr P P).
Proof. by apply keeps_same. Qed.
Lemma keeps_put {P} (p : P) : keeps (put_state p : PM S HErr P unit).
Proof. by apply keeps_same. Qed.
Lemma keeps_ret {P A} (a : A) : keeps (mret a : PM S HErr P A).
Proof. by apply keeps_same. Qed.
Lemma keeps_fail {P A} e : keeps (gm_fail e : PM S HErr P A).
Proof. by apply keeps_same. Qed.
Lemma keeps_panic {P A} : keeps (gm_panic : PM S HErr P A).
Proof. by apply keeps_same. Qed.
Lemma keeps_storeGet `{!StreamStore S} {P} id : keeps (storeGet id : PM S HErr P (option stream)).
Proof. apply keeps_same. intros s. unfold storeGet. by destruct (store_Get _ _). Qed.
Lemma keeps_emit {P} e : (∀ w, I w → I (log_app [e] w)) → keeps (emit_ e : PM S HErr P unit).
Proof. intros He s Hs. by apply (He s.2). Qed.
(** Where only the log matters, the store may change. *)
Lemma keeps_storeGetAndDelete `{!StreamStore S} {P} id : (∀ st w, I w → I (mkWorld st (w_log w))) →
  keeps (storeGetAndDelete id : PM S HErr P (option stream)).
Proof. intros HI s Hs. unfold storeGetAndDelete. destruct (store_GetAndDelete _ _) as [[]|]; [by apply HI|done]. Qed.
Lemma keeps_storeDelete `{!StreamStore S} {P} id : (∀ st w, I w → I (mkWorld st (w_log w))) →
  keeps (storeDelete id : PM S HErr P unit).
Proof. intros HI s Hs. unfold storeDelete. destruct (store_Delete _ _); [by apply HI|done]. Qed.
Lemma keeps_bind_index {P A B} (o : option A) (f : A → PM S HErr P B) :
  (∀ a, o = Some a → keeps (f a)) → keeps (gm_index o ≫= f).
Proof. destruct o; intros H; [by apply H|by apply keeps_same]. Qed.
End keeps.

#[export] Hint Resolve keeps_index keeps_get keeps_put keeps_ret keeps_fail keeps_panic keeps_storeGet keeps_emit : keeps.

Ltac solve_keeps := repeat first
  [ by eauto with keeps | apply keeps_bind_index; intros ? ?
  | lazymatch goal with
    | |- keeps _ (storeGetAndDelete _ ≫= _) => fail
    | |- keeps _ (_ ≫= _) => apply keeps_bind; [|intros ?]
    end
  | case_match ].

(** For a property of the log alone: every call is treated by itself. *)
Ltac solve_keeps_log := repeat first
  [ by eauto with keeps | apply keeps_bind_index; intros ? ? | apply keeps_bind; [|intros ?] | case_match ].

(** The part of a DATA frame that may end a stream. *)
Definition data_finish {S HErr} `{!StreamStore S} (h : bytes) : PM S HErr dataFrameProcessor unit :=
  flags ← gm_index (Flags h);
  if flags_has flags FlagDataEndStream then
    emit_ EvLimiterRelease;;
    id ← gm_index (StreamID h);
    st ← storeGetAndDelete id;
    match st with Some x => emit_ (EvStream x End_) | None => mret tt end
  else mret tt.

(** The frames whose processors look up their stream whatever it is: DATA, HEADERS,
    CONTINUATION and RST_STREAM. *)
Definition speaks_of_stream (h : bytes) : bool :=
  match Type_ h with
  | Some t =>
      match subprocessors !! Z.to_nat t with
      | Some (Some k) => match k with PData | PHeaders | PRSTStream => true | _ => false end
      | _ => false
      end
  | None => false
  end.

(** What every handler keeps, the dispatch of a frame keeps. *)
Lemma keeps_dispatch {S D HErr} `{!StreamStore S} `{!HpackDecoder D HErr} (I : World S → Prop) h p (s : pstate S D) :
  (speaks_of_stream h = true → keeps I (data_Process (HErr := HErr) h p false)) →
  (speaks_of_stream h = true → keeps I (headers_Process (D := D) (HErr := HErr) h p false)) →
  (speaks_of_stream h = true → keeps I (rst_Process (HErr := HErr) h p false)) → keeps I (settings_Process (HErr := HErr) h p false) →
  keeps I (ping_Process (HErr := HErr) h p false) → keeps I (goaway_Process (HErr := HErr) h p false) →
  keeps I (wu_Process (HErr := HErr) h p false) →
  I (ps_world s) → I (ps_world (dispatch (HErr := HErr) h p false s).2).
Proof.
  unfold speaks_of_stream. intros H1 H2 H3 H4 H5 H6 H7 Hs. unfold Processor.dispatch, mbind, gm_bind.
  destruct (Type_ h) as [t|]; [|done]. cbn [gm_index mret gm_ret].
  destruct (subprocessors !! Z.to_nat t) as [[k|]|]; [|done..]. cbn [gm_index mret gm_ret].
  destruct k; try specialize (H1 eq_refl); try specialize (H2 eq_refl); try specialize (H3 eq_refl); cbn [kind_Process]; unfold gm_zoom;
    match goal with |- context [let '(o, b) := ?m ?x in _] =>
      match goal with H : keeps I m |- _ => specialize (H x Hs); destruct (m x) as [? []]; exact H end end.
Qed.

(** ** A stream ends at most once *)
Section ends.
Context {S D HErr : Type} `{!StreamStore S} `{!StreamStoreSpec S} `{!HpackDecoder D HErr}.

(** The streams told that they are over, in order. *)
Definition ended (es : list event) : list stream :=
  omap (λ e, match e with EvStream x End_ => Some x | _ => None end) es.

Lemma ended_app es es' : ended (es ++ es') = ended es ++ ended es'.
Proof. apply omap_app. Qed.

Lemma ended_fields x fs : ended (onHeader_events x fs) = [].
Proof. by induction fs. Qed.

(** The streams stored and those told that they are over, to begin with. *)
Variables (m0 : gmap Z stream) (e0 : list stream).

(** No stream was ended twice, none that was ended is still stored, and only
    streams that were stored have been. *)
Record ends_ok (w : World S) : Prop := {
  ends_store : store_ok (w_store w);
  ends_nodup : NoDup (ended (w_log w));
  ends_gone : ∀ id x, store_abs (w_store w) !! id = Some x → x ∉ ended (w_log w);
  ends_inj : ∀ i j x, store_abs (w_store w) !! i = Some x → store_abs (w_store w) !! j = Some x → i = j;
  ends_within : store_abs (w_store w) ⊆ m0;
  ends_from : ∀ x, x ∈ ended (w_log w) → x ∈ e0 ∨ ∃ id, m0 !! id = Some x
}.

Lemma ends_ok_log w es : ended es = [] → ends_ok w → ends_ok (log_app es w).
Proof.
  intros He [H1 H2 H3 H4 H5 H6]. split; cbn [log_app w_store w_log]; try done;
    rewrite ended_app, He, app_nil_r; done.
Qed.

(** Removing a stream, with the events that follow. *)
Lemma ends_ok_delete (w : World S) id st' es r :
  ends_ok w → store_ok st' → store_abs st' = delete id (store_abs (w_store w)) →
  store_abs (w_store w) !! id = r →
  ended es = [] ∨ ended es = from_option (λ x, [x]) [] r →
  ends_ok (mkWorld st' (w_log w ++ es)).
Proof.
  intros [H1 H2 H3 H4 H5 H6] Hst' Habs Hr Hes.
  assert (Hd : ∀ j x, store_abs st' !! j = Some x → store_abs (w_store w) !! j = Some x ∧ j ≠ id)
    by (intros j x; rewrite Habs, lookup_delete_Some; naive_solver).
  assert (store_abs st' ⊆ m0) as Hw by (rewrite Habs; etrans; [apply delete_subseteq|done]).
  destruct Hes as [He|He]; [|destruct r as [x|]]; cbn [from_option] in He;
    (split; cbn [w_store w_log]; [done|rewrite ended_app, He, ?app_nil_r..|naive_solver|done|rewrite ended_app, He, ?app_nil_r]);
    try done; try naive_solver.
  - apply NoDup_app. split_and!; [done| |apply NoDup_singleton].
    intros y Hy ->%list_elem_of_singleton. by eapply H3.
  - intros j y Hj%Hd. rewrite elem_of_app, list_elem_of_singleton.
    intros [Hy| ->]; [naive_solver|]. destruct Hj as [Hj Hne]. by apply Hne, (H4 _ _ x).
  - intros y. rewrite elem_of_app, list_elem_of_singleton. intros [Hy| ->]; [by apply H6|].
    right. exists id. by eapply lookup_weaken.
Qed.

(** A store without an object twice, before any call. *)
Lemma ends_fresh (w : World S) : e0 = [] → m0 = store_abs (w_store w) → w_log w = [] → store_ok (w_store w) →
  (∀ i j x, store_abs (w_store w) !! i = Some x → store_abs (w_store w) !! j = Some x → i = j) → ends_ok w.
Proof.
  intros He Hm Hl Hok Hinj. split; rewrite ?Hl, ?Hm; try done; [constructor|by intros; apply not_elem_of_nil|].
  intros x Hx. by apply elem_of_nil in Hx.
Qed.

(** The frame names a stream the store knows how to look up, if it is one of those
    that speak of a stream. *)
Definition names_key (f : frame) : Prop :=
  speaks_of_stream f.1 = true → ∀ id, StreamID f.1 = Some id → store_key (S := S) id.

Lemma ends_ok_eq (w w' : World S) :
  ends_ok w → w_store w' = w_store w → ended (w_log w') = ended (w_log w) → ends_ok w'.
Proof. intros [H1 H2 H3 H4 H5 H6] Hs Hl. split; rewrite ?Hs, ?Hl; eauto. Qed.

Lemma ends_ok_emit (e : event) : ended [e] = [] → ∀ w : World S, ends_ok w → ends_ok (log_app [e] w).
Proof. intros He w. by apply ends_ok_log. Qed.
Hint Resolve ends_ok_emit : keeps.

Lemma keeps_ping h p i : keeps ends_ok (ping_Process (S := S) (HErr := HErr) h p i).
Proof. unfold ping_Process. solve_keeps. Qed.
Lemma keeps_wu h p i : keeps ends_ok (wu_Process (S := S) (HErr := HErr) h p i).
Proof. unfold wu_Process. solve_keeps. Qed.
Lemma keeps_goaway h p i : keeps ends_ok (goaway_Process (S := S) (HErr := HErr) h p i).
Proof. unfold goaway_Process. solve_keeps. Qed.
Lemma keeps_settings h p i : keeps ends_ok (settings_Process (S := S) (HErr := HErr) h p i).
Proof. unfold settings_Process. solve_keeps. Qed.
Lemma keeps_onHeaders fs : keeps ends_ok (onHeaders (S := S) (D := D) (HErr := HErr) fs).
Proof. induction fs; cbn; solve_keeps. Qed.
Lemma keeps_hpackWrite p e : keeps ends_ok (hpackWrite (S := S) (D := D) (HErr := HErr) p e).
Proof. pose proof keeps_onHeaders. unfold hpackWrite. solve_keeps. Qed.

(** Taking a stream out of the store and ending it. *)
Lemma keeps_getAndDelete {P} id (k : stream → PM S HErr P unit) (es : stream → list event) :
  store_key (S := S) id → (∀ x, ended (es x) = [x]) →
  (∀ x s, (k x s).2.2 = log_app (es x) s.2) →
  keeps ends_ok (st ← storeGetAndDelete id; match st with Some x => k x | None => mret tt end).
Proof.
  intros Hk Hes Hrun [p w] Hw. unfold mbind, gm_bind, storeGetAndDelete. cbn [snd].
  destruct (store_GetAndDelete_spec (w_store w) id (ends_store w Hw) Hk) as (s' & -> & Hok & Habs).
  destruct (store_abs (w_store w) !! id) as [x|] eqn:Hx; cbn [fst snd mret gm_ret].
  - rewrite Hrun. apply (ends_ok_delete w id s' (es x) (Some x)); auto.
  - rewrite <-(app_nil_r (w_log w)). apply (ends_ok_delete w id s' [] None); auto.
Qed.

Lemma keeps_data h p i : (∀ id, StreamID h = Some id → store_key (S := S) id) →
  keeps ends_ok (data_Process (S := S) (HErr := HErr) h p i).
Proof.
  intros Hk. unfold data_Process. solve_keeps.
  apply (keeps_getAndDelete _ _ (λ x, [EvStream x End_])); auto.
Qed.

Lemma keeps_rst h p i : (∀ id, StreamID h = Some id → store_key (S := S) id) →
  keeps ends_ok (rst_Process (S := S) (HErr := HErr) h p i).
Proof.
  intros Hk. unfold rst_Process. solve_keeps.
  apply (keeps_getAndDelete _ _ (λ x, [EvStream x (RSTStream (be32 (rst_errCode a) p)); EvStream x End_])); [by eauto|done|].
  intros x s. unfold log_app, mbind, gm_bind, emit_, gm_modify. cbn. by rewrite <-app_assoc.
Qed.

(** The header block itself ends nothing and leaves the store alone. *)
Lemma hpackWrite_quiet p e s :
  w_store (hpackWrite (S := S) (D := D) (HErr := HErr) p e s).2.2 = w_store s.2 ∧
  ended (w_log (hpackWrite (S := S) (D := D) (HErr := HErr) p e s).2.2) = ended (w_log s.2).
Proof.
  unfold hpackWrite. unfold mbind at 1 3, gm_bind at 1 3, get_state. cbn [fst snd].
  destruct (hpack_Write _ _ _) as [fs d]. cbn [fst snd]. 
  assert (∀ s', w_store (onHeaders (S := S) (D := D) (HErr := HErr) fs s').2.2 = w_store s'.2 ∧
     ended (w_log (onHeaders (S := S) (D := D) (HErr := HErr) fs s').2.2) = ended (w_log s'.2)) as H.
  { clear. induction fs as [|f fs IH]; intros [[d0 [x|]] w]; try done.
    cbn [onHeaders]. unfold mbind, gm_bind, get_state, emit_, gm_modify. cbn [fst snd currentStream].
    destruct (IH (mkHeaders d0 (Some x), mkWorld (w_store w) (w_log w ++ [EvStream x (OnHeader f.1 f.2)]))) as [-> ->].
    cbn [snd w_store w_log]. by rewrite ended_app, app_nil_r. }
  unfold mbind, gm_bind. specialize (H s). destruct (onHeaders fs s) as [[a|?| |] s']; try done.
  by destruct d.
Qed.

Lemma keeps_headers h p i : (∀ id, StreamID h = Some id → store_key (S := S) id) →
  keeps ends_ok (headers_Process (S := S) (D := D) (HErr := HErr) h p i).
Proof.
  intros Hk [st w] Hw. unfold headers_Process, mbind, gm_bind.
  destruct (StreamID h) as [id|] eqn:Hid; [|done]. cbn [gm_index mret gm_ret].
  unfold storeGet. cbn [snd]. rewrite (store_Get_spec _ _ (ends_store w Hw)) by auto.
  unfold get_state, put_state, gm_modify. cbn [fst snd].
  set (r := store_abs (w_store w) !! id).
  pose proof (hpackWrite_quiet p (bool_decide (is_Some r)) (mkHeaders (hpackDecoder st) r, w)) as [H1 H2].
  destruct (hpackWrite p _ _) as [o [st' w']]. cbn [fst snd] in *.
  assert (Hw' : ends_ok w') by (by apply (ends_ok_eq w)).
  destruct o as [[]|?| |], i; try done. destruct (Flags h) as [fl|]; [|done]. cbn [gm_index mret gm_ret].
  destruct (flags_has fl FlagHeadersEndStream), r as [x|] eqn:Hr; try done.
  unfold emit_, gm_modify, storeDelete. cbn [fst snd w_store w_log].
  destruct (store_Delete_spec (w_store w') id (ends_store w' Hw')) as (s' & -> & Hok & Habs); [by auto|].
  cbn [fst snd w_store w_log]. rewrite <-app_assoc.
  apply (ends_ok_delete w' id s' _ (Some x)); [done..| |by right].
  by rewrite H1.
Qed.

Lemma ends_dispatch f (s : pstate S D) : names_key f → ends_ok (ps_world s) →
  ends_ok (ps_world (Processor.dispatch (HErr := HErr) f.1 f.2 false s).2).
Proof.
  unfold names_key. intros Hf Hs.
  apply keeps_dispatch; auto using keeps_data, keeps_rst, keeps_headers, keeps_ping, keeps_wu, keeps_goaway, keeps_settings.
Qed.

Lemma keeps_frames fs : Forall names_key fs → ∀ s : pstate S D,
  ends_ok (ps_world s) → ends_ok (ps_world (ReceiveFrames (HErr := HErr) fs s).2).
Proof.
  induction 1 as [|[h p] fs Hf _ IH]; intros s Hs; [done|].
  pose proof (ends_dispatch (h, p) s Hf Hs) as Hd. cbn [fst snd] in Hd.
  destruct (dispatch (HErr := HErr) h p false s) as [o s'] eqn:E.
  rewrite (ReceiveFrames_cons (h, p) fs s o s' E). by destruct o; auto.
Qed.
End ends.

(** ** What a frame adds to the windows *)
Definition fc_adds (es : list event) : list (option stream * Z) :=
  omap (λ e, match e with EvFcAdd fc n => Some (fc, n) | _ => None end) es.

Lemma fc_adds_app es es' : fc_adds (es ++ es') = fc_adds es ++ fc_adds es'.
Proof. apply omap_app. Qed.

(** What is to be added for a frame, when [m] is stored. *)
Definition wu_adds (m : gmap Z stream) (f : frame) : list (option stream * Z) :=
  match Type_ f.1, StreamID f.1 with
  | Some t, Some id => if t =? FrameWindowUpdate then fc_adds (wu_events (m !!.) (id, f.2)) else []
  | _, _ => []
  end.

Section adds.
Context {S D HErr : Type} `{!StreamStore S} `{!StreamStoreSpec S} `{!HpackDecoder D HErr}.

(** A WINDOW_UPDATE has four bytes, and names the connection or a stream the store
    knows how to look up. *)
Definition wu_sized (f : frame) : Prop :=
  Type_ f.1 = Some FrameWindowUpdate → length f.2 = 4%nat ∧ Forall is_byte f.2 ∧
    ∀ id, StreamID f.1 = Some id → id ≠ 0 → store_key (S := S) id.

Variable A : list (option stream * Z).
Definition adds_are (w : World S) : Prop := fc_adds (w_log w) = A.

Lemma adds_quiet e : fc_adds [e] = [] → ∀ w, adds_are w → adds_are (log_app [e] w).
Proof. intros He w Hw. unfold adds_are. cbn [log_app w_log]. by rewrite fc_adds_app, He, app_nil_r. Qed.
Lemma adds_storeGetAndDelete {P} id : keeps adds_are (storeGetAndDelete (HErr := HErr) id : PM S HErr P (option stream)).
Proof. by apply keeps_storeGetAndDelete. Qed.
Lemma adds_storeDelete {P} id : keeps adds_are (storeDelete (HErr := HErr) id : PM S HErr P unit).
Proof. by apply keeps_storeDelete. Qed.
Hint Resolve adds_quiet adds_storeGetAndDelete adds_storeDelete : keeps.

Lemma adds_onHeaders fs : keeps adds_are (onHeaders (S := S) (D := D) (HErr := HErr) fs).
Proof. induction fs; cbn; solve_keeps_log. Qed.
Lemma adds_hpackWrite p e : keeps adds_are (hpackWrite (S := S) (D := D) (HErr := HErr) p e).
Proof. pose proof adds_onHeaders. unfold hpackWrite. solve_keeps_log. Qed.

(** The handlers of the other types of frames. *)
Lemma adds_handler k h p (s : pstate S D) : k ≠ PWindowUpdate → adds_are (ps_world s) →
  adds_are (ps_world (kind_Process (HErr := HErr) k h p false s).2).
Proof.
  intros Hk Hs. pose proof adds_hpackWrite.
  assert (∀ P (hm : PM S HErr P unit) (x : P), keeps adds_are hm → adds_are (hm (x, ps_world s)).2.2) as Hrun
    by (intros P hm x Hm; by apply Hm).
  destruct k; try done; cbn [kind_Process]; unfold gm_zoom;
    match goal with |- context [let '(o, b) := ?hm (?x, ?w) in _] =>
      enough (keeps adds_are hm) as Hm by (specialize (Hrun _ hm x Hm); destruct (hm (x, w)) as [? []]; exact Hrun) end.
  - unfold data_Process. solve_keeps_log.
  - unfold headers_Process. solve_keeps_log.
  - unfold rst_Process. solve_keeps_log.
  - unfold settings_Process. solve_keeps_log.
  - unfold ping_Process. solve_keeps_log.
  - unfold goaway_Process. solve_keeps_log.
Qed.
End adds.

Lemma kind_wu t : 0 <= t → subprocessors !! Z.to_nat t = Some (Some PWindowUpdate) → t = FrameWindowUpdate.
Proof.
  change FrameWindowUpdate with 8. intros Ht H. enough (Z.to_nat t = 8%nat) by lia.
  revert H. generalize (Z.to_nat t). by do 10 (intros [|n]; [done|revert n]).
Qed.

(** Exactly that is added. *)
Lemma adds_dispatch {S D HErr} `{!StreamStore S} `{!StreamStoreSpec S} `{!HpackDecoder D HErr} f (s : pstate S D) :
  frame_wf f → wu_sized (S := S) f → store_ok (w_store (ps_world s)) →
  fc_adds (w_log (ps_world (dispatch (HErr := HErr) f.1 f.2 false s).2)) =
    fc_adds (w_log (ps_world s)) ++ wu_adds (store_abs (w_store (ps_world s))) f.
Proof.
  intros (Hlen & Hbytes & _) Hwu Hok. destruct f as [h p]. cbn [fst snd] in *.
  destruct (header_nine h Hlen) as (_ & t & _ & id & _ & Ht & _ & Hid).
  assert (0 <= t) as Ht0 by (unfold Type_ in Ht; by destruct (proj1 (Forall_lookup _ _) Hbytes _ _ Ht)).
  unfold wu_adds, wu_sized in *. cbn [fst snd] in *. rewrite Ht, Hid in *.
  unfold dispatch, mbind, gm_bind. rewrite Ht. cbn [gm_index mret gm_ret].
  destruct (Z.eqb_spec t FrameWindowUpdate) as [->|Hne].
  - destruct (Hwu eq_refl) as (H4 & Hb & Hkey). change (subprocessors !! _) with (Some (Some PWindowUpdate)).
    cbn [gm_index mret gm_ret kind_Process]. unfold gm_zoom.
    destruct (wu_Process_any (HErr := HErr) h id p (store_abs (w_store (ps_world s)) !! id) (ps_wu s) (ps_world s))
      as (p' & ->); [done..| |].
    { intros Hne. apply store_Get_spec; [done|]. by apply Hkey. }
    cbn [fst snd log_app ps_world w_log]. by rewrite fc_adds_app.
  - rewrite app_nil_r. destruct (subprocessors !! Z.to_nat t) as [[k|]|] eqn:Hk; [|done..].
    cbn [gm_index mret gm_ret]. apply (adds_handler (HErr := HErr)); [|done]. intros ->. by apply Hne, kind_wu.
Qed.

(** The frame a server sends to say GOAWAY. *)
Definition goaway_frame (last code debug : bytes) : frame := mk_frame FrameGoAway 0 0 (last ++ code ++ debug).

(** ** The properties *)

(** A GOAWAY frame, cut anywhere by the network, ends the connection with the
    last stream id, the error code and the debug data it carries, and touches
    no shared object. *)
Theorem goaway_reported {S D HErr} `{!StreamStore S} `{!HpackDecoder D HErr} `{!HpackLaws D HErr}
    (s : pstate S D) (last code debug : bytes) (chunks : list bytes) :
  ps_goaway s = newGoAwayFrameProcessor →
  Forall is_byte last → Forall is_byte code → length last = 4%nat → length code = 4%nat →
  zlen debug < 2 ^ 20 →
  concat chunks = encode_frames [goaway_frame last code debug] →
  (Receive (HErr := HErr) chunks s).1 = Fail (GoAwayError (be_val code) (be_val last) debug) ∧
  ps_world (Receive (HErr := HErr) chunks s).2 = ps_world s.
Proof.
  unfold goaway_frame. intros Hga Hl Hc Hll Hlc Hd Hcat.
  destruct (receive_cut (HErr := HErr) [mk_frame FrameGoAway 0 0 (last ++ code ++ debug)] chunks s) as (-> & -> & _).
  { apply Forall_singleton, mk_frame_wf. rewrite !zlen_app. unfold zlen in *. lia. }
  { done. }
  rewrite ReceiveFrames_one. unfold mk_frame. cbn [fst snd].
  rewrite (dispatch_kind _ PGoAway) by (done || reflexivity).
  cbn [kind_Process]. unfold gm_zoom. rewrite goaway_Process_run, Hga.
  by rewrite goaway_payload.
Qed.

Theorem goaway_reported_witness :
  (Receive (HErr := unit) [[0; 0; 11; 7; 0; 0; 0]; [0; 0; 0; 0; 1]; [2; 0; 0; 0]; [11; 98]; [121; 101]] example_state).1
    = Fail (GoAwayError 11 258 [98; 121; 101]).
Proof.
  apply (goaway_reported example_state [0; 0; 1; 2] [0; 0; 0; 11] [98; 121; 101]); try reflexivity;
    repeat (apply Forall_cons; split; [unfold is_byte; lia|]); apply Forall_nil_2.
Defined.

(** Every WINDOW_UPDATE frame adds exactly its 32-bit increment: to the
    connection for stream 0, to the stream if it is still in flight, and to
    nothing otherwise. Whatever the previous frames left in the accumulator
    (an update for an unknown stream is not cleared from it) never shows. *)
Theorem window_updates_exact {S D HErr} `{!StreamStore S} `{!StreamStoreSpec S} `{!HpackDecoder D HErr}
    (fs : list (Z * bytes)) (s : pstate S D) :
  store_ok (w_store (ps_world s)) → Forall wu_frame_ok fs → Forall (λ f, f.1 = 0 ∨ store_key (S := S) f.1) fs →
  ∃ p, ReceiveFrames (HErr := HErr) ((λ f, mk_frame FrameWindowUpdate 0 f.1 f.2) <$> fs) s =
    (Ret tt, set_wu p (log_app (concat (wu_events (λ id, store_abs (w_store (ps_world s)) !! id) <$> fs))
                       (ps_world s)) s).
Proof.
  intros Hok Hfs Hkeys. revert s Hok.
  induction fs as [|[id payload] fs IH]; intros s Hok.
  - exists (ps_wu s). cbn. rewrite log_app_nil. by destruct s.
  - apply Forall_cons in Hfs as [Hf Hfs], Hkeys as [Hk Hkeys].
    destruct (wu_Process_run (HErr := HErr) s id payload (store_abs (w_store (ps_world s)) !! id) Hf)
      as (p & Hrun).
    { intros Hne. destruct Hk as [|Hk]; [done|]. by apply store_Get_spec. }
    cbn [fmap list_fmap]. rewrite (ReceiveFrames_cons _ _ _ _ _ Hrun).
    destruct (IH Hfs Hkeys (set_wu p (log_app (wu_events (λ _, store_abs (w_store (ps_world s)) !! id) (id, payload)) (ps_world s)) s))
      as (q & Hq); [done|].
    exists q. rewrite Hq. cbn [concat ps_world set_wu log_app w_store]. rewrite <-log_app_app. done.
Qed.

Theorem window_updates_exact_witness :
  ∃ p, ReceiveFrames (HErr := unit)
      [mk_frame FrameWindowUpdate 0 0 [0; 0; 1; 0]; mk_frame FrameWindowUpdate 0 5 [255; 0; 0; 9];
       mk_frame FrameWindowUpdate 0 3 [0; 1; 0; 2]] example_state
    = (Ret tt, set_wu p (log_app [EvFcAdd None 256; EvFcAdd (Some 0%nat) 65538] (ps_world example_state)) example_state).
Proof.
  destruct (window_updates_exact (HErr := unit) [(0, [0; 0; 1; 0]); (5, [255; 0; 0; 9]); (3, [0; 1; 0; 2])] example_state) as [p Hp].
  - exact I.
  - repeat (apply Forall_cons; split; [split; [split; [vm_compute; discriminate|reflexivity]|split; [reflexivity|]];
      repeat (apply Forall_cons; split; [unfold is_byte; cbn; lia|]); apply Forall_nil_2|]). apply Forall_nil_2.
  - repeat (apply Forall_cons; split; [by (left + right)|]). apply Forall_nil_2.
  - exists p. exact Hp.
Defined.

(** Every PING is acknowledged, in order, with its own payload. *)
Theorem pings_acknowledged {S D HErr} `{!StreamStore S} `{!HpackDecoder D HErr}
    (payloads : list bytes) (s : pstate S D) :
  ping_inv (ps_ping s) →
  ∃ p, ping_inv p ∧
    ReceiveFrames (HErr := HErr) (mk_frame FramePing 0 0 <$> payloads) s =
      (Ret tt, set_ping p (log_app ((λ b, EvSend (pingAckHeader ++ b)) <$> payloads) (ps_world s)) s).
Proof.
  revert s. induction payloads as [|b bs IH]; intros s Hs.
  - exists (ps_ping s). cbn. rewrite log_app_nil. by destruct s.
  - destruct (ping_Process_run (HErr := HErr) s 0 0 b Hs) as (p & Hp & Hrun).
    cbn [fmap list_fmap]. rewrite (ReceiveFrames_cons _ _ _ _ _ Hrun).
    destruct (IH (set_ping p (log_app [EvSend (pingAckHeader ++ b)] (ps_world s)) s) Hp) as (q & Hq & ->).
    exists q. split; [done|]. cbn [ps_world set_ping]. by rewrite log_app_app.
Qed.

Theorem pings_acknowledged_witness :
  ∃ p, ping_inv p ∧ ReceiveFrames (HErr := unit)
      [mk_frame FramePing 0 0 [1; 2; 3; 4; 5; 6; 7; 8]; mk_frame FramePing 0 0 [8; 7; 6; 5; 4; 3; 2; 1]] example_state
    = (Ret tt, set_ping p (log_app [EvSend [0; 0; 8; 6; 1; 0; 0; 0; 0; 1; 2; 3; 4; 5; 6; 7; 8];
         EvSend [0; 0; 8; 6; 1; 0; 0; 0; 0; 8; 7; 6; 5; 4; 3; 2; 1]] (ps_world example_state)) example_state).
Proof.
  apply (pings_acknowledged [[1; 2; 3; 4; 5; 6; 7; 8]; [8; 7; 6; 5; 4; 3; 2; 1]] example_state).
  split; [reflexivity|]. exists []. reflexivity.
Defined.



(** C11: However the frames come, interleaved, repeated or for streams already gone,
    a stream is told that it is over at most once, and a stream that was told
    so is no longer in the store: its request object can be reused. Nobody is
    told so who was not in the store. *)
Theorem streams_end_once {S D HErr} `{!StreamStore S} `{!StreamStoreSpec S}
    `{!HpackDecoder D HErr} `{!HpackLaws D HErr} (fs : list frame) (chunks : list bytes) (s : pstate S D) :
  let m := store_abs (w_store (ps_world s)) in
  let told := ended (w_log (ps_world s)) in
  ends_ok m told (ps_world s) → Forall names_key fs → Forall frame_wf fs → concat chunks = encode_frames fs →
  let w := ps_world (Receive (HErr := HErr) chunks s).2 in
  NoDup (ended (w_log w)) ∧ (∀ id x, store_abs (w_store w) !! id = Some x → x ∉ ended (w_log w)) ∧
  ∀ x, x ∈ ended (w_log w) → x ∈ told ∨ ∃ id, m !! id = Some x.
Proof.
  cbn zeta. intros Hs Hk Hwf Hcat. destruct (receive_cut (HErr := HErr) fs chunks s Hwf Hcat) as (_ & -> & _).
  by destruct (keeps_frames (HErr := HErr) _ _ fs Hk s Hs).
Qed.

Theorem streams_end_once_witness :
  let w := ps_world (Receive (HErr := unit) example_chunks example_state).2 in
  ended (w_log w) = [0%nat] ∧ NoDup (ended (w_log w)) ∧ (∀ id x, store_abs (w_store w) !! id = Some x → x ∉ ended (w_log w)) ∧
  ∀ x, x ∈ ended (w_log w) → x ∈ ended (w_log (ps_world example_state)) ∨ ∃ id, store_abs (w_store (ps_world example_state)) !! id = Some x.
Proof.
  split; [vm_compute; reflexivity|].
  apply (streams_end_once example_frames example_chunks example_state).
  - split; [exact I|constructor|intros; apply not_elem_of_nil| |done|intros x Hx; by apply elem_of_nil in Hx].
    intros i j x Hi Hj. change (({[3 := 0%nat]} : gmap Z nat) !! i = Some x) in Hi.
    change (({[3 := 0%nat]} : gmap Z nat) !! j = Some x) in Hj.
    apply lookup_singleton_Some in Hi as [<- _], Hj as [<- _]. reflexivity.
  - repeat (apply Forall_cons; split; [intros _ ? ?; exact I|]). apply Forall_nil_2.
  - repeat (apply Forall_cons; split; [apply mk_frame_wf; reflexivity|]). apply Forall_nil_2.
  - reflexivity.
Defined.

(** The limiter is given back one permit for a stream that ends with HEADERS and
    a second one if the server then resets that stream: an RST_STREAM releases
    before it looks whether the stream is still known. *)
Theorem rst_releases_twice {S D HErr} `{!StreamStore S} `{!StreamStoreSpec S}
    `{!HpackDecoder D HErr} `{!HpackLaws D HErr} (s : pstate S D) id x block code d :
  is_u32 id → store_ok (w_store (ps_world s)) → store_key (S := S) id →
  store_abs (w_store (ps_world s)) !! id = Some x →
  (hpack_Write (HErr := HErr) (hpackDecoder (ps_headers s)) true block).2 = inl d →
  length code = 4%nat → Forall is_byte code → is_u32 (rst_errCode (ps_rst s)) →
  let r := ReceiveFrames (HErr := HErr)
    [mk_frame FrameHeaders FlagHeadersEndStream id block; mk_frame FrameRSTStream 0 id code] s in
  r.1 = Ret tt ∧
  w_log (ps_world r.2) = w_log (ps_world s) ++
    onHeader_events x (hpack_Write (HErr := HErr) (hpackDecoder (ps_headers s)) true block).1 ++
    [EvStream x End_; EvLimiterRelease; EvLimiterRelease].
Proof.
  intros Hid Hok Hk Hx Hd Hlen Hcode Herr. cbn zeta.
  destruct (store_Delete_spec (w_store (ps_world s)) id Hok Hk) as (st' & Hdel & Hok' & Habs').
  destruct (store_GetAndDelete_spec st' id Hok' Hk) as (st'' & Hget & _ & _).
  rewrite Habs', lookup_delete_eq in Hget.
  pose proof (headers_Process_run (HErr := HErr) s FlagHeadersEndStream id block (Some x) st' FrameHeaders
    (or_introl eq_refl) Hid) as Hrun.
  rewrite (store_Get_spec _ _ Hok Hk), Hx in Hrun. specialize (Hrun eq_refl (λ _ _, Hdel)). cbn zeta in Hrun.
  change (bool_decide (is_Some (Some x))) with true in Hrun. rewrite Hd in Hrun.
  change (flags_has (u8 FlagHeadersEndStream) FlagHeadersEndStream) with true in Hrun. cbn iota in Hrun.
  rewrite (ReceiveFrames_cons _ _ _ _ _ Hrun), ReceiveFrames_one.
  change ((mk_frame FrameRSTStream 0 id code).2) with code.
  rewrite (rst_Process_run (HErr := HErr) _ id code None st''); [|done..].
  cbn. split; [done|]. by rewrite <-!app_assoc.
Qed.

Theorem rst_releases_twice_witness :
  let r := ReceiveFrames (HErr := unit)
    [mk_frame FrameHeaders FlagHeadersEndStream 3 [65]; mk_frame FrameRSTStream 0 3 [0; 0; 0; 8]] example_state in
  r.1 = Ret tt ∧ w_log (ps_world r.2) =
    [EvStream 0%nat (OnHeader [65] []); EvStream 0%nat End_; EvLimiterRelease; EvLimiterRelease].
Proof.
  refine (rst_releases_twice (HErr := unit) example_state 3 0%nat [65] [0; 0; 0; 8] tt _ _ _ _ _ _ _ _);
    try reflexivity; try exact I; [split; [vm_compute; discriminate|reflexivity]| |split; [vm_compute; discriminate|reflexivity]].
  repeat (apply Forall_cons; split; [unfold is_byte; lia|]). apply Forall_nil_2.
Defined.

(** Frames the client does not handle: PRIORITY and PUSH_PROMISE end the
    connection with an error, a type past CONTINUATION is an index out of
    range and takes the process down. *)
Theorem unsupported_frames {S D HErr} `{!StreamStore S} `{!HpackDecoder D HErr} (s : pstate S D) t flags id payload :
  is_byte t →
  (t = FramePriority ∨ t = FramePushPromise →
    ReceiveFrames (HErr := HErr) [mk_frame t flags id payload] s = (Fail (ErrFrameTypeNotSupported t), s)) ∧
  (FrameContinuation < t → ReceiveFrames (HErr := HErr) [mk_frame t flags id payload] s = (Panic, s)).
Proof.
  intros Ht. rewrite ReceiveFrames_one. unfold mk_frame. cbn [fst snd].
  unfold Processor.dispatch, mbind, gm_bind.
  change (Type_ (header_bytes (zlen payload) t flags id)) with (Some (u8 t)).
  rewrite u8_id by done. cbn [gm_index mret gm_ret]. split.
  - by intros [-> | ->].
  - intros Hgt. change FrameContinuation with 9 in Hgt. rewrite lookup_ge_None_2; [done|]. cbn. lia.
Qed.

Theorem unsupported_frames_witness :
  ReceiveFrames (HErr := unit) [mk_frame 5 0 3 []] example_state = (Fail (ErrFrameTypeNotSupported 5), example_state) ∧
  ReceiveFrames (HErr := unit) [mk_frame 10 0 3 []] example_state = (Panic, example_state).
Proof.
  split.
  - apply (unsupported_frames example_state 5 0 3 []); [split; [vm_compute; discriminate|reflexivity]|]. right. reflexivity.
  - apply (unsupported_frames example_state 10 0 3 []); [split; [vm_compute; discriminate|reflexivity]|reflexivity].
Defined.
