(* ===== verification/FlowControl.v ===== *)
(** * FlowControl: send windows

    Models src/loader/flowcontrol/flowcontrol.go as an instance of [Monitor]:
    the send window of a stream or of the connection, whose operations wake
    everybody. *)

From S2P Require Import Prelude Monitor.

(** ** flowcontrol.FlowControl *)
Record FlowControl := mkFC { fc_n : Z; fc_ok : bool }.

Definition NewFlowControl (n : N) : FlowControl := mkFC (Z.of_N n) true.

(** [Wait(n)]: at once for [n = 0], else the loop on the condition, then
    [fc.n -= n] in a [uint32]. The answer is [fc.ok]. *)
Definition Wait (n : N) (fc : FlowControl) : option (bool * FlowControl) :=
  if (n =? 0)%N then Some (true, fc)
  else if (fc_n fc <? Z.of_N n) && fc_ok fc then None
  else Some (fc_ok fc, mkFC (u32 (fc_n fc - Z.of_N n)) (fc_ok fc)).

Inductive fc_op := Add (n : N) | Reset_ (n : N) | Disable.

Definition fc_perform (o : fc_op) (fc : FlowControl) : FlowControl * wakeup :=
  match o with
  | Add n => (mkFC (u32 (fc_n fc + Z.of_N n)) (fc_ok fc), WakeAll)
  | Reset_ n => (mkFC (Z.of_N n) true, WakeNone)
  | Disable => (mkFC (fc_n fc) false, WakeAll)
  end.

#[export] Instance fc_monitor : Monitor FlowControl N bool fc_op := {|
  attempt := Wait; perform := fc_perform
|}.

(** A caller waits exactly while the window is open and too small. *)
Lemma Wait_None n fc : Wait n fc = None ↔ fc_n fc < Z.of_N n ∧ fc_ok fc = true ∧ n ≠ 0%N.
Proof.
  unfold Wait. destruct (N.eqb_spec n 0); [naive_solver|].
  destruct (Z.ltb_spec (fc_n fc) (Z.of_N n)), (fc_ok fc); cbn; naive_solver lia.
Qed.

Definition not_reset (o : fc_op) : Prop := match o with Reset_ _ => False | _ => True end.

#[export] Instance fc_broadcast_safe : BroadcastSafe not_reset.
Proof.
  split.
  - by intros [n|n|] st r.
  - cbn. intros r st r' res st' (H1 & H2 & H3)%Wait_None H. apply Wait_None. unfold Wait in H.
    destruct (N.eqb_spec r' 0); [by simplify_eq|]. rewrite H2, andb_true_r in H.
    destruct (Z.ltb_spec (fc_n st) (Z.of_N r')); simplify_eq. cbn. split_and!; [|done|done].
    unfold u32. pose proof (Z.mod_le (fc_n st - Z.of_N r') (2 ^ 32)). lia.
Qed.

(** What a schedule adds to the window and what calls have taken from it. *)
Definition added1 (l : label N fc_op) : Z := match l with LOp (Add n) => Z.of_N n | _ => 0 end.
Definition added (ls : list (label N fc_op)) : Z := zsum (added1 <$> ls).
Definition granted {Res} (d : list (N * Res)) : Z := zsum ((λ p, Z.of_N p.1) <$> d).

Definition additive (l : label N fc_op) : Prop :=
  match l with LOp (Add _) | LCall _ | LWake _ | LSignal => True | _ => False end.

Lemma granted_snoc {Res} d r (res : Res) : granted (d ++ [(r, res)]) = granted d + Z.of_N r.
Proof. unfold granted. rewrite fmap_app, zsum_app. cbn. lia. Qed.

Lemma added1_nonneg l : 0 <= added1 l.
Proof. destruct l as [| |[]|]; cbn; lia. Qed.
Lemma added_cons l ls : added (l :: ls) = added1 l + added ls.
Proof. done. Qed.
Lemma added_nonneg ls : 0 <= added ls.
Proof. induction ls as [|l ls IH]; [done|]. rewrite added_cons. pose proof (added1_nonneg l). lia. Qed.

(** The window and what was taken from it, together. *)
Definition fc_total (m : mon FlowControl N bool) : Z := fc_n (m_st m) + granted (m_done m).
Definition fc_open (m : mon FlowControl N bool) : Prop :=
  fc_ok (m_st m) = true ∧ 0 <= fc_n (m_st m) < 2 ^ 32 ∧ Forall (λ d, d.2 = true) (m_done m).

(** A call takes what it asks for from the window, or nothing. *)
Lemma test_total r (m : mon FlowControl N bool) : fc_open m →
  fc_open (test r m) ∧ fc_total (test r m) = fc_total m ∧ fc_n (m_st (test r m)) <= fc_n (m_st m).
Proof.
  intros (Hok & Hn & Hd). unfold test, fc_total. cbn [attempt fc_monitor].
  destruct (Wait r (m_st m)) as [[res st]|] eqn:E; cbn [m_st m_done]; [|split_and!; done || lia].
  rewrite granted_snoc. unfold Wait in E.
  assert (Forall (λ d, d.2 = true) (m_done m ++ [(r, true)])) by (apply Forall_app; by split; [|apply Forall_singleton]).
  destruct (N.eqb_spec r 0) as [->|Hr]; simplify_eq; [by repeat split; cbn; (done || lia)|].
  rewrite Hok, andb_true_r in E. destruct (Z.ltb_spec (fc_n (m_st m)) (Z.of_N r)); simplify_eq. cbn.
  rewrite u32_id by (unfold is_u32; lia). by repeat split; cbn; (done || lia).
Qed.

Lemma exec_total l (m m' : mon FlowControl N bool) : additive l → fc_open m → exec l m = Some m' →
  fc_n (m_st m) + added1 l < 2 ^ 32 →
  fc_open m' ∧ fc_total m' = fc_total m + added1 l ∧ fc_n (m_st m') <= fc_n (m_st m) + added1 l.
Proof.
  intros Hl Hm H Hb. destruct l as [r|i|[n| |]|]; try done.
  - apply exec_call in H as ->. cbn [added1]. destruct (test_total r m Hm) as (? & ? & ?). split_and!; (done || lia).
  - apply exec_wake in H as (r & _ & ->). set (m0 := mkMon _ _ _ _ _). cbn [added1].
    assert (fc_open m0 ∧ fc_total m0 = fc_total m ∧ m_st m0 = m_st m) as (Hm0 & Ht0 & Hst) by done.
    clearbody m0. destruct (test_total r m0 Hm0) as (? & Ht & Hle). rewrite Hst in Hle.
    split; [done|lia].
  - injection H as <-. destruct Hm as (Hok & Hn & Hd). unfold fc_total, fc_open.
    cbn [m_st m_done fc_n fc_ok fst added1] in *.
    rewrite u32_id by (unfold is_u32; lia). repeat split; (done || lia).
  - cbn in H. destruct (m_pending m); [done|]. injection H as <-. unfold fc_total, fc_open in *.
    destruct (m_waiting m); cbn [m_st m_done added1] in *; (split; [done|lia]).
Qed.

Lemma run_total ls : ∀ m m', Forall additive ls → fc_open m → run ls m = Some m' →
  fc_n (m_st m) + added ls < 2 ^ 32 → fc_open m' ∧ fc_total m' = fc_total m + added ls.
Proof.
  induction ls as [|l ls IH]; intros m m' Hl Hm Hrun Hb; cbn in Hrun.
  - simplify_eq. split; [done|cbn; lia].
  - apply Forall_cons in Hl as [Hl Hls]. apply bind_Some in Hrun as (m1 & H1 & Hrun).
    rewrite added_cons in *. pose proof (added_nonneg ls).
    destruct (exec_total l m m1 Hl Hm H1) as (? & ? & ?); [lia|].
    destruct (IH m1 m' Hls) as [? ->]; [done..|lia|]. split; [done|lia].
Qed.


Definition example_schedule : list (label N fc_op) :=
  [LCall 10%N; LCall 30%N; LOp (Add 5%N); LCall 4%N; LWake 0; LOp (Add 25%N); LWake 0].


(** No lost wake-up: without a [Reset] under the sleepers, a goroutine is asleep
    in [Wait] only while the window is open and smaller than what it needs. *)
Theorem window_sleepers_justified (n0 : N) ls m :
  Forall (op_allowed not_reset) ls → run ls (mon_init (NewFlowControl n0)) = Some m →
  Forall (λ r, fc_n (m_st m) < Z.of_N r ∧ fc_ok (m_st m) = true) (m_waiting m).
Proof.
  intros Hls Hrun.
  assert (sleepers_blocked m) as H.
  { apply (run_invariant (op_allowed not_reset) sleepers_blocked) with ls (mon_init (NewFlowControl n0)); [|done| |done].
    - intros l m1 m2. apply broadcast_exec, _.
    - apply Forall_nil_2. }
  eapply Forall_impl; [exact H|]. cbn. by intros r (? & ? & _)%Wait_None.
Qed.

Theorem window_sleepers_justified_witness :
  ∃ m, run [LCall 30%N; LCall 7%N; LOp (Add 5%N); LWake 1; LWake 0] (mon_init (NewFlowControl 3)) = Some m ∧
    m_waiting m = [30%N] ∧ Forall (λ r, fc_n (m_st m) < Z.of_N r ∧ fc_ok (m_st m) = true) (m_waiting m).
Proof.
  eexists. split; [reflexivity|]. split; [reflexivity|].
  apply (window_sleepers_justified 3 [LCall 30%N; LCall 7%N; LOp (Add 5%N); LWake 1; LWake 0]).
  - repeat (apply Forall_cons; split; [exact I|]). apply Forall_nil_2.
  - reflexivity.
Defined.

(** [Reset] gives the window a new size without a broadcast: a goroutine that
    sleeps on the window when its stream object is reused sleeps on, although
    the new window would let it pass. *)
Theorem reset_strands_sleepers (r n : N) m :
  (0 < r)%N → (r <= n)%N →
  run [LCall r; LOp (Reset_ n)] (mon_init (NewFlowControl 0)) = Some m →
  m_waiting m = [r] ∧ m_ready m = [] ∧ m_pending m = 0%nat ∧ is_Some (Wait r (m_st m)).
Proof.
  intros Hr Hn. cbn. unfold test. cbn.
  rewrite (proj2 (Wait_None r (NewFlowControl 0))) by (cbn; split_and!; [lia|done|lia]).
  cbn. intros [= <-]. split_and!; try done. cbn.
  destruct (Wait r (mkFC (Z.of_N n) true)) eqn:E; [done|]. apply Wait_None in E as (? & _ & _). cbn in *. lia.
Qed.

Theorem reset_strands_sleepers_witness :
  ∃ m, run [LCall 8%N; LOp (Reset_ 65535)] (mon_init (NewFlowControl 0)) = Some m ∧
  m_waiting m = [8%N] ∧ m_ready m = [] ∧ m_pending m = 0%nat ∧ is_Some (Wait 8 (m_st m)).
Proof.
  eexists. split; [reflexivity|]. apply (reset_strands_sleepers 8 65535); reflexivity || (vm_compute; discriminate).
Defined.
