(* ===== verification/Limiter.v ===== *)
(** * Limiter: the bound on concurrent streams

    Models src/loader/streams/limiter/limiter.go as an instance of [Monitor]: a
    quota of permits, one sleeper woken per permit returned. *)

From S2P Require Import Prelude Monitor.

Record limiter := mkLimiter { quota : N }.

(** [limiter.New]: a quota of 0 means no limit at all, the [noopLimiter]. *)
Definition noopLimiter : Type := unit.
Definition New (q : N) : noopLimiter + limiter :=
  if (q =? 0)%N then inl tt else inr (mkLimiter q).

(** [WaitAllow]: wait while the quota is 0, then [l.quota--]. *)
Definition WaitAllow (l : limiter) : option (unit * limiter) :=
  if (quota l =? 0)%N then None else Some (tt, mkLimiter (quota l - 1)).

(** [Release]: [l.quota++] in a [uint32]; the deferred calls run in reverse
    order, so the signal comes after the unlock. *)
Definition Release (l : limiter) : limiter * wakeup := (mkLimiter ((quota l + 1) mod 2 ^ 32), WakeOne).

#[export] Instance limiter_monitor : Monitor limiter unit unit unit := {|
  attempt _ := WaitAllow; perform _ := Release
|}.

(** [noopLimiter]: nobody ever waits. *)
#[export] Instance noop_monitor : Monitor noopLimiter unit unit unit := {|
  attempt _ l := Some (tt, l); perform _ l := (l, WakeNone)
|}.

Definition permits (l : limiter) : Z := Z.of_N (quota l).

#[export] Instance limiter_signal_safe : SignalSafe permits.
Proof.
  split; unfold permits; cbn.
  - intros _ [q]. unfold WaitAllow. cbn. destruct (N.eqb_spec q 0); naive_solver lia.
  - intros [q]. cbn. lia.
  - intros _ [q] res l'. unfold WaitAllow. cbn. destruct (N.eqb_spec q 0); [done|]. intros [= <- <-]. cbn. lia.
  - intros _ [q]. cbn. split; [|done]. pose proof (N.Div0.mod_le (q + 1) (2 ^ 32)). lia.
Qed.

(** ** How many streams are in flight *)
Definition release1 (l : label unit unit) : Z := match l with LOp _ => 1 | _ => 0 end.
Definition releases (ls : list (label unit unit)) : Z := zsum (release1 <$> ls).

Lemma releases_nonneg ls : 0 <= releases ls.
Proof. induction ls as [|l ls IH]; [done|]. change (0 <= release1 l + releases ls). destruct l; cbn; lia. Qed.

Abbreviation lmon := (mon limiter unit unit).
Definition in_all (m : lmon) : Z := permits (m_st m) + zlen (m_done m).

Lemma test_in_all (m : lmon) : in_all (test tt m) = in_all m ∧ permits (m_st (test tt m)) <= permits (m_st m).
Proof.
  unfold in_all, test. cbn [attempt limiter_monitor]. unfold permits, WaitAllow.
  destruct (N.eqb_spec (quota (m_st m)) 0); cbn [m_st m_done quota]; [done|].
  rewrite zlen_app. change (zlen [(tt, tt)]) with 1. lia.
Qed.

Lemma exec_in_all l (m m' : lmon) : exec l m = Some m' → permits (m_st m) + release1 l < 2 ^ 32 →
  in_all m' = in_all m + release1 l ∧ permits (m_st m') <= permits (m_st m) + release1 l.
Proof.
  intros H Hb. destruct l as [[]|i|[]|].
  - apply exec_call in H as ->. cbn [release1]. destruct (test_in_all m). lia.
  - apply exec_wake in H as ([] & _ & ->). cbn [release1]. set (m0 := mkMon _ _ _ _ _).
    assert (in_all m0 = in_all m ∧ m_st m0 = m_st m) as [H0 H1] by done. clearbody m0.
    destruct (test_in_all m0) as [? Hle]. rewrite H1 in Hle. lia.
  - injection H as <-. unfold in_all, permits in *. cbn [m_st m_done quota release1] in *.
    rewrite N.mod_small by lia. lia.
  - cbn in H. destruct (m_pending m); [done|]. injection H as <-. unfold in_all.
    destruct (m_waiting m); cbn [m_st m_done release1] in *; lia.
Qed.

Lemma run_in_all ls : ∀ m m' : lmon, run ls m = Some m' → permits (m_st m) + releases ls < 2 ^ 32 →
  in_all m' = in_all m + releases ls.
Proof.
  induction ls as [|l ls IH]; intros m m' Hrun Hb; cbn in Hrun.
  - simplify_eq. change (releases []) with 0. lia.
  - apply bind_Some in Hrun as (m1 & H1 & Hrun).
    change (releases (l :: ls)) with (release1 l + releases ls) in *. pose proof (releases_nonneg ls).
    destruct (exec_in_all l m m1 H1); [lia|]. rewrite (IH m1 m' Hrun); lia.
Qed.

(** The server's MAX_CONCURRENT_STREAMS is respected: under every schedule the
    calls of [WaitAllow] that returned exceed the releases by at most the
    quota, and the difference is exactly what the quota has lost. *)
Theorem streams_in_flight_bounded (q : N) ls m :
  Z.of_N q + releases ls < 2 ^ 32 → run ls (mon_init (mkLimiter q)) = Some m →
  zlen (m_done m) - releases ls = Z.of_N q - Z.of_N (quota (m_st m)) ∧
  zlen (m_done m) - releases ls <= Z.of_N q.
Proof.
  intros Hb Hrun. pose proof (run_in_all ls (mon_init (mkLimiter q)) m Hrun Hb) as H.
  unfold in_all, permits in H. cbn [mon_init m_st m_done quota] in H. change (zlen (@nil (unit * unit))) with 0 in H. lia.
Qed.

Definition example_schedule : list (label unit unit) :=
  [LCall tt; LCall tt; LCall tt; LOp tt; LSignal; LWake 0].

Theorem streams_in_flight_bounded_witness :
  ∃ m, run example_schedule (mon_init (mkLimiter 2)) = Some m ∧
  zlen (m_done m) - 1 = 2 - Z.of_N (quota (m_st m)) ∧ zlen (m_done m) - 1 <= 2.
Proof.
  eexists. split; [reflexivity|]. apply (streams_in_flight_bounded 2 example_schedule); reflexivity.
Defined.

(** C31: One signal per permit is enough: as long as a goroutine sleeps in
    [WaitAllow], every free permit already has a woken goroutine or a pending
    signal on its way to take it. So a free permit with nobody awake means
    that nobody waits. *)
Theorem limiter_no_lost_wakeup (q : N) ls m :
  run ls (mon_init (mkLimiter q)) = Some m →
  m_waiting m = [] ∨ permits (m_st m) <= zlen (m_ready m) + Z.of_nat (m_pending m).
Proof.
  apply (run_invariant (λ _, True) (enough_wakers permits)); [|by apply Forall_true|by left].
  intros l m1 m2 _. apply (signal_exec permits). by intros o ->.
Qed.

Theorem limiter_no_lost_wakeup_witness :
  ∃ m, run [LCall tt; LCall tt; LCall tt; LOp tt; LCall tt; LSignal; LOp tt] (mon_init (mkLimiter 1)) = Some m ∧
  m_waiting m = [tt] ∧ m_ready m = [tt] ∧ m_pending m = 1%nat ∧
  (m_waiting m = [] ∨ Z.of_N (quota (m_st m)) <= zlen (m_ready m) + Z.of_nat (m_pending m)).
Proof.
  eexists. split; [reflexivity|]. split; [reflexivity|]. split; [reflexivity|]. split; [reflexivity|].
  apply (limiter_no_lost_wakeup 1 [LCall tt; LCall tt; LCall tt; LOp tt; LCall tt; LSignal; LOp tt]).
  reflexivity.
Defined.
