(* ===== verification/Pool.v ===== *)
(** * Pool: reuse of stream objects

    Models src/loader/streams/pool/pool.go and src/utils/pool/pool.go: a stack of
    free stream objects, the count of those in use, and the goroutine of
    [WaitAllReleased] that sleeps until none is. *)

From S2P Require Import Prelude Types Monitor FlowControl.
From stdpp Require Import fin_sets.
#[local] Open Scope Z_scope.

(** ** utils/pool.SlicePool *)
Definition slice_Acquire {T} (s : list T) : option T * list T :=
  match last s with
  | None => (None, s)
  | Some v => (Some v, take (length s - 1) s)
  end.
Definition slice_Release {T} (v : T) (s : list T) : list T := s ++ [v].

Lemma slice_Acquire_snoc {T} (v : T) s : slice_Acquire (s ++ [v]) = (Some v, s).
Proof.
  unfold slice_Acquire. rewrite last_snoc, length_app. cbn [length].
  by replace (length s + 1 - 1)%nat with (length s) by lia; rewrite take_app_length.
Qed.

Lemma slice_Acquire_cases {T} (s : list T) :
  (s = [] ∧ slice_Acquire s = (None, [])) ∨ ∃ v k, s = k ++ [v] ∧ slice_Acquire s = (Some v, k).
Proof.
  induction s as [|v k _] using rev_ind; [by left|right]. exists v, k. by rewrite slice_Acquire_snoc.
Qed.

(** ** StreamsPool *)

(** [streamImpl]: its id, its window and the report it feeds. *)
Record streamImpl := mkStreamImpl { streamID : Z; fc : FlowControl; state_tag : bytes }.

(** The pool; [objects] is the heap of [*streamImpl] it has allocated. *)
Record StreamsPool := mkPool {
  pool : list stream; inUse : Z; initialWindowSize : N; objects : list streamImpl }.

Definition DefaultInitialWindowSize : N := 65535.

(** [NewStreamsPool] with the option [WithInitialWindowSize] or without. *)
Definition NewStreamsPool (opt : option N) : StreamsPool :=
  mkPool [] 0 (default DefaultInitialWindowSize opt) [].

(** [Acquire]: pop, or allocate; then give the object its id, a full window and
    a fresh report. *)
Definition Acquire (id : Z) (tag : bytes) (p : StreamsPool) : stream * StreamsPool :=
  let '(o, free) := slice_Acquire (pool p) in
  let fresh := mkStreamImpl 0 (NewFlowControl (initialWindowSize p)) [] in
  let '(s, objs) := match o with
    | Some s => (s, objects p)
    | None => (length (objects p), objects p ++ [fresh])
    end in
  let set_up x := mkStreamImpl id (fc_perform (Reset_ (initialWindowSize p)) (fc x)).1 tag in
  (s, mkPool free (u32 (inUse p + 1)) (initialWindowSize p) (alter set_up s objs)).

(** [release], the end of [streamImpl.End]. *)
Definition release (s : stream) (p : StreamsPool) : StreamsPool :=
  mkPool (slice_Release s (pool p)) (u32 (inUse p - 1)) (initialWindowSize p) (objects p).

Definition InUse (p : StreamsPool) : Z := inUse p.

(** ** Sequences of acquisitions and releases *)
Inductive pool_op := OAcquire (id : Z) (tag : bytes) | OEnd (s : stream).

Definition pool_step (o : pool_op) (p : StreamsPool) : StreamsPool :=
  match o with OAcquire id tag => (Acquire id tag p).2 | OEnd s => release s p end.

(** The objects in use after a sequence, [None] when one is released that is
    not in use: what [streams_end_once] rules out. *)
Fixpoint in_use (os : list pool_op) (p : StreamsPool) (used : gset stream) : option (gset stream) :=
  match os with
  | [] => Some used
  | o :: os =>
      match o with
      | OAcquire id tag => in_use os (pool_step o p) ({[(Acquire id tag p).1]} ∪ used)
      | OEnd s => if decide (s ∈ used) then in_use os (pool_step o p) (used ∖ {[s]}) else None
      end
  end.

(** Every object is in exactly one place, and the counter counts. *)
Record pool_ok (p : StreamsPool) (used : gset stream) : Prop := {
  pool_nodup : NoDup (pool p);
  pool_disjoint : ∀ s, s ∈ pool p → s ∉ used;
  pool_all : ∀ s, (s < length (objects p))%nat ↔ s ∈ pool p ∨ s ∈ used;
  pool_count : inUse p = u32 (Z.of_nat (size used))
}.

(** What [Acquire] hands out: an object nobody uses, ready for the stream. *)
Lemma Acquire_spec id tag p used :
  pool_ok p used →
  let '(s, p') := Acquire id tag p in
  s ∉ used ∧ pool_ok p' ({[s]} ∪ used) ∧
  objects p' !! s = Some (mkStreamImpl id (NewFlowControl (initialWindowSize p)) tag) ∧
  (∀ s', s' ∈ used → objects p' !! s' = objects p !! s').
Proof.
  intros [Hnd Hdis Hall Hcnt]. unfold Acquire.
  destruct (slice_Acquire_cases (pool p)) as [[Hp ->]|(s & k & Hp & ->)].
  - set (n := length (objects p)).
    assert (Hn : n ∉ used) by (intros ?; assert (n < n)%nat by (apply Hall; by right); lia).
    split; [done|]. split; [|split].
    + split; cbn [pool inUse objects].
      * constructor.
      * intros s Hs. by apply elem_of_nil in Hs.
      * intros s. rewrite length_alter, length_app. cbn [length]. rewrite elem_of_union, elem_of_singleton.
        specialize (Hall s). rewrite Hp in Hall. fold n in Hall. split.
        -- intros Hlt. right. destruct (decide (s = n)); [by left|right].
           destruct (proj1 Hall) as [Hs|]; [lia|by apply elem_of_nil in Hs|done].
        -- intros [Hs|[->|Hs]]; [by apply elem_of_nil in Hs|lia|]. enough (s < n)%nat by lia. by apply Hall; right.
      * rewrite size_union, size_singleton by set_solver. rewrite Hcnt, u32_add_l. f_equal. lia.
    + cbn [objects]. rewrite list_lookup_alter, decide_True by done. rewrite lookup_app_r by lia.
      by rewrite Nat.sub_diag.
    + intros s' Hs'. cbn [objects]. rewrite list_lookup_alter_ne by set_solver.
      apply lookup_app_l, Hall. by right.
  - rewrite Hp in *. apply NoDup_app in Hnd as (Hk & Hsk & _).
    assert (Hs : s ∉ used) by (apply Hdis; set_solver).
    split; [done|]. split; [|split].
    + split; cbn [pool inUse objects].
      * done.
      * intros s' Hs'. rewrite elem_of_union, elem_of_singleton.
        intros [->|?]; [by eapply Hsk; [done|set_solver]|]. eapply Hdis; [|done]. set_solver.
      * intros s'. rewrite length_alter, Hall. set_solver.
      * rewrite size_union, size_singleton by set_solver. rewrite Hcnt, u32_add_l. f_equal. lia.
    + assert (s < length (objects p))%nat as [x Hx]%lookup_lt_is_Some_2 by (apply Hall; set_solver).
      cbn [objects]. rewrite list_lookup_alter, decide_True by done. by rewrite Hx.
    + intros s' Hs'. cbn [objects]. rewrite list_lookup_alter_ne by set_solver. done.
Qed.

Lemma release_ok s p used : pool_ok p used → s ∈ used → pool_ok (release s p) (used ∖ {[s]}).
Proof.
  intros [Hnd Hdis Hall Hcnt] Hs. split; cbn [release pool inUse objects]; unfold slice_Release.
  - apply NoDup_app. split_and!; [done| |apply NoDup_singleton].
    intros x Hx ->%list_elem_of_singleton. by eapply Hdis.
  - intros x. rewrite elem_of_app, list_elem_of_singleton. specialize (Hdis x). set_solver.
  - intros x. rewrite Hall, elem_of_app, list_elem_of_singleton.
    destruct (decide (x = s)); set_solver.
  - rewrite size_difference, size_singleton by set_solver. rewrite Hcnt, u32_sub_l. f_equal.
    assert (size used ≠ 0)%nat by (rewrite size_non_empty_iff; set_solver). lia.
Qed.

Lemma new_pool_ok opt : pool_ok (NewStreamsPool opt) ∅.
Proof.
  split; cbn; [constructor|intros s Hs; by apply elem_of_nil in Hs| |done].
  intros s. split; [lia|]. intros [Hs|Hs]; [by apply elem_of_nil in Hs|set_solver].
Qed.

Fixpoint run_pool (os : list pool_op) (p : StreamsPool) : StreamsPool :=
  match os with [] => p | o :: os => run_pool os (pool_step o p) end.

Lemma in_use_ok os : ∀ p used used', pool_ok p used → in_use os p used = Some used' →
  pool_ok (run_pool os p) used'.
Proof.
  induction os as [|[id tag|s] os IH]; intros p used used' Hp H; cbn in *; [by simplify_eq| |].
  - pose proof (Acquire_spec id tag p used Hp) as Ha. destruct (Acquire id tag p) as [s p'].
    destruct Ha as (_ & Ha & _). by eapply IH.
  - destruct (decide (s ∈ used)); [|done]. eapply IH; [by apply release_ok|done].
Qed.

Lemma run_pool_window os : ∀ p, initialWindowSize (run_pool os p) = initialWindowSize p.
Proof.
  induction os as [|[id tag|s] os IH]; intros p; cbn; [done| |by rewrite IH].
  rewrite IH. unfold Acquire. destruct (slice_Acquire (pool p)) as [[s|] k]; done.
Qed.

(** C13: Reuse is exclusive. After any requests and ends, each end of a stream in use,
    the next stream handed out is nobody else's, carries its own id, report and
    a full window, and leaves every stream in use as it was; the counter that
    [Shutdown] waits on is the number of streams in use. *)
Theorem pool_reuse_exclusive (opt : option N) os used id tag :
  in_use os (NewStreamsPool opt) ∅ = Some used →
  let p := run_pool os (NewStreamsPool opt) in
  let '(s, p') := Acquire id tag p in
  InUse p = u32 (Z.of_nat (size used)) ∧ s ∉ used ∧
  objects p' !! s = Some (mkStreamImpl id (NewFlowControl (default DefaultInitialWindowSize opt)) tag) ∧
  (∀ s', s' ∈ used → objects p' !! s' = objects p !! s').
Proof.
  intros H. cbn zeta. set (p := run_pool os _).
  assert (pool_ok p used) as Hp by (apply (in_use_ok os _ _ _ (new_pool_ok opt) H)).
  assert (initialWindowSize p = default DefaultInitialWindowSize opt) as Hw by apply run_pool_window.
  clearbody p. pose proof (Acquire_spec id tag p used Hp) as Ha. destruct (Acquire id tag p) as [s p'].
  destruct Ha as (? & ? & Ho & ?). rewrite Hw in Ho. split; [apply Hp|done].
Qed.

Theorem pool_reuse_exclusive_witness :
  let p := run_pool [OAcquire 3 []; OAcquire 5 [1]; OEnd 0%nat] (NewStreamsPool (Some 10%N)) in
  let '(s, p') := Acquire 7 [2] p in
  s = 0%nat ∧ InUse p = 1 ∧ s ∉ ({[1%nat]} : gset nat) ∧
  objects p' !! s = Some (mkStreamImpl 7 (mkFC 10 true) [2]) ∧
  (∀ s', s' ∈ ({[1%nat]} : gset nat) → objects p' !! s' = objects p !! s').
Proof.
  split; [reflexivity|].
  exact (pool_reuse_exclusive (Some 10%N) [OAcquire 3 []; OAcquire 5 [1]; OEnd 0%nat] {[1%nat]} 7 [2] eq_refl).
Defined.

(** ** WaitAllReleased *)

(** The goroutine sleeps while [inUse != 0]; [release] signals after its unlock,
    [Acquire] does not. *)
#[export] Instance pool_monitor : Monitor StreamsPool unit unit pool_op := {|
  attempt _ p := if inUse p =? 0 then Some (tt, p) else None;
  perform o p := (pool_step o p, match o with OAcquire _ _ => WakeNone | OEnd _ => WakeOne end)
|}.

Abbreviation pmon := (mon StreamsPool unit unit).

Definition calls (ls : list (label unit pool_op)) : nat :=
  length (omap (λ l, match l with LCall _ => Some tt | _ => None end) ls).

(** With a single watcher: asleep, it has either streams to wait for or a signal
    on its way. *)
Record watched (k : nat) (m : pmon) : Prop := {
  watched_one : (length (m_waiting m) + length (m_ready m) + k ≤ 1)%nat;
  watched_awaited : m_waiting m ≠ [] → inUse (m_st m) = 0 → (0 < m_pending m)%nat
}.

Lemma test_watched k r (m : pmon) : (length (m_waiting m) + length (m_ready m) + S k ≤ 1)%nat → watched k (test r m).
Proof.
  intros H. unfold test. cbn. destruct (Z.eqb_spec (inUse (m_st m)) 0); split; cbn; try done; try lia.
  - destruct (m_waiting m); cbn in *; [done|lia].
  - rewrite length_app. cbn. lia.
Qed.

Definition ops (ls : list (label unit pool_op)) : list pool_op :=
  omap (λ l, match l with LOp o => Some o | _ => None end) ls.

Lemma test_st r (m : pmon) : m_st (test r m) = m_st m.
Proof. unfold test. cbn. by destruct (inUse (m_st m) =? 0). Qed.

Lemma Acquire_nonzero id tag p used : pool_ok p used → Z.of_nat (size used) + 1 < 2 ^ 32 →
  inUse (Acquire id tag p).2 ≠ 0.
Proof.
  intros Hp Hb. unfold Acquire. destruct (slice_Acquire (pool p)) as [[s|] k]; cbn [snd inUse];
    rewrite (pool_count _ _ Hp), u32_add_l, u32_id; unfold is_u32; lia.
Qed.

Lemma size_after o p used : pool_ok p used →
  Z.of_nat (size match o with OAcquire id tag => {[(Acquire id tag p).1]} ∪ used | OEnd s => used ∖ {[s]} end)
    <= Z.of_nat (size used) + 1.
Proof.
  intros Hp. destruct o as [id tag|s].
  - pose proof (Acquire_spec id tag p used Hp). destruct (Acquire id tag p) as [s p'].
    rewrite size_union, size_singleton by set_solver. cbn. lia.
  - pose proof (subseteq_size (used ∖ {[s]}) used ltac:(set_solver)). lia.
Qed.

Lemma watched_op o k (m : pmon) used : watched k m → pool_ok (m_st m) used → Z.of_nat (size used) + 1 < 2 ^ 32 →
  ∀ m', exec (LOp o) m = Some m' → watched k m'.
Proof.
  intros [Hone Haw] Hp Hb m'. destruct o as [id tag|s]; intros [= <-].
  - split; cbn [m_waiting m_ready m_pending m_st]; [done|]. intros _ H0.
    by destruct (Acquire_nonzero id tag (m_st m) used Hp Hb).
  - split; cbn [m_waiting m_ready m_pending m_st]; [done|]. intros _ _. lia.
Qed.

Lemma watched_run ls : ∀ (m m' : pmon) used used', run ls m = Some m' →
  pool_ok (m_st m) used → in_use (ops ls) (m_st m) used = Some used' →
  Z.of_nat (size used) + zlen ls < 2 ^ 32 →
  watched (calls ls) m → watched 0 m'.
Proof.
  induction ls as [|l ls IH]; intros m m' used used' Hrun Hp Hu Hb Hm; cbn in Hrun; [by simplify_eq|].
  apply bind_Some in Hrun as (m1 & H1 & Hrun). rewrite zlen_cons in Hb. pose proof (zlen_nonneg ls).
  destruct l as [r|i|o|].
  - change (calls (LCall r :: ls)) with (S (calls ls)) in Hm. change (ops (LCall r :: ls)) with (ops ls) in Hu.
    apply exec_call in H1 as ->. refine (IH _ _ used used' Hrun _ _ _ _); [by rewrite test_st|by rewrite test_st|lia|].
    apply test_watched, Hm.
  - change (calls (LWake i :: ls)) with (calls ls) in Hm. change (ops (LWake i :: ls)) with (ops ls) in Hu.
    apply exec_wake in H1 as (r & Hr & ->). refine (IH _ _ used used' Hrun _ _ _ _); [by rewrite test_st|by rewrite test_st|lia|].
    apply test_watched. cbn [m_waiting m_ready]. rewrite length_delete by eauto.
    apply lookup_lt_Some in Hr. destruct Hm as [Hone _]. lia.
  - change (calls (LOp o :: ls)) with (calls ls) in Hm. change (ops (LOp o :: ls)) with (o :: ops ls) in Hu.
    pose proof (watched_op o _ m used Hm Hp ltac:(lia) m1 H1) as Hm1.
    pose proof (size_after o (m_st m) used Hp) as Hsz.
    destruct o as [id tag|s]; injection H1 as H1; cbn in Hu.
    + pose proof (Acquire_spec id tag (m_st m) used Hp) as Ha.
      destruct (Acquire id tag (m_st m)) as [s p'] eqn:E. destruct Ha as (_ & Ha & _). cbn [fst snd] in *.
      subst m1. refine (IH _ _ _ used' Hrun Ha Hu _ Hm1); lia.
    + destruct (decide (s ∈ used)); [|done].
      subst m1. refine (IH _ _ _ used' Hrun _ Hu _ Hm1); [by apply release_ok|lia].
  - change (calls (LSignal :: ls)) with (calls ls) in Hm. change (ops (LSignal :: ls)) with (ops ls) in Hu.
    cbn in H1. destruct (m_pending m) as [|j]; [done|]. injection H1 as <-. destruct Hm as [Hone Haw].
    destruct (m_waiting m) as [|r rs]; (refine (IH _ _ used used' Hrun Hp Hu _ _); [lia|]);
      split; cbn [m_waiting m_ready m_pending m_st length] in *; try done.
    + rewrite length_app. cbn. lia.
    + destruct rs; [done|cbn in *; lia].
Qed.

(** One watcher is never forgotten: whatever the interleaving of requests, ends
    and signals, while it sleeps either some stream is still in use or a signal
    to it is pending. *)
Theorem single_watcher_woken opt ls m used :
  calls ls = 1%nat → in_use (ops ls) (NewStreamsPool opt) ∅ = Some used → zlen ls < 2 ^ 32 →
  run ls (mon_init (NewStreamsPool opt)) = Some m →
  m_waiting m ≠ [] → InUse (m_st m) ≠ 0 ∨ (0 < m_pending m)%nat.
Proof.
  intros Hc Hu Hb Hrun Hw.
  destruct (watched_run ls (mon_init (NewStreamsPool opt)) m ∅ used Hrun (new_pool_ok opt) Hu) as [_ Haw];
    [by rewrite size_empty|rewrite Hc; by split; cbn|].
  destruct (decide (InUse (m_st m) = 0)) as [H0|]; [right; by apply Haw|by left].
Qed.

Theorem single_watcher_woken_witness :
  ∃ m, run [LOp (OAcquire 3 []); LCall tt; LOp (OEnd 0%nat)] (mon_init (NewStreamsPool None)) = Some m ∧
  InUse (m_st m) = 0 ∧ (InUse (m_st m) ≠ 0 ∨ (0 < m_pending m)%nat).
Proof.
  eexists. split; [reflexivity|]. split; [reflexivity|].
  apply (single_watcher_woken None [LOp (OAcquire 3 []); LCall tt; LOp (OEnd 0%nat)] _ ∅); try reflexivity. discriminate.
Defined.

(** Two watchers are one too many: the last release signals once, so when two
    goroutines wait for the streams to drain, as after a [WaitResponses] that
    timed out and a [Shutdown], one of them sleeps for ever: the pool is empty,
    nobody is awake and no signal is left. *)
Theorem second_watcher_stranded opt id tag m :
  run [LOp (OAcquire id tag); LCall tt; LCall tt; LOp (OEnd 0%nat); LSignal; LWake 0]
      (mon_init (NewStreamsPool opt)) = Some m →
  m_waiting m = [tt] ∧ m_ready m = [] ∧ m_pending m = 0%nat ∧ InUse (m_st m) = 0 ∧ m_done m = [(tt, tt)].
Proof. intros H. vm_compute in H. injection H as <-. done. Qed.

Theorem second_watcher_stranded_witness :
  ∃ m, run [LOp (OAcquire 3 []); LCall tt; LCall tt; LOp (OEnd 0%nat); LSignal; LWake 0]
      (mon_init (NewStreamsPool None)) = Some m ∧
  m_waiting m = [tt] ∧ m_ready m = [] ∧ m_pending m = 0%nat ∧ InUse (m_st m) = 0 ∧ m_done m = [(tt, tt)].
Proof. eexists. split; [reflexivity|]. apply (second_watcher_stranded None 3 []). reflexivity. Defined.
