(* ===== verification/Decimal.v ===== *)
(** * Decimal: numbers as text

    [strconv.FormatInt(n, 10)] and [strconv.AppendInt] of the Go library, which
    the program uses for grpc-timeout values, for record sizes and in its
    reports, and the reading of decimal digits. *)

From S2P Require Import Prelude.

Definition is_digit (b : Z) : Prop := 48 <= b <= 57.

(** Digits of [n >= 0] in front of [acc]. *)
Fixpoint digits_aux (fuel : nat) (n : Z) (acc : bytes) : bytes :=
  match fuel with
  | O => acc
  | S fuel => if n <? 10 then (48 + n) :: acc else digits_aux fuel (n / 10) ((48 + n mod 10) :: acc)
  end.

(** One step of fuel per binary digit is plenty. *)
Definition digits (n : Z) : bytes := digits_aux (S (Z.to_nat (Z.log2 n))) n [].

Definition FormatInt (n : Z) : bytes := if n <? 0 then 45 :: digits (- n) else digits n.

(** The value of a run of digits. *)
Definition dec_step (acc b : Z) : Z := acc * 10 + (b - 48).
Definition dec_val (bs : bytes) : Z := foldl dec_step 0 bs.

Lemma dec_fold acc bs : foldl dec_step acc bs = acc * 10 ^ zlen bs + dec_val bs.
Proof.
  unfold dec_val. revert acc. induction bs as [|b bs IH]; intros acc; cbn [foldl].
  - change (zlen []) with 0. lia.
  - rewrite (IH (dec_step acc b)), (IH (dec_step 0 b)), zlen_cons, Z.pow_add_r by (pose proof (zlen_nonneg bs); lia).
    unfold dec_step. lia.
Qed.

Lemma dec_val_cons b bs : dec_val (b :: bs) = (b - 48) * 10 ^ zlen bs + dec_val bs.
Proof. unfold dec_val at 1. cbn [foldl]. rewrite dec_fold. unfold dec_step. lia. Qed.

Lemma dec_val_app bs cs : dec_val (bs ++ cs) = dec_val bs * 10 ^ zlen cs + dec_val cs.
Proof. unfold dec_val at 1. by rewrite foldl_app, dec_fold. Qed.

Lemma dec_val_nonneg bs : Forall is_digit bs → 0 <= dec_val bs < 10 ^ zlen bs.
Proof.
  induction 1 as [|b bs Hb _ IH]; [done|]. unfold is_digit in Hb.
  rewrite dec_val_cons, zlen_cons, Z.pow_add_r by (pose proof (zlen_nonneg bs); lia). nia.
Qed.

(** What the loop prepends to [acc]. *)
Lemma digits_aux_spec fuel : ∀ n acc, (0 < fuel)%nat → 0 <= n < 2 ^ Z.of_nat fuel →
  ∃ ds, digits_aux fuel n acc = ds ++ acc ∧ ds ≠ [] ∧ Forall is_digit ds ∧ dec_val ds = n ∧
    (n < 10 → zlen ds = 1) ∧ (10 <= n → 10 ^ (zlen ds - 1) <= n).
Proof.
  induction fuel as [|fuel IH]; [lia|]. intros n acc _ Hn. cbn [digits_aux].
  destruct (Z.ltb_spec n 10) as [Hlt|Hge].
  - exists [48 + n]. split_and!; try done; [|cbn; unfold dec_step; lia|lia].
    apply Forall_singleton. unfold is_digit. lia.
  - assert (Hf : (0 < fuel)%nat) by (destruct fuel; [change (2 ^ Z.of_nat 1) with 2 in Hn; lia|lia]).
    assert (Hq : 0 <= n / 10 < 2 ^ Z.of_nat fuel).
    { split; [by apply Z.div_pos; lia|]. rewrite Nat2Z.inj_succ, Z.pow_succ_r in Hn by lia.
      apply Z.div_lt_upper_bound; lia. }
    destruct (IH (n / 10) ((48 + n mod 10) :: acc) Hf Hq) as (ds & -> & Hne & Hd & Hv & Hs & Hb).
    exists (ds ++ [48 + n mod 10]). pose proof (Z.mod_pos_bound n 10 eq_refl).
    pose proof (Z.div_mod n 10 ltac:(done)). split_and!.
    + by rewrite <-app_assoc.
    + by destruct ds.
    + apply Forall_app. split; [done|]. apply Forall_singleton. unfold is_digit. lia.
    + rewrite dec_val_app, Hv. change (zlen [_]) with 1. change (dec_val [48 + n mod 10]) with (dec_step 0 (48 + n mod 10)).
      unfold dec_step. lia.
    + lia.
    + intros _. rewrite zlen_app. change (zlen [_]) with 1. replace (zlen ds + 1 - 1) with (zlen ds) by lia.
      destruct (Z.lt_ge_cases (n / 10) 10) as [Hq1|Hq1].
      * rewrite (Hs Hq1). change (10 ^ 1) with 10. lia.
      * specialize (Hb Hq1). replace (zlen ds) with (1 + (zlen ds - 1)) by lia.
        rewrite Z.pow_add_r; [lia..|]. destruct ds; [done|rewrite zlen_cons; pose proof (zlen_nonneg ds); lia].
Qed.

Lemma digits_spec n : 0 <= n →
  digits n ≠ [] ∧ Forall is_digit (digits n) ∧ dec_val (digits n) = n ∧
  (n < 10 → zlen (digits n) = 1) ∧ (10 <= n → 10 ^ (zlen (digits n) - 1) <= n).
Proof.
  intros Hn. unfold digits. pose proof (Z.log2_nonneg n).
  destruct (digits_aux_spec (S (Z.to_nat (Z.log2 n))) n []) as (ds & -> & H1); [lia| |].
  - split; [done|]. destruct (Z.eq_dec n 0) as [->|]; [done|].
    rewrite Nat2Z.inj_succ, Z2Nat.id by done. by apply Z.log2_spec; lia.
  - rewrite app_nil_r. exact H1.
Qed.

(** Few enough digits. *)
Lemma digits_short n k : 0 <= n < 10 ^ k → 1 <= k → zlen (digits n) <= k.
Proof.
  intros Hn Hk. destruct (digits_spec n) as (_ & _ & _ & H1 & H2); [lia|].
  destruct (Z.lt_ge_cases n 10) as [Hlt|Hge]; [rewrite H1; lia|]. specialize (H2 Hge).
  destruct (Z.le_gt_cases (zlen (digits n)) k) as [|Hgt]; [done|].
  pose proof (Z.pow_le_mono_r 10 k (zlen (digits n) - 1)). lia.
Qed.

Lemma FormatInt_nonneg n : 0 <= n → FormatInt n = digits n.
Proof. intros H. unfold FormatInt. by rewrite (proj2 (Z.ltb_ge _ _)). Qed.

(** Reading digits up to the first other byte. *)
Fixpoint span_digits (bs : bytes) : bytes * bytes :=
  match bs with
  | b :: bs' => if (48 <=? b) && (b <=? 57) then let '(d, r) := span_digits bs' in (b :: d, r) else ([], bs)
  | [] => ([], [])
  end.

Lemma span_digits_app ds rest : Forall is_digit ds →
  (∀ b r, rest = b :: r → ¬ is_digit b) → span_digits (ds ++ rest) = (ds, rest).
Proof.
  unfold is_digit. intros Hds Hr. induction Hds as [|b ds Hb _ IH]; cbn [app span_digits].
  - destruct rest as [|b r]; [done|]. specialize (Hr b r eq_refl). cbn [span_digits].
    destruct (Z.leb_spec 48 b), (Z.leb_spec b 57); cbn; done || lia.
  - rewrite (proj2 (Z.leb_le 48 b)), (proj2 (Z.leb_le b 57)) by lia. cbn. by rewrite IH.
Qed.
