(* ===== verification/Duration.v ===== *)
(** * Duration: the grpc-timeout header

    Models src/utils/grpc/encode_duration.go. *)

From S2P Require Import Prelude Decimal.

Definition maxTimeoutValue : Z := 100000000 - 1.

(** [div]: Go's [%] and [/] truncate. *)
Definition div (d r : Z) : Z := if 0 <? Z.rem d r then Z.quot d r + 1 else Z.quot d r.

Definition Nanosecond : Z := 1.
Definition Microsecond : Z := 1000 * Nanosecond.
Definition Millisecond : Z := 1000 * Microsecond.
Definition Second : Z := 1000 * Millisecond.
Definition Minute : Z := 60 * Second.
Definition Hour : Z := 60 * Minute.

Definition EncodeDuration (t : Z) : bytes :=
  if t <=? 0 then str "0n"
  else if div t Nanosecond <=? maxTimeoutValue then FormatInt (div t Nanosecond) ++ str "n"
  else if div t Microsecond <=? maxTimeoutValue then FormatInt (div t Microsecond) ++ str "u"
  else if div t Millisecond <=? maxTimeoutValue then FormatInt (div t Millisecond) ++ str "m"
  else if div t Second <=? maxTimeoutValue then FormatInt (div t Second) ++ str "S"
  else if div t Minute <=? maxTimeoutValue then FormatInt (div t Minute) ++ str "M"
  else FormatInt (div t Hour) ++ str "H".

(** ** Reading a timeout, as the gRPC protocol defines it

    1 to 8 digits and a unit. *)
Definition timeout_unit (u : Z) : option Z :=
  if u =? 72 then Some Hour else if u =? 77 then Some Minute else if u =? 83 then Some Second
  else if u =? 109 then Some Millisecond else if u =? 117 then Some Microsecond
  else if u =? 110 then Some Nanosecond else None.

Definition DecodeTimeout (b : bytes) : option (Z * Z) :=
  match span_digits b with
  | (ds, [u]) =>
      unit ← timeout_unit u;
      if (1 <=? zlen ds) && (zlen ds <=? 8) then Some (dec_val ds, unit) else None
  | _ => None
  end.

Lemma div_up d r : 0 < d → 0 < r → div d r * r - r < d <= div d r * r.
Proof.
  intros Hd Hr. unfold div. rewrite Z.rem_mod_nonneg, Z.quot_div_nonneg by lia.
  pose proof (Z.mod_pos_bound d r Hr). pose proof (Z.div_mod d r ltac:(lia)).
  destruct (Z.ltb_spec 0 (d mod r)); lia.
Qed.

Lemma decode_digits n u unit : 0 <= n <= maxTimeoutValue → timeout_unit u = Some unit → ¬ is_digit u →
  DecodeTimeout (FormatInt n ++ [u]) = Some (n, unit).
Proof.
  intros Hn Hu Hd. rewrite FormatInt_nonneg by lia. unfold DecodeTimeout.
  destruct (digits_spec n) as (Hne & Hds & Hv & _); [lia|].
  rewrite span_digits_app; [|done|by intros b r [= <- <-]]. rewrite Hu. cbn [mbind option_bind].
  pose proof (digits_short n 8). change (10 ^ 8) with 100000000 in *. unfold maxTimeoutValue in Hn.
  rewrite (proj2 (Z.leb_le _ 8)) by lia. rewrite (proj2 (Z.leb_le 1 _)).
  - by rewrite Hv.
  - destruct (digits n) as [|b bs]; [done|]. rewrite zlen_cons. pose proof (zlen_nonneg bs). lia.
Qed.

(** C40: The timeout sent is one the protocol can read, of at most eight digits, never
    shorter than the one asked for, and longer by less than one unit; the unit
    is coarser than a nanosecond only when a finer one does not fit. *)
Theorem timeout_rounds_up (t : Z) : 0 < t < 2 ^ 63 →
  ∃ n unit, DecodeTimeout (EncodeDuration t) = Some (n, unit) ∧ 0 < n <= maxTimeoutValue ∧
    t <= n * unit < t + unit ∧
    (unit = Nanosecond ∨ ∃ finer, finer < unit ∧ unit <= 1000 * finer ∧ maxTimeoutValue * finer < t).
Proof.
  intros Ht. unfold EncodeDuration. rewrite (proj2 (Z.leb_gt t 0)) by lia.
  assert (Hup : ∀ r, 0 < r → div t r * r - r < t <= div t r * r) by (intros r ?; apply div_up; lia).
  assert (Hfit : ∀ r u, 0 < r → div t r <= maxTimeoutValue → timeout_unit u = Some r → ¬ is_digit u →
    (r = Nanosecond ∨ ∃ finer, finer < r ∧ r <= 1000 * finer ∧ maxTimeoutValue * finer < t) →
    ∃ n unit, DecodeTimeout (FormatInt (div t r) ++ [u]) = Some (n, unit) ∧ 0 < n <= maxTimeoutValue ∧
      t <= n * unit < t + unit ∧ (unit = Nanosecond ∨ ∃ finer, finer < unit ∧ unit <= 1000 * finer ∧ maxTimeoutValue * finer < t)).
  { intros r u Hr Hd Hu Hn Hfin. exists (div t r), r. specialize (Hup r Hr).
    assert (0 < div t r) by nia. rewrite (decode_digits _ _ r) by (done || lia). split_and!; done || lia. }
  assert (Hbig : ∀ r, 0 < r → maxTimeoutValue < div t r → maxTimeoutValue * r < t)
    by (intros r Hr Hd; specialize (Hup r Hr); nia).
  unfold is_digit in Hfit.
  destruct (Z.leb_spec (div t Nanosecond) maxTimeoutValue) as [H1|H1]; [apply Hfit; [reflexivity|done|reflexivity|cbv; intros [H01 H02]; congruence|by left]|].
  destruct (Z.leb_spec (div t Microsecond) maxTimeoutValue) as [H2|H2];
    [apply Hfit; [reflexivity|done|reflexivity|cbv; intros [H01 H02]; congruence|right; exists Nanosecond; split_and!; [done|done|by apply Hbig]]|].
  destruct (Z.leb_spec (div t Millisecond) maxTimeoutValue) as [H3|H3];
    [apply Hfit; [reflexivity|done|reflexivity|cbv; intros [H01 H02]; congruence|right; exists Microsecond; split_and!; [done|done|by apply Hbig]]|].
  destruct (Z.leb_spec (div t Second) maxTimeoutValue) as [H4|H4];
    [apply Hfit; [reflexivity|done|reflexivity|cbv; intros [H01 H02]; congruence|right; exists Millisecond; split_and!; [done|done|by apply Hbig]]|].
  destruct (Z.leb_spec (div t Minute) maxTimeoutValue) as [H5|H5];
    [apply Hfit; [reflexivity|done|reflexivity|cbv; intros [H01 H02]; congruence|right; exists Second; split_and!; [done|done|by apply Hbig]]|].
  apply Hfit; [reflexivity| |reflexivity|cbv; intros [H01 H02]; congruence|right; exists Minute; split_and!; [done|done|by apply Hbig]].
  specialize (Hup Hour eq_refl). unfold maxTimeoutValue, Hour, Minute, Second, Millisecond, Microsecond, Nanosecond in *. lia.
Qed.

Theorem timeout_rounds_up_witness :
  EncodeDuration 123456789 = str "123457u" ∧
  ∃ n unit, DecodeTimeout (EncodeDuration 123456789) = Some (n, unit) ∧ 0 < n <= maxTimeoutValue ∧
    123456789 <= n * unit < 123456789 + unit ∧
    (unit = Nanosecond ∨ ∃ finer, finer < unit ∧ unit <= 1000 * finer ∧ maxTimeoutValue * finer < 123456789).
Proof. split; [reflexivity|]. apply timeout_rounds_up. split; reflexivity. Defined.
