(* ===== verification/Request.v ===== *)
(** * Request: from a request record to HTTP/2 frames

    Models src/datasource/request.go and src/datasource/meta_middleware.go, with
    the data record of src/datasource/decoder/model.go and the field writer of
    src/utils/hpack_wrapper/wrapper.go. *)

From S2P Require Import Prelude FrameHeader Types Framer Duration.

(** ** The HPACK encoder (golang.org/x/net/http2/hpack)

    Third-party: a parameter. [write_field k v w] gives the bytes it appends to
    the header block and the encoder (its dynamic table) after that. *)
Class FieldWriter (W : Type) := { write_field : bytes → bytes → W → bytes * W }.

(** ** decoder.Data *)
Record Meta := mkMeta { Name : bytes; Value : bytes }.
Record Data := mkReqData { d_Tag : bytes; d_Method : bytes; d_Metadata : list Meta; d_Message : bytes }.

Definition Data_Reset (d : Data) : Data := mkReqData [] [] [] [].

(** ** MetaMiddleware

    What a middleware does to a request: which metadata it lets through, and
    the fields it writes, in order. *)
Record MetaMiddleware := mkMiddleware { IsAllowed : bytes → bool; WriteAdditional : list (bytes * bytes) }.

Definition noopMiddleware : MetaMiddleware := mkMiddleware (λ _, true) [].

Record defaultMiddleware := mkDefault {
  staticPseudo : list bytes; staticRegular : list bytes; next : MetaMiddleware }.

(** [strings.HasPrefix(k, ":")]; [58] is a colon. *)
Definition pseudo (k : bytes) : bool := match k with c :: _ => c =? 58 | [] => false end.

(** The loop over the additional headers; an odd one out is an index out of
    range. *)
Fixpoint add_headers (additional : list bytes) (m : defaultMiddleware) : option defaultMiddleware :=
  match additional with
  | [] => Some m
  | [_] => None
  | k :: v :: rest =>
      add_headers rest
        (if pseudo k then mkDefault (staticPseudo m ++ [k; v]) (staticRegular m) (next m)
         else mkDefault (staticPseudo m) (staticRegular m ++ [k; v]) (next m))
  end.

(** [newDefaultMiddleware]: the middleware passed as [next] is not the one stored. *)
Definition newDefaultMiddleware (next : MetaMiddleware) (additional : list bytes) : option defaultMiddleware :=
  add_headers additional
    (mkDefault [str ":method"; str "POST"; str ":scheme"; str "http"]
               [str "content-type"; str "application/grpc"; str "te"; str "trailers"]
               noopMiddleware).

Definition default_IsAllowed (m : defaultMiddleware) (k : bytes) : bool :=
  match k with
  | [] => false
  | c :: _ =>
      if c =? 58 then false
      else if decide (k = str "content-type" ∨ k = str "te" ∨ k = str "grpc-timeout") then false
      else IsAllowed (next m) k
  end.

(** The loops [for i := 0; i < len(s); i += 2]. *)
Fixpoint field_pairs (s : list bytes) : option (list (bytes * bytes)) :=
  match s with
  | [] => Some []
  | [_] => None
  | k :: v :: s => ps ← field_pairs s; Some ((k, v) :: ps)
  end.

Definition default_WriteAdditional (m : defaultMiddleware) : option (list (bytes * bytes)) :=
  ps ← field_pairs (staticPseudo m);
  rs ← field_pairs (staticRegular m);
  Some (ps ++ WriteAdditional (next m) ++ rs).

(** ** Options *)
Record config := mkConfig { additionalHeaders : list bytes; cfg_metaMiddleware : MetaMiddleware }.

Inductive Option_ :=
| WithAdditionalHeader (k v : bytes)
| WithAdditionalHeaders (headers : list bytes)
| WithTimeout (t : Z)
| WithMetaMiddleware (mw : MetaMiddleware).

Definition apply_option (c : config) (o : Option_) : config :=
  match o with
  | WithAdditionalHeader k v => mkConfig (additionalHeaders c ++ [k; v]) (cfg_metaMiddleware c)
  | WithAdditionalHeaders headers => mkConfig (additionalHeaders c ++ headers) (cfg_metaMiddleware c)
  | WithTimeout t => mkConfig (additionalHeaders c ++ [str "grpc-timeout"; EncodeDuration t]) (cfg_metaMiddleware c)
  | WithMetaMiddleware mw => mkConfig (additionalHeaders c) mw
  end.

(** [NewRequestAdapterFactory]. *)
Definition NewRequestAdapterFactory (ops : list Option_) : option defaultMiddleware :=
  let c := foldl apply_option (mkConfig [] noopMiddleware) ops in
  newDefaultMiddleware (cfg_metaMiddleware c) (additionalHeaders c).

(** ** The buffer of frame headers

    A byte array handed out nine bytes at a time. [Reset] keeps the array, so a
    header taken from it later holds what an earlier request wrote there. *)
Record frameHeaders := mkFrameHeaders { fh_array : bytes; fh_len : nat }.

Definition newFrameHeaders : frameHeaders := mkFrameHeaders (replicate 27 0) 0.
Definition fh_Reset (f : frameHeaders) : frameHeaders := mkFrameHeaders (fh_array f) 0.

Definition fh_Get (f : frameHeaders) : bytes * frameHeaders :=
  let l := fh_len f in
  let array := if (length (fh_array f) <? l + 9)%nat then take l (fh_array f) ++ replicate 9 0 else fh_array f in
  (take 9 (drop l array), mkFrameHeaders array (l + 9)).

(** Writing through the slice handed out last. *)
Definition fh_write (h : bytes) (f : frameHeaders) : frameHeaders :=
  let l := (fh_len f - 9)%nat in
  mkFrameHeaders (take l (fh_array f) ++ h ++ drop (l + 9) (fh_array f)) (fh_len f).

(** ** RequestAdapter *)
Record RequestAdapter := mkAdapter {
  metaMiddleware : defaultMiddleware;
  size : Z;
  frameHeaders_ : frameHeaders;
  payloadPrefix : bytes;
  frames : list Frame;
  headersBuf : bytes;
  data : Data }.

Inductive ReqError := ErrHeaderListSize (size limit : Z).

Section adapter.
Context {W : Type} `{!FieldWriter W}.

(** The adapter and the connection's encoder. *)
Definition RM (A : Type) : Type := GM (RequestAdapter * W) Empty_set A.

Definition get_adapter : RM RequestAdapter := λ s, (Ret s.1, s).
Definition put_adapter (a : RequestAdapter) : RM unit := λ s, (Ret tt, (a, s.2)).

Definition set_size n a := mkAdapter (metaMiddleware a) n (frameHeaders_ a) (payloadPrefix a) (frames a) (headersBuf a) (data a).
Definition set_frameHeaders f a := mkAdapter (metaMiddleware a) (size a) f (payloadPrefix a) (frames a) (headersBuf a) (data a).
Definition set_payloadPrefix p a := mkAdapter (metaMiddleware a) (size a) (frameHeaders_ a) p (frames a) (headersBuf a) (data a).
Definition set_frames fs a := mkAdapter (metaMiddleware a) (size a) (frameHeaders_ a) (payloadPrefix a) fs (headersBuf a) (data a).
Definition set_headersBuf b a := mkAdapter (metaMiddleware a) (size a) (frameHeaders_ a) (payloadPrefix a) (frames a) b (data a).

Definition modify_adapter (f : RequestAdapter → RequestAdapter) : RM unit := λ s, (Ret tt, (f s.1, s.2)).

(** [hpack.WriteField], into the adapter's buffer. *)
Definition WriteField (k v : bytes) : RM unit := λ s,
  let '(b, w) := write_field k v s.2 in (Ret tt, (set_headersBuf (headersBuf s.1 ++ b) s.1, w)).

Fixpoint WriteFields (fs : list (bytes * bytes)) : RM unit :=
  match fs with
  | [] => mret tt
  | f :: fs => WriteField f.1 f.2;; WriteFields fs
  end.

(** The loop over the metadata: the sizes it adds and the fields it writes. *)
Fixpoint write_metadata (ms : list Meta) (headerListSize : Z) : RM Z :=
  match ms with
  | [] => mret headerListSize
  | m :: ms =>
      a ← get_adapter;
      if default_IsAllowed (metaMiddleware a) (Name m) then
        WriteField (Name m) (Value m);;
        write_metadata ms (headerListSize + (zlen (Name m) + zlen (Value m)))
      else write_metadata ms headerListSize
  end.

(** [a.frameHeaders.Get()] and the writes through the result. *)
Definition newHeader (fill : bytes → option bytes) : RM bytes :=
  a ← get_adapter;
  let '(h, f) := fh_Get (frameHeaders_ a) in
  put_adapter (set_frameHeaders f a);;
  h' ← gm_index (fill h);
  modify_adapter (λ a, set_frameHeaders (fh_write h' (frameHeaders_ a)) a);;
  mret h'.

(** [headersBuf.Next(n)]. *)
Definition headersBuf_Next (n : Z) : RM bytes :=
  a ← get_adapter;
  b ← gm_index (slice_to (Z.min n (zlen (headersBuf a))) (headersBuf a));
  put_adapter (set_headersBuf (drop (length b) (headersBuf a)) a);;
  mret b.

Fixpoint headers_loop (fuel : nat) (maxFramePayloadLen streamID : Z) : RM unit :=
  match fuel with
  | O => gm_diverged
  | S fuel =>
      b ← headersBuf_Next maxFramePayloadLen;
      let bLen := zlen b in
      let endHeaders := bLen <? maxFramePayloadLen in
      a ← get_adapter;
      let t := if decide (frames a = []) then FrameHeaders else FrameContinuation in
      let flags := if endHeaders then FlagHeadersEndHeaders else 0 in
      h ← newHeader (λ h, ((SetLength bLen h ≫= SetType t) ≫= SetFlags flags) ≫= SetStreamID streamID);
      modify_adapter (λ a, set_size (size a + (9 + bLen)) (set_frames (frames a ++ [mkFrame [h; b] 0]) a));;
      if bLen <? maxFramePayloadLen then mret tt else headers_loop fuel maxFramePayloadLen streamID
  end.

(** [setUpHeaders]; the error is a result, the caller goes on after it. *)
Definition setUpHeaders (maxFramePayloadLen maxHeaderListSize streamID : Z) : RM (option ReqError) :=
  modify_adapter (set_size 0);;
  a ← get_adapter;
  let d := data a in
  WriteField (str ":path") (d_Method d);;
  additional ← gm_index (default_WriteAdditional (metaMiddleware a));
  WriteFields additional;;
  headerListSize ← write_metadata (d_Metadata d) (zlen (str ":path") + zlen (d_Method d));
  if maxHeaderListSize <? headerListSize then mret (Some (ErrHeaderListSize headerListSize maxHeaderListSize))
  else
    a ← get_adapter;
    headers_loop (S (length (headersBuf a))) maxFramePayloadLen streamID;;
    mret None.

Definition prefix_bytes (plLen : Z) : bytes :=
  [u8 (Z.shiftr plLen 24); u8 (Z.shiftr plLen 16); u8 (Z.shiftr plLen 8); u8 plLen].

Fixpoint payload_loop (fuel : nat) (maxFramePayloadLen streamID : Z) (pl : bytes) : RM unit :=
  match fuel with
  | O => gm_diverged
  | S fuel =>
      let bLen := Z.min (zlen pl) maxFramePayloadLen in
      b ← gm_index (slice_to bLen pl);
      pl ← gm_index (slice_from bLen pl);
      let flags := if bLen <? maxFramePayloadLen then FlagDataEndStream else 0 in
      h ← newHeader (λ h, Fill h bLen FrameData flags streamID);
      modify_adapter (λ a, set_size (size a + (9 + bLen))
        (set_frames (frames a ++ [mkFrame [h; payloadPrefix a; b] (u32 bLen)]) a));;
      if zlen pl =? 0 then mret tt else payload_loop fuel maxFramePayloadLen streamID pl
  end.

Definition setUpPayload (maxFramePayloadLen streamID : Z) : RM unit :=
  a ← get_adapter;
  let pl := d_Message (data a) in
  modify_adapter (λ a, set_payloadPrefix (take 1 (payloadPrefix a) ++ prefix_bytes (zlen pl)) a);;
  let bLen := Z.min (zlen pl) (maxFramePayloadLen - 5) in
  b ← gm_index (slice_to bLen pl);
  pl ← gm_index (slice_from bLen pl);
  let framePayloadLen := bLen + 5 in
  let flags := if zlen pl =? 0 then FlagDataEndStream else 0 in
  h ← newHeader (λ h, Fill h framePayloadLen FrameData flags streamID);
  modify_adapter (λ a, set_size (size a + (9 + 5 + bLen))
    (set_frames (frames a ++ [mkFrame [h; payloadPrefix a; b] (u32 framePayloadLen)]) a));;
  if zlen pl =? 0 then mret tt else payload_loop (S (length pl)) maxFramePayloadLen streamID pl.

Definition SetUp (maxFramePayloadLen maxHeaderListSize streamID : Z) : RM (list Frame * option ReqError) :=
  modify_adapter (λ a, set_frames [] (set_frameHeaders (fh_Reset (frameHeaders_ a)) (set_headersBuf [] a)));;
  err ← setUpHeaders maxFramePayloadLen maxHeaderListSize streamID;
  setUpPayload maxFramePayloadLen streamID;;
  a ← get_adapter;
  mret (frames a, err).
End adapter.

(** [NewRequestAdapter], [setData]. *)
Definition NewRequestAdapter (m : defaultMiddleware) : RequestAdapter :=
  mkAdapter m 0 newFrameHeaders [0; 0; 0; 0; 0] [mkFrame [] 0; mkFrame [] 0] [] (mkReqData [] [] [] []).
Definition setData (d : Data) (a : RequestAdapter) : RequestAdapter :=
  mkAdapter (metaMiddleware a) (size a) (frameHeaders_ a) (payloadPrefix a) (frames a) (headersBuf a) d.
Definition FullMethodName (a : RequestAdapter) : bytes := d_Method (data a).
Definition Tag (a : RequestAdapter) : bytes := d_Tag (data a).
Definition Size (a : RequestAdapter) : Z := size a.

(** ** What a request looks like on the wire *)

(** A byte string in pieces of [n], the last one shorter, possibly empty: the
    pieces of a header block. *)
Fixpoint cut_ (fuel : nat) (n : Z) (b : bytes) : list bytes :=
  match fuel with
  | O => []
  | S fuel => if zlen b <? n then [b] else take (Z.to_nat n) b :: cut_ fuel n (drop (Z.to_nat n) b)
  end.
Definition cut (n : Z) (b : bytes) : list bytes := cut_ (S (length b)) n b.

Lemma cut_fuel f1 f2 n b : 0 < n → (length b < f1)%nat → (length b < f2)%nat → cut_ f1 n b = cut_ f2 n b.
Proof.
  intros Hn. revert f2 b. induction f1 as [|f1 IH]; intros [|f2] b H1 H2; [lia..|]. cbn.
  destruct (Z.ltb_spec (zlen b) n); [done|]. f_equal. apply IH; solve_len.
Qed.

Lemma cut_step n b : 0 < n → cut n b =
  if zlen b <? n then [b] else take (Z.to_nat n) b :: cut n (drop (Z.to_nat n) b).
Proof.
  intros Hn. unfold cut at 1. cbn [cut_]. destruct (Z.ltb_spec (zlen b) n); [done|]. f_equal.
  apply cut_fuel; solve_len.
Qed.

(** Induction on the number of pieces. *)
Lemma cut_ind n : 0 < n → ∀ P : bytes → Prop,
  (∀ b, zlen b < n → P b) → (∀ b, n <= zlen b → P (drop (Z.to_nat n) b) → P b) → ∀ b, P b.
Proof.
  intros Hn P H1 H2 b. remember (length b) as k eqn:Hk. revert b Hk.
  induction (lt_wf k) as [k _ IH]. intros b ->. destruct (Z.lt_ge_cases (zlen b) n); [by apply H1|].
  apply H2; [done|]. apply (IH (length (drop (Z.to_nat n) b))); [|done]. solve_len.
Qed.

Lemma cut_concat n b : 0 < n → concat (cut n b) = b.
Proof.
  intros Hn. induction b as [b Hb|b Hb IH] using (cut_ind n Hn); rewrite cut_step by done.
  - rewrite (proj2 (Z.ltb_lt _ _)) by done. cbn. by rewrite app_nil_r.
  - rewrite (proj2 (Z.ltb_ge _ _)) by done. cbn [concat]. by rewrite IH, take_drop.
Qed.

Lemma cut_short n b : 0 < n → Forall (λ p, zlen p <= n) (cut n b).
Proof.
  intros Hn. induction b as [b Hb|b Hb IH] using (cut_ind n Hn); rewrite cut_step by done.
  - rewrite (proj2 (Z.ltb_lt _ _)) by done. apply Forall_singleton. lia.
  - rewrite (proj2 (Z.ltb_ge _ _)) by done. apply Forall_cons. split; [solve_len|done].
Qed.

(** The frames of a header block: HEADERS first, then CONTINUATION, the last one
    flagged as the end. *)
Definition block_frame (n id : Z) (first : bool) (p : bytes) : frame :=
  mk_frame (if first then FrameHeaders else FrameContinuation)
    (if zlen p <? n then FlagHeadersEndHeaders else 0) id p.
Definition block_frames (n id : Z) (first : bool) (b : bytes) : list frame :=
  match cut n b with
  | [] => []
  | p :: ps => block_frame n id first p :: (block_frame n id false <$> ps)
  end.

Lemma block_frames_step n id first b : 0 < n → block_frames n id first b =
  if zlen b <? n then [block_frame n id first b]
  else block_frame n id first (take (Z.to_nat n) b) :: block_frames n id false (drop (Z.to_nat n) b).
Proof.
  intros Hn. unfold block_frames. rewrite cut_step by done.
  destruct (Z.ltb_spec (zlen b) n); [done|]. f_equal. rewrite (cut_step n (drop _ _)) by done.
  by destruct (zlen (drop (Z.to_nat n) b) <? n).
Qed.

Lemma block_frames_payloads n id first b : 0 < n → concat (block_frames n id first b).*2 = b.
Proof.
  intros Hn. rewrite <-(cut_concat n b Hn) at 2. unfold block_frames. destruct (cut n b) as [|p ps]; [done|].
  cbn. f_equal. f_equal. induction ps as [|q ps IH]; [done|]. cbn. by rewrite IH.
Qed.

Lemma block_frames_wf n id first b : 0 < n < 2 ^ 24 → Forall frame_wf (block_frames n id first b).
Proof.
  intros Hn. pose proof (cut_short n b ltac:(lia)) as Hs. unfold block_frames. destruct Hs as [|p ps Hp Hps]; [by apply Forall_nil_2|].
  cbn beta in Hp. apply Forall_cons. split; [apply mk_frame_wf; lia|]. apply Forall_fmap. eapply Forall_impl; [exact Hps|].
  intros q Hq. cbn beta in Hq. apply mk_frame_wf. cbn. lia.
Qed.

(** A wire frame as the adapter stores it. *)
Definition as_Frame (f : frame) : Frame := mkFrame [f.1; f.2] 0.

(** The bytes of the frames, as the sender writes their chunks. *)
Definition wire (fs : list Frame) : bytes := concat (concat (Chunks <$> fs)).

Lemma wire_app fs gs : wire (fs ++ gs) = wire fs ++ wire gs.
Proof. unfold wire. by rewrite fmap_app, !concat_app. Qed.

Lemma wire_as_Frame fs : wire (as_Frame <$> fs) = encode_frames fs.
Proof.
  unfold wire, encode_frames. induction fs as [|f fs IH]; [done|]. cbn. rewrite IH. by rewrite <-app_assoc.
Qed.

(** ** Running the adapter *)
Section runs.
Context {W : Type} `{!FieldWriter W}.
Implicit Types a : RequestAdapter.

Definition fh_ok (f : frameHeaders) : Prop := (fh_len f <= length (fh_array f))%nat.

(** Nine bytes are handed out, whatever they hold, and filled completely. *)
Lemma newHeader_run fill hb a (w : W) :
  fh_ok (frameHeaders_ a) → (∀ h, length h = 9%nat → fill h = Some hb) → length hb = 9%nat →
  ∃ f, fh_ok f ∧ newHeader fill (a, w) = (Ret hb, (set_frameHeaders f a, w)).
Proof.
  unfold fh_ok. intros Hok Hfill Hlen. unfold newHeader, get_adapter, put_adapter, modify_adapter.
  unfold mbind, gm_bind. cbn [fst snd]. destruct (fh_Get (frameHeaders_ a)) as [h f] eqn:E.
  unfold fh_Get in E. injection E as Eh Ef.
  assert ((fh_len (frameHeaders_ a) + 9 <= length (fh_array f))%nat ∧ (length h = 9)%nat) as [Harr Hh].
  { subst h f. cbn [fh_array].
    destruct (Nat.ltb_spec (length (fh_array (frameHeaders_ a))) (fh_len (frameHeaders_ a) + 9));
      autorewrite with lens; cbn [length]; lia. }
  rewrite Hfill by done. cbn [gm_index mret gm_ret fst snd].
  exists (fh_write hb f). split; [|by destruct a]. unfold fh_write. cbn [fh_len fh_array].
  assert (Hl : (fh_len f = fh_len (frameHeaders_ a) + 9)%nat) by (by subst f). autorewrite with lens. lia.
Qed.

(** The block the encoder writes for a list of fields, and the encoder after it. *)
Fixpoint encode_fields (fs : list (bytes * bytes)) (w : W) : bytes * W :=
  match fs with
  | [] => ([], w)
  | f :: fs =>
      let '(b, w) := write_field f.1 f.2 w in
      let '(bs, w) := encode_fields fs w in (b ++ bs, w)
  end.

Lemma encode_fields_app fs gs (w : W) : encode_fields (fs ++ gs) w =
  let '(b, w) := encode_fields fs w in let '(c, w) := encode_fields gs w in (b ++ c, w).
Proof.
  revert w. induction fs as [|f fs IH]; intros w; cbn.
  - by destruct (encode_fields gs w).
  - destruct (write_field f.1 f.2 w) as [b w1]. rewrite IH.
    destruct (encode_fields fs w1) as [bs w2], (encode_fields gs w2). by rewrite app_assoc.
Qed.

Lemma WriteFields_run fs a (w : W) :
  WriteFields fs (a, w) =
    (Ret tt, (set_headersBuf (headersBuf a ++ (encode_fields fs w).1) a, (encode_fields fs w).2)).
Proof.
  revert a w. induction fs as [|f fs IH]; intros a w; cbn [WriteFields encode_fields].
  - cbn. rewrite app_nil_r. by destruct a.
  - unfold mbind, gm_bind, WriteField. cbn [fst snd]. destruct (write_field f.1 f.2 w) as [b w1].
    rewrite IH. destruct (encode_fields fs w1) as [bs w2]. cbn. by rewrite app_assoc.
Qed.

(** The metadata that passes the filter. *)
Definition allowed_fields (m : defaultMiddleware) (ms : list Meta) : list (bytes * bytes) :=
  (λ x, (Name x, Value x)) <$> base.filter (λ x, default_IsAllowed m (Name x) = true) ms.
Definition fields_size (fs : list (bytes * bytes)) : Z := zsum ((λ f, zlen f.1 + zlen f.2) <$> fs).

Lemma write_metadata_run ms n a (w : W) :
  let fs := allowed_fields (metaMiddleware a) ms in
  write_metadata ms n (a, w) = (Ret (n + fields_size fs),
    (set_headersBuf (headersBuf a ++ (encode_fields fs w).1) a, (encode_fields fs w).2)).
Proof.
  cbn zeta. revert n a w. induction ms as [|m ms IH]; intros n a w; cbn [write_metadata].
  - cbn. rewrite app_nil_r. change (fields_size []) with 0. rewrite Z.add_0_r. by destruct a.
  - unfold mbind at 1, gm_bind at 1, get_adapter. cbn [fst]. unfold allowed_fields. rewrite filter_cons.
    destruct (default_IsAllowed (metaMiddleware a) (Name m)) eqn:E.
    + rewrite decide_True by done. cbn [fmap list_fmap encode_fields fst snd].
      unfold mbind, gm_bind, WriteField. cbn [fst snd].
      destruct (write_field (Name m) (Value m) w) as [b w1]. rewrite IH. cbn [metaMiddleware set_headersBuf headersBuf].
      unfold allowed_fields. destruct (encode_fields _ w1) as [bs w2]. cbn. rewrite <-app_assoc. do 2 f_equal.
      unfold fields_size. cbn. unfold zsum. lia.
    + rewrite decide_False by done. by rewrite IH.
Qed.

Lemma headersBuf_Next_run n a (w : W) : 0 <= n →
  headersBuf_Next n (a, w) = (Ret (take (Z.to_nat n) (headersBuf a)),
    (set_headersBuf (drop (Z.to_nat n) (headersBuf a)) a, w)).
Proof.
  intros Hn. unfold headersBuf_Next, get_adapter, put_adapter, mbind, gm_bind. cbn [fst snd].
  pose proof (zlen_nonneg (headersBuf a)). rewrite slice_to_Some by lia. cbn [gm_index mret gm_ret].
  assert (take (Z.to_nat (Z.min n (zlen (headersBuf a)))) (headersBuf a) = take (Z.to_nat n) (headersBuf a)) as ->.
  { destruct (Z.le_gt_cases n (zlen (headersBuf a))); [by rewrite Z.min_l by lia|].
    rewrite Z.min_r by lia. rewrite !take_ge; [done|solve_len..]. }
  do 3 f_equal. rewrite length_take. destruct (Nat.le_gt_cases (Z.to_nat n) (length (headersBuf a))).
  - by rewrite Nat.min_l by lia.
  - rewrite Nat.min_r by lia. rewrite !drop_ge; [done|lia..].
Qed.

(** How many bytes the frames take. *)
Definition frames_size (fs : list frame) : Z := zsum ((λ f, 9 + zlen f.2) <$> fs).

Lemma frames_size_cons f fs : frames_size (f :: fs) = 9 + zlen f.2 + frames_size fs.
Proof. done. Qed.

(** The adapter after its frames [fs] have been added and its block consumed. *)
Definition extended a (f : frameHeaders) (fs : list frame) (rest : bytes) : RequestAdapter :=
  mkAdapter (metaMiddleware a) (size a + frames_size fs) f (payloadPrefix a)
    (frames a ++ (as_Frame <$> fs)) rest (data a).

Lemma headers_loop_run fuel n id : 0 < n → ∀ a (w : W),
  (length (headersBuf a) < fuel)%nat → fh_ok (frameHeaders_ a) →
  ∃ f, fh_ok f ∧ headers_loop fuel n id (a, w) =
    (Ret tt, (extended a f (block_frames n id (bool_decide (frames a = [])) (headersBuf a)) [], w)).
Proof.
  intros Hn. induction fuel as [|fuel IH]; intros a w Hf Hok; [lia|]. cbn [headers_loop].
  rewrite (bind_run _ _ _ _ _ (headersBuf_Next_run n a w ltac:(lia))). cbn zeta.
  set (b := take (Z.to_nat n) (headersBuf a)). set (a1 := set_headersBuf (drop (Z.to_nat n) (headersBuf a)) a).
  unfold mbind at 1, gm_bind at 1, get_adapter. cbn [fst].
  rewrite block_frames_step by done.
  assert (Hfirst : ∀ t1 t2 : Z, (if decide (frames a1 = []) then t1 else t2) = (if bool_decide (frames a = []) then t1 else t2))
    by (intros; change (frames a1) with (frames a); case_bool_decide; by case_decide).
  rewrite Hfirst.
  assert (b = headersBuf a ∧ zlen b < n ∧ zlen (headersBuf a) < n ∨ zlen b = n ∧ n <= zlen (headersBuf a)) as Hb.
  { subst b. destruct (Z.lt_ge_cases (zlen (headersBuf a)) n).
    - left. rewrite take_ge by solve_len. done.
    - right. split; [solve_len|done]. }
  destruct (newHeader_run
    (λ h, ((SetLength (zlen b) h ≫= SetType (if bool_decide (frames a = []) then FrameHeaders else FrameContinuation))
      ≫= SetFlags (if zlen b <? n then FlagHeadersEndHeaders else 0)) ≫= SetStreamID id)
    (block_frame n id (bool_decide (frames a = [])) b).1 a1 w Hok) as (f & Hfok & Hrun);
    [intros h Hh; by apply setters_spec|done|].
  rewrite (bind_run _ _ _ _ _ Hrun). unfold mbind, gm_bind, modify_adapter. cbn [fst snd].
  set (a2 := set_size _ _).
  assert (a2 = extended a f [block_frame n id (bool_decide (frames a = [])) b] (drop (Z.to_nat n) (headersBuf a))) as E.
  { subst a2. unfold extended, frames_size. cbn. unfold zsum. cbn. by rewrite Z.add_0_r. }
  clearbody a2. subst a2.
  destruct Hb as [(Hb & Hlt & Hlt')|[Hb Hge]].
  - rewrite (proj2 (Z.ltb_lt (zlen b) n)), (proj2 (Z.ltb_lt (zlen (headersBuf a)) n)) by done.
    exists f. split; [done|]. rewrite drop_ge by solve_len. by rewrite Hb.
  - rewrite (proj2 (Z.ltb_ge (zlen b) n)), (proj2 (Z.ltb_ge (zlen (headersBuf a)) n)) by lia.
    edestruct (IH (extended a f [block_frame n id (bool_decide (frames a = [])) b] (drop (Z.to_nat n) (headersBuf a))) w)
      as (f' & Hf' & ->); [cbn; solve_len|done|].
    exists f'. split; [done|]. unfold extended. cbn [frames headersBuf].
    rewrite (bool_decide_false (frames a ++ _ = [])) by (intros H; apply app_eq_nil in H as [_ [=]]).
    cbn [metaMiddleware size payloadPrefix data fmap list_fmap]. rewrite !frames_size_cons. change (frames_size []) with 0.
    rewrite <-app_assoc. do 3 f_equal. fold b. lia.
Qed.

(** ** Whole requests *)

(** The fields of a request, in the order they are written, and their size as
    the code counts it. *)
Definition request_fields (additional : list (bytes * bytes)) a : list (bytes * bytes) :=
  (str ":path", d_Method (data a)) :: additional ++ allowed_fields (metaMiddleware a) (d_Metadata (data a)).
Definition headerListSize a : Z :=
  zlen (str ":path") + zlen (d_Method (data a)) + fields_size (allowed_fields (metaMiddleware a) (d_Metadata (data a))).

Definition request_block (additional : list (bytes * bytes)) a (w : W) : bytes * W :=
  encode_fields (request_fields additional a) w.

(** Everything up to the size check. *)
Lemma setUpHeaders_fields n limit id additional a (w : W) :
  headersBuf a = [] → default_WriteAdditional (metaMiddleware a) = Some additional →
  let s := (set_headersBuf (request_block additional a w).1 (set_size 0 a), (request_block additional a w).2) in
  setUpHeaders n limit id (a, w) =
    if limit <? headerListSize a then (Ret (Some (ErrHeaderListSize (headerListSize a) limit)), s)
    else (headers_loop (S (length (headersBuf s.1))) n id;; mret None) s.
Proof.
  intros Hbuf Hadd. cbn zeta. unfold setUpHeaders. run_step. run_step. cbn zeta. cbn [fst data set_size].
  unfold WriteField at 1. unfold mbind at 1, gm_bind at 1. cbn [fst snd].
  unfold request_block, request_fields. cbn [encode_fields fst snd].
  destruct (write_field (str ":path") (d_Method (data a)) w) as [b0 w0].
  cbn [metaMiddleware set_size set_headersBuf]. rewrite Hadd. cbn [gm_index]. run_step.
  run_with WriteFields_run. rewrite (encode_fields_app additional).
  destruct (encode_fields additional w0) as [b1 w1]. cbn [fst snd].
  run_with write_metadata_run. cbn [metaMiddleware set_headersBuf set_size headersBuf].
  rewrite Hbuf. cbn [app]. change (zlen (str ":path") + zlen (d_Method (data a)) +
    fields_size (allowed_fields (metaMiddleware a) (d_Metadata (data a)))) with (headerListSize a).
  destruct (encode_fields (allowed_fields (metaMiddleware a) (d_Metadata (data a))) w1) as [b2 w2].
  cbn [fst snd headersBuf set_headersBuf]. rewrite <-app_assoc.
  destruct (limit <? headerListSize a); [done|]. by run_step.
Qed.

Lemma setUpHeaders_run n limit id additional a (w : W) :
  0 < n → fh_ok (frameHeaders_ a) → frames a = [] → headersBuf a = [] →
  default_WriteAdditional (metaMiddleware a) = Some additional → headerListSize a <= limit →
  ∃ f, fh_ok f ∧ setUpHeaders n limit id (a, w) =
    (Ret None, (extended (set_size 0 a) f (block_frames n id true (request_block additional a w).1) [],
                (request_block additional a w).2)).
Proof.
  intros Hn Hok Hfr Hbuf Hadd Hlim. rewrite (setUpHeaders_fields n limit id additional) by done. cbn zeta.
  rewrite (proj2 (Z.ltb_ge _ _)) by done. set (a' := set_headersBuf _ _).
  destruct (headers_loop_run (S (length (headersBuf a'))) n id Hn a' (request_block additional a w).2)
    as (f & Hf & Hrun); [lia|done|].
  exists f. split; [done|]. cbn [fst]. run_with Hrun.
  subst a'. cbn [headersBuf set_headersBuf frames set_size]. by rewrite Hfr.
Qed.

(** *** The message *)

(** The DATA frames after the first: the declared length is that of the piece,
    the chunks are the prefix once more and the piece. *)
Definition more_data (n id : Z) (prefix p : bytes) : Frame :=
  mkFrame [header_bytes (zlen p) FrameData (if zlen p <? n then FlagDataEndStream else 0) id; prefix; p] (u32 (zlen p)).

(** The pieces: no empty one at the end. *)
Fixpoint pieces_ (fuel : nat) (n : Z) (b : bytes) : list bytes :=
  match fuel with
  | O => []
  | S fuel => if zlen b <=? n then [b] else take (Z.to_nat n) b :: pieces_ fuel n (drop (Z.to_nat n) b)
  end.

Lemma payload_loop_run fuel n id : 0 < n → ∀ pl a (w : W), (length pl < fuel)%nat → fh_ok (frameHeaders_ a) →
  ∃ f, fh_ok f ∧ payload_loop fuel n id pl (a, w) =
    (Ret tt, (mkAdapter (metaMiddleware a) (size a + zsum ((λ p, 9 + zlen p) <$> pieces_ fuel n pl)) f
       (payloadPrefix a) (frames a ++ (more_data n id (payloadPrefix a) <$> pieces_ fuel n pl)) (headersBuf a) (data a), w)).
Proof.
  intros Hn. induction fuel as [|fuel IH]; intros pl a w Hf Hok; [lia|]. cbn [payload_loop pieces_].
  pose proof (zlen_nonneg pl). rewrite slice_to_Some, slice_from_Some by lia. cbn zeta. cbn [gm_index].
  run_step. run_step. cbn beta.
  set (b := take (Z.to_nat (Z.min (zlen pl) n)) pl). set (rest := drop (Z.to_nat (Z.min (zlen pl) n)) pl).
  assert (zlen b = Z.min (zlen pl) n) as Hb by (subst b; solve_len).
  destruct (newHeader_run (λ h, Fill h (Z.min (zlen pl) n) FrameData
      (if Z.min (zlen pl) n <? n then FlagDataEndStream else 0) id)
    (header_bytes (zlen b) FrameData (if zlen b <? n then FlagDataEndStream else 0) id) a w Hok) as (f & Hfok & Hrun);
    [intros h Hh; rewrite Hb; by apply Fill_spec|done|].
  run_with Hrun. run_step. set (a1 := set_size _ _). cbn [fst snd] in a1.
  assert (fh_ok (frameHeaders_ a1)) as Hok1 by done.
  destruct (Z.leb_spec (zlen pl) n) as [Hle|Hgt].
  - assert (rest = []) as -> by (subst rest; apply drop_ge; solve_len). change (zlen [] =? 0) with true. cbn iota.
    exists f. split; [done|]. subst a1. unfold more_data. cbn [fmap list_fmap].
    assert (b = pl) as -> by (subst b; apply take_ge; solve_len).
    unfold zsum. cbn [foldr]. rewrite <-Hb. rewrite Z.add_0_r. done.
  - assert (b = take (Z.to_nat n) pl ∧ rest = drop (Z.to_nat n) pl ∧ Z.min (zlen pl) n = zlen b) as (Eb & Er & Em)
      by (subst b rest; rewrite Hb, Z.min_r by lia; done).
    clearbody b rest. assert (zlen rest = zlen pl - n) by (subst rest; solve_len).
    rewrite (proj2 (Z.eqb_neq (zlen rest) 0)) by lia. cbn [snd].
    destruct (IH rest a1 w) as (f' & Hf' & ->); [solve_len|done|]. exists f'. split; [done|].
    subst a1. cbn [metaMiddleware size payloadPrefix frames headersBuf data set_size set_frames set_frameHeaders fmap list_fmap].
    rewrite <-Eb, <-Er, zsum_cons, <-app_assoc, Em. do 3 f_equal. lia.
Qed.
Definition pieces (n : Z) (b : bytes) : list bytes := pieces_ (S (length b)) n b.

(** The gRPC length prefix: not compressed, then the length. *)
Definition grpc_prefix (msg : bytes) : bytes := 0 :: prefix_bytes (zlen msg).
Definition prefix_ok a : Prop := ∃ rest, payloadPrefix a = 0 :: rest.

(** The DATA frames of a message. *)
Definition data_frames (n id : Z) (msg : bytes) : list Frame :=
  let first := take (Z.to_nat (n - 5)) msg in
  let rest := drop (Z.to_nat (n - 5)) msg in
  mkFrame [header_bytes (zlen first + 5) FrameData (if zlen rest =? 0 then FlagDataEndStream else 0) id;
           grpc_prefix msg; first] (u32 (zlen first + 5)) ::
  if zlen rest =? 0 then [] else more_data n id (grpc_prefix msg) <$> pieces n rest.

Definition chunks_size (fs : list Frame) : Z := zlen (wire fs).

Lemma setUpPayload_run n id a (w : W) :
  5 <= n → fh_ok (frameHeaders_ a) → prefix_ok a →
  ∃ f sz, setUpPayload n id (a, w) =
    (Ret tt, (mkAdapter (metaMiddleware a) sz f (grpc_prefix (d_Message (data a)))
       (frames a ++ data_frames n id (d_Message (data a))) (headersBuf a) (data a), w)) ∧
    (zlen (d_Message (data a)) <= n - 5 → sz = size a + 14 + zlen (d_Message (data a))).
Proof.
  intros Hn Hok [r Hp]. unfold setUpPayload. run_step. cbn [fst]. cbn zeta. run_step. cbn [fst snd].
  set (msg := d_Message (data a)). set (m := Z.min (zlen msg) (n - 5)). pose proof (zlen_nonneg msg).
  rewrite slice_to_Some, slice_from_Some by lia. cbn [gm_index]. run_step. run_step.
  assert (take (Z.to_nat m) msg = take (Z.to_nat (n - 5)) msg ∧ drop (Z.to_nat m) msg = drop (Z.to_nat (n - 5)) msg ∧
    m = zlen (take (Z.to_nat (n - 5)) msg)) as (-> & -> & Hm).
  { subst m. destruct (Z.le_gt_cases (n - 5) (zlen msg)).
    - rewrite Z.min_r by lia. split_and!; [done..|solve_len].
    - rewrite Z.min_l by lia. rewrite !take_ge, !drop_ge by solve_len. done. }
  rewrite Hm. unfold data_frames. cbn zeta.
  set (first := take (Z.to_nat (n - 5)) msg) in *. set (rest := drop (Z.to_nat (n - 5)) msg).
  set (a0 := set_payloadPrefix _ _).
  destruct (newHeader_run (λ h, Fill h (zlen first + 5) FrameData (if zlen rest =? 0 then FlagDataEndStream else 0) id)
    (header_bytes (zlen first + 5) FrameData (if zlen rest =? 0 then FlagDataEndStream else 0) id) a0 w Hok)
    as (f & Hf & Hrun); [intros h Hh; by apply Fill_spec|done|].
  run_with Hrun. run_step. cbn [fst snd].
  assert (payloadPrefix a0 = grpc_prefix msg) as Hpre by (subst a0; cbn [payloadPrefix set_payloadPrefix]; by rewrite Hp).
  destruct (Z.eqb_spec (zlen rest) 0) as [Hr|Hr].
  - exists f, (size a + (9 + 5 + zlen first)). split.
    + unfold set_size. cbn [metaMiddleware size frameHeaders_ payloadPrefix frames headersBuf data set_frames set_frameHeaders].
      by rewrite Hpre.
    + intros Hle. subst first. rewrite take_ge by solve_len. lia.
  - match goal with |- context [payload_loop ?fu ?n' ?i ?pl (?a', w)] =>
      destruct (payload_loop_run fu n' i ltac:(lia) pl a' w) as (f' & _ & ->); [lia|done|] end.
    cbn [metaMiddleware size frameHeaders_ payloadPrefix frames headersBuf data set_size set_frames set_frameHeaders].
    rewrite Hpre, <-app_assoc. do 2 eexists. split; [reflexivity|]. intros Hle. destruct Hr. subst rest. solve_len.
Qed.

(** A request: the frames of the header block, then those of the message,
    whatever the adapter, its buffers and its earlier frames held before. *)
Lemma SetUp_run n limit id additional a (w : W) :
  5 <= n → prefix_ok a → default_WriteAdditional (metaMiddleware a) = Some additional → headerListSize a <= limit →
  let block := (request_block additional a w).1 in
  let fs := (as_Frame <$> block_frames n id true block) ++ data_frames n id (d_Message (data a)) in
  ∃ f sz, SetUp n limit id (a, w) = (Ret (fs, None),
      (mkAdapter (metaMiddleware a) sz f (grpc_prefix (d_Message (data a))) fs [] (data a), (request_block additional a w).2)) ∧
    (zlen (d_Message (data a)) <= n - 5 →
      sz = frames_size (block_frames n id true block) + 14 + zlen (d_Message (data a))).
Proof.
  intros Hn Hp Hadd Hlim. cbn zeta. unfold SetUp. run_step. cbn [fst snd]. set (a0 := set_frames _ _).
  destruct (setUpHeaders_run n limit id additional a0 w) as (f & Hf & Hrun); [lia|unfold fh_ok; cbn; lia|done..|].
  run_with Hrun. set (a1 := extended _ _ _ _).
  change (request_block additional a0 w) with (request_block additional a w) in *.
  destruct (setUpPayload_run n id a1 (request_block additional a w).2) as (f' & sz & Hrun' & Hsz); [done..|].
  run_with Hrun'. run_step. exists f', sz. split; [done|]. exact Hsz.
Qed.
End runs.

(** A toy encoder for the witnesses: the name, then the value; its state counts
    the fields. *)
Module PlainFields.
#[export] Instance writer : FieldWriter nat := {| write_field k v w := (k ++ v, S w) |}.
End PlainFields.
#[export] Existing Instance PlainFields.writer.

Definition example_adapter (msg : bytes) : RequestAdapter :=
  setData (mkReqData (str "tag") (str "/s/m") [mkMeta (str "x") (str "1"); mkMeta (str ":path") (str "/evil")] msg)
    (NewRequestAdapter (mkDefault [str ":method"; str "POST"] [str "te"; str "trailers"] noopMiddleware)).

Lemma zlen_encode_frames fs : Forall (λ f : frame, length f.1 = 9%nat) fs → zlen (encode_frames fs) = frames_size fs.
Proof.
  unfold encode_frames. induction 1 as [|f fs Hf _ IH]; [done|]. rewrite frames_size_cons.
  cbn [fmap list_fmap concat]. rewrite !zlen_app, IH. unfold zlen at 1. lia.
Qed.

(** A message that fits one frame. *)
Lemma data_frames_one n id msg : n < 2 ^ 24 → zlen msg <= n - 5 →
  data_frames n id msg = [mkFrame [(mk_frame FrameData FlagDataEndStream id (grpc_prefix msg ++ msg)).1;
    grpc_prefix msg; msg] (zlen msg + 5)].
Proof.
  intros Hn Hmsg. pose proof (zlen_nonneg msg). unfold data_frames. rewrite take_ge, drop_ge by solve_len.
  change (zlen [] =? 0) with true. cbn zeta iota.
  rewrite u32_id by (unfold is_u32; lia). unfold mk_frame. cbn [fst]. rewrite zlen_app.
  change (zlen (grpc_prefix msg)) with 5. by rewrite Z.add_comm.
Qed.

(** C8: A request whose message fits one frame. Whatever its buffers held before,
    the adapter hands the sender exactly the bytes of well-formed frames:
    HEADERS and CONTINUATIONs that carry the encoded block, in order and none
    longer than the peer allows, then one DATA frame that carries the gRPC
    prefix and the message and ends the stream. [Size] is what goes out, and
    the window is charged for the DATA payload alone. *)
Theorem request_on_the_wire {W} `{!FieldWriter W} n limit id additional a (w : W) :
  5 <= n < 2 ^ 24 → prefix_ok a → default_WriteAdditional (metaMiddleware a) = Some additional →
  headerListSize a <= limit → zlen (d_Message (data a)) <= n - 5 →
  let msg := d_Message (data a) in
  let block := (request_block additional a w).1 in
  let sent := block_frames n id true block ++ [mk_frame FrameData FlagDataEndStream id (grpc_prefix msg ++ msg)] in
  ∃ fs a', SetUp n limit id (a, w) = (Ret (fs, None), (a', (request_block additional a w).2)) ∧
    wire fs = encode_frames sent ∧ Forall frame_wf sent ∧ Forall (λ f, zlen f.2 <= n) sent ∧
    concat (block_frames n id true block).*2 = block ∧
    Size a' = zlen (wire fs) ∧ zsum (FlowControlPrice <$> fs) = zlen msg + 5.
Proof.
  intros Hn Hp Hadd Hlim Hmsg. cbn zeta.
  destruct (SetUp_run n limit id additional a w) as (f & sz & -> & Hsz); [lia|done..|].
  specialize (Hsz Hmsg). set (msg := d_Message (data a)) in *. set (block := (request_block additional a w).1) in *.
  pose proof (zlen_nonneg msg).
  pose proof (data_frames_one n id msg ltac:(lia) Hmsg) as Hdata.
  assert (wire ((as_Frame <$> block_frames n id true block) ++ data_frames n id msg) =
    encode_frames (block_frames n id true block ++ [mk_frame FrameData FlagDataEndStream id (grpc_prefix msg ++ msg)])) as Hwire.
  { rewrite wire_app, wire_as_Frame, Hdata. unfold encode_frames. rewrite fmap_app, concat_app. f_equal. }
  assert (Forall frame_wf (block_frames n id true block ++ [mk_frame FrameData FlagDataEndStream id (grpc_prefix msg ++ msg)])) as Hwf.
  { apply Forall_app. split; [apply block_frames_wf; lia|]. apply Forall_singleton, mk_frame_wf.
    rewrite zlen_app. change (zlen (grpc_prefix msg)) with 5. lia. }
  do 2 eexists. split; [reflexivity|]. split; [exact Hwire|]. split; [exact Hwf|]. split; [|split; [|split]].
  - apply Forall_app. split.
    + pose proof (cut_short n block ltac:(lia)) as Hc. unfold block_frames. destruct Hc as [|p ps Hp0 Hps]; [by apply Forall_nil_2|].
      apply Forall_cons. split; [exact Hp0|]. apply Forall_fmap. exact Hps.
    + apply Forall_singleton. cbn [mk_frame snd]. rewrite zlen_app. change (zlen (grpc_prefix msg)) with 5. lia.
  - apply block_frames_payloads. lia.
  - rewrite Hwire, zlen_encode_frames by (eapply Forall_impl; [exact Hwf|]; by intros ? [? _]).
    unfold Size. cbn [size]. rewrite Hsz. unfold frames_size. rewrite fmap_app, zsum_app.
    cbn [fmap list_fmap]. rewrite zsum_cons. cbn [mk_frame snd]. rewrite zlen_app.
    change (zlen (grpc_prefix msg)) with 5. change (zsum []) with 0. lia.
  - rewrite fmap_app, zsum_app, Hdata. cbn [fmap list_fmap FlowControlPrice]. rewrite zsum_cons. change (zsum []) with 0.
    enough (∀ l, zsum (FlowControlPrice <$> (as_Frame <$> l)) = 0) as -> by lia.
    clear. induction l as [|x l IH]; [done|]. cbn [fmap list_fmap]. rewrite zsum_cons. cbn [as_Frame FlowControlPrice]. exact IH.
Qed.

Theorem request_on_the_wire_witness :
  let a := example_adapter (str "hello") in
  let block := str ":path/s/m:methodPOSTtetrailersx1" in
  let sent := block_frames 20 3 true block ++ [mk_frame FrameData FlagDataEndStream 3 ([0; 0; 0; 0; 5] ++ str "hello")] in
  ∃ fs a', SetUp 20 1000 3 (a, 0%nat) = (Ret (fs, None), (a', 4%nat)) ∧
    wire fs = encode_frames sent ∧ Forall frame_wf sent ∧ Forall (λ f, zlen f.2 <= 20) sent ∧
    concat (block_frames 20 3 true block).*2 = block ∧
    Size a' = zlen (wire fs) ∧ zsum (FlowControlPrice <$> fs) = 10.
Proof.
  refine (request_on_the_wire 20 1000 3 [(str ":method", str "POST"); (str "te", str "trailers")]
    (example_adapter (str "hello")) 0%nat _ _ _ _ _).
  - split; vm_compute; congruence.
  - exists [0; 0; 0; 0]. reflexivity.
  - reflexivity.
  - vm_compute; congruence.
  - vm_compute; congruence.
Defined.

(** *** Messages longer than a frame *)

(** The frames that carry the message. *)
Definition is_data (F : Frame) : Prop := ∃ h rest, Chunks F = h :: rest ∧ Type_ h = Some FrameData.

Lemma as_Frame_not_data n id first b : Forall (λ F, ¬ is_data F) (as_Frame <$> block_frames n id first b).
Proof.
  assert (∀ fst p, ¬ is_data (as_Frame (block_frame n id fst p))) as H.
  { intros fst p (h & rest & [= <- _] & Ht). unfold block_frame, mk_frame in Ht. by destruct fst. }
  unfold block_frames. destruct (cut n b) as [|p ps]; [by apply Forall_nil_2|]. cbn [fmap list_fmap].
  apply Forall_cons. split; [apply H|]. change (list_fmap _ _ ?f ?l) with (f <$> l).
  rewrite !Forall_fmap. apply Forall_true. intros q. apply H.
Qed.

Lemma pieces_multiple fuel n : 0 < n → ∀ b, (length b < fuel)%nat → b ≠ [] → (n | zlen b) →
  Forall (λ p, zlen p = n) (pieces_ fuel n b).
Proof.
  intros Hn. induction fuel as [|fuel IH]; intros b Hf Hb Hd; [lia|]. cbn [pieces_].
  assert (0 < zlen b) by (destruct b; [done|solve_len]).
  pose proof (Z.divide_pos_le n (zlen b) ltac:(lia) Hd). destruct (Z.leb_spec (zlen b) n).
  - apply Forall_singleton. lia.
  - apply Forall_cons. split; [solve_len|]. destruct Hd as [k Hk].
    assert (zlen (drop (Z.to_nat n) b) = zlen b - n) as Hl by solve_len. apply IH; [solve_len| |].
    + intros E. rewrite E in Hl. change (zlen []) with 0 in Hl. lia.
    + exists (k - 1). lia.
Qed.

Lemma pieces_short fuel n b : 0 < n → (length b < fuel)%nat → Forall (λ p, zlen p <= n) (pieces_ fuel n b).
Proof.
  intros Hn. revert b. induction fuel as [|fuel IH]; intros b Hf; [by apply Forall_nil_2|]. cbn [pieces_].
  destruct (Z.leb_spec (zlen b) n); [by apply Forall_singleton|]. apply Forall_cons. split; [solve_len|].
  apply IH. solve_len.
Qed.

(** C34: A message that does not fit one frame goes out broken. Every DATA frame but
    the first announces five bytes less than follow it, since the gRPC prefix
    is sent again in front of each piece; and when the last piece fills its
    frame exactly, no DATA frame ends the stream. *)
Theorem long_message_misframed {W} `{!FieldWriter W} n limit id additional a (w : W) :
  5 <= n < 2 ^ 24 → prefix_ok a → default_WriteAdditional (metaMiddleware a) = Some additional →
  headerListSize a <= limit → n - 5 < zlen (d_Message (data a)) →
  ∃ hs F0 more a' w', SetUp n limit id (a, w) = (Ret (hs ++ F0 :: more, None), (a', w')) ∧
    Forall (λ F, ¬ is_data F) hs ∧ more ≠ [] ∧
    Forall (λ F, ∃ h p, Chunks F = [h; grpc_prefix (d_Message (data a)); p] ∧
      Type_ h = Some FrameData ∧ Length h = Some (zlen p) ∧ zlen (concat (tail (Chunks F))) = zlen p + 5) more ∧
    ((n | zlen (d_Message (data a)) + 5) →
      Forall (λ F, ∃ h rest, Chunks F = h :: rest ∧ Flags h = Some 0) (F0 :: more)).
Proof.
  intros Hn Hp Hadd Hlim Hmsg.
  destruct (SetUp_run n limit id additional a w) as (f & sz & -> & _); [lia|done..|].
  set (msg := d_Message (data a)) in *. unfold data_frames.
  set (first := take (Z.to_nat (n - 5)) msg). set (rest := drop (Z.to_nat (n - 5)) msg).
  assert (zlen rest = zlen msg - (n - 5)) as Hr by (subst rest; solve_len).
  rewrite (proj2 (Z.eqb_neq (zlen rest) 0)) by lia. cbn zeta.
  do 5 eexists. split; [reflexivity|]. split; [apply as_Frame_not_data|]. split; [|split].
  - unfold pieces. cbn [pieces_]. by destruct (zlen rest <=? n).
  - apply Forall_fmap. pose proof (pieces_short (S (length rest)) n rest ltac:(lia) ltac:(lia)) as Hs.
    eapply Forall_impl; [exact Hs|]. intros p Hpl. cbn beta in Hpl. unfold more_data. cbn [Chunks compose].
    do 2 eexists. split; [reflexivity|]. split; [done|]. split.
    + apply Length_header_bytes. pose proof (zlen_nonneg p). lia.
    + cbn [tail concat]. rewrite app_nil_r, zlen_app. change (zlen (grpc_prefix msg)) with 5. lia.
  - intros [k Hk]. apply Forall_cons. split; [by do 2 eexists|]. apply Forall_fmap.
    assert (rest ≠ []) as Hne by (intros E; rewrite E in Hr; change (zlen []) with 0 in Hr; lia).
    pose proof (pieces_multiple (S (length rest)) n ltac:(lia) rest ltac:(lia) Hne) as Hs.
    eapply Forall_impl; [apply Hs; exists (k - 1); lia|]. intros p Hpl. cbn beta in Hpl.
    do 2 eexists. split; [reflexivity|]. rewrite Hpl, Z.ltb_irrefl. done.
Qed.

Theorem long_message_misframed_witness :
  let msg := str "seven bytes more than nine bytes..." in
  ∃ hs F0 more a' w', SetUp 20 1000 3 (example_adapter msg, 0%nat) = (Ret (hs ++ F0 :: more, None), (a', w')) ∧
    Forall (λ F, ¬ is_data F) hs ∧ more ≠ [] ∧
    Forall (λ F, ∃ h p, Chunks F = [h; grpc_prefix msg; p] ∧
      Type_ h = Some FrameData ∧ Length h = Some (zlen p) ∧ zlen (concat (tail (Chunks F))) = zlen p + 5) more ∧
    ((20 | zlen msg + 5) → Forall (λ F, ∃ h rest, Chunks F = h :: rest ∧ Flags h = Some 0) (F0 :: more)).
Proof.
  refine (long_message_misframed 20 1000 3 [(str ":method", str "POST"); (str "te", str "trailers")]
    (example_adapter (str "seven bytes more than nine bytes...")) 0%nat _ _ _ _ _).
  - split; vm_compute; congruence.
  - exists [0; 0; 0; 0]. reflexivity.
  - reflexivity.
  - vm_compute; congruence.
  - vm_compute; congruence.
Defined.

(** *** The order of the fields *)

(** Flat lists of names and values, all names pseudo or all regular. *)
Definition pairs_ok (p : bool) (s : list bytes) : Prop :=
  ∃ ps, field_pairs s = Some ps ∧ Forall (λ f, pseudo f.1 = p) ps.

Lemma pairs_ok_snoc p s k v : pairs_ok p s → pseudo k = p → pairs_ok p (s ++ [k; v]).
Proof.
  intros (ps & Hps & Hf) Hk. exists (ps ++ [(k, v)]). split; [|by apply Forall_app; split; [|apply Forall_singleton]].
  clear Hf Hk. revert ps Hps. induction s as [|x|x y s IH] using list_pair_ind; intros ps Hps.
  - by injection Hps as <-.
  - done.
  - cbn in Hps |- *. apply bind_Some in Hps as (qs & Hqs & [= <-]). by rewrite (IH qs Hqs).
Qed.

Record middleware_ok (m : defaultMiddleware) : Prop := {
  mw_pseudo : pairs_ok true (staticPseudo m);
  mw_regular : pairs_ok false (staticRegular m);
  mw_next : next m = noopMiddleware
}.

Lemma add_headers_ok additional : ∀ m m', middleware_ok m → add_headers additional m = Some m' → middleware_ok m'.
Proof.
  induction additional as [|k|k v rest IH] using list_pair_ind; intros m m' Hm; cbn [add_headers].
  - by intros [= <-].
  - done.
  - apply IH. destruct Hm as [H1 H2 H3].
    destruct (pseudo k) eqn:E; split; try done; by apply pairs_ok_snoc.
Qed.

Lemma factory_ok ops m : NewRequestAdapterFactory ops = Some m → middleware_ok m.
Proof.
  intros H. eapply add_headers_ok; [|exact H]. split; [| |done].
  - eexists. split; [reflexivity|]. by repeat constructor.
  - eexists. split; [reflexivity|]. by repeat constructor.
Qed.

(** With the factory's middleware, whatever the options: all pseudo headers come
    before all others, as HTTP/2 requires, and the metadata of a request can
    neither add a pseudo header nor repeat the headers of the protocol. *)
Theorem pseudo_headers_first ops m a :
  NewRequestAdapterFactory ops = Some m → metaMiddleware a = m →
  ∃ additional ps rs, default_WriteAdditional m = Some additional ∧
    request_fields additional a = ps ++ rs ++ allowed_fields m (d_Metadata (data a)) ∧
    Forall (λ f, pseudo f.1 = true) ps ∧ Forall (λ f, pseudo f.1 = false) rs ∧
    Forall (λ f, pseudo f.1 = false ∧ f.1 ∉ [[]; str "content-type"; str "te"; str "grpc-timeout"])
      (allowed_fields m (d_Metadata (data a))).
Proof.
  intros Hm%factory_ok Ha. destruct Hm as [(ps & Hps & Hp) (rs & Hrs & Hr) Hn].
  unfold default_WriteAdditional. rewrite Hps, Hrs. cbn [mbind option_bind]. rewrite Hn.
  exists (ps ++ rs), ((str ":path", d_Method (data a)) :: ps), rs. split; [done|]. split; [|split; [|split]].
  - unfold request_fields. rewrite Ha. cbn [app]. by rewrite <-app_assoc.
  - by apply Forall_cons.
  - done.
  - unfold allowed_fields. apply Forall_fmap, list.Forall_forall. intros x [Hx _]%list_elem_of_filter.
    unfold default_IsAllowed in Hx. cbn. destruct (Name x) as [|c k]; [done|]. cbn.
    destruct (c =? 58); [done|]. split; [done|]. case_decide as Hd; [done|].
    intros H. apply Hd. set_solver.
Qed.

Theorem pseudo_headers_first_witness :
  let a := setData (mkReqData [] (str "/s/m") [mkMeta (str ":authority") (str "evil"); mkMeta (str "x") (str "1")] []) in
  ∃ m, NewRequestAdapterFactory [WithAdditionalHeader (str "b") (str "2"); WithAdditionalHeader (str ":authority") (str "h")] = Some m ∧
  ∃ additional ps rs, default_WriteAdditional m = Some additional ∧
    request_fields additional (a (NewRequestAdapter m)) = ps ++ rs ++ [(str "x", str "1")] ∧
    Forall (λ f, pseudo f.1 = true) ps ∧ Forall (λ f, pseudo f.1 = false) rs ∧
    Forall (λ f, pseudo f.1 = false ∧ f.1 ∉ [[]; str "content-type"; str "te"; str "grpc-timeout"]) [(str "x", str "1")].
Proof.
  eexists. split; [reflexivity|].
  exact (pseudo_headers_first [WithAdditionalHeader (str "b") (str "2"); WithAdditionalHeader (str ":authority") (str "h")] _
    (setData (mkReqData [] (str "/s/m") [mkMeta (str ":authority") (str "evil"); mkMeta (str "x") (str "1")] [])
      (NewRequestAdapter _)) eq_refl eq_refl).
Defined.

(** A middleware given with [WithMetaMiddleware] has no effect: the factory built
    is the one without that option. *)
Theorem custom_middleware_ignored ops mw :
  NewRequestAdapterFactory (ops ++ [WithMetaMiddleware mw]) = NewRequestAdapterFactory ops.
Proof. unfold NewRequestAdapterFactory. rewrite foldl_app. cbn. reflexivity. Qed.
