(* ===== verification/Hpack.v ===== *)
(** * Hpack: the header encoder of a connection

    Models src/utils/hpack_wrapper/wrapper.go: the one encoder of a connection, whose
    output goes to the buffer of whichever request is being set up. What a peer
    makes of its output is the interface [HpackPeer]. *)

From S2P Require Import Prelude Types Framer Request.

(** ** The wrapper

    The buffers of the adapters are a heap; the wrapper's writer is a reference
    into it, [None] before the first [SetWriter]. *)

(** The rest of the encoder: how it starts and the bound on its table
    (golang.org/x/net/http2/hpack). *)
Class HpackEncoder (W : Type) `{!FieldWriter W} := {
  NewEncoder : W;
  SetMaxDynamicTableSize : Z → W → W
}.

Inductive Opt := WithMaxDynamicTableSize (s : Z).

Record Wrapper (W : Type) := mkWrapper { Writer : option nat; enc : W }.
Arguments mkWrapper {W} _ _.
Arguments Writer {W} _.
Arguments enc {W} _.

Section wrapper.
Context {W : Type} `{!FieldWriter W} `{!HpackEncoder W}.
Implicit Types (w : Wrapper W) (bufs : list bytes).

Definition apply_Opt w (o : Opt) : Wrapper W :=
  match o with WithMaxDynamicTableSize s => mkWrapper (Writer w) (SetMaxDynamicTableSize s (enc w)) end.

Definition NewWrapper (opts : list Opt) : Wrapper W := foldl apply_Opt (mkWrapper None NewEncoder) opts.

Definition SetWriter (buf : nat) w : Wrapper W := mkWrapper (Some buf) (enc w).

(** [WriteField]; a nil writer is a nil dereference. *)
Definition Wrapper_WriteField (k v : bytes) w bufs : option (Wrapper W * list bytes) :=
  i ← Writer w;
  buf ← bufs !! i;
  let '(b, e) := write_field k v (enc w) in
  Some (mkWrapper (Writer w) e, <[i := buf ++ b]> bufs).

Fixpoint Wrapper_WriteFields (fs : list (bytes * bytes)) w bufs : option (Wrapper W * list bytes) :=
  match fs with
  | [] => Some (w, bufs)
  | f :: fs => '(w, bufs) ← Wrapper_WriteField f.1 f.2 w bufs; Wrapper_WriteFields fs w bufs
  end.

(** The wrapper carries out what the adapter's model says of its own buffer: with
    the writer set to the buffer of the [i]-th adapter, fields written through
    the wrapper change that adapter as [WriteFields] does, and no other. *)
Theorem wrapper_writes_adapter fs w (adapters : list RequestAdapter) i a :
  adapters !! i = Some a →
  ∃ a', WriteFields fs (a, enc w) = (Ret tt, (a', (encode_fields fs (enc w)).2)) ∧
    Wrapper_WriteFields fs (SetWriter i w) (headersBuf <$> adapters) =
      Some (mkWrapper (Some i) (encode_fields fs (enc w)).2, headersBuf <$> <[i := a']> adapters).
Proof.
  intros Hi. rewrite WriteFields_run. eexists. split; [reflexivity|]. unfold SetWriter.
  generalize (enc w). intros e. clear w. revert e adapters a Hi.
  induction fs as [|f fs IH]; intros e adapters a Hi; cbn [Wrapper_WriteFields encode_fields fst snd].
  - rewrite app_nil_r, list_insert_id; [done|]. rewrite Hi. by destruct a.
  - unfold Wrapper_WriteField. cbn [Writer enc mbind option_bind]. rewrite list_lookup_fmap, Hi. cbn [fmap option_fmap option_map mbind option_bind].
    destruct (write_field f.1 f.2 e) as [b e1]. cbn [mbind option_bind].
    change (headersBuf a ++ b) with (headersBuf (set_headersBuf (headersBuf a ++ b) a)). rewrite <-list_fmap_insert.
    rewrite (IH e1 _ (set_headersBuf (headersBuf a ++ b) a)) by (apply list_lookup_insert_eq; by eapply lookup_lt_Some).
    destruct (encode_fields fs e1) as [bs e2]. cbn [fst snd]. rewrite list_insert_insert_eq.
    do 3 f_equal. unfold set_headersBuf. cbn. by rewrite app_assoc.
Qed.

(** Without a writer the first field panics. *)
Theorem no_writer_panics opts k v bufs : Wrapper_WriteField k v (NewWrapper opts) bufs = None.
Proof.
  unfold NewWrapper. enough (∀ w, Writer w = None → Writer (foldl apply_Opt w opts) = None) as H.
  { unfold Wrapper_WriteField. by rewrite H. }
  induction opts as [|[s] opts IH]; intros w Hw; [done|]. cbn. by apply IH.
Qed.
End wrapper.

(** ** The peer's decoder

    What RFC 7541 promises of an encoder and a decoder that started together: a
    block read whole gives its fields back, and the two stay in step. *)
Class HpackPeer (W R : Type) `{!FieldWriter W} := {
  read_block : R → bytes → option (list (bytes * bytes) * R);
  in_step : W → R → Prop
}.

Class HpackPeerLaws (W R : Type) `{!FieldWriter W} `{!HpackPeer W R} := {
  read_encoded (w : W) (r : R) fs : in_step w r →
    ∃ r', read_block r (encode_fields fs w).1 = Some (fs, r') ∧ in_step (encode_fields fs w).2 r'
}.

(** A small codec that satisfies it: a table that only grows, fields it holds
    written as an index. *)
Module TableCodec.
Abbreviation table := (list (bytes * bytes)).

Definition write (k v : bytes) (w : table) : bytes * table :=
  match list_find (λ f, f = (k, v)) w with
  | Some (i, _) => ([1; Z.of_nat i], w)
  | None => (0 :: zlen k :: k ++ zlen v :: v, w ++ [(k, v)])
  end.

#[export] Instance writer : FieldWriter table := {| write_field := write |}.
#[export] Instance encoder : HpackEncoder table := {| NewEncoder := []; SetMaxDynamicTableSize _ w := w |}.

Definition read_string (b : bytes) : option (bytes * bytes) :=
  match b with
  | l :: b => if (0 <=? l) && (l <=? zlen b) then Some (take (Z.to_nat l) b, drop (Z.to_nat l) b) else None
  | [] => None
  end.

Definition read_field (r : table) (b : bytes) : option ((bytes * bytes) * table * bytes) :=
  match b with
  | 1 :: i :: b => f ← r !! Z.to_nat i; Some (f, r, b)
  | 0 :: b =>
      '(k, b) ← read_string b;
      '(v, b) ← read_string b;
      Some ((k, v), r ++ [(k, v)], b)
  | _ => None
  end.

Fixpoint read_fields (fuel : nat) (r : table) (b : bytes) : option (list (bytes * bytes) * table) :=
  match fuel, b with
  | _, [] => Some ([], r)
  | O, _ => None
  | S fuel, _ =>
      '(f, r, b) ← read_field r b;
      '(fs, r) ← read_fields fuel r b;
      Some (f :: fs, r)
  end.

#[export] Instance peer : HpackPeer table table := {|
  read_block r b := read_fields (length b) r b;
  in_step := eq
|}.

Lemma read_string_app s rest : read_string (zlen s :: s ++ rest) = Some (s, rest).
Proof.
  unfold read_string. pose proof (zlen_nonneg s). pose proof (zlen_nonneg rest).
  rewrite (proj2 (Z.leb_le 0 (zlen s))), (proj2 (Z.leb_le (zlen s) _)) by (rewrite ?zlen_app; lia).
  cbn [andb]. by rewrite take_zlen_app, drop_zlen_app.
Qed.

Lemma read_written k v w rest :
  read_field w ((write k v w).1 ++ rest) = Some ((k, v), (write k v w).2, rest) ∧ (write k v w).1 ≠ [].
Proof.
  unfold write. destruct (list_find (λ f, f = (k, v)) w) as [[i x]|] eqn:E; cbn [fst snd].
  - apply list_find_Some in E as (Hi & -> & _). split; [|done]. cbn [app read_field]. rewrite Nat2Z.id. by rewrite Hi.
  - split; [|done]. cbn [app]. rewrite <-app_assoc. cbn [app]. unfold read_field.
    rewrite read_string_app. cbn [mbind option_bind]. by rewrite read_string_app.
Qed.

Lemma read_fields_encoded fs : ∀ fuel w, (length (encode_fields fs w).1 <= fuel)%nat →
  read_fields fuel w (encode_fields fs w).1 = Some (fs, (encode_fields fs w).2).
Proof.
  induction fs as [|[k v] fs IH]; intros fuel w Hf; [by destruct fuel|]. cbn [encode_fields fst snd] in *.
  unfold write_field in *. cbn [writer] in *. destruct (read_written k v w (encode_fields fs (write k v w).2).1) as [Hr Hne].
  destruct (write k v w) as [b w1]. cbn [fst snd] in *. specialize (IH (Nat.pred fuel) w1).
  destruct (encode_fields fs w1) as [bs w2]. cbn [fst snd] in *. rewrite length_app in Hf.
  destruct b as [|c b]; [done|]. cbn [length] in Hf. destruct fuel as [|fuel]; [lia|]. cbn [app read_fields Nat.pred] in *.
  rewrite Hr. cbn [mbind option_bind]. by rewrite IH by lia.
Qed.

#[export] Instance laws : HpackPeerLaws table table.
Proof.
  split. intros w r fs <-. exists (encode_fields fs w).2. split; [|done]. by apply read_fields_encoded.
Qed.
End TableCodec.
#[export] Existing Instances TableCodec.writer TableCodec.encoder TableCodec.peer TableCodec.laws.
