(* ===== verification/Sender.v ===== *)
(** * Sender: requests to frames, frames to the connection

    Models src/loader/sender/sender.go. [send] registers a request and queues
    its frames; a processor goroutine gathers chunks into write commands, and
    [sendLoop] writes them and runs the callbacks. The two goroutines share
    two buffers in turn, which the model keeps as two arrays that commands
    refer to and do not copy. *)

From S2P Require Import Prelude Types.

(** ** frame *)
Inductive callback := CbFirstByteSent (s : stream) | CbLastByteSent (s : stream) | CbRelease (id : Z).

(** [frame]: the chunks that are not nil, and the callbacks that are not. *)
Record sframe := mkSFrame { f_chunks : list bytes; f_cbs : list callback }.

(** ** send *)

(** The calls [send] makes on the shared objects, in order. *)
Inductive call :=
| CWaitAllow
| CAcquire (id : Z) (tag : bytes)
| CSetUp (id : Z)
| CRequestError (s : stream)
| CEnd (s : stream)
| CSetSize (s : stream) (n : Z)
| CStoreSet (id : Z) (s : stream)
| CWaitStream (s : stream) (n : Z)
| CWaitConn (n : Z)
| CQueue (f : sframe)
| CLimiterRelease
| CReqRelease (id : Z).

Section send.
(** The stream the pool gives, the frames [SetUp] makes (or its error), and the
    answers of the two flow controls to the [i]-th wait. *)
Variables (s : stream) (tag : bytes) (reqSize : Z) (setUp : list Frame + unit) (streamOk connOk : nat → bool).

(** The loop over the frames from index [i] of [n]. *)
Fixpoint send_frames (id : Z) (i : nat) (fs : list Frame) : list call :=
  match fs with
  | [] => []
  | f :: rest =>
      if streamOk i then
        if connOk i then
          let first := if decide (i = 0%nat) then [CbFirstByteSent s] else [] in
          let last := if decide (rest = []) then [CbLastByteSent s; CbRelease id] else [] in
          CWaitStream s (FlowControlPrice f) :: CWaitConn (FlowControlPrice f) ::
          CQueue (mkSFrame (Chunks f) (first ++ last)) :: send_frames id (S i) rest
        else [CWaitStream s (FlowControlPrice f); CWaitConn (FlowControlPrice f)]
      else [CWaitStream s (FlowControlPrice f)]
  end.

(** [send], from the sender's last stream id; [s.streamID += 2] is a [uint32]. *)
Definition send (streamID : Z) : list call * Z :=
  let id := u32 (streamID + 2) in
  ([CWaitAllow; CAcquire id tag; CSetUp id] ++
   match setUp with
   | inr _ => [CRequestError s; CEnd s]
   | inl fs => CSetSize s reqSize :: CStoreSet id s :: send_frames id 0 fs
   end, id).
End send.

(** The stream ids of successive requests of a connection: [NewSender] starts at 1. *)
Fixpoint stream_ids (n : nat) (streamID : Z) : list Z :=
  match n with
  | O => []
  | S n => let id := (send 0%nat [] 0 (inl []) (λ _, true) (λ _, true) streamID).2 in id :: stream_ids n id
  end.

(** ** The processor and the send loop *)
Inductive chunk := Prio (b : bytes) | Reg (b : bytes).

(** A write command: a buffer, from which index, and how far it is written. *)
Record flight := mkFlight { fl_buf : bool; fl_pos : nat }.
Inductive loop := Idle | Busy (f : flight) | Dead.

(** What the processor does once a command has been taken. *)
Inductive cont := KLoop | KFrame (f : sframe) | KDrain | KStop.
Inductive pc := Running | Draining | Sending (from : nat) (k : cont) | Stopped.

(** Both goroutines. [sy_bufs] and [sy_cbs] are the two arrays and the two
    callback lists, [sy_cur] says which pair the processor fills; [sy_conn] and
    [sy_called] are what has been written and called. *)
Record sys := mkSys {
  sy_pc : pc; sy_cur : bool; sy_bufs : bool → list chunk; sy_cbs : bool → list callback;
  sy_timer : bool; sy_loop : loop; sy_conn : list chunk; sy_called : list callback }.

Definition upd {A} (i : bool) (x : A) (f : bool → A) : bool → A := λ j, if eqb i j then x else f j.

Definition MaxBuffers : Z := 2048.

Section processor.
(** [batchedProcessor] keeps index 0 of its buffers for a priority frame,
    [instantProcessor] does not. *)
Variable batched : bool.

Definition base : nat := if batched then 1 else 0.

Definition sys_init : sys :=
  mkSys Running false (λ _, replicate base (Prio [])) (λ _, []) false Idle [] [].

Definition set_pc p s := mkSys p (sy_cur s) (sy_bufs s) (sy_cbs s) (sy_timer s) (sy_loop s) (sy_conn s) (sy_called s).
Definition set_timer t s := mkSys (sy_pc s) (sy_cur s) (sy_bufs s) (sy_cbs s) t (sy_loop s) (sy_conn s) (sy_called s).
Definition set_buf l s :=
  mkSys (sy_pc s) (sy_cur s) (upd (sy_cur s) l (sy_bufs s)) (sy_cbs s) (sy_timer s) (sy_loop s) (sy_conn s) (sy_called s).

Definition cur_buf (s : sys) : list chunk := sy_bufs s (sy_cur s).
Definition cur_cbs (s : sys) : list callback := sy_cbs s (sy_cur s).

(** Appending a frame's chunks and callbacks. *)
Definition append_frame (f : sframe) (s : sys) : sys :=
  mkSys (sy_pc s) (sy_cur s) (upd (sy_cur s) (cur_buf s ++ (Reg <$> f_chunks f)) (sy_bufs s))
    (upd (sy_cur s) (cur_cbs s ++ f_cbs f) (sy_cbs s)) (sy_timer s) (sy_loop s) (sy_conn s) (sy_called s).

(** Back to the loop after [doWrite]. *)
Definition resume (k : cont) (s : sys) : sys :=
  match k with
  | KLoop => set_pc Running s
  | KFrame f => set_pc Running (append_frame f s)
  | KDrain => set_pc Draining s
  | KStop => set_pc Stopped s
  end.

(** [doWrite]: the batched one has nothing to do when there is nothing to write. *)
Definition doWrite (from : nat) (k : cont) (s : sys) : sys :=
  if batched && bool_decide (drop from (cur_buf s) = []) then resume k s else set_pc (Sending from k) s.

Inductive label :=
| LPrio (b : bytes) | LFrame (f : sframe) | LClose | LTimer | LDone   (** the processor's select *)
| LHandOver                                                          (** [writeCmdChan] *)
| LWrite | LCallbacks | LFail | LStopLoop.                            (** [sendLoop] *)

(** A priority frame: into index 0, or appended. *)
Definition put_prio (b : bytes) (s : sys) : sys :=
  if batched then set_buf (Prio b :: tail (cur_buf s)) s else set_buf (cur_buf s ++ [Prio b]) s.

Definition step (l : label) (s : sys) : option sys :=
  match l, sy_pc s with
  | LPrio b, Running => Some (doWrite 0 KLoop (put_prio b s))
  | LPrio b, Draining => Some (doWrite 0 KDrain (put_prio b s))
  | LFrame f, Running =>
      if batched then
        let s := set_timer true s in
        if MaxBuffers <? 3 + zlen (cur_buf s) then Some (doWrite 1 (KFrame f) s)
        else Some (append_frame f s)
      else Some (doWrite 0 KLoop (append_frame f s))
  | LClose, Running => if batched then Some (doWrite 1 KDrain (set_timer true s)) else Some (set_pc Draining s)
  | LTimer, Running => if batched && sy_timer s then Some (doWrite 1 KLoop s) else None
  | LDone, Running => if batched then Some (doWrite 1 KStop s) else Some (set_pc Stopped s)
  | LDone, Draining => Some (set_pc Stopped s)
  | LHandOver, Sending from k =>
      match sy_loop s with
      | Idle =>
          let i := sy_cur s in
          let s := mkSys (sy_pc s) (negb i) (upd (negb i) (take base (sy_bufs s (negb i))) (sy_bufs s))
                     (upd (negb i) [] (sy_cbs s)) false (Busy (mkFlight i from)) (sy_conn s) (sy_called s) in
          Some (resume k s)
      | _ => None
      end
  | LWrite, _ =>
      match sy_loop s with
      | Busy f =>
          c ← sy_bufs s (fl_buf f) !! fl_pos f;
          Some (mkSys (sy_pc s) (sy_cur s) (sy_bufs s) (sy_cbs s) (sy_timer s)
            (Busy (mkFlight (fl_buf f) (S (fl_pos f)))) (sy_conn s ++ [c]) (sy_called s))
      | _ => None
      end
  | LCallbacks, _ =>
      match sy_loop s with
      | Busy f =>
          match sy_bufs s (fl_buf f) !! fl_pos f with
          | None => Some (mkSys (sy_pc s) (sy_cur s) (sy_bufs s) (sy_cbs s) (sy_timer s) Idle
                      (sy_conn s) (sy_called s ++ sy_cbs s (fl_buf f)))
          | Some _ => None
          end
      | _ => None
      end
  | LFail, _ =>
      match sy_loop s with
      | Busy f => Some (mkSys (sy_pc s) (sy_cur s) (sy_bufs s) (sy_cbs s) (sy_timer s) Dead
                    (sy_conn s) (sy_called s ++ sy_cbs s (fl_buf f)))
      | _ => None
      end
  | LStopLoop, _ =>
      match sy_loop s with
      | Idle => Some (mkSys (sy_pc s) (sy_cur s) (sy_bufs s) (sy_cbs s) (sy_timer s) Dead (sy_conn s) (sy_called s))
      | _ => None
      end
  | _, _ => None
  end.

Fixpoint steps (ls : list label) (s : sys) : option sys :=
  match ls with
  | [] => Some s
  | l :: ls => s ← step l s; steps ls s
  end.
End processor.

(** ** The sender of a connection

    What [NewSender] keeps of its arguments, and the last stream id; its channels
    are those of [sys]. *)
Record Sender := mkSender { maxFrameSize : Z; maxHeaderListSize : Z; last_streamID : Z; disableSendBatching : bool }.
Definition NewSender (maxFrameSize maxHeaderListSize : Z) (disableSendBatching : bool) : Sender :=
  mkSender maxFrameSize maxHeaderListSize 1 disableSendBatching.

(** [Run] starts one of the two processors beside the send loop. *)
Definition Run (s : Sender) : sys := sys_init (negb (disableSendBatching s)).

(** ** What has been accepted, and where it is *)
Definition regs (l : list chunk) : list bytes := omap (λ c, match c with Reg b => Some b | _ => None end) l.
Definition prios (l : list chunk) : list bytes := omap (λ c, match c with Prio b => Some b | _ => None end) l.
Definition frames_of (ls : list label) : list sframe := omap (λ l, match l with LFrame f => Some f | _ => None end) ls.
Definition prios_of (ls : list label) : list bytes := omap (λ l, match l with LPrio b => Some b | _ => None end) ls.
Definition chs (fs : list sframe) : list bytes := concat (f_chunks <$> fs).
Definition cbs (fs : list sframe) : list callback := concat (f_cbs <$> fs).

Lemma regs_app l k : regs (l ++ k) = regs l ++ regs k.
Proof. apply omap_app. Qed.
Lemma prios_app l k : prios (l ++ k) = prios l ++ prios k.
Proof. apply omap_app. Qed.
Lemma regs_Reg bs : regs (Reg <$> bs) = bs.
Proof. induction bs as [|b bs IH]; [done|]. cbn. by rewrite <-IH at 2. Qed.
Lemma prios_Reg bs : prios (Reg <$> bs) = [].
Proof. by induction bs. Qed.
Lemma chs_app l k : chs (l ++ k) = chs l ++ chs k.
Proof. unfold chs. by rewrite fmap_app, concat_app. Qed.
Lemma cbs_app l k : cbs (l ++ k) = cbs l ++ cbs k.
Proof. unfold cbs. by rewrite fmap_app, concat_app. Qed.
Lemma upd_eq {A} i (x : A) f : upd i x f i = x.
Proof. unfold upd. by rewrite eqb_reflx. Qed.
Lemma upd_ne {A} i j (x : A) f : i ≠ j → upd i x f j = f j.
Proof. intros H. unfold upd. by rewrite (proj2 (eqb_false_iff i j)). Qed.

Section proofs.
Variable batched : bool.
Implicit Types s : sys.

Definition inflight s : list chunk :=
  match sy_loop s with Busy f => drop (fl_pos f) (sy_bufs s (fl_buf f)) | _ => [] end.
Definition flying_cbs s : list callback :=
  match sy_loop s with Busy f => sy_cbs s (fl_buf f) | _ => [] end.

(** A batched buffer: the priority slot, then chunks of requests. *)
Definition shape (l : list chunk) : Prop := batched = true → ∃ x rs, l = Prio x :: (Reg <$> rs).

(** The invariant, apart from what the processor is doing: the two goroutines
    are on different buffers; the accepted frames [fs] are those done, those in
    the command being written, those gathered and the one [kf] held back; the
    accepted priority frames [ps] are written, in flight or [pp]. *)
Record core (fs : list sframe) (ps : list bytes) (kf : list sframe) (pp : list bytes) s : Prop := {
  core_alive : sy_loop s ≠ Dead;
  core_apart : ∀ f, sy_loop s = Busy f → fl_buf f ≠ sy_cur s;
  core_shape : ∀ i, shape (sy_bufs s i);
  core_frames : ∃ fin fly cur, fs = fin ++ fly ++ cur ++ kf ∧
    sy_called s = cbs fin ∧ flying_cbs s = cbs fly ∧ cur_cbs s = cbs cur ∧
    (∃ w, regs (sy_conn s) = chs fin ++ w ∧ w ++ regs (inflight s) = chs fly) ∧ regs (cur_buf s) = chs cur ∧
    (sy_loop s = Idle → fly = []);
  core_prios : prios (sy_conn s) ++ prios (inflight s) ++ pp = ps
}.

Definition held (k : cont) : list sframe := match k with KFrame f => [f] | _ => [] end.

Definition inv (fs : list sframe) (ps : list bytes) s : Prop :=
  match sy_pc s with
  | Sending from k =>
      core fs ps (held k) (prios (drop from (cur_buf s))) s ∧
      regs (drop from (cur_buf s)) = regs (cur_buf s) ∧ (batched = false → held k = [])
  | _ => core fs ps [] [] s ∧ (batched = false → cur_buf s = [])
  end.

(** Changing only the program counter or the timer. *)
Lemma core_pc fs ps kf pp s p t : core fs ps kf pp s → core fs ps kf pp (set_pc p (set_timer t s)).
Proof. intros [H1 H2 H3 H4 H5]. by split. Qed.

Lemma core_set_pc fs ps kf pp s p : core fs ps kf pp s → core fs ps kf pp (set_pc p s).
Proof. intros [H1 H2 H3 H4 H5]. by split. Qed.
Lemma core_set_timer fs ps kf pp s t : core fs ps kf pp s → core fs ps kf pp (set_timer t s).
Proof. intros [H1 H2 H3 H4 H5]. by split. Qed.

(** The buffer being filled is not the one being written. *)
Lemma inflight_upd s l p c t cb : (∀ f, sy_loop s = Busy f → fl_buf f ≠ sy_cur s) →
  inflight (mkSys p (sy_cur s) (upd (sy_cur s) l (sy_bufs s)) cb t (sy_loop s) (sy_conn s) c) = inflight s.
Proof.
  intros H. unfold inflight. cbn. destruct (sy_loop s) as [|f|] eqn:E; try done.
  by rewrite upd_ne by (apply not_eq_sym, (H f); done).
Qed.
Lemma flying_upd s l p b c t : (∀ f, sy_loop s = Busy f → fl_buf f ≠ sy_cur s) →
  flying_cbs (mkSys p (sy_cur s) b (upd (sy_cur s) l (sy_cbs s)) t (sy_loop s) (sy_conn s) c) = flying_cbs s.
Proof.
  intros H. unfold flying_cbs. cbn. destruct (sy_loop s) as [|f|] eqn:E; try done.
  by rewrite upd_ne by (apply not_eq_sym, (H f); done).
Qed.

Lemma shape_upd s l : (∀ i, shape (sy_bufs s i)) → shape l → ∀ i, shape (upd (sy_cur s) l (sy_bufs s) i).
Proof. intros H Hl i. unfold upd. by destruct (eqb (sy_cur s) i). Qed.

Lemma core_append fs ps kf f s : core fs ps (f :: kf) [] s → core fs ps kf [] (append_frame f s).
Proof.
  intros [H1 H2 H3 (fin & fly & cur & -> & Hcd & Hfl & Hcu & Hconn & Hbuf & Hidle) H5]. unfold append_frame.
  split; cbn [sy_loop sy_cur sy_bufs]; [done..| | |].
  - apply shape_upd; [done|]. intros Hb. destruct (H3 (sy_cur s) Hb) as (x & rs & E). unfold cur_buf. rewrite E.
    exists x, (rs ++ f_chunks f). by rewrite fmap_app.
  - exists fin, fly, (cur ++ [f]). rewrite inflight_upd by done. rewrite flying_upd by done.
    unfold cur_cbs, cur_buf. cbn [sy_cur sy_bufs sy_cbs sy_called sy_conn sy_loop]. rewrite !upd_eq.
    fold (cur_cbs s) (cur_buf s). rewrite regs_app, regs_Reg, Hbuf, Hcu, chs_app, cbs_app.
    split_and!; try done; [by rewrite <-!app_assoc|by cbn; rewrite app_nil_r..].
  - rewrite inflight_upd by done. exact H5.
Qed.

Lemma inv_resume fs ps k s :
  core fs ps (held k) [] s → (batched = false → cur_buf s = [] ∧ held k = []) → inv fs ps (resume k s).
Proof.
  intros H Hb. destruct k as [|f| |]; cbn [resume]; unfold inv; cbn [sy_pc set_pc].
  - split; [by apply core_set_pc|]. intros E. by destruct (Hb E).
  - split; [by apply core_set_pc, core_append|]. intros E. by destruct (Hb E).
  - split; [by apply core_set_pc|]. intros E. by destruct (Hb E).
  - split; [by apply core_set_pc|]. intros E. by destruct (Hb E).
Qed.

Lemma inv_doWrite fs ps from k s :
  core fs ps (held k) (prios (drop from (cur_buf s))) s → regs (drop from (cur_buf s)) = regs (cur_buf s) →
  (batched = false → held k = []) → inv fs ps (doWrite batched from k s).
Proof.
  intros H Hr Hk. unfold doWrite. destruct batched eqn:Hb; cbn [andb].
  - case_bool_decide as E.
    + rewrite E in H. apply inv_resume; [exact H|congruence].
    + unfold inv. cbn [sy_pc set_pc]. split; [by apply core_set_pc|]. split; [done|congruence].
  - unfold inv. cbn [sy_pc set_pc]. split; [by apply core_set_pc|]. split; [done|]. intros _. by apply Hk.
Qed.

(** From index 1 on, a batched buffer holds no priority frame. *)
Lemma shape_drop1 s : batched = true → (∀ i, shape (sy_bufs s i)) →
  prios (drop 1 (cur_buf s)) = [] ∧ regs (drop 1 (cur_buf s)) = regs (cur_buf s).
Proof.
  intros Hb H. destruct (H (sy_cur s) Hb) as (x & rs & E). unfold cur_buf. rewrite E.
  split; [exact (prios_Reg rs)|done].
Qed.

Lemma core_put_prio fs ps b s : core fs ps [] [] s → (batched = false → cur_buf s = []) →
  core fs (ps ++ [b]) [] (prios (drop 0 (cur_buf (put_prio batched b s)))) (put_prio batched b s).
Proof.
  intros [H1 H2 H3 H4 H5] Hi. rewrite drop_0. unfold put_prio.
  assert (∃ l, (if batched then set_buf (Prio b :: tail (cur_buf s)) s else set_buf (cur_buf s ++ [Prio b]) s) = set_buf l s ∧
    shape l ∧ regs l = regs (cur_buf s) ∧ prios l = [b]) as (l & -> & Hsh & Hr & Hp).
  { destruct batched eqn:Hb.
    - destruct (H3 (sy_cur s) Hb) as (x & rs & E). unfold cur_buf. rewrite E. cbn [tail]. eexists. split; [done|].
      split; [intros _; by exists b, rs|]. split; [done|]. exact (f_equal (cons b) (prios_Reg rs)).
    - rewrite (Hi eq_refl). eexists. split; [done|]. split; [intros ?; congruence|done]. }
  assert (cur_buf (set_buf l s) = l) as Hcb by (unfold cur_buf, set_buf; cbn; apply upd_eq).
  rewrite Hcb, Hp. unfold set_buf. split; cbn [sy_loop sy_cur sy_bufs]; [done..| | |].
  - by apply shape_upd.
  - destruct H4 as (fin & fly & cur & -> & Hcd & Hfl & Hcu & Hconn & Hbuf & Hidle). exists fin, fly, cur.
    rewrite inflight_upd by done. unfold cur_buf. cbn [sy_cur sy_bufs]. rewrite upd_eq, Hr. by split_and!.
  - rewrite inflight_upd by done. cbn [sy_conn]. rewrite <-H5. by rewrite <-!app_assoc.
Qed.

Lemma core_frame fs ps kf pp f s : core fs ps kf pp s → core (fs ++ [f]) ps (kf ++ [f]) pp s.
Proof.
  intros [H1 H2 H3 (fin & fly & cur & -> & H) H5]. split; try done. exists fin, fly, cur.
  split; [by rewrite <-!app_assoc|done].
Qed.
(** The hand-over: the processor goes on with the other pair of buffers. *)
Lemma core_handover fs ps k from s p : sy_loop s = Idle →
  core fs ps (held k) (prios (drop from (cur_buf s))) s → regs (drop from (cur_buf s)) = regs (cur_buf s) →
  let i := sy_cur s in
  let s' := mkSys p (negb i) (upd (negb i) (take (base batched) (sy_bufs s (negb i))) (sy_bufs s))
              (upd (negb i) [] (sy_cbs s)) false (Busy (mkFlight i from)) (sy_conn s) (sy_called s) in
  core fs ps (held k) [] s' ∧ (batched = false → cur_buf s' = []).
Proof.
  intros Hi [H1 H2 H3 (fin & fly & cur & -> & Hcd & Hfl & Hcu & Hconn & Hbuf & Hidle) H5] Hr. cbn zeta.
  assert (∀ i : bool, negb i ≠ i) as Hneg by (by intros []).
  assert (inflight s = []) as Hin by (unfold inflight; by rewrite Hi).
  assert (batched = true → ∃ x, take (base batched) (sy_bufs s (negb (sy_cur s))) = [Prio x]) as Htake.
  { intros Hb. destruct (H3 (negb (sy_cur s)) Hb) as (x & rs & ->). unfold base. rewrite Hb. by exists x. }
  assert (batched = false → take (base batched) (sy_bufs s (negb (sy_cur s))) = []) as Htake' by (unfold base; by intros ->).
  split; [split; cbn [sy_loop sy_cur sy_bufs]|].
  - done.
  - intros f [= <-]. cbn. intros E. by apply (Hneg (sy_cur s)).
  - intros j. unfold upd. destruct (eqb (negb (sy_cur s)) j); [|apply H3].
    intros Hb. destruct (Htake Hb) as [x ->]. by exists x, [].
  - rewrite (Hidle Hi) in *. exists fin, cur, [].
    unfold flying_cbs, inflight, cur_cbs, cur_buf. cbn [sy_loop sy_cur sy_bufs sy_cbs sy_called sy_conn fl_buf fl_pos].
    rewrite !upd_eq, !upd_ne by apply Hneg. fold (cur_buf s) (cur_cbs s).
    destruct Hconn as (w & Hw & Hwf). rewrite Hin in Hwf. apply app_nil in Hwf as [-> _]. rewrite app_nil_r in Hw.
    split_and!; [done..|exists []; by rewrite Hr, Hbuf, app_nil_r| |done].
    destruct batched eqn:Hb; [destruct (Htake eq_refl) as [x ->]|rewrite (Htake' eq_refl)]; done.
  - unfold inflight. cbn [sy_loop sy_bufs sy_conn fl_buf fl_pos]. rewrite upd_ne by apply Hneg. fold (cur_buf s).
    rewrite Hin in H5. cbn in H5. by rewrite app_nil_r.
  - intros Hb. unfold cur_buf. cbn [sy_cur sy_bufs]. by rewrite upd_eq, Htake'.
Qed.

(** Writing one chunk of the command, and running its callbacks at its end. *)
Lemma core_write fs ps kf pp s f c : sy_loop s = Busy f → sy_bufs s (fl_buf f) !! fl_pos f = Some c →
  core fs ps kf pp s →
  core fs ps kf pp (mkSys (sy_pc s) (sy_cur s) (sy_bufs s) (sy_cbs s) (sy_timer s)
    (Busy (mkFlight (fl_buf f) (S (fl_pos f)))) (sy_conn s ++ [c]) (sy_called s)).
Proof.
  intros Hf Hc [H1 H2 H3 (fin & fly & cur & -> & Hcd & Hfl & Hcu & Hconn & Hbuf & Hidle) H5].
  unfold inflight, flying_cbs in *. rewrite Hf in *.
  rewrite (drop_S _ c) in Hconn, H5 by done.
  split; cbn [sy_loop sy_cur sy_bufs]; [done| |done| |].
  - intros f' [= <-]. by apply (H2 f).
  - exists fin, fly, cur. unfold inflight, flying_cbs. cbn [sy_loop sy_bufs sy_cbs sy_conn fl_buf fl_pos].
    destruct Hconn as (w & Hw & Hwf). split_and!; try done. exists (w ++ regs [c]).
    by rewrite regs_app, Hw, <-!app_assoc, <-regs_app.
  - unfold inflight. cbn [sy_loop sy_bufs sy_conn fl_buf fl_pos]. rewrite <-H5.
    rewrite prios_app, <-!app_assoc. f_equal. rewrite app_assoc, <-prios_app. done.
Qed.

Lemma core_callbacks fs ps kf pp s f : sy_loop s = Busy f → sy_bufs s (fl_buf f) !! fl_pos f = None →
  core fs ps kf pp s →
  core fs ps kf pp (mkSys (sy_pc s) (sy_cur s) (sy_bufs s) (sy_cbs s) (sy_timer s) Idle
    (sy_conn s) (sy_called s ++ sy_cbs s (fl_buf f))).
Proof.
  intros Hf Hc [H1 H2 H3 (fin & fly & cur & -> & Hcd & Hfl & Hcu & Hconn & Hbuf & Hidle) H5].
  unfold inflight, flying_cbs in *. rewrite Hf in *. apply lookup_ge_None in Hc. rewrite drop_ge in Hconn, H5 by done.
  split; cbn [sy_loop sy_cur sy_bufs]; [done|done|done| |].
  - exists (fin ++ fly), [], cur. unfold inflight, flying_cbs. cbn [sy_loop sy_called sy_conn].
    rewrite Hcd, Hfl, cbs_app, chs_app. destruct Hconn as (w & Hw & Hwf). cbn in Hwf. rewrite app_nil_r in Hwf.
    split_and!; try done; [by rewrite <-app_assoc|]. exists []. by rewrite app_nil_r, Hw, Hwf.
  - unfold inflight. cbn [sy_loop sy_conn]. exact H5.
Qed.

(** The failures of the connection, outside this invariant. *)
Definition alive (l : label) : Prop := match l with LFail | LStopLoop => False | _ => True end.

(** A step of the send loop leaves the processor alone. *)
Lemma inv_loop fs ps s s' : sy_pc s' = sy_pc s → cur_buf s' = cur_buf s →
  (∀ kf pp, core fs ps kf pp s → core fs ps kf pp s') → inv fs ps s → inv fs ps s'.
Proof.
  unfold inv. intros Hp Hc H. rewrite Hp, Hc. destruct (sy_pc s); intros [? ?]; split; auto.
Qed.

Lemma inv_step fs ps l s s' : alive l → inv fs ps s → step batched l s = Some s' →
  inv (fs ++ frames_of [l]) (ps ++ prios_of [l]) s'.
Proof.
  intros Hl H Hs.
  assert (∀ p, sy_pc s = p → match p with Running | Draining => core fs ps [] [] s ∧ (batched = false → cur_buf s = []) | _ => True end) as Hrun
    by (intros p <-; unfold inv in H; by destruct (sy_pc s)).
  destruct l as [b|f| | | | | | | |]; try done; cbn [frames_of prios_of omap list_omap]; rewrite ?app_nil_r;
    unfold step in Hs; cbn beta iota in Hs.
  - destruct (sy_pc s) eqn:Hpc; try done; destruct (Hrun _ eq_refl) as [Hc Hi]; injection Hs as <-;
      (apply inv_doWrite; [by apply core_put_prio|by rewrite drop_0|done]).
  - destruct (sy_pc s) eqn:Hpc; try done. destruct (Hrun _ eq_refl) as [Hc Hi].
    pose proof (core_set_timer _ _ _ _ s true (core_frame _ _ _ _ f s Hc)) as Hct.
    destruct batched eqn:Hb; pose proof (f_equal doWrite (eq_sym Hb)) as Hdw.
    + destruct (shape_drop1 (set_timer true s) Hb) as [Hp1 Hr1]; [apply Hct|].
      destruct (MaxBuffers <? _); injection Hs as <-.
      * rewrite Hdw. apply inv_doWrite; [by rewrite Hp1|done|congruence].
      * unfold inv. change (sy_pc (append_frame f (set_timer true s))) with (sy_pc s). rewrite Hpc.
        split; [by apply core_append|congruence].
    + injection Hs as <-. rewrite Hdw.
      assert (cur_buf (append_frame f s) = Reg <$> f_chunks f) as Hcb.
      { unfold cur_buf, append_frame. cbn. rewrite upd_eq. fold (cur_buf s). by rewrite Hi. }
      apply inv_doWrite; [|by rewrite drop_0|done]. rewrite drop_0, Hcb, prios_Reg.
      apply core_append. exact (core_frame _ _ _ _ f s Hc).
  - destruct (sy_pc s) eqn:Hpc; try done. destruct (Hrun _ eq_refl) as [Hc Hi].
    destruct batched eqn:Hb; pose proof (f_equal doWrite (eq_sym Hb)) as Hdw; injection Hs as <-.
    + destruct (shape_drop1 (set_timer true s) Hb) as [Hp1 Hr1]; [apply Hc|].
      rewrite Hdw. apply inv_doWrite; [rewrite Hp1; by apply core_set_timer|done|done].
    + unfold inv. cbn [sy_pc set_pc]. split; [by apply core_set_pc|intros; by apply Hi].
  - destruct (sy_pc s) eqn:Hpc; try done. destruct (Hrun _ eq_refl) as [Hc Hi].
    destruct batched eqn:Hb; [|done]. pose proof (f_equal doWrite (eq_sym Hb)) as Hdw. cbn [andb] in Hs. destruct (sy_timer s); [|done]. injection Hs as <-.
    destruct (shape_drop1 s Hb) as [Hp1 Hr1]; [apply Hc|].
    rewrite Hdw. apply inv_doWrite; [by rewrite Hp1|done|done].
  - destruct (sy_pc s) eqn:Hpc; try done; destruct (Hrun _ eq_refl) as [Hc Hi].
    + destruct batched eqn:Hb; pose proof (f_equal doWrite (eq_sym Hb)) as Hdw; injection Hs as <-.
      * destruct (shape_drop1 s Hb) as [Hp1 Hr1]; [apply Hc|].
        rewrite Hdw. apply inv_doWrite; [by rewrite Hp1|done|done].
      * unfold inv. cbn [sy_pc set_pc]. split; [by apply core_set_pc|intros; by apply Hi].
    + injection Hs as <-. unfold inv. cbn [sy_pc set_pc]. split; [by apply core_set_pc|intros; by apply Hi].
  - unfold inv in H. destruct (sy_pc s) as [| |from k|] eqn:Hpc; try done.
    destruct H as (Hc & Hr & Hk). destruct (sy_loop s) as [|f|] eqn:Hloop; try done. injection Hs as <-.
    destruct (core_handover fs ps k from s (Sending from k) Hloop Hc Hr) as [Hc' Hb'].
    apply inv_resume; [exact Hc'|]. intros Hb. split; [by apply Hb'|by apply Hk].
  - destruct (sy_loop s) as [|f|] eqn:Hloop; [by destruct (sy_pc s)| |by destruct (sy_pc s)].
    destruct (sy_bufs s (fl_buf f) !! fl_pos f) as [c|] eqn:Hc; [|by destruct (sy_pc s)].
    assert (s' = mkSys (sy_pc s) (sy_cur s) (sy_bufs s) (sy_cbs s) (sy_timer s)
            (Busy (mkFlight (fl_buf f) (S (fl_pos f)))) (sy_conn s ++ [c]) (sy_called s)) as -> by (by destruct (sy_pc s); injection Hs as <-).
    apply (inv_loop fs ps s); [done..| |done]. intros kf pp. by apply core_write.
  - destruct (sy_loop s) as [|f|] eqn:Hloop; [by destruct (sy_pc s)| |by destruct (sy_pc s)].
    destruct (sy_bufs s (fl_buf f) !! fl_pos f) as [c|] eqn:Hc; [by destruct (sy_pc s)|].
    assert (s' = mkSys (sy_pc s) (sy_cur s) (sy_bufs s) (sy_cbs s) (sy_timer s) Idle
            (sy_conn s) (sy_called s ++ sy_cbs s (fl_buf f))) as -> by (by destruct (sy_pc s); injection Hs as <-).
    apply (inv_loop fs ps s); [done..| |done]. intros kf pp. by apply core_callbacks.
Qed.
End proofs.

Lemma inv_init batched : inv batched [] [] (sys_init batched).
Proof.
  split; [|by intros ->]. split; [done|done| | |done].
  - intros i Hb. unfold sys_init, base. cbn. rewrite Hb. by exists [], [].
  - exists [], [], []. unfold cur_buf. cbn. split_and!; try done; [by exists []|by destruct batched].
Qed.

Lemma inv_steps batched ls : ∀ fs ps s s', Forall alive ls → inv batched fs ps s → steps batched ls s = Some s' →
  inv batched (fs ++ frames_of ls) (ps ++ prios_of ls) s'.
Proof.
  induction ls as [|l ls IH]; intros fs ps s s' Hl H Hs; cbn [steps] in Hs.
  - simplify_eq. cbn. by rewrite !app_nil_r.
  - apply Forall_cons in Hl as [Hl Hls]. apply bind_Some in Hs as (s1 & H1 & Hs).
    pose proof (inv_step batched fs ps l s s1 Hl H H1) as H2.
    change (l :: ls) with ([l] ++ ls). unfold frames_of, prios_of. rewrite !omap_app, !app_assoc. by eapply IH.
Qed.

(** What the processor has accepted and not yet handed over. *)
Definition gathered (s : sys) : list bytes :=
  regs (cur_buf s) ++ chs (match sy_pc s with Sending _ k => held k | _ => [] end).

Lemma inv_core batched fs ps s : inv batched fs ps s →
  ∃ pp, core batched fs ps (match sy_pc s with Sending _ k => held k | _ => [] end) pp s.
Proof. unfold inv. destruct (sy_pc s); intros [H _]; eauto. Qed.

Lemma steps_snoc batched ls l s : steps batched (ls ++ [l]) s = s' ← steps batched ls s; step batched l s'.
Proof.
  revert s. induction ls as [|x ls IH]; intros s; cbn.
  - by destruct (step batched l s).
  - destruct (step batched x s); cbn; auto.
Qed.

(** Callbacks are only ever added. *)
Lemma step_called batched l s s' : step batched l s = Some s' → sy_called s `prefix_of` sy_called s'.
Proof.
  assert (∀ k s, sy_called (resume k s) = sy_called s) as Hres by (by intros []).
  assert (∀ from k s, sy_called (doWrite batched from k s) = sy_called s) as Hdo.
  { intros from k t. unfold doWrite. case_match; [apply Hres|done]. }
  unfold step, put_prio. intros H. repeat (first [case_match | apply bind_Some in H as (? & ? & H)]; simplify_eq); try done;
    rewrite ?Hdo, ?Hres; cbn; try done; first [by eexists|idtac].
Qed.

(** The callbacks run are those of the first requests, all written. *)
Lemma called_written batched ls s : Forall alive ls → steps batched ls (sys_init batched) = Some s →
  ∃ fin rest, frames_of ls = fin ++ rest ∧ sy_called s = cbs fin ∧ chs fin `prefix_of` regs (sy_conn s).
Proof.
  intros Hl Hs. destruct (inv_core batched _ _ s (inv_steps batched ls [] [] _ s Hl (inv_init batched) Hs))
    as (pp & [_ _ _ (fin & fly & cur & Hfs & Hcd & _ & _ & (w & Hw & _) & _) _]).
  eexists fin, _. split; [exact Hfs|]. split; [done|]. rewrite Hw. by eexists.
Qed.

(** C9: The sender loses, repeats and reorders nothing. Under every interleaving of
    requests, priority frames, timer, cancellation and the two goroutines, as
    long as the connection accepts the writes: the chunks of the requests that
    reached the connection, those in the current command and those gathered
    are, in this order, the chunks accepted; priority frames keep their order;
    and the callbacks run are those of a prefix of the requests whose every
    byte has been written before. *)
Theorem sender_delivers_in_order batched ls s :
  Forall alive ls → steps batched ls (sys_init batched) = Some s →
  regs (sy_conn s) ++ regs (inflight s) ++ gathered s = chs (frames_of ls) ∧
  prios (sy_conn s) `prefix_of` prios_of ls ∧
  ∃ fin rest, frames_of ls = fin ++ rest ∧ sy_called s = cbs fin ∧ chs fin `prefix_of` regs (sy_conn s).
Proof.
  intros Hl Hs. destruct (inv_core batched _ _ s (inv_steps batched ls [] [] _ s Hl (inv_init batched) Hs))
    as (pp & [H1 H2 H3 (fin & fly & cur & Hfs & Hcd & Hfl & Hcu & Hconn & Hbuf & Hidle) H5]).
  destruct Hconn as (w & Hw & Hwf). cbn [app] in *. unfold gathered. split; [|split; [|by apply (called_written batched)]].
  - rewrite Hfs, !chs_app, Hbuf, Hw, <-Hwf. by rewrite <-!app_assoc.
  - rewrite <-H5. by eexists.
Qed.

Definition example_run : list label :=
  [LFrame (mkSFrame [[1]; [2]] [CbFirstByteSent 0%nat]); LFrame (mkSFrame [[3]] [CbLastByteSent 0%nat]);
   LPrio [9]; LHandOver; LWrite; LFrame (mkSFrame [[4]] []); LWrite].

Theorem sender_delivers_in_order_witness :
  ∃ s, steps true example_run (sys_init true) = Some s ∧
  sy_conn s = [Prio [9]; Reg [1]] ∧ regs (inflight s) = [[2]; [3]] ∧ gathered s = [[4]] ∧
  regs (sy_conn s) ++ regs (inflight s) ++ gathered s = chs (frames_of example_run) ∧
  prios (sy_conn s) `prefix_of` prios_of example_run ∧
  ∃ fin rest, frames_of example_run = fin ++ rest ∧ sy_called s = cbs fin ∧ chs fin `prefix_of` regs (sy_conn s).
Proof.
  eexists. split; [vm_compute; reflexivity|]. split; [reflexivity|]. split; [reflexivity|]. split; [reflexivity|].
  apply (sender_delivers_in_order true example_run).
  - repeat (apply Forall_cons; split; [exact I|]). apply Forall_nil_2.
  - vm_compute. reflexivity.
Defined.

(** *** The size of a write *)
Definition small (f : sframe) : Prop := (length (f_chunks f) ≤ 3)%nat.

Record bounded (s : sys) : Prop := {
  bounded_bufs : ∀ i, zlen (sy_bufs s i) <= MaxBuffers;
  bounded_held : match sy_pc s with Sending _ (KFrame f) => small f | _ => True end
}.

Lemma bounded_upd (s : sys) l : (∀ i, zlen (sy_bufs s i) <= MaxBuffers) → zlen l <= MaxBuffers →
  ∀ i j, zlen (upd j l (sy_bufs s) i) <= MaxBuffers.
Proof. intros H Hl i j. unfold upd. by destruct (eqb j i). Qed.

Lemma bounded_append f s : (∀ i, zlen (sy_bufs s i) <= MaxBuffers) → small f → 3 + zlen (cur_buf s) <= MaxBuffers →
  ∀ i, zlen (sy_bufs (append_frame f s) i) <= MaxBuffers.
Proof.
  intros H Hf Hc i. unfold append_frame. cbn [sy_bufs]. apply bounded_upd; [done|].
  unfold small in Hf. rewrite zlen_app. unfold zlen in *. rewrite length_fmap. lia.
Qed.

Lemma bounded_resume k s : (∀ i, zlen (sy_bufs s i) <= MaxBuffers) → zlen (cur_buf s) <= 1 →
  match k with KFrame f => small f | _ => True end → bounded (resume k s).
Proof.
  intros H Hc Hk. destruct k as [|f| |]; split; try done. cbn [resume set_pc sy_bufs].
  intros i. apply bounded_append; [done|done|]. change MaxBuffers with 2048. lia.
Qed.

Lemma bounded_doWrite k s : (∀ i, zlen (sy_bufs s i) <= MaxBuffers) →
  match k with KFrame f => small f | _ => True end → bounded (doWrite true 1 k s).
Proof.
  intros H Hk. unfold doWrite. cbn [andb]. case_bool_decide as E; [|by split].
  apply bounded_resume; [done| |done]. apply (f_equal length) in E. rewrite length_drop in E.
  unfold zlen. cbn in E. lia.
Qed.

Lemma bounded_step l s s' : match l with LFrame f => small f | _ => True end →
  bounded s → step true l s = Some s' → bounded s'.
Proof.
  intros Hl [H1 H2] Hs.
  assert (∀ b, zlen (Prio b :: tail (cur_buf s)) <= MaxBuffers) as Htail.
  { intros b. specialize (H1 (sy_cur s)). fold (cur_buf s) in H1. rewrite zlen_cons.
    destruct (cur_buf s) as [|x l']; cbn [tail]; [vm_compute; congruence|]. rewrite zlen_cons in H1. lia. }
  unfold step in Hs. destruct l as [b|f| | | | | | | |]; try done.
  - destruct (sy_pc s); try done; injection Hs as <-; unfold doWrite; cbn [andb];
      case_bool_decide; (split; [|done]); cbn; intros i; by apply bounded_upd.
  - destruct (sy_pc s) eqn:Hpc; try done. destruct (Z.ltb_spec MaxBuffers (3 + zlen (cur_buf (set_timer true s)))) as [Hlt|Hge];
      injection Hs as <-; [by apply bounded_doWrite|].
    split; [by apply bounded_append|]. change (sy_pc (append_frame f (set_timer true s))) with (sy_pc s). by rewrite Hpc.
  - destruct (sy_pc s); try done. injection Hs as <-. by apply bounded_doWrite.
  - destruct (sy_pc s); try done. destruct (sy_timer s); [|done]. injection Hs as <-. by apply bounded_doWrite.
  - destruct (sy_pc s); try done; injection Hs as <-; [by apply bounded_doWrite|by split].
  - destruct (sy_pc s) as [| |from k|]; try done. destruct (sy_loop s); try done. injection Hs as <-.
    apply bounded_resume; [| |by destruct k].
    + intros i. cbn [sy_bufs]. apply bounded_upd; [done|]. unfold zlen. rewrite length_take.
      change MaxBuffers with 2048. unfold base. lia.
    + unfold cur_buf. cbn [sy_cur sy_bufs]. rewrite upd_eq. unfold zlen. rewrite length_take. unfold base. lia.
  - destruct (sy_loop s) as [|f|]; try (by destruct (sy_pc s)).
    destruct (sy_bufs s (fl_buf f) !! fl_pos f); destruct (sy_pc s); try done; by injection Hs as <-.
  - destruct (sy_loop s) as [|f|]; try (by destruct (sy_pc s)).
    destruct (sy_bufs s (fl_buf f) !! fl_pos f); destruct (sy_pc s); try done; by injection Hs as <-.
  - destruct (sy_loop s) as [|f|]; try (by destruct (sy_pc s)). destruct (sy_pc s); by injection Hs as <-.
  - destruct (sy_loop s) as [|f|]; try (by destruct (sy_pc s)). destruct (sy_pc s); by injection Hs as <-.
Qed.

(** A batch stays under its limit: no command of the batched processor is longer
    than 2048 buffers, whatever happens on the connection. *)
Theorem batch_bounded ls s :
  Forall (λ l, match l with LFrame f => small f | _ => True end) ls → steps true ls (sys_init true) = Some s →
  ∀ i, zlen (sy_bufs s i) <= MaxBuffers.
Proof.
  intros Hl Hs. enough (bounded s) as [H _] by done.
  assert (bounded (sys_init true)) as H0 by (split; [intros i; vm_compute; congruence|done]).
  revert H0 Hs. generalize (sys_init true). induction Hl as [|l ls Hl _ IH]; intros s0 H0 Hs; cbn [steps] in Hs.
  - by simplify_eq.
  - apply bind_Some in Hs as (s1 & H1 & Hs). eapply IH; [|exact Hs]. by eapply bounded_step.
Qed.

Theorem batch_bounded_witness :
  ∃ s, steps true example_run (sys_init true) = Some s ∧ ∀ i, zlen (sy_bufs s i) <= MaxBuffers.
Proof.
  eexists. split; [vm_compute; reflexivity|]. apply (batch_bounded example_run).
  - repeat (apply Forall_cons; split; [cbn; unfold small; cbn; lia || exact I|]). apply Forall_nil_2.
  - vm_compute. reflexivity.
Defined.

(** A flush at the limit stops the batch timer: the frame that caused it is
    gathered with no timer running, and goes out only with the next frame or
    priority frame. *)
Theorem flush_stops_timer f s :
  sy_pc s = Running → sy_loop s = Idle → MaxBuffers < 3 + zlen (cur_buf s) → f_chunks f ≠ [] →
  ∃ s', steps true [LFrame f; LHandOver] s = Some s' ∧ sy_pc s' = Running ∧ sy_timer s' = false ∧
    regs (cur_buf s') ≠ [] ∧ step true LTimer s' = None.
Proof.
  intros Hp Hl Hb Hf.
  assert (step true (LFrame f) s = Some (set_pc (Sending 1 (KFrame f)) (set_timer true s))) as H1.
  { unfold step. rewrite Hp. change (cur_buf (set_timer true s)) with (cur_buf s).
    rewrite (proj2 (Z.ltb_lt _ _)) by done. unfold doWrite. cbn [andb].
    rewrite bool_decide_false; [done|]. change (cur_buf (set_timer true s)) with (cur_buf s). intros E.
    apply (f_equal length) in E. rewrite length_drop in E. change MaxBuffers with 2048 in Hb.
    unfold zlen in Hb. cbn in E. lia. }
  cbn [steps]. rewrite H1. cbn [mbind option_bind]. unfold step at 1. cbn [sy_pc set_pc sy_loop set_timer].
  rewrite Hl. cbn [mbind option_bind resume]. eexists. split; [reflexivity|]. split; [done|]. split; [done|].
  split; [|done]. unfold cur_buf, append_frame, set_pc. cbn [sy_cur sy_bufs]. rewrite upd_eq, regs_app, regs_Reg.
  intros E. apply app_eq_nil in E as [_ E]. done.
Qed.

(** *** Requests *)

(** C16: A request that is set up: it is registered before its first frame is queued,
    so no response can come for an unknown stream; its frames are queued whole
    and in order, with the callbacks once each: the first byte with the first
    frame, the last byte and the release with the last. *)
Theorem send_queues_in_order s tag n fs streamID :
  fs ≠ [] →
  let id := u32 (streamID + 2) in
  ∃ queue, (send s tag n (inl fs) (λ _, true) (λ _, true) streamID).1 =
      [CWaitAllow; CAcquire id tag; CSetUp id; CSetSize s n; CStoreSet id s] ++ queue ∧
    let queued := omap (λ c, match c with CQueue f => Some f | _ => None end) queue in
    f_chunks <$> queued = Chunks <$> fs ∧ cbs queued = [CbFirstByteSent s; CbLastByteSent s; CbRelease id] ∧
    (∃ f, head queued = Some f ∧ CbFirstByteSent s ∈ f_cbs f) ∧
    (∃ f, last queued = Some f ∧ CbRelease id ∈ f_cbs f).
Proof.
  intros Hfs. cbn zeta. set (id := u32 (streamID + 2)).
  exists (send_frames s (λ _, true) (λ _, true) id 0 fs). split; [done|].
  set (queued i l := omap (λ c, match c with CQueue f => Some f | _ => None end)
    (send_frames s (λ _, true) (λ _, true) id i l)).
  assert (H : ∀ l i, l ≠ [] → f_chunks <$> queued i l = Chunks <$> l ∧
    cbs (queued i l) = (if decide (i = 0%nat) then [CbFirstByteSent s] else []) ++ [CbLastByteSent s; CbRelease id] ∧
    (∃ f, last (queued i l) = Some f ∧ CbRelease id ∈ f_cbs f)).
  { induction l as [|f l IH]; intros i Hl; [done|]. destruct l as [|g l].
    - unfold queued. cbn. split; [done|]. split.
      + by case_decide.
      + eexists. split; [done|]. cbn. case_decide; set_solver.
    - destruct (IH (S i)) as (H1 & H2 & (fl & H3 & H4)); [done|].
      change (queued i (f :: g :: l)) with
        (mkSFrame (Chunks f) ((if decide (i = 0%nat) then [CbFirstByteSent s] else []) ++ []) :: queued (S i) (g :: l)).
      split; [cbn [fmap list_fmap f_chunks]; f_equal; exact H1|]. split.
      + change (cbs (?x :: ?y)) with (f_cbs x ++ cbs y). rewrite H2. cbn. by rewrite app_nil_r.
      + exists fl. split; [|done]. rewrite last_cons. by rewrite H3. }
  fold (queued 0%nat fs). destruct (H fs 0%nat Hfs) as (H1 & H2 & H3). split; [done|]. split; [done|]. split; [|done].
  destruct fs as [|f [|g fs]]; [done|..]; eexists; (split; [reflexivity|cbn; set_solver]).
Qed.

Theorem send_queues_in_order_witness :
  ∃ queue, (send 4%nat (str "t") 70 (inl [mkFrame [[1]; [2]] 0; mkFrame [[3]; [4]; [5]] 6]) (λ _, true) (λ _, true) 1).1 =
      [CWaitAllow; CAcquire 3 (str "t"); CSetUp 3; CSetSize 4%nat 70; CStoreSet 3 4%nat] ++ queue ∧
    let queued := omap (λ c, match c with CQueue f => Some f | _ => None end) queue in
    f_chunks <$> queued = [[[1]; [2]]; [[3]; [4]; [5]]] ∧
    cbs queued = [CbFirstByteSent 4%nat; CbLastByteSent 4%nat; CbRelease 3] ∧
    (∃ f, head queued = Some f ∧ CbFirstByteSent 4%nat ∈ f_cbs f) ∧
    (∃ f, last queued = Some f ∧ CbRelease 3 ∈ f_cbs f).
Proof. apply (send_queues_in_order 4%nat (str "t") 70 [mkFrame [[1]; [2]] 0; mkFrame [[3]; [4]; [5]] 6] 1). discriminate. Defined.

(** A request whose [SetUp] fails takes a permit of the limiter and gives none
    back, and its request object is never released. *)
Theorem failed_setup_leaks s tag n streamOk connOk streamID :
  let calls := (send s tag n (inr tt) streamOk connOk streamID).1 in
  CWaitAllow ∈ calls ∧ CEnd s ∈ calls ∧ CLimiterRelease ∉ calls ∧
  CReqRelease (u32 (streamID + 2)) ∉ calls ∧ ∀ f, CQueue f ∉ calls.
Proof. cbn. split_and!; try intros f; set_solver. Qed.

Lemma stream_ids_lookup n i streamID : (i < n)%nat → 0 <= streamID → streamID + 2 * (Z.of_nat n) < 2 ^ 32 →
  stream_ids n streamID !! i = Some (streamID + 2 * (Z.of_nat i + 1)).
Proof.
  revert i streamID. induction n as [|n IH]; intros i streamID Hi H0 Hb; [lia|]. cbn [stream_ids send snd].
  rewrite u32_id by (unfold is_u32; lia). destruct i as [|i]; cbn [lookup list_lookup]; [f_equal; lia|].
  rewrite IH by lia. f_equal. lia.
Qed.

(** The stream ids of a connection are odd, as the client's must be, and strictly
    increasing, for the first 2^31 - 2 requests; half of them are already
    beyond the 31 bits a stream id has. *)
Theorem stream_ids_odd_increasing n i j x y :
  Z.of_nat n < 2 ^ 31 - 1 → (i < j)%nat → stream_ids n 1 !! i = Some x → stream_ids n 1 !! j = Some y →
  Z.odd x = true ∧ 1 < x < y ∧ (x < 2 ^ 31 ↔ Z.of_nat i < 2 ^ 30 - 1).
Proof.
  intros Hn Hij Hx Hy. assert (∀ m k, length (stream_ids m k) = m) as Hlen by (induction m; cbn; auto).
  pose proof (lookup_lt_Some _ _ _ Hy) as Hj. rewrite Hlen in Hj.
  rewrite stream_ids_lookup in Hx, Hy by lia. simplify_eq. split; [|lia].
  by rewrite Z.odd_add_mul_2.
Qed.

Theorem stream_ids_odd_increasing_witness :
  stream_ids 3 1 = [3; 5; 7] ∧ Z.odd 3 = true ∧ 1 < 3 < 7 ∧ (3 < 2 ^ 31 ↔ Z.of_nat 0 < 2 ^ 30 - 1).
Proof.
  split; [reflexivity|]. apply (stream_ids_odd_increasing 3 0 2 3 7); reflexivity || lia.
Defined.
