(* ===== verification/Permits.v ===== *)
(** * Permits: the streams a connection has open

    Composes the limiter with the sender that takes its permits
    (src/loader/sender/sender.go, [send]) and the receiver that gives them back
    (src/loader/reciever/processor.go), over the store they share. *)

From S2P Require Import Prelude FrameHeader Types Store Framer Handlers Processor Receiver Effects Limiter Sender.

(** ** One frame *)
Section frame.
Context {S D HErr : Type} `{!StreamStore S} `{!StreamStoreSpec S} `{!HpackDecoder D HErr}.

(** The permits given back. *)
Definition released (es : list event) : Z := zlen (base.filter (λ e, e = EvLimiterRelease) es).

Lemma released_app es es' : released (es ++ es') = released es + released es'.
Proof. unfold released. by rewrite filter_app, zlen_app. Qed.
Lemma released_nonneg es : 0 <= released es.
Proof. apply zlen_nonneg. Qed.

(** Permits given back, [r] at least, and streams stored, all from [m0], add up
    to [c]. *)
Record balance (c r : Z) (m0 : gmap Z stream) (w : World S) : Prop := {
  ba_store : store_ok (w_store w);
  ba_sum : released (w_log w) + Z.of_nat (size (store_abs (w_store w))) = c;
  ba_grows : r <= released (w_log w);
  ba_within : store_abs (w_store w) ⊆ m0
}.

Lemma balance_quiet c r m0 e : e ≠ EvLimiterRelease → ∀ w, balance c r m0 w → balance c r m0 (log_app [e] w).
Proof.
  intros He w [H1 H2 H3 H4]. assert (released (w_log w ++ [e]) = released (w_log w)) as E.
  { rewrite released_app. unfold released at 2. rewrite filter_cons_False by done. change (zlen (base.filter _ [])) with 0. lia. }
  split; cbn [log_app w_store w_log]; by rewrite ?E.
Qed.
Hint Resolve balance_quiet : keeps.
Hint Extern 1 (_ ≠ EvLimiterRelease) => discriminate : keeps.

(** A stream leaves the store as its permit is given back. *)
Lemma balance_end c r m0 w id st' es x :
  balance c r m0 w → store_ok st' → store_abs st' = delete id (store_abs (w_store w)) →
  store_abs (w_store w) !! id = Some x → released es = 1 → balance c r m0 (mkWorld st' (w_log w ++ es)).
Proof.
  intros [H1 H2 H3 H4] Hst Habs Hx Hes. pose proof (map_size_ne_0_lookup_2 (store_abs (w_store w)) id (mk_is_Some _ _ Hx)).
  split; cbn [w_store w_log]; rewrite ?released_app, ?Habs, ?Hes; [done| |lia|].
  - rewrite map_size_delete, Hx. lia.
  - etrans; [apply delete_subseteq|done].
Qed.

(** A header that says a stream is over: RST_STREAM, or DATA with END_STREAM. These
    give a permit back whatever they name; HEADERS look first. *)
Definition ends_stream (h : bytes) : bool :=
  match Type_ h with
  | Some t => (t =? FrameRSTStream) || (t =? FrameData) && from_option (λ fl, flags_has fl FlagDataEndStream) false (Flags h)
  | None => false
  end.

(** It says so of a stream that is open. *)
Definition ends_open (m : gmap Z stream) (h : bytes) : Prop :=
  ends_stream h = true → ∀ id, StreamID h = Some id → is_Some (m !! id).

(** Handlers that lead from one property of the world to a weaker one. *)
Definition leads {P A} (I Q : World S → Prop) (m : PM S HErr P A) : Prop := ∀ s, I s.2 → Q (m s).2.2.

Lemma leads_bind {P A B} (I Q : World S → Prop) (m : PM S HErr P A) (f : A → PM S HErr P B) :
  (∀ w, I w → Q w) → keeps I m → (∀ a, leads I Q (f a)) → leads I Q (m ≫= f).
Proof.
  intros HQ Hm Hf s Hs. specialize (Hm s Hs). unfold mbind, gm_bind.
  destruct (m s) as [[a|e| |] s']; cbn in *; [by apply Hf|by apply HQ..].
Qed.

Lemma leads_index {P A B} (I Q : World S → Prop) (o : option A) (f : A → PM S HErr P B) :
  (∀ w, I w → Q w) → (∀ a, o = Some a → leads I Q (f a)) → leads I Q (gm_index o ≫= f).
Proof. intros HQ H. destruct o; [by apply H|]. intros s Hs. by apply HQ. Qed.
Lemma leads_keeps {P A} (I Q : World S → Prop) (m : PM S HErr P A) : (∀ w, I w → Q w) → keeps I m → leads I Q m.
Proof. intros HQ H s Hs. by apply HQ, H. Qed.

(** The balance, and what is stored. *)
Definition balance_at (c r : Z) (m0 m : gmap Z stream) (w : World S) : Prop := balance c r m0 w ∧ store_abs (w_store w) = m.

Lemma balance_at_quiet c r m0 m e : e ≠ EvLimiterRelease → ∀ w, balance_at c r m0 m w → balance_at c r m0 m (log_app [e] w).
Proof. intros He w [Hb Hm]. split; [by apply balance_quiet|done]. Qed.
Hint Resolve balance_at_quiet : keeps.

Lemma balance_at_end c r m0 m w id st' es x : balance_at c r m0 m w → m !! id = Some x → store_ok st' → store_abs st' = delete id m →
  released es = 1 → balance c r m0 (mkWorld st' (w_log w ++ es)).
Proof. intros [Hb <-] Hx. intros. by eapply balance_end. Qed.

Lemma kind_data t : 0 <= t → subprocessors !! Z.to_nat t = Some (Some PData) → t = FrameData.
Proof.
  change FrameData with 0. intros Ht H. enough (Z.to_nat t = 0%nat) by lia.
  revert H. generalize (Z.to_nat t). by do 10 (intros [|n]; [done|revert n]).
Qed.
Lemma kind_rst t : subprocessors !! Z.to_nat t = Some (Some PRSTStream) → t = FrameRSTStream.
Proof.
  change FrameRSTStream with 3. intros H. enough (Z.to_nat t = 3%nat) by lia.
  revert H. generalize (Z.to_nat t). by do 10 (intros [|n]; [done|revert n]).
Qed.

Section handlers.
Variables (c r : Z) (m0 m : gmap Z stream) (h : bytes) (id : Z).
Hypotheses (Hid : StreamID h = Some id) (Hkey : store_key (S := S) id).

Lemma balance_at_balance w : balance_at c r m0 m w → balance c r m0 w.
Proof. by intros []. Qed.

(** Giving the permit back, then taking the stream out of the store. *)
Lemma leads_end {P} (k : stream → PM S HErr P unit) (es : stream → list event) :
  is_Some (m !! id) → (∀ x, released (es x) = 0) → (∀ x s, (k x s).2.2 = log_app (es x) s.2) →
  leads (balance_at c r m0 m) (balance c r m0)
    (emit_ EvLimiterRelease;; st ← storeGetAndDelete id; match st with Some x => k x | None => mret tt end).
Proof.
  intros [x Hx] Hes Hrun [p w] [[Hok Hc Hg Hm] Habs]. cbn [snd] in *.
  unfold mbind, gm_bind, emit_, gm_modify, storeGetAndDelete. cbn [fst snd w_store w_log].
  destruct (store_GetAndDelete_spec (w_store w) id Hok Hkey) as (s' & -> & Hok' & Habs').
  rewrite Habs, Hx. cbn [fst snd]. rewrite Hrun. unfold log_app. cbn [snd w_store w_log]. rewrite <-app_assoc.
  eapply (balance_at_end c r m0 m w id); [done|done|done|by rewrite <-Habs|]. by rewrite released_app, Hes.
Qed.

Lemma balance_data p :
  (∀ fl, Flags h = Some fl → flags_has fl FlagDataEndStream = true → is_Some (m !! id)) →
  leads (balance_at c r m0 m) (balance c r m0) (data_Process (HErr := HErr) h p false).
Proof.
  pose proof balance_at_balance as HQ. intros Hopen. unfold data_Process. rewrite Hid.
  apply leads_bind; [done|by eauto with keeps|intros d].
  apply leads_bind; [done|by eauto with keeps|intros len]. cbn zeta.
  apply leads_bind; [done|solve_keeps|intros _]. apply leads_index; [done|intros fl Hfl].
  destruct (flags_has fl FlagDataEndStream) eqn:Hend; [|by apply leads_keeps; eauto with keeps].
  apply (leads_end _ (λ x, [EvStream x End_])); eauto.
Qed.

Lemma balance_rst p : is_Some (m !! id) → leads (balance_at c r m0 m) (balance c r m0) (rst_Process (HErr := HErr) h p false).
Proof.
  pose proof balance_at_balance as HQ. intros Hopen. unfold rst_Process. rewrite Hid.
  apply leads_bind; [done|by eauto with keeps|intros d]. cbn zeta.
  apply leads_bind; [done|by eauto with keeps|intros _].
  apply (leads_end _ (λ x, [EvStream x (RSTStream (be32 (rst_errCode d) p)); EvStream x End_])); [done..|].
  intros x s. unfold log_app, mbind, gm_bind, emit_, gm_modify. cbn. by rewrite <-app_assoc.
Qed.

Lemma balance_onHeaders fs : keeps (balance c r m0) (onHeaders (S := S) (D := D) (HErr := HErr) fs).
Proof. induction fs; cbn; solve_keeps. Qed.
Lemma balance_hpackWrite p e : keeps (balance c r m0) (hpackWrite (S := S) (D := D) (HErr := HErr) p e).
Proof. pose proof balance_onHeaders. unfold hpackWrite. solve_keeps. Qed.

Lemma balance_headers p : keeps (balance c r m0) (headers_Process (S := S) (D := D) (HErr := HErr) h p false).
Proof.
  intros [st w] Hw. unfold headers_Process, mbind, gm_bind. rewrite Hid. cbn [gm_index mret gm_ret].
  unfold storeGet. cbn [snd]. rewrite (store_Get_spec _ _ (ba_store _ _ _ _ Hw)) by done.
  unfold get_state, put_state, gm_modify. cbn [fst snd].
  set (o := store_abs (w_store w) !! id).
  pose proof (hpackWrite_quiet (HErr := HErr) p (bool_decide (is_Some o)) (mkHeaders (hpackDecoder st) o, w)) as [H1 _].
  pose proof (balance_hpackWrite p (bool_decide (is_Some o)) (mkHeaders (hpackDecoder st) o, w) Hw) as Hw'.
  destruct (hpackWrite p _ _) as [res [st' w']]. cbn [fst snd] in *.
  destruct res as [[]|?| |]; try done. destruct (Flags h) as [fl|]; [|done]. cbn [gm_index mret gm_ret].
  destruct (flags_has fl FlagHeadersEndStream), o as [x|] eqn:Hr; try done.
  unfold emit_, gm_modify, storeDelete. cbn [fst snd w_store w_log].
  destruct (store_Delete_spec (w_store w') id (ba_store _ _ _ _ Hw') Hkey) as (s' & -> & Hok & Habs).
  cbn [fst snd w_store w_log]. rewrite <-app_assoc.
  apply (balance_end c r m0 w' id s' _ x); [done..| |done]. by rewrite H1.
Qed.

End handlers.

Lemma balance_dispatch c r m0 m f (s : pstate S D) : frame_wf f → names_key (S := S) f → balance_at c r m0 m (ps_world s) →
  ends_open m f.1 → balance c r m0 (ps_world (dispatch (HErr := HErr) f.1 f.2 false s).2).
Proof.
  intros (Hlen & Hbytes & _) Hkey Hs Hopen. pose proof (balance_at_balance c r m0 m _ Hs) as Hb.
  destruct (header_nine f.1 Hlen) as (_ & _ & _ & id & _ & _ & _ & Hid).
  destruct f as [h p]. cbn [fst snd] in *. unfold names_key, speaks_of_stream in Hkey. cbn [fst] in Hkey.
  unfold dispatch, mbind, gm_bind. destruct (Type_ h) as [t|] eqn:Ht; [|done]. cbn [gm_index mret gm_ret].
  assert (0 <= t) as Ht0 by (unfold Type_ in Ht; by destruct (proj1 (Forall_lookup _ _) Hbytes _ _ Ht)).
  destruct (subprocessors !! Z.to_nat t) as [[k|]|] eqn:Hk; [|done..]. cbn [gm_index mret gm_ret].
  unfold ends_open, ends_stream in Hopen. rewrite Ht in Hopen.
  assert (∀ P (hm : PM S HErr P unit) (x : P), leads (balance_at c r m0 m) (balance c r m0) hm ∨ keeps (balance c r m0) hm →
    balance c r m0 (hm (x, ps_world s)).2.2) as Hrun by (intros P hm x [Hm|Hm]; by apply Hm).
  destruct k; cbn [kind_Process]; unfold gm_zoom;
    match goal with |- context [let '(o, b) := ?hm (?x, ?w) in _] =>
      enough (leads (balance_at c r m0 m) (balance c r m0) hm ∨ keeps (balance c r m0) hm) as H
        by (specialize (Hrun _ hm x H); destruct (hm (x, w)) as [? []]; exact Hrun) end.
  - apply kind_data in Hk as ->; [|done]. left. apply (balance_data c r m0 m h id); [done|by apply Hkey|].
    intros fl Hfl Hend. apply Hopen; [|done]. rewrite Hfl. exact Hend.
  - right. apply (balance_headers c r m0 h id); [done|by apply Hkey].
  - apply kind_rst in Hk as ->. left. apply (balance_rst c r m0 m h id); [done|by apply Hkey|by apply Hopen].
  - right. unfold settings_Process. solve_keeps.
  - right. unfold ping_Process. solve_keeps.
  - right. unfold goaway_Process. solve_keeps.
  - right. unfold wu_Process. solve_keeps.
Qed.
End frame.

(** ** Sender and receiver *)

(** The limiter, the receiver with the store, the calls that the [send] in
    progress has yet to make, and the sender's last stream id. *)
Record conn (S D : Type) := mkConn { cn_limiter : limiter; cn_recv : pstate S D; cn_todo : list call; cn_id : Z }.
Arguments mkConn {S D} _ _ _ _.
Arguments cn_limiter {S D} _.
Arguments cn_recv {S D} _.
Arguments cn_todo {S D} _.
Arguments cn_id {S D} _.

Inductive clabel :=
| KSend (s : stream) (tag : bytes) (size : Z) (setUp : list Frame + unit) (streamOk connOk : nat → bool)
                          (** a request is handed to [send] *)
| KCall                   (** [send] makes its next call *)
| KFrame (f : frame).     (** the receiver handles a frame *)

(** [Release], once for every permit. *)
Definition give_back (k : nat) (l : limiter) : limiter := Nat.iter k (λ l, (Release l).1) l.

Section conn.
Context {S D HErr : Type} `{!StreamStore S} `{!HpackDecoder D HErr}.

Definition set_store (store : S) (s : pstate S D) : pstate S D :=
  mkPState (ps_data s) (ps_headers s) (ps_rst s) (ps_ping s) (ps_goaway s) (ps_wu s) (mkWorld store (w_log (ps_world s))).

(** A call of [send] on the objects shared with the receiver; the others change
    neither. [WaitAllow] that has to wait is no step yet. *)
Definition do_call (x : call) (lim : limiter) (recv : pstate S D) : option (limiter * pstate S D) :=
  match x with
  | CWaitAllow => '(_, lim) ← WaitAllow lim; Some (lim, recv)
  | CStoreSet id st => store ← store_Set id st (w_store (ps_world recv)); Some (lim, set_store store recv)
  | CLimiterRelease => Some ((Release lim).1, recv)
  | _ => Some (lim, recv)
  end.

(** One step of either goroutine; the releases of a frame reach the limiter with
    the frame. *)
Definition cstep (l : clabel) (c : conn S D) : option (conn S D) :=
  let '(mkConn lim recv todo id) := c in
  match l with
  | KSend s tag size setUp streamOk connOk =>
      match todo with
      | [] => let '(calls, id) := send s tag size setUp streamOk connOk id in Some (mkConn lim recv calls id)
      | _ => None
      end
  | KCall =>
      match todo with
      | [] => None
      | x :: todo => '(lim, recv) ← do_call x lim recv; Some (mkConn lim recv todo id)
      end
  | KFrame f =>
      match dispatch (HErr := HErr) f.1 f.2 false recv with
      | (Ret _, recv') =>
          Some (mkConn (give_back (Z.to_nat (released (w_log (ps_world recv')) - released (w_log (ps_world recv)))) lim)
            recv' todo id)
      | _ => None
      end
  end.

Fixpoint csteps (ls : list clabel) (c : conn S D) : option (conn S D) :=
  match ls with
  | [] => Some c
  | l :: ls => c ← cstep l c; csteps ls c
  end.

(** The frames handled are well formed, name streams the store knows, and end
    only streams that are open. *)
Context `{!StreamStoreSpec S}.

Definition orderly_frame (f : frame) (c : conn S D) : Prop :=
  frame_wf f ∧ names_key (S := S) f ∧ ends_open (store_abs (w_store (ps_world (cn_recv c)))) f.1.

Fixpoint orderly (ls : list clabel) (c : conn S D) : Prop :=
  match ls with
  | [] => True
  | l :: ls =>
      match l with KFrame f => orderly_frame f c | _ => True end ∧
      match cstep l c with Some c' => orderly ls c' | None => True end
  end.

Lemma orderly_app ls ls' c : orderly ls c → (∀ c', csteps ls c = Some c' → orderly ls' c') → orderly (ls ++ ls') c.
Proof.
  revert c. induction ls as [|l ls IH]; intros c Hls Hls'; [by apply Hls'|]. destruct Hls as [Hl Hls].
  cbn [app orderly csteps] in *. split; [done|]. destruct (cstep l c); [|done]. by apply IH.
Qed.
Lemma orderly_frameless ls c : forallb (λ l, if l is KFrame _ then false else true) ls → orderly ls c.
Proof.
  revert c. induction ls as [|l ls IH]; intros c Hls; [done|]. cbn in *. apply andb_True in Hls as [Hl Hls].
  split; [by destruct l|]. destruct (cstep l c); auto.
Qed.

(** Requests whose [SetUp] failed, and all requests. *)
Definition failures (ls : list clabel) : Z :=
  zsum ((λ l, match l with KSend _ _ _ (inr _) _ _ => 1 | _ => 0 end) <$> ls).
Definition sends (ls : list clabel) : Z :=
  zsum ((λ l, match l with KSend _ _ _ _ _ _ => 1 | _ => 0 end) <$> ls).

(** Permits that calls to come will turn into stored streams, less those they will
    take. *)
Definition reserve (x : call) : Z :=
  match x with CWaitAllow => -1 | CStoreSet _ _ => 1 | CLimiterRelease => 1 | _ => 0 end.
Definition reserved (todo : list call) : Z := zsum (reserve <$> todo).

Lemma reserved_cons x todo : reserved (x :: todo) = reserve x + reserved todo.
Proof. apply zsum_cons. Qed.

(** The calls that touch neither limiter nor store. *)
Definition calm (x : call) : Prop := reserve x = 0.

Lemma reserved_calm todo : Forall calm todo → reserved todo = 0.
Proof. induction 1 as [|x todo Hx _ IH]; [done|]. by rewrite reserved_cons, Hx, IH. Qed.

Lemma frames_calm s streamOk connOk id fs : ∀ i, Forall calm (send_frames s streamOk connOk id i fs).
Proof.
  induction fs as [|f fs IH]; intros i; [done|]. cbn [send_frames].
  destruct (streamOk i); [destruct (connOk i)|]; repeat (apply Forall_cons; split; [done|]); [apply IH|done..].
Qed.

(** What may be left of a [send] of stream [id]. *)
Inductive progress (id : Z) : list call → Prop :=
| progress_calm l : Forall calm l → progress id l
| progress_store pre s post : Forall calm pre → Forall calm post → progress id (pre ++ CStoreSet id s :: post)
| progress_wait_store pre s post : Forall calm pre → Forall calm post → progress id (CWaitAllow :: pre ++ CStoreSet id s :: post)
| progress_wait_fail l : Forall calm l → progress id (CWaitAllow :: l).

Definition failing (setUp : list Frame + unit) : Z := match setUp with inr _ => 1 | inl _ => 0 end.

Lemma reserved_app l k : reserved (l ++ k) = reserved l + reserved k.
Proof. unfold reserved. by rewrite fmap_app, zsum_app. Qed.

Lemma send_progress s tag size setUp streamOk connOk id :
  progress (u32 (id + 2)) (send s tag size setUp streamOk connOk id).1 ∧
  reserved (send s tag size setUp streamOk connOk id).1 = - failing setUp.
Proof.
  unfold send. cbn [fst]. destruct setUp as [fs|u]; cbn [app failing].
  - pose proof (frames_calm s streamOk connOk (u32 (id + 2)) fs 0) as Hcalm. split.
    + apply (progress_wait_store _ [CAcquire _ tag; CSetUp _; CSetSize s size]); [by repeat constructor|done].
    + rewrite !reserved_cons, (reserved_calm _ Hcalm). cbn [reserve]. lia.
  - split; [|done]. apply progress_wait_fail. by repeat constructor.
Qed.

Lemma calm_not_store l i st : Forall calm l → CStoreSet i st ∉ l.
Proof. intros H Hin. by apply (proj1 (list.Forall_forall _ _) H) in Hin. Qed.

(** The invariant: no permit is lost but those of failed requests. *)
Record permits_ok (q : Z) (lost : Z) (c : conn S D) : Prop := {
  po_store : store_ok (w_store (ps_world (cn_recv c)));
  po_balance : permits (cn_limiter c) + Z.of_nat (size (store_abs (w_store (ps_world (cn_recv c))))) +
    reserved (cn_todo c) + lost = q;
  po_lost : 0 <= lost + reserved (cn_todo c);
  po_progress : progress (cn_id c) (cn_todo c);
  po_ids : ∀ i st, store_abs (w_store (ps_world (cn_recv c))) !! i = Some st → i <= cn_id c;
  po_fresh : ∀ i st, CStoreSet i st ∈ cn_todo c → store_abs (w_store (ps_world (cn_recv c))) !! cn_id c = None
}.

Lemma permits_nonneg l : 0 <= permits l.
Proof. unfold permits. lia. Qed.

Lemma permits_send q lost c s tag size setUp streamOk connOk c' : 0 <= lost → 0 <= cn_id c → cn_id c + 2 < 2 ^ 32 →
  permits_ok q lost c → cstep (KSend s tag size setUp streamOk connOk) c = Some c' →
  permits_ok q (lost + failing setUp) c' ∧ cn_id c' = cn_id c + 2.
Proof.
  destruct c as [lim recv todo id]. cbn [cn_id]. intros Hlost H0 Hb [H1 H2 H3 H4 H5 H6] Hs. cbn in *.
  destruct todo; [|done]. injection Hs as <-. cbn in *.
  destruct (send_progress s tag size setUp streamOk connOk id) as [Hp Hr].
  rewrite (u32_id (id + 2)) in * by (unfold is_u32; lia). change (reserved []) with 0 in *. unfold send in Hp, Hr. cbn [fst app] in Hp, Hr.
  rewrite (u32_id (id + 2)) in * by (unfold is_u32; lia).
  split; [|done]. split; cbn [cn_limiter cn_recv cn_todo cn_id]; [done| | |done| |].
  - rewrite Hr. lia.
  - rewrite Hr. lia.
  - intros i st Hi%H5. lia.
  - intros i st _. apply eq_None_not_Some. intros [x Hx%H5]. lia.
Qed.

Lemma do_call_calm x lim (recv : pstate S D) : calm x → do_call x lim recv = Some (lim, recv).
Proof. by destruct x. Qed.

Lemma progress_head id x todo : progress id (x :: todo) →
  (calm x ∧ progress id todo) ∨ (∃ s, x = CStoreSet id s ∧ Forall calm todo) ∨ (x = CWaitAllow ∧ progress id todo).
Proof.
  intros H. inversion H as [l Hl|pre s post Hpre Hpost Heq|pre s post Hpre Hpost|l Hl]; subst.
  - left. apply Forall_cons in Hl as [? ?]. split; [done|]. by apply progress_calm.
  - destruct pre as [|y pre]; injection Heq as <- <-; [by right; left; eexists|].
    left. apply Forall_cons in Hpre as [? ?]. split; [done|]. by apply progress_store.
  - right. right. split; [done|]. by apply progress_store.
  - right. right. split; [done|]. by apply progress_calm.
Qed.

Lemma WaitAllow_permits lim lim' : WaitAllow lim = Some (tt, lim') → permits lim = permits lim' + 1.
Proof. unfold WaitAllow, permits. destruct (N.eqb_spec (quota lim) 0); [done|]. intros [= <-]. cbn. lia. Qed.

Lemma permits_call q lost c c' : q < 2 ^ 32 → 0 <= lost → (∀ id, Z.odd id = true → store_key (S := S) id) → Z.odd (cn_id c) = true →
  permits_ok q lost c → cstep KCall c = Some c' → permits_ok q lost c' ∧ cn_id c' = cn_id c.
Proof.
  destruct c as [lim recv todo id]. cbn [cn_id]. intros Hq Hlost Hkeys Hodd [H1 H2 H3 H4 H5 H6] Hs.
  cbn [cn_limiter cn_recv cn_todo cn_id cstep] in *. destruct todo as [|x todo]; [done|].
  apply bind_Some in Hs as ([lim' recv'] & Hcall & [= <-]). split; [|done]. rewrite reserved_cons in H2, H3.
  destruct (progress_head id x todo H4) as [[Hx Hp]|[(s & -> & Hcalm)|[-> Hp]]].
  - rewrite do_call_calm in Hcall by done. injection Hcall as <- <-. unfold calm in Hx. rewrite Hx in *.
    split; cbn [cn_limiter cn_recv cn_todo cn_id]; try done; try lia. intros i st Hi. apply (H6 i st). set_solver.
  - specialize (H6 id s ltac:(set_solver)). cbn [do_call] in Hcall.
    destruct (store_Set_spec (w_store (ps_world recv)) id s H1 (Hkeys id Hodd)) as (store & Hset & Hok & Habs).
    rewrite Hset in Hcall. injection Hcall as <- <-. rewrite (reserved_calm _ Hcalm) in *. cbn [reserve] in *.
    split; cbn [cn_limiter cn_recv cn_todo cn_id set_store ps_world w_store]; rewrite ?Habs, ?(reserved_calm _ Hcalm); try done; try lia.
    + rewrite map_size_insert_None by done. lia.
    + by apply progress_calm.
    + intros i st. rewrite lookup_insert_Some. intros [[<- _]|[_ Hi]]; [done|by eapply H5].
    + intros i st Hi. by apply calm_not_store in Hi.
  - cbn [do_call] in Hcall. apply bind_Some in Hcall as ([[] lim1] & Hw & [= <- <-]).
    apply WaitAllow_permits in Hw. cbn [reserve] in *.
    split; cbn [cn_limiter cn_recv cn_todo cn_id]; try done; try lia. intros i st Hi. apply (H6 i st). set_solver.
Qed.

Lemma permits_give_back k lim : permits lim + Z.of_nat k < 2 ^ 32 → permits (give_back k lim) = permits lim + Z.of_nat k.
Proof.
  unfold give_back. induction k as [|k IH]; intros H; [cbn; lia|]. rewrite Nat.iter_succ. specialize (IH ltac:(lia)).
  revert IH. generalize (Nat.iter k (λ l, (Release l).1) lim). intros l IH. unfold permits in *. cbn [Release quota fst].
  rewrite N.mod_small; lia.
Qed.

Lemma permits_frame q lost f c c' : q < 2 ^ 32 → 0 <= lost → orderly_frame f c →
  permits_ok q lost c → cstep (KFrame f) c = Some c' → permits_ok q lost c' ∧ cn_id c' = cn_id c.
Proof.
  destruct c as [lim recv todo id]. intros Hq Hlost (Hwf & Hkey & Hopen) [H1 H2 H3 H4 H5 H6] Hs.
  cbn [cn_limiter cn_recv cn_todo cn_id cstep] in *.
  destruct (dispatch f.1 f.2 false recv) as [o recv'] eqn:Hd. destruct o as [u|e| |]; try done. injection Hs as <-.
  set (w := ps_world recv) in *. set (m := store_abs (w_store w)) in *.
  destruct (balance_dispatch (HErr := HErr) (released (w_log w) + Z.of_nat (size m)) (released (w_log w)) m m f recv)
    as [Hok' Hsum Hgrow Hwithin]; [done|done|by split|done|].
  rewrite Hd in Hok', Hsum, Hgrow, Hwithin. cbn [snd] in *.
  split; [|done]. split; cbn [cn_limiter cn_recv cn_todo cn_id]; try done.
  - rewrite permits_give_back by lia. lia.
  - intros i st Hi. apply (H5 i st). by eapply lookup_weaken.
  - intros i st Hi. eapply lookup_weaken_None; [|exact Hwithin]. by eapply H6.
Qed.

Lemma failures_cons l ls : failures (l :: ls) = match l with KSend _ _ _ r _ _ => failing r | _ => 0 end + failures ls.
Proof. apply zsum_cons. Qed.
Lemma sends_cons l ls : sends (l :: ls) = match l with KSend _ _ _ _ _ _ => 1 | _ => 0 end + sends ls.
Proof. apply zsum_cons. Qed.
Lemma sends_nonneg ls : 0 <= sends ls.
Proof. induction ls as [|l ls IH]; [done|]. rewrite sends_cons. destruct l; lia. Qed.

Lemma permits_step q lost l c c' : q < 2 ^ 32 → 0 <= lost → (∀ id, Z.odd id = true → store_key (S := S) id) →
  Z.odd (cn_id c) = true → 0 <= cn_id c → cn_id c + 2 * sends [l] < 2 ^ 32 →
  match l with KFrame f => orderly_frame f c | _ => True end →
  permits_ok q lost c → cstep l c = Some c' →
  permits_ok q (lost + failures [l]) c' ∧ cn_id c' = cn_id c + 2 * sends [l].
Proof.
  intros Hq Hlost Hkeys Hodd H0 Hb Hl Hok Hs. rewrite sends_cons, failures_cons in *.
  change (sends []) with 0 in *. change (failures []) with 0. rewrite !Z.add_0_r in *. destruct l as [s tag sz r sOk cOk| |f].
  - rewrite Z.mul_1_r in *. by apply (permits_send q lost c s tag sz r sOk cOk).
  - rewrite Z.mul_0_r, !Z.add_0_r. by apply (permits_call q lost c).
  - rewrite Z.mul_0_r, !Z.add_0_r. by apply (permits_frame q lost f c).
Qed.

Lemma permits_steps q ls : q < 2 ^ 32 → (∀ id, Z.odd id = true → store_key (S := S) id) → ∀ lost c c', 0 <= lost →
  Z.odd (cn_id c) = true → 0 <= cn_id c → cn_id c + 2 * sends ls < 2 ^ 32 → orderly ls c →
  permits_ok q lost c → csteps ls c = Some c' → permits_ok q (lost + failures ls) c'.
Proof.
  intros Hq Hkeys. induction ls as [|l ls IH]; intros lost c c' Hlost Hodd H0 Hb Hl Hok Hs; cbn [csteps orderly] in *.
  - simplify_eq. by rewrite Z.add_0_r.
  - apply bind_Some in Hs as (c1 & H1 & Hs). destruct Hl as [Hl Hls]. rewrite H1 in Hls.
    rewrite sends_cons in Hb. pose proof (sends_nonneg ls).
    destruct (permits_step q lost l c c1 Hq Hlost Hkeys Hodd H0) as [Hok1 Hid]; try done.
    { rewrite sends_cons. change (sends []) with 0. lia. }
    rewrite sends_cons in Hid. change (sends []) with 0 in Hid.
    assert (0 <= match l with KSend _ _ _ _ _ _ => 1 | _ => 0 end <= 1) as Hone by (destruct l; lia).
    replace (lost + failures (l :: ls)) with (lost + failures [l] + failures ls)
      by (rewrite !failures_cons; change (failures []) with 0; lia).
    eapply IH; [|by rewrite Hid, Z.add_0_r, Z.odd_add_mul_2|lia|lia|done|done|done].
    rewrite failures_cons. change (failures []) with 0. destruct l as [? ? ? [] | |]; cbn [failing]; lia.
Qed.
End conn.

(** C15: The server's MAX_CONCURRENT_STREAMS is kept by sender and receiver together.
    For every interleaving of requests, the single calls of their [send] and the
    frames of a server that ends only streams that are open: the free permits,
    the streams in the store, the permits on their way to one and those lost to
    requests whose [SetUp] failed are the quota, no more and no less; so there are
    never more streams open than the server allows. *)
Theorem open_streams_bounded {S D HErr} `{!StreamStore S} `{!StreamStoreSpec S} `{!HpackDecoder D HErr}
    (q : N) (s0 : pstate S D) ls (c : conn S D) :
  Z.of_N q < 2 ^ 32 → (∀ id, Z.odd id = true → store_key (S := S) id) →
  store_ok (w_store (ps_world s0)) → store_abs (w_store (ps_world s0)) = ∅ → 1 + 2 * sends ls < 2 ^ 32 →
  orderly (HErr := HErr) ls (mkConn (mkLimiter q) s0 [] 1) →
  csteps (HErr := HErr) ls (mkConn (mkLimiter q) s0 [] 1) = Some c →
  let open := Z.of_nat (size (store_abs (w_store (ps_world (cn_recv c))))) in
  permits (cn_limiter c) + open + reserved (cn_todo c) + failures ls = Z.of_N q ∧ open <= Z.of_N q.
Proof.
  intros Hq Hkeys Hok Hempty Hb Hl Hs. cbn zeta.
  destruct (permits_steps (HErr := HErr) (Z.of_N q) ls Hq Hkeys 0 (mkConn (mkLimiter q) s0 [] 1) c) as [_ H1 H2 _ _ _]; try done.
  - split; cbn [cn_limiter cn_recv cn_todo cn_id]; rewrite ?Hempty; try done.
    + change (permits (mkLimiter q)) with (Z.of_N q). rewrite map_size_empty. change (reserved []) with 0. lia.
    + by apply progress_calm.
  - pose proof (permits_nonneg (cn_limiter c)). lia.
Qed.

Definition permits_start : conn (ShardedStreamsMap StreamsMap) unit :=
  mkConn (mkLimiter 2) (NewDefaultProcessor tt loaderStore) [] 1.

(** Two requests; a PING and the end of the first; a third request, which has to
    wait for none. *)
Definition run_send (s : nat) : list clabel :=
  KSend s (str "t") 7 (inl [mkFrame [[1]] 0]) (λ _, true) (λ _, true) :: replicate 8 KCall.
Definition permits_frames : list clabel :=
  [KFrame (mk_frame FramePing 0 0 (replicate 8 1)); KFrame (mk_frame FrameData FlagDataEndStream 3 [9])].
Definition permits_run : list clabel := (run_send 0 ++ run_send 1) ++ permits_frames ++ run_send 2.

(** What a frame needs, of a store of the loader. *)
Lemma loader_frame_orderly f (c : conn (ShardedStreamsMap StreamsMap) unit) id x :
  frame_wf f → StreamID f.1 = Some id → Z.odd id = true → store_abs (w_store (ps_world (cn_recv c))) !! id = Some x → orderly_frame f c.
Proof.
  intros Hf Hid Hodd Hx. split; [done|]. split.
  - intros _ id' Hid'. simplify_eq. done.
  - intros _ id' Hid'. simplify_eq. by eexists.
Qed.

Lemma permits_run_orderly : orderly (HErr := unit) permits_run permits_start.
Proof.
  unfold permits_run. apply orderly_app; [by apply orderly_frameless; vm_compute|intros c Hc].
  apply orderly_app; [|by intros; apply orderly_frameless; vm_compute].
  assert (csteps (HErr := unit) (run_send 0 ++ run_send 1) permits_start ≫= (λ c,
    cstep (HErr := unit) (KFrame (mk_frame FramePing 0 0 (replicate 8 1))) c ≫= λ c,
      store_abs (w_store (ps_world (cn_recv c))) !! 3) = Some 0%nat) as Hopen by (vm_compute; reflexivity).
  rewrite Hc in Hopen. cbn [mbind option_bind] in Hopen. unfold permits_frames. cbn [orderly].
  split; [split; [apply mk_frame_wf; reflexivity|by split]|].
  destruct (cstep _ c) as [c1|]; [|done]. split; [|by destruct (cstep _ c1)].
  by apply (loader_frame_orderly _ _ 3 0%nat); [apply mk_frame_wf| | |].
Qed.

Theorem open_streams_bounded_witness :
  ∃ c, csteps (HErr := unit) permits_run permits_start = Some c ∧
  let open := Z.of_nat (size (store_abs (w_store (ps_world (cn_recv c))))) in
  open = 2 ∧ permits (cn_limiter c) + open + reserved (cn_todo c) + failures permits_run = 2 ∧ open <= 2.
Proof.
  eexists. split; [vm_compute; reflexivity|]. split; [vm_compute; reflexivity|].
  apply (open_streams_bounded (HErr := unit) 2 (NewDefaultProcessor tt loaderStore) permits_run).
  - reflexivity.
  - done.
  - apply loaderStore_ok.
  - apply loaderStore_ok.
  - reflexivity.
  - apply permits_run_orderly.
  - vm_compute. reflexivity.
Defined.
