(* ===== verification/RecordIO.v ===== *)
(** * RecordIO: request files as streams of records

    Models src/formats/grpc/ozon/binary/io/io.go (a decimal size, a newline, the
    record, a newline), src/formats/grpc/ozon/json/io/io.go (a record per line)
    and src/formats/internal/pooledreader/pooledreader.go. *)

From S2P Require Import Prelude Decimal Pool.

(** ** The file

    An [io.Reader]: the chunks its successive [Read] calls give, then [io.EOF].
    A chunk marked [true] comes together with [io.EOF], as the interface
    allows; both readers look at the error first. *)
Definition source : Type := list (bytes * bool).

Inductive IOError := EOF | UnexpectedChar (b : Z).

Record Reader := mkReader { unprocessed : bytes; src : source }.

(** [NewReader]. *)
Definition NewReader (r : source) : Reader := mkReader [] r.

Definition RdM (A : Type) : Type := GM Reader IOError A.

(** [fillUnprocessed]. *)
Definition fillUnprocessed : RdM unit := λ r,
  match src r with
  | [] => (Fail EOF, r)
  | (c, false) :: rest => (Ret tt, mkReader c rest)
  | (c, true) :: rest => (Fail EOF, mkReader (unprocessed r) rest)
  end.

(** The bytes still to come, and a bound on the turns of any loop. *)
Definition stream_of (r : Reader) : bytes := unprocessed r ++ concat (fst <$> src r).
Definition turns (r : Reader) : nat := length (src r) + length (stream_of r).
Definition plain (r : Reader) : Prop := Forall (λ c, c.2 = false) (src r).

(** ** binary/io.Reader *)
Module Binary.

(** [fillSize]: the size so far, the bytes consumed, and how it ended. *)
Inductive size_end := SizeDone | SizeMore | SizeBad (b : Z).

Fixpoint fillSize (accIn : Z) (inp : bytes) (i : nat) : Z * nat * size_end :=
  match inp with
  | [] => (accIn, i, SizeMore)
  | b :: rest =>
      if (48 <=? b) && (b <=? 57) then fillSize (i64 (accIn * 10 + (b - 48))) rest (S i)
      else if b =? 10 then (accIn, S i, SizeDone)
      else (accIn, S i, SizeBad b)
  end.

Fixpoint size_loop (fuel : nat) (size : Z) : RdM Z :=
  match fuel with
  | O => gm_diverged
  | S fuel => λ r,
      let '(size, n, e) := fillSize size (unprocessed r) 0 in
      let r := mkReader (drop n (unprocessed r)) (src r) in
      match e with
      | SizeDone => (Ret size, r)
      | SizeBad b => (Fail (UnexpectedChar b), r)
      | SizeMore => (fillUnprocessed;; size_loop fuel size) r
      end
  end.

(** [for filled < size]: [acc] is the part of the result already copied. *)
Fixpoint fill_loop (fuel : nat) (size : Z) (acc : bytes) : RdM bytes :=
  match fuel with
  | O => gm_diverged
  | S fuel =>
      if zlen acc <? size then
        r ← gm_get;
        (if decide (unprocessed r = []) then fillUnprocessed else mret tt);;
        r ← gm_get;
        let n := Z.min (size - zlen acc) (zlen (unprocessed r)) in
        gm_modify (λ r, mkReader (drop (Z.to_nat n) (unprocessed r)) (src r));;
        fill_loop fuel size (acc ++ take (Z.to_nat n) (unprocessed r))
      else mret acc
  end.

(** The loop over the newlines after a record; [io.EOF] is not an error here. *)
Fixpoint trailing_loop (fuel : nat) : RdM unit :=
  match fuel with
  | O => gm_diverged
  | S fuel => λ r,
      match unprocessed r with
      | [] =>
          match fillUnprocessed r with
          | (Ret _, r) => trailing_loop fuel r
          | (Fail EOF, r) => (Ret tt, r)
          | (o, r) => (o, r)
          end
      | b :: rest => if b =? 10 then trailing_loop fuel (mkReader rest (src r)) else (Ret tt, r)
      end
  end.

(** [ReadNext]; [b[:size]] panics for a negative size. *)
Definition ReadNext : RdM bytes :=
  r ← gm_get;
  size ← size_loop (S (turns r)) 0;
  if size <? 0 then gm_panic
  else
    r ← gm_get;
    b ← fill_loop (S (S (turns r))) size [];
    r ← gm_get;
    trailing_loop (S (turns r));;
    mret b.

(** [WriteNext]: what is written for a record. *)
Definition WriteNext (p : bytes) : bytes := (digits (zlen p) ++ [10]) ++ p ++ [10].

(** *** Reading what was written *)
Lemma fillSize_digits ds : ∀ acc i, Forall is_digit ds → 0 <= acc →
  foldl dec_step acc ds < 2 ^ 63 →
  fillSize acc ds i = (foldl dec_step acc ds, (i + length ds)%nat, SizeMore) ∧
  ∀ rest, fillSize acc (ds ++ 10 :: rest) i = (foldl dec_step acc ds, (i + S (length ds))%nat, SizeDone).
Proof.
  unfold is_digit. induction ds as [|b ds IH]; intros acc i Hds Hacc Hb; cbn [fillSize foldl app length].
  - split; [by rewrite Nat.add_0_r|]. intros rest. cbn. by rewrite Nat.add_1_r.
  - apply Forall_cons in Hds as [Hd Hds].
    rewrite (proj2 (Z.leb_le 48 b)), (proj2 (Z.leb_le b 57)) by lia. cbn [andb].
    cbn [foldl] in Hb. assert (dec_step acc b <= foldl dec_step (dec_step acc b) ds) as Hle.
    { rewrite dec_fold. pose proof (dec_val_nonneg ds Hds). pose proof (zlen_nonneg ds).
      assert (1 <= 10 ^ zlen ds) by (apply (Z.pow_le_mono_r 10 0); lia). unfold dec_step. nia. }
    assert (i64 (acc * 10 + (b - 48)) = dec_step acc b) as -> by (unfold dec_step in *; rewrite i64_id; lia).
    destruct (IH (dec_step acc b) (S i) Hds) as [H1 H2]; [unfold dec_step; lia|done|].
    rewrite H1. split; [do 2 f_equal; lia|]. intros rest. rewrite H2. do 2 f_equal. lia.
Qed.

Lemma stream_fill c rest u : stream_of (mkReader u ((c, false) :: rest)) = u ++ stream_of (mkReader c rest).
Proof. done. Qed.

(** The size, wherever the chunks cut it. *)
Lemma size_loop_run fuel : ∀ acc ds rest r, plain r → (length (src r) < fuel)%nat →
  Forall is_digit ds → 0 <= acc → foldl dec_step acc ds < 2 ^ 63 → stream_of r = ds ++ 10 :: rest →
  ∃ r', size_loop fuel acc r = (Ret (foldl dec_step acc ds), r') ∧ plain r' ∧ stream_of r' = rest.
Proof.
  induction fuel as [|fuel IH]; intros acc ds rest [u s] Hp Hf Hds Hacc Hb Hs; [lia|]. cbn [size_loop unprocessed src].
  unfold stream_of in Hs. cbn [unprocessed src] in *.
  destruct (decide (length u <= length ds)%nat) as [Hle|Hgt].
  - (* the size continues in the next chunk *)
    destruct (app_eq_prefix u _ ds _ Hs Hle) as (m & -> & Hrest).
    apply Forall_app in Hds as [Hu Hm]. rewrite foldl_app in Hb.
    assert (0 <= foldl dec_step acc u) as Hau.
    { rewrite dec_fold. pose proof (dec_val_nonneg u Hu). pose proof (zlen_nonneg u).
      assert (1 <= 10 ^ zlen u) by (apply (Z.pow_le_mono_r 10 0); lia). nia. }
    assert (foldl dec_step acc u < 2 ^ 63) as Hub.
    { rewrite (dec_fold (foldl dec_step acc u) m) in Hb. pose proof (dec_val_nonneg m Hm). pose proof (zlen_nonneg m).
      assert (1 <= 10 ^ zlen m) by (apply (Z.pow_le_mono_r 10 0); lia). nia. }
    destruct (fillSize_digits u acc 0 Hu Hacc Hub) as [-> _]. cbn [Nat.add]. rewrite drop_all.
    destruct s as [|[c e] s]; [by destruct m|]. apply Forall_cons in Hp as [He Hp]. cbn in He. subst e.
    unfold mbind, gm_bind, fillUnprocessed. cbn [src unprocessed].
    destruct (IH (foldl dec_step acc u) m rest (mkReader c s)) as (r' & -> & Hp' & Hs');
      [done|cbn in *; lia|done|done|done|exact Hrest|].
    exists r'. by rewrite foldl_app.
  - (* the newline is in this chunk *)
    destruct (app_eq_prefix ds (10 :: rest) u (concat s.*1) (eq_sym Hs) ltac:(lia)) as (m & -> & Hrest).
    rewrite length_app in Hgt. destruct m as [|x m]; [cbn in Hgt; lia|]. injection Hrest as <- Hrest.
    destruct (fillSize_digits ds acc 0 Hds Hacc Hb) as [_ ->]. cbn [Nat.add].
    eexists. split; [reflexivity|]. split; [done|]. unfold stream_of. cbn [unprocessed src].
    rewrite drop_app_ge by lia. replace (S (length ds) - length ds)%nat with 1%nat by lia. cbn. by rewrite Hrest.
Qed.

(** The record, in as many pieces as the chunks make of it. *)
Lemma fill_loop_run fuel : ∀ size acc p rest r, plain r →
  (1 <= fuel)%nat → (p ≠ [] → length (src r) + (if decide (unprocessed r = []) then 1 else 2) <= fuel)%nat →
  size = zlen acc + zlen p → stream_of r = p ++ rest →
  ∃ r', fill_loop fuel size acc r = (Ret (acc ++ p), r') ∧ plain r' ∧ stream_of r' = rest.
Proof.
  induction fuel as [|fuel IH]; intros size acc p rest [u s] Hp Hf1 Hf -> Hs; [lia|].
  cbn [fill_loop]. destruct p as [|x p].
  { rewrite (proj2 (Z.ltb_ge _ _)) by (change (zlen []) with 0; lia). exists (mkReader u s).
    cbn [mret gm_ret]. by rewrite app_nil_r. }
  specialize (Hf ltac:(done)).
  assert (0 < zlen (x :: p)) by (rewrite zlen_cons; pose proof (zlen_nonneg p); lia).
  rewrite (proj2 (Z.ltb_lt _ _)) by lia. unfold mbind at 1, gm_bind at 1, gm_get. cbn [unprocessed].
  assert (∃ u' s', (if decide (u = []) then fillUnprocessed else mret tt) (mkReader u s) = (Ret tt, mkReader u' s') ∧
    plain (mkReader u' s') ∧ stream_of (mkReader u' s') = (x :: p) ++ rest ∧ (length s' + 1 <= fuel)%nat)
    as (u' & s' & Hrun & Hp' & Hs' & Hf').
  { cbn [src unprocessed] in Hf. case_decide as Hu.
    - subst u. destruct s as [|[c e] s]; [done|]. apply Forall_cons in Hp as [He Hp]. cbn in He. subst e.
      exists c, s. cbn [fillUnprocessed src]. cbn in Hf. split_and!; try done; lia.
    - exists u, s. split_and!; try done; lia. }
  unfold mbind at 1, gm_bind at 1. rewrite Hrun. unfold mbind at 1, gm_bind at 1. cbn [unprocessed src].
  unfold mbind, gm_bind, gm_modify. cbn [unprocessed src].
  set (n := Z.min (zlen acc + zlen (x :: p) - zlen acc) (zlen u')). pose proof (zlen_nonneg u').
  unfold stream_of in Hs'. cbn [unprocessed src] in Hs'.
  assert (Z.to_nat n <= length u' ∧ Z.to_nat n <= length (x :: p))%nat as [Hn1 Hn2] by (unfold n, zlen in *; lia).
  assert (take (Z.to_nat n) u' = take (Z.to_nat n) (x :: p) ∧ drop (Z.to_nat n) u' ++ concat s'.*1 = drop (Z.to_nat n) (x :: p) ++ rest) as [Ht Hd].
  { split; [rewrite <-(take_app_le u' (concat s'.*1)) by done; by rewrite Hs', take_app_le by done|].
    rewrite <-!drop_app_le by done. by rewrite Hs'. }
  rewrite Ht.
  destruct (IH (zlen acc + zlen (x :: p)) (acc ++ take (Z.to_nat n) (x :: p)) (drop (Z.to_nat n) (x :: p)) rest
    (mkReader (drop (Z.to_nat n) u') s')) as (r' & -> & Hr'); [done|lia| | |exact Hd|].
  - (* what is left of the record needs another chunk *)
    intros Hleft. cbn [src unprocessed]. rewrite decide_True; [lia|]. apply drop_ge.
    destruct (Nat.le_gt_cases (length u') (Z.to_nat n)) as [|Hgt]; [done|]. destruct Hleft.
    apply drop_ge. unfold n, zlen in *. lia.
  - rewrite <-(take_drop (Z.to_nat n) (x :: p)) at 1. rewrite !zlen_app. lia.
  - exists r'. split; [|done]. by rewrite <-app_assoc, take_drop.
Qed.

(** Newlines are skipped up to the next record or the end. *)
Lemma trailing_loop_run fuel : ∀ k rest r, plain r → (turns r < fuel)%nat →
  stream_of r = replicate k 10 ++ rest → (∀ b t, rest = b :: t → b ≠ 10) →
  ∃ r', trailing_loop fuel r = (Ret tt, r') ∧ plain r' ∧ stream_of r' = rest.
Proof.
  induction fuel as [|fuel IH]; intros k rest [u s] Hp Hf Hs Hr; [lia|]. cbn [trailing_loop unprocessed].
  unfold turns, stream_of in *. cbn [unprocessed src] in *. destruct u as [|b u].
  - destruct s as [|[c e] s].
    + cbn in *. exists (mkReader [] []). split; [done|]. split; [done|]. destruct k; [done|]. discriminate.
    + apply Forall_cons in Hp as [He Hp]. cbn in He. subst e. cbn [fillUnprocessed src].
      apply (IH k); try done. cbn in *. lia.
  - destruct (Z.eqb_spec b 10) as [->|Hb].
    + destruct k as [|k]; [cbn in Hs; destruct rest as [|b t]; [done|]; injection Hs as <- _; by destruct (Hr 10 t)|].
      cbn in Hs. injection Hs as Hs. apply (IH k); try done. cbn in *. lia.
    + destruct k as [|k]; [|cbn in Hs; congruence]. by exists (mkReader (b :: u) s).
Qed.

(** One record. *)
Lemma ReadNext_run p rest r : plain r → zlen p < 2 ^ 63 → stream_of r = WriteNext p ++ rest →
  (∀ b t, rest = b :: t → b ≠ 10) →
  ∃ r', ReadNext r = (Ret p, r') ∧ plain r' ∧ stream_of r' = rest.
Proof.
  intros Hp Hlen Hs Hr. unfold WriteNext in Hs. rewrite <-!app_assoc in Hs.
  pose proof (zlen_nonneg p). destruct (digits_spec (zlen p)) as (_ & Hd & Hv & _); [done|].
  unfold dec_val in Hv.
  destruct (size_loop_run (S (turns r)) 0 (digits (zlen p)) (p ++ [10] ++ rest) r) as (r1 & H1 & Hp1 & Hs1);
    [done|unfold turns; lia|done|done|lia|by rewrite Hs|].
  unfold ReadNext. run_step. rewrite (bind_run _ _ _ _ _ H1). rewrite Hv.
  rewrite (proj2 (Z.ltb_ge _ _)) by done. run_step.
  destruct (fill_loop_run (S (S (turns r1))) (zlen p) [] p ([10] ++ rest) r1) as (r2 & H2 & Hp2 & Hs2);
    [done|lia|intros _; unfold turns; case_decide; lia|done|done|].
  rewrite (bind_run _ _ _ _ _ H2). run_step.
  destruct (trailing_loop_run (S (turns r2)) 1 rest r2) as (r3 & H3 & Hp3 & Hs3); [done|lia|done|done|].
  rewrite (bind_run _ _ _ _ _ H3). by exists r3.
Qed.

(** A file of records. *)
Definition WriteAll (ps : list bytes) : bytes := concat (WriteNext <$> ps).

(** Reading on until the reader fails. *)
Fixpoint read_all (fuel : nat) : RdM (list bytes) :=
  match fuel with
  | O => gm_diverged
  | S fuel => λ r,
      match ReadNext r with
      | (Ret p, r) => (ps ← read_all fuel; mret (p :: ps)) r
      | (Fail EOF, r) => (Ret [], r)
      | (Fail e, r) => (Fail e, r)
      | (Panic, r) => (Panic, r)
      | (Diverged, r) => (Diverged, r)
      end
  end.

Lemma WriteNext_head p : ∃ b t, WriteNext p = b :: t ∧ is_digit b.
Proof.
  unfold WriteNext. destruct (digits_spec (zlen p)) as (Hne & Hd & _); [apply zlen_nonneg|].
  destruct (digits (zlen p)) as [|b ds]; [done|]. apply Forall_cons in Hd as [Hb _]. by do 2 eexists.
Qed.

Lemma ReadNext_end r : plain r → stream_of r = [] → ∃ r', ReadNext r = (Fail EOF, r').
Proof.
  intros Hp Hs. unfold ReadNext. run_step. unfold mbind, gm_bind.
  assert (H : ∀ fuel (r : Reader), plain r → stream_of r = [] → (length (src r) < fuel)%nat → ∃ r', size_loop fuel 0 r = (Fail EOF, r')).
  { clear. induction fuel as [|fuel IH]; intros [u s] Hp Hs Hf; [lia|]. unfold stream_of in Hs. cbn [unprocessed src] in *.
    apply app_nil in Hs as [-> Hs]. cbn. destruct s as [|[c e] s]; [by eexists|].
    apply Forall_cons in Hp as [He Hp]. cbn in He. subst e. cbn in Hs. apply app_nil in Hs as [-> Hs].
    unfold mbind, gm_bind, fillUnprocessed. cbn [src]. apply IH; [done|done|cbn in *; lia]. }
  destruct (H (S (turns r)) r Hp Hs) as [r' ->]; [unfold turns; lia|]. by eexists.
Qed.

Lemma read_all_run ps : ∀ fuel r, plain r → (length ps < fuel)%nat → Forall (λ p, zlen p < 2 ^ 63) ps →
  stream_of r = WriteAll ps → ∃ r', read_all fuel r = (Ret ps, r').
Proof.
  induction ps as [|p ps IH]; intros [|fuel] r Hp Hf Hl Hs; cbn in Hf; try lia; cbn [read_all].
  - destruct (ReadNext_end r Hp Hs) as [r' ->]. by eexists.
  - apply Forall_cons in Hl as [Hl Hls].
    destruct (ReadNext_run p (WriteAll ps) r Hp Hl Hs) as (r' & -> & Hp' & Hs').
    { destruct ps as [|q ps]; [done|]. intros b t E. destruct (WriteNext_head q) as (b' & t' & Hq & Hd).
      unfold WriteAll in E. cbn [fmap list_fmap concat] in E. rewrite Hq in E. injection E as <- _. unfold is_digit in Hd. lia. }
    destruct (IH fuel r') as [r'' Hrun]; [done|lia|done|done|]. exists r''. unfold mbind, gm_bind. by rewrite Hrun.
Qed.

(** C35: A request file is read back exactly, however the operating system cuts it:
    all records in order, whatever bytes they hold, and then the end. *)
Theorem binary_roundtrip (ps : list bytes) (chunks : list bytes) :
  Forall (λ p, zlen p < 2 ^ 63) ps → concat chunks = WriteAll ps →
  (read_all (S (length ps)) (NewReader ((λ c, (c, false)) <$> chunks))).1 = Ret ps.
Proof.
  intros Hl Hc. destruct (read_all_run ps (S (length ps)) (NewReader ((λ c, (c, false)) <$> chunks))) as [r' ->];
    [|lia|done| |done].
  - unfold plain. cbn. apply Forall_fmap. by apply Forall_true.
  - unfold stream_of. cbn. by rewrite <-list_fmap_compose, list_fmap_id.
Qed.

Theorem binary_roundtrip_witness :
  let chunks := [[50]; [10; 65]; []; [10; 10; 48; 10; 10; 51; 10]; [10; 10; 49; 10]] in
  concat chunks = WriteAll [[65; 10]; []; [10; 10; 49]] ∧
  (read_all 4 (NewReader ((λ c, (c, false)) <$> chunks))).1 = Ret [[65; 10]; []; [10; 10; 49]].
Proof.
  split; [reflexivity|]. apply (binary_roundtrip [[65; 10]; []; [10; 10; 49]]).
  - repeat (apply Forall_cons; split; [reflexivity|]). apply Forall_nil_2.
  - reflexivity.
Defined.

Lemma fill_loop_short fuel size acc u : (2 <= fuel)%nat → zlen acc + zlen u < size →
  ∃ r', fill_loop fuel size acc (mkReader u []) = (Fail EOF, r').
Proof.
  assert (∀ fuel acc, (1 <= fuel)%nat → zlen acc < size → fill_loop fuel size acc (mkReader [] []) = (Fail EOF, mkReader [] [])) as H.
  { intros [|f] a Hf Ha; [lia|]. cbn [fill_loop]. by rewrite (proj2 (Z.ltb_lt _ _)). }
  intros Hf Hs. pose proof (zlen_nonneg u). destruct (decide (u = [])) as [->|Hu].
  - exists (mkReader [] []). apply H; [lia|]. change (zlen []) with 0 in Hs. lia.
  - destruct fuel as [|fuel]; [lia|]. cbn [fill_loop]. rewrite (proj2 (Z.ltb_lt _ _)) by lia.
    run_step. cbn [unprocessed]. rewrite decide_False by done. run_step. run_step. cbn [unprocessed]. run_step.
    cbn [unprocessed src]. rewrite Z.min_r by lia. replace (Z.to_nat (zlen u)) with (length u) by (unfold zlen; lia).
    rewrite drop_all, firstn_all. exists (mkReader [] []). apply H; [lia|]. rewrite zlen_app. lia.
Qed.

(** A file cut short inside a record reads as one that ends before it: the last
    record is dropped and the error is the [io.EOF] of a clean end. *)
Theorem truncated_record_is_eof p q t : zlen p < 2 ^ 63 → t ≠ [] → q ++ t = digits (zlen p) ++ [10] ++ p →
  (ReadNext (NewReader [(q, false)])).1 = Fail EOF.
Proof.
  intros Hlen Ht Hq. pose proof (zlen_nonneg p). destruct (digits_spec (zlen p)) as (_ & Hd & Hv & _); [done|].
  unfold dec_val in Hv. unfold ReadNext. run_step.
  assert (size_loop (S (turns (NewReader [(q, false)]))) 0 (NewReader [(q, false)]) =
    size_loop (turns (NewReader [(q, false)])) 0 (mkReader q [])) as E by done.
  unfold mbind at 1, gm_bind at 1. rewrite E. clear E.
  assert (∃ f, turns (NewReader [(q, false)]) = S f ∧ (1 <= f ∨ q = []))%nat as (f & -> & Hf).
  { unfold turns, stream_of, NewReader. cbn. rewrite app_nil_r. exists (length q). split; [done|].
    destruct q; [by right|left; cbn; lia]. }
  destruct (decide (length q <= length (digits (zlen p)))%nat) as [Hle|Hgt].
  - destruct (app_eq_prefix q t (digits (zlen p)) ([10] ++ p) Hq Hle) as (m & Hm & _).
    assert (Forall is_digit q) as Hqd by (rewrite Hm in Hd; by apply Forall_app in Hd as [? _]).
    assert (Forall is_digit m) as Hmd by (rewrite Hm in Hd; by apply Forall_app in Hd as [_ ?]).
    cbn [size_loop unprocessed src]. destruct (fillSize_digits q 0 0 Hqd) as [-> _]; [lia| |].
    + rewrite Hm, foldl_app, dec_fold in Hv. pose proof (dec_val_nonneg m Hmd). pose proof (zlen_nonneg m).
      pose proof (dec_val_nonneg q Hqd) as Hq0. unfold dec_val in Hq0.
      assert (1 <= 10 ^ zlen m) by (apply (Z.pow_le_mono_r 10 0); lia). nia.
    + done.
  - destruct (app_eq_prefix (digits (zlen p)) ([10] ++ p) q t (eq_sym Hq) ltac:(lia)) as (m & Hm & Hmt).
    destruct m as [|x m]; [rewrite app_nil_r in Hm; rewrite Hm in Hgt; lia|]. injection Hmt as <- Hmt.
    cbn [size_loop unprocessed src]. rewrite Hm. 
    destruct (fillSize_digits (digits (zlen p)) 0 0 Hd) as [_ ->]; [lia|lia|]. cbn [Nat.add].
    rewrite drop_app_ge by lia. replace (S (length (digits (zlen p))) - length (digits (zlen p)))%nat with 1%nat by lia.
    rewrite Hv, (proj2 (Z.ltb_ge _ _)) by done. run_step. change (drop 1 (10 :: m)) with (drop 0 m). rewrite drop_0.
    destruct (fill_loop_short (S (S (turns (mkReader m [])))) (zlen p) [] m) as [r' Hr]; [lia| |].
    + rewrite Hmt, zlen_app. destruct t; [done|]. rewrite zlen_cons. change (zlen []) with 0.
      pose proof (zlen_nonneg t). lia.
    + unfold mbind, gm_bind. by rewrite Hr.
Qed.

Theorem truncated_record_is_eof_witness : (ReadNext (NewReader [([51; 10; 65], false)])).1 = Fail EOF.
Proof. apply (truncated_record_is_eof [65; 66; 67] _ [66; 67]); reflexivity || discriminate. Defined.
End Binary.

(** ** json/io.Reader *)

(** [bytes.IndexByte] and the two slices around the byte found. *)
Fixpoint cut_byte (c : Z) (bs : bytes) : option (bytes * bytes) :=
  match bs with
  | [] => None
  | b :: bs => if b =? c then Some ([], bs) else '(l, r) ← cut_byte c bs; Some (b :: l, r)
  end.

Lemma cut_byte_app c l rest : c ∉ l → cut_byte c (l ++ c :: rest) = Some (l, rest).
Proof.
  induction l as [|b l IH]; cbn [app cut_byte].
  - by rewrite Z.eqb_refl.
  - intros H. rewrite (proj2 (Z.eqb_neq b c)) by set_solver. by rewrite IH by set_solver.
Qed.

Lemma cut_byte_None c l : c ∉ l → cut_byte c l = None.
Proof.
  induction l as [|b l IH]; [done|]. intros H. cbn. rewrite (proj2 (Z.eqb_neq b c)) by set_solver.
  by rewrite IH by set_solver.
Qed.

Module Lines.
(** [ReadNext(p)]: a line, or what is left at the end of the file. *)
Fixpoint ReadNext (fuel : nat) (p : bytes) : RdM bytes :=
  match fuel with
  | O => gm_diverged
  | S fuel => λ r,
      let turn (r : Reader) :=
        match cut_byte 10 (unprocessed r) with
        | Some (l, rest) => (Ret (p ++ l), mkReader rest (src r))
        | None => ReadNext fuel (p ++ unprocessed r) (mkReader [] (src r))
        end in
      match unprocessed r with
      | [] =>
          match fillUnprocessed r with
          | (Ret _, r) => turn r
          | (Fail EOF, r) => if decide (p = []) then (Fail EOF, r) else (Ret p, r)
          | (o, r) => (match o with Fail e => Fail e | Panic => Panic | _ => Diverged end, r)
          end
      | _ => turn r
      end
  end.

Definition WriteNext (p : bytes) : bytes := p ++ [10].

Lemma line_run fuel : ∀ p l rest r, plain r →
  (length (src r) + (if decide (unprocessed r = []) then 1 else 2) <= fuel)%nat → 10 ∉ l →
  stream_of r = l ++ 10 :: rest → ∃ r', ReadNext fuel p r = (Ret (p ++ l), r') ∧ plain r' ∧ stream_of r' = rest.
Proof.
  induction fuel as [|fuel IH]; intros p l rest [u s] Hp Hf Hl Hs; [case_decide; lia|].
  assert (Hturn : ∀ u s, plain (mkReader u s) → (length s + 1 <= fuel)%nat → stream_of (mkReader u s) = l ++ 10 :: rest →
    ∃ r', match cut_byte 10 u with
          | Some (l, rest) => (Ret (p ++ l), mkReader rest s)
          | None => ReadNext fuel (p ++ u) (mkReader [] s)
          end = (Ret (p ++ l), r') ∧ plain r' ∧ stream_of r' = rest).
  { clear u s Hp Hf Hs. intros u s Hp Hf Hs. unfold stream_of in Hs. cbn [unprocessed src] in Hs.
    destruct (decide (length u <= length l)%nat) as [Hle|Hgt].
    - destruct (app_eq_prefix u _ l _ Hs Hle) as (m & -> & Hrest). rewrite cut_byte_None by set_solver.
      destruct (IH (p ++ u) m rest (mkReader [] s)) as (r' & -> & Hr'); [done|cbn [unprocessed src]; rewrite decide_True by done; lia|set_solver|exact Hrest|].
      exists r'. by rewrite <-app_assoc.
    - destruct (app_eq_prefix l _ u _ (eq_sym Hs) ltac:(lia)) as (m & -> & Hrest).
      rewrite length_app in Hgt. destruct m as [|x m]; [cbn in Hgt; lia|]. injection Hrest as <- Hrest.
      rewrite cut_byte_app by done. by exists (mkReader m s). }
  cbn [ReadNext unprocessed src] in *. destruct u as [|b u].
  - destruct s as [|[c e] s]; [by destruct l|]. apply Forall_cons in Hp as [He Hp]. cbn in He. subst e.
    cbn [fillUnprocessed src unprocessed]. apply Hturn; [done| |exact Hs]. rewrite decide_True in Hf by done. cbn in Hf. lia.
  - apply Hturn; [done| |exact Hs]. rewrite decide_False in Hf by done. lia.
Qed.

(** All lines of a file. *)
Fixpoint read_all (fuel : nat) : RdM (list bytes) :=
  match fuel with
  | O => gm_diverged
  | S fuel => λ r,
      match ReadNext (S (S (length (src r)))) [] r with
      | (Ret p, r) => (ps ← read_all fuel; mret (p :: ps)) r
      | (Fail EOF, r) => (Ret [], r)
      | (Fail e, r) => (Fail e, r)
      | (Panic, r) => (Panic, r)
      | (Diverged, r) => (Diverged, r)
      end
  end.

Definition WriteAll (ps : list bytes) : bytes := concat (WriteNext <$> ps).

Lemma line_end fuel r : plain r → stream_of r = [] → (length (src r) + 1 <= fuel)%nat →
  ∃ r', ReadNext fuel [] r = (Fail EOF, r').
Proof.
  revert r. induction fuel as [|fuel IH]; intros [u s] Hp Hs Hf; [lia|]. unfold stream_of in Hs. cbn [unprocessed src] in *.
  apply app_nil in Hs as [-> Hs]. cbn [ReadNext unprocessed]. destruct s as [|[c e] s]; [by eexists|].
  apply Forall_cons in Hp as [He Hp]. cbn in He. subst e. cbn in Hs. apply app_nil in Hs as [-> Hs].
  cbn [fillUnprocessed src unprocessed cut_byte app]. apply IH; [done|done|cbn in *; lia].
Qed.

Lemma read_lines_run ps : ∀ fuel r, plain r → (length ps < fuel)%nat → Forall (λ p, 10 ∉ p) ps →
  stream_of r = WriteAll ps → ∃ r', read_all fuel r = (Ret ps, r').
Proof.
  induction ps as [|p ps IH]; intros [|fuel] r Hp Hf Hl Hs; cbn in Hf; try lia; cbn [read_all].
  - destruct (line_end (S (S (length (src r)))) r Hp Hs) as [r' ->]; [lia|]. by eexists.
  - apply Forall_cons in Hl as [Hl Hls].
    destruct (line_run (S (S (length (src r)))) [] p (WriteAll ps) r Hp) as (r' & -> & Hp' & Hs');
      [case_decide; lia|done|rewrite Hs; unfold WriteAll, WriteNext; cbn; by rewrite <-app_assoc|].
    destruct (IH fuel r') as [r'' Hrun]; [done|lia|done|done|]. exists r''. unfold mbind, gm_bind. by rewrite Hrun.
Qed.

(** A file of JSON lines is read back line by line, however it is cut. *)
Theorem lines_roundtrip (ps : list bytes) (chunks : list bytes) :
  Forall (λ p, 10 ∉ p) ps → concat chunks = WriteAll ps →
  (read_all (S (length ps)) (NewReader ((λ c, (c, false)) <$> chunks))).1 = Ret ps.
Proof.
  intros Hl Hc. destruct (read_lines_run ps (S (length ps)) (NewReader ((λ c, (c, false)) <$> chunks))) as [r' ->];
    [|lia|done| |done].
  - unfold plain. cbn. apply Forall_fmap. by apply Forall_true.
  - unfold stream_of. cbn. by rewrite <-list_fmap_compose, list_fmap_id.
Qed.

Theorem lines_roundtrip_witness :
  let chunks := [[65]; [66; 10; 10]; []; [67]; [10]] in
  concat chunks = WriteAll [[65; 66]; []; [67]] ∧
  (read_all 4 (NewReader ((λ c, (c, false)) <$> chunks))).1 = Ret [[65; 66]; []; [67]].
Proof.
  split; [reflexivity|]. apply (lines_roundtrip [[65; 66]; []; [67]]).
  - repeat (apply Forall_cons; split; [set_solver|]). apply Forall_nil_2.
  - reflexivity.
Defined.
End Lines.

(** ** PooledReader

    [ReadNext] hands the wrapped reader a buffer from the pool, emptied; both
    readers overwrite it. *)
Definition pooled_ReadNext (read : bytes → RdM bytes) : GM (list bytes * Reader) IOError bytes := λ s,
  let '(b, pool) := slice_Acquire s.1 in
  let '(o, r) := read (take 0 (default [] b)) s.2 in (o, (pool, r)).
Definition pooled_Release (b : bytes) (s : list bytes * Reader) : list bytes * Reader := (slice_Release b s.1, s.2).

(** A reader that returns its last bytes together with [io.EOF], as an
    [io.Reader] may, loses them: both readers drop the chunk. *)
Lemma data_with_eof_dropped c :
  (Binary.ReadNext (NewReader [(c, true)])).1 = Fail EOF ∧ (Lines.ReadNext 2 [] (NewReader [(c, true)])).1 = Fail EOF.
Proof. split; [|done]. unfold Binary.ReadNext, mbind, gm_bind. cbn. by rewrite app_nil_r. Qed.
