(* ===== verification/RequestsGen.v ===== *)
(** * RequestsGen: the example that writes a request file

    Models src/examples/requestsgen/main.go, and what the reader of request files
    makes of what it writes. *)

From S2P Require Import Prelude Decimal RecordIO.

(** ** requestsWriter

    Its buffer starts with ten bytes for the size, which are kept from one record
    to the next; [rw_w] is what the writer has got. *)
Record requestsWriter := mkRequestsWriter { rw_w : bytes; rw_buf : bytes }.

Definition newRequestsWriter (w : bytes) : requestsWriter := mkRequestsWriter w (replicate 10 0).

(** How [run] fails. *)
Inductive gen_error := MarshalError | WriteError.

Definition GenM (A : Type) : Type := GM requestsWriter gen_error A.

Section gen.
(** [proto.Marshal] of a string value, and whether the writer takes what has been
    gathered with the record. *)
Context (Marshal : bytes → option bytes) (accepts : bytes → bool).

(** The buffer with the lines appended, and with the size in front of them. *)
Definition record_lines (tag path message : bytes) : bytes :=
  [10] ++ path ++ [10] ++ tag ++ [10] ++ message ++ [10].

(** [WriteRequest]; a size of more than ten digits is a slice out of range. *)
Definition WriteRequest (tag path message : bytes) : GenM unit := λ w,
  let buf := take 10 (rw_buf w) ++ record_lines tag path message in
  let l := FormatInt (zlen buf - 10) in
  if 10 <? zlen l then (Panic, mkRequestsWriter (rw_w w) buf)
  else
    let at_ := (10 - length l)%nat in
    let buf := take at_ buf ++ l ++ drop 10 buf in
    let b := drop at_ buf in
    if accepts (rw_w w ++ b) then (Ret tt, mkRequestsWriter (rw_w w ++ b) buf)
    else (Fail WriteError, mkRequestsWriter (rw_w w) buf).

(** The loop of [run], [k] turns from [i]. The two texts are handed over in the
    order opposite to the parameters' names. *)
Fixpoint run_loop (k : nat) (i : Z) : GenM unit :=
  match k with
  | O => mret tt
  | S k =>
      match Marshal (str "i am your request #" ++ FormatInt i) with
      | None => gm_fail MarshalError
      | Some pl => WriteRequest (str "/my.service/Method") (str "request tag") pl;; run_loop k (i + 1)
      end
  end.
Definition run (turns : nat) : GenM unit := run_loop turns 0.

(** ** What it writes *)
Definition generated (tag path message : bytes) : bytes :=
  digits (zlen (record_lines tag path message)) ++ record_lines tag path message.

Lemma zlen_generated tag path message : zlen (record_lines tag path message) <= zlen (generated tag path message).
Proof.
  unfold generated. generalize (record_lines tag path message). intros lines. rewrite zlen_app.
  pose proof (zlen_nonneg (digits (zlen lines))). lia.
Qed.

(** A size written in front of the lines. *)
Lemma size_in_front {A} (ten l lines : list A) : length ten = 10%nat → (length l <= 10)%nat →
  let at_ := (10 - length l)%nat in
  take at_ (ten ++ lines) ++ l ++ drop 10 (ten ++ lines) = take at_ ten ++ l ++ lines ∧
  drop at_ (take at_ ten ++ l ++ lines) = l ++ lines.
Proof.
  intros Ht Hl. cbn zeta. rewrite take_app_le, drop_app_ge by lia. rewrite Ht. split; [done|].
  rewrite drop_app_ge; rewrite length_take; [|lia]. by replace (10 - length l - _)%nat with 0%nat by lia.
Qed.

Lemma WriteRequest_run tag path message w : (10 <= length (rw_buf w))%nat →
  zlen (record_lines tag path message) < 10 ^ 10 → accepts (rw_w w ++ generated tag path message) = true →
  ∃ buf, WriteRequest tag path message w = (Ret tt, mkRequestsWriter (rw_w w ++ generated tag path message) buf) ∧
    (10 <= length buf)%nat.
Proof.
  intros Hb Hl Ha. unfold WriteRequest. set (lines := record_lines tag path message) in *.
  assert (length (take 10 (rw_buf w)) = 10%nat) as Hten by (rewrite length_take; lia).
  pose proof (zlen_nonneg lines). rewrite zlen_app. replace (zlen (take 10 (rw_buf w))) with 10 by (unfold zlen; by rewrite Hten).
  replace (10 + zlen lines - 10) with (zlen lines) by lia. rewrite FormatInt_nonneg by done.
  pose proof (digits_short (zlen lines) 10 ltac:(done) ltac:(done)) as Hd. rewrite (proj2 (Z.ltb_ge _ _)) by done. cbn zeta.
  destruct (size_in_front (take 10 (rw_buf w)) (digits (zlen lines)) lines) as [-> ->]; [done|by unfold zlen at 1 in Hd; lia|].
  change (digits (zlen lines) ++ lines) with (generated tag path message). rewrite Ha. eexists. split; [reflexivity|].
  unfold zlen at 1 in Hd. unfold generated. fold lines. rewrite !length_app, length_take, Hten. lia.
Qed.

(** The record of the [i]-th turn. *)
Definition turn_record (i : Z) : option bytes :=
  pl ← Marshal (str "i am your request #" ++ FormatInt i);
  Some (generated (str "/my.service/Method") (str "request tag") pl).

(** A run that fails nowhere writes one record for each turn. *)
Lemma run_loop_writes k : (∀ b, accepts b = true) → ∀ i w rs, (10 <= length (rw_buf w))%nat →
  Forall2 (λ j r, turn_record j = Some r ∧ zlen r < 10 ^ 10) (Z.of_nat <$> seq i k) rs →
  ∃ buf, run_loop k (Z.of_nat i) w = (Ret tt, mkRequestsWriter (rw_w w ++ concat rs) buf).
Proof.
  intros Ha. induction k as [|k IH]; intros i w rs Hb Hrs; cbn [seq fmap list_fmap] in Hrs.
  - apply Forall2_nil_inv_l in Hrs as ->. exists (rw_buf w). cbn. rewrite app_nil_r. by destruct w.
  - apply Forall2_cons_inv_l in Hrs as (r & rs' & [Hr Hlen] & Hrs' & ->). cbn [run_loop].
    apply bind_Some in Hr as (pl & -> & Hr). apply (inj Some) in Hr as <-. pose proof (zlen_generated (str "/my.service/Method") (str "request tag") pl).
    destruct (WriteRequest_run (str "/my.service/Method") (str "request tag") pl w Hb) as (buf & Hw & Hb');
      [lia|done|].
    rewrite (bind_run _ _ _ _ _ Hw). replace (Z.of_nat i + 1) with (Z.of_nat (S i)) by lia.
    destruct (IH (S i) (mkRequestsWriter (rw_w w ++ generated (str "/my.service/Method") (str "request tag") pl) buf) rs' Hb' Hrs') as [buf' ->]. exists buf'. cbn [rw_w concat]. by rewrite <-app_assoc.
Qed.
End gen.

(** Newlines, then something else. *)
Lemma newlines_first (b : bytes) : ∃ k rest, b = replicate k 10 ++ rest ∧ ∀ c t, rest = c :: t → c ≠ 10.
Proof.
  induction b as [|c b (k & rest & -> & Hne)]; [by exists 0%nat, []|].
  destruct (decide (c = 10)) as [->|]; [by exists (S k), rest|]. exists 0%nat, (c :: replicate k 10 ++ rest). split; [done|congruence].
Qed.

(** ** What a reader makes of it

    The size counts the newline after itself and the one after the record. So a
    reader of request files takes the first digit of the next record's size for
    the last byte of this record, *)
Theorem generated_record_overruns tag path message d rest r : plain r → zlen (record_lines tag path message) < 2 ^ 63 →
  stream_of r = generated tag path message ++ d :: rest →
  (Binary.ReadNext r).1 = Ret (path ++ [10] ++ tag ++ [10] ++ message ++ [10; d]).
Proof.
  intros Hp Hlen Hs. unfold generated in Hs. set (lines := record_lines tag path message) in *.
  pose proof (zlen_nonneg lines). destruct (digits_spec (zlen lines)) as (_ & Hd & Hv & _); [done|]. unfold dec_val in Hv.
  set (p := path ++ [10] ++ tag ++ [10] ++ message ++ [10; d]).
  destruct (Binary.size_loop_run (S (turns r)) 0 (digits (zlen lines)) (p ++ rest) r) as (r1 & H1 & Hp1 & Hs1);
    [done|unfold turns; lia|done|done|lia| |].
  { rewrite Hs. unfold lines, record_lines, p. by rewrite <-!app_assoc. }
  unfold Binary.ReadNext. run_step. rewrite (bind_run _ _ _ _ _ H1), Hv, (proj2 (Z.ltb_ge _ _)) by done. run_step.
  destruct (Binary.fill_loop_run (S (S (turns r1))) (zlen lines) [] p rest r1) as (r2 & H2 & Hp2 & Hs2);
    [done|lia|intros _; unfold turns; case_decide; lia| |done|].
  { unfold lines, p, record_lines. rewrite !zlen_app. change (zlen [_]) with 1. change (zlen [_; _]) with 2. change (zlen []) with 0. lia. }
  rewrite (bind_run _ _ _ _ _ H2). run_step.
  destruct (newlines_first rest) as (k & rest' & Hrest & Hne).
  destruct (Binary.trailing_loop_run (S (turns r2)) k rest' r2) as (r3 & H3 & _); [done|lia|congruence|done|].
  by rewrite (bind_run _ _ _ _ _ H3).
Qed.

(** and finds the end of the file inside a record that has none after it. *)
Theorem generated_last_lost tag path message : zlen (record_lines tag path message) < 2 ^ 63 →
  (Binary.ReadNext (NewReader [(generated tag path message, false)])).1 = Fail EOF.
Proof.
  intros Hlen. set (p := (path ++ [10] ++ tag ++ [10] ++ message ++ [10]) ++ [0]).
  assert (zlen p = zlen (record_lines tag path message)) as Hp.
  { unfold p, record_lines. rewrite !zlen_app. change (zlen [_]) with 1. lia. }
  apply (Binary.truncated_record_is_eof p _ [0]); [by rewrite Hp|done|]. rewrite Hp. unfold generated, record_lines, p.
  by rewrite <-!app_assoc.
Qed.
