(* ===== verification/Escape.v ===== *)
(** * Escape: text as a JSON string literal

    Models src/formats/internal/json/escape.go, and of the Go library the
    decoding of one UTF-8 character. *)

From S2P Require Import Prelude RecordIO.

(** ** utf8.DecodeRune *)
Definition RuneError : Z := 65533.
Definition within (lo hi b : Z) : bool := (lo <=? b) && (b <=? hi).

(** The first character of [p] and its length; an invalid byte is
    [(RuneError, 1)]. *)
Definition DecodeRune (p : bytes) : Z * nat :=
  match p with
  | [] => (RuneError, 0%nat)
  | p0 :: rest =>
      if p0 <? 128 then (p0, 1%nat)
      else if within 194 223 p0 then
        match rest with
        | b1 :: _ => if within 128 191 b1 then ((p0 - 192) * 64 + (b1 - 128), 2%nat) else (RuneError, 1%nat)
        | _ => (RuneError, 1%nat)
        end
      else if within 224 239 p0 then
        match rest with
        | b1 :: b2 :: _ =>
            if within (if p0 =? 224 then 160 else 128) (if p0 =? 237 then 159 else 191) b1 && within 128 191 b2 then
              ((p0 - 224) * 4096 + (b1 - 128) * 64 + (b2 - 128), 3%nat)
            else (RuneError, 1%nat)
        | _ => (RuneError, 1%nat)
        end
      else if within 240 244 p0 then
        match rest with
        | b1 :: b2 :: b3 :: _ =>
            if within (if p0 =? 240 then 144 else 128) (if p0 =? 244 then 143 else 191) b1
               && within 128 191 b2 && within 128 191 b3 then
              ((p0 - 240) * 262144 + (b1 - 128) * 4096 + (b2 - 128) * 64 + (b3 - 128), 4%nat)
            else (RuneError, 1%nat)
        | _ => (RuneError, 1%nat)
        end
      else (RuneError, 1%nat)
  end.

(** ** The table of characters that need no escape *)
Fixpoint flags (s : string) : list bool :=
  match s with
  | EmptyString => []
  | String c s => Ascii.eqb c (Ascii.ascii_of_nat 49) :: flags s
  end.

(** The table, sixteen entries per line, [1] for true: ASCII, and the bytes of longer
    characters. *)
Definition lt_ascii : list bool := concat (flags <$> [
  "0000000000000000"%string;
  "0000000000000000"%string;
  "1101110111111111"%string;
  "1111111111110101"%string;
  "1111111111111111"%string;
  "1111111111110111"%string;
  "1111111111111111"%string;
  "1111111111111111"%string
]).
Definition lt_multi : list bool := concat (replicate 8 (flags "1111111111111111"%string)).
Definition lt : list bool := lt_ascii ++ lt_multi.

Definition hex : bytes := str "0123456789abcdef".

(** ** EscapeStringAppend *)
Definition quote : Z := 34.
Definition backslash : Z := 92.

(** The replacement of a character below [utf8.RuneSelf]. *)
Definition escape_ascii (b : Z) : bytes :=
  if (b =? backslash) || (b =? quote) then [backslash; b]
  else if b =? 10 then [backslash; 110]
  else if b =? 13 then [backslash; 114]
  else [backslash; 117; 48; 48] ++
    [nth (Z.to_nat (Z.shiftr b 4)) hex 0; nth (Z.to_nat (Z.land b 15)) hex 0].

(** The loop, at index [i], with [s[start:i]] not yet copied. *)
Fixpoint escape_loop (fuel : nat) (s bb : bytes) (start i : nat) : option bytes :=
  match fuel with
  | O => None
  | S fuel =>
      match s !! i with
      | None => Some ((if (start <? length s)%nat then bb ++ drop start s else bb) ++ [quote])
      | Some b =>
          let flushed := if (start <? i)%nat then bb ++ take (i - start) (drop start s) else bb in
          if b <? 128 then
            if nth (Z.to_nat b) lt false then escape_loop fuel s bb start (i + 1)
            else escape_loop fuel s (flushed ++ escape_ascii b) (i + 1) (i + 1)
          else
            let '(c, size) := DecodeRune (drop i s) in
            if (c =? RuneError) && (size =? 1)%nat then
              escape_loop fuel s (flushed ++ [backslash] ++ str "ufffd") (i + size) (i + size)
            else if (c =? 8232) || (c =? 8233) then
              escape_loop fuel s (flushed ++ [backslash] ++ str "u202" ++ [nth (Z.to_nat (Z.land c 15)) hex 0]) (i + size) (i + size)
            else escape_loop fuel s bb start (i + size)
      end
  end.

Definition EscapeStringAppend (bb s : bytes) : option bytes :=
  escape_loop (S (length s)) s (bb ++ [quote]) 0 0.

(** ** What escaping is: character by character *)

(** The length of the first character and its replacement, if it has one. *)
Definition token (l : bytes) : nat * option bytes :=
  match l with
  | [] => (0%nat, None)
  | b :: _ =>
      if b <? 128 then (1%nat, if nth (Z.to_nat b) lt false then None else Some (escape_ascii b))
      else
        let '(c, size) := DecodeRune l in
        if (c =? RuneError) && (size =? 1)%nat then (size, Some ([backslash] ++ str "ufffd"))
        else if (c =? 8232) || (c =? 8233) then
          (size, Some ([backslash] ++ str "u202" ++ [nth (Z.to_nat (Z.land c 15)) hex 0]))
        else (size, None)
  end.

Fixpoint esc_ (fuel : nat) (l : bytes) : bytes :=
  match fuel, l with
  | S fuel, _ :: _ => let '(n, r) := token l in default (take n l) r ++ esc_ fuel (drop n l)
  | _, _ => []
  end.
Definition esc (l : bytes) : bytes := esc_ (length l) l.

Lemma DecodeRune_size b l : (1 <= (DecodeRune (b :: l)).2 <= length (b :: l))%nat.
Proof.
  unfold DecodeRune. destruct (b <? 128); [cbn; lia|].
  destruct (within 194 223 b); [destruct l as [|b1 l]; [cbn; lia|]; destruct (within _ _ b1); cbn; lia|].
  destruct (within 224 239 b); [destruct l as [|b1 [|b2 l]]; [cbn; lia..|]; destruct (_ && _); cbn; lia|].
  destruct (within 240 244 b); [destruct l as [|b1 [|b2 [|b3 l]]]; [cbn; lia..|]; destruct (_ && _); cbn; lia|].
  cbn. lia.
Qed.

Lemma token_size b l : (1 <= (token (b :: l)).1 <= length (b :: l))%nat.
Proof.
  unfold token. destruct (b <? 128); [cbn; lia|]. pose proof (DecodeRune_size b l).
  destruct (DecodeRune (b :: l)) as [c n]. cbn [snd] in *.
  destruct (_ && _); [done|]. by destruct (_ || _).
Qed.

Lemma esc_fuel f1 : ∀ f2 l, (length l <= f1)%nat → (length l <= f2)%nat → esc_ f1 l = esc_ f2 l.
Proof.
  induction f1 as [|f1 IH]; intros [|f2] [|b l] H1 H2; cbn in H1, H2; try done; try lia.
  pose proof (token_size b l). cbn [esc_]. destruct (token (b :: l)) as [n r]. cbn [fst] in *. f_equal.
  apply IH; rewrite length_drop; cbn [length] in *; lia.
Qed.

Lemma esc_cons b l : esc (b :: l) =
  default (take (token (b :: l)).1 (b :: l)) (token (b :: l)).2 ++ esc (drop (token (b :: l)).1 (b :: l)).
Proof.
  pose proof (token_size b l). unfold esc at 1. cbn [length esc_]. destruct (token (b :: l)) as [n r].
  cbn [fst snd] in *. f_equal. apply esc_fuel; rewrite length_drop; cbn [length] in *; lia.
Qed.

(** Induction along the characters. *)
Lemma token_ind (P : bytes → Prop) : P [] → (∀ b l, P (drop (token (b :: l)).1 (b :: l)) → P (b :: l)) → ∀ l, P l.
Proof.
  intros H0 H1 l. remember (length l) as k eqn:Hk. revert l Hk. induction (Nat.lt_wf_0 k) as [k _ IH].
  intros [|b l] ->; [done|]. pose proof (token_size b l). apply H1. eapply IH; [|reflexivity].
  rewrite length_drop. cbn [length] in *. lia.
Qed.

(** The loop over indices is that recursion. *)
Lemma escape_loop_spec fuel : ∀ s bb start i, (length s - i < fuel)%nat → (start <= i <= length s)%nat →
  escape_loop fuel s bb start i = Some (bb ++ take (i - start) (drop start s) ++ esc (drop i s) ++ [quote]).
Proof.
  induction fuel as [|fuel IH]; intros s bb start i Hf Hi; [lia|]. cbn [escape_loop].
  destruct (s !! i) as [b|] eqn:Hb.
  - pose proof (drop_S _ _ _ Hb) as Hd. pose proof (lookup_lt_Some _ _ _ Hb) as Hlt.
    assert ((if (start <? i)%nat then bb ++ take (i - start) (drop start s) else bb) = bb ++ take (i - start) (drop start s)) as ->.
    { destruct (Nat.ltb_spec start i); [done|]. replace (i - start)%nat with 0%nat by lia. by rewrite app_nil_r. }
    pose proof (token_size b (drop (S i) s)) as Hsz. rewrite Hd, esc_cons, <-Hd in *. rewrite drop_drop.
    assert (Hgo : ∀ r n, (1 <= n <= length (drop i s))%nat →
      escape_loop fuel s ((bb ++ take (i - start) (drop start s)) ++ r) (i + n) (i + n) =
      Some (bb ++ take (i - start) (drop start s) ++ (r ++ esc (drop (i + n) s)) ++ [quote])).
    { intros r n Hn. rewrite length_drop in Hn. rewrite IH by lia. rewrite Nat.sub_diag. cbn [take firstn app]. by rewrite <-!app_assoc. }
    assert (Hlit : ∀ n, (1 <= n <= length (drop i s))%nat →
      escape_loop fuel s bb start (i + n) =
      Some (bb ++ take (i - start) (drop start s) ++ (take n (drop i s) ++ esc (drop (i + n) s)) ++ [quote])).
    { intros n Hn. rewrite length_drop in Hn. rewrite IH by lia. rewrite <-!app_assoc. do 2 f_equal.
      replace (i + n - start)%nat with ((i - start) + n)%nat by lia. rewrite <-take_take_drop, drop_drop.
      replace (start + (i - start))%nat with i by lia. by rewrite <-app_assoc. }
    rewrite Hd in Hsz |- *. unfold token in Hsz |- *. destruct (b <? 128).
    + rewrite <-Hd in *. destruct (nth (Z.to_nat b) lt false); cbn [fst snd default] in *; [by apply Hlit|by apply Hgo].
    + rewrite <-Hd in *. destruct (DecodeRune (drop i s)) as [c n].
      destruct (_ && _); [cbn [fst snd default] in *; by apply Hgo|].
      destruct (_ || _); cbn [fst snd default] in *; [by apply Hgo|by apply Hlit].
  - apply lookup_ge_None in Hb. assert (i = length s) as -> by lia.
    rewrite drop_all, (take_ge (drop start s)) by (rewrite length_drop; lia).
    change (esc []) with (@nil Z). destruct (Nat.ltb_spec start (length s)).
    + by rewrite <-app_assoc.
    + by rewrite (drop_ge s start) by lia.
Qed.

Lemma EscapeStringAppend_spec bb s : EscapeStringAppend bb s = Some (bb ++ [quote] ++ esc s ++ [quote]).
Proof. unfold EscapeStringAppend. rewrite escape_loop_spec by lia. cbn. by rewrite <-app_assoc. Qed.

(** ** Reading a JSON string

    The grammar of RFC 8259: the characters up to the closing quote, escapes
    resolved, and what follows it. *)
Definition hex_value (c : Z) : option Z :=
  if within 48 57 c then Some (c - 48) else if within 97 102 c then Some (c - 87)
  else if within 65 70 c then Some (c - 55) else None.

(** UTF-8 of a code point below 2^16; a surrogate has none. *)
Definition utf8_encode (c : Z) : option bytes :=
  if c <? 128 then Some [c]
  else if c <? 2048 then Some [192 + c / 64; 128 + c mod 64]
  else if within 55296 57343 c then None
  else Some [224 + c / 4096; 128 + c / 64 mod 64; 128 + c mod 64].

Definition simple_escape (e : Z) : option Z :=
  if (e =? quote) || (e =? backslash) || (e =? 47) then Some e
  else if e =? 110 then Some 10 else if e =? 114 then Some 13 else if e =? 116 then Some 9
  else if e =? 98 then Some 8 else if e =? 102 then Some 12 else None.

Definition prepend (p : bytes) (o : option (bytes * bytes)) : option (bytes * bytes) :=
  '(l, rest) ← o; Some (p ++ l, rest).

Fixpoint unescape (l : bytes) : option (bytes * bytes) :=
  match l with
  | [] => None
  | c :: l =>
      if c =? quote then Some ([], l)
      else if c =? backslash then
        match l with
        | e :: l =>
            if e =? 117 then
              match l with
              | h3 :: h2 :: h1 :: h0 :: l =>
                  v3 ← hex_value h3; v2 ← hex_value h2; v1 ← hex_value h1; v0 ← hex_value h0;
                  p ← utf8_encode (v3 * 4096 + v2 * 256 + v1 * 16 + v0);
                  prepend p (unescape l)
              | _ => None
              end
            else x ← simple_escape e; prepend [x] (unescape l)
        | [] => None
        end
      else if c <? 32 then None
      else prepend [c] (unescape l)
  end.

Definition parse_string (l : bytes) : option (bytes * bytes) :=
  match l with c :: l => if c =? quote then unescape l else None | [] => None end.

(** Text with every invalid byte replaced by U+FFFD. *)
Fixpoint sanitize_ (fuel : nat) (l : bytes) : bytes :=
  match fuel, l with
  | S fuel, _ :: _ =>
      let '(c, n) := DecodeRune l in
      (if (c =? RuneError) && (n =? 1)%nat then [239; 191; 189] else take n l) ++ sanitize_ fuel (drop n l)
  | _, _ => []
  end.
Definition sanitize (l : bytes) : bytes := sanitize_ (length l) l.

Lemma sanitize_fuel f1 : ∀ f2 l, (length l <= f1)%nat → (length l <= f2)%nat → sanitize_ f1 l = sanitize_ f2 l.
Proof.
  induction f1 as [|f1 IH]; intros [|f2] [|b l] H1 H2; cbn in H1, H2; try done; try lia.
  pose proof (DecodeRune_size b l). cbn [sanitize_]. destruct (DecodeRune (b :: l)) as [c n]. cbn [snd] in *. f_equal.
  apply IH; rewrite length_drop; cbn [length] in *; lia.
Qed.

Lemma sanitize_cons b l : sanitize (b :: l) =
  (if ((DecodeRune (b :: l)).1 =? RuneError) && ((DecodeRune (b :: l)).2 =? 1)%nat then [239; 191; 189]
   else take (DecodeRune (b :: l)).2 (b :: l)) ++ sanitize (drop (DecodeRune (b :: l)).2 (b :: l)).
Proof.
  pose proof (DecodeRune_size b l). unfold sanitize at 1. cbn [length sanitize_].
  destruct (DecodeRune (b :: l)) as [c n]. cbn [fst snd] in *. f_equal.
  apply sanitize_fuel; rewrite length_drop; cbn [length] in *; lia.
Qed.

Lemma sanitize_ascii l : Forall (λ b, 0 <= b < 128) l → sanitize l = l.
Proof.
  induction 1 as [|b l Hb _ IH]; [done|]. rewrite sanitize_cons. unfold DecodeRune.
  rewrite (proj2 (Z.ltb_lt b 128)) by lia. cbn [fst snd drop take]. rewrite (proj2 (Z.eqb_neq b RuneError)) by (unfold RuneError; lia).
  cbn [andb app drop take]. by rewrite take_0, drop_0, IH.
Qed.

(** *** One character *)
Definition safe (b : Z) : Prop := 32 <= b ∧ b ∉ [38; 60; 62].

(** Below 128, by inspection of the table. *)
Definition ascii_check (b : Z) : bool :=
  if nth (Z.to_nat b) lt false then
    (32 <=? b) && negb (b =? quote) && negb (b =? backslash) && negb (existsb (Z.eqb b) [38; 60; 62])
  else forallb (λ x, (32 <=? x) && negb (existsb (Z.eqb x) [38; 60; 62])) (escape_ascii b)
    && bool_decide (unescape (escape_ascii b ++ [quote]) = Some ([b], [])).

Lemma ascii_checked b : 0 <= b < 128 → ascii_check b = true.
Proof.
  intros Hb. assert (forallb (λ n, ascii_check (Z.of_nat n)) (seq 0 128) = true) as H by (vm_compute; reflexivity).
  rewrite forallb_forall in H. specialize (H (Z.to_nat b)). rewrite Z2Nat.id in H by lia.
  apply H, in_seq. lia.
Qed.

Lemma safe_decide x : (32 <=? x) && negb (existsb (Z.eqb x) [38; 60; 62]) = true → safe x.
Proof.
  intros [H1%Z.leb_le H2%negb_true_iff]%andb_prop. split; [done|]. intros Hx. apply not_true_iff_false in H2.
  apply H2, existsb_exists. exists x. split; [by apply list_elem_of_In|]. apply Z.eqb_refl.
Qed.

Lemma unescape_u h1 h0 x : unescape (backslash :: 117 :: 48 :: 48 :: h1 :: h0 :: x) =
  v1 ← hex_value h1; v0 ← hex_value h0; p ← utf8_encode (v1 * 16 + v0); prepend p (unescape x).
Proof. reflexivity. Qed.

(** An escape sequence does not look at what follows it. *)
Lemma unescape_escape_ascii b x : 0 <= b < 128 → nth (Z.to_nat b) lt false = false →
  unescape (escape_ascii b ++ x) = prepend [b] (unescape x).
Proof.
  intros Hb Hlt. pose proof (ascii_checked b Hb) as H. unfold ascii_check in H. rewrite Hlt in H.
  apply andb_prop in H as [_ H]. apply bool_decide_eq_true in H. revert H. unfold escape_ascii.
  destruct (_ || _) eqn:E1; [|destruct (b =? 10) eqn:E2; [|destruct (b =? 13) eqn:E3]].
  - cbn [app unescape]. change (backslash =? quote) with false. change (backslash =? backslash) with true. cbn iota.
    apply orb_prop in E1 as [E1|E1]; apply Z.eqb_eq in E1 as ->; intros _; reflexivity.
  - apply Z.eqb_eq in E2 as ->. intros _. reflexivity.
  - apply Z.eqb_eq in E3 as ->. intros _. reflexivity.
  - rewrite <-!app_assoc. cbn [app]. rewrite !unescape_u.
    destruct (hex_value (nth (Z.to_nat (Z.shiftr b 4)) hex 0)) as [v1|]; [|done].
    destruct (hex_value (nth (Z.to_nat (Z.land b 15)) hex 0)) as [v0|]; [|done].
    cbn [mbind option_bind]. destruct (utf8_encode (v1 * 16 + v0)) as [p|]; [|done]. cbn [mbind option_bind].
    change (unescape [quote]) with (Some (@nil Z, @nil Z)). unfold prepend at 1. cbn. rewrite app_nil_r. by intros [= ->].
Qed.

Lemma unescape_literal c x : 32 <= c → c ≠ quote → c ≠ backslash → unescape (c :: x) = prepend [c] (unescape x).
Proof.
  intros H1 H2 H3. cbn [unescape]. rewrite (proj2 (Z.eqb_neq _ _)) by done. rewrite (proj2 (Z.eqb_neq _ _)) by done.
  by rewrite (proj2 (Z.ltb_ge _ _)).
Qed.

Lemma prepend_app p q o : prepend p (prepend q o) = prepend (p ++ q) o.
Proof. destruct o as [[l r]|]; [|done]. cbn. by rewrite app_assoc. Qed.

Lemma unescape_literals p x : Forall (λ b, 128 <= b) p → unescape (p ++ x) = prepend p (unescape x).
Proof.
  induction 1 as [|b p Hb _ IH].
  - cbn [app]. by destruct (unescape x) as [[l r]|].
  - cbn [app]. rewrite unescape_literal by (unfold quote, backslash; lia). rewrite IH. apply prepend_app.
Qed.

Lemma within_spec lo hi b : within lo hi b = true ↔ lo <= b <= hi.
Proof. unfold within. rewrite andb_true_iff, !Z.leb_le. done. Qed.

(** What a multi-byte character looks like. *)
Lemma DecodeRune_multi b l c n : 128 <= b → DecodeRune (b :: l) = (c, n) → ¬ (c = RuneError ∧ n = 1%nat) →
  Forall (λ x, 128 <= x <= 244) (take n (b :: l)) ∧ 128 <= c ∧
  (c = 8232 ∨ c = 8233 → take n (b :: l) = [226; 128; c - 8064]).
Proof.
  intros Hb H Hne. unfold DecodeRune in H. rewrite (proj2 (Z.ltb_ge _ _)) in H by done.
  destruct (within 194 223 b) eqn:E2.
  { apply within_spec in E2. destruct l as [|b1 l]; [simplify_eq; tauto|].
    destruct (within 128 191 b1) eqn:E; simplify_eq; [|tauto]. apply within_spec in E. cbn [take firstn].
    split; [|lia]. repeat (apply Forall_cons; split; [lia|]). apply Forall_nil_2. }
  destruct (within 224 239 b) eqn:E3.
  { apply within_spec in E3. destruct l as [|b1 [|b2 l]]; [simplify_eq; tauto..|].
    destruct (within _ _ b1) eqn:E1; cbn [andb] in H; [|simplify_eq; tauto].
    destruct (within 128 191 b2) eqn:E4; simplify_eq; [|tauto]. apply within_spec in E1, E4. cbn [take firstn].
    assert (128 <= b1 <= 191) by (destruct (b =? 224), (b =? 237); lia).
    assert (b = 224 → 160 <= b1) by (intros ->; cbn in E1; lia).
    split; [repeat (apply Forall_cons; split; [lia|]); apply Forall_nil_2|]. split; [lia|].
    intros Hc. assert (b = 226 ∧ b1 = 128) as [-> ->] by lia. do 3 f_equal. lia. }
  destruct (within 240 244 b) eqn:E4; [|simplify_eq; tauto].
  apply within_spec in E4. destruct l as [|b1 [|b2 [|b3 l]]]; [simplify_eq; tauto..|].
  destruct (within _ _ b1) eqn:E1; cbn [andb] in H; [|simplify_eq; tauto].
  destruct (within 128 191 b2) eqn:E5; cbn [andb] in H; [|simplify_eq; tauto].
  destruct (within 128 191 b3) eqn:E6; simplify_eq; [|tauto]. apply within_spec in E1, E5, E6. cbn [take firstn].
  assert (128 <= b1 <= 191) by (destruct (b =? 240), (b =? 244); lia).
  assert (b = 240 → 144 <= b1) by (intros ->; cbn in E1; lia).
  split; [repeat (apply Forall_cons; split; [lia|]); apply Forall_nil_2|]. lia.
Qed.

(** One character of a text, escaped, reads back as that character made valid. *)
Lemma token_unescape b l x : 0 <= b →
  unescape (default (take (token (b :: l)).1 (b :: l)) (token (b :: l)).2 ++ x) =
    prepend (if ((DecodeRune (b :: l)).1 =? RuneError) && ((DecodeRune (b :: l)).2 =? 1)%nat then [239; 191; 189]
             else take (DecodeRune (b :: l)).2 (b :: l)) (unescape x) ∧
  (token (b :: l)).1 = (DecodeRune (b :: l)).2 ∧
  Forall safe (default (take (token (b :: l)).1 (b :: l)) (token (b :: l)).2).
Proof.
  intros Hb. unfold token. destruct (Z.ltb_spec b 128) as [Hlt|Hge].
  - assert (DecodeRune (b :: l) = (b, 1%nat)) as -> by (unfold DecodeRune; by rewrite (proj2 (Z.ltb_lt _ _))).
    cbn [fst snd]. assert ((b =? RuneError) = false) as -> by (apply Z.eqb_neq; unfold RuneError; lia). cbn [andb take firstn].
    pose proof (ascii_checked b ltac:(lia)) as Hc. unfold ascii_check in Hc.
    destruct (nth (Z.to_nat b) lt false) eqn:E; cbn [default].
    + apply andb_prop in Hc as [Hc H38]. apply andb_prop in Hc as [Hc Hbs%negb_true_iff%Z.eqb_neq].
      apply andb_prop in Hc as [H32 Hq%negb_true_iff%Z.eqb_neq]. split; [|split; [done|]].
      * apply unescape_literal; [by apply Z.leb_le|done|done].
      * apply Forall_singleton, safe_decide. by rewrite H32, H38.
    + split; [by apply unescape_escape_ascii|]. split; [done|]. apply andb_prop in Hc as [Hc _].
      rewrite forallb_forall in Hc. apply list.Forall_forall. intros y Hy%list_elem_of_In. by apply safe_decide, Hc.
  - destruct (DecodeRune (b :: l)) as [c n] eqn:E. cbn [fst snd].
    destruct ((c =? RuneError) && (n =? 1)%nat) eqn:Ei.
    + cbn [default fst snd]. split; [reflexivity|]. split; [done|].
      apply list.Forall_forall. intros y Hy. apply safe_decide. revert y Hy. apply list.Forall_forall.
      by repeat constructor.
    + assert (¬ (c = RuneError ∧ n = 1%nat)) as Hne.
      { intros [-> ->]. done. }
      destruct (DecodeRune_multi b l c n Hge E Hne) as (Hbytes & Hc & Hls).
      destruct ((c =? 8232) || (c =? 8233)) eqn:Es; cbn [default fst snd].
      * assert (c = 8232 ∨ c = 8233) as Hs by (apply orb_prop in Es as [?%Z.eqb_eq|?%Z.eqb_eq]; auto).
        rewrite (Hls Hs). destruct Hs as [-> | ->]; (split; [reflexivity|split; [done|]]);
          apply list.Forall_forall; intros y Hy; apply safe_decide; revert y Hy; apply list.Forall_forall;
          by repeat constructor.
      * split; [|split; [done|]].
        -- apply unescape_literals. eapply Forall_impl; [exact Hbytes|]. cbn. lia.
        -- eapply Forall_impl; [exact Hbytes|]. intros y Hy. cbn in Hy. split; [lia|]. set_solver by lia.
Qed.

Lemma esc_unescape l rest : Forall is_byte l →
  unescape (esc l ++ quote :: rest) = Some (sanitize l, rest) ∧ Forall safe (esc l).
Proof.
  revert l. induction l as [|b l IH] using token_ind; intros Hl; [by split; [|apply Forall_nil_2]|].
  rewrite esc_cons, sanitize_cons. pose proof Hl as [Hb _]%Forall_cons. unfold is_byte in Hb.
  destruct (token_unescape b l (esc (drop (token (b :: l)).1 (b :: l)) ++ quote :: rest) ltac:(lia)) as (H1 & H2 & H3).
  destruct IH as [IH1 IH2]; [by apply Forall_drop|].
  split; [|by apply Forall_app]. rewrite <-app_assoc, H1, IH1. rewrite H2. done.
Qed.

(** C36: Whatever bytes a name or a value holds, it is written as one JSON string that
    reads back as the same text, with U+FFFD for bytes that are not UTF-8, and
    that holds no control character, so no newline, and none of [<], [>] and [&]:
    a record stays on its line. *)
Theorem escape_roundtrip bb s rest : Forall is_byte s →
  ∃ lit, EscapeStringAppend bb s = Some (bb ++ lit) ∧
    parse_string (lit ++ rest) = Some (sanitize s, rest) ∧ Forall safe lit.
Proof.
  intros Hs. exists ([quote] ++ esc s ++ [quote]). split; [apply EscapeStringAppend_spec|].
  destruct (esc_unescape s rest Hs) as [H1 H2]. split.
  - cbn [app parse_string]. change (quote =? quote) with true. cbn iota. by rewrite <-app_assoc.
  - assert (safe quote) by (split; [done|set_solver by done]).
    apply Forall_cons. split; [done|]. apply Forall_app. split; [done|]. by apply Forall_singleton.
Qed.

Theorem escape_roundtrip_witness :
  ∃ lit, EscapeStringAppend [123] [10; 34; 200; 60; 226; 128; 168; 195; 169; 0] = Some ([123] ++ lit) ∧
    parse_string (lit ++ [44]) = Some ([10; 34; 239; 191; 189; 60; 226; 128; 168; 195; 169; 0], [44]) ∧ Forall safe lit.
Proof.
  apply (escape_roundtrip [123] [10; 34; 200; 60; 226; 128; 168; 195; 169; 0] [44]).
  repeat (apply Forall_cons; split; [unfold is_byte; lia|]). apply Forall_nil_2.
Defined.
