(* ===== verification/JsonKV.v ===== *)
(** * JsonKV: metadata as a JSON object

    Models src/formats/internal/kv/json/jsonkv.go: the metadata of a request as
    an object of arrays ([MultiVal]) or of strings ([SingleVal]). *)

From S2P Require Import Prelude RecordIO Escape.
From stdpp Require Import sorting.
#[local] Open Scope Z_scope.

(** [model.Meta] of src/formats/model/model.go. *)
Record Meta := mkMeta { Name : bytes; Value : bytes }.

(** ** bytes.Compare *)
Fixpoint bcompare (a b : bytes) : comparison :=
  match a, b with
  | [], [] => Eq
  | [], _ :: _ => Lt
  | _ :: _, [] => Gt
  | x :: a, y :: b => match (x ?= y) with Eq => bcompare a b | c => c end
  end.

Lemma bcompare_eq a b : bcompare a b = Eq ↔ a = b.
Proof.
  revert b. induction a as [|x a IH]; intros [|y b]; cbn; try done.
  destruct (Z.compare_spec x y) as [->|H|H]; [|split; [done|intros [= -> ->]; lia]..].
  rewrite IH. split; [by intros ->|by intros [=]].
Qed.

Lemma bcompare_trans a b c : bcompare a b = Lt → bcompare b c = Lt → bcompare a c = Lt.
Proof.
  revert b c. induction a as [|x a IH]; intros [|y b] [|z c]; cbn; try done.
  destruct (Z.compare_spec x y) as [->|H|H]; [| |done]; destruct (Z.compare_spec y z) as [->|H'|H']; try done.
  - apply IH.
  - intros _ _. by rewrite (proj2 (Z.compare_lt_iff x z)).
  - intros _ _. by rewrite (proj2 (Z.compare_lt_iff x z)) by lia.
Qed.

Lemma bcompare_antisym a b : bcompare b a = CompOpp (bcompare a b).
Proof.
  revert b. induction a as [|x a IH]; intros [|y b]; cbn; try done.
  rewrite Z.compare_antisym. destruct (x ?= y); cbn; [apply IH|done..].
Qed.

(** [metaSorter.Less]. *)
Definition Less (x y : Meta) : bool := match bcompare (Name x) (Name y) with Lt => true | _ => false end.
Definition name_le (x y : Meta) : Prop := Less y x = false.

(** [metaSorter.Swap]; an index out of range panics. *)
Definition Swap (i j : nat) (m : list Meta) : option (list Meta) :=
  x ← m !! i; y ← m !! j; Some (<[i := y]> (<[j := x]> m)).

(** Exchanging two elements loses none: what a sort by [Swap] may rely on. *)
Lemma Swap_perm i j m m' : Swap i j m = Some m' → m' ≡ₚ m ∧ m' !! i = m !! j ∧ m' !! j = m !! i.
Proof.
  unfold Swap. intros (x & Hx & (y & Hy & [= <-])%bind_Some)%bind_Some.
  pose proof (lookup_lt_Some _ _ _ Hx) as Hi. pose proof (lookup_lt_Some _ _ _ Hy) as Hj.
  rewrite list_lookup_insert_eq by (by rewrite length_insert). rewrite Hx, Hy. split_and!; [|done|].
  - by apply Permutation_insert_swap.
  - destruct (decide (i = j)) as [->|Hne]; [rewrite list_lookup_insert_eq by (by rewrite length_insert); congruence|].
    by rewrite list_lookup_insert_ne, list_lookup_insert_eq.
Qed.

(** ** The options of [SingleVal]

    They hold a filter of names, which neither direction looks at. *)
Record options := mkOptions { allowed : bytes → bool }.
Definition WithFilter (filter : bytes → bool) : options → options := λ _, mkOptions filter.
Definition applyOptions (optFns : list (options → options)) : options := foldl (λ opts o, o opts) (mkOptions (λ _, true)) optFns.
Definition NewSingleVal : list (options → options) → options := applyOptions.

(** The last filter counts, and without one all names are allowed. *)
Lemma applyOptions_last fs : applyOptions (WithFilter <$> fs) = mkOptions (default (λ _, true) (last fs)).
Proof.
  unfold applyOptions. induction fs as [|f fs IH] using rev_ind; [done|]. by rewrite fmap_app, foldl_app, last_snoc.
Qed.

(** ** sort.Sort

    The result is sorted by [Less] and has the same elements; equal ones may
    come in any order, so the sort is a parameter with this contract. *)
Class Sorter (sort : list Meta → list Meta) : Prop := {
  sort_perm l : sort l ≡ₚ l;
  sort_sorted l : Sorted name_le (sort l)
}.

(** ** Writing *)
Section marshal.
Context (sort : list Meta → list Meta).

(** The loop from index 1, [prev] being the element before. *)
Fixpoint multi_loop (prev : Meta) (ms : list Meta) (b : bytes) : option bytes :=
  match ms with
  | [] => Some b
  | m :: ms =>
      if decide (Name m = Name prev) then
        b ← EscapeStringAppend (b ++ str ",") (Value m);
        multi_loop m ms b
      else
        b ← EscapeStringAppend (b ++ str "],") (Name m);
        b ← EscapeStringAppend (b ++ str ":[") (Value m);
        multi_loop m ms b
  end.

(** [MultiVal.MarshalAppend]. *)
Definition multi_MarshalAppend (b : bytes) (meta : list Meta) : option bytes :=
  match meta with
  | [] => Some (b ++ str "{}")
  | _ =>
      match sort meta with
      | [] => Some (b ++ str "{" ++ str "]}")
      | m :: ms =>
          b ← EscapeStringAppend (b ++ str "{") (Name m);
          b ← EscapeStringAppend (b ++ str ":[") (Value m);
          b ← multi_loop m ms b;
          Some (b ++ str "]}")
      end
  end.
End marshal.

(** [SingleVal.MarshalAppend]: all but the last with a comma, then the last; the
    second loop of the code advances by two but has one turn. *)
Fixpoint single_loop (ms : list Meta) (b : bytes) : option bytes :=
  match ms with
  | [] => Some b
  | [m] =>
      b ← EscapeStringAppend b (Name m);
      EscapeStringAppend (b ++ str ":") (Value m)
  | m :: ms =>
      b ← EscapeStringAppend b (Name m);
      b ← EscapeStringAppend (b ++ str ":") (Value m);
      single_loop ms (b ++ str ",")
  end.
Definition single_MarshalAppend (b : bytes) (meta : list Meta) : option bytes :=
  b ← single_loop meta (b ++ str "{"); Some (b ++ str "}").

(** ** The text written *)
Definition lit (s : bytes) : bytes := [quote] ++ esc s ++ [quote].

Fixpoint commas (ls : list bytes) : bytes :=
  match ls with [] => [] | [l] => l | l :: ls => l ++ str "," ++ commas ls end.

Definition json_array (vs : list bytes) : bytes := str "[" ++ commas (lit <$> vs) ++ str "]".
Definition json_groups (gs : list (bytes * list bytes)) : bytes :=
  str "{" ++ commas ((λ g, lit g.1 ++ str ":" ++ json_array g.2) <$> gs) ++ str "}".
Definition json_fields (ms : list Meta) : bytes :=
  str "{" ++ commas ((λ m, lit (Name m) ++ str ":" ++ lit (Value m)) <$> ms) ++ str "}".

(** Neighbours of one name together. *)
Fixpoint group (ms : list Meta) : list (bytes * list bytes) :=
  match ms with
  | [] => []
  | m :: ms =>
      match group ms with
      | (k, vs) :: gs => if decide (k = Name m) then (k, Value m :: vs) :: gs else (Name m, [Value m]) :: (k, vs) :: gs
      | [] => [(Name m, [Value m])]
      end
  end.

Lemma group_head m ms : ∃ vs gs, group (m :: ms) = (Name m, Value m :: vs) :: gs.
Proof. cbn. destruct (group ms) as [|[k vs] gs]; [by eauto|]. case_decide; subst; eauto. Qed.

Lemma group_same m ms vs gs k : group ms = (k, vs) :: gs → k = Name m → group (m :: ms) = (k, Value m :: vs) :: gs.
Proof. intros H ->. cbn. rewrite H. by rewrite decide_True. Qed.

Lemma group_new m m' ms : Name m' ≠ Name m → group (m :: m' :: ms) = (Name m, [Value m]) :: group (m' :: ms).
Proof.
  intros H. destruct (group_head m' ms) as (vs & gs & E). change (group (m :: m' :: ms)) with
    (match group (m' :: ms) with
     | (k, vs) :: gs => if decide (k = Name m) then (k, Value m :: vs) :: gs else (Name m, [Value m]) :: (k, vs) :: gs
     | [] => [(Name m, [Value m])]
     end). rewrite E. by rewrite decide_False.
Qed.

Lemma commas_cons l ls : ls ≠ [] → commas (l :: ls) = l ++ str "," ++ commas ls.
Proof. by destruct ls. Qed.

(** The open array of the current name is closed by what the loop writes. *)
Lemma multi_loop_spec ms : ∀ m b,
  ∃ vs gs, group (m :: ms) = (Name m, Value m :: vs) :: gs ∧
    multi_loop m ms b = Some (b ++ concat ((λ v, str "," ++ lit v) <$> vs) ++
      concat ((λ g, str "]," ++ lit g.1 ++ str ":[" ++ commas (lit <$> g.2)) <$> gs)).
Proof.
  induction ms as [|m' ms IH]; intros m b; cbn [multi_loop].
  - exists [], []. cbn. by rewrite app_nil_r.
  - case_decide as H.
    + rewrite EscapeStringAppend_spec. cbn [mbind option_bind]. change ([quote] ++ esc (Value m') ++ [quote]) with (lit (Value m')).
      destruct (IH m' ((b ++ str ",") ++ lit (Value m'))) as (vs & gs & Hg & ->).
      exists (Value m' :: vs), gs. split; [by rewrite <-H; apply group_same|].
      cbn [fmap list_fmap concat]. by rewrite <-!app_assoc.
    + rewrite EscapeStringAppend_spec. cbn [mbind option_bind]. rewrite EscapeStringAppend_spec. cbn [mbind option_bind].
      change ([quote] ++ esc (Value m') ++ [quote]) with (lit (Value m')).
      change ([quote] ++ esc (Name m') ++ [quote]) with (lit (Name m')).
      destruct (IH m' ((((b ++ str "],") ++ lit (Name m')) ++ str ":[") ++ lit (Value m'))) as (vs & gs & Hg & ->).
      exists [], ((Name m', Value m' :: vs) :: gs). split; [rewrite group_new by done; by rewrite Hg|].
      cbn [fmap list_fmap concat fst snd].
      assert (commas (lit (Value m') :: (lit <$> vs)) = lit (Value m') ++ concat ((λ v, str "," ++ lit v) <$> vs)) as ->.
      { clear. generalize (lit (Value m')). induction vs as [|v vs IH]; intros l; [cbn; by rewrite app_nil_r|].
        cbn [fmap list_fmap concat]. rewrite commas_cons by done. change (list_fmap _ _ lit vs) with (lit <$> vs).
        rewrite IH. by rewrite <-!app_assoc. }
      by rewrite <-!app_assoc.
Qed.

(** What the groups hold. *)
Definition pairs (ms : list Meta) : list (bytes * bytes) := (λ m, (Name m, Value m)) <$> ms.
Definition ungroup (gs : list (bytes * list bytes)) : list (bytes * bytes) := concat ((λ g : bytes * list bytes, (λ v : bytes, (g.1, v)) <$> g.2) <$> gs).

Lemma ungroup_group ms : ungroup (group ms) = pairs ms.
Proof.
  induction ms as [|m ms IH]; [done|]. cbn [pairs fmap list_fmap]. fold (pairs ms). rewrite <-IH. cbn [group].
  destruct (group ms) as [|[k vs] gs]; [done|]. by case_decide; subst.
Qed.

Lemma group_sorted ms : Sorted name_le ms → Sorted (λ a b, bcompare a b = Lt) (group ms).*1.
Proof.
  induction 1 as [|m ms Hs IH Hm]; [constructor|]. destruct ms as [|m' ms]; [by repeat constructor|].
  destruct (group_head m' ms) as (vs & gs & E). destruct (decide (Name m' = Name m)) as [H|H].
  - rewrite (group_same m (m' :: ms) (Value m' :: vs) gs (Name m')) by done. by rewrite E in IH.
  - rewrite group_new by done. rewrite E in *. cbn [fmap list_fmap fst]. constructor; [done|]. constructor.
    inversion Hm as [|? ? Hle]; subst. unfold name_le, Less in Hle. rewrite bcompare_antisym in Hle.
    destruct (bcompare (Name m) (Name m')) eqn:Ec; cbn in Hle; try done. apply bcompare_eq in Ec. congruence.
Qed.

Lemma group_NoDup ms : Sorted name_le ms → NoDup (group ms).*1.
Proof.
  intros H%group_sorted%Sorted_StronglySorted; [|intros a b c; apply bcompare_trans].
  induction H as [|a l _ IH Ha]; constructor; [|done]. intros Hin.
  rewrite List.Forall_forall in Ha. apply list_elem_of_In, Ha in Hin.
  by rewrite (proj2 (bcompare_eq a a) eq_refl) in Hin.
Qed.

Lemma json_groups_open g0 gs :
  commas ((λ g, lit g.1 ++ str ":" ++ json_array g.2) <$> g0 :: gs) =
    lit g0.1 ++ str ":[" ++ commas (lit <$> g0.2) ++
    concat ((λ g, str "]," ++ lit g.1 ++ str ":[" ++ commas (lit <$> g.2)) <$> gs) ++ str "]".
Proof.
  revert g0. induction gs as [|g gs IH]; intros g0.
  - cbn [fmap list_fmap commas concat app]. unfold json_array. by rewrite <-?app_assoc.
  - change ((λ g, lit g.1 ++ str ":" ++ json_array g.2) <$> g0 :: g :: gs) with
      ((lit g0.1 ++ str ":" ++ json_array g0.2) :: ((λ g, lit g.1 ++ str ":" ++ json_array g.2) <$> g :: gs)).
    rewrite commas_cons by done. rewrite IH. unfold json_array. cbn [fmap list_fmap concat]. by rewrite <-!app_assoc.
Qed.

Lemma multi_marshal_group sort `{!Sorter sort} b meta :
  multi_MarshalAppend sort b meta = Some (b ++ json_groups (group (sort meta))).
Proof.
  unfold multi_MarshalAppend. destruct meta as [|m0 meta].
  { pose proof (sort_perm []) as Hp. by apply Permutation_nil_r in Hp as ->. }
  destruct (sort (m0 :: meta)) as [|m ms] eqn:E.
  { pose proof (sort_perm (m0 :: meta)) as Hp. rewrite E in Hp. by apply Permutation_nil_l in Hp. }
  rewrite !EscapeStringAppend_spec. cbn [mbind option_bind]. rewrite EscapeStringAppend_spec. cbn [mbind option_bind].
  change ([quote] ++ esc (Value m) ++ [quote]) with (lit (Value m)).
  change ([quote] ++ esc (Name m) ++ [quote]) with (lit (Name m)).
  destruct (multi_loop_spec ms m ((((b ++ str "{") ++ lit (Name m)) ++ str ":[") ++ lit (Value m))) as (vs & gs & Hg & ->).
  cbn [mbind option_bind]. f_equal. rewrite Hg. unfold json_groups. rewrite json_groups_open. cbn [fst snd].
  assert (commas (lit <$> Value m :: vs) = lit (Value m) ++ concat ((λ v, str "," ++ lit v) <$> vs)) as ->.
  { clear. generalize (Value m). induction vs as [|v vs IH]; intros l; [cbn [fmap list_fmap commas concat]; by rewrite app_nil_r|].
    change (lit <$> l :: v :: vs) with (lit l :: (lit <$> v :: vs)). rewrite commas_cons by done. rewrite IH.
    cbn [fmap list_fmap concat]. by rewrite <-!app_assoc. }
  change (str "]}") with (str "]" ++ str "}"). by rewrite <-!app_assoc.
Qed.

(** The object written lists every name once, in byte order, with all the values
    the metadata has for it, and nothing else: it is the JSON text of the sorted
    metadata grouped by name. *)
Theorem multi_marshal_groups sort `{!Sorter sort} b meta :
  ∃ gs, multi_MarshalAppend sort b meta = Some (b ++ json_groups gs) ∧
    NoDup gs.*1 ∧ Sorted (λ x y, bcompare x y = Lt) gs.*1 ∧ ungroup gs ≡ₚ pairs meta.
Proof.
  exists (group (sort meta)). split; [by apply multi_marshal_group|split; [|split]].
  - apply group_NoDup, sort_sorted.
  - apply group_sorted, sort_sorted.
  - rewrite ungroup_group. unfold pairs. by rewrite sort_perm.
Qed.

(** The metadata as one object of strings, in the order given. *)
Lemma escape_lit bb s : EscapeStringAppend bb s = Some (bb ++ lit s).
Proof. apply EscapeStringAppend_spec. Qed.

Lemma single_loop_spec ms b : single_loop ms b = Some (b ++ commas ((λ m, lit (Name m) ++ str ":" ++ lit (Value m)) <$> ms)).
Proof.
  revert b. induction ms as [|m ms IH]; intros b; [cbn; by rewrite app_nil_r|].
  destruct ms as [|m' ms].
  - cbn [single_loop]. rewrite escape_lit. cbn [mbind option_bind]. rewrite escape_lit.
    cbn [fmap list_fmap commas]. by rewrite <-!app_assoc.
  - change (single_loop (m :: m' :: ms) b) with
      (b ← EscapeStringAppend b (Name m); b ← EscapeStringAppend (b ++ str ":") (Value m); single_loop (m' :: ms) (b ++ str ",")).
    rewrite escape_lit. cbn [mbind option_bind]. rewrite escape_lit. cbn [mbind option_bind].
    rewrite IH. change ((λ m, lit (Name m) ++ str ":" ++ lit (Value m)) <$> m :: m' :: ms) with
      ((lit (Name m) ++ str ":" ++ lit (Value m)) :: ((λ m, lit (Name m) ++ str ":" ++ lit (Value m)) <$> m' :: ms)).
    rewrite commas_cons by done. by rewrite <-!app_assoc.
Qed.

Lemma single_marshal_fields b ms : single_MarshalAppend b ms = Some (b ++ json_fields ms).
Proof.
  unfold single_MarshalAppend, json_fields. rewrite single_loop_spec. cbn [mbind option_bind]. by rewrite <-!app_assoc.
Qed.

(** A sort that keeps the contract. *)
#[export] Instance name_le_dec : RelDecision name_le.
Proof. intros x y. unfold name_le. apply _. Defined.
#[export] Instance name_le_total : Total name_le.
Proof.
  intros x y. unfold name_le, Less. rewrite (bcompare_antisym (Name x) (Name y)).
  destruct (bcompare (Name x) (Name y)); cbn; auto.
Qed.
#[export] Instance merge_sorter : Sorter (merge_sort name_le).
Proof. split; intros l; [apply merge_sort_Permutation|apply (Sorted_merge_sort name_le)]. Qed.

Theorem multi_marshal_groups_witness :
  let meta := [mkMeta (str "b") (str "1"); mkMeta (str "a") (str "2"); mkMeta (str "b") (str "3")] in
  multi_MarshalAppend (merge_sort name_le) [] meta = Some ([123] ++ lit (str "a") ++ str ":[" ++ lit (str "2") ++ str "],"
      ++ lit (str "b") ++ str ":[" ++ lit (str "3") ++ str "," ++ lit (str "1") ++ str "]}") ∧
  ∃ gs, multi_MarshalAppend (merge_sort name_le) [] meta = Some ([] ++ json_groups gs) ∧
    NoDup gs.*1 ∧ Sorted (λ x y, bcompare x y = Lt) gs.*1 ∧ ungroup gs ≡ₚ pairs meta.
Proof. split; [vm_compute; reflexivity|]. apply multi_marshal_groups, merge_sorter. Defined.

(** ** One line *)
Lemma lit_safe s : Forall is_byte s → Forall safe (lit s).
Proof.
  intros Hs. destruct (esc_unescape s [] Hs) as [_ H].
  assert (safe quote) by (split; [done|set_solver by done]).
  apply Forall_app. split; [by apply Forall_singleton|]. apply Forall_app. split; [done|]. by apply Forall_singleton.
Qed.

Definition meta_bytes (m : Meta) : Prop := Forall is_byte (Name m) ∧ Forall is_byte (Value m).

Lemma str_safe s : forallb (λ x, (32 <=? x) && negb (existsb (Z.eqb x) [38; 60; 62])) (str s) = true → Forall safe (str s).
Proof.
  intros H. rewrite forallb_forall in H. apply list.Forall_forall. intros x Hx%list_elem_of_In.
  by apply safe_decide, H.
Qed.

Lemma commas_safe ls : Forall (Forall safe) ls → Forall safe (commas ls).
Proof.
  induction 1 as [|l ls Hl Hls IH]; [by apply Forall_nil_2|]. destruct ls as [|l' ls]; [done|].
  rewrite commas_cons by done. apply Forall_app. split; [done|]. apply Forall_app. split; [by apply str_safe|done].
Qed.

Lemma json_groups_safe gs : Forall (λ p, Forall is_byte p.1 ∧ Forall is_byte p.2) (ungroup gs) →
  Forall (λ g, g.2 ≠ []) gs → Forall safe (json_groups gs).
Proof.
  intros H Hne. unfold json_groups. apply Forall_app. split; [by apply str_safe|]. apply Forall_app.
  split; [|by apply str_safe]. apply commas_safe, Forall_fmap. revert H Hne. induction gs as [|[k vs] gs IH]; intros H Hne;
    [by apply Forall_nil_2|]. unfold ungroup in H. cbn [fmap list_fmap concat fst snd] in H. apply Forall_app in H as [H1 H2].
  apply Forall_cons in Hne as [Hv Hne]. apply Forall_cons. split; [|by apply IH]. cbn [fst snd compose] in *.
  rewrite Forall_fmap in H1. cbn [compose] in H1.
  apply Forall_app. split; [destruct vs as [|v vs]; [done|]; apply lit_safe; by apply Forall_cons in H1 as [[? _] _]|].
  apply Forall_app. split; [by apply str_safe|]. unfold json_array. apply Forall_app. split; [by apply str_safe|].
  apply Forall_app. split; [|by apply str_safe]. apply commas_safe, Forall_fmap.
  eapply Forall_impl; [exact H1|]. intros v [_ Hvb]. by apply lit_safe.
Qed.

Lemma group_nonempty ms : Forall (λ g, g.2 ≠ []) (group ms).
Proof.
  induction ms as [|m ms IH]; [by apply Forall_nil_2|]. cbn. destruct (group ms) as [|[k vs] gs].
  - by apply Forall_singleton.
  - case_decide; [|by apply Forall_cons]. apply Forall_cons in IH as [_ IH]. by apply Forall_cons.
Qed.

(** ** Reading, over a JSON lexer (github.com/mailru/easyjson/jlexer)

    Third-party: a parameter. A lexer keeps its place and its first error. *)
Class JLexer (L : Type) (E : Type) := {
  lex_start : bytes → L;
  Delim : Z → L → L;
  IsDelim : Z → L → bool;
  UnsafeBytes : L → bytes * L;
  WantColon : L → L;
  WantComma : L → L;
  Consumed : L → L;
  lex_Error : L → option E
}.

(** What the loops rely on: after an error every [IsDelim] answers true, an
    error stays, and reading a string without an error consumes input. *)
Class JLexerLaws (L E : Type) `{!JLexer L E} := {
  remaining : L → nat;
  lex_start_remaining b : (remaining (lex_start b) <= length b)%nat;
  IsDelim_error c l : is_Some (lex_Error l) → IsDelim c l = true;
  UnsafeBytes_progress l : is_Some (lex_Error (UnsafeBytes l).2) ∨ (remaining (UnsafeBytes l).2 < remaining l)%nat;
  op_remaining c l : (remaining (Delim c l) <= remaining l)%nat ∧ (remaining (WantColon l) <= remaining l)%nat ∧
    (remaining (WantComma l) <= remaining l)%nat ∧ (remaining (UnsafeBytes l).2 <= remaining l)%nat;
  op_error c l : is_Some (lex_Error l) → is_Some (lex_Error (Delim c l)) ∧ is_Some (lex_Error (WantColon l)) ∧
    is_Some (lex_Error (WantComma l)) ∧ is_Some (lex_Error (UnsafeBytes l).2)
}.

Section unmarshal.
Context {L E : Type} `{!JLexer L E}.

(** The values of one name; [None]: out of fuel. *)
Fixpoint values_loop (fuel : nat) (key : bytes) (buf : list Meta) (l : L) : option (list Meta * L) :=
  match fuel with
  | O => None
  | S fuel =>
      if IsDelim 93 l then Some (buf, l)
      else let '(v, l) := UnsafeBytes l in values_loop fuel key (buf ++ [mkMeta key v]) (WantComma l)
  end.

Fixpoint multi_names_loop (fuel : nat) (buf : list Meta) (l : L) : option (list Meta * L) :=
  match fuel with
  | O => None
  | S fuel =>
      if IsDelim 125 l then Some (buf, l)
      else
        let '(key, l) := UnsafeBytes l in
        '(buf, l) ← values_loop (S (S fuel)) key buf (Delim 91 (WantColon l));
        multi_names_loop fuel buf (WantComma (Delim 93 l))
  end.

Definition multi_UnmarshalAppend (buf : list Meta) (b : bytes) : option (list Meta * option E) :=
  '(buf, l) ← multi_names_loop (S (S (length b))) buf (Delim 123 (lex_start b));
  Some (buf, lex_Error (Consumed (Delim 125 l))).

Fixpoint single_names_loop (fuel : nat) (buf : list Meta) (l : L) : option (list Meta * L) :=
  match fuel with
  | O => None
  | S fuel =>
      if IsDelim 125 l then Some (buf, l)
      else
        let '(k, l) := UnsafeBytes l in
        let '(v, l) := UnsafeBytes (WantColon l) in
        single_names_loop fuel (buf ++ [mkMeta k v]) (WantComma l)
  end.

Definition single_UnmarshalAppend (buf : list Meta) (b : bytes) : option (list Meta * option E) :=
  '(buf, l) ← single_names_loop (S (S (length b))) buf (Delim 123 (lex_start b));
  Some (buf, lex_Error (Consumed (Delim 125 l))).

Context `{!JLexerLaws L E}.

(** Fuel for a loop: one turn after an error, else one per byte and two more. *)
Definition enough (fuel : nat) (l : L) : Prop :=
  (is_Some (lex_Error l) ∧ (1 <= fuel)%nat) ∨ (remaining l + 2 <= fuel)%nat.

(** [l'] comes after [l]. *)
Definition later (l l' : L) : Prop := (remaining l' <= remaining l)%nat ∧ (is_Some (lex_Error l) → is_Some (lex_Error l')).

#[local] Instance later_preorder : PreOrder later.
Proof.
  split; [by intros l; split|]. intros l1 l2 l3 [H1 H2] [H3 H4]. split; [lia|auto].
Qed.

Lemma later_ops c l : later l (Delim c l) ∧ later l (WantColon l) ∧ later l (WantComma l) ∧ later l (UnsafeBytes l).2.
Proof.
  destruct (op_remaining c l) as (? & ? & ? & ?). pose proof (op_error c l). unfold later. naive_solver.
Qed.

Lemma enough_later fuel l l' : enough fuel l → later l l' → enough fuel l'.
Proof. intros [[He Hf]|H] [H1 H2]; [left; auto|right; lia]. Qed.

(** A turn that reads a string leaves enough for the rest. *)
Lemma enough_read fuel l l' c : enough (S fuel) l → IsDelim c l = false → later (UnsafeBytes l).2 l' → enough fuel l'.
Proof.
  intros Hen Hd Hl. eapply enough_later; [|exact Hl]. destruct Hen as [[He _]|Hr].
  { by rewrite (IsDelim_error c l He) in Hd. }
  destruct (UnsafeBytes_progress l) as [He|Hp]; [left; split; [done|lia]|right; lia].
Qed.

Lemma values_loop_total fuel : ∀ key buf l, enough fuel l →
  ∃ buf' l', values_loop fuel key buf l = Some (buf', l') ∧ later l l'.
Proof.
  induction fuel as [|fuel IH]; intros key buf l Hen; [destruct Hen as [[_ ?]|?]; lia|]. cbn [values_loop].
  destruct (IsDelim 93 l) eqn:Hdel; [by do 2 eexists|].
  pose proof (enough_read fuel l (WantComma (UnsafeBytes l).2) 93 Hen Hdel) as Hr.
  destruct (later_ops 0 l) as (_ & _ & _ & Hu). destruct (later_ops 0 (UnsafeBytes l).2) as (_ & _ & Hc & _).
  destruct (UnsafeBytes l) as [v l1]. cbn [snd] in *.
  destruct (IH key (buf ++ [mkMeta key v]) (WantComma l1)) as (buf' & l' & -> & Hl'); [by apply Hr|].
  exists buf', l'. split; [done|]. etrans; [exact Hu|]. by etrans; [exact Hc|].
Qed.

Lemma multi_names_total fuel : ∀ buf l, enough fuel l → is_Some (multi_names_loop fuel buf l).
Proof.
  induction fuel as [|fuel IH]; intros buf l Hen; [destruct Hen as [[_ ?]|?]; lia|]. cbn [multi_names_loop].
  destruct (IsDelim 125 l) eqn:Hdel; [done|].
  pose proof (λ l', enough_read fuel l l' 125 Hen Hdel) as Hr. destruct (later_ops 0 l) as (_ & _ & _ & Hu).
  destruct (UnsafeBytes l) as [key l1]. cbn [snd] in *.
  destruct (later_ops 0 l1) as (_ & Hcol & _). destruct (later_ops 91 (WantColon l1)) as (Hd & _).
  destruct (values_loop_total (S (S fuel)) key buf (Delim 91 (WantColon l1))) as (buf' & l' & -> & Hl').
  { apply (enough_later _ l); [|etrans; [exact Hu|]; etrans; [exact Hcol|exact Hd]]. destruct Hen as [[? ?]|?]; [left; split; [done|lia]|right; lia]. }
  cbn [mbind option_bind]. apply IH, Hr. destruct (later_ops 93 l') as (Hd' & _).
  destruct (later_ops 0 (Delim 93 l')) as (_ & _ & Hc & _). etrans; [exact Hcol|]. etrans; [exact Hd|]. etrans; [exact Hl'|]. etrans; [exact Hd'|exact Hc].
Qed.

Lemma single_names_total fuel : ∀ buf l, enough fuel l → is_Some (single_names_loop fuel buf l).
Proof.
  induction fuel as [|fuel IH]; intros buf l Hen; [destruct Hen as [[_ ?]|?]; lia|]. cbn [single_names_loop].
  destruct (IsDelim 125 l) eqn:Hdel; [done|].
  pose proof (λ l', enough_read fuel l l' 125 Hen Hdel) as Hr. destruct (UnsafeBytes l) as [k l1]. cbn [snd] in *.
  destruct (later_ops 0 l1) as (_ & Hcol & _). destruct (later_ops 0 (WantColon l1)) as (_ & _ & _ & Hu).
  destruct (UnsafeBytes (WantColon l1)) as [v l2]. cbn [snd] in *.
  destruct (later_ops 0 l2) as (_ & _ & Hc & _). apply IH, Hr. etrans; [exact Hcol|]. etrans; [exact Hu|exact Hc].
Qed.

(** Reading metadata always ends, with a result or with the lexer's error,
    whatever bytes it is given. *)
Theorem unmarshal_terminates buf b :
  is_Some (multi_UnmarshalAppend buf b) ∧ is_Some (single_UnmarshalAppend buf b).
Proof.
  assert (enough (S (S (length b))) (Delim 123 (lex_start b))) as Hen.
  { right. pose proof (lex_start_remaining b). destruct (op_remaining 123 (lex_start b)) as (? & _). lia. }
  unfold multi_UnmarshalAppend, single_UnmarshalAppend.
  destruct (multi_names_total _ buf _ Hen) as [[buf1 l1] ->], (single_names_total _ buf _ Hen) as [[buf2 l2] ->].
  by split.
Qed.
End unmarshal.
