(* ===== verification/JsonRead.v ===== *)
(** * Reading metadata back

    What the decoders of [formats/internal/kv/json] and [datasource/decoder] get
    from text that the encoders wrote.  The JSON lexer is third-party code: its
    token-level behaviour is the interface [JLexerReads], and [Toy] is a small
    lexer that has it. *)
From stdpp Require Import sorting.
From S2P Require Import Prelude Escape JsonKV.

#[local] Open Scope Z_scope.

(** Where a lexer stands: after an opening bracket (or at the start), after a
    value, or after the caller asked for a separator. *)
Inductive lexpos := Fresh | AfterValue | Sep (c : Z).

(** What must be read to reach the token [r0]: nothing, or the separator. *)
Definition upto (p : lexpos) (r r0 : bytes) : Prop :=
  match p with Fresh => r = r0 | Sep c => r = c :: r0 | AfterValue => False end.

(** The documented behaviour on well-formed compact text; [lex_at l p r]: no error
    so far, [r] is unread. *)
Class JLexerReads (L E : Type) `{!JLexer L E} := {
  lex_at : L → lexpos → bytes → Prop;
  at_start b : lex_at (lex_start b) Fresh b;
  at_open c l p r r0 : c = 123 ∨ c = 91 → lex_at l p r → upto p r (c :: r0) → lex_at (Delim c l) Fresh r0;
  at_close c l p r : c = 125 ∨ c = 93 → p = Fresh ∨ p = Sep 44 → lex_at l p (c :: r) →
    IsDelim c l = true ∧ lex_at (Delim c l) AfterValue r;
  at_string l p r r0 v rest : lex_at l p r → upto p r r0 → parse_string r0 = Some (v, rest) →
    IsDelim 125 l = false ∧ IsDelim 93 l = false ∧ (UnsafeBytes l).1 = v ∧ lex_at (UnsafeBytes l).2 AfterValue rest;
  at_want l r : lex_at l AfterValue r → lex_at (WantColon l) (Sep 58) r ∧ lex_at (WantComma l) (Sep 44) r;
  at_end l : lex_at l AfterValue [] → lex_Error (Consumed l) = None
}.

(** ** A concrete lexer *)
Module Toy.
Record lexer := mkLexer { tl_rest : bytes; tl_pos : lexpos; tl_err : option unit }.

Definition failed (l : lexer) : lexer := mkLexer (tl_rest l) (tl_pos l) (Some tt).

(** The text of the next token, its separator read. *)
Definition token_at (l : lexer) : option bytes :=
  match tl_err l, tl_pos l, tl_rest l with
  | Some _, _, _ => None
  | None, Sep c, b :: r => if b =? c then Some r else None
  | None, Fresh, r => Some r
  | None, _, _ => None
  end.

(** A closing bracket needs no comma before it. *)
Definition close_at (l : lexer) : option bytes :=
  match tl_err l, tl_pos l with
  | None, Fresh => Some (tl_rest l)
  | None, Sep c => if c =? 44 then Some (tl_rest l) else None
  | _, _ => None
  end.

Definition delim_at (c : Z) (l : lexer) : option bytes :=
  match (if (c =? 125) || (c =? 93) then close_at l else token_at l) with
  | Some (b :: r) => if b =? c then Some r else None
  | _ => None
  end.

Definition toy_Delim (c : Z) (l : lexer) : lexer :=
  match delim_at c l with
  | Some r => mkLexer r (if (c =? 125) || (c =? 93) then AfterValue else Fresh) None
  | None => failed l
  end.
Definition toy_IsDelim (c : Z) (l : lexer) : bool :=
  match tl_err l, delim_at c l with None, None => false | _, _ => true end.
Definition toy_UnsafeBytes (l : lexer) : bytes * lexer :=
  match r ← token_at l; parse_string r with
  | Some (v, rest) => (v, mkLexer rest AfterValue None)
  | None => ([], failed l)
  end.
Definition toy_want (c : Z) (l : lexer) : lexer :=
  match tl_pos l with AfterValue => mkLexer (tl_rest l) (Sep c) (tl_err l) | _ => failed l end.

#[export] Instance lexer_ops : JLexer lexer unit := {|
  lex_start b := mkLexer b Fresh None;
  Delim := toy_Delim;
  IsDelim := toy_IsDelim;
  UnsafeBytes := toy_UnsafeBytes;
  WantColon := toy_want 58;
  WantComma := toy_want 44;
  Consumed l := match tl_rest l with [] => l | _ => failed l end;
  lex_Error := tl_err
|}.

Lemma upto_token l r r0 : tl_err l = None → tl_rest l = r → upto (tl_pos l) r r0 → token_at l = Some r0.
Proof.
  destruct l as [rest p e]. cbn. intros -> -> H. destruct p as [| |c]; cbn in *; [by subst|done|].
  subst r. cbn. by rewrite Z.eqb_refl.
Qed.

#[export] Program Instance lexer_reads : JLexerReads lexer unit := {|
  lex_at l p r := tl_err l = None ∧ tl_pos l = p ∧ tl_rest l = r
|}.
Next Obligation. done. Qed.
Next Obligation.
  intros c l p r r0 Hc (He & Hp & Hr) Hu. subst p. cbn. unfold toy_Delim, delim_at.
  pose proof (upto_token l r (c :: r0) He Hr Hu) as Ht.
  assert (((c =? 125) || (c =? 93)) = false) as ->
    by (by destruct Hc as [->| ->]).
  by rewrite Ht, Z.eqb_refl.
Qed.
Next Obligation.
  intros c l p r Hc Hp (He & Hpos & Hr). cbn. unfold toy_IsDelim, toy_Delim, delim_at, close_at.
  assert (((c =? 125) || (c =? 93)) = true) as ->
    by (by destruct Hc as [->| ->]).
  rewrite He, Hpos, Hr.
  by destruct Hp as [->| ->]; cbn; rewrite Z.eqb_refl.
Qed.
Next Obligation.
  intros l p r r0 v rest (He & Hpos & Hr) Hu Hp. subst p. cbn. unfold toy_UnsafeBytes.
  rewrite (upto_token l r r0 He Hr Hu). cbn [mbind option_bind]. rewrite Hp. unfold toy_IsDelim, delim_at, close_at.
  rewrite He, Hr. clear Hr. destruct r0 as [|b r0]; [done|]. unfold parse_string in Hp. destruct (b =? quote) eqn:Hb; [|done].
  apply Z.eqb_eq in Hb as ->. unfold quote in *. destruct (tl_pos l) as [| |c]; cbn in *; subst; [done..|].
  by destruct (c =? 44) eqn:Hc; [apply Z.eqb_eq in Hc as ->|].
Qed.
Next Obligation. intros l r (He & Hp & Hr). cbn. unfold toy_want. rewrite Hp. by cbn. Qed.
Next Obligation. intros l (He & Hp & Hr). cbn. by rewrite Hr. Qed.

(** It also keeps to what the loops need to end. *)
Lemma unescape_shorter l : ∀ v rest, unescape l = Some (v, rest) → (length rest < length l)%nat.
Proof.
  remember (length l) as n eqn:Hn. assert (length l <= n)%nat as Hle by lia. clear Hn. revert l Hle.
  induction n as [|n IH]; intros l Hle v rest H; [destruct l; [done|cbn in Hle; lia]|].
  assert (Hp : ∀ p l', (length l' <= n)%nat → prepend p (unescape l') = Some (v, rest) → (length rest < S n)%nat).
  { intros p l' Hl' Hpre. unfold prepend in Hpre. destruct (unescape l') as [[v' rest']|] eqn:E; [|done].
    injection Hpre as _ <-. pose proof (IH l' Hl' _ _ E). lia. }
  destruct l as [|c l]; [done|]. cbn [unescape length] in *. repeat case_match; try done; subst; cbn [length] in *.
  all: try (injection H as _ <-; lia).
  all: repeat match goal with H : _ ≫= _ = Some _ |- _ => apply bind_Some in H as (? & _ & H) end.
  all: eapply Hp; [|eassumption]; lia.
Qed.

Lemma parse_string_shorter l v rest : parse_string l = Some (v, rest) → (length rest < length l)%nat.
Proof.
  destruct l as [|c l]; [done|]. unfold parse_string. destruct (c =? quote); [|done]. intros Hu%unescape_shorter. cbn. lia.
Qed.

Lemma token_shorter l r : token_at l = Some r → (length r <= length (tl_rest l))%nat.
Proof. unfold token_at. intros H. repeat case_match; try done; injection H as <-; cbn; lia. Qed.

Lemma delim_shorter c l r : delim_at c l = Some r → (length r <= length (tl_rest l))%nat.
Proof.
  unfold delim_at. intros H. destruct (if _ : bool then _ else _) as [[|b k]|] eqn:E; [done| |done].
  destruct (b =? c); [|done]. injection H as <-.
  destruct ((c =? 125) || (c =? 93)); [|apply token_shorter in E; cbn in E; lia].
  unfold close_at in E. repeat case_match; try done; injection E as ->; cbn; lia.
Qed.

Lemma error_stays l c : is_Some (tl_err l) → token_at l = None ∧ delim_at c l = None.
Proof.
  intros [u Hu]. unfold delim_at, close_at, token_at. rewrite Hu. split; [done|]. by destruct ((c =? 125) || (c =? 93)).
Qed.

#[export] Program Instance lexer_laws : JLexerLaws lexer unit := {| remaining l := length (tl_rest l) |}.
Next Obligation. done. Qed.
Next Obligation. intros c l [u Hu]. cbn in *. unfold toy_IsDelim. by rewrite Hu. Qed.
Next Obligation.
  intros l. cbn. unfold toy_UnsafeBytes. destruct (token_at l) as [r|] eqn:E; cbn [mbind option_bind]; [|by left].
  destruct (parse_string r) as [[v rest]|] eqn:Ep; [|by left]. right. cbn.
  apply parse_string_shorter in Ep. apply token_shorter in E. lia.
Qed.
Next Obligation.
  intros c l. cbn. unfold toy_Delim, toy_want, toy_UnsafeBytes. split_and!.
  - destruct (delim_at c l) eqn:E; [by apply delim_shorter in E|done].
  - by destruct (tl_pos l).
  - by destruct (tl_pos l).
  - destruct (token_at l) as [r|] eqn:E; cbn [mbind option_bind]; [|done].
    destruct (parse_string r) as [[v rest]|] eqn:Ep; [|done]. cbn. apply parse_string_shorter in Ep. apply token_shorter in E. lia.
Qed.
Next Obligation.
  intros c l He. cbn in *. destruct (error_stays l c He) as [Ht Hd].
  unfold toy_Delim, toy_want, toy_UnsafeBytes. rewrite Ht, Hd. cbn. split_and!; try done; by destruct (tl_pos l).
Qed.
End Toy.

(** ** The loops on written text *)
Section reads.
Context {L E : Type} `{!JLexer L E} `{!JLexerReads L E}.

(** A list of texts, and the same list once a comma is owed. *)
Definition listed (p : lexpos) (ls : list bytes) : bytes :=
  match p with Sep _ => concat ((λ l, str "," ++ l) <$> ls) | _ => commas ls end.

Lemma listed_next p l ls r : p = Fresh ∨ p = Sep 44 →
  upto p (listed p (l :: ls) ++ r) (l ++ listed (Sep 44) ls ++ r).
Proof.
  intros [-> | ->]; unfold upto, listed; cbn [fmap list_fmap concat]; [|by rewrite <-!app_assoc].
  rewrite app_assoc. f_equal. clear. revert l. induction ls as [|k ls IH]; intros l; [cbn; by rewrite app_nil_r|].
  rewrite commas_cons by done. cbn [fmap list_fmap concat]. rewrite IH. by rewrite <-!app_assoc.
Qed.

Lemma listed_nil p r : listed p [] ++ r = r.
Proof. by destruct p. Qed.

Lemma parse_lit s rest : Forall is_byte s → parse_string (lit s ++ rest) = Some (sanitize s, rest).
Proof.
  intros Hs. destruct (esc_unescape s rest Hs) as [H _]. unfold lit, parse_string. cbn [app].
  change (quote =? quote) with true. cbn iota. by rewrite <-app_assoc.
Qed.

Lemma values_loop_reads vs rest : ∀ fuel key buf l p, p = Fresh ∨ p = Sep 44 → Forall (Forall is_byte) vs →
  (length vs < fuel)%nat → lex_at l p (listed p (lit <$> vs) ++ 93 :: rest) →
  ∃ l', values_loop fuel key buf l = Some (buf ++ ((λ v, mkMeta key (sanitize v)) <$> vs), l') ∧
    lex_at (Delim 93 l') AfterValue rest.
Proof.
  induction vs as [|v vs IH]; intros [|fuel] key buf l p Hp Hv Hf Hl; cbn [length] in Hf; try lia; cbn [values_loop].
  - rewrite listed_nil in Hl. destruct (at_close 93 l p rest (or_intror eq_refl) Hp Hl) as [-> Hd].
    exists l. cbn. by rewrite app_nil_r.
  - apply Forall_cons in Hv as [Hv Hvs].
    pose proof (listed_next p (lit v) (lit <$> vs) (93 :: rest) Hp) as Hu.
    destruct (at_string l p _ _ _ _ Hl Hu (parse_lit v _ Hv)) as (_ & -> & Hs1 & Hs2).
    destruct (UnsafeBytes l) as [x l1]. cbn [fst snd] in *. subst x. apply at_want in Hs2 as [_ Hw].
    destruct (IH fuel key (buf ++ [mkMeta key (sanitize v)]) (WantComma l1) (Sep 44)) as (l' & -> & Hr); [by right|done|lia|done|].
    exists l'. split; [by rewrite <-app_assoc|done].
Qed.

Definition group_text (g : bytes * list bytes) : bytes := lit g.1 ++ str ":" ++ json_array g.2.
Definition group_metas (g : bytes * list bytes) : list Meta := (λ v, mkMeta (sanitize g.1) (sanitize v)) <$> g.2.
Definition group_ok (g : bytes * list bytes) : Prop := Forall is_byte g.1 ∧ Forall (Forall is_byte) g.2.

(** The values of one name, from its colon on. *)
Lemma values_reads vs rest fuel key buf l : Forall (Forall is_byte) vs → (length vs < fuel)%nat →
  lex_at l AfterValue (str ":" ++ json_array vs ++ rest) →
  ∃ l', values_loop fuel key buf (Delim 91 (WantColon l)) = Some (buf ++ ((λ v, mkMeta key (sanitize v)) <$> vs), l') ∧
    lex_at (Delim 93 l') AfterValue rest.
Proof.
  intros Hv Hf Hl. apply at_want in Hl as [Hl _].
  pose proof (at_open 91 _ _ _ (commas (lit <$> vs) ++ 93 :: rest) (or_intror eq_refl) Hl) as Ho.
  destruct (values_loop_reads vs rest fuel key buf (Delim 91 (WantColon l)) Fresh) as (l' & H1 & H2); [by left|done|done| |by eauto].
  apply Ho. unfold upto, json_array. cbn. by rewrite <-app_assoc.
Qed.

Lemma lit_length s : (2 <= length (lit s))%nat.
Proof. unfold lit. rewrite !length_app. cbn. lia. Qed.

Lemma commas_length ls : (Forall (λ l, (2 <= length l)%nat) ls → 2 * length ls <= length (commas ls))%nat.
Proof.
  induction 1 as [|l ls Hl Hls IH]; [cbn; lia|]. destruct ls as [|k ls]; [cbn in *; lia|].
  rewrite commas_cons by done. rewrite !length_app. cbn [length] in *. lia.
Qed.

Lemma lits_length vs : (length vs <= length (commas (lit <$> vs)))%nat.
Proof.
  pose proof (commas_length (lit <$> vs)) as H. rewrite length_fmap in H. 
  enough (Forall (λ l, (2 <= length l)%nat) (lit <$> vs)) by (specialize (H ltac:(done)); lia).
  apply Forall_fmap, Forall_true. intros v. apply lit_length.
Qed.

Lemma listed_length ls : (length (listed (Sep 44) ls) <= S (length (commas ls)))%nat.
Proof.
  unfold listed. induction ls as [|l ls IH]; [cbn; lia|]. cbn [fmap list_fmap concat] in *. destruct ls as [|k ls].
  - cbn. rewrite app_nil_r. lia.
  - rewrite commas_cons by done. rewrite !length_app. cbn [str length]. set (n := length (concat _)) in *. lia.
Qed.

Lemma multi_names_reads gs rest : ∀ fuel buf l p, p = Fresh ∨ p = Sep 44 → Forall group_ok gs →
  (length (listed (Sep 44) (group_text <$> gs)) < fuel)%nat → lex_at l p (listed p (group_text <$> gs) ++ 125 :: rest) →
  ∃ l', multi_names_loop fuel buf l = Some (buf ++ concat (group_metas <$> gs), l') ∧ lex_at (Delim 125 l') AfterValue rest.
Proof.
  induction gs as [|[k vs] gs IH]; intros [|fuel] buf l p Hp Hg Hf Hl; try lia; cbn [multi_names_loop].
  - rewrite listed_nil in Hl. destruct (at_close 125 l p rest (or_introl eq_refl) Hp Hl) as [-> Hd].
    exists l. cbn. by rewrite app_nil_r.
  - apply Forall_cons in Hg as [[Hk Hv] Hg]. cbn [fst snd] in *.
    pose proof (listed_next p (group_text (k, vs)) (group_text <$> gs) (125 :: rest) Hp) as Hu.
    assert (Ht : ∀ r, group_text (k, vs) ++ r = lit k ++ str ":" ++ json_array vs ++ r)
      by (intros r; unfold group_text; cbn [fst snd]; by rewrite <-!app_assoc).
    rewrite Ht in Hu.
    destruct (at_string l p _ _ _ _ Hl Hu (parse_lit k _ Hk)) as (-> & _ & Hs1 & Hs2).
    destruct (UnsafeBytes l) as [x l1]. cbn [fst snd] in *. subst x.
    unfold listed in Hf. cbn [fmap list_fmap concat] in Hf. rewrite !length_app in Hf. cbn [str length] in Hf.
    unfold group_text at 1 in Hf. unfold json_array in Hf. cbn [fst snd] in Hf. rewrite !length_app in Hf. cbn [str length] in Hf.
    pose proof (lits_length vs). pose proof (lit_length k).
    destruct (values_reads vs (listed (Sep 44) (group_text <$> gs) ++ 125 :: rest) (S (S fuel)) (sanitize k) buf l1)
      as (l' & -> & Hl'); [done|lia|done|]. cbn [mbind option_bind]. apply at_want in Hl' as [_ Hl'].
    destruct (IH fuel (buf ++ ((λ v, mkMeta (sanitize k) (sanitize v)) <$> vs)) (WantComma (Delim 93 l')) (Sep 44))
      as (l'' & -> & Hr); [by right|done| |done|].
    + unfold listed. change (list_fmap _ _ group_text gs) with (group_text <$> gs) in *.
      set (n := length (concat _)) in *. lia.
    + exists l''. split; [|done]. cbn [fmap list_fmap concat]. by rewrite <-app_assoc.
Qed.

Lemma group_groups_ok ms : Forall meta_bytes ms → Forall group_ok (group ms).
Proof.
  induction 1 as [|m ms [Hn Hv] _ IH]; [by apply Forall_nil_2|]. cbn [group].
  destruct (group ms) as [|[k vs] gs]; [by apply Forall_singleton; split; [|by apply Forall_singleton]|].
  apply Forall_cons in IH as [[Hk Hvs] IH]. cbn [fst snd] in *.
  case_decide; apply Forall_cons; (split; [split; cbn [fst snd]|]); try done.
  - by apply Forall_cons.
  - by apply Forall_singleton.
  - by apply Forall_cons.
Qed.

Definition clean (m : Meta) : Meta := mkMeta (sanitize (Name m)) (sanitize (Value m)).

Lemma group_metas_clean ms : concat (group_metas <$> group ms) = clean <$> ms.
Proof.
  induction ms as [|m ms IH]; [done|]. cbn [fmap list_fmap]. rewrite <-IH. cbn [group].
  destruct (group ms) as [|[k vs] gs]; [done|]. by case_decide; subst.
Qed.

(** The same for an object of strings. *)
Definition pair_text (m : Meta) : bytes := lit (Name m) ++ str ":" ++ lit (Value m).

Lemma single_names_reads ms rest : ∀ fuel buf l p, p = Fresh ∨ p = Sep 44 → Forall meta_bytes ms →
  (length ms < fuel)%nat → lex_at l p (listed p (pair_text <$> ms) ++ 125 :: rest) →
  ∃ l', single_names_loop fuel buf l = Some (buf ++ (clean <$> ms), l') ∧ lex_at (Delim 125 l') AfterValue rest.
Proof.
  induction ms as [|m ms IH]; intros [|fuel] buf l p Hp Hm Hf Hl; cbn [length] in Hf; try lia; cbn [single_names_loop].
  - rewrite listed_nil in Hl. destruct (at_close 125 l p rest (or_introl eq_refl) Hp Hl) as [-> Hd].
    exists l. cbn. by rewrite app_nil_r.
  - apply Forall_cons in Hm as [[Hk Hv] Hm].
    pose proof (listed_next p (pair_text m) (pair_text <$> ms) (125 :: rest) Hp) as Hu.
    set (more := listed (Sep 44) (pair_text <$> ms) ++ 125 :: rest) in *.
    replace (pair_text m ++ more) with (lit (Name m) ++ str ":" ++ lit (Value m) ++ more) in Hu
      by (unfold pair_text; by rewrite <-!app_assoc).
    destruct (at_string l p _ _ _ _ Hl Hu (parse_lit _ _ Hk)) as (-> & _ & Hs1 & Hs2).
    destruct (UnsafeBytes l) as [x l1]. cbn [fst snd] in *. subst x. apply at_want in Hs2 as [Hw _].
    destruct (at_string _ _ _ _ _ _ Hw eq_refl (parse_lit _ _ Hv)) as (_ & _ & Hs1 & Hs2).
    destruct (UnsafeBytes (WantColon l1)) as [x l2]. cbn [fst snd] in *. subst x. apply at_want in Hs2 as [_ Hw2].
    destruct (IH fuel (buf ++ [clean m]) (WantComma l2) (Sep 44)) as (l' & Hrun & Hr); [by right|done|lia|done|].
    exists l'. unfold clean at 1 in Hrun. rewrite Hrun. split; [by rewrite <-app_assoc|done].
Qed.

Lemma single_unmarshal_fields buf ms : Forall meta_bytes ms →
  single_UnmarshalAppend buf (json_fields ms) = Some (buf ++ (clean <$> ms), None).
Proof.
  intros Hms. unfold single_UnmarshalAppend. set (text := json_fields ms).
  pose proof (at_open 123 (lex_start text) Fresh text (commas (pair_text <$> ms) ++ 125 :: []) (or_introl eq_refl)
    (at_start text) eq_refl) as Ho.
  destruct (single_names_reads ms [] (S (S (length text))) buf (Delim 123 (lex_start text)) Fresh)
    as (l' & -> & He); [by left|done| |done|].
  - enough (length ms <= length text)%nat by lia. subst text. unfold json_fields. rewrite !length_app.
    change ((λ m, lit (Name m) ++ str ":" ++ lit (Value m)) <$> ms) with (pair_text <$> ms).
    pose proof (commas_length (pair_text <$> ms)) as Hc. rewrite length_fmap in Hc.
    enough (Forall (λ l, (2 <= length l)%nat) (pair_text <$> ms)) as Hall by (specialize (Hc Hall); lia).
    apply Forall_fmap, Forall_true. intros m. unfold compose, pair_text. rewrite length_app. pose proof (lit_length (Name m)). lia.
  - cbn [mbind option_bind]. by rewrite (at_end _ He).
Qed.

(** Grouped metadata is read back, in order. *)
Lemma multi_unmarshal_groups buf ms : Forall meta_bytes ms →
  multi_UnmarshalAppend buf (json_groups (group ms)) = Some (buf ++ (clean <$> ms), None).
Proof.
  intros Hms. unfold multi_UnmarshalAppend. set (text := json_groups (group ms)).
  pose proof (at_open 123 (lex_start text) Fresh text (commas (group_text <$> group ms) ++ 125 :: []) (or_introl eq_refl)
    (at_start text) eq_refl) as Ho.
  destruct (multi_names_reads (group ms) [] (S (S (length text))) buf (Delim 123 (lex_start text)) Fresh)
    as (l' & -> & He); [by left|by apply group_groups_ok| |done|].
  - pose proof (listed_length (group_text <$> group ms)). subst text. unfold json_groups. rewrite !length_app.
    change ((λ g, lit g.1 ++ str ":" ++ json_array g.2) <$> group ms) with (group_text <$> group ms). lia.
  - cbn [mbind option_bind]. by rewrite (at_end _ He), group_metas_clean.
Qed.
End reads.

(** Metadata written by the multi-value encoder is read back as the same entries,
    sorted by name, every name and value intact up to bytes that are not UTF-8. *)
Theorem metadata_roundtrip {L E} `{!JLexer L E} `{!JLexerReads L E} sort `{!Sorter sort} buf meta :
  Forall meta_bytes meta →
  ∃ text ms, multi_MarshalAppend sort [] meta = Some text ∧ ms ≡ₚ meta ∧ Sorted name_le ms ∧
    multi_UnmarshalAppend buf text = Some (buf ++ (clean <$> ms), None).
Proof.
  intros Hm. exists (json_groups (group (sort meta))), (sort meta).
  split_and!; [by apply (multi_marshal_group sort [])|apply sort_perm|apply sort_sorted|].
  apply multi_unmarshal_groups. by rewrite sort_perm.
Qed.

#[export] Instance meta_bytes_dec m : Decision (meta_bytes m).
Proof. unfold meta_bytes. apply _. Defined.

Import Toy.

Theorem metadata_roundtrip_witness :
  let meta := [mkMeta (str "b") (str "1"); mkMeta (str "a") [34; 10; 200]; mkMeta (str "b") (str "3")] in
  ∃ text ms, multi_MarshalAppend (merge_sort name_le) [] meta = Some text ∧ ms ≡ₚ meta ∧ Sorted name_le ms ∧
    multi_UnmarshalAppend (L := Toy.lexer) [] text = Some ([] ++ (clean <$> ms), None).
Proof.
  apply (metadata_roundtrip (merge_sort name_le)).
  apply (bool_decide_unpack _). vm_compute. exact I.
Defined.
