(* ===== verification/Formats.v ===== *)
(** * Formats: requests as records

    Models src/formats/model/model.go (the request), src/formats/grpc/ozon/binary/encoding
    and src/formats/grpc/ozon/json/encoding (its two textual forms) and
    src/formats/grpc/middleware.go (rewriting requests before they are encoded).
    Binary records carry the message as it is; JSON records carry it in its
    protojson form, which third-party code converts: a parameter. *)
From stdpp Require Import sorting.
From S2P Require Import Prelude RecordIO Escape JsonKV JsonRead.

#[local] Open Scope Z_scope.

(** ** model.Data *)
Record Data := mkData { Tag : bytes; Method : bytes; Metadata : list Meta; Message : bytes }.

Definition Reset (d : Data) : Data := mkData [] [] [] [].

Definition newline : Z := 10.

(** What the multi-value encoder leaves of the metadata it is given: it returns
    early on an empty list, and sorts the caller's slice otherwise. *)
Definition sort_in_place (sort : list Meta → list Meta) (ms : list Meta) : list Meta :=
  match ms with [] => [] | _ :: _ => sort ms end.

(** ** Binary records: ozon/binary/encoding *)
Module Binary.

(** [nextLine]: a line and what follows it, or nothing at all. *)
Definition nextLine (inp : bytes) : bytes * bytes := default ([], []) (cut_byte newline inp).

Section encoder.
Context (sort : list Meta → list Meta).

(** [Encoder.MarshalAppend]; sorting leaves the caller's metadata sorted. *)
Definition MarshalAppend (b : bytes) (d : Data) : option (bytes * Data) :=
  let b := b ++ Tag d ++ [newline] in
  let b := b ++ Method d ++ [newline] in
  b ← multi_MarshalAppend sort b (Metadata d);
  Some ((b ++ [newline]) ++ Message d,
        mkData (Tag d) (Method d) (sort_in_place sort (Metadata d)) (Message d)).
End encoder.

Section decoder.
Context {L E : Type} `{!JLexer L E}.

(** [Decoder.Unmarshal]: the error of the metadata, and the request as far as it
    was read. *)
Definition Unmarshal (d : Data) (b : bytes) : option (Data * option E) :=
  let d := Reset d in
  let '(tag, b) := nextLine b in
  let '(method, b) := nextLine b in
  let '(metaBytes, b) := nextLine b in
  '(ms, err) ← multi_UnmarshalAppend (Metadata d) metaBytes;
  match err with
  | Some e => Some (mkData tag method ms (Message d), Some e)
  | None => Some (mkData tag method ms b, None)
  end.
End decoder.
End Binary.

(** ** Method names *)

(** [bytes.LastIndexByte]. *)
Fixpoint last_index (c : Z) (l : bytes) : option nat :=
  match l with
  | [] => None
  | b :: l => match last_index c l with Some i => Some (S i) | None => if b =? c then Some O else None end
  end.

Definition replace_last (c c' : Z) (l : bytes) : bytes :=
  match last_index c l with Some i => <[i := c']> l | None => l end.

Definition slash : Z := 47.
Definition dot : Z := 46.

(** [methodFromJSON]: package.Service.Call becomes /package.Service/Call. *)
Definition methodFromJSON (method : bytes) : bytes :=
  match method with
  | [] => method
  | c :: _ => if c =? slash then method else slash :: replace_last dot slash method
  end.

(** [methodToJSON] and what it leaves of its argument, which it edits in place. *)
Definition methodToJSON (method : bytes) : bytes * bytes :=
  match method with
  | [] => (method, method)
  | c :: m =>
      if c =? slash then (replace_last slash dot m, c :: replace_last slash dot m)
      else (replace_last slash dot method, replace_last slash dot method)
  end.

(** ** JSON records: ozon/json/encoding *)
Module Json.

(** The dynamic messages of a method: third-party code behind [reflection]. *)
Class DynamicMessages (M PE : Type) := {
  Get : bytes → option M;
  msg_Unmarshal : bytes → M → M + PE;
  msg_MarshalJSON : M → bytes + PE;
  msg_UnmarshalJSON : bytes → M → M + PE;
  msg_MarshalAppend : bytes → M → bytes + PE
}.

(** The two further operations of the lexer that the decoder uses. *)
Class JLexerRaw (L : Type) := { UnsafeFieldName : L → bytes * L; Raw : L → bytes * L }.

Inductive JsonError (E PE : Type) :=
| NoSuchMethod (m : bytes)
| MetaError (e : E)
| UnknownField (k : bytes)
| CallRequired
| PayloadError (e : PE).
Arguments NoSuchMethod {E PE} _.
Arguments MetaError {E PE} _.
Arguments UnknownField {E PE} _.
Arguments CallRequired {E PE}.
Arguments PayloadError {E PE} _.

Section json.
Context {M PE : Type} `{!DynamicMessages M PE}.

Section encoder.
Context (E : Type) (sort : list Meta → list Meta).

(** [Encoder.MarshalAppend]: the text so far, the error, and the request with its
    method and metadata edited in place. *)
Definition MarshalAppend (b : bytes) (d : Data) : option ((bytes * option (JsonError E PE)) * Data) :=
  match Get (Method d) with
  | None => Some (([], Some (NoSuchMethod (Method d))), d)
  | Some message =>
      b ← EscapeStringAppend (b ++ str "{" ++ lit (str "tag") ++ str ":") (Tag d);
      let '(call, method) := methodToJSON (Method d) in
      b ← EscapeStringAppend (b ++ str "," ++ lit (str "call") ++ str ":") call;
      b ← multi_MarshalAppend sort (b ++ str "," ++ lit (str "metadata") ++ str ":") (Metadata d);
      let b := b ++ str "," ++ lit (str "payload") ++ str ":" in
      let d := mkData (Tag d) method (sort_in_place sort (Metadata d)) (Message d) in
      match msg_Unmarshal (Message d) message with
      | inr e => Some ((b, Some (PayloadError e)), d)
      | inl message =>
          match msg_MarshalJSON message with
          | inr e => Some ((b, Some (PayloadError e)), d)
          | inl jsonBody => Some (((b ++ jsonBody) ++ str "}", None), d)
          end
      end
  end.
End encoder.

Section decoder.
Context {L E : Type} `{!JLexer L E} `{!JLexerRaw L}.

(** [Decoder.metaUnmarshaler]: the codec of the metadata, [None] if its model ran
    out of fuel. *)
Context (metaUnmarshaler : list Meta → bytes → option (list Meta * option E)).

(** What the loop over the fields has gathered. *)
Record fields := mkFields { fs_data : Data; fs_message : option M; fs_payload : bytes }.

(** One field, its name read. *)
Definition field (key : bytes) (f : fields) (l : L) : option ((fields + JsonError E PE) * L) :=
  let d := fs_data f in
  if decide (key = str "tag") then
    let '(v, l) := UnsafeBytes l in
    Some (inl (mkFields (mkData v (Method d) (Metadata d) (Message d)) (fs_message f) (fs_payload f)), l)
  else if decide (key = str "call") then
    let '(v, l) := UnsafeBytes l in
    let method := methodFromJSON v in
    match Get method with
    | None => Some (inr (NoSuchMethod method), l)
    | Some m => Some (inl (mkFields (mkData (Tag d) method (Metadata d) (Message d)) (Some m) (fs_payload f)), l)
    end
  else if decide (key = str "metadata") then
    let '(raw, l) := Raw l in
    '(ms, err) ← metaUnmarshaler (Metadata d) raw;
    match err with
    | Some e => Some (inr (MetaError e), l)
    | None => Some (inl (mkFields (mkData (Tag d) (Method d) ms (Message d)) (fs_message f) (fs_payload f)), l)
    end
  else if decide (key = str "payload") then
    let '(raw, l) := Raw l in Some (inl (mkFields d (fs_message f) raw), l)
  else Some (inr (UnknownField key), l).

Fixpoint fields_loop (fuel : nat) (f : fields) (l : L) : option ((fields + JsonError E PE) * L) :=
  match fuel with
  | O => None
  | S fuel =>
      if IsDelim 125 l then Some (inl f, l)
      else
        let '(key, l) := UnsafeFieldName l in
        '(r, l) ← field key f (WantColon l);
        match r with
        | inr e => Some (inr e, l)
        | inl f => fields_loop fuel f (WantComma l)
        end
  end.

(** [Decoder.Unmarshal]: the lexer's own error is never looked at, so what is read
    after the loop changes nothing. *)
Definition Unmarshal (d : Data) (b : bytes) : option (Data + JsonError E PE) :=
  '(r, _) ← fields_loop (S (S (length b))) (mkFields (Reset d) None []) (Delim 123 (lex_start b));
  match r with
  | inr e => Some (inr e)
  | inl f =>
      match fs_message f with
      | None => Some (inr CallRequired)
      | Some m =>
          match msg_UnmarshalJSON (fs_payload f) m with
          | inr e => Some (inr (PayloadError e))
          | inl m =>
              match msg_MarshalAppend (Message (fs_data f)) m with
              | inr e => Some (inr (PayloadError e))
              | inl b =>
                  let d := fs_data f in Some (inl (mkData (Tag d) (Method d) (Metadata d) b))
              end
          end
      end
  end.
End decoder.
End json.
End Json.

(** ** Middleware: grpc/middleware.go *)
Section middleware.
Context {R : Type}.

Definition MiddlewareFunc : Type := Data → Data.

(** [middlewareEncoder.MarshalAppend]: the functions in turn, then the encoder. *)
Definition middleware_MarshalAppend (enc : bytes → Data → R) (mws : list MiddlewareFunc) (b : bytes) (data : Data) : R :=
  enc b (fold_left (λ d mw, mw d) mws data).

Definition WrapEncoder (enc : bytes → Data → R) (mw : list MiddlewareFunc) : bytes → Data → R :=
  match mw with [] => enc | _ => middleware_MarshalAppend enc mw end.
End middleware.

(** ** Lemmas *)
Lemma last_index_None c l : c ∉ l → last_index c l = None.
Proof.
  induction l as [|b l IH]; [done|]. intros H. cbn. rewrite IH by set_solver. by rewrite (proj2 (Z.eqb_neq b c)) by set_solver.
Qed.

Lemma last_index_app c l r : c ∉ r → last_index c (l ++ c :: r) = Some (length l).
Proof.
  intros Hr. induction l as [|b l IH]; cbn [app last_index length].
  - by rewrite last_index_None, Z.eqb_refl.
  - by rewrite IH.
Qed.

Lemma replace_last_app c c' l r : c ∉ r → replace_last c c' (l ++ c :: r) = l ++ c' :: r.
Proof.
  intros Hr. unfold replace_last. rewrite last_index_app by done. 
  rewrite <-(Nat.add_0_r (length l)), insert_app_r. done.
Qed.

Lemma nextLine_line l rest : newline ∉ l → Binary.nextLine (l ++ newline :: rest) = (l, rest).
Proof. intros H. unfold Binary.nextLine. by rewrite cut_byte_app. Qed.

Lemma ungroup_group_bytes ms : Forall meta_bytes ms →
  Forall (λ p, Forall is_byte p.1 ∧ Forall is_byte p.2) (ungroup (group ms)).
Proof. intros H. rewrite ungroup_group. unfold pairs. apply Forall_fmap. eapply Forall_impl; [exact H|]. by intros m [? ?]. Qed.

Lemma json_groups_line ms : Forall meta_bytes ms → newline ∉ json_groups (group ms).
Proof.
  intros H Hin. pose proof (json_groups_safe _ (ungroup_group_bytes ms H) (group_nonempty ms)) as Hs.
  rewrite list.Forall_forall in Hs. destruct (Hs _ Hin) as [Hlt _]. by unfold newline in Hlt.
Qed.

Lemma sort_nil sort `{!Sorter sort} ms : sort_in_place sort ms = sort ms.
Proof. destruct ms as [|m ms]; [|done]. pose proof (sort_perm (sort := sort) []) as Hp. by apply Permutation_nil_r in Hp as ->. Qed.

(** The record the encoder writes. *)
Definition record_of (d : Data) (ms : list Meta) : bytes :=
  Tag d ++ newline :: Method d ++ newline :: json_groups (group ms) ++ newline :: Message d.

Lemma binary_marshal_text sort `{!Sorter sort} d : 
  Binary.MarshalAppend sort [] d = Some (record_of d (sort (Metadata d)),
    mkData (Tag d) (Method d) (sort (Metadata d)) (Message d)).
Proof.
  unfold Binary.MarshalAppend, record_of. rewrite multi_marshal_group by done. cbn [mbind option_bind].
  rewrite sort_nil by done. do 2 f_equal. rewrite <-!app_assoc. cbn. by rewrite <-?app_assoc.
Qed.

Definition line_ok (d : Data) : Prop := newline ∉ Tag d ∧ newline ∉ Method d ∧ Forall meta_bytes (Metadata d).

Lemma binary_unmarshal_record {L E} `{!JLexer L E} `{!JLexerReads L E} d0 d ms :
  newline ∉ Tag d → newline ∉ Method d → Forall meta_bytes ms →
  Binary.Unmarshal (L := L) d0 (record_of d ms) = Some (mkData (Tag d) (Method d) (clean <$> ms) (Message d), None).
Proof.
  intros Ht Hm Hms. unfold Binary.Unmarshal, record_of. rewrite nextLine_line by done. rewrite nextLine_line by done.
  rewrite nextLine_line by (by apply json_groups_line). rewrite multi_unmarshal_groups by done. done.
Qed.

(** A request written as a binary record is read back: the same tag, method and
    message, byte for byte, and the same metadata, sorted by name, up to bytes
    that are not UTF-8; the message may hold anything, newlines included. *)
Theorem binary_record_roundtrip {L E} `{!JLexer L E} `{!JLexerReads L E} sort `{!Sorter sort} d0 d : line_ok d →
  ∃ record d', Binary.MarshalAppend sort [] d = Some (record, d') ∧ Metadata d' ≡ₚ Metadata d ∧
    Binary.Unmarshal (L := L) d0 record = Some (mkData (Tag d) (Method d) (clean <$> Metadata d') (Message d), None).
Proof.
  intros (Ht & Hm & Hms). do 2 eexists. split; [by apply binary_marshal_text|]. cbn [Metadata].
  split; [apply sort_perm|]. apply binary_unmarshal_record; [done..|]. by rewrite sort_perm.
Qed.

#[export] Instance line_ok_dec d : Decision (line_ok d).
Proof. unfold line_ok. apply _. Defined.

Definition example_data : Data :=
  mkData (str "/tag") (str "/pkg.Service/Call") [mkMeta (str "b") (str "x"); mkMeta (str "a") [10; 34]] [0; 10; 255].

Import Toy.

Theorem binary_record_roundtrip_witness :
  ∃ record d', Binary.MarshalAppend (merge_sort name_le) [] example_data = Some (record, d') ∧
    Metadata d' ≡ₚ Metadata example_data ∧
    Binary.Unmarshal (L := lexer) (mkData [1] [2] [] [3]) record =
      Some (mkData (Tag example_data) (Method example_data) (clean <$> Metadata d') (Message example_data), None).
Proof. apply (binary_record_roundtrip (merge_sort name_le)). apply (bool_decide_unpack _). vm_compute. exact I. Defined.

(** The method of a request survives the trip through a JSON record when it is
    canonical: /Service/Call, the call without dots.  But writing it spoils the
    request: its method is left without the second slash, and is no longer found. *)
Theorem method_roundtrip service call :
  service ≠ [] → service !! 0%nat ≠ Some slash → slash ∉ call → dot ∉ call →
  let method := slash :: service ++ slash :: call in
  (methodToJSON method).1 = service ++ dot :: call ∧ methodFromJSON (methodToJSON method).1 = method ∧
  (methodToJSON method).2 = slash :: service ++ dot :: call.
Proof.
  intros Hne Hh Hs Hd. cbn [methodToJSON]. change (slash =? slash) with true. cbn iota. cbn [fst snd].
  rewrite replace_last_app by done. split; [done|]. split; [|done].
  destruct service as [|c s]; [done|]. cbn [app methodFromJSON]. rewrite (proj2 (Z.eqb_neq c slash)) by (intros ->; by apply Hh).
  f_equal. change (c :: s ++ dot :: call) with ((c :: s) ++ dot :: call). by rewrite replace_last_app.
Qed.

Theorem method_roundtrip_witness :
  (methodToJSON (str "/pkg.Service/Call")).1 = str "pkg.Service.Call" ∧
  methodFromJSON (str "pkg.Service.Call") = str "/pkg.Service/Call" ∧
  (methodToJSON (str "/pkg.Service/Call")).2 = str "/pkg.Service.Call".
Proof.
  apply (method_roundtrip (str "pkg.Service") (str "Call")); try discriminate;
    apply (bool_decide_unpack _); vm_compute; exact I.
Defined.

(** The JSON record of a request whose message converts. *)
Definition json_record (d : Data) (ms : list Meta) (body : bytes) : bytes :=
  str "{" ++ lit (str "tag") ++ str ":" ++ lit (Tag d) ++ str "," ++
  lit (str "call") ++ str ":" ++ lit (methodToJSON (Method d)).1 ++ str "," ++
  lit (str "metadata") ++ str ":" ++ json_groups (group ms) ++ str "," ++
  lit (str "payload") ++ str ":" ++ body ++ str "}".

Lemma json_marshal_text {M PE E} `{!Json.DynamicMessages M PE} sort `{!Sorter sort} d (m m' : M) body :
  Json.Get (Method d) = Some m → Json.msg_Unmarshal (Message d) m = inl m' → Json.msg_MarshalJSON m' = inl body →
  Json.MarshalAppend E sort [] d = Some ((json_record d (sort (Metadata d)) body, None),
    mkData (Tag d) (methodToJSON (Method d)).2 (sort (Metadata d)) (Message d)).
Proof.
  intros Hg Hu Hj. unfold Json.MarshalAppend, json_record. rewrite Hg, escape_lit. cbn [mbind option_bind].
  destruct (methodToJSON (Method d)) as [call method]. cbn [fst snd]. rewrite escape_lit. cbn [mbind option_bind].
  rewrite multi_marshal_group by done. cbn [mbind option_bind Message]. rewrite Hu, Hj, sort_nil by done. do 3 f_equal.
  by rewrite <-!app_assoc.
Qed.
