(* ===== verification/JsonRecord.v ===== *)
(** * JsonRecord: reading JSON records back

    What [ozon/json/encoding]'s decoder gets from the text its encoder writes, for
    the fields in any order.  The grammar of compact JSON values says what the
    lexer's [Raw] may be asked to return; protobuf messages stay a parameter. *)
From stdpp Require Import sorting.
From S2P Require Import Prelude Escape JsonKV JsonRead Formats.

#[local] Open Scope Z_scope.

(** ** Compact JSON values (RFC 8259, without white space) *)
Definition digit (b : Z) : Prop := 48 <= b <= 57.

Definition json_int (l : bytes) : Prop := l = str "0" ∨ ∃ d ds, l = d :: ds ∧ 49 <= d <= 57 ∧ Forall digit ds.
Definition json_frac (l : bytes) : Prop := l = [] ∨ ∃ ds, l = str "." ++ ds ∧ ds ≠ [] ∧ Forall digit ds.
Definition json_exp (l : bytes) : Prop :=
  l = [] ∨ ∃ e sign ds, l = e ++ sign ++ ds ∧ e ∈ [str "e"; str "E"] ∧ sign ∈ [[]; str "+"; str "-"] ∧ ds ≠ [] ∧ Forall digit ds.
Definition json_number (l : bytes) : Prop :=
  ∃ sign i f e, l = sign ++ i ++ f ++ e ∧ sign ∈ [[]; str "-"] ∧ json_int i ∧ json_frac f ∧ json_exp e.

Definition json_scalar (l : bytes) : Prop := l ∈ [str "true"; str "false"; str "null"] ∨ json_number l.
Definition json_string (l : bytes) : Prop := ∃ v, ∀ rest, parse_string (l ++ rest) = Some (v, rest).

Inductive json_text : bytes → Prop :=
| jt_string l : json_string l → json_text l
| jt_scalar l : json_scalar l → json_text l
| jt_array vs : Forall json_text vs → json_text (str "[" ++ commas vs ++ str "]")
| jt_object ms : Forall (λ m, json_string m.1 ∧ json_text m.2) ms →
    json_text (str "{" ++ commas ((λ m, m.1 ++ str ":" ++ m.2) <$> ms) ++ str "}").

(** What may follow a value inside a text. *)
Definition ends (rest : bytes) : Prop := match rest with [] => True | c :: _ => c ∈ [44; 93; 125] end.

(** Induction through the lists of an array and of an object. *)
Section induction.
Context (P : bytes → Prop) (Hstr : ∀ l, json_string l → P l) (Hsc : ∀ l, json_scalar l → P l).
Context (Harr : ∀ vs, Forall P vs → P (str "[" ++ commas vs ++ str "]")).
Context (Hobj : ∀ ms, Forall (λ m, json_string m.1 ∧ P m.2) ms →
  P (str "{" ++ commas ((λ m, m.1 ++ str ":" ++ m.2) <$> ms) ++ str "}")).

Lemma json_text_rect l : json_text l → P l.
Proof.
  revert l. fix IH 2. intros l [l' H|l' H|vs H|ms H]; [by apply Hstr|by apply Hsc|apply Harr|apply Hobj].
  - induction H; constructor; [by apply IH|done].
  - induction H as [|m ms [H1 H2]]; constructor; [split; [done|by apply IH]|done].
Qed.
End induction.

(** Metadata as written is such a value. *)
Lemma lit_string s : Forall is_byte s → json_string (lit s).
Proof. intros H. exists (sanitize s). intros rest. by apply parse_lit. Qed.

Lemma groups_text gs : Forall group_ok gs → json_text (json_groups gs).
Proof.
  intros H. unfold json_groups.
  replace (_ <$> gs) with ((λ m : bytes * bytes, m.1 ++ str ":" ++ m.2) <$> ((λ g, (lit g.1, json_array g.2)) <$> gs))
    by by rewrite <-list_fmap_compose.
  apply jt_object, Forall_fmap. eapply Forall_impl; [exact H|]. intros [k vs] [Hk Hv]. cbn [compose fst snd] in *. split; [by apply lit_string|].
  apply jt_array, Forall_fmap. eapply Forall_impl; [exact Hv|]. intros v Hb. by apply jt_string, lit_string.
Qed.

Lemma fields_text ms : Forall meta_bytes ms → json_text (json_fields ms).
Proof.
  intros H. unfold json_fields.
  replace (_ <$> ms) with ((λ m : bytes * bytes, m.1 ++ str ":" ++ m.2) <$> ((λ m, (lit (Name m), lit (Value m))) <$> ms))
    by by rewrite <-list_fmap_compose.
  apply jt_object, Forall_fmap. eapply Forall_impl; [exact H|]. intros m [Hk Hv]. cbn [compose fst snd].
  split; [by apply lit_string|by apply jt_string, lit_string].
Qed.

(** ** The two further operations of the lexer

    [UnsafeFieldName(true)] returns the text of a name without undoing escapes,
    [Raw] the text of the next value. *)
Class JLexerFields (L E : Type) `{!JLexer L E} `{!JLexerReads L E} `{!Json.JLexerRaw L} := {
  at_name l p r k rest : lex_at l p r → upto p r (quote :: k ++ quote :: rest) →
    parse_string (quote :: k ++ quote :: rest) = Some (k, rest) →
    (Json.UnsafeFieldName l).1 = k ∧ lex_at (Json.UnsafeFieldName l).2 AfterValue rest;
  at_raw l p r v rest : lex_at l p r → upto p r (v ++ rest) → json_text v → ends rest →
    (Json.Raw l).1 = v ∧ lex_at (Json.Raw l).2 AfterValue rest
}.

(** What the loop over the fields needs to end. *)
Class JLexerFieldsLaws (L E : Type) `{!JLexer L E} `{!JLexerLaws L E} `{!Json.JLexerRaw L} := {
  name_progress l : is_Some (lex_Error (Json.UnsafeFieldName l).2) ∨ (remaining (Json.UnsafeFieldName l).2 < remaining l)%nat;
  raw_later l : later l (Json.Raw l).2 ∧ later l (Json.UnsafeFieldName l).2
}.

(** ** The concrete lexer, continued *)
Module ToyRaw.
Import Toy.

Definition is_end (c : Z) : bool := bool_decide (c ∈ [44; 93; 125]).

(** What follows a scalar, and what follows a value at a depth of brackets. *)
Fixpoint skip_scalar (l : bytes) : bytes :=
  match l with [] => [] | c :: r => if is_end c then l else skip_scalar r end.

Fixpoint skip (fuel depth : nat) (l : bytes) : option bytes :=
  match fuel, l with
  | S fuel, c :: r =>
      if c =? quote then
        match parse_string l, depth with
        | Some (_, r), O => Some r
        | Some (_, r), S _ => skip fuel depth r
        | None, _ => None
        end
      else if bool_decide (c ∈ [91; 123]) then skip fuel (S depth) r
      else if bool_decide (c ∈ [93; 125]) then
        match depth with O => None | S O => Some r | S depth => skip fuel depth r end
      else match depth with O => Some (skip_scalar l) | S _ => skip fuel depth r end
  | _, _ => None
  end.

Definition toy_Raw (l : lexer) : bytes * lexer :=
  match r ← token_at l; rest ← skip (S (length r)) 0 r; Some (r, rest) with
  | Some (r, rest) => (take (length r - length rest) r, mkLexer rest AfterValue None)
  | None => ([], failed l)
  end.

#[export] Instance lexer_raw : Json.JLexerRaw lexer := {| Json.UnsafeFieldName := toy_UnsafeBytes; Json.Raw := toy_Raw |}.

(** *** A text is skipped as a whole *)
Definition scalar_byte (c : Z) : Prop := c ∉ [quote; 91; 123; 93; 125; 44].

Lemma digits_scalar ds : Forall digit ds → Forall scalar_byte ds.
Proof. intros H. eapply Forall_impl; [exact H|]. unfold digit, scalar_byte, quote. intros c Hc. rewrite !not_elem_of_cons. split_and!; try lia. apply not_elem_of_nil. Qed.

Lemma const_scalar l : bool_decide (Forall scalar_byte l) = true → Forall scalar_byte l.
Proof. apply bool_decide_eq_true. Qed.

Lemma scalar_bytes l : json_scalar l → l ≠ [] ∧ Forall scalar_byte l.
Proof.
  assert (Hn : ∀ l k : bytes, l ≠ [] → l ++ k ≠ []) by (by intros []).
  intros [H|(sign & i & f & e & -> & Hs & Hi & Hf & He)].
  { repeat (apply elem_of_cons in H as [->|H]; [split; [done|by apply const_scalar]|]). by apply elem_of_nil in H. }
  assert (i ≠ [] ∧ Forall scalar_byte i) as [Hi0 Hi1].
  { destruct Hi as [->|(d & ds & -> & Hd & Hds)]; (split; [done|]); [by apply const_scalar|].
    apply digits_scalar, Forall_cons. split; [unfold digit; lia|done]. }
  split; [destruct sign; [cbn; by apply Hn|done]|]. apply Forall_app. split.
  { repeat (apply elem_of_cons in Hs as [->|Hs]; [by apply const_scalar|]). by apply elem_of_nil in Hs. }
  apply Forall_app. split; [done|]. apply Forall_app. split.
  - destruct Hf as [->|(ds & -> & _ & Hds)]; [by apply const_scalar|]. apply Forall_app. split; [by apply const_scalar|by apply digits_scalar].
  - destruct He as [->|(x & sg & ds & -> & Hx & Hg & _ & Hds)]; [by apply const_scalar|]. apply Forall_app. split.
    { repeat (apply elem_of_cons in Hx as [->|Hx]; [by apply const_scalar|]). by apply elem_of_nil in Hx. }
    apply Forall_app. split; [|by apply digits_scalar].
    repeat (apply elem_of_cons in Hg as [->|Hg]; [by apply const_scalar|]). by apply elem_of_nil in Hg.
Qed.

(** [v] is passed over inside brackets, in at most as many turns as it has bytes. *)
Definition passed (v : bytes) : Prop :=
  ∃ n, (n <= length v)%nat ∧ ∀ fuel d rest, skip (n + fuel) (S d) (v ++ rest) = skip fuel (S d) rest.

Lemma passed_nil : passed [].
Proof. by exists 0%nat. Qed.

Lemma passed_app v w : passed v → passed w → passed (v ++ w).
Proof.
  intros (n & Hn & Hv) (m & Hm & Hw). exists (n + m)%nat. rewrite length_app. split; [lia|]. intros fuel d rest.
  by rewrite <-Nat.add_assoc, <-app_assoc, Hv, Hw.
Qed.

Lemma passed_byte c : c ∉ [quote; 91; 123; 93; 125] → passed [c].
Proof.
  intros H. exists 1%nat. split; [done|]. intros fuel d rest. cbn. rewrite !not_elem_of_cons in H.
  destruct (Z.eqb_spec c quote); [tauto|]. rewrite !bool_decide_eq_false_2; [done| |]; rewrite !not_elem_of_cons; 
    (split_and!; [tauto..|apply not_elem_of_nil]).
Qed.

Lemma passed_string s : json_string s → passed s.
Proof.
  intros [v Hs]. pose proof (Hs []) as H0. rewrite app_nil_r in H0. destruct s as [|c s]; [done|].
  exists 1%nat. split; [cbn; lia|]. intros fuel d rest. specialize (Hs rest). cbn [app] in *. cbn [Nat.add skip].
  destruct (Z.eqb_spec c quote) as [->|Hc]; [by rewrite Hs|].
  unfold parse_string in Hs. apply Z.eqb_neq in Hc. by rewrite Hc in Hs.
Qed.

Lemma passed_scalar s : json_scalar s → passed s.
Proof.
  intros [_ H]%scalar_bytes. induction H as [|c s Hc _ IH]; [apply passed_nil|].
  apply (passed_app [c]); [|done]. apply passed_byte. unfold scalar_byte in Hc. rewrite !not_elem_of_cons in *. tauto.
Qed.

Lemma passed_commas vs : Forall passed vs → passed (commas vs).
Proof.
  induction 1 as [|v vs Hv Hvs IH]; [apply passed_nil|]. destruct vs as [|w vs]; [done|].
  rewrite commas_cons by done. apply passed_app; [done|]. apply passed_app; [|done]. apply passed_byte. by compute_done.
Qed.

Lemma open_bracket o : o ∈ [91; 123] → (o =? quote) = false ∧ bool_decide (o ∈ [91; 123]) = true.
Proof. intros H. repeat (apply elem_of_cons in H as [->|H]; [done|]). by apply elem_of_nil in H. Qed.

Lemma close_bracket c : c ∈ [93; 125] →
  (c =? quote) = false ∧ bool_decide (c ∈ [91; 123]) = false ∧ bool_decide (c ∈ [93; 125]) = true.
Proof. intros H. repeat (apply elem_of_cons in H as [->|H]; [done|]). by apply elem_of_nil in H. Qed.

Lemma passed_brackets o c v : o ∈ [91; 123] → c ∈ [93; 125] → passed v → passed (o :: v ++ [c]).
Proof.
  intros [Ho1 Ho2]%open_bracket (Hc1 & Hc2 & Hc3)%close_bracket (n & Hn & Hv). exists (S (n + 1)). cbn [length].
  rewrite length_app. split; [cbn; lia|]. intros fuel d rest. cbn [app Nat.add skip]. rewrite <-app_assoc. cbn [app].
  rewrite Ho1, Ho2, <-Nat.add_assoc, Hv. cbn [Nat.add skip]. by rewrite Hc1, Hc2, Hc3.
Qed.

Lemma text_passed v : json_text v → passed v.
Proof.
  revert v. apply json_text_rect.
  - apply passed_string.
  - apply passed_scalar.
  - intros vs H. apply (passed_brackets 91 93); [compute_done..|by apply passed_commas].
  - intros ms H. apply (passed_brackets 123 125); [compute_done..|]. apply passed_commas, Forall_fmap.
    eapply Forall_impl; [exact H|]. intros [k v] [Hk Hv]. cbn [compose fst snd] in *. apply passed_app; [by apply passed_string|].
    apply passed_app; [apply passed_byte; compute_done|done].
Qed.

Lemma skip_scalar_app s rest : Forall scalar_byte s → ends rest → skip_scalar (s ++ rest) = rest.
Proof.
  intros H He. induction H as [|c s Hc _ IH]; cbn [app skip_scalar].
  - destruct rest as [|c rest]; [done|]. cbn [ends skip_scalar] in *. unfold is_end. by rewrite bool_decide_eq_true_2.
  - unfold is_end. rewrite bool_decide_eq_false_2; [done|]. unfold scalar_byte in Hc. rewrite !not_elem_of_cons in *. tauto.
Qed.

Lemma skip_brackets o c v rest fuel : o ∈ [91; 123] → c ∈ [93; 125] → passed v → (length v + 1 < fuel)%nat →
  skip fuel 0 (o :: v ++ c :: rest) = Some rest.
Proof.
  intros [Ho1 Ho2]%open_bracket (Hc1 & Hc2 & Hc3)%close_bracket (n & Hn & Hv) Hf. destruct fuel as [|fuel]; [lia|]. cbn [skip].
  rewrite Ho1, Ho2. replace fuel with (n + S (fuel - n - 1))%nat by lia. rewrite Hv. cbn [skip]. by rewrite Hc1, Hc2, Hc3.
Qed.

Lemma skip_text v rest : json_text v → ends rest → skip (S (length (v ++ rest))) 0 (v ++ rest) = Some rest.
Proof.
  intros Hv He. rewrite length_app. destruct Hv as [s [v Hs]|s Hs|vs H|ms H].
  - specialize (Hs rest). destruct s as [|c s].
    { destruct rest as [|c rest]; [done|]. cbn [app] in *. unfold parse_string in Hs. destruct (Z.eqb_spec c quote) as [->|]; [|done].
      by apply (bool_decide_pack _) in He. }
    cbn [app length Nat.add skip] in *. destruct (Z.eqb_spec c quote) as [->|Hc]; [by rewrite Hs|].
    unfold parse_string in Hs. apply Z.eqb_neq in Hc. by rewrite Hc in Hs.
  - destruct (scalar_bytes s Hs) as [Hne Hb]. destruct s as [|c s]; [done|].
    pose proof Hb as [Hc _]%Forall_cons. unfold scalar_byte in Hc. rewrite !not_elem_of_cons in Hc.
    cbn [app length Nat.add skip]. destruct (Z.eqb_spec c quote); [tauto|].
    rewrite !bool_decide_eq_false_2 by (rewrite !not_elem_of_cons; split_and!; [tauto..|apply not_elem_of_nil]).
    f_equal. by apply (skip_scalar_app (c :: s)).
  - rewrite <-!app_assoc. apply (skip_brackets 91 93); [compute_done..| |rewrite !length_app; cbn [str length]; lia].
    apply passed_commas. eapply Forall_impl; [exact H|]. apply text_passed.
  - rewrite <-!app_assoc. apply (skip_brackets 123 125); [compute_done..| |rewrite !length_app; cbn [str length]; lia].
    apply passed_commas, Forall_fmap. eapply Forall_impl; [exact H|]. intros [k v] [Hk Hv]. cbn [compose fst snd] in *.
    apply passed_app; [by apply passed_string|]. apply passed_app; [apply passed_byte; compute_done|by apply text_passed].
Qed.

#[export] Program Instance lexer_fields : JLexerFields lexer unit.
Next Obligation.
  intros l p r k rest Hl Hu Hp. cbn [Json.UnsafeFieldName lexer_raw].
  destruct (at_string l p r _ _ _ Hl Hu Hp) as (_ & _ & H1 & H2). by split.
Qed.
Next Obligation.
  intros l p r v rest (He & Hpos & Hr) Hu Hv Hrest. cbn [Json.Raw lexer_raw]. subst p. unfold toy_Raw.
  rewrite (upto_token l r _ He Hr Hu). cbn [mbind option_bind]. rewrite skip_text by done. cbn. split; [|done].
  rewrite length_app, Nat.add_sub. apply take_app_length.
Qed.

(** It also keeps to what the loop over the fields needs to end. *)
Lemma skip_shorter fuel : ∀ d l rest, skip fuel d l = Some rest → (length rest <= length l)%nat.
Proof.
  assert (Hs : ∀ l, (length (skip_scalar l) <= length l)%nat) by (induction l as [|c l IH]; cbn; [|destruct (is_end c); cbn]; lia).
  induction fuel as [|fuel IH]; intros d [|c l] rest H; [done..|]. cbn [skip] in H. cbn [length].
  destruct (c =? quote).
  { destruct (parse_string (c :: l)) as [[v k]|] eqn:E; [|done]. apply parse_string_shorter in E. cbn [length] in E.
    destruct d; [injection H as <-; lia|]. apply IH in H. lia. }
  destruct (bool_decide (c ∈ [91; 123])); [apply IH in H; lia|].
  destruct (bool_decide (c ∈ [93; 125])); [destruct d as [|[|d]]; [done|injection H as <-; lia|apply IH in H; lia]|].
  destruct d; [|apply IH in H; lia]. injection H as <-. apply (Hs (c :: l)).
Qed.

Lemma toy_Raw_later (l : lexer) : later l (toy_Raw l).2.
Proof.
  unfold toy_Raw. destruct (token_at l) as [r|] eqn:E; cbn [mbind option_bind]; [|by split; [cbn; lia|intros _; eexists]].
  destruct (skip (S (length r)) 0 r) as [rest|] eqn:Es; cbn [mbind option_bind]; [|by split; [cbn; lia|intros _; eexists]].
  apply skip_shorter in Es. pose proof (token_shorter l r E). split; [cbn; lia|]. intros Her.
  destruct (error_stays l 0 Her) as [Hn _]. by rewrite Hn in E.
Qed.

#[export] Instance lexer_fields_laws : JLexerFieldsLaws lexer unit.
Proof.
  split; intros l.
  - exact (UnsafeBytes_progress (L := lexer) (E := unit) l).
  - split; [apply toy_Raw_later|]. exact (proj2 (proj2 (proj2 (later_ops (L := lexer) (E := unit) 0 l)))).
Qed.
End ToyRaw.

(** ** The loop over the fields ends *)
#[local] Existing Instance later_preorder.

Section total.
Context {M PE L E : Type} `{!Json.DynamicMessages M PE} `{!JLexer L E, !JLexerLaws L E, !Json.JLexerRaw L, !JLexerFieldsLaws L E}.
Context (mu : list Meta → bytes → option (list Meta * option E)) (Hmu : ∀ ms raw, is_Some (mu ms raw)).

Lemma field_total key (f : Json.fields) l : ∃ r l', Json.field (M := M) mu key f l = Some (r, l') ∧ later l l'.
Proof.
  destruct (raw_later l) as [Hraw _]. destruct (later_ops 0 l) as (_ & _ & _ & Hs). unfold Json.field.
  destruct (decide (key = str "tag")); [destruct (UnsafeBytes l); by do 2 eexists|].
  destruct (decide (key = str "call")); [destruct (UnsafeBytes l); destruct (Json.Get _); by do 2 eexists|].
  destruct (decide (key = str "metadata")).
  { destruct (Json.Raw l) as [raw l']. destruct (Hmu (Metadata (Json.fs_data f)) raw) as [[ms [err|]] ->]; by do 2 eexists. }
  destruct (decide (key = str "payload")); [destruct (Json.Raw l); by do 2 eexists|]. by do 2 eexists.
Qed.

Lemma fields_total fuel : ∀ (f : Json.fields) l, enough fuel l → is_Some (Json.fields_loop (M := M) mu fuel f l).
Proof.
  induction fuel as [|fuel IH]; intros f l Hen; [destruct Hen as [[_ ?]|?]; lia|]. cbn [Json.fields_loop].
  destruct (IsDelim 125 l) eqn:Hdel; [done|].
  assert (∀ l', later (Json.UnsafeFieldName l).2 l' → enough fuel l') as Hr.
  { intros l' Hl. eapply enough_later; [|exact Hl]. destruct Hen as [[He _]|Hr].
    { by rewrite (IsDelim_error 125 l He) in Hdel. }
    destruct (name_progress l) as [He|Hp]; [left; split; [done|lia]|right; lia]. }
  destruct (Json.UnsafeFieldName l) as [key l1]. cbn [snd] in Hr.
  destruct (field_total key f (WantColon l1)) as (r & l2 & -> & Hl). cbn [mbind option_bind].
  destruct r as [f'|e]; [|done]. apply IH, Hr. destruct (later_ops 0 l1) as (_ & Hc & _).
  destruct (later_ops 0 l2) as (_ & _ & Hm & _). etrans; [exact Hc|]. by etrans; [exact Hl|].
Qed.
End total.

(** Decoding a JSON record always ends, with a request or an error, whatever bytes
    the record holds and whichever codec its metadata has. *)
Theorem json_unmarshal_terminates {M PE L E} `{!Json.DynamicMessages M PE} `{!JLexer L E, !JLexerLaws L E, !Json.JLexerRaw L, !JLexerFieldsLaws L E} d b :
  is_Some (Json.Unmarshal (M := M) (L := L) multi_UnmarshalAppend d b) ∧
  is_Some (Json.Unmarshal (M := M) (L := L) single_UnmarshalAppend d b).
Proof.
  assert (∀ mu, (∀ ms raw, is_Some (mu ms raw)) → is_Some (Json.Unmarshal (M := M) (L := L) mu d b)) as Ht.
  { intros mu Hmu. unfold Json.Unmarshal.
    destruct (fields_total (M := M) (L := L) mu Hmu (S (S (length b))) (Json.mkFields (Reset d) None []) (Delim 123 (lex_start b))) as [[[f|e] l] ->].
    { right. pose proof (lex_start_remaining b). destruct (op_remaining 123 (lex_start b)) as (? & _). lia. }
    - cbn [mbind option_bind]. destruct (Json.fs_message f); [|done]. destruct (Json.msg_UnmarshalJSON _ _); [|done]. by destruct (Json.msg_MarshalAppend _ _).
    - done. }
  split; apply Ht; intros ms raw; apply (unmarshal_terminates ms raw).
Qed.

(** ** Fields as written *)
Inductive jfield (M : Type) :=
| JTag (v : bytes)
| JCall (v : bytes) (m : M)
| JMeta (raw : bytes) (ms : list Meta)
| JPayload (raw : bytes).
Arguments JTag {M} _.
Arguments JCall {M} _ _.
Arguments JMeta {M} _ _.
Arguments JPayload {M} _.

Definition jf_name {M} (j : jfield M) : bytes :=
  match j with JTag _ => str "tag" | JCall _ _ => str "call" | JMeta _ _ => str "metadata" | JPayload _ => str "payload" end.
Definition jf_value {M} (j : jfield M) : bytes :=
  match j with JTag v | JCall v _ => lit v | JMeta raw _ | JPayload raw => raw end.
Definition jf_text {M} (j : jfield M) : bytes := lit (jf_name j) ++ str ":" ++ jf_value j.
Definition object_text {M} (js : list (jfield M)) : bytes := str "{" ++ commas (jf_text <$> js) ++ str "}".

(** What a field does to the request being read. *)
Definition put {M} (j : jfield M) (f : Json.fields) : Json.fields :=
  let d := Json.fs_data f in
  match j with
  | JTag v => Json.mkFields (mkData (sanitize v) (Method d) (Metadata d) (Message d)) (Json.fs_message f) (Json.fs_payload f)
  | JCall v m => Json.mkFields (mkData (Tag d) (methodFromJSON (sanitize v)) (Metadata d) (Message d)) (Some m) (Json.fs_payload f)
  | JMeta _ ms => Json.mkFields (mkData (Tag d) (Method d) (Metadata d ++ ms) (Message d)) (Json.fs_message f) (Json.fs_payload f)
  | JPayload raw => Json.mkFields d (Json.fs_message f) raw
  end.
Definition puts {M} (js : list (jfield M)) (f : Json.fields) : Json.fields := fold_left (λ f j, put j f) js f.

(** Fields of different names may come in any order. *)
Lemma put_comm {M} (j k : jfield M) f : jf_name j ≠ jf_name k → put j (put k f) = put k (put j f).
Proof. destruct f as [[] ? ?]. by destruct j, k. Qed.

Lemma puts_perm {M} (js ks : list (jfield M)) : js ≡ₚ ks → NoDup (jf_name <$> js) → ∀ f, puts js f = puts ks f.
Proof.
  induction 1 as [|j js ks _ IH|j k js|js ks ls H1 IH1 _ IH2]; intros Hnd f; [done| | |].
  - apply IH. by apply NoDup_cons in Hnd as [_ Hnd].
  - cbn. rewrite put_comm; [done|]. cbn in Hnd. apply NoDup_cons in Hnd as [Hn _]. set_solver.
  - rewrite IH1 by done. apply IH2. by rewrite <-H1.
Qed.

Section reads.
Context {M PE L E : Type} `{!Json.DynamicMessages M PE} `{!JLexer L E, !JLexerReads L E, !Json.JLexerRaw L, !JLexerFields L E}.
Context (mu : list Meta → bytes → option (list Meta * option E)).

Definition jf_ok (j : jfield M) : Prop :=
  match j with
  | JTag v => Forall is_byte v
  | JCall v m => Forall is_byte v ∧ Json.Get (methodFromJSON (sanitize v)) = Some m
  | JMeta raw ms => json_text raw ∧ ∀ buf, mu buf raw = Some (buf ++ ms, None)
  | JPayload raw => json_text raw
  end.

Lemma string_field l v rest : Forall is_byte v → lex_at l AfterValue (str ":" ++ lit v ++ rest) →
  (UnsafeBytes (WantColon l)).1 = sanitize v ∧ lex_at (UnsafeBytes (WantColon l)).2 AfterValue rest.
Proof.
  intros Hv [Hl _]%at_want. by destruct (at_string _ _ _ _ _ _ Hl eq_refl (parse_lit v rest Hv)) as (_ & _ & ?).
Qed.

Lemma raw_field l v rest : json_text v → ends rest → lex_at l AfterValue (str ":" ++ v ++ rest) →
  (Json.Raw (WantColon l)).1 = v ∧ lex_at (Json.Raw (WantColon l)).2 AfterValue rest.
Proof. intros Hv He [Hl _]%at_want. exact (at_raw _ _ _ _ _ Hl eq_refl Hv He). Qed.

Lemma field_reads j f l rest : jf_ok j → ends rest → lex_at l AfterValue (str ":" ++ jf_value j ++ rest) →
  ∃ l', Json.field mu (jf_name j) f (WantColon l) = Some (inl (put j f), l') ∧ lex_at l' AfterValue rest.
Proof.
  intros Hj He Hl. destruct j as [v|v m|raw ms|raw]; cbn [jf_ok jf_value] in *; unfold Json.field; cbn [jf_name].
  - destruct (string_field l v rest Hj Hl) as [H1 H2]. destruct (UnsafeBytes (WantColon l)) as [x l']. cbn [fst snd] in *. subst x.
    rewrite decide_True by done. by eexists.
  - destruct Hj as [Hv Hg]. destruct (string_field l v rest Hv Hl) as [H1 H2]. destruct (UnsafeBytes (WantColon l)) as [x l'].
    cbn [fst snd] in *. subst x. rewrite decide_False, decide_True by done. rewrite Hg. by eexists.
  - destruct Hj as [Ht Hm]. destruct (raw_field l raw rest Ht He Hl) as [H1 H2]. destruct (Json.Raw (WantColon l)) as [x l'].
    cbn [fst snd] in *. subst x. rewrite !decide_False by done. rewrite decide_True by done. rewrite Hm. by eexists.
  - destruct (raw_field l raw rest Hj He Hl) as [H1 H2]. destruct (Json.Raw (WantColon l)) as [x l']. cbn [fst snd] in *. subst x.
    rewrite !decide_False by done. rewrite decide_True by done. by eexists.
Qed.

Lemma name_bytes (j : jfield M) : Forall is_byte (jf_name j) ∧ sanitize (jf_name j) = jf_name j ∧ lit (jf_name j) = quote :: jf_name j ++ [quote].
Proof. destruct j; (split; [by apply (bool_decide_unpack _)|by vm_compute]). Qed.

Lemma ends_listed (js : list (jfield M)) rest : ends (listed (Sep 44) (jf_text <$> js) ++ 125 :: rest).
Proof. destruct js; cbn; compute_done. Qed.

Lemma fields_reads js rest : ∀ fuel f l p, p = Fresh ∨ p = Sep 44 → Forall jf_ok js → (length js < fuel)%nat →
  lex_at l p (listed p (jf_text <$> js) ++ 125 :: rest) →
  ∃ l', Json.fields_loop mu fuel f l = Some (inl (puts js f), l') ∧ lex_at (Delim 125 l') AfterValue rest.
Proof.
  induction js as [|j js IH]; intros [|fuel] f l p Hp Hj Hf Hl; cbn [length] in *; try lia; cbn [Json.fields_loop].
  - rewrite listed_nil in Hl. destruct (at_close 125 l p rest (or_introl eq_refl) Hp Hl) as [-> Hd]. by exists l.
  - apply Forall_cons in Hj as [Hj Hjs]. destruct (name_bytes j) as (Hb & Hs & Hlit).
    pose proof (listed_next p (jf_text j) (jf_text <$> js) (125 :: rest) Hp) as Hu. change (jf_text <$> j :: js) with (jf_text j :: (jf_text <$> js)) in Hl.
    assert (∀ r, jf_text j ++ r = lit (jf_name j) ++ str ":" ++ jf_value j ++ r) as Ht by (intros r; unfold jf_text; by rewrite <-!app_assoc).
    rewrite Ht in Hu. set (more := listed (Sep 44) (jf_text <$> js) ++ 125 :: rest) in *.
    pose proof (parse_lit (jf_name j) (str ":" ++ jf_value j ++ more) Hb) as Hparse. rewrite Hs in Hparse.
    destruct (at_string l p _ _ _ _ Hl Hu Hparse) as (-> & _ & _ & _).
    rewrite Hlit in Hu, Hparse. cbn [app] in Hu, Hparse. rewrite <-app_assoc in Hu, Hparse. cbn [app] in Hu, Hparse.
    destruct (at_name l p _ _ _ Hl Hu Hparse) as [H1 H2].
    destruct (Json.UnsafeFieldName l) as [key l1]. cbn [fst snd] in *. subst key.
    destruct (field_reads j f l1 more Hj (ends_listed js rest) H2) as (l2 & -> & Hl2). cbn [mbind option_bind].
    apply at_want in Hl2 as [_ Hl2]. apply (IH fuel (put j f) (WantComma l2) (Sep 44)); [by right|done|lia|done].
Qed.

(** The object as a whole. *)
Lemma object_length (js : list (jfield M)) : (length js <= length (object_text js))%nat.
Proof.
  unfold object_text. rewrite !length_app. enough (length js <= length (commas (jf_text <$> js)))%nat by lia.
  pose proof (commas_length (jf_text <$> js)) as Hc. rewrite length_fmap in Hc.
  enough (Forall (λ l, (2 <= length l)%nat) (jf_text <$> js)) as Hall by (specialize (Hc Hall); lia).
  apply Forall_fmap, Forall_true. intros j. unfold compose, jf_text. rewrite length_app. pose proof (lit_length (jf_name j)). lia.
Qed.

Lemma unmarshal_object d js : Forall jf_ok js →
  Json.Unmarshal (M := M) (PE := PE) mu d (object_text js) =
    let f := puts js (Json.mkFields (Reset d) None []) in
    Some match Json.fs_message f with
         | None => inr Json.CallRequired
         | Some m =>
             match Json.msg_UnmarshalJSON (Json.fs_payload f) m with
             | inr e => inr (Json.PayloadError e)
             | inl m =>
                 match Json.msg_MarshalAppend (Message (Json.fs_data f)) m with
                 | inr e => inr (Json.PayloadError e)
                 | inl b => let d := Json.fs_data f in inl (mkData (Tag d) (Method d) (Metadata d) b)
                 end
             end
         end.
Proof.
  intros Hj. unfold Json.Unmarshal.
  pose proof (at_open 123 (lex_start (object_text js)) Fresh (object_text js) (commas (jf_text <$> js) ++ 125 :: []) (or_introl eq_refl)
    (at_start _) eq_refl) as Ho.
  destruct (fields_reads js [] (S (S (length (object_text js)))) (Json.mkFields (Reset d) None []) (Delim 123 (lex_start (object_text js))) Fresh ltac:(by left) Hj) as (l' & -> & _).
  - pose proof (object_length js). lia.
  - exact Ho.
  - cbn [mbind option_bind]. cbn zeta. repeat case_match; done.
Qed.
End reads.

(** ** Whole records *)

(** [/package.Service/Call], in ASCII: what [methodFromJSON] makes of a name. *)
Definition canonical (method : bytes) : Prop :=
  ∃ service call, method = slash :: service ++ slash :: call ∧ service ≠ [] ∧ service !! 0%nat ≠ Some slash ∧
    slash ∉ call ∧ dot ∉ call ∧ Forall (λ b, 0 <= b < 128) method.

Lemma canonical_call method : canonical method →
  methodFromJSON (sanitize (methodToJSON method).1) = method ∧ Forall is_byte (methodToJSON method).1.
Proof.
  intros (service & call & -> & H1 & H2 & H3 & H4 & Ha). destruct (method_roundtrip service call H1 H2 H3 H4) as (Hto & Hfrom & _).
  assert (Forall (λ b, 0 <= b < 128) (service ++ dot :: call)) as Hc.
  { apply Forall_cons in Ha as [_ Ha]. apply Forall_app in Ha as [Hs Hr]. apply Forall_app. split; [done|].
    apply Forall_cons in Hr as [_ Hr]. apply Forall_cons. by split. }
  rewrite Hto in *. rewrite (sanitize_ascii _ Hc). split; [done|]. eapply Forall_impl; [exact Hc|]. unfold is_byte. lia.
Qed.

(** The protobuf library takes the message of [d] to the JSON text [body] and back,
    to the message [wire]. *)
Definition converts {M PE} `{!Json.DynamicMessages M PE} (d : Data) (m : M) (body wire : bytes) : Prop :=
  Json.Get (Method d) = Some m ∧ json_text body ∧ newline ∉ body ∧
  ∃ m', Json.msg_Unmarshal (Message d) m = inl m' ∧ Json.msg_MarshalJSON m' = inl body ∧
    Json.msg_UnmarshalJSON body m = inl m' ∧ Json.msg_MarshalAppend [] m' = inl wire.

Section records.
Context {M PE L E : Type} `{!Json.DynamicMessages M PE} `{!JLexer L E, !JLexerReads L E, !Json.JLexerRaw L, !JLexerFields L E}.

Definition record_fields (d : Data) (m : M) (raw : bytes) (ms : list Meta) (body : bytes) : list (jfield M) :=
  [JTag (Tag d); JCall (methodToJSON (Method d)).1 m; JMeta raw (clean <$> ms); JPayload body].

(** The encoder's record has these fields. *)
Lemma json_record_object d m ms body :
  json_record d ms body = object_text (record_fields d m (json_groups (group ms)) ms body).
Proof.
  unfold object_text, record_fields. cbn [fmap list_fmap commas]. unfold json_record, jf_text. cbn [jf_name jf_value].
  by rewrite <-!app_assoc.
Qed.

(** A permutation of the fields is read as the request. *)
Lemma unmarshal_record mu d0 d m raw ms body wire js : Forall is_byte (Tag d) → canonical (Method d) → converts d m body wire →
  json_text raw → (∀ buf, mu buf raw = Some (buf ++ (clean <$> ms), None)) → js ≡ₚ record_fields d m raw ms body →
  Json.Unmarshal (M := M) (PE := PE) mu d0 (object_text js) =
    Some (inl (mkData (sanitize (Tag d)) (Method d) (clean <$> ms) wire)).
Proof.
  intros Ht [Hm Hmb]%canonical_call (Hg & Hb & _ & m' & _ & _ & Hu & Hw) Hraw Hmu Hp.
  assert (Forall (jf_ok mu) (record_fields d m raw ms body)) as Hok.
  { repeat (apply Forall_cons; split); cbn [jf_ok]; try done. split; [done|]. by rewrite Hm. }
  rewrite unmarshal_object by (by rewrite Hp). rewrite (puts_perm js _ Hp).
  - unfold record_fields. cbn. by rewrite Hm, Hu, Hw.
  - rewrite Hp. unfold record_fields. cbn. apply (bool_decide_unpack _). by vm_compute.
Qed.
End records.

(** The fields of a record may come in any order, in the format of framer and in
    that of pandora, whose metadata is one object of strings: the request read is
    the same. *)
Theorem json_fields_any_order {M PE L E} `{!Json.DynamicMessages M PE} `{!JLexer L E, !JLexerReads L E, !Json.JLexerRaw L, !JLexerFields L E}
    d0 d (m : M) body wire js ks :
  Forall is_byte (Tag d) → Forall meta_bytes (Metadata d) → canonical (Method d) → converts d m body wire →
  js ≡ₚ record_fields d m (json_groups (group (Metadata d))) (Metadata d) body →
  ks ≡ₚ record_fields d m (json_fields (Metadata d)) (Metadata d) body →
  let read := Some (inl (mkData (sanitize (Tag d)) (Method d) (clean <$> Metadata d) wire)) in
  Json.Unmarshal (M := M) (L := L) multi_UnmarshalAppend d0 (object_text js) = read ∧
  Json.Unmarshal (M := M) (L := L) single_UnmarshalAppend d0 (object_text ks) = read.
Proof.
  intros Ht Hms Hm Hc Hj Hk. split; eapply unmarshal_record; try done.
  - by apply groups_text, group_groups_ok.
  - intros buf. by apply multi_unmarshal_groups.
  - by apply fields_text.
  - intros buf. by apply single_unmarshal_fields.
Qed.

Lemma json_record_line {M PE} `{!Json.DynamicMessages M PE} d (m : M) ms body wire : Forall is_byte (Tag d) → canonical (Method d) →
  Forall meta_bytes ms → converts d m body wire → newline ∉ json_record d ms body.
Proof.
  intros Ht [_ Hm]%canonical_call Hms (_ & _ & Hb & _).
  assert (∀ l, Forall safe l → newline ∉ l) as Hsafe.
  { intros l Hl Hin. rewrite list.Forall_forall in Hl. destruct (Hl _ Hin) as [Hlt _]. by unfold newline in Hlt. }
  unfold json_record. rewrite !not_elem_of_app. split_and!; try done; try (by apply Hsafe, str_safe); try (by apply Hsafe, lit_safe).
  - apply Hsafe, lit_safe. by apply (bool_decide_unpack _).
  - apply Hsafe, lit_safe. by apply (bool_decide_unpack _).
  - apply Hsafe, lit_safe. by apply (bool_decide_unpack _).
  - by apply json_groups_line.
  - apply Hsafe, lit_safe. by apply (bool_decide_unpack _).
Qed.

(** C20: A request written as a JSON record is read back: the same method, the tag and
    the metadata up to bytes that are not UTF-8, the metadata sorted by name, and
    the message as the protobuf library re-encodes it.  The record is one line. *)
Theorem json_record_roundtrip {M PE L E} `{!Json.DynamicMessages M PE} `{!JLexer L E, !JLexerReads L E, !Json.JLexerRaw L, !JLexerFields L E}
    sort `{!Sorter sort} d0 d (m : M) body wire :
  Forall is_byte (Tag d) → Forall meta_bytes (Metadata d) → canonical (Method d) → converts d m body wire →
  ∃ record d', Json.MarshalAppend E sort [] d = Some ((record, None), d') ∧ newline ∉ record ∧
    Metadata d' ≡ₚ Metadata d ∧ Sorted name_le (Metadata d') ∧
    Json.Unmarshal (M := M) (L := L) multi_UnmarshalAppend d0 record =
      Some (inl (mkData (sanitize (Tag d)) (Method d) (clean <$> Metadata d') wire)).
Proof.
  intros Ht Hms Hm Hc. destruct (Hc) as (Hg & _ & _ & m' & Hu & Hj & _).
  assert (Forall meta_bytes (sort (Metadata d))) as Hs by (by rewrite sort_perm).
  do 2 eexists. split; [by eapply json_marshal_text|]. cbn [Metadata]. split_and!.
  - by eapply json_record_line.
  - apply sort_perm.
  - apply sort_sorted.
  - rewrite (json_record_object _ m). eapply unmarshal_record; try done; [by apply groups_text, group_groups_ok|].
    intros buf. by apply multi_unmarshal_groups.
Qed.

(** ** A concrete message library: a message is one string *)
Module ToyProto.
Definition call : bytes := str "/pkg.Service/Call".
Definition to_json (m : bytes) : bytes := str "{" ++ commas ((λ m, m.1 ++ str ":" ++ m.2) <$> [(lit (str "v"), lit m)]) ++ str "}".

#[export] Instance messages : Json.DynamicMessages bytes unit := {|
  Json.Get method := if decide (method = call) then Some [] else None;
  Json.msg_Unmarshal b _ := inl b;
  Json.msg_MarshalJSON m := inl (to_json m);
  Json.msg_UnmarshalJSON body _ := match parse_string (drop 5 body) with Some (v, [125]) => inl v | _ => inr tt end;
  Json.msg_MarshalAppend b m := inl (b ++ m)
|}.

Definition example : Data :=
  mkData (str "/tag") call [mkMeta (str "b") (str "x"); mkMeta (str "a") [10; 34]] (str "hello" ++ [0; 10; 34]).
Definition example_body : bytes := to_json (Message example).

Lemma example_converts : converts (M := bytes) (PE := unit) example [] example_body (Message example).
Proof.
  split_and!; [done| |apply (bool_decide_unpack _); by vm_compute|by exists (Message example)].
  apply jt_object, Forall_singleton. cbn [fst snd]. split; [|apply jt_string]; apply lit_string; by apply (bool_decide_unpack _).
Qed.

Lemma example_canonical : canonical (Method example).
Proof.
  exists (str "pkg.Service"), (str "Call"). split_and!; try done; apply (bool_decide_unpack _); by vm_compute.
Qed.
End ToyProto.

Import Toy ToyRaw ToyProto.

Theorem json_record_roundtrip_witness :
  ∃ record d', Json.MarshalAppend (M := bytes) (PE := unit) unit (merge_sort name_le) [] example = Some ((record, None), d') ∧
    newline ∉ record ∧ Metadata d' ≡ₚ Metadata example ∧ Sorted name_le (Metadata d') ∧
    Json.Unmarshal (M := bytes) (PE := unit) (L := lexer) multi_UnmarshalAppend (mkData [1] [2] [] [3]) record =
      Some (inl (mkData (sanitize (Tag example)) (Method example) (clean <$> Metadata d') (Message example))).
Proof.
  apply (json_record_roundtrip (L := lexer) (merge_sort name_le) _ example [] example_body).
  - apply (bool_decide_unpack _). by vm_compute.
  - repeat (apply Forall_cons; split; [split; by apply (bool_decide_unpack _)|]). by apply Forall_nil_2.
  - apply example_canonical.
  - apply example_converts.
Defined.

(** The fields of [example] in another order. *)
Definition example_shuffled : bytes :=
  object_text (reverse (record_fields (M := bytes) example [] (json_groups (group (Metadata example))) (Metadata example) example_body)).
Definition example_pandora : bytes :=
  object_text (record_fields (M := bytes) example [] (json_fields (Metadata example)) (Metadata example) example_body).

Theorem json_fields_any_order_witness :
  let read := Some (inl (mkData (sanitize (Tag example)) (Method example) (clean <$> Metadata example) (Message example))) in
  Json.Unmarshal (M := bytes) (PE := unit) (L := lexer) multi_UnmarshalAppend (mkData [] [] [] []) example_shuffled = read ∧
  Json.Unmarshal (M := bytes) (PE := unit) (L := lexer) single_UnmarshalAppend (mkData [] [] [] []) example_pandora = read.
Proof.
  apply (json_fields_any_order (L := lexer) _ example [] example_body).
  - apply (bool_decide_unpack _). by vm_compute.
  - repeat (apply Forall_cons; split; [split; by apply (bool_decide_unpack _)|]). by apply Forall_nil_2.
  - apply example_canonical.
  - apply example_converts.
  - apply reverse_Permutation.
  - reflexivity.
Defined.

(** Evaluated as well. *)
Example shuffled_is_read : Json.Unmarshal (M := bytes) (PE := unit) (L := lexer) multi_UnmarshalAppend (mkData [] [] [] []) example_shuffled =
  Some (inl (mkData (Tag example) (Method example) (Metadata example) (Message example))).
Proof. vm_compute. reflexivity. Qed.

(** ** The name is edited where it lies

    [methodFromJSON] is given a slice of the record, [buf[i:j]], whose array goes
    on: [append] then writes at [j] instead of allocating, and [copy] moves the name
    up by one.  The array afterwards, and the slice returned. *)
Definition append_in_place (buf : bytes) (i j : nat) : bytes :=
  let buf := <[j := 0]> buf in
  let buf := take (S i) buf ++ take (j - i) (drop i buf) ++ drop (S j) buf in
  <[i := slash]> buf.
Definition append_copied (method : bytes) : bytes :=
  let method := method ++ [0] in
  let method := take 1 method ++ take (length method - 1) method in
  <[0%nat := slash]> method.
Definition methodFromJSON_at (buf : bytes) (i j : nat) : bytes * bytes :=
  let method := take (j - i) (drop i buf) in
  match method with
  | [] => (buf, method)
  | c :: _ =>
      if c =? slash then (buf, method)
      else
        let buf := match last_index dot method with Some ind => <[(i + ind)%nat := slash]> buf | None => buf end in
        if (j <? length buf)%nat then
          let buf := append_in_place buf i j in (buf, take (S (j - i)) (drop i buf))
        else (buf, append_copied (take (j - i) (drop i buf)))
  end.

Lemma last_index_lt c l k : last_index c l = Some k → (k < length l)%nat.
Proof.
  revert k. induction l as [|b l IH]; intros k H; [done|]. cbn in *. destruct (last_index c l) as [k'|].
  - injection H as <-. specialize (IH k' eq_refl). lia.
  - destruct (b =? c); [injection H as <-; lia|done].
Qed.

Lemma replace_last_length c c' l : length (replace_last c c' l) = length l.
Proof. unfold replace_last. destruct (last_index c l); [by rewrite length_insert|done]. Qed.

Lemma append_in_place_spec p r x q : r ≠ [] →
  append_in_place (p ++ r ++ x :: q) (length p) (length p + length r) = p ++ slash :: r ++ q.
Proof.
  intros Hr. unfold append_in_place. replace (length p + length r - length p)%nat with (length r) by lia.
  assert (<[(length p + length r)%nat := 0]> (p ++ r ++ x :: q) = p ++ r ++ 0 :: q) as ->.
  { rewrite insert_app_r. f_equal. rewrite <-(Nat.add_0_r (length r)), insert_app_r. done. }
  rewrite drop_app_length, take_app_length.
  assert (drop (S (length p + length r)) (p ++ r ++ 0 :: q) = q) as ->.
  { change (0 :: q) with ([0] ++ q). rewrite !app_assoc. apply drop_app_length'. rewrite !length_app. cbn. lia. }
  destruct r as [|y r]; [done|].
  assert (take (S (length p)) (p ++ (y :: r) ++ 0 :: q) = p ++ [y]) as ->.
  { change (p ++ (y :: r) ++ 0 :: q) with (p ++ [y] ++ r ++ 0 :: q). rewrite app_assoc. apply take_app_length'. rewrite length_app. cbn. lia. }
  rewrite <-app_assoc. rewrite <-(Nat.add_0_r (length p)), insert_app_r. done.
Qed.

Lemma append_copied_spec r : r ≠ [] → append_copied r = slash :: r.
Proof.
  intros Hr. unfold append_copied. rewrite length_app, Nat.add_sub, take_app_length. by destruct r as [|y r].
Qed.

(** The array seen as what comes before the name, the name and what follows. *)
Lemma methodFromJSON_split p name q : 
  methodFromJSON_at (p ++ name ++ q) (length p) (length p + length name) =
    let m := methodFromJSON name in
    if decide (m = name) then (p ++ name ++ q, m)
    else match q with [] => (p ++ replace_last dot slash name, m) | _ :: q => (p ++ m ++ q, m) end.
Proof.
  unfold methodFromJSON_at. rewrite drop_app_length. replace (length p + length name - length p)%nat with (length name) by lia.
  rewrite take_app_length. destruct name as [|c name]; [done|]. cbn [methodFromJSON]. destruct (c =? slash) eqn:Hc.
  { cbn zeta. by rewrite decide_True. }
  set (n := c :: name) in *. cbn zeta. rewrite decide_False; [|intros H; apply (f_equal length) in H; cbn [length] in H; rewrite replace_last_length in H; lia].
  assert (match last_index dot n with Some ind => <[(length p + ind)%nat := slash]> (p ++ n ++ q) | None => p ++ n ++ q end =
    p ++ replace_last dot slash n ++ q) as ->.
  { unfold replace_last. destruct (last_index dot n) as [k|] eqn:E; [|done]. rewrite insert_app_r. f_equal.
    apply insert_app_l. by eapply last_index_lt. }
  rewrite <-(replace_last_length dot slash n). set (r := replace_last dot slash n).
  assert (r ≠ []) as Hr by (intros H; pose proof (replace_last_length dot slash n) as Hl; fold r in Hl; by rewrite H in Hl).
  destruct q as [|x q].
  - rewrite app_nil_r, length_app, Nat.ltb_irrefl, drop_app_length, take_ge by done. by rewrite append_copied_spec.
  - assert ((length p + length r <? length (p ++ r ++ x :: q))%nat = true) as -> by (apply Nat.ltb_lt; rewrite !length_app; cbn; lia).
    rewrite append_in_place_spec, drop_app_length by done. f_equal. by apply (take_app_length' (slash :: r)).
Qed.

(** Of the record only the name and the closing quote after it are overwritten,
    and the slice returned holds the canonical name. *)
Theorem method_edited_in_place p name q :
  let '(buf, method) := methodFromJSON_at (p ++ quote :: name ++ quote :: q) (length p + 1) (length p + 1 + length name) in
  method = methodFromJSON name ∧ length buf = length (p ++ quote :: name ++ quote :: q) ∧
  take (length p + 1) buf = p ++ [quote] ∧ drop (length p + 1 + length name + 1) buf = q.
Proof.
  pose proof (methodFromJSON_split (p ++ [quote]) name (quote :: q)) as H. rewrite length_app in H. cbn [length] in H.
  rewrite <-app_assoc in H. cbn [app] in H. rewrite H. cbn zeta.
  assert (∀ m, (length m = length name + 1)%nat → take (length p + 1) (p ++ quote :: m ++ q) = p ++ [quote] ∧
    drop (length p + 1 + length name + 1) (p ++ quote :: m ++ q) = q) as Hcut.
  { intros m Hm. change (quote :: m ++ q) with ([quote] ++ m ++ q). rewrite app_assoc. split.
    - apply take_app_length'. by rewrite length_app.
    - rewrite app_assoc. apply drop_app_length'. rewrite !length_app, Hm. cbn. lia. }
  case_decide as Hd.
  - rewrite Hd. split; [done|]. split; [done|]. change (name ++ quote :: q) with (name ++ [quote] ++ q). rewrite (app_assoc name). apply Hcut. by rewrite length_app.
  - assert (length (methodFromJSON name) = length name + 1)%nat as Hl.
    { destruct name as [|c n]; [done|]. cbn [methodFromJSON] in *. destruct (c =? slash); [done|]. cbn [length]. rewrite replace_last_length. cbn. lia. }
    rewrite <-app_assoc. cbn [app]. split; [done|]. split; [|by apply Hcut]. rewrite !length_app. cbn [length]. rewrite !length_app, Hl. cbn. lia.
Qed.
