(* ===== verification/Reflection.v ===== *)
(** * Reflection: the messages of the methods

    Models src/formats/grpc/ozon/json/encoding/reflection: [store.go], the messages
    of every method by its name, each with a pool, and [reflector.go], where the
    methods come from.  Descriptors, their parser and the reflection client are
    third-party code: parameters. *)
From S2P Require Import Prelude Formats.

#[local] Open Scope Z_scope.

(** [NormalizeMethod]: [package.Service.Call] becomes [/package.Service/Call]. *)
Definition NormalizeMethod (method : bytes) : bytes :=
  match method with
  | [] => method
  | c :: _ => if c =? slash then method else slash :: replace_last dot slash method
  end.

(** ** The store *)
Section store.
Context {MD : Type} (fqn : MD → bytes).

(** A [sync.Pool] per name, with the descriptor its [New] captured; messages are
    indices into [made], the descriptor each was made from. *)
Record dynamicMessagesStore := mkStore { items : gmap bytes (MD * list nat); made : list MD }.

Definition NewDynamicMessagesStore (descriptors : list MD) : dynamicMessagesStore :=
  mkStore (fold_left (λ items d, <[NormalizeMethod (fqn d) := (d, [])]> items) descriptors ∅) [].

(** [Get]: [sync.Pool] returns any message it holds, here the one at [pick], or a
    new one. *)
Definition Get (pick : nat) (methodName : bytes) (s : dynamicMessagesStore) : option nat * dynamicMessagesStore :=
  match items s !! methodName with
  | None => (None, s)
  | Some (d, free) =>
      match free !! pick with
      | Some m => (Some m, mkStore (<[methodName := (d, delete pick free)]> (items s)) (made s))
      | None => (Some (length (made s)), mkStore (items s) (made s ++ [d]))
      end
  end.

(** The function returned with a message. *)
Definition release (methodName : bytes) (m : nat) (s : dynamicMessagesStore) : dynamicMessagesStore :=
  match items s !! methodName with
  | None => s
  | Some (d, free) => mkStore (<[methodName := (d, m :: free)]> (items s)) (made s)
  end.

(** The runtime may drop what a [sync.Pool] holds. *)
Definition collect (methodName : bytes) (s : dynamicMessagesStore) : dynamicMessagesStore :=
  mkStore (alter (λ p, (p.1, [])) methodName (items s)) (made s).

Inductive store_op := OGet (name : bytes) (pick : nat) | ORelease (name : bytes) (m : nat) | OCollect (name : bytes).

(** A run, with the messages in use and the name each was got for; [None] when a
    message is released that is not in use under that name. *)
Fixpoint store_run (os : list store_op) (s : dynamicMessagesStore) (used : gmap nat bytes) : option (dynamicMessagesStore * gmap nat bytes) :=
  match os with
  | [] => Some (s, used)
  | OGet name pick :: os =>
      let '(m, s) := Get pick name s in
      store_run os s (match m with Some m => <[m := name]> used | None => used end)
  | ORelease name m :: os =>
      if decide (used !! m = Some name) then store_run os (release name m s) (delete m used) else None
  | OCollect name :: os => store_run os (collect name s) used
  end.

(** *** Which descriptor a name has *)
Definition last_named (name : bytes) (ds : list MD) : option MD :=
  last (filter (λ d, NormalizeMethod (fqn d) = name) ds).

Lemma items_new ds name : items (NewDynamicMessagesStore ds) !! name = (λ d, (d, [])) <$> last_named name ds.
Proof.
  unfold NewDynamicMessagesStore, last_named. cbn [items]. induction ds as [|d ds IH] using rev_ind; [cbn; by rewrite lookup_empty|].
  rewrite fold_left_app, filter_app. cbn [fold_left]. destruct (decide (NormalizeMethod (fqn d) = name)) as [<-|Hne].
  - rewrite lookup_insert_eq, filter_cons_True by done. cbn. by rewrite last_snoc.
  - rewrite lookup_insert_ne by done. rewrite filter_cons_False by done. cbn. by rewrite app_nil_r.
Qed.

(** *** Messages are used by one caller at a time *)
Record store_ok (s : dynamicMessagesStore) (used : gmap nat bytes) : Prop := {
  ok_nodup name d free : items s !! name = Some (d, free) → NoDup free;
  ok_free name d free m : items s !! name = Some (d, free) → m ∈ free → made s !! m = Some d ∧ used !! m = None;
  ok_one n1 d1 f1 n2 d2 f2 m : items s !! n1 = Some (d1, f1) → items s !! n2 = Some (d2, f2) → m ∈ f1 → m ∈ f2 → n1 = n2;
  ok_used m name : used !! m = Some name → ∃ d free, items s !! name = Some (d, free) ∧ made s !! m = Some d
}.

Lemma new_ok ds : store_ok (NewDynamicMessagesStore ds) ∅.
Proof.
  assert (∀ name d free, items (NewDynamicMessagesStore ds) !! name = Some (d, free) → free = []) as Hf.
  { intros name d free. rewrite items_new. destruct (last_named name ds); cbn; by intros [= _ <-]. }
  split.
  - intros name d free ->%Hf. constructor.
  - intros name d free m ->%Hf ?%elem_of_nil. done.
  - intros n1 d1 f1 n2 d2 f2 m ->%Hf _ ?%elem_of_nil. done.
  - intros m name. by rewrite lookup_empty.
Qed.

(** The pool of one name shrinks to part of what it was. *)
Lemma shrink_ok s used name d free free' : store_ok s used → items s !! name = Some (d, free) → NoDup free' → free' ⊆ free →
  store_ok (mkStore (<[name := (d, free')]> (items s)) (made s)) used.
Proof.
  intros [Hn Hf Ho Hu] Hi Hnd Hsub. 
  assert (∀ n d' f', <[name := (d, free')]> (items s) !! n = Some (d', f') →
    ∃ f, items s !! n = Some (d', f) ∧ f' ⊆ f ∧ NoDup f') as Hold.
  { intros n d' f' H. destruct (decide (name = n)) as [<-|]; [rewrite lookup_insert_eq in H; injection H as <- <-; by exists free|].
    rewrite lookup_insert_ne in H by done. exists f'. split; [done|]. split; [done|by eapply Hn]. }
  split; cbn [items made].
  - intros n d' f' (f & _ & _ & H)%Hold. done.
  - intros n d' f' m (f & H & Hs & _)%Hold Hm. eapply Hf; [exact H|by apply Hs].
  - intros n1 d1 f1 n2 d2 f2 m (g1 & H1 & Hs1 & _)%Hold (g2 & H2 & Hs2 & _)%Hold Hm1 Hm2.
    eapply Ho; [exact H1|exact H2|by apply Hs1|by apply Hs2].
  - intros m n (d' & f' & H & Hm)%Hu. destruct (decide (name = n)) as [<-|].
    + exists d, free'. rewrite lookup_insert_eq. split; [done|]. rewrite Hi in H. by injection H as <- <-.
    + exists d', f'. by rewrite lookup_insert_ne.
Qed.

Lemma use_ok s used name d free m : store_ok s used → items s !! name = Some (d, free) → made s !! m = Some d →
  (∀ n d f, items s !! n = Some (d, f) → m ∉ f) → store_ok s (<[m := name]> used).
Proof.
  intros [Hn Hf Ho Hu] Hi Hm Hfree. split; [done| |done|].
  - intros n d' f m' Hn' Hin. destruct (Hf _ _ _ _ Hn' Hin) as [? ?]. split; [done|].
    rewrite lookup_insert_ne; [done|]. intros <-. by eapply Hfree.
  - intros m' n H. destruct (decide (m = m')) as [<-|]; [rewrite lookup_insert_eq in H; injection H as <-; by exists d, free|].
    rewrite lookup_insert_ne in H by done. by apply Hu.
Qed.

Lemma Get_ok pick name s used m s' : store_ok s used → Get pick name s = (Some m, s') →
  used !! m = None ∧ store_ok s' (<[m := name]> used) ∧
  ∃ d free, items s !! name = Some (d, free) ∧ made s' !! m = Some d.
Proof.
  intros Hok. pose proof Hok as [Hn Hf Ho Hu]. unfold Get. destruct (items s !! name) as [[d free]|] eqn:Hi; [|done].
  destruct (free !! pick) as [x|] eqn:Hp; intros [= <- <-].
  - pose proof (list_elem_of_lookup_2 _ _ _ Hp) as Hin. destruct (Hf _ _ _ _ Hi Hin) as [Hm Hnu].
    pose proof (Hn _ _ _ Hi) as Hnd. rewrite <-(take_drop_middle _ _ _ Hp) in Hnd.
    apply NoDup_app in Hnd as (Hnd1 & Hx & Hnd2). apply NoDup_cons in Hnd2 as [Hx2 Hnd2].
    assert (x ∉ delete pick free) as Hout.
    { rewrite delete_take_drop. intros [H|H]%elem_of_app; [|done]. apply (Hx x H). by left. }
    assert (store_ok (mkStore (<[name:=(d, delete pick free)]> (items s)) (made s)) used) as Hok'.
    { eapply shrink_ok; [done..| |].
      - rewrite delete_take_drop. apply NoDup_app. split; [done|]. split; [|done]. intros y Hy Hy2. apply (Hx y Hy). by right.
      - intros y. rewrite delete_take_drop. intros [H|H]%elem_of_app;
          [by eapply elem_of_take in H as (? & ? & _); eapply list_elem_of_lookup_2|].
        rewrite <-(take_drop_middle _ _ _ Hp). apply elem_of_app. right. by right. }
    split; [done|]. split; [|by exists d, free]. eapply (use_ok _ _ _ d (delete pick free)); [done|by cbn [items]; rewrite lookup_insert_eq|done|].
    cbn [items]. intros n d' f H. destruct (decide (name = n)) as [<-|Hne]; [rewrite lookup_insert_eq in H; by injection H as <- <-|].
    rewrite lookup_insert_ne in H by done. intros Hx3. apply Hne. by eapply (Ho name _ _ n).
  - assert (∀ n d f, items s !! n = Some (d, f) → length (made s) ∉ f) as Hfresh.
    { intros n d' f H Hin. destruct (Hf _ _ _ _ H Hin) as [Hm _]. apply lookup_lt_Some in Hm. lia. }
    assert (used !! length (made s) = None) as Hnu.
    { destruct (used !! length (made s)) eqn:E; [|done]. destruct (Hu _ _ E) as (? & ? & _ & Hm). apply lookup_lt_Some in Hm. lia. }
    split; [done|]. split; [|exists d, free; split; [done|cbn [made]; by rewrite list_lookup_middle]].
    eapply (use_ok _ _ _ d free); [|done|cbn [made]; by rewrite list_lookup_middle|done].
    split; cbn [items made]; [done| |done|].
    + intros n d' f m H Hin. destruct (Hf _ _ _ _ H Hin) as [Hm ?]. split; [|done]. by apply lookup_app_l_Some.
    + intros m n (d' & f & ? & Hm)%Hu. exists d', f. split; [done|]. by apply lookup_app_l_Some.
Qed.

Lemma release_message_ok name m s used : store_ok s used → used !! m = Some name → store_ok (release name m s) (delete m used).
Proof.
  intros [Hn Hf Ho Hu] Hm. destruct (Hu _ _ Hm) as (d & free & Hi & Hmade). unfold release. rewrite Hi.
  assert (∀ n d' f, items s !! n = Some (d', f) → m ∉ f) as Hnot.
  { intros n d' f H Hin. destruct (Hf _ _ _ _ H Hin) as [_ H']. by rewrite H' in Hm. }
  assert (∀ n d' f, <[name := (d, m :: free)]> (items s) !! n = Some (d', f) →
    (n = name ∧ d' = d ∧ f = m :: free) ∨ (n ≠ name ∧ items s !! n = Some (d', f))) as Hcase.
  { intros n d' f H. destruct (decide (name = n)) as [<-|]; [rewrite lookup_insert_eq in H; injection H as <- <-; by left|].
    rewrite lookup_insert_ne in H by done. by right. }
  split; cbn [items made].
  - intros n d' f [(-> & -> & ->)|[_ H]]%Hcase; [|by eapply Hn]. apply NoDup_cons. split; [by eapply Hnot|by eapply Hn].
  - intros n d' f x H Hin. destruct (decide (x = m)) as [->|Hx].
    { split; [|by apply lookup_delete_eq]. apply Hcase in H as [(-> & -> & ->)|[_ H]]; [done|]. by destruct (Hnot _ _ _ H). }
    rewrite lookup_delete_ne by done. apply Hcase in H as [(-> & -> & ->)|[_ H]]; [|by eapply Hf].
    apply elem_of_cons in Hin as [->|Hin]; [done|by eapply Hf].
  - intros n1 d1 f1 n2 d2 f2 x H1 H2 Hx1 Hx2.
    apply Hcase in H1 as [(-> & -> & ->)|[Hn1 H1]], H2 as [(-> & -> & ->)|[Hn2 H2]]; [done| | |by eapply (Ho n1)].
    + apply elem_of_cons in Hx1 as [->|Hx1]; [by destruct (Hnot _ _ _ H2)|]. symmetry. by eapply (Ho n2).
    + apply elem_of_cons in Hx2 as [->|Hx2]; [by destruct (Hnot _ _ _ H1)|]. by eapply (Ho n1).
  - intros x n H. apply lookup_delete_Some in H as [_ H]. destruct (Hu _ _ H) as (d' & f & Hi' & Hx).
    destruct (decide (name = n)) as [<-|Hne]; [|exists d', f; by rewrite lookup_insert_ne].
    exists d, (m :: free). rewrite lookup_insert_eq. split; [done|]. rewrite Hi in Hi'. by injection Hi' as -> ->.
Qed.

Lemma collect_ok name s used : store_ok s used → store_ok (collect name s) used.
Proof.
  intros Hok. unfold collect. destruct (items s !! name) as [[d free]|] eqn:Hi.
  - replace (alter _ name (items s)) with (<[name := (d, @nil nat)]> (items s)); [apply (shrink_ok _ _ _ _ free); [done..|apply NoDup_nil_2|set_solver]|].
    apply map_eq. intros n. destruct (decide (name = n)) as [<-|]; [by rewrite lookup_insert_eq, lookup_alter_eq, Hi|].
    by rewrite lookup_insert_ne, lookup_alter_ne.
  - assert (alter (λ p, (p.1, [])) name (items s) = items s) as ->; [|by destruct s].
    apply map_eq. intros n. destruct (decide (name = n)) as [<-|]; [by rewrite lookup_alter_eq, Hi|by rewrite lookup_alter_ne].
Qed.

(** The descriptors of the names never change. *)
Definition descriptor_of (name : bytes) (s : dynamicMessagesStore) : option MD := fst <$> items s !! name.

Lemma Get_descriptor pick name n s : descriptor_of n (Get pick name s).2 = descriptor_of n s.
Proof.
  unfold Get, descriptor_of. destruct (items s !! name) as [[d free]|] eqn:Hi; [|done]. destruct (free !! pick); [|done].
  cbn. destruct (decide (name = n)) as [<-|]; [by rewrite lookup_insert_eq, Hi|by rewrite lookup_insert_ne].
Qed.

Lemma release_descriptor name m n s : descriptor_of n (release name m s) = descriptor_of n s.
Proof.
  unfold release, descriptor_of. destruct (items s !! name) as [[d free]|] eqn:Hi; [|done].
  cbn. destruct (decide (name = n)) as [<-|]; [by rewrite lookup_insert_eq, Hi|by rewrite lookup_insert_ne].
Qed.

Lemma collect_descriptor name n s : descriptor_of n (collect name s) = descriptor_of n s.
Proof.
  unfold collect, descriptor_of. cbn. destruct (decide (name = n)) as [<-|]; [|by rewrite lookup_alter_ne].
  rewrite lookup_alter_eq. by destruct (items s !! name) as [[]|].
Qed.

Lemma store_run_ok os : ∀ s used s' used', store_ok s used → store_run os s used = Some (s', used') →
  store_ok s' used' ∧ ∀ n, descriptor_of n s' = descriptor_of n s.
Proof.
  induction os as [|[name pick|name m|name] os IH]; intros s used s' used' Hok H; cbn [store_run] in H.
  - by injection H as <- <-.
  - pose proof (λ n, Get_descriptor pick name n s) as Hd. destruct (Get pick name s) as [[m|] s1] eqn:Hg.
    + destruct (Get_ok pick name s used m s1 Hok Hg) as (_ & Hok1 & _). destruct (IH _ _ _ _ Hok1 H) as [H1 H2].
      split; [done|]. intros n. by rewrite H2, <-Hd.
    + assert (s1 = s) as ->. { unfold Get in Hg. repeat case_match; by simplify_eq. } by apply (IH s used).
  - destruct (decide _); [|done]. destruct (IH _ _ _ _ (release_message_ok name m s used Hok ltac:(done)) H) as [H1 H2].
    split; [done|]. intros n. by rewrite H2, release_descriptor.
  - destruct (IH _ _ _ _ (collect_ok name s used Hok) H) as [H1 H2]. split; [done|]. intros n. by rewrite H2, collect_descriptor.
Qed.
End store.

(** C23: However often messages are fetched and released, and whatever the runtime drops
    from the pools: the message handed out for a method is in nobody else's hands,
    and was made for the method's own type, that of the last descriptor with that
    name; a name without a descriptor has no message. *)
Theorem messages_exclusive {MD} (fqn : MD → bytes) ds os s used name pick :
  store_run os (NewDynamicMessagesStore fqn ds) ∅ = Some (s, used) →
  match Get pick name s with
  | (Some m, s') => used !! m = None ∧ made s' !! m = last_named fqn name ds
  | (None, s') => last_named fqn name ds = None ∧ s' = s
  end.
Proof.
  intros H. destruct (store_run_ok os _ _ _ _ (new_ok fqn ds) H) as [Hok Hd]. specialize (Hd name).
  unfold descriptor_of in Hd. rewrite items_new in Hd. destruct (Get pick name s) as [[m|] s'] eqn:Hg.
  - destruct (Get_ok pick name s used m s' Hok Hg) as (Hu & _ & d & free & Hi & Hm). split; [done|]. rewrite Hm.
    rewrite Hi in Hd. cbn in Hd. by destruct (last_named fqn name ds).
  - unfold Get in Hg. destruct (items s !! name) as [[d free]|]; [by destruct (free !! pick)|]. injection Hg as <-.
    split; [|done]. by destruct (last_named fqn name ds).
Qed.

Theorem messages_exclusive_witness :
  let ds := [str "pkg.S.Call"; str "pkg.S.Other"] in
  ∃ s used, store_run [OGet (str "/pkg.S/Call") 0; OGet (str "/pkg.S/Call") 0; ORelease (str "/pkg.S/Call") 0%nat; OCollect (str "/pkg.S/Other")]
      (NewDynamicMessagesStore id ds) ∅ = Some (s, used) ∧
    (Get 0 (str "/pkg.S/Call") s).1 = Some 0%nat ∧
    match Get 0 (str "/pkg.S/Call") s with
    | (Some m, s') => used !! m = None ∧ made s' !! m = last_named id (str "/pkg.S/Call") ds
    | (None, s') => last_named id (str "/pkg.S/Call") ds = None ∧ s' = s
    end.
Proof.
  do 2 eexists. split; [reflexivity|]. split; [reflexivity|].
  by apply (messages_exclusive id [str "pkg.S.Call"; str "pkg.S.Other"] [OGet (str "/pkg.S/Call") 0; OGet (str "/pkg.S/Call") 0;
    ORelease (str "/pkg.S/Call") 0%nat; OCollect (str "/pkg.S/Other")]).
Defined.

(** ** Where the methods come from *)
Section fetch.
Context {MD SD FD PE : Type} (fqn : MD → bytes) (GetMethods : SD → list MD) (GetServices : FD → list SD).

Inductive fetch_error := ParseError (e : PE) | ReflectionError (e : PE).

Abbreviation fetched := (@dynamicMessagesStore MD + fetch_error)%type.

Record LocalFetcher := NewLocalFetcher { filenames : list bytes; importPaths : list bytes }.

(** [LocalFetcher.Fetch], over the parser. *)
Definition LocalFetcher_Fetch (ParseFiles : list bytes → list bytes → list FD + PE) (f : LocalFetcher) : fetched :=
  match ParseFiles (importPaths f) (filenames f) with
  | inr err => inr (ParseError err)
  | inl fds =>
      let methods := fold_left (λ methods fs, fold_left (λ methods service, methods ++ GetMethods service) (GetServices fs) methods) fds [] in
      inl (NewDynamicMessagesStore fqn methods)
  end.

Record RemoteFetcher := mkRemote { warns : list bytes }.

Definition NewRemoteFetcher : RemoteFetcher := mkRemote [].
Definition Warnings (f : RemoteFetcher) : list bytes := warns f.

(** The loop of [RemoteFetcher.Fetch]. *)
Fixpoint services_loop (ResolveService : bytes → SD + PE) (ss : list bytes) (methods : list MD) (f : RemoteFetcher) : list MD * RemoteFetcher :=
  match ss with
  | [] => (methods, f)
  | s :: ss =>
      match ResolveService s with
      | inr _ => services_loop ResolveService ss methods (mkRemote (warns f ++ [str "service not found: " ++ s]))
      | inl service => services_loop ResolveService ss (methods ++ GetMethods service) f
      end
  end.

Definition RemoteFetcher_Fetch (ListServices : list bytes + PE) (ResolveService : bytes → SD + PE) (f : RemoteFetcher) : fetched * RemoteFetcher :=
  match ListServices with
  | inr err => (inr (ReflectionError err), f)
  | inl listServices =>
      let '(methods, f) := services_loop ResolveService listServices [] f in
      (inl (NewDynamicMessagesStore fqn methods), f)
  end.

(** *** What they find *)
Definition resolved (ResolveService : bytes → SD + PE) (ss : list bytes) : list SD :=
  omap (λ s, match ResolveService s with inl d => Some d | inr _ => None end) ss.
Definition unresolved (ResolveService : bytes → SD + PE) (ss : list bytes) : list bytes :=
  omap (λ s, match ResolveService s with inl _ => None | inr _ => Some s end) ss.

Lemma services_loop_spec R ss : ∀ methods f, services_loop R ss methods f =
  (methods ++ concat (GetMethods <$> resolved R ss), mkRemote (warns f ++ ((λ s, str "service not found: " ++ s) <$> unresolved R ss))).
Proof.
  unfold resolved, unresolved.
  induction ss as [|s ss IH]; intros methods [w]; cbn [services_loop omap list_omap fmap list_fmap concat]; [by rewrite !app_nil_r|].
  destruct (R s); rewrite IH; cbn [warns fmap list_fmap concat]; by rewrite <-app_assoc.
Qed.

Lemma methods_of_files fds : ∀ acc,
  fold_left (λ methods fs, fold_left (λ methods service, methods ++ GetMethods service) (GetServices fs) methods) fds acc =
  acc ++ concat (GetMethods <$> concat (GetServices <$> fds)).
Proof.
  assert (∀ ss acc, fold_left (λ methods service, methods ++ GetMethods service) ss acc = acc ++ concat (GetMethods <$> ss)) as Hs.
  { induction ss as [|s ss IH]; intros acc; cbn; [by rewrite app_nil_r|]. by rewrite IH, <-app_assoc. }
  induction fds as [|fd fds IH]; intros acc; cbn [fold_left fmap list_fmap concat]; [by rewrite app_nil_r|].
  by rewrite IH, Hs, fmap_app, concat_app, <-app_assoc.
Qed.

Lemma named_iff name ds : is_Some (last_named fqn name ds) ↔ ∃ d, d ∈ ds ∧ NormalizeMethod (fqn d) = name.
Proof.
  unfold last_named. rewrite last_is_Some. split.
  - intros Hne. destruct (filter _ ds) as [|d l] eqn:E; [done|]. exists d.
    assert (d ∈ filter (λ d, NormalizeMethod (fqn d) = name) ds) as [? ?]%list_elem_of_filter by (rewrite E; by left). done.
  - intros (d & Hd & Hn) Hnil. assert (d ∈ filter (λ d, NormalizeMethod (fqn d) = name) ds) as H by (by apply list_elem_of_filter).
    rewrite Hnil in H. by apply elem_of_nil in H.
Qed.

Lemma store_has pick name ds : is_Some (Get pick name (NewDynamicMessagesStore fqn ds)).1 ↔ ∃ d, d ∈ ds ∧ NormalizeMethod (fqn d) = name.
Proof.
  rewrite <-named_iff. unfold Get. rewrite items_new. destruct (last_named fqn name ds) as [d|]; cbn; [|done].
  rewrite lookup_nil. by split; intros; eexists.
Qed.
End fetch.

(** What a fetched store has: exactly the methods of the services of the parsed
    files, or of the services the server lists and resolves; those it does not
    resolve are the warnings, in order, and do not fail the fetch. *)
Theorem fetched_methods {MD SD FD PE} (fqn : MD → bytes) (GetMethods : SD → list MD) (GetServices : FD → list SD)
    (ParseFiles : list bytes → list bytes → list FD + PE) lf fds ss (ResolveService : bytes → SD + PE) rf :
  ParseFiles (importPaths lf) (filenames lf) = inl fds →
  ∃ local remote, LocalFetcher_Fetch fqn GetMethods GetServices ParseFiles lf = inl local ∧
    RemoteFetcher_Fetch fqn GetMethods (inl ss) ResolveService rf =
      (inl remote, mkRemote (Warnings rf ++ ((λ s, str "service not found: " ++ s) <$> unresolved ResolveService ss))) ∧
    ∀ pick name,
      (is_Some (Get pick name local).1 ↔ ∃ d sv fd, fd ∈ fds ∧ sv ∈ GetServices fd ∧ d ∈ GetMethods sv ∧ NormalizeMethod (fqn d) = name) ∧
      (is_Some (Get pick name remote).1 ↔
        ∃ d sv s, s ∈ ss ∧ ResolveService s = inl sv ∧ d ∈ GetMethods sv ∧ NormalizeMethod (fqn d) = name).
Proof.
  intros Hp. unfold LocalFetcher_Fetch, RemoteFetcher_Fetch. rewrite Hp, services_loop_spec.
  do 2 eexists. split; [reflexivity|]. split; [reflexivity|]. intros pick name. rewrite !store_has, methods_of_files. cbn [app].
  assert (∀ (svs : list SD), (∃ d, d ∈ concat (GetMethods <$> svs) ∧ NormalizeMethod (fqn d) = name) ↔
    ∃ d sv, sv ∈ svs ∧ d ∈ GetMethods sv ∧ NormalizeMethod (fqn d) = name) as Hc.
  { intros svs. setoid_rewrite elem_of_concat_fmap. naive_solver. }
  rewrite !Hc. unfold resolved. split.
  - setoid_rewrite elem_of_concat_fmap. naive_solver.
  - setoid_rewrite list_elem_of_omap. split.
    + intros (d & sv & (s & Hs & H) & Hr). destruct (ResolveService s) eqn:E; [|done]. injection H as ->. by exists d, sv, s.
    + intros (d & sv & s & Hs & H & Hr). exists d, sv. split; [|done]. exists s. by rewrite H.
Qed.

(** A file with two services, a server with three of which one does not resolve;
    a service is its list of methods. *)
Definition example_files : list (list (list bytes)) := [[[str "p.A.X"; str "p.A.Y"]; [str "p.B.Z"]]].
Definition example_resolve (s : bytes) : list bytes + unit :=
  if decide (s = str "p.B") then inr tt else inl [s ++ str ".Call"].

Theorem fetched_methods_witness :
  ∃ local remote, LocalFetcher_Fetch (PE := unit) id id id (λ _ _, inl example_files) (NewLocalFetcher [str "a.proto"] []) = inl local ∧
    RemoteFetcher_Fetch id id (inl [str "p.A"; str "p.B"; str "p.C"]) example_resolve NewRemoteFetcher =
      (inl remote, mkRemote (Warnings NewRemoteFetcher ++
        ((λ s, str "service not found: " ++ s) <$> unresolved example_resolve [str "p.A"; str "p.B"; str "p.C"]))) ∧
    ∀ pick name,
      (is_Some (Get pick name local).1 ↔ ∃ d sv fd, fd ∈ example_files ∧ sv ∈ id fd ∧ d ∈ id sv ∧ NormalizeMethod (id d) = name) ∧
      (is_Some (Get pick name remote).1 ↔ ∃ d sv s, s ∈ [str "p.A"; str "p.B"; str "p.C"] ∧ example_resolve s = inl sv ∧
        d ∈ id sv ∧ NormalizeMethod (id d) = name).
Proof.
  by apply (fetched_methods (PE := unit) id id id (λ _ _, inl example_files) (NewLocalFetcher [str "a.proto"] []) example_files).
Defined.

(** ** CachedFetcher *)
Section cached.
Context {R W : Type} (next_Fetch : W → R * W).

(** [once] has run iff there is a result. *)
Record CachedFetcher := mkCached { cached : option R }.

Definition NewCachedFetcher : CachedFetcher := mkCached None.

Definition CachedFetcher_Fetch (f : CachedFetcher) (w : W) : R * (CachedFetcher * W) :=
  match cached f with
  | Some r => (r, (f, w))
  | None => let '(r, w) := next_Fetch w in (r, (mkCached (Some r), w))
  end.

Fixpoint fetches (n : nat) (f : CachedFetcher) (w : W) : list R * (CachedFetcher * W) :=
  match n with
  | O => ([], (f, w))
  | S n =>
      let '(r, (f, w)) := CachedFetcher_Fetch f w in
      let '(rs, fw) := fetches n f w in (r :: rs, fw)
  end.

(** The wrapped fetcher runs once: its first answer, an error as well, is every
    answer. *)
Theorem fetched_once n w :
  fetches (S n) NewCachedFetcher w = (replicate (S n) (next_Fetch w).1, (mkCached (Some (next_Fetch w).1), (next_Fetch w).2)).
Proof.
  assert (∀ r w n, fetches n (mkCached (Some r)) w = (replicate n r, (mkCached (Some r), w))) as H.
  { clear. intros r w n. induction n as [|n IH]; [done|]. cbn. by rewrite IH. }
  cbn. destruct (next_Fetch w) as [r w']. cbn. by rewrite H.
Qed.
End cached.
