(* ===== verification/Converter.v ===== *)
(** * Converter: reading, converting and writing records in parallel

    Models src/formats/converter/processor.go: one goroutine reads the records and
    deals them to the threads in turn, each thread decodes and encodes its own, and
    one goroutine collects them in the same order and writes them.  The channels,
    the blocking and the cancellation of the group are a step relation; what a
    [Strategy] does to a record is a parameter. *)
From S2P Require Import Prelude.

#[local] Open Scope nat_scope.

(** ** Configuration *)
Record conf := mkConf { threads : nat; threadBuffer : nat; failOnConvertErrors : bool }.

Inductive Option_ := WithThreads (n : nat) | WithThreadsBuffer (n : nat) | WithFailOnConvertErrors.

Definition newDefaultConf (gomaxprocs : nat) : conf := mkConf gomaxprocs 100 false.

Definition apply_option (c : conf) (o : Option_) : conf :=
  match o with
  | WithThreads n => mkConf n (threadBuffer c) (failOnConvertErrors c)
  | WithThreadsBuffer n => mkConf (threads c) n (failOnConvertErrors c)
  | WithFailOnConvertErrors => mkConf (threads c) (threadBuffer c) true
  end.

(** [NewProcessor]; a nil option is skipped. *)
Definition NewProcessor (gomaxprocs : nat) (opts : list (option Option_)) : conf :=
  fold_left (λ c o, match o with Some o => apply_option c o | None => c end) opts (newDefaultConf gomaxprocs).

(** ** A strategy: what happens to the holder of one record *)
Class Strategy (H E : Type) := { Decode : H → option E * H; Encode : H → option E * H }.

Inductive conv_error (E : Type) := DecodeError (e : E) | EncodeError (e : E).
Arguments DecodeError {E} _.
Arguments EncodeError {E} _.

Section converter.
Context {H E : Type} `{!Strategy H E}.

Record convertItem := mkItem { message : H; convertErr : option (conv_error E) }.

(** The body of [runConvert] for one item. *)
Definition convert (item : convertItem) : convertItem :=
  match Decode (message item) with
  | (Some e, h) => mkItem h (Some (DecodeError e))
  | (None, h) =>
      match Encode h with
      | (Some e, h) => mkItem h (Some (EncodeError e))
      | (None, h) => mkItem h (convertErr item)
      end
  end.

(** ** The goroutines *)
Inductive go_error := ReadErr (n : nat) (e : E) | CtxErr | ConvertErr (n : nat) (e : conv_error E) | ErrWriterErr | WriteErr.

Inductive reader := Reading | RSending (item : convertItem) | RDone (err : option go_error).
Inductive worker := Receiving | WSending (item : convertItem) | WDone (err : option go_error).
Inductive writer := Writing | WrDone (err : option go_error).

(** The channel to a thread and the thread. *)
Record thread := mkThread { queue : list convertItem; work : worker }.

(** What reached the output and the error writer, in order. *)
Inductive out := Wrote (h : H) | ErrLine (n : nat) (e : conv_error E).

Record st := mkSt {
  src : list H;               (** what [Read] has still to return *)
  s_reader : reader;
  r_i : nat;                  (** [i] of [runRead] *)
  s_threads : list thread;
  s_writer : writer;
  w_i : nat;                  (** [i] of [runWrite] *)
  closedChans : nat;
  s_log : list out;
  cancelled : bool            (** the context of the group *)
}.

Context (c : conf) (src_end : option E).

Definition Process_init (msgs : list H) : st :=
  mkSt msgs Reading 0 (replicate (threads c) (mkThread [] Receiving)) Writing 0 0 [] false.

Definition fails (o : option go_error) (b : bool) : bool := match o with Some _ => true | None => b end.

Definition end_reader (r : option go_error) (s : st) : st :=
  mkSt (src s) (RDone r) (r_i s) (s_threads s) (s_writer s) (w_i s) (closedChans s) (s_log s) (fails r (cancelled s)).
Definition set_reader (r : reader) (ms : list H) (s : st) : st :=
  mkSt ms r (r_i s) (s_threads s) (s_writer s) (w_i s) (closedChans s) (s_log s) (cancelled s).
Definition set_thread (t : nat) (x : thread) (err : option go_error) (s : st) : st :=
  mkSt (src s) (s_reader s) (r_i s) (<[t := x]> (s_threads s)) (s_writer s) (w_i s) (closedChans s) (s_log s)
    (fails err (cancelled s)).
(** The reader's item has gone to its thread. *)
Definition sent (s : st) : st :=
  mkSt (src s) Reading (S (r_i s)) (s_threads s) (s_writer s) (w_i s) (closedChans s) (s_log s) (cancelled s).
Definition set_writer (w : writer) (i closed : nat) (log : list out) (s : st) : st :=
  mkSt (src s) (s_reader s) (r_i s) (s_threads s) w i closed log
    (match w with WrDone r => fails r (cancelled s) | Writing => cancelled s end).

Inductive label :=
| LRead | LSend | LDirect | LReadStop
| LRecv (t : nat) | LRecvClosed (t : nat) | LWorkStop (t : nat)
| LHandoff (ok : bool) | LWriteClosed | LWriteStop
| LCancel.

(** What [runWrite] does with an item; [ok]: the write succeeds. *)
Definition write_item (item : convertItem) (ok : bool) (s : st) : st :=
  let i := S (w_i s) in
  match convertErr item with
  | Some e =>
      if failOnConvertErrors c then set_writer (WrDone (Some (ConvertErr i e))) i (closedChans s) (s_log s) s
      else if ok then set_writer Writing i (closedChans s) (s_log s ++ [ErrLine i e]) s
      else set_writer (WrDone (Some ErrWriterErr)) i (closedChans s) (s_log s) s
  | None =>
      if ok then set_writer Writing i (closedChans s) (s_log s ++ [Wrote (message item)]) s
      else set_writer (WrDone (Some WriteErr)) i (closedChans s) (s_log s) s
  end.

Definition step (l : label) (s : st) : option st :=
  match l with
  | LRead =>
      match s_reader s, src s with
      | Reading, h :: ms => Some (set_reader (RSending (mkItem h None)) ms s)
      | Reading, [] => Some (end_reader (match src_end with Some e => Some (ReadErr (S (r_i s)) e) | None => None end) s)
      | _, _ => None
      end
  | LSend =>
      let t := r_i s mod threads c in
      match s_reader s, s_threads s !! t with
      | RSending item, Some x =>
          if decide (length (queue x) < threadBuffer c) then Some (sent (set_thread t (mkThread (queue x ++ [item]) (work x)) None s))
          else None
      | _, _ => None
      end
  | LDirect =>
      let t := r_i s mod threads c in
      match s_reader s, s_threads s !! t with
      | RSending item, Some (mkThread [] Receiving) => Some (sent (set_thread t (mkThread [] (WSending (convert item))) None s))
      | _, _ => None
      end
  | LReadStop =>
      match s_reader s with RSending _ => if cancelled s then Some (end_reader (Some CtxErr) s) else None | _ => None end
  | LRecv t =>
      match s_threads s !! t with
      | Some (mkThread (item :: q) Receiving) => Some (set_thread t (mkThread q (WSending (convert item))) None s)
      | _ => None
      end
  | LRecvClosed t =>
      match s_reader s, s_threads s !! t with
      | RDone _, Some (mkThread [] Receiving) => Some (set_thread t (mkThread [] (WDone None)) None s)
      | _, _ => None
      end
  | LWorkStop t =>
      match s_threads s !! t with
      | Some (mkThread q (Receiving | WSending _)) =>
          if cancelled s then Some (set_thread t (mkThread q (WDone (Some CtxErr))) (Some CtxErr) s) else None
      | _ => None
      end
  | LHandoff ok =>
      let t := w_i s mod threads c in
      match s_writer s, s_threads s !! t with
      | Writing, Some (mkThread q (WSending item)) => Some (write_item item ok (set_thread t (mkThread q Receiving) None s))
      | _, _ => None
      end
  | LWriteClosed =>
      match s_writer s, s_threads s !! (w_i s mod threads c) with
      | Writing, Some (mkThread _ (WDone _)) =>
          let closed := S (closedChans s) in
          Some (set_writer (if decide (closed = threads c) then WrDone None else Writing) (w_i s) closed (s_log s) s)
      | _, _ => None
      end
  | LWriteStop =>
      match s_writer s with
      | Writing => if cancelled s then Some (set_writer (WrDone (Some CtxErr)) (w_i s) (closedChans s) (s_log s) s) else None
      | _ => None
      end
  | LCancel =>
      if cancelled s then None
      else Some (mkSt (src s) (s_reader s) (r_i s) (s_threads s) (s_writer s) (w_i s) (closedChans s) (s_log s) true)
  end.

Fixpoint steps (ls : list label) (s : st) : option st :=
  match ls with [] => Some s | l :: ls => s ← step l s; steps ls s end.

(** Every goroutine has returned; without an error. *)
Definition all_done (s : st) : Prop :=
  (∃ r, s_reader s = RDone r) ∧ Forall (λ x, ∃ r, work x = WDone r) (s_threads s) ∧ ∃ r, s_writer s = WrDone r.
Definition returned_nil (s : st) : Prop :=
  s_reader s = RDone None ∧ Forall (λ x, work x = WDone None) (s_threads s) ∧ s_writer s = WrDone None.

(** What should come out for the record numbered [k] from 0. *)
Definition output (k : nat) (h : H) : out :=
  let item := convert (mkItem h None) in
  match convertErr item with Some e => ErrLine (S k) e | None => Wrote (message item) end.
End converter.

(** ** Invariant *)
Section proofs.
Context {H E : Type} `{!Strategy H E} (c : conf) (src_end : option E) (msgs : list H).
Context (threads_pos : 0 < threads c).

Notation T := (threads c).
Notation st := (@st H E).
Implicit Types s : st.

(** The numbered records, and those dealt but not yet collected. *)
Definition numbered : list (nat * H) := imap pair msgs.
Definition window s : list (nat * H) := take (r_i s - w_i s) (drop (w_i s) numbered).
Definition mine (t : nat) (ps : list (nat * H)) : list (nat * H) := filter (λ p, p.1 mod T = t) ps.
Definition converted (p : nat * H) : convertItem := convert (mkItem p.2 None).

Definition pending (x : @thread H E) : list convertItem :=
  (match work x with WSending item => [item] | _ => [] end) ++ (convert <$> queue x).

Definition stopped (x : @thread H E) : Prop := ∃ e, work x = WDone (Some e).
Definition any_stopped (l : list (@thread H E)) : Prop := ∃ t x, l !! t = Some x ∧ stopped x.

Definition held (r : @reader H E) : list convertItem := match r with RSending item => [item] | _ => [] end.

Definition reader_done s : Prop := ∃ r, s_reader s = RDone r.

Definition expected : list (@out H E) := (λ p, output p.1 p.2) <$> numbered.

Record inv s : Prop := {
  inv_threads : length (s_threads s) = T;
  inv_w : w_i s <= r_i s <= length msgs;
  inv_src : (∃ e, s_reader s = RDone (Some e)) ∨
    (λ h, mkItem h None) <$> drop (r_i s) msgs = held (s_reader s) ++ ((λ h, mkItem h None) <$> src s);
  inv_pending t x : s_threads s !! t = Some x → stopped x ∨ pending x = converted <$> mine t (window s);
  inv_closed t x : s_threads s !! t = Some x → work x = WDone None → queue x = [] ∧ reader_done s;
  inv_cancel : any_stopped (s_threads s) ∨ (∃ e, s_reader s = RDone (Some e)) ∨ (∃ e, s_writer s = WrDone (Some e)) → cancelled s = true;
  inv_eof : s_reader s = RDone None → src s = [];
  inv_wclosed : 0 < closedChans s ∨ s_writer s = WrDone None → any_stopped (s_threads s) ∨ (reader_done s ∧ w_i s = r_i s);
  inv_count : s_writer s = Writing → closedChans s < T;
  inv_log : s_log s `prefix_of` take (w_i s) expected ∧ ((∃ e, s_writer s = WrDone (Some e)) ∨ s_log s = take (w_i s) expected)
}.

Lemma numbered_lookup k : numbered !! k = (λ h, (k, h)) <$> msgs !! k.
Proof. unfold numbered. by rewrite list_lookup_imap. Qed.

Lemma numbered_length : length numbered = length msgs.
Proof. apply length_imap. Qed.

Lemma process_init_inv : inv (Process_init c msgs).
Proof.
  split; cbn.
  - apply length_replicate.
  - lia.
  - right. by rewrite drop_0.
  - intros t x [-> _]%lookup_replicate. right. unfold pending, window. cbn. by rewrite drop_0.
  - by intros t x [-> _]%lookup_replicate.
  - intros [(t & x & [-> _]%lookup_replicate & e & He)|[[e He]|[e He]]]; done.
  - done.
  - intros [?|?]; [lia|done].
  - done.
  - split; [apply prefix_nil|by right].
Qed.

(** The window grows at the reader's end and shrinks at the writer's. *)
Lemma window_sent s h : w_i s <= r_i s → msgs !! r_i s = Some h →
  take (S (r_i s) - w_i s) (drop (w_i s) numbered) = window s ++ [(r_i s, h)].
Proof.
  intros Hle Hh. unfold window. rewrite Nat.sub_succ_l by done.
  apply take_S_r. rewrite lookup_drop. replace (w_i s + (r_i s - w_i s)) with (r_i s) by lia.
  by rewrite numbered_lookup, Hh.
Qed.

Lemma window_head s p ps : window s = p :: ps →
  p.1 = w_i s ∧ ps = take (r_i s - S (w_i s)) (drop (S (w_i s)) numbered) ∧ numbered !! w_i s = Some p ∧ w_i s < r_i s.
Proof.
  unfold window. intros Hw. destruct (r_i s - w_i s) as [|n] eqn:Hn; [done|].
  destruct (drop (w_i s) numbered) as [|q qs] eqn:Hd; [done|]. cbn in Hw. injection Hw as -> <-.
  assert (numbered !! w_i s = Some p) as Hp by (rewrite <-(Nat.add_0_r (w_i s)), <-lookup_drop, Hd; done).
  assert (drop (S (w_i s)) numbered = qs) as -> by (change (S (w_i s)) with (1 + w_i s); rewrite Nat.add_comm, <-drop_drop, Hd; done).
  replace (r_i s - S (w_i s)) with n by lia. split_and!; try done; [|lia].
  rewrite numbered_lookup in Hp. destruct (msgs !! w_i s); [|done]. by injection Hp as <-.
Qed.

Lemma window_nil s : w_i s <= r_i s <= length msgs → window s = [] → w_i s = r_i s.
Proof.
  intros Hle Hw. apply (f_equal length) in Hw. unfold window in Hw. rewrite length_take, length_drop, numbered_length in Hw. cbn in Hw. lia.
Qed.

Lemma mine_head t p ps : p.1 mod T = t → mine t (p :: ps) = p :: mine t ps.
Proof. intros Hp. unfold mine. by rewrite filter_cons_True. Qed.
Lemma mine_other t p ps : p.1 mod T ≠ t → mine t (p :: ps) = mine t ps.
Proof. intros Hp. unfold mine. by rewrite filter_cons_False. Qed.

(** The writer's thread has nothing: then nothing is left at all. *)
Lemma nothing_left s x : inv s → s_threads s !! (w_i s mod T) = Some x → ¬ stopped x → pending x = [] → w_i s = r_i s.
Proof.
  intros Hi Hx Hns Hp. apply window_nil; [apply Hi|]. destruct (window s) as [|p ps] eqn:Hw; [done|].
  destruct (window_head s p ps Hw) as (Hp1 & _). destruct (inv_pending s Hi _ _ Hx) as [?|Hpend]; [done|].
  rewrite Hp, Hw, mine_head in Hpend by (by rewrite Hp1). done.
Qed.

Lemma thread_at s t : inv s → t < T → ∃ x, s_threads s !! t = Some x.
Proof. intros Hi Ht. apply lookup_lt_is_Some. by rewrite inv_threads. Qed.

Lemma mod_thread n : n mod T < T.
Proof. apply Nat.mod_upper_bound. lia. Qed.

(** ** Every step keeps it *)
Lemma any_stopped_keep l t x x' : l !! t = Some x → ¬ stopped x → any_stopped l → any_stopped (<[t := x']> l).
Proof.
  intros Hx Hns (t' & y & Hy & Hst). exists t', y. split; [|done]. rewrite list_lookup_insert_ne; [done|]. intros <-. congruence.
Qed.
Lemma any_stopped_insert l t x' : any_stopped (<[t := x']> l) → stopped x' ∨ any_stopped l.
Proof.
  intros (t' & y & Hy & Hst). apply list_lookup_insert_Some in Hy as [(-> & -> & _)|[_ Hy]]; [by left|right; by exists t', y].
Qed.

Definition running (x : @thread H E) : Prop := ∀ r, work x ≠ WDone r.
Definition is_running (x : @thread H E) : bool := match work x with WDone _ => false | _ => true end.
Lemma running_not_stopped x : running x → ¬ stopped x.
Proof. intros Hr [e He]. by apply (Hr (Some e)). Qed.

(** A thread that moves on its own: nothing pending is lost, or it stops with the
    context. *)
Lemma inv_set_thread s t x x' err : inv s → s_threads s !! t = Some x → running x →
  (stopped x' ∧ cancelled s = true ∨ ¬ stopped x' ∧ pending x' = pending x) →
  (err = None ∨ cancelled s = true) →
  (work x' = WDone None → queue x' = [] ∧ reader_done s) → inv (set_thread t x' err s).
Proof.
  intros Hi Hx Hrun Hp Herr Hq. pose proof (running_not_stopped x Hrun) as Hns.
  assert (cancelled (set_thread t x' err s) = cancelled s) as Hc by (cbn; by destruct Herr as [->| ->]; [|destruct err]).
  destruct Hi as [I1 I2 I3 I4 I5 I6 I7 I8 I9 I10]. split; cbn -[cancelled] in *; rewrite ?Hc.
  - by rewrite length_insert.
  - done.
  - done.
  - intros t' y [(-> & -> & _)|[_ Hy]]%list_lookup_insert_Some; [|by apply I4].
    destruct Hp as [[? _]|[_ ->]]; [by left|]. destruct (I4 _ _ Hx); [done|by right].
  - intros t' y [(-> & -> & _)|[_ Hy]]%list_lookup_insert_Some; [done|by apply (I5 t')].
  - intros [Ha|Ho]; [|apply I6; by right]. apply any_stopped_insert in Ha as [Hst|Ha]; [|apply I6; by left].
    by destruct Hp as [[_ ?]|[? _]].
  - done.
  - intros Hw. destruct (I8 Hw) as [Ha|?]; [left|by right]. by eapply any_stopped_keep.
  - done.
  - done.
Qed.

(** Only the reader's side changes. *)
Lemma inv_set_reader s r ms : inv s → s_reader s = Reading ∨ (∃ item, s_reader s = RSending item) →
  (∃ e, r = RDone (Some e)) ∨ held (s_reader s) ++ ((λ h, mkItem h None) <$> src s) = held r ++ ((λ h, mkItem h None) <$> ms) →
  (r = RDone None → ms = []) →
  let s' := match r with RDone err => end_reader err s | _ => set_reader r ms s end in
  src s' = ms → inv s'.
Proof.
  intros Hi Hr Hh Heof s' Hsrc. assert (¬ reader_done s) as Hnd by (intros [r' Hr']; destruct Hr as [?|[? ?]]; congruence).
  assert (s_reader s' = r ∧ r_i s' = r_i s ∧ s_threads s' = s_threads s ∧ s_writer s' = s_writer s ∧ w_i s' = w_i s ∧
    closedChans s' = closedChans s ∧ s_log s' = s_log s ∧ (cancelled s = true → cancelled s' = true) ∧
    ((∃ e, r = RDone (Some e)) → cancelled s' = true)) as (E1 & E2 & E3 & E4 & E5 & E6 & E7 & E8 & E9).
  { subst s'. destruct r as [| |err]; cbn; split_and!; try done; try (by intros [? ?]).
    - by destruct err.
    - by intros [e [= ->]]. }
  clearbody s'. assert (window s' = window s) as Hw by (unfold window; by rewrite E2, E5).
  destruct Hi as [I1 I2 I3 I4 I5 I6 I7 I8 I9 I10]. split; rewrite ?E1, ?E2, ?E3, ?E4, ?E5, ?E6, ?E7, ?Hw, ?Hsrc; try done.
  - destruct Hh as [?|Hh]; [by left|right]. rewrite <-Hh. destruct I3 as [[e He]|?]; [|done]. by destruct Hnd; exists (Some e).
  - intros t x Hx Hd. by destruct (I5 t x Hx Hd) as [_ ?].
  - intros [Ha|[He|He]]; [apply E8, I6; by left|by apply E9|apply E8, I6; by right; right].
  - intros Hwc. destruct (I8 Hwc) as [?|[? _]]; [by left|done].
Qed.

(** Only the writer's side changes, and it does not take an item. *)
Lemma inv_set_writer s w closed : inv s → s_writer s = Writing →
  (w = Writing ∧ closed < T ∨ w = WrDone None ∨ (∃ e, w = WrDone (Some e)) ∧ cancelled s = true) →
  (0 < closed → 0 < closedChans s ∨ any_stopped (s_threads s) ∨ (reader_done s ∧ w_i s = r_i s)) →
  (w = WrDone None → 0 < closed) →
  inv (set_writer w (w_i s) closed (s_log s) s).
Proof.
  intros Hi Hwr Hw Hc Hn.
  destruct Hi as [I1 I2 I3 I4 I5 I6 I7 I8 I9 I10]. split; cbn -[cancelled]; try done.
  - intros [Ha|[He|[e ->]]]; [| |by cbn; destruct (cancelled s)].
    + cbn. destruct w as [|[|]]; cbn; try done; apply I6; by left.
    + cbn. destruct w as [|[|]]; cbn; try done; apply I6; by right; left.
  - intros Hwc. assert (0 < closed) as Hpos by (destruct Hwc as [?| ->]; [done|by apply Hn]).
    destruct (Hc Hpos) as [?|?]; [apply I8; by left|done].
  - intros ->. destruct Hw as [[_ ?]|[?|[[? ?] _]]]; done.
  - destruct I10 as [Hpre [[e He]|Hlog]]; [congruence|]. split; [done|by right].
Qed.

(** The reader's item goes to its thread. *)
Lemma inv_sent s item x x' : inv s → s_reader s = RSending item → s_threads s !! (r_i s mod T) = Some x →
  (work x = WDone None → False) → (stopped x → stopped x') → (running x → running x') →
  pending x' = pending x ++ [convert item] → inv (sent (set_thread (r_i s mod T) x' None s)).
Proof.
  intros Hi Hr Hx Hnd Hst Hrun Hp. destruct Hi as [I1 I2 I3 I4 I5 I6 I7 I8 I9 I10].
  assert (¬ reader_done s) as Hnr by (intros [? ?]; congruence).
  destruct I3 as [[e He]|I3]; [congruence|]. rewrite Hr in I3. cbn [held app] in I3.
  destruct (drop (r_i s) msgs) as [|h ms] eqn:Hd; [done|]. injection I3 as Hitem I3.
  assert (msgs !! r_i s = Some h) as Hh by (rewrite <-(Nat.add_0_r (r_i s)), <-lookup_drop, Hd; done).
  pose proof (lookup_lt_Some _ _ _ Hh) as Hlt.
  assert (any_stopped (<[r_i s mod T := x']> (s_threads s)) ↔ any_stopped (s_threads s)) as Has.
  { destruct (work x) as [| |[e|]] eqn:Hw.
    - split; [|apply any_stopped_keep with x; [done|]; by intros [? ?]; congruence].
      intros [Hs|?]%any_stopped_insert; [|done]. exfalso. apply (running_not_stopped x'); [|done]. apply Hrun. intros ? ?. congruence.
    - split; [|apply any_stopped_keep with x; [done|]; by intros [? ?]; congruence].
      intros [Hs|?]%any_stopped_insert; [|done]. exfalso. apply (running_not_stopped x'); [|done]. apply Hrun. intros ? ?. congruence.
    - split; intros _; [exists (r_i s mod T), x; split; [done|by exists e]|].
      exists (r_i s mod T), x'. split; [apply list_lookup_insert_eq; by eapply lookup_lt_Some|]. apply Hst. by exists e.
    - done. }
  split; cbn -[cancelled]; rewrite ?length_insert.
  - done.
  - lia.
  - right. rewrite <-I3. change (S (r_i s)) with (1 + r_i s). rewrite Nat.add_comm, <-drop_drop, Hd. done.
  - intros t y Hy. unfold window. cbn [r_i w_i sent set_thread].
    rewrite (window_sent s h ltac:(lia) Hh). unfold mine. rewrite filter_app. fold (mine t (window s)).
    apply list_lookup_insert_Some in Hy as [(<- & <- & _)|[Hne Hy]].
    + destruct (I4 _ _ Hx) as [?|Hpx]; [left; by apply Hst|right]. rewrite filter_cons_True by done.
      rewrite Hp, Hpx, fmap_app. f_equal. cbn. unfold converted. cbn [fst snd]. by rewrite Hitem.
    + destruct (I4 _ _ Hy) as [?|Hpy]; [by left|right]. rewrite filter_cons_False by done. by rewrite filter_nil, app_nil_r.
  - intros t y [(<- & <- & _)|[_ Hy]]%list_lookup_insert_Some Hd'; [|by destruct (I5 t y Hy Hd')].
    exfalso. destruct (work x) as [| |[e|]] eqn:Hw; [| | |by apply Hnd].
    + assert (running x') as H' by (apply Hrun; intros ? ?; congruence). by apply (H' None).
    + assert (running x') as H' by (apply Hrun; intros ? ?; congruence). by apply (H' None).
    + destruct Hst as [e' He']; [by exists e|congruence].
  - intros [Ha|[[e He]|He]]; [apply I6; left; by apply Has|done|apply I6; by right; right].
  - done.
  - intros Hw. destruct (I8 Hw) as [?|[? _]]; [left; by apply Has|done].
  - done.
  - done.
Qed.

Lemma converted_output p : match convertErr (converted p) with Some e => ErrLine (S p.1) e | None => Wrote (message (converted p)) end = output p.1 p.2.
Proof. done. Qed.

(** The writer takes its next item. *)
Lemma inv_handoff s q item ok : inv s → s_writer s = Writing → s_threads s !! (w_i s mod T) = Some (mkThread q (WSending item)) →
  inv (write_item c item ok (set_thread (w_i s mod T) (mkThread q Receiving) None s)).
Proof.
  intros Hi Hwr Hx. pose proof (inv_pending s Hi _ _ Hx) as [[? ?]|Hp]; [done|].
  destruct (window s) as [|p ps] eqn:Hw; [done|]. destruct (window_head s p ps Hw) as (Hp1 & Hps & Hnum & Hlt).
  rewrite mine_head in Hp by (by rewrite Hp1). cbn in Hp. injection Hp as Hitem Hq.
  destruct Hi as [I1 I2 I3 I4 I5 I6 I7 I8 I9 I10].
  destruct I10 as [_ [[e He]|Hlog]]; [congruence|].
  assert (take (S (w_i s)) expected = take (w_i s) expected ++ [output p.1 p.2]) as Htake.
  { apply take_S_r. unfold expected. by rewrite list_lookup_fmap, Hnum. }
  assert (Hns : ¬ stopped (mkThread q (WSending item))) by (by intros [? ?]).
  assert (Hgen : ∀ s', src s' = src s → s_reader s' = s_reader s → r_i s' = r_i s →
    s_threads s' = <[w_i s mod T := mkThread q Receiving]> (s_threads s) → w_i s' = S (w_i s) → closedChans s' = closedChans s →
    (s_writer s' = Writing ∧ cancelled s' = cancelled s ∧ s_log s' = s_log s ++ [output p.1 p.2] ∨
     (∃ e, s_writer s' = WrDone (Some e)) ∧ cancelled s' = true ∧ s_log s' = s_log s) → inv s').
  { intros s' E1 E2 E3 E4 E5 E6 E7. split; unfold window, reader_done; rewrite ?E1, ?E2, ?E3, ?E4, ?E5, ?E6, ?length_insert; try done.
    - lia.
    - rewrite <-Hps. intros t y [(<- & <- & _)|[Hne Hy]]%list_lookup_insert_Some.
      + right. unfold pending. cbn. done.
      + destruct (I4 _ _ Hy) as [?|Hpy]; [by left|right]. by rewrite Hpy, Hw, mine_other by (by rewrite Hp1).
    - intros t y [(<- & <- & _)|[_ Hy]]%list_lookup_insert_Some; [done|by apply (I5 t)].
    - intros Ho. destruct E7 as [(Ew & -> & _)|(_ & -> & _)]; [|done].
      destruct Ho as [[[e ?]|Ha]%any_stopped_insert|[?|[e ?]]]; [done|apply I6; by left|apply I6; by right; left|congruence].
    - intros Hc. destruct (I8) as [Ha|[_ ?]]; [|left; by eapply any_stopped_keep|lia].
      destruct Hc as [?|Hc]; [by left|]. destruct E7 as [(? & _)|([? ?] & _)]; congruence.
    - intros Hw'. by apply I9.
    - rewrite Htake. destruct E7 as [(_ & _ & ->)|(Hd & _ & ->)].
      + rewrite Hlog. split; [done|by right].
      + rewrite Hlog. split; [by apply prefix_app_r|by left]. }
  unfold write_item. cbn [w_i set_thread]. rewrite <-Hp1. subst item. 
  pose proof (converted_output p) as Ho. unfold converted in *.
  destruct (convertErr (convert (mkItem p.2 None))) as [e|].
  - destruct (failOnConvertErrors c); [|destruct ok].
    + apply Hgen; cbn; try (done || by rewrite Hp1). right. split; [by eexists|done].
    + apply Hgen; cbn; try (done || by rewrite Hp1). left. by rewrite Ho.
    + apply Hgen; cbn; try (done || by rewrite Hp1). right. split; [by eexists|done].
  - destruct ok.
    + apply Hgen; cbn; try (done || by rewrite Hp1). left. by rewrite Ho.
    + apply Hgen; cbn; try (done || by rewrite Hp1). right. split; [by eexists|done].
Qed.

Lemma not_done_running q w : (w = Receiving ∨ ∃ item, w = WSending item) → running (mkThread q w).
Proof. intros [->|[? ->]] r; done. Qed.

Lemma step_inv l s s' : inv s → step c src_end l s = Some s' → inv s'.
Proof.
  intros Hi. destruct l as [| | | |t|t|t|ok| | |]; cbn [step]; intros Hs.
  - destruct (s_reader s) as [|item|r] eqn:Hr; try done. destruct (src s) as [|h ms] eqn:Hsrc; injection Hs as <-.
    + apply (inv_set_reader s (RDone _) []); [done|by left| |done|done].
      destruct src_end; [left; by eexists|right]. by rewrite Hr, Hsrc.
    + apply (inv_set_reader s (RSending _) ms); [done|by left| |done|done]. right. by rewrite Hr, Hsrc.
  - destruct (s_reader s) as [|item|r] eqn:Hr; try done. destruct (s_threads s !! _) as [x|] eqn:Hx; [|done].
    case_decide; [|done]. injection Hs as <-. eapply inv_sent; try done.
    + intros Hd. destruct (inv_closed s Hi _ _ Hx Hd) as [_ [? ?]]. congruence.
    + unfold pending. cbn. by rewrite fmap_app, app_assoc.
  - destruct (s_reader s) as [|item|r] eqn:Hr; try done. destruct (s_threads s !! _) as [[[|]  [| |]]|] eqn:Hx; try done.
    injection Hs as <-. eapply inv_sent; try done. by intros [? ?].
  - destruct (s_reader s) as [|item|r] eqn:Hr; try done. destruct (cancelled s) eqn:Hc; [|done]. injection Hs as <-.
    apply (inv_set_reader s (RDone (Some CtxErr)) (src s)); [done|right; by eexists|left; by eexists|done|done].
  - destruct (s_threads s !! t) as [[[|item q]  [| |]]|] eqn:Hx; try done. injection Hs as <-.
    eapply inv_set_thread; try done; [|by left]. right. by split; [intros [? ?]|].
  - destruct (s_reader s) as [|item|r] eqn:Hr; try done. destruct (s_threads s !! t) as [[[|]  [| |]]|] eqn:Hx; try done.
    injection Hs as <-. eapply inv_set_thread; try done; [|by left|].
    + right. by split; [intros [? ?]|].
    + intros _. split; [done|by exists r].
  - destruct (s_threads s !! t) as [[q  w]|] eqn:Hx; [|done].
    assert (Hw : cancelled s = true ∧ set_thread t (mkThread q (WDone (Some CtxErr))) (Some CtxErr) s = s' ∧
      running (mkThread q w)).
    { destruct w; [| |done]; (destruct (cancelled s); [|done]; injection Hs as <-; split_and!; [done..|by intros ?]). }
    destruct Hw as (Hc & <- & Hrun). eapply inv_set_thread; try done; [|by right].
    left. split; [by eexists|done].
  - destruct (s_writer s) eqn:Hw; [|done]. destruct (s_threads s !! _) as [[q [|item|]]|] eqn:Hx; try done.
    injection Hs as <-. by apply inv_handoff.
  - destruct (s_writer s) eqn:Hw; [|done]. destruct (s_threads s !! _) as [[q [| |r]]|] eqn:Hx; try done.
    injection Hs as <-. pose proof (inv_count s Hi Hw). apply inv_set_writer; try done.
    + case_decide; [by right; left|left; split; [done|lia]].
    + intros _. right. destruct r as [e|].
      * left. by exists (w_i s mod T), (mkThread q (WDone (Some e))); split; [|exists e].
      * right. destruct (inv_closed s Hi _ _ Hx eq_refl) as [Hq Hrd]. split; [done|]. cbn in Hq. subst q.
        eapply nothing_left; [done|done|by intros [? ?]|done].
    + intros _. lia.
  - destruct (s_writer s) eqn:Hw; [|done]. destruct (cancelled s) eqn:Hc; [|done]. injection Hs as <-.
    apply inv_set_writer; try done.
    + right. right. split; [by eexists|done].
    + by left.
  - destruct (cancelled s) eqn:Hc; [done|]. injection Hs as <-.
    destruct Hi as [I1 I2 I3 I4 I5 I6 I7 I8 I9 I10]. by split.
Qed.

Lemma steps_inv ls s s' : inv s → steps c src_end ls s = Some s' → inv s'.
Proof.
  revert s. induction ls as [|l ls IH]; intros s Hi Hr; cbn in Hr; [by injection Hr as <-|].
  apply bind_Some in Hr as (s1 & Hs & Hr). eapply IH; [|done]. by eapply step_inv.
Qed.

Lemma inv_order s : inv s → s_log s `prefix_of` expected.
Proof. intros Hi. destruct (inv_log s Hi) as [Hp _]. etrans; [exact Hp|]. apply prefix_take. Qed.

Lemma inv_complete s : inv s → returned_nil s → s_log s = expected.
Proof.
  intros Hi (Hr & Hth & Hw). destruct (inv_log s Hi) as [_ [[e He]|Hlog]]; [congruence|]. rewrite Hlog.
  assert (Hns : ¬ any_stopped (s_threads s)).
  { intros (t & x & Hx & e & He). rewrite Forall_lookup in Hth. specialize (Hth t x Hx). congruence. }
  destruct (inv_wclosed s Hi) as [?|[_ Heq]]; [by right|done|].
  destruct (inv_src s Hi) as [[e He]|Hsrc]; [congruence|]. rewrite Hr, (inv_eof s Hi Hr) in Hsrc. cbn in Hsrc.
  apply fmap_nil_inv, (f_equal length) in Hsrc. rewrite length_drop in Hsrc. cbn in Hsrc.
  apply take_ge. unfold expected. rewrite length_fmap, numbered_length. lia.
Qed.

(** ** The conversion never gets stuck *)
Definition can_step s : Prop := ∃ l s', l ≠ LCancel ∧ step c src_end l s = Some s'.

Lemma step_some l s s' : l ≠ LCancel → step c src_end l s = Some s' → can_step s.
Proof. by exists l, s'. Qed.

(** A thread with work or at the end of its channel moves on its own. *)
Lemma receiving_steps s t q : s_threads s !! t = Some (mkThread q Receiving) → q ≠ [] ∨ reader_done s → can_step s.
Proof.
  intros Hx Hq. destruct q as [|item q].
  - destruct Hq as [?|[r Hr]]; [done|]. eapply (step_some (LRecvClosed t)); [done|]. cbn. by rewrite Hr, Hx.
  - eapply (step_some (LRecv t)); [done|]. cbn. by rewrite Hx.
Qed.

Lemma cancelled_steps s : cancelled s = true →
  (∃ item, s_reader s = RSending item) ∨ (∃ t x, s_threads s !! t = Some x ∧ running x) ∨ s_writer s = Writing → can_step s.
Proof.
  intros Hc [[item Hr]|[(t & [q w] & Hx & Hrun)|Hw]].
  - eapply (step_some LReadStop); [done|]. cbn. by rewrite Hr, Hc.
  - eapply (step_some (LWorkStop t)); [done|]. cbn. rewrite Hx, Hc. destruct w as [| |r]; [done..|]. by destruct (Hrun r).
  - eapply (step_some LWriteStop); [done|]. cbn. by rewrite Hw, Hc.
Qed.

(** While some thread offers an item, the writer, or the context, moves on. *)
Lemma offering_steps s t q item : inv s → s_threads s !! t = Some (mkThread q (WSending item)) →
  reader_done s ∨ t = r_i s mod T → can_step s.
Proof.
  intros Hi Hx Hor. destruct (s_writer s) as [|r] eqn:Hw.
  - destruct (thread_at s (w_i s mod T) Hi (mod_thread _)) as [[q' w'] Hx']. destruct w' as [|item'|r].
    + destruct q' as [|i q']; [|by eapply receiving_steps; [done|left]].
      destruct Hor as [Hrd| ->]; [by eapply receiving_steps; [done|right]|]. exfalso.
      assert (w_i s = r_i s) as Heq by (eapply nothing_left; [done|done|by intros [? ?]|done]).
      rewrite Heq in Hx'. congruence.
    + eapply (step_some (LHandoff true)); [done|]. cbn. by rewrite Hw, Hx'.
    + eapply (step_some LWriteClosed); [done|]. cbn. by rewrite Hw, Hx'.
  - assert (running (mkThread q (WSending item))) as Hrun by (apply not_done_running; right; by eexists).
    assert (cancelled s = true) as Hc; [|apply cancelled_steps; [done|right; left; by do 2 eexists]].
    destruct r as [e|]; [apply (inv_cancel s Hi); right; right; by exists e|].
    destruct (inv_wclosed s Hi) as [?|[_ Heq]]; [by right|apply (inv_cancel s Hi); by left|].
    exfalso. destruct (inv_pending s Hi _ _ Hx) as [[? ?]|Hp]; [done|]. unfold window in Hp. by rewrite Heq, Nat.sub_diag in Hp.
Qed.

Lemma inv_progress s : inv s → all_done s ∨ can_step s.
Proof.
  intros Hi. destruct (s_reader s) as [|item|r] eqn:Hr.
  - right. destruct (src s) as [|h ms] eqn:Hs; (eapply (step_some LRead); [done|]; cbn; by rewrite Hr, Hs).
  - right. destruct (thread_at s (r_i s mod T) Hi (mod_thread _)) as [[q w] Hx].
    destruct (decide (length q < threadBuffer c)).
    { eapply (step_some LSend); [done|]. cbn. rewrite Hr, Hx. cbn [queue]. by rewrite decide_True. }
    destruct w as [|item'|[e|]].
    + destruct q as [|i q]; [|by eapply receiving_steps; [done|left]].
      eapply (step_some LDirect); [done|]. cbn. by rewrite Hr, Hx.
    + eapply offering_steps; [done|done|by right].
    + apply cancelled_steps; [|left; by eexists]. apply (inv_cancel s Hi). left. eexists (r_i s mod T), _. split; [exact Hx|by exists e].
    + destruct (inv_closed s Hi _ _ Hx eq_refl) as [_ [? ?]]. congruence.
  - destruct (decide (Exists (λ x, is_running x = true) (s_threads s))) as [Hex|Hall].
    + right. apply Exists_exists in Hex as (x & Hx & Hw). apply list_elem_of_lookup in Hx as [t Hx]. destruct x as [q [|item|r']]; [| |done].
      * eapply receiving_steps; [done|right; by exists r].
      * eapply offering_steps; [done|done|left; by exists r].
    + assert (Forall (λ x, ∃ r, work x = WDone r) (s_threads s)) as Hd.
      { apply not_Exists_Forall in Hall; [|intros x; apply _]. eapply Forall_impl; [exact Hall|].
        intros x Hx. unfold is_running in Hx. cbn in Hx. destruct (work x); [by destruct Hx..|by eexists]. }
      destruct (s_writer s) as [|rw] eqn:Hw; [right|left; split_and!; [by eexists|done|by eexists]].
      destruct (thread_at s (w_i s mod T) Hi (mod_thread _)) as [[q w] Hx]. rewrite Forall_lookup in Hd.
      destruct (Hd _ _ Hx) as [rr Hrr]. cbn in Hrr. subst w.
      eapply (step_some LWriteClosed); [done|]. cbn. by rewrite Hw, Hx.
Qed.

(** ** Every step is progress *)
Definition worker_weight (w : @worker H E) : nat := match w with Receiving => 1 | WSending _ => 2 | WDone _ => 0 end.
Definition thread_weight (x : @thread H E) : nat := 2 * length (queue x) + worker_weight (work x).
Fixpoint threads_weight (l : list (@thread H E)) : nat :=
  match l with [] => 0 | x :: l => thread_weight x + threads_weight l end.
Definition reader_weight (r : @reader H E) : nat := match r with Reading => 1 | RSending _ => 4 | RDone _ => 0 end.
Definition writer_weight (w : @writer E) (closed : nat) : nat := match w with Writing => S (T - closed) | WrDone _ => 0 end.
Definition weight s : nat :=
  4 * length (src s) + reader_weight (s_reader s) + threads_weight (s_threads s) +
  writer_weight (s_writer s) (closedChans s) + (if cancelled s then 0 else 1).

Lemma threads_weight_insert l t x x' : l !! t = Some x →
  threads_weight (<[t := x']> l) + thread_weight x = threads_weight l + thread_weight x'.
Proof.
  revert t. induction l as [|y l IH]; intros [|t] Hx; try done.
  - injection Hx as ->. cbn [insert list_insert threads_weight]. lia.
  - specialize (IH t Hx). change (<[S t := x']> (y :: l)) with (y :: <[t := x']> l). cbn [threads_weight]. lia.
Qed.

Lemma fails_weight (r : option (@go_error E)) b : (if fails r b then 0 else 1) <= (if b then 0 else 1).
Proof. by destruct r, b; cbn; lia. Qed.

Lemma write_item_weight item ok s : s_writer s = Writing → weight (write_item c item ok s) <= weight s.
Proof.
  intros Hw. unfold write_item, weight. rewrite Hw.
  destruct (convertErr item), (failOnConvertErrors c), ok; cbn; destruct (cancelled s); lia.
Qed.

Lemma step_weight l s s' : inv s → step c src_end l s = Some s' → weight s' < weight s.
Proof.
  intros Hi. destruct l as [| | | |t|t|t|ok| | |]; cbn [step]; intros Hs.
  - destruct (s_reader s) as [|item|r] eqn:Hr; try done. destruct (src s) as [|h ms] eqn:Hsrc; injection Hs as <-;
      unfold weight; cbn -[fails]; rewrite ?Hr, ?Hsrc; cbn -[fails]; [|lia].
    match goal with |- context [fails ?r ?b] => pose proof (fails_weight r b) end. lia.
  - destruct (s_reader s) as [|item|r] eqn:Hr; try done. destruct (s_threads s !! _) as [x|] eqn:Hx; [|done].
    case_decide; [|done]. injection Hs as <-. pose proof (threads_weight_insert _ _ _ (mkThread (queue x ++ [item]) (work x)) Hx) as Hi'.
    unfold weight, thread_weight in *. cbn in *. rewrite length_app in Hi'. cbn in Hi'. rewrite Hr. cbn. lia.
  - destruct (s_reader s) as [|item|r] eqn:Hr; try done. destruct (s_threads s !! _) as [[[|]  [| |]]|] eqn:Hx; try done.
    injection Hs as <-. pose proof (threads_weight_insert _ _ _ (mkThread [] (WSending (convert item))) Hx) as Hi'.
    unfold weight, thread_weight in *. cbn in *. rewrite Hr. cbn. lia.
  - destruct (s_reader s) as [|item|r] eqn:Hr; try done. destruct (cancelled s) eqn:Hc; [|done]. injection Hs as <-.
    unfold weight. cbn. rewrite Hr, Hc. cbn. lia.
  - destruct (s_threads s !! t) as [[[|item q]  [| |]]|] eqn:Hx; try done. injection Hs as <-.
    pose proof (threads_weight_insert _ _ _ (mkThread q (WSending (convert item))) Hx) as Hi'.
    unfold weight, thread_weight in *. cbn in *. lia.
  - destruct (s_reader s) as [|item|r] eqn:Hr; try done. destruct (s_threads s !! t) as [[[|]  [| |]]|] eqn:Hx; try done.
    injection Hs as <-. pose proof (threads_weight_insert _ _ _ (mkThread [] (WDone None)) Hx) as Hi'.
    unfold weight, thread_weight in *. cbn in *. rewrite Hr. lia.
  - destruct (s_threads s !! t) as [[q  w]|] eqn:Hx; [|done].
    pose proof (threads_weight_insert _ _ _ (mkThread q (WDone (Some CtxErr))) Hx) as Hi'.
    destruct w; try done; (destruct (cancelled s) eqn:Hc; [|done]; injection Hs as <-;
      unfold weight, thread_weight in *; cbn in *; rewrite Hc; lia).
  - destruct (s_writer s) eqn:Hw; [|done]. destruct (s_threads s !! _) as [[q [|item|]]|] eqn:Hx; try done.
    injection Hs as <-. eapply Nat.le_lt_trans; [by apply write_item_weight|].
    pose proof (threads_weight_insert _ _ _ (mkThread q Receiving) Hx) as Hi'.
    unfold weight, thread_weight in *. cbn in *. lia.
  - destruct (s_writer s) eqn:Hw; [|done]. destruct (s_threads s !! _) as [[q [| |r]]|] eqn:Hx; try done.
    injection Hs as <-. pose proof (inv_count s Hi Hw). unfold weight. cbn -[Nat.sub]. rewrite Hw.
    case_decide; cbn -[Nat.sub]; lia.
  - destruct (s_writer s) eqn:Hw; [|done]. destruct (cancelled s) eqn:Hc; [|done]. injection Hs as <-.
    unfold weight. cbn -[Nat.sub]. rewrite Hw, Hc. cbn -[Nat.sub]. lia.
  - destruct (cancelled s) eqn:Hc; [done|]. injection Hs as <-. unfold weight. cbn -[Nat.sub]. rewrite Hc. lia.
Qed.

Lemma steps_weight ls s s' : inv s → steps c src_end ls s = Some s' → length ls + weight s' <= weight s.
Proof.
  revert s. induction ls as [|l ls IH]; intros s Hi Hr; cbn in Hr; [injection Hr as <-; cbn; lia|].
  apply bind_Some in Hr as (s1 & Hs & Hr). pose proof (step_weight _ _ _ Hi Hs).
  specialize (IH s1 (step_inv _ _ _ Hi Hs) Hr). cbn [length]. lia.
Qed.

Lemma init_weight : weight (Process_init c msgs) = 4 * length msgs + 2 * T + 3.
Proof.
  unfold weight, Process_init. cbn [src s_reader s_threads s_writer closedChans cancelled].
  assert (∀ n, threads_weight (replicate n (mkThread [] Receiving)) = n) as ->; [|cbn; lia].
  induction n as [|n IH]; [done|]. cbn in *. by rewrite IH.
Qed.

(** ** Without failures *)
Definition quiet (l : label) : Prop := l ≠ LCancel ∧ l ≠ LHandoff false.

Lemma quiet_step l s s' : src_end = None → failOnConvertErrors c = false → quiet l →
  cancelled s = false → step c src_end l s = Some s' → cancelled s' = false.
Proof.
  intros He Hf [Hl1 Hl2] Hc. destruct l as [| | | |t|t|t|ok| | |]; cbn [step]; intros Hs; try done.
  - destruct (s_reader s), (src s); try done; injection Hs as <-; cbn; try done. by rewrite He.
  - repeat case_match; try done; by injection Hs as <-.
  - repeat case_match; try done; by injection Hs as <-.
  - rewrite Hc in Hs. by destruct (s_reader s).
  - repeat case_match; try done; by injection Hs as <-.
  - repeat case_match; try done; by injection Hs as <-.
  - rewrite Hc in Hs. by repeat case_match.
  - destruct ok; [|done]. repeat case_match; try done; injection Hs as <-. unfold write_item. rewrite Hf.
    by case_match.
  - repeat case_match; try done; by injection Hs as <-.
  - rewrite Hc in Hs. by repeat case_match.
Qed.

Lemma quiet_steps ls s s' : src_end = None → failOnConvertErrors c = false → Forall quiet ls →
  cancelled s = false → steps c src_end ls s = Some s' → cancelled s' = false.
Proof.
  intros He Hf Hq. revert s. induction Hq as [|l ls Hl _ IH]; intros s Hc Hr; cbn in Hr; [by injection Hr as <-|].
  apply bind_Some in Hr as (s1 & Hs & Hr). eapply IH; [|done]. by eapply quiet_step.
Qed.

Lemma quiet_done s : inv s → cancelled s = false → all_done s → returned_nil s.
Proof.
  intros Hi Hc ([r Hr] & Hth & [w Hw]). pose proof (inv_cancel s Hi) as Hcan. rewrite Hc in Hcan.
  split_and!.
  - destruct r as [e|]; [|done]. by discriminate Hcan; right; left; exists e.
  - apply Forall_lookup. intros t x Hx. rewrite Forall_lookup in Hth. destruct (Hth t x Hx) as [[e|] Hwk]; [|done].
    discriminate Hcan. left. exists t, x. split; [done|by exists e].
  - destruct w as [e|]; [|done]. by discriminate Hcan; right; right; exists e.
Qed.
End proofs.

(** C17: The records come out in the order they went in, whatever the interleaving of
    the threads and however the group ends; and when every goroutine returns
    without an error, all of them have come out: what is written, and what is
    reported as not convertible, is the sequence of the records of the input.
    [runWrite] counts the closed channel of one thread as many times as there are
    threads; it is enough that that one is closed. *)
Theorem converter_in_order {H E} `{!Strategy H E} c src_end (msgs : list H) ls s :
  0 < threads c → steps c src_end ls (Process_init c msgs) = Some s →
  s_log s `prefix_of` expected msgs ∧ (returned_nil s → s_log s = expected msgs).
Proof.
  intros Hpos Hr. assert (inv c msgs s) as Hi by (eapply steps_inv; [done| |done]; by apply process_init_inv).
  split; [by eapply inv_order|by eapply inv_complete].
Qed.

(** A strategy whose records are numbers: odd ones do not decode. *)
Module Numbers.
#[export] Instance strategy : Strategy nat unit :=
  {| Decode h := (if Nat.odd h then Some tt else None, h); Encode h := (None, h * 10) |}.
Definition conf : conf := mkConf 2 1 false.
Definition schedule : list label :=
  [LRead; LSend; LRead; LRecv 0; LSend; LRead; LRecv 1; LSend; LHandoff true; LHandoff true; LRead; LRecvClosed 1;
   LRecv 0; LHandoff true; LWriteClosed; LRecvClosed 0; LWriteClosed].
End Numbers.
#[export] Existing Instance Numbers.strategy.

Theorem converter_in_order_witness :
  ∃ s, steps (H := nat) Numbers.conf None Numbers.schedule (Process_init Numbers.conf [4; 7; 6]) = Some s ∧
    (s_log s `prefix_of` expected [4; 7; 6] ∧ (returned_nil s → s_log s = expected [4; 7; 6])) ∧
    s_log s = [Wrote 40; ErrLine 2 (DecodeError tt); Wrote 60] ∧ returned_nil s.
Proof.
  eexists. split; [vm_compute; reflexivity|]. split; [|split; [reflexivity|by repeat constructor]].
  apply (converter_in_order Numbers.conf None [4; 7; 6] Numbers.schedule); [vm_compute; lia|vm_compute; reflexivity].
Defined.

(** C18: The conversion always ends: every run is at most [4 n + 2 threads + 3] steps
    long, until every goroutine has returned some step other than a cancellation
    from outside is possible, and a run in which nothing fails ends with all of
    the output written. *)
Theorem converter_completes {H E} `{!Strategy H E} c src_end (msgs : list H) ls s :
  0 < threads c → steps c src_end ls (Process_init c msgs) = Some s →
  length ls <= 4 * length msgs + 2 * threads c + 3 ∧
  (all_done s ∨ ∃ l s', l ≠ LCancel ∧ step c src_end l s = Some s') ∧
  (src_end = None → failOnConvertErrors c = false → Forall quiet ls → all_done s → s_log s = expected msgs).
Proof.
  intros Hpos Hr. assert (inv c msgs s) as Hi by (eapply steps_inv; [done| |done]; by apply process_init_inv).
  split_and!.
  - pose proof (steps_weight c src_end msgs Hpos ls _ s (process_init_inv c msgs Hpos) Hr) as Hw.
    rewrite init_weight in Hw by done. lia.
  - by eapply inv_progress.
  - intros He Hf Hq Hd. eapply inv_complete; [done|done|]. eapply quiet_done; try done. exact (quiet_steps c src_end ls (Process_init c msgs) s He Hf Hq eq_refl Hr).
Qed.

Theorem converter_completes_witness :
  ∃ s, steps (H := nat) Numbers.conf None Numbers.schedule (Process_init Numbers.conf [4; 7; 6]) = Some s ∧
  length Numbers.schedule <= 19 ∧ (all_done s ∨ ∃ l s', l ≠ LCancel ∧ step Numbers.conf None l s = Some s').
Proof.
  eexists. split; [vm_compute; reflexivity|].
  destruct (converter_completes Numbers.conf None [4; 7; 6] Numbers.schedule _
    ltac:(vm_compute; lia) ltac:(vm_compute; reflexivity)) as (H1 & H2 & _). split; [exact H1|exact H2].
Defined.
