(* ===== verification/Convert.v ===== *)
(** * Convert: converting a file of requests

    Models src/formats/grpc/convert_strategy.go, the [Strategy] with which the
    converter rewrites a file of requests from one format into another, over the
    readers, writers, encoders and decoders of the other files. *)
From stdpp Require Import sorting.
From S2P Require Import Prelude RecordIO Escape JsonKV JsonRead Formats Pool Converter.

#[local] Open Scope Z_scope.

(** ** The strategy *)
Record DataHolder := mkHolder { data : Data; readBuf : bytes; writeBuf : bytes }.

(** [model.InputFormat] and [model.OutputFormat]: the decoder and the encoder, with
    what they leave of their arguments. *)
Record InputFormat (E : Type) := mkInput { in_Unmarshal : Data → bytes → Data * option E }.
Record OutputFormat (E : Type) := mkOutput { out_MarshalAppend : bytes → Data → (bytes * option E) * Data }.
Arguments mkInput {E} _.
Arguments in_Unmarshal {E} _ _ _.
Arguments mkOutput {E} _.
Arguments out_MarshalAppend {E} _ _ _.

Section strategy.
Context {E : Type} (inp : InputFormat E) (out : OutputFormat E).

(** [Decode] and [Encode]; [Encode] appends to the write buffer of the holder. *)
Definition cs_Decode (dh : DataHolder) : option E * DataHolder :=
  let '(d, err) := in_Unmarshal inp (data dh) (readBuf dh) in (err, mkHolder d (readBuf dh) (writeBuf dh)).
Definition cs_Encode (dh : DataHolder) : option E * DataHolder :=
  let '((b, err), d) := out_MarshalAppend out (writeBuf dh) (data dh) in (err, mkHolder d (readBuf dh) b).

Definition strategy : Strategy DataHolder E := {| Decode := cs_Decode; Encode := cs_Encode |}.

(** The pool of holders and the reader with its own pool of buffers. *)
Record cs_state := mkCs { cs_pool : list DataHolder; cs_reader : list bytes * Reader; cs_written : bytes }.

Definition new_holder : DataHolder := mkHolder (mkData [] [] [] []) [] [].

(** [Read]: a holder of the pool, or a new one, and the next record. *)
Definition cs_Read (read : bytes → RdM bytes) (s : cs_state) : outcome IOError DataHolder * cs_state :=
  let '(dh, pool) := slice_Acquire (cs_pool s) in
  let dh := default new_holder dh in
  match pooled_ReadNext read (cs_reader s) with
  | (Ret b, r) => (Ret (mkHolder (data dh) b (writeBuf dh)), mkCs pool r (cs_written s))
  | (Fail e, r) => (Fail e, mkCs pool r (cs_written s))
  | (Panic, r) => (Panic, mkCs pool r (cs_written s))
  | (Diverged, r) => (Diverged, mkCs pool r (cs_written s))
  end.

(** [Write]: the record to the output, the read buffer to its pool; the holder
    goes nowhere. *)
Definition cs_Write (write : bytes → bytes) (dh : DataHolder) (s : cs_state) : cs_state :=
  mkCs (cs_pool s) (pooled_Release (readBuf dh) (cs_reader s)) (cs_written s ++ write (writeBuf dh)).
End strategy.

(** ** Reading always starts from an empty holder

    Nothing puts a holder back, so the pool stays empty and the write buffer that
    [Encode] appends to is empty. *)
Lemma Read_fresh read s dh s' : cs_pool s = [] → cs_Read read s = (Ret dh, s') →
  data dh = mkData [] [] [] [] ∧ writeBuf dh = [] ∧ cs_pool s' = [].
Proof.
  intros Hp. unfold cs_Read. rewrite Hp. cbn [slice_Acquire last default].
  destruct (pooled_ReadNext read (cs_reader s)) as [[b|e| |] r]; try done. by intros [= <- <-].
Qed.

Lemma Write_pool write dh s : cs_pool (cs_Write write dh s) = cs_pool s.
Proof. done. Qed.

Definition fresh (record : bytes) : DataHolder := mkHolder (mkData [] [] [] []) record [].

(** ** A whole file, in any formats

    The records the reader goroutine reads, and the bytes the writer goroutine
    writes: the converter's log, each holder through [WriteNext]. *)
Definition written {E} (write : bytes → bytes) (o : @out DataHolder E) : bytes :=
  match o with Wrote h => write (writeBuf h) | ErrLine _ _ => [] end.

Section any_file.
Context {E : Type} (inp : InputFormat E) (out : OutputFormat E) (WriteNext : bytes → bytes).

#[local] Instance any_strategy : Strategy DataHolder E := strategy inp out.

(** The record [r] of the input is converted to the record [o]. *)
Definition becomes (r o : bytes) : Prop :=
  ∃ h, convert (mkItem (fresh r) None) = mkItem h None ∧ writeBuf h = o.

Lemma becomes_by r d o d' : in_Unmarshal inp (mkData [] [] [] []) r = (d, None) →
  out_MarshalAppend out [] d = ((o, None), d') → becomes r o.
Proof.
  intros Hd He. unfold becomes, convert. cbn [Decode Encode any_strategy strategy message convertErr]. unfold cs_Decode.
  cbn [data readBuf fresh]. rewrite Hd. unfold cs_Encode. cbn [data readBuf writeBuf fresh]. rewrite He. cbn. by eexists.
Qed.

Lemma expected_written (ps : list (bytes * bytes)) : Forall (λ p, becomes p.1 p.2) ps →
  ∀ k, concat (written WriteNext <$> imap (λ i h, output (k + i) h) (fresh <$> ps.*1)) = concat (WriteNext <$> ps.*2).
Proof.
  induction 1 as [|[r o] ps (h & Hc & Hw) _ IH]; intros k; [done|]. cbn [fst snd fmap list_fmap imap concat] in *. f_equal.
  - unfold output. rewrite Hc. cbn [convertErr message written]. by rewrite Hw.
  - rewrite <-(IH (S k)). f_equal. f_equal. apply imap_ext. intros i x _. cbn. by rewrite Nat.add_succ_r.
Qed.

(** Whatever the interleaving, the output is the converted records in order. *)
Lemma file_written c (ps : list (bytes * bytes)) ls s : (0 < threads c)%nat → Forall (λ p, becomes p.1 p.2) ps →
  steps c None ls (Process_init c (fresh <$> ps.*1)) = Some s → returned_nil s →
  concat (written WriteNext <$> s_log s) = concat (WriteNext <$> ps.*2).
Proof.
  intros Hpos Hps Hr Hnil.
  assert (s_log s = expected (fresh <$> ps.*1)) as ->.
  { eapply (inv_complete c (fresh <$> ps.*1)); [done| |done]. eapply steps_inv; [done| |done]. by apply process_init_inv. }
  rewrite <-(expected_written ps Hps 0). f_equal. f_equal. unfold expected, numbered. by rewrite fmap_imap.
Qed.
End any_file.

(** ** The binary formats *)
Section binary.
Context {L E : Type} `{!JLexer L E}.

(** The loops of the decoder end ([unmarshal_terminates]), so the default is never
    taken. *)
Definition binary_input : InputFormat E := mkInput (λ d b, default (d, None) (Binary.Unmarshal (L := L) d b)).
Definition binary_output (sort : list Meta → list Meta) : OutputFormat E := mkOutput (λ b d,
  match Binary.MarshalAppend sort b d with Some (b, d) => ((b, None), d) | None => ((b, None), d) end).

Context `{!JLexerReads L E} (sort : list Meta → list Meta) `{!Sorter sort}.

(** The request a record of the output holds. *)
Definition resorted (ms : list Meta) : list Meta := sort (clean <$> ms).

Lemma convert_fresh d ms : newline ∉ Tag d → newline ∉ Method d → Forall meta_bytes ms →
  ∃ h, (convert (H := DataHolder) (Strategy0 := strategy binary_input (binary_output sort)) (mkItem (fresh (record_of d ms)) None)) = mkItem h None ∧
    writeBuf h = record_of d (resorted ms).
Proof.
  intros Ht Hm Hms. unfold convert. cbn [Decode Encode strategy message convertErr]. unfold cs_Decode, binary_input.
  cbn [in_Unmarshal data readBuf fresh]. rewrite binary_unmarshal_record by done. unfold cs_Encode, binary_output.
  cbn -[Binary.MarshalAppend record_of]. rewrite binary_marshal_text by done. cbn. eexists. split; [reflexivity|done].
Qed.
End binary.

(** ** A whole file of binary records *)
Definition input_ok (d : Data) (ms : list Meta) : Prop :=
  newline ∉ Tag d ∧ newline ∉ Method d ∧ Forall meta_bytes ms.

Section file.
Context {L E : Type} `{!JLexer L E, !JLexerReads L E} (sort : list Meta → list Meta) `{!Sorter sort}.

#[local] Instance binary_strategy : Strategy DataHolder E := strategy (binary_input (L := L)) (binary_output sort).

(** Converting a file of binary requests: when every goroutine has returned
    without an error, whatever the interleaving of the threads, the output is the
    file of the same requests in the same order, each with its metadata sorted;
    and that file is read back record by record. *)
Theorem converted_file c (rs : list (Data * list Meta)) ls s chunks :
  (0 < threads c)%nat → Forall (λ r, input_ok r.1 r.2) rs →
  Forall (λ r, zlen (record_of r.1 (resorted sort r.2)) < 2 ^ 63) rs →
  let msgs := (λ r, fresh (record_of r.1 r.2)) <$> rs in
  let outs := (λ r, record_of r.1 (resorted sort r.2)) <$> rs in
  steps c None ls (Process_init c msgs) = Some s → returned_nil s →
  concat chunks = concat (written RecordIO.Binary.WriteNext <$> s_log s) →
  concat chunks = RecordIO.Binary.WriteAll outs ∧
  (RecordIO.Binary.read_all (S (length outs)) (NewReader ((λ c, (c, false)) <$> chunks))).1 = Ret outs.
Proof.
  intros Hpos Hok Hlen msgs outs Hr Hnil Hch.
  assert (concat chunks = RecordIO.Binary.WriteAll outs) as Hw.
  { set (ps := (λ r, (record_of r.1 r.2, record_of r.1 (resorted sort r.2))) <$> rs).
    assert (msgs = fresh <$> ps.*1) as Hm by (unfold msgs, ps; by rewrite <-!list_fmap_compose).
    rewrite Hch. rewrite Hm in Hr. erewrite (file_written _ _ _ c ps); [|done| |exact Hr|done].
    - unfold RecordIO.Binary.WriteAll, outs, ps. by rewrite <-!list_fmap_compose.
    - unfold ps. apply Forall_fmap. eapply Forall_impl; [exact Hok|]. intros [d ms] (Ht & Hm' & Hms). unfold compose, becomes. by apply convert_fresh. }
  split; [done|].
  destruct (RecordIO.Binary.read_all_run outs (S (length outs)) (NewReader ((λ c, (c, false)) <$> chunks))) as [r' ->];
    [|lia|by apply Forall_fmap| |done].
  - unfold plain. cbn. apply Forall_fmap. by apply Forall_true.
  - unfold stream_of. cbn. by rewrite <-list_fmap_compose, list_fmap_id.
Qed.
End file.

Import Toy.

Definition example_strategy : Strategy DataHolder unit := strategy (binary_input (L := lexer)) (binary_output (merge_sort name_le)).
Definition example_schedule : list label := [LRead; LSend; LRecv 0; LHandoff true; LRead; LRecvClosed 0; LWriteClosed].

Theorem converted_file_witness :
  ∃ s, steps (Strategy0 := example_strategy) (mkConf 1 1 false) None example_schedule
      (Process_init (mkConf 1 1 false) [fresh (record_of example_data (Metadata example_data))]) = Some s ∧
    ∀ chunks, concat chunks = concat (written RecordIO.Binary.WriteNext <$> s_log s) →
      concat chunks = RecordIO.Binary.WriteAll [record_of example_data (resorted (merge_sort name_le) (Metadata example_data))] ∧
      (RecordIO.Binary.read_all 2 (NewReader ((λ c, (c, false)) <$> chunks))).1 =
        Ret [record_of example_data (resorted (merge_sort name_le) (Metadata example_data))].
Proof.
  eexists. split; [vm_compute; reflexivity|]. intros chunks.
  refine (converted_file (L := lexer) (merge_sort name_le) (mkConf 1 1 false) [(example_data, Metadata example_data)]
    example_schedule _ chunks _ _ _ _ _).
  - vm_compute. lia.
  - apply Forall_singleton. exact (bool_decide_unpack (line_ok example_data) ltac:(vm_compute; exact I)).
  - apply Forall_singleton. vm_compute. reflexivity.
  - vm_compute. reflexivity.
  - by repeat constructor.
Defined.
