(* ===== verification/Command.v ===== *)
(** * Command: the convert command

    Models src/cmd/framer/cmd_convert.go and the format constructors it picks from:
    ozon/json/format.go, ozon/binary/format.go and pandora/json/format.go; and the
    version that src/cmd/framer/main.go prints.  What the
    command line library, the file system, the gRPC connection and the fetchers
    answer are arguments. *)
From stdpp Require Import sorting.
From S2P Require Import Prelude RecordIO Escape JsonKV JsonRead Formats JsonRecord Converter Convert.

#[local] Open Scope Z_scope.

Inductive format := formatOzonJSON | formatOzonBinary | formatPandoraJSON.
#[export] Instance format_eq_dec : EqDecision format.
Proof. solve_decision. Defined.

Record ConvertCommand := mkCommand {
  Out : bytes;
  From : format; To : format;
  ReflectionAddr : bytes; ReflectionProto : list bytes; ReflectionImportPath : list bytes
}.

Inductive validate_error := SameFormat | ReflectionRequired.

Definition Validate (c : ConvertCommand) : option validate_error :=
  if decide (From c = To c) then Some SameFormat
  else
    let hasReflect := negb (bool_decide (ReflectionProto c = [])) || negb (bool_decide (ReflectionAddr c = [])) in
    if (negb (bool_decide (From c = formatOzonBinary)) || negb (bool_decide (To c = formatOzonBinary))) && negb hasReflect then
      Some ReflectionRequired
    else None.

(** ** The formats, with their readers and writers *)
Section formats.
Context {M PE L E : Type} `{!JLexer L E, !Json.JLexerRaw L} (sort : list Meta → list Meta).

(** The error of a format: the binary one fails on its metadata only. *)
Abbreviation cerr := (Json.JsonError E PE).

Record Input := mkIn { i_ReadNext : bytes → RdM bytes; i_format : InputFormat cerr }.
Record Output := mkOut { o_WriteNext : bytes → bytes; o_format : OutputFormat cerr }.

(** The line reader with the fuel its reads need. *)
Definition line_ReadNext (p : bytes) : RdM bytes := λ r, Lines.ReadNext (S (S (length (RecordIO.src r)))) p r.

(** The decoder leaves [d] half read when it fails; nobody looks at it then. *)
Definition json_input (DM : Json.DynamicMessages M PE) (mu : list Meta → bytes → option (list Meta * option E)) : InputFormat cerr :=
  mkInput (λ d b, match Json.Unmarshal (M := M) (L := L) mu d b with
                  | Some (inl d) => (d, None)
                  | Some (inr err) => (d, Some err)
                  | None => (d, None)
                  end).
Definition json_output (DM : Json.DynamicMessages M PE) : OutputFormat cerr :=
  mkOutput (λ b d, default ((b, None), d) (Json.MarshalAppend E sort b d)).

Definition lift_input (f : InputFormat E) : InputFormat cerr :=
  mkInput (λ d b, let '(d, err) := in_Unmarshal f d b in (d, Json.MetaError <$> err)).
Definition lift_output (f : OutputFormat E) : OutputFormat cerr :=
  mkOutput (λ b d, let '((b, err), d) := out_MarshalAppend f b d in ((b, Json.MetaError <$> err), d)).

Definition ozonBinary_NewInput : Input := mkIn (λ _, RecordIO.Binary.ReadNext) (lift_input (binary_input (L := L))).
Definition ozonBinary_NewOutput : Output := mkOut RecordIO.Binary.WriteNext (lift_output (binary_output sort)).
Definition ozonJson_NewInput (r8n : Json.DynamicMessages M PE) : Input := mkIn line_ReadNext (json_input r8n multi_UnmarshalAppend).
Definition ozonJson_NewOutput (r8n : Json.DynamicMessages M PE) : Output := mkOut Lines.WriteNext (json_output r8n).
Definition pandoraJson_NewInput (r8n : Json.DynamicMessages M PE) : Input := mkIn line_ReadNext (json_input r8n single_UnmarshalAppend).

Definition inputFormat (f : format) (r8n : Json.DynamicMessages M PE) : Input :=
  match f with
  | formatOzonBinary => ozonBinary_NewInput
  | formatOzonJSON => ozonJson_NewInput r8n
  | formatPandoraJSON => pandoraJson_NewInput r8n
  end.

(** [None]: [panic("assertion error")]. *)
Definition outputFormat (f : format) (r8n : Json.DynamicMessages M PE) : option Output :=
  match f with
  | formatOzonBinary => Some ozonBinary_NewOutput
  | formatOzonJSON => Some (ozonJson_NewOutput r8n)
  | formatPandoraJSON => None
  end.

(** ** Run

    The outside world: creating the file, dialling, and the two fetchers. *)
Record world (IOE : Type) := mkWorld {
  os_Create : bytes → option IOE;
  grpc_Dial : bytes → option IOE;
  remote_Fetch : bytes → Json.DynamicMessages M PE + IOE;
  local_Fetch : list bytes → list bytes → Json.DynamicMessages M PE + IOE
}.
Arguments os_Create {IOE}.
Arguments grpc_Dial {IOE}.
Arguments remote_Fetch {IOE}.
Arguments local_Fetch {IOE}.

Inductive run_error (IOE : Type) :=
| OutputCreation (e : IOE)
| CreateConn (e : IOE)
| RemoteFetching (e : IOE)
| LocalFetching (e : IOE).
Arguments OutputCreation {IOE}.
Arguments CreateConn {IOE}.
Arguments RemoteFetching {IOE}.
Arguments LocalFetching {IOE}.

(** What the processor is started with: standard output or a new file, and the
    formats. *)
Inductive out_file := Stdout | Created (name : bytes).
Record job := mkJob { j_out : out_file; j_input : Input; j_output : Output }.

Definition dash : bytes := str "-".

Definition open_out {IOE} (w : world IOE) (c : ConvertCommand) : out_file + run_error IOE :=
  if decide (Out c = dash) then inl Stdout
  else match os_Create w (Out c) with Some e => inr (OutputCreation e) | None => inl (Created (Out c)) end.

Definition fetch {IOE} (w : world IOE) (c : ConvertCommand) : Json.DynamicMessages M PE + run_error IOE :=
  if negb (bool_decide (ReflectionAddr c = [])) then
    match grpc_Dial w (ReflectionAddr c) with
    | Some e => inr (CreateConn e)
    | None => match remote_Fetch w (ReflectionAddr c) with inr e => inr (RemoteFetching e) | inl s => inl s end
    end
  else match local_Fetch w (ReflectionProto c) (ReflectionImportPath c) with inr e => inr (LocalFetching e) | inl s => inl s end.

Definition Run {IOE} (w : world IOE) (c : ConvertCommand) : outcome (run_error IOE) job :=
  match open_out w c with
  | inr e => Fail e
  | inl outF =>
      match fetch w c with
      | inr e => Fail e
      | inl r8n =>
          let inp := inputFormat (From c) r8n in
          match outputFormat (To c) r8n with
          | None => Panic
          | Some out => Ret (mkJob outF inp out)
          end
      end
  end.
End formats.

(** ** What a checked command does *)

(** A command passes exactly when the formats differ and descriptors can be had;
    that the formats are not both binary is already said by the first. *)
Theorem validate_passes c : Validate c = None ↔ From c ≠ To c ∧ (ReflectionProto c ≠ [] ∨ ReflectionAddr c ≠ []).
Proof.
  unfold Validate. destruct (decide (From c = To c)) as [He|Hne]; [naive_solver|].
  assert (negb (bool_decide (From c = formatOzonBinary)) || negb (bool_decide (To c = formatOzonBinary)) = true) as ->.
  { destruct (decide (From c = formatOzonBinary)) as [E|]; [|by rewrite bool_decide_eq_false_2].
    rewrite (bool_decide_eq_true_2 _ E), (bool_decide_eq_false_2 (To c = _)) by congruence. done. }
  destruct (decide (ReflectionProto c = [])) as [Hp|Hp]; [rewrite (bool_decide_eq_true_2 _ Hp)|rewrite (bool_decide_eq_false_2 _ Hp)];
    (destruct (decide (ReflectionAddr c = [])) as [Ha|Ha]; [rewrite (bool_decide_eq_true_2 _ Ha)|rewrite (bool_decide_eq_false_2 _ Ha)]);
    cbn [negb orb andb]; clear -Hp Ha Hne; intuition congruence.
Qed.

(** Records of a file, by a format's reader. *)
Fixpoint read_records (read : bytes → RdM bytes) (fuel : nat) : RdM (list bytes) :=
  match fuel with
  | O => gm_diverged
  | S fuel => λ r,
      match read [] r with
      | (Ret p, r) => (ps ← read_records read fuel; mret (p :: ps)) r
      | (Fail EOF, r) => (Ret [], r)
      | (Fail e, r) => (Fail e, r)
      | (Panic, r) => (Panic, r)
      | (Diverged, r) => (Diverged, r)
      end
  end.

Lemma read_records_binary fuel : ∀ r, read_records (λ _, RecordIO.Binary.ReadNext) fuel r = RecordIO.Binary.read_all fuel r.
Proof.
  induction fuel as [|fuel IH]; intros r; [done|]. cbn [read_records RecordIO.Binary.read_all].
  destruct (RecordIO.Binary.ReadNext r) as [[p|[]| |] r']; try done. unfold mbind, gm_bind. by rewrite IH.
Qed.

Lemma read_records_lines fuel : ∀ r, read_records line_ReadNext fuel r = Lines.read_all fuel r.
Proof.
  induction fuel as [|fuel IH]; intros r; [done|]. cbn [read_records Lines.read_all]. unfold line_ReadNext at 1.
  destruct (Lines.ReadNext _ [] r) as [[p|[]| |] r']; try done. unfold mbind, gm_bind. by rewrite IH.
Qed.

Section conversion.
Context {M PE L E : Type} `{!JLexer L E, !JLexerReads L E, !Json.JLexerRaw L, !JLexerFields L E}.
Context (sort : list Meta → list Meta) `{!Sorter sort} (DM : Json.DynamicMessages M PE).

(** A request that every format can carry: text in ASCII or UTF-8, lines without
    newlines, a message the protobuf library converts to [body] and back. *)
Record request_ok (d : Data) (m : M) (body : bytes) : Prop := {
  rq_tag : Forall is_byte (Tag d) ∧ newline ∉ Tag d ∧ sanitize (Tag d) = Tag d;
  rq_method : canonical (Method d) ∧ newline ∉ Method d;
  rq_meta : Forall meta_bytes (Metadata d) ∧ clean <$> Metadata d = Metadata d;
  rq_message : converts d m body (Message d)
}.

(** Its record in a format, with the metadata in the order [ms]. *)
Definition record_text (f : format) (d : Data) (m : M) (body : bytes) (ms : list Meta) : bytes :=
  match f with
  | formatOzonBinary => record_of d ms
  | formatOzonJSON => json_record d ms body
  | formatPandoraJSON => object_text (record_fields d m (json_fields ms) ms body)
  end.

Lemma input_reads f d m body : request_ok d m body →
  in_Unmarshal (i_format (inputFormat (L := L) f DM)) (mkData [] [] [] []) (record_text f d m body (Metadata d)) = (d, None).
Proof.
  intros [(Ht & Hn & Hs) (Hm & Hmn) (Hms & Hc) Hcv]. destruct f; cbn [inputFormat i_format record_text].
  - cbn [ozonJson_NewInput i_format in_Unmarshal json_input]. rewrite (json_record_object _ m).
    rewrite (unmarshal_record multi_UnmarshalAppend _ d m (json_groups (group (Metadata d))) (Metadata d) body (Message d)); try done.
    + rewrite Hs, Hc. by destruct d.
    + by apply groups_text, group_groups_ok.
    + intros buf. by apply multi_unmarshal_groups.
  - cbn [ozonBinary_NewInput i_format lift_input in_Unmarshal binary_input]. rewrite binary_unmarshal_record by done.
    cbn. rewrite Hc. by destruct d.
  - cbn [pandoraJson_NewInput i_format in_Unmarshal json_input].
    rewrite (unmarshal_record single_UnmarshalAppend _ d m (json_fields (Metadata d)) (Metadata d) body (Message d)); try done.
    + rewrite Hs, Hc. by destruct d.
    + by apply fields_text.
    + intros buf. by apply single_unmarshal_fields.
Qed.

Lemma output_writes f out d m body : request_ok d m body → outputFormat (E := E) sort f DM = Some out →
  ∃ d', out_MarshalAppend (o_format out) [] d = ((record_text f d m body (sort (Metadata d)), None), d').
Proof.
  intros [_ _ _ (Hg & _ & _ & m' & Hu & Hj & _)] Ho. destruct f; [| |done]; injection Ho as <-.
  - cbn [ozonJson_NewOutput o_format out_MarshalAppend json_output]. rewrite (json_marshal_text sort d m m' body) by done.
    cbn. by eexists.
  - cbn [ozonBinary_NewOutput o_format lift_output out_MarshalAppend binary_output]. rewrite binary_marshal_text by done.
    cbn. by eexists.
Qed.

(** A record fits its format's reader. *)
Definition write_as (f : format) : bytes → bytes := match f with formatOzonBinary => RecordIO.Binary.WriteNext | _ => Lines.WriteNext end.

Lemma safe_line l : Forall safe l → newline ∉ l.
Proof. intros Hl Hin. rewrite list.Forall_forall in Hl. destruct (Hl _ Hin) as [Hlt _]. by unfold newline in Hlt. Qed.

Lemma record_line f d m body ms : request_ok d m body → Forall meta_bytes ms → f ≠ formatOzonBinary → newline ∉ record_text f d m body ms.
Proof.
  intros [(Ht & _) (Hm & _) _ Hcv] Hms Hf. destruct f; [|done|]; cbn [record_text]; [by eapply json_record_line|].
  pose proof (canonical_call _ Hm) as [_ Hc]. destruct Hcv as (_ & _ & Hb & _).
  assert (∀ j : jfield M, newline ∉ jf_value j → newline ∉ jf_text j) as Hj.
  { intros j Hv. unfold jf_text. rewrite !not_elem_of_app. split_and!; [|by apply safe_line, str_safe|done].
    apply safe_line, lit_safe. by apply name_bytes. }
  unfold object_text, record_fields. cbn [fmap list_fmap commas]. rewrite !not_elem_of_app.
  split_and!; try (by apply safe_line, str_safe); apply Hj; cbn [jf_value]; try (by apply safe_line, lit_safe); [|done].
  apply safe_line. unfold json_fields. apply Forall_app. split; [by apply str_safe|]. apply Forall_app. split; [|by apply str_safe].
  apply commas_safe, Forall_fmap. eapply Forall_impl; [exact Hms|]. intros x [H1 H2]. unfold compose.
  apply Forall_app. split; [by apply lit_safe|]. apply Forall_app. split; [by apply str_safe|by apply lit_safe].
Qed.

Lemma reads_written f (records : list bytes) chunks : Forall (λ p, zlen p < 2 ^ 63) records →
  (f ≠ formatOzonBinary → Forall (λ p, newline ∉ p) records) → concat chunks = concat (write_as f <$> records) →
  (read_records (i_ReadNext (inputFormat (M := M) (PE := PE) (L := L) f DM)) (S (length records)) (NewReader ((λ c, (c, false)) <$> chunks))).1 = Ret records.
Proof.
  intros Hlen Hline Hc. set (r := NewReader _).
  assert (plain r) as Hp by (unfold plain; cbn; by apply Forall_fmap, Forall_true).
  assert (stream_of r = concat (write_as f <$> records)) as Hs
    by (unfold stream_of; cbn; by rewrite <-list_fmap_compose, list_fmap_id).
  destruct f; cbn [inputFormat i_ReadNext ozonJson_NewInput ozonBinary_NewInput pandoraJson_NewInput write_as] in *.
  - rewrite read_records_lines. destruct (Lines.read_lines_run records (S (length records)) r) as [r' ->]; try done; [lia|by apply Hline].
  - rewrite read_records_binary. destruct (RecordIO.Binary.read_all_run records (S (length records)) r) as [r' ->]; try done. lia.
  - rewrite read_records_lines. destruct (Lines.read_lines_run records (S (length records)) r) as [r' ->]; try done; [lia|by apply Hline].
Qed.
End conversion.

Section command.
Context {M PE L E IOE : Type} `{!JLexer L E, !JLexerReads L E, !Json.JLexerRaw L, !JLexerFields L E}.
Context (sort : list Meta → list Meta) `{!Sorter sort}.

(** A request, its empty message and the JSON text of its message. *)
Definition request : Type := Data * M * bytes.
Definition sorted (d : Data) : Data := mkData (Tag d) (Method d) (sort (Metadata d)) (Message d).
Definition in_record (f : format) (r : request) : bytes := let '(d, m, body) := r in record_text f d m body (Metadata d).
Definition out_record (f : format) (r : request) : bytes := let '(d, m, body) := r in record_text f d m body (sort (Metadata d)).
Definition ok (r8n : Json.DynamicMessages M PE) (r : request) : Prop := let '(d, m, body) := r in request_ok r8n d m body.

(** A file with these records, and reading it back in pieces. *)
Definition file_of (f : format) (records : list bytes) : bytes := concat (write_as f <$> records).
Definition reads_back (inp : @Input PE E) (f : format) (records : list bytes) : Prop := ∀ chunks, concat chunks = file_of f records →
  (read_records (i_ReadNext inp) (S (length records)) (NewReader ((λ c, (c, false)) <$> chunks))).1 = Ret records.

Lemma sorted_ok (r8n : Json.DynamicMessages M PE) d m body : request_ok r8n d m body → request_ok r8n (sorted d) m body.
Proof.
  intros [Ht Hm [Hms Hc] Hcv]. split; try done. unfold sorted. cbn [Metadata]. split; [by rewrite sort_perm|].
  assert (Forall (λ x, clean x = x) (Metadata d)) as Hall.
  { clear -Hc. revert Hc. generalize (Metadata d). intros l. induction l as [|x l IH]; intros Heq; [constructor|].
    injection Heq as H1 H2. constructor; [done|]. by apply IH. }
  assert (Forall (λ x, clean x = x) (sort (Metadata d))) as Hs by (by rewrite sort_perm).
  clear -Hs. induction Hs as [|x l Hx _ IH]; [done|]. cbn. by rewrite Hx, IH.
Qed.

Lemma in_sorted f d m body : record_text f (sorted d) m body (Metadata (sorted d)) = out_record f (d, m, body).
Proof. by destruct f. Qed.

Lemma records_line (r8n : Json.DynamicMessages M PE) f rs : Forall (ok r8n) rs → f ≠ formatOzonBinary →
  Forall (λ p, newline ∉ p) (in_record f <$> rs) ∧ Forall (λ p, newline ∉ p) (out_record f <$> rs).
Proof.
  intros Hall Hf. rewrite !Forall_fmap. split; (eapply Forall_impl; [exact Hall|]); intros [[d m] body] Hr; cbn in *;
    (eapply record_line; [exact Hr| |done]); destruct Hr as [_ _ [? _] _]; [done|by rewrite sort_perm].
Qed.

(** The output format writes as its reader reads. *)
Lemma output_write_as f (DM : Json.DynamicMessages M PE) out : outputFormat (E := E) sort f DM = Some out → o_WriteNext out = write_as f.
Proof. destruct f; intros [= <-]; done. Qed.


(** What else a run comes to: the first thing that fails ends it, and the assertion
    is hit only for an output format that the command line does not offer. *)
Theorem run_outcomes (w : @world M PE IOE) c :
  match Run (L := L) sort w c with
  | Ret j => open_out w c = inl (j_out j) ∧ ∃ r8n, fetch w c = inl r8n
  | Fail e => open_out w c = inr e ∨ (∃ f, open_out w c = inl f) ∧ fetch w c = inr e
  | Panic => To c = formatPandoraJSON ∧ (∃ f, open_out w c = inl f) ∧ ∃ r8n, fetch w c = inl r8n
  | Diverged => False
  end.
Proof.
  unfold Run. destruct (open_out w c) as [f|e]; [|by left]. destruct (fetch w c) as [r8n|e]; [|right; eauto].
  destruct (To c) eqn:Et; cbn; eauto.
Qed.
End command.

(** ** An example: a JSON file, framer's to binary *)
Import Toy ToyRaw ToyProto.

Definition example_command : ConvertCommand :=
  mkCommand dash formatOzonJSON formatOzonBinary [] [str "service.proto"] [].
Definition example_world : @world bytes unit unit := mkWorld unit (λ _, None) (λ _, None) (λ _, inr tt) (λ _ _, inl messages).
Definition example_requests : list (@request bytes) := [(example, [], example_body)].
Definition example_records : list bytes := in_record formatOzonJSON <$> example_requests.
Definition example_outs : list bytes := out_record (merge_sort name_le) formatOzonBinary <$> example_requests.

Lemma example_ok : Forall (ok messages) example_requests.
Proof.
  apply Forall_singleton. split.
  - split_and!; [by apply (bool_decide_unpack _)|apply (bool_decide_unpack _); by vm_compute|by vm_compute].
  - split; [apply example_canonical|apply (bool_decide_unpack _); by vm_compute].
  - split; [|by vm_compute]. repeat (apply Forall_cons; split; [split; by apply (bool_decide_unpack _)|]). by apply Forall_nil_2.
  - apply example_converts.
Qed.


(** The same evaluated, with a run of the processor that finishes. *)
Definition example_job_schedule : list label := [LRead; LSend; LRecv 0; LHandoff true; LRead; LRecvClosed 0; LWriteClosed].

Definition example_output : option bytes :=
  match Run (L := lexer) (E := unit) (merge_sort name_le) example_world example_command with
  | Ret j =>
      s ← steps (Strategy0 := strategy (i_format (j_input j)) (o_format (j_output j))) (mkConf 1 1 false) None example_job_schedule
        (Process_init (mkConf 1 1 false) (fresh <$> example_records));
      Some (concat (written (o_WriteNext (j_output j)) <$> s_log s))
  | _ => None
  end.

Example example_converted : example_output = Some (str "56" ++ [10] ++ str "/tag" ++ [10] ++ call ++ [10] ++
  str "{" ++ lit (str "a") ++ str ":[" ++ lit [10; 34] ++ str "]," ++ lit (str "b") ++ str ":[" ++ lit (str "x") ++ str "]}" ++ [10] ++
  str "hello" ++ [0; 10; 34] ++ [10]).
Proof. vm_compute. reflexivity. Qed.

(** A tag with a newline, which JSON can carry, does not survive the binary format:
    the rest of the tag is read as the method. *)
Definition newline_tag : Data := mkData (str "a" ++ [newline] ++ str "b") call [] [].

Definition reread : option (bytes * bytes) :=
  '(record, _) ← Binary.MarshalAppend (merge_sort name_le) [] newline_tag;
  '(d, _) ← Binary.Unmarshal (L := lexer) (E := unit) (mkData [] [] [] []) record;
  Some (Tag d, Method d).

Example tag_newline_shifts : reread = Some (str "a", str "b").
Proof. vm_compute. reflexivity. Qed.

(** ** The version *)
Definition unknownVersion : bytes := str "unknown".

Fixpoint vcs_revision (settings : list (bytes * bytes)) : option bytes :=
  match settings with
  | [] => None
  | (key, value) :: settings =>
      if decide (value = []) then vcs_revision settings
      else if decide (key = str "vcs.revision") then Some value
      else vcs_revision settings
  end.

(** [getVersion]: [version] is set at link time, [info] is what the build recorded. *)
Definition getVersion (version : bytes) (info : option (list (bytes * bytes))) : bytes :=
  if decide (version = unknownVersion) then
    match info with
    | None => version
    | Some settings => default version (vcs_revision settings)
    end
  else version.

(** Without a version from the linker it is the first revision recorded, if any,
    and never empty. *)
Theorem version_printed version info : version ≠ [] →
  getVersion version info ≠ [] ∧
  (version = unknownVersion → ∀ before value after, info = Some (before ++ (str "vcs.revision", value) :: after) → value ≠ [] →
    Forall (λ kv, kv.1 ≠ str "vcs.revision" ∨ kv.2 = []) before → getVersion version info = value).
Proof.
  intros Hv. assert (∀ settings v, vcs_revision settings = Some v → v ≠ []) as Hne.
  { induction settings as [|[k v] settings IH]; intros x; cbn; [done|]. destruct (decide (v = [])); [by apply IH|].
    destruct (decide _); [by intros [= <-]|by apply IH]. }
  unfold getVersion. split.
  - destruct (decide _); [|done]. destruct info as [settings|]; [|done]. destruct (vcs_revision settings) eqn:E; [by eapply Hne|done].
  - intros -> before value after -> Hval Hb. rewrite decide_True by done. enough (vcs_revision (before ++ (str "vcs.revision", value) :: after) = Some value) as -> by done.
    induction Hb as [|[k v] before Hkv _ IH]; cbn [app vcs_revision].
    + rewrite decide_False by done. by rewrite decide_True.
    + destruct (decide (v = [])); [done|]. destruct (decide (k = str "vcs.revision")); [|done]. by destruct Hkv.
Qed.
