(* ===== verification/Lru.v ===== *)
(** * Lru: interning strings

    Models src/utils/lru/lru.go: a cache of strings of bounded size, a map into a
    doubly linked list that is kept in order of use.  Decoders use it to share the
    strings of tags, methods and metadata. *)
From S2P Require Import Prelude.

#[local] Open Scope nat_scope.

(** The list elements have an identity, the key of the map's value. *)
Record LRU := mkLRU { maxSize : nat; items : gmap bytes nat; elems : list (nat * bytes); fresh_elem : nat }.

(** [New]; panics on a size below one. *)
Definition New (maxSize : nat) : option LRU :=
  if decide (maxSize < 1) then None else Some (mkLRU maxSize ∅ [] 0).

(** [container/list]: [MoveToFront], [Back] with [Remove], [PushFront]. *)
Definition MoveToFront (e : nat) (l : list (nat * bytes)) : list (nat * bytes) :=
  filter (λ p, p.1 = e) l ++ filter (λ p, p.1 ≠ e) l.
Definition value_of (e : nat) (l : list (nat * bytes)) : option bytes := snd <$> head (filter (λ p, p.1 = e) l).

(** [GetOrAdd]; [None]: a nil element. *)
Definition GetOrAdd (keyB : bytes) (l : LRU) : option (bytes * LRU) :=
  match items l !! keyB with
  | Some element =>
      v ← value_of element (elems l);
      Some (v, mkLRU (maxSize l) (items l) (MoveToFront element (elems l)) (fresh_elem l))
  | None =>
      '(m, es) ← (if decide (maxSize l <= size (items l)) then
        element ← last (elems l);
        Some (delete element.2 (items l), filter (λ p, p.1 ≠ element.1) (elems l))
      else Some (items l, elems l));
      Some (keyB, mkLRU (maxSize l) (<[keyB := fresh_elem l]> m) ((fresh_elem l, keyB) :: es) (S (fresh_elem l)))
  end.

Fixpoint GetOrAdds (ks : list bytes) (l : LRU) : option (list bytes * LRU) :=
  match ks with
  | [] => Some ([], l)
  | k :: ks => '(s, l) ← GetOrAdd k l; '(ss, l) ← GetOrAdds ks l; Some (s :: ss, l)
  end.

(** ** Specification: the strings used last, the last one first *)
Definition use (k : bytes) (r : list bytes) : list bytes := k :: filter (λ x, x ≠ k) r.
Definition recent (ks : list bytes) : list bytes := fold_left (λ r k, use k r) ks [].

Definition keys (l : LRU) : list bytes := (elems l).*2.

(** The map holds exactly the elements of the list. *)
Record lru_ok (l : LRU) : Prop := {
  ok_max : 0 < maxSize l;
  ok_keys : NoDup (keys l);
  ok_elems : NoDup (elems l).*1;
  ok_fresh : Forall (λ p, p.1 < fresh_elem l) (elems l);
  ok_items k e : items l !! k = Some e ↔ (e, k) ∈ elems l;
  ok_size : size (items l) = length (elems l)
}.

Lemma New_ok n : 0 < n → ∃ l, New n = Some l ∧ lru_ok l ∧ keys l = [] ∧ maxSize l = n.
Proof.
  intros Hn. unfold New. rewrite decide_False by lia. eexists. split; [reflexivity|].
  split; [|done]. split; cbn; try done; try by constructor.
  intros k e. rewrite lookup_empty. split; [done|]. intros H. by apply not_elem_of_nil in H.
Qed.

Section elements.
Implicit Types es : list (nat * bytes).

Lemma filter_others es e : e ∉ es.*1 → filter (λ p, p.1 = e) es = [] ∧ filter (λ p, p.1 ≠ e) es = es.
Proof.
  induction es as [|p es IH]; [done|]. intros [Hp Hes]%not_elem_of_cons. destruct (IH Hes) as [IH1 IH2].
  by rewrite filter_cons_False, filter_cons_True, IH1, IH2.
Qed.

(** One element with its neighbours. *)
Lemma split_elem es e k : NoDup es.*1 → (e, k) ∈ es →
  ∃ a b, es = a ++ (e, k) :: b ∧ filter (λ p, p.1 = e) es = [(e, k)] ∧ filter (λ p, p.1 ≠ e) es = a ++ b.
Proof.
  intros Hnd (a & b & ->)%list_elem_of_split. exists a, b. split; [done|].
  rewrite fmap_app, fmap_cons in Hnd. apply NoDup_app in Hnd as (_ & Hab & Hb). apply NoDup_cons in Hb as [Hb _]. cbn [fst] in *.
  destruct (filter_others a e) as [Ha1 Ha2]; [intros Ha; apply (Hab e Ha); by left|].
  destruct (filter_others b e Hb) as [Hb1 Hb2].
  rewrite !filter_app, filter_cons_True, filter_cons_False by naive_solver. by rewrite Ha1, Ha2, Hb1, Hb2.
Qed.
End elements.

(** The keys after a use. *)
Definition lru_spec (n : nat) (k : bytes) (ks : list bytes) : list bytes :=
  k :: if decide (k ∈ ks) then filter (λ x, x ≠ k) ks else if decide (n <= length ks) then take (length ks - 1) ks else ks.

Lemma filter_key (a b : list bytes) (k : bytes) : NoDup (a ++ k :: b) → filter (λ x, x ≠ k) (a ++ k :: b) = a ++ b.
Proof.
  intros Hnd. apply NoDup_app in Hnd as (_ & Hab & Hb). apply NoDup_cons in Hb as [Hb _].
  assert (Hid : ∀ l : list bytes, k ∉ l → filter (λ x, x ≠ k) l = l).
  { induction l as [|x l IH]; [done|]. intros Hx. rewrite filter_cons_True by set_solver. by rewrite IH by set_solver. }
  rewrite filter_app, filter_cons_False by naive_solver. rewrite !Hid; [done|done|]. intros Ha. apply (Hab k Ha). by left.
Qed.

Lemma GetOrAdd_spec l k : lru_ok l →
  ∃ l', GetOrAdd k l = Some (k, l') ∧ lru_ok l' ∧ keys l' = lru_spec (maxSize l) k (keys l) ∧ maxSize l' = maxSize l.
Proof.
  intros [Hmax Hk He Hf Hi Hs]. unfold GetOrAdd, lru_spec. destruct (items l !! k) as [e|] eqn:Hlk.
  - apply Hi in Hlk as Hin. destruct (split_elem (elems l) e k He Hin) as (a & b & Hab & H1 & H2).
    unfold value_of, MoveToFront. rewrite H1, H2. cbn. eexists. split; [reflexivity|].
    assert (Hperm : (e, k) :: a ++ b ≡ₚ elems l) by (rewrite Hab; apply Permutation_middle).
    unfold keys. cbn. rewrite decide_True by (apply (list_elem_of_fmap_2 snd) in Hin; exact Hin).
    split; [|split; [|done]].
    + split; cbn; try done.
      * unfold keys. cbn. change (k :: (a ++ b).*2) with (((e, k) :: a ++ b).*2). by rewrite Hperm.
      * change (e :: (a ++ b).*1) with (((e, k) :: a ++ b).*1). by rewrite Hperm.
      * by rewrite Hperm.
      * intros k' e'. by rewrite Hi, Hperm.
      * rewrite Hs, <-Hperm. done.
    + f_equal. unfold keys in Hk. rewrite Hab, fmap_app, fmap_cons in Hk. rewrite Hab, !fmap_app, fmap_cons. cbn [snd] in *. by rewrite filter_key.
  - assert (Hnk : k ∉ keys l).
    { intros ([e k'] & -> & Hin)%list_elem_of_fmap. apply Hi in Hin. cbn in *. congruence. }
    rewrite (decide_False (P := k ∈ keys l)) by done. 
    assert (length (keys l) = size (items l)) as Hlen by (unfold keys; by rewrite length_fmap, Hs). rewrite Hlen.
    assert (Hins : ∀ m es, NoDup es.*1 → NoDup es.*2 → Forall (λ p, p.1 < fresh_elem l) es → k ∉ es.*2 →
      (∀ k e, m !! k = Some e ↔ (e, k) ∈ es) → size m = length es →
      lru_ok (mkLRU (maxSize l) (<[k := fresh_elem l]> m) ((fresh_elem l, k) :: es) (S (fresh_elem l)))).
    { intros m es G1 G2 G3 G4 G5 G6. split; cbn; try done.
      - by apply NoDup_cons.
      - apply NoDup_cons. split; [|done]. intros (p & Hp & Hin)%list_elem_of_fmap. rewrite Forall_forall in G3.
        specialize (G3 p Hin). cbn in *. lia.
      - apply Forall_cons. split; [cbn; lia|]. eapply Forall_impl; [exact G3|]. cbn. lia.
      - intros k' e'. rewrite elem_of_cons. destruct (decide (k' = k)) as [->|Hne].
        + rewrite lookup_insert_eq. split; [intros [= ->]; by left|]. intros [[= ->]|Hin]; [done|].
          destruct G4. by apply (list_elem_of_fmap_2 snd) in Hin.
        + rewrite lookup_insert_ne by done. rewrite G5. naive_solver.
      - rewrite map_size_insert_None, G6; [done|]. destruct (m !! k) as [e|] eqn:E; [|done]. apply G5 in E.
        destruct G4. by apply (list_elem_of_fmap_2 snd) in E. }
    case_decide as Hd.
    + destruct (elems l) as [|p0 es0 _] eqn:Hel using rev_ind; [cbn in Hs; lia|].
      rewrite last_snoc. cbn [mbind option_bind]. destruct p0 as [e0 k0]. cbn [fst snd].
      unfold keys in Hk, Hnk. rewrite Hel in *. rewrite !fmap_app in *. cbn [fmap list_fmap fst snd] in *.
      apply NoDup_app in He as (He & He0 & _), Hk as (Hk & Hk0 & _).
      destruct (filter_others es0 e0) as [_ Hes]; [intros Hx; apply (He0 e0 Hx); by left|].
      rewrite filter_app, filter_cons_False, filter_nil, app_nil_r, Hes by naive_solver.
      eexists. split; [reflexivity|]. apply Forall_app in Hf as [Hf _].
      assert (Hi0 : items l !! k0 = Some e0) by (apply Hi, elem_of_app; right; by left).
      split; [|split; [|done]].
      * apply Hins; try done.
        -- set_solver.
        -- intros k' e'. destruct (decide (k' = k0)) as [->|Hne].
           ++ rewrite lookup_delete_eq. split; [done|]. intros Hin. destruct (Hk0 k0); [|by left].
              by apply (list_elem_of_fmap_2 snd) in Hin.
           ++ rewrite lookup_delete_ne by done. rewrite Hi, elem_of_app, list_elem_of_singleton. naive_solver.
        -- rewrite map_size_delete_Some by by eexists. rewrite Hs, length_app. cbn. lia.
      * unfold keys. cbn [elems fmap list_fmap snd]. f_equal. rewrite Hel, fmap_app, Hs, length_app. cbn [length].
        replace (length es0 + 1 - 1) with (length es0.*2) by (rewrite length_fmap; lia). by rewrite take_app_length.
    + eexists. split; [reflexivity|]. split; [by apply Hins|]. done.
Qed.

Lemma filter_absent (k : bytes) (l : list bytes) : k ∉ l → filter (λ x, x ≠ k) l = l.
Proof.
  induction l as [|x l IH]; [done|]. intros [Hx Hl]%not_elem_of_cons. rewrite filter_cons_True by done. by rewrite IH.
Qed.

Lemma lru_spec_recent n k r : 0 < n → NoDup r → lru_spec n k (take n r) = take n (use k r).
Proof.
  intros Hn Hr. unfold lru_spec, use. destruct n as [|n]; [lia|]. cbn [take]. f_equal. case_decide as Hin.
  - apply list_elem_of_split in Hin as (a & b & Hab).
    assert (r = a ++ k :: b ++ drop (S n) r) as Hrr by (rewrite <-(take_drop (S n) r) at 1; rewrite Hab, <-app_assoc; done).
    assert (length (a ++ k :: b) <= S n) as Hlen by (rewrite <-Hab, length_take; lia). rewrite length_app in Hlen. cbn in Hlen.
    assert (length (a ++ k :: b) = S n ∨ drop (S n) r = []) as Hcase.
    { rewrite <-Hab, length_take. destruct (decide (S n <= length r)); [left; lia|right; apply drop_ge; lia]. }
    rewrite Hab, filter_key by (rewrite Hrr, app_comm_cons, app_assoc in Hr; by apply NoDup_app in Hr as (? & _)).
    rewrite Hrr at 1. rewrite filter_key by (by rewrite <-Hrr). rewrite app_assoc.
    destruct Hcase as [Hl| ->]; [|rewrite app_nil_r; symmetry; apply take_ge; rewrite length_app; lia].
    rewrite length_app in Hl. cbn in Hl. symmetry. apply take_app_length'. rewrite length_app. lia.
  - rewrite length_take. case_decide as Hd.
    + rewrite Nat.min_l by lia. replace (S n - 1) with n by lia. rewrite take_take, Nat.min_l by lia.
      rewrite <-(take_drop (S n) r) at 2. rewrite filter_app, filter_absent by done.
      rewrite take_app_le by (rewrite length_take; lia). by rewrite take_take, Nat.min_l by lia.
    + rewrite take_ge in Hin by lia. rewrite filter_absent by done. rewrite !take_ge; [done|lia|lia].
Qed.

Lemma use_NoDup k r : NoDup r → NoDup (use k r).
Proof.
  intros Hr. unfold use. apply NoDup_cons. split; [|by apply NoDup_filter].
  intros [? _]%list_elem_of_filter. done.
Qed.

Lemma recent_NoDup ks : NoDup (recent ks).
Proof.
  unfold recent. induction ks as [|k ks IH] using rev_ind; [constructor|]. rewrite fold_left_app. by apply use_NoDup.
Qed.

Lemma GetOrAdds_spec ks l r : lru_ok l → NoDup r → keys l = take (maxSize l) r →
  ∃ l', GetOrAdds ks l = Some (ks, l') ∧ lru_ok l' ∧ maxSize l' = maxSize l ∧
    keys l' = take (maxSize l) (fold_left (λ r k, use k r) ks r).
Proof.
  revert l r. induction ks as [|k ks IH]; intros l r Hl Hr Hk; [by exists l|]. cbn [GetOrAdds fold_left].
  destruct (GetOrAdd_spec l k Hl) as (l1 & -> & Hl1 & Hk1 & Hm1). cbn [mbind option_bind].
  destruct (IH l1 (use k r) Hl1 (use_NoDup k r Hr)) as (l2 & -> & Hl2 & Hm2 & Hk2).
  { rewrite Hk1, Hm1, Hk. apply lru_spec_recent; [|done]. apply Hl. }
  exists l2. rewrite Hm2, Hk2, Hm1. done.
Qed.

(** C38: A cache of at least one string never fails and never changes a string: what it
    answers is the string asked for, and after any sequence of requests it holds
    exactly the [n] strings used last, in the order of their last use. *)
Theorem lru_interns n ks : 0 < n →
  ∃ l l', New n = Some l ∧ GetOrAdds ks l = Some (ks, l') ∧ keys l' = take n (recent ks) ∧
    size (items l') <= n ∧ ∀ k, k ∈ take n (recent ks) ↔ is_Some (items l' !! k).
Proof.
  intros Hn. destruct (New_ok n Hn) as (l & -> & Hok & Hk & Hm). exists l.
  destruct (GetOrAdds_spec ks l [] Hok) as (l' & -> & Hok' & Hm' & Hk'); [constructor|by rewrite Hk, take_nil|].
  exists l'. rewrite Hm in Hk'. fold (recent ks) in Hk'. split_and!; try done.
  - rewrite (ok_size _ Hok'). replace (length (elems l')) with (length (keys l')) by apply length_fmap.
    rewrite Hk', length_take. lia.
  - intros k. rewrite <-Hk'. unfold keys. split.
    + intros ([e k'] & -> & Hin)%list_elem_of_fmap. exists e. by apply Hok'.
    + intros [e He]. apply (list_elem_of_fmap_2 snd _ (e, k)). by apply Hok'.
Qed.

Theorem lru_interns_witness :
  ∃ l l', New 2 = Some l ∧ GetOrAdds [[1]; [2]; [1]; [3]; [1]]%Z l = Some ([[1]; [2]; [1]; [3]; [1]]%Z, l') ∧
    keys l' = [[1]; [3]]%Z ∧ size (items l') <= 2 ∧ ∀ k, k ∈ [[1]; [3]]%Z ↔ is_Some (items l' !! k).
Proof. apply (lru_interns 2 [[1]; [2]; [1]; [3]; [1]]%Z). lia. Defined.
