(* ===== verification/Decoder.v ===== *)
(** * Decoder: requests for the load generator

    Models src/datasource/decoder: the decoder of binary records that the data
    sources use.  It is the binary decoder of [Formats] with every string passed
    through a cache of strings ([Lru]), so that equal tags, methods and metadata
    are one object. *)
From stdpp Require Import sorting.
From S2P Require Import Prelude RecordIO Escape JsonKV JsonRead Formats Lru Request.

#[local] Open Scope Z_scope.

(** [decoder.Meta] of what [model.Meta] holds. *)
Definition as_string (m : JsonKV.Meta) : Request.Meta := Request.mkMeta (JsonKV.Name m) (JsonKV.Value m).

Definition kLRUSize : nat := Z.to_nat (Z.shiftl 1 10).
Definition vLRUSize : nat := Z.to_nat (Z.shiftl 1 16).

Record SafeMultiValDecoder := mkSafe { kLRU : LRU; vLRU : LRU }.

Section safe.
Context {L E : Type} `{!JLexer L E}.

(** The loops of [SafeMultiValDecoder.UnmarshalAppend]: the cache of keys serves
    for the values, too. *)
Fixpoint safe_values_loop (fuel : nat) (key : bytes) (buf : list Request.Meta) (l : L) (k : LRU)
    : option (list Request.Meta * L * LRU) :=
  match fuel with
  | O => None
  | S fuel =>
      if IsDelim 93 l then Some (buf, l, k)
      else
        let '(v, l) := UnsafeBytes l in
        '(val, k) ← GetOrAdd v k;
        safe_values_loop fuel key (buf ++ [Request.mkMeta key val]) (WantComma l) k
  end.

Fixpoint safe_names_loop (fuel : nat) (buf : list Request.Meta) (l : L) (k : LRU)
    : option (list Request.Meta * L * LRU) :=
  match fuel with
  | O => None
  | S fuel =>
      if IsDelim 125 l then Some (buf, l, k)
      else
        let '(b, l) := UnsafeBytes l in
        '(key, k) ← GetOrAdd b k;
        '(buf, l, k) ← safe_values_loop (S (S fuel)) key buf (Delim 91 (WantColon l)) k;
        safe_names_loop fuel buf (WantComma (Delim 93 l)) k
  end.

Definition safe_UnmarshalAppend (d : SafeMultiValDecoder) (buf : list Request.Meta) (b : bytes)
    : option (list Request.Meta * option E * SafeMultiValDecoder) :=
  '(buf, l, k) ← safe_names_loop (S (S (length b))) buf (Delim 123 (lex_start b)) (kLRU d);
  Some (buf, lex_Error (Consumed (Delim 125 l)), mkSafe k (vLRU d)).

Record Decoder := mkDecoder { metaUnmarshaler : SafeMultiValDecoder; tagsLRU : LRU; methodsLRU : LRU }.

(** [NewSafeMultiValDecoder] and [NewDecoder]. *)
Definition NewSafeMultiValDecoder : option SafeMultiValDecoder :=
  k ← New kLRUSize; v ← New vLRUSize; Some (mkSafe k v).
Definition NewDecoder : option Decoder :=
  m ← NewSafeMultiValDecoder; t ← New 1024; h ← New 1024; Some (mkDecoder m t h).

Definition nextLine (inp : bytes) : bytes * bytes := default ([], []) (cut_byte newline inp).

(** [Decoder.Unmarshal] into a request. *)
Definition Unmarshal (dec : Decoder) (d : Request.Data) (b : bytes) : option (Request.Data * option E * Decoder) :=
  let d := Data_Reset d in
  let '(tagB, b) := nextLine b in
  '(tag, tags) ← GetOrAdd tagB (tagsLRU dec);
  let '(methodB, b) := nextLine b in
  '(method, methods) ← GetOrAdd methodB (methodsLRU dec);
  let '(metaBytes, b) := nextLine b in
  '(ms, err, m) ← safe_UnmarshalAppend (metaUnmarshaler dec) (d_Metadata d) metaBytes;
  let dec := mkDecoder m tags methods in
  match err with
  | Some e => Some (mkReqData tag method ms (d_Message d), Some e, dec)
  | None => Some (mkReqData tag method ms b, None, dec)
  end.

(** ** The caches are transparent *)
Record decoder_ok (dec : Decoder) : Prop := {
  dec_tags : lru_ok (tagsLRU dec);
  dec_methods : lru_ok (methodsLRU dec);
  dec_keys : lru_ok (kLRU (metaUnmarshaler dec))
}.

Lemma NewDecoder_ok : ∃ dec, NewDecoder = Some dec ∧ decoder_ok dec.
Proof.
  unfold NewDecoder, NewSafeMultiValDecoder.
  assert (Hs : (0 < kLRUSize ∧ 0 < vLRUSize ∧ 0 < 1024)%nat) by (unfold kLRUSize, vLRUSize; rewrite !Z.shiftl_mul_pow2; lia).
  destruct Hs as (H1 & H2 & H3).
  destruct (New_ok _ H1) as (k & -> & Hk & _), (New_ok _ H2) as (v & -> & Hv & _), (New_ok _ H3) as (t & -> & Ht & _).
  cbn [mbind option_bind]. eexists. split; [reflexivity|]. by split.
Qed.

Lemma safe_values_agree fuel : ∀ key buf l k, lru_ok k →
  match values_loop fuel key buf l with
  | Some (buf', l') => ∃ k', safe_values_loop fuel key (as_string <$> buf) l k = Some (as_string <$> buf', l', k') ∧ lru_ok k'
  | None => safe_values_loop fuel key (as_string <$> buf) l k = None
  end.
Proof.
  induction fuel as [|fuel IH]; intros key buf l k Hk; [done|]. cbn [values_loop safe_values_loop].
  destruct (IsDelim 93 l); [by exists k|]. destruct (UnsafeBytes l) as [v l1].
  destruct (GetOrAdd_spec k v Hk) as (k1 & -> & Hk1 & _). cbn [mbind option_bind].
  specialize (IH key (buf ++ [JsonKV.mkMeta key v]) (WantComma l1) k1 Hk1). by rewrite fmap_app in IH.
Qed.

Lemma safe_names_agree fuel : ∀ buf l k, lru_ok k →
  match multi_names_loop fuel buf l with
  | Some (buf', l') => ∃ k', safe_names_loop fuel (as_string <$> buf) l k = Some (as_string <$> buf', l', k') ∧ lru_ok k'
  | None => safe_names_loop fuel (as_string <$> buf) l k = None
  end.
Proof.
  induction fuel as [|fuel IH]; intros buf l k Hk; [done|]. cbn [multi_names_loop safe_names_loop].
  destruct (IsDelim 125 l); [by exists k|]. destruct (UnsafeBytes l) as [b l1].
  destruct (GetOrAdd_spec k b Hk) as (k1 & -> & Hk1 & _). cbn [mbind option_bind].
  pose proof (safe_values_agree (S (S fuel)) b buf (Delim 91 (WantColon l1)) k1 Hk1) as Hv.
  destruct (values_loop (S (S fuel)) b buf (Delim 91 (WantColon l1))) as [[buf' l']|]; [|by rewrite Hv].
  destruct Hv as (k2 & -> & Hk2). cbn [mbind option_bind]. by apply IH.
Qed.

(** What the decoder yields is what the decoder of the binary format yields. *)
Definition as_request (d : Formats.Data) : Request.Data :=
  mkReqData (Formats.Tag d) (Formats.Method d) (as_string <$> Formats.Metadata d) (Formats.Message d).

Lemma Unmarshal_agree dec d d0 b : decoder_ok dec →
  match Binary.Unmarshal (L := L) d0 b with
  | Some (r, err) => ∃ dec', Unmarshal dec d b = Some (as_request r, err, dec') ∧ decoder_ok dec'
  | None => Unmarshal dec d b = None
  end.
Proof.
  intros [Ht Hm Hk]. unfold Unmarshal, Binary.Unmarshal. unfold Binary.nextLine, nextLine.
  destruct (default ([], []) (cut_byte newline b)) as [tag b1].
  destruct (GetOrAdd_spec _ tag Ht) as (t1 & -> & Ht1 & _). cbn [mbind option_bind].
  destruct (default ([], []) (cut_byte newline b1)) as [method b2].
  destruct (GetOrAdd_spec _ method Hm) as (m1 & -> & Hm1 & _). cbn [mbind option_bind].
  destruct (default ([], []) (cut_byte newline b2)) as [meta b3].
  unfold multi_UnmarshalAppend, safe_UnmarshalAppend. cbn [Data_Reset Reset Metadata d_Metadata].
  pose proof (safe_names_agree (S (S (length meta))) [] (Delim 123 (lex_start meta)) _ Hk) as Hn.
  destruct (multi_names_loop (S (S (length meta))) [] (Delim 123 (lex_start meta))) as [[ms l]|]; cbn [mbind option_bind].
  - destruct Hn as (k1 & Hn & Hk1). rewrite fmap_nil in Hn. rewrite Hn. cbn [mbind option_bind].
    destruct (lex_Error (Consumed (Delim 125 l))); (eexists; split; [reflexivity|by split]).
  - rewrite fmap_nil in Hn. by rewrite Hn.
Qed.
End safe.


Import Toy.

