(* ===== verification/DataSource.v ===== *)
(** * DataSource: where requests come from

    Models src/datasource/file.go (requests read one by one, their buffers and
    request objects reused), src/datasource/inmem.go (all requests in memory,
    served in rotation) and src/datasource/cyclic-reader.go (a file read over and
    over). *)
From stdpp Require Import sorting.
From S2P Require Import Prelude RecordIO Escape JsonKV JsonRead Formats Lru Pool Request Decoder.

#[local] Open Scope Z_scope.

(** ** CyclicReader

    A file that can be rewound: the reads of the current pass, and those of the
    passes after each rewind.  A read may carry the end of the file with it. *)
Definition seeker : Type := list source.

(** [Read]: at the end of the file the reader rewinds, and reports no end. *)
Definition cyclic_Read (rs : seeker) : bytes * seeker :=
  match rs with
  | [] => ([], [])
  | [] :: passes => ([], passes)
  | ((b, true) :: _) :: passes => (b, passes)
  | ((b, false) :: pass) :: passes => (b, pass :: passes)
  end.

(** What its client reads in [n] calls. *)
Fixpoint cyclic_reads (n : nat) (rs : seeker) : source :=
  match n with O => [] | S n => let '(b, rs) := cyclic_Read rs in (b, false) :: cyclic_reads n rs end.

(** The bytes of a pass: what comes before the end of the file, or with it. *)
Fixpoint pass_bytes (p : source) : bytes :=
  match p with [] => [] | (b, true) :: _ => b | (b, false) :: p => b ++ pass_bytes p end.

Fixpoint calls (rs : seeker) : nat := match rs with [] => O | p :: rs => (S (length p) + calls rs)%nat end.

Lemma cyclic_reads_plain n rs : Forall (λ c : bytes * bool, c.2 = false) (cyclic_reads n rs).
Proof.
  revert rs. induction n as [|n IH]; intros rs; [by apply Forall_nil_2|]. cbn [cyclic_reads].
  destruct (cyclic_Read rs). apply Forall_cons. by split.
Qed.

Lemma cyclic_reads_bytes rs n : (calls rs <= n)%nat → concat (cyclic_reads n rs).*1 = concat (pass_bytes <$> rs).
Proof.
  revert rs. induction n as [|n IH]; intros rs Hn.
  - destruct rs; [done|cbn in Hn; lia].
  - cbn [cyclic_reads]. destruct rs as [|[|[b [|]] p] rs]; cbn [cyclic_Read fmap list_fmap concat fst pass_bytes].
    + rewrite (IH []); [done|cbn; lia].
    + rewrite IH; [done|cbn in *; lia].
    + rewrite IH; [done|cbn in *; lia].
    + rewrite (IH (p :: rs)) by (cbn in *; lia). cbn [fmap list_fmap concat]. by rewrite app_assoc.
Qed.

(** A file of requests never runs dry: [k] passes over it yield its
    requests [k] times over, in order, the record that ends one pass and the one
    that begins the next kept apart, however each pass is cut. *)
Theorem cyclic_requests (ps : list bytes) (rs : seeker) n :
  Forall (λ p, zlen p < 2 ^ 63) ps → Forall (λ p, pass_bytes p = RecordIO.Binary.WriteAll ps) rs → (calls rs <= n)%nat →
  let qs := concat (replicate (length rs) ps) in
  (RecordIO.Binary.read_all (S (length qs)) (NewReader (cyclic_reads n rs))).1 = Ret qs.
Proof.
  intros Hl Hrs Hn qs.
  destruct (RecordIO.Binary.read_all_run qs (S (length qs)) (NewReader (cyclic_reads n rs))) as [r' ->]; [|lia| | |done].
  - apply cyclic_reads_plain.
  - subst qs. clear Hrs Hn. induction rs as [|r rs IH]; [by apply Forall_nil_2|]. cbn. by apply Forall_app.
  - unfold stream_of. cbn [NewReader unprocessed src app]. rewrite cyclic_reads_bytes by done. subst qs. clear Hn.
    induction Hrs as [|r rs Hr _ IH]; [done|]. cbn [fmap list_fmap concat length replicate]. rewrite Hr, IH.
    unfold RecordIO.Binary.WriteAll. by rewrite fmap_app, concat_app.
Qed.

Theorem cyclic_requests_witness :
  let pass1 := [([49; 10; 65], false); ([10; 48; 10; 10], true)] in
  let pass2 := [([49; 10], false); ([65; 10; 48], false); ([10; 10], false)] in
  (RecordIO.Binary.read_all 5 (NewReader (cyclic_reads 7 [pass1; pass2]))).1 = Ret [[65]; []; [65]; []].
Proof.
  refine (cyclic_requests [[65]; []] [[([49; 10; 65], false); ([10; 48; 10; 10], true)];
    [([49; 10], false); ([65; 10; 48], false); ([10; 10], false)]] 7 _ _ _).
  - repeat (apply Forall_cons; split; [reflexivity|]). apply Forall_nil_2.
  - repeat (apply Forall_cons; split; [reflexivity|]). apply Forall_nil_2.
  - cbn. lia.
Defined.

(** ** InmemDataSource *)
Section inmem.
Context {L E : Type} `{!JLexer L E}.

Inductive init_error := ReadError (e : IOError) | DecodeError (e : E) | Empty.

(** The loop of [Init]: every record read into a buffer of its own and decoded. *)
Fixpoint init_loop (fuel : nat) (dec : Decoder) (datas : list Request.Data) (r : Reader)
    : outcome init_error (list Request.Data) :=
  match fuel with
  | O => Diverged
  | S fuel =>
      match RecordIO.Binary.ReadNext r with
      | (Fail EOF, _) => Ret datas
      | (Fail e, _) => Fail (ReadError e)
      | (Ret b, r) =>
          match Unmarshal (L := L) dec (mkReqData [] [] [] []) b with
          | Some (_, Some e, _) => Fail (DecodeError e)
          | Some (data, None, dec) => init_loop fuel dec (datas ++ [data]) r
          | None => Diverged
          end
      | (Panic, _) => Panic
      | (Diverged, _) => Diverged
      end
  end.

Definition Init (fuel : nat) (dec : Decoder) (r : Reader) : outcome init_error (list Request.Data) :=
  match init_loop fuel dec [] r with
  | Ret [] => Fail Empty
  | o => o
  end.
End inmem.
Arguments init_error E : clear implicits.

(** [InmemDataSource] once filled: the counter of an [atomic.Int32], the requests,
    and the pool of adapters, each with the data it holds. *)
Record InmemDataSource := mkInmem { i : Z; datas : list Request.Data; mem_pool : list nat; adapters : list Request.Data }.

(** [int(ds.i.Add(1)) % len(ds.datas)]: the remainder of the language has the sign
    of the counter, and a negative index panics. *)
Definition next_data (ds : InmemDataSource) : option Request.Data :=
  let k := i32 (i ds + 1) in
  if decide (datas ds = []) then None
  else let r := Z.rem k (zlen (datas ds)) in if decide (r < 0) then None else datas ds !! Z.to_nat r.

(** [Fetch]: the adapter, or [None] when it panics; the counter has moved on. *)
Definition mem_Fetch (ds : InmemDataSource) : option nat * InmemDataSource :=
  let '(r, pool) := slice_Acquire (mem_pool ds) in
  let '(r, adapters) := match r with
    | Some r => (r, adapters ds)
    | None => (length (adapters ds), adapters ds ++ [mkReqData [] [] [] []])
    end in
  let k := i32 (i ds + 1) in
  match next_data ds with
  | Some d => (Some r, mkInmem k (datas ds) pool (<[r := d]> adapters))
  | None => (None, mkInmem k (datas ds) pool adapters)
  end.
Definition mem_Release (r : nat) (ds : InmemDataSource) : InmemDataSource :=
  mkInmem (i ds) (datas ds) (slice_Release r (mem_pool ds)) (adapters ds).

Lemma next_data_small ds : 0 <= i ds < 2 ^ 31 - 1 → datas ds ≠ [] →
  next_data ds = datas ds !! Z.to_nat ((i ds + 1) mod zlen (datas ds)) ∧ is_Some (next_data ds).
Proof.
  intros Hi Hd. unfold next_data. rewrite decide_False by done. rewrite i32_id by lia.
  assert (0 < zlen (datas ds)) as Hpos by (destruct (datas ds); [done|rewrite zlen_cons; pose proof (zlen_nonneg l); lia]).
  rewrite Z.rem_mod_nonneg by lia. pose proof (Z.mod_pos_bound (i ds + 1) (zlen (datas ds)) Hpos).
  rewrite decide_False by lia. split; [done|]. apply lookup_lt_is_Some. unfold zlen in *. lia.
Qed.

(** The requests in memory are served in rotation, beginning with the second one:
    the fetch that makes the counter [k] gives the request numbered [k] modulo the
    number of requests.  After 2^31 fetches the 32-bit counter is negative, and
    with two requests or more, fetching panics. *)
Theorem inmem_rotates ds :
  (0 <= i ds < 2 ^ 31 - 1 → datas ds ≠ [] →
    ∃ r d, datas ds !! Z.to_nat ((i ds + 1) mod zlen (datas ds)) = Some d ∧
      (mem_Fetch ds).1 = Some r ∧ i (mem_Fetch ds).2 = i ds + 1 ∧ datas (mem_Fetch ds).2 = datas ds ∧
      (Forall (λ r, (r < length (adapters ds))%nat) (mem_pool ds) → adapters (mem_Fetch ds).2 !! r = Some d)) ∧
  (i ds = 2 ^ 31 - 1 → 1 < zlen (datas ds) →
    (mem_Fetch ds).1 = None ∨ (mem_Fetch (mem_Fetch ds).2).1 = None).
Proof.
  split.
  - intros Hi Hd. destruct (next_data_small ds Hi Hd) as [Hn [d Hs]]. rewrite Hn in Hs.
    unfold mem_Fetch. rewrite Hn, Hs.
    destruct (slice_Acquire_cases (mem_pool ds)) as [[Hp ->]|(v & k & Hp & ->)];
      (do 2 eexists; split_and!; [reflexivity..|apply i32_id; lia|reflexivity|]); intros Hall; cbn [adapters snd].
    + apply list_lookup_insert_eq. rewrite length_app. cbn. lia.
    + apply list_lookup_insert_eq. rewrite Hp in Hall. apply Forall_app in Hall as [_ Hall]. rewrite list.Forall_singleton in Hall. exact Hall.
  - intros Hi Hlen.
    assert (Hneg : ∀ ds', datas ds' = datas ds → i32 (i ds' + 1) < 0 → Z.rem (i32 (i ds' + 1)) (zlen (datas ds)) ≠ 0 →
      (mem_Fetch ds').1 = None).
    { intros ds' Hds Hlt Hrem. assert (next_data ds' = None) as Hnone.
      { unfold next_data. rewrite Hds. case_decide; [done|]. rewrite decide_True; [done|].
        pose proof (Z.rem_nonneg (- i32 (i ds' + 1)) (zlen (datas ds)) ltac:(lia) ltac:(lia)) as Hnn.
        rewrite Z.rem_opp_l in Hnn by lia. lia. }
      unfold mem_Fetch. destruct (slice_Acquire (mem_pool ds')) as [[]]; rewrite Hnone; done. }
    set (n := zlen (datas ds)) in *.
    destruct (decide (Z.rem (- 2 ^ 31) n = 0)) as [H0|H0].
    + right. apply Hneg.
      * unfold mem_Fetch. destruct (slice_Acquire (mem_pool ds)) as [[]]; by destruct (next_data ds).
      * assert (i (mem_Fetch ds).2 = - 2 ^ 31) as ->; [|done].
        unfold mem_Fetch. destruct (slice_Acquire (mem_pool ds)) as [[]]; destruct (next_data ds); cbn; by rewrite Hi.
      * assert (i (mem_Fetch ds).2 = - 2 ^ 31) as ->.
        { unfold mem_Fetch. destruct (slice_Acquire (mem_pool ds)) as [[]]; destruct (next_data ds); cbn; by rewrite Hi. }
        intros H1. change (i32 (- 2 ^ 31 + 1)) with (- 2 ^ 31 + 1) in H1.
        apply Z.rem_divide in H0, H1; try lia. assert ((n | 1)) as Hone; [|apply Z.divide_1_r in Hone; lia].
        replace 1 with ((- 2 ^ 31 + 1) - - 2 ^ 31) by lia. by apply Z.divide_sub_r.
    + left. apply Hneg; [done|by rewrite Hi|]. rewrite Hi. exact H0.
Qed.

Theorem inmem_rotates_witness :
  let d t := mkReqData [t] [] [] [] in
  let ds := mkInmem 0 [d 1; d 2; d 3] [] [] in
  ((mem_Fetch ds).1 = Some 0%nat ∧ adapters (mem_Fetch ds).2 !! 0%nat = Some (d 2)) ∧
  (let ds := mkInmem (2 ^ 31 - 1) [d 1; d 2; d 3] [] [] in
   (mem_Fetch ds).1 = None ∨ (mem_Fetch (mem_Fetch ds).2).1 = None).
Proof.
  split.
  - destruct (proj1 (inmem_rotates (mkInmem 0 [mkReqData [1] [] [] []; mkReqData [2] [] [] []; mkReqData [3] [] [] []] [] []))
      ltac:(split; [discriminate|reflexivity]) ltac:(discriminate)) as (r & d & Hd & Hr & _ & _ & Ha).
    cbn in Hd. injection Hd as <-. cbn in Hr. injection Hr as <-. split; [reflexivity|]. apply Ha. apply Forall_nil_2.
  - apply (proj2 (inmem_rotates (mkInmem (2 ^ 31 - 1) [mkReqData [1] [] [] []; mkReqData [2] [] [] []; mkReqData [3] [] [] []] [] [])));
      reflexivity.
Defined.
