(* ===== verification/FileSource.v ===== *)
(** * FileSource: requests read from a file, in reused buffers

    Models [FileDataSource] of src/datasource/file.go with the buffers behind its
    slices: the arrays that the binary reader fills are reused through a pool, and
    so are the request objects, and a request's message is a slice of its array. *)
From stdpp Require Import sorting.
From S2P Require Import Prelude RecordIO Escape JsonKV JsonRead Formats Lru Pool Request Decoder.

#[local] Open Scope Z_scope.

(** A [[]byte] that starts at the beginning of its array; [None]: no array. *)
Definition slice : Type := option nat * nat.
Definition contents (heap : list bytes) (b : slice) : bytes :=
  match b.1 with Some a => take b.2 (default [] (heap !! a)) | None => [] end.

Section files.
Context {L E : Type} `{!JLexer L E}.

(** The rounding of the runtime when [append] allocates: bytes of capacity beyond
    what is asked for. *)
Context (extra : nat → nat).

(** [ReadNext(b[:0])] of the binary reader puts the [size] bytes of a record into
    [b], or into a new array when they do not fit. *)
Definition fill_buf (p : bytes) (b : option nat) (heap : list bytes) : option nat * list bytes :=
  let cap := match b with Some a => length (default [] (heap !! a)) | None => O end in
  if decide (cap < length p)%nat then (Some (length heap), heap ++ [p ++ replicate (extra (length p)) 0])
  else (b, match b with Some a => <[a := p ++ drop (length p) (default [] (heap !! a))]> heap | None => heap end).

Record fileRequest := mkFileRequest { fr_bytes : slice; fr_data : Request.Data }.

(** The data source: the arrays, the pool of the reader, the reader, the pool of
    requests, the requests, the decoder. *)
Record FileDataSource := mkFile {
  heap : list bytes; bufs : list slice; reader_ : Reader;
  free : list nat; requests : list fileRequest; decoder_ : Decoder
}.

Definition NewFileDataSource (r : Reader) (dec : Decoder) : FileDataSource := mkFile [] [] r [] [] dec.

Definition empty_request : fileRequest := mkFileRequest (None, O) (mkReqData [] [] [] []).

(** A request of the pool, or a new one. *)
Definition acquire_request (ds : FileDataSource) : nat * list fileRequest * list nat :=
  match slice_Acquire (free ds) with
  | (Some r, free) => (r, requests ds, free)
  | (None, free) => (length (requests ds), requests ds ++ [empty_request], free)
  end.

(** [Fetch]: a request and the error of its decoding. *)
Definition Fetch (ds : FileDataSource) : outcome IOError (nat * option E) * FileDataSource :=
  let '(r, reqs, free) := acquire_request ds in
  let '(b, bufs) := slice_Acquire (bufs ds) in
  let data := fr_data (default empty_request (reqs !! r)) in
  match RecordIO.Binary.ReadNext (reader_ ds) with
  | (Ret p, rd) =>
      let '(a, heap) := fill_buf p (b ≫= fst) (heap ds) in
      match Unmarshal (L := L) (decoder_ ds) data p with
      | Some (d, err, dec) =>
          (Ret (r, err), mkFile heap bufs rd free (<[r := mkFileRequest (a, length p) d]> reqs) dec)
      | None => (Diverged, ds)
      end
  | (Fail e, rd) => (Fail e, mkFile (heap ds) bufs rd free (<[r := mkFileRequest (None, O) data]> reqs) (decoder_ ds))
  | (Panic, _) => (Panic, ds)
  | (Diverged, _) => (Diverged, ds)
  end.

(** [fileRequest.Release]. *)
Definition Release (r : nat) (ds : FileDataSource) : FileDataSource :=
  let req := default empty_request (requests ds !! r) in
  mkFile (heap ds) (slice_Release (fr_bytes req) (bufs ds)) (reader_ ds)
    (slice_Release r (free ds)) (requests ds) (decoder_ ds).

(** ** Use

    A client fetches requests and releases each at most once; [live]: the requests
    it holds, with the record each was fetched from. *)
Inductive ds_op := OFetch | ORelease (r : nat).

Definition ds_step (o : ds_op) (s : list bytes * FileDataSource * gmap nat bytes)
    : option (list bytes * FileDataSource * gmap nat bytes) :=
  let '(log, ds, live) := s in
  match o with
  | OFetch =>
      match Fetch ds with
      | (Ret (r, _), ds) =>
          let p := contents (heap ds) (fr_bytes (default empty_request (requests ds !! r))) in
          Some (log ++ [p], ds, <[r := p]> live)
      | _ => None
      end
  | ORelease r => if decide (is_Some (live !! r)) then Some (log, Release r ds, delete r live) else None
  end.

Fixpoint ds_run (os : list ds_op) (s : list bytes * FileDataSource * gmap nat bytes) :=
  match os with [] => Some s | o :: os => s ← ds_step o s; ds_run os s end.

(** ** Invariant *)
Definition array_of (ds : FileDataSource) (r : nat) : option nat := req ← requests ds !! r; (fr_bytes req).1.
Definition pooled_arrays (ds : FileDataSource) : list nat := omap fst (bufs ds).

(** What a request holds: the record, and what the record decodes to. *)
Definition holds (ds : FileDataSource) (r : nat) (p : bytes) : Prop :=
  ∃ req, requests ds !! r = Some req ∧ contents (heap ds) (fr_bytes req) = p ∧
    ∃ d err, Binary.Unmarshal (L := L) (mkData [] [] [] []) p = Some (d, err) ∧ fr_data req = as_request d.

Record ds_ok (ds : FileDataSource) (live : gmap nat bytes) : Prop := {
  ds_dec : decoder_ok (decoder_ ds);
  ds_free : NoDup (free ds);
  ds_free_dead r : r ∈ free ds → live !! r = None ∧ (r < length (requests ds))%nat;
  ds_holds r p : live !! r = Some p → holds ds r p;
  ds_pooled : NoDup (pooled_arrays ds);
  ds_arrays a : a ∈ pooled_arrays ds ∨ (∃ r, is_Some (live !! r) ∧ array_of ds r = Some a) → (a < length (heap ds))%nat;
  ds_excl r a : is_Some (live !! r) → array_of ds r = Some a → a ∉ pooled_arrays ds;
  ds_inj r1 r2 a : is_Some (live !! r1) → is_Some (live !! r2) → array_of ds r1 = Some a → array_of ds r2 = Some a → r1 = r2
}.

Lemma init_ok rd dec : decoder_ok dec → ds_ok (NewFileDataSource rd dec) ∅.
Proof.
  intros Hd. split; cbn.
  - done.
  - constructor.
  - by intros r ?%not_elem_of_nil.
  - intros r p. by rewrite lookup_empty.
  - constructor.
  - intros a [?%not_elem_of_nil|(r & [? H] & _)]; [done|by rewrite lookup_empty in H].
  - intros r a [? H]. by rewrite lookup_empty in H.
  - intros r1 r2 a [? H]. by rewrite lookup_empty in H.
Qed.

(** ** Filling a buffer *)
Lemma fill_buf_spec p b h : (∀ a, b = Some a → (a < length h)%nat) →
  ∃ a' h', fill_buf p b h = (a', h') ∧ contents h' (a', length p) = p ∧ (length h <= length h')%nat ∧
    (∀ x, (x < length h)%nat → b ≠ Some x → h' !! x = h !! x) ∧
    (∀ x, a' = Some x → (x < length h')%nat ∧ (b = Some x ∨ x = length h)).
Proof.
  intros Hb. unfold fill_buf, contents. case_decide as Hd.
  - do 2 eexists. split; [reflexivity|]. cbn. rewrite length_app. cbn. split_and!.
    + rewrite lookup_app_r, Nat.sub_diag by lia. cbn. by rewrite take_app_length.
    + lia.
    + intros x Hx _. by rewrite lookup_app_l.
    + intros x [= <-]. split; [lia|by right].
  - destruct b as [a|].
    + pose proof (Hb a eq_refl) as Ha. do 2 eexists. split; [reflexivity|]. cbn. rewrite length_insert. split_and!.
      * rewrite list_lookup_insert_eq by done. cbn. by rewrite take_app_length.
      * lia.
      * intros x Hx Hne. apply list_lookup_insert_ne. naive_solver.
      * intros x [= <-]. by split; [|left].
    + destruct p as [|c p]; [|cbn in Hd; lia]. do 2 eexists. by split; [reflexivity|].
Qed.

Lemma contents_same h h' (b : slice) : (∀ a, b.1 = Some a → h' !! a = h !! a) → contents h' b = contents h b.
Proof. unfold contents. destruct b as [[a|] n]; [|done]. cbn. intros H. by rewrite H. Qed.

(** The pools. *)
Lemma acquired_request ds live : ds_ok ds live →
  ∃ r reqs free', acquire_request ds = (r, reqs, free') ∧ live !! r = None ∧ (r < length reqs)%nat ∧ NoDup free' ∧ r ∉ free' ∧
    (length (requests ds) <= length reqs)%nat ∧
    (∀ x, x ∈ free' → x ∈ free ds) ∧ ∀ x, is_Some (live !! x) → reqs !! x = requests ds !! x ∧ x ≠ r.
Proof.
  intros Hok. unfold acquire_request. destruct (slice_Acquire_cases (free ds)) as [[Hf ->]|(v & k & Hf & ->)].
  - do 3 eexists. split; [reflexivity|]. rewrite length_app. cbn.
    assert (Hlt : ∀ x, is_Some (live !! x) → (x < length (requests ds))%nat).
    { intros x [p Hp]. destruct (ds_holds ds live Hok x p Hp) as (req & Hreq & _). by eapply lookup_lt_Some. }
    split_and!; try lia; [|constructor|apply not_elem_of_nil|by intros x ?%not_elem_of_nil|].
    + apply eq_None_not_Some. intros Hs. specialize (Hlt _ Hs). lia.
    + intros x Hx. specialize (Hlt x Hx). split; [by rewrite lookup_app_l|lia].
  - do 3 eexists. split; [reflexivity|]. pose proof (ds_free ds live Hok) as Hnd. rewrite Hf in Hnd.
    apply NoDup_app in Hnd as (Hk & Hv & _).
    destruct (ds_free_dead ds live Hok v) as [Hdead Hlt]; [rewrite Hf; apply elem_of_app; right; by apply list_elem_of_singleton|].
    split_and!; try done.
    + intros Hin. apply (Hv v Hin). by apply list_elem_of_singleton.
    + intros x Hx. rewrite Hf. apply elem_of_app. by left.
    + intros x [p Hp]. split; [done|]. intros ->. congruence.
Qed.

Lemma acquired_buffer ds live : ds_ok ds live →
  ∃ b bufs', slice_Acquire (bufs ds) = (b, bufs') ∧ NoDup (omap fst bufs') ∧
    (∀ a, a ∈ omap fst bufs' → a ∈ pooled_arrays ds) ∧
    (∀ a, b ≫= fst = Some a → a ∈ pooled_arrays ds ∧ a ∉ omap fst bufs').
Proof.
  intros Hok. pose proof (ds_pooled ds live Hok) as Hnd. unfold pooled_arrays in *.
  destruct (slice_Acquire_cases (bufs ds)) as [[Hf Heq]|([a n] & k & Hf & Heq)]; rewrite Heq.
  - exists None, []. split_and!; [done|constructor|by intros ? ?%not_elem_of_nil|done].
  - exists (Some (a, n)), k. rewrite Hf, omap_app in *. apply NoDup_app in Hnd as (Hk & Hv & _). split_and!; [done|done| |].
    + intros x Hx. apply elem_of_app. by left.
    + cbn. intros x ->. cbn in Hv. split; [apply elem_of_app; right; by apply list_elem_of_singleton|].
      intros Hin. apply (Hv x Hin). by apply list_elem_of_singleton.
Qed.

Context `{!JLexerLaws L E}.

Lemma Unmarshal_some dec d p : decoder_ok dec →
  ∃ m err dec', Binary.Unmarshal (L := L) (mkData [] [] [] []) p = Some (m, err) ∧
    Unmarshal dec d p = Some (as_request m, err, dec') ∧ decoder_ok dec'.
Proof.
  intros Hdec. pose proof (Unmarshal_agree dec d (mkData [] [] [] []) p Hdec) as Ha.
  assert (is_Some (Binary.Unmarshal (L := L) (mkData [] [] [] []) p)) as [[m err] Hs].
  { unfold Binary.Unmarshal. destruct (Binary.nextLine p) as [t b1], (Binary.nextLine b1) as [h b2], (Binary.nextLine b2) as [meta b3].
    destruct (unmarshal_terminates (L := L) (Metadata (Reset (mkData [] [] [] []))) meta) as [[[ms err] Hu] _]. rewrite Hu.
    cbn [mbind option_bind]. by destruct err. }
  rewrite Hs in Ha. destruct Ha as (dec' & Hu & Hok). by exists m, err, dec'.
Qed.

Lemma Fetch_ok ds live p ps : ds_ok ds live → plain (reader_ ds) →
  stream_of (reader_ ds) = RecordIO.Binary.WriteAll (p :: ps) → zlen p < 2 ^ 63 →
  ∃ r m err ds', Fetch ds = (Ret (r, err), ds') ∧ live !! r = None ∧ holds ds' r p ∧ ds_ok ds' (<[r := p]> live) ∧
    plain (reader_ ds') ∧ stream_of (reader_ ds') = RecordIO.Binary.WriteAll ps ∧
    Binary.Unmarshal (L := L) (mkData [] [] [] []) p = Some (m, err).
Proof.
  intros Hok Hpl Hst Hlen. unfold Fetch.
  destruct (acquired_request ds live Hok) as (r & reqs & fr & -> & Hrl & Hrlt & Hfnd & Hrf & Hle & Hfsub & Hreqs).
  destruct (acquired_buffer ds live Hok) as (b & bs & -> & Hbnd & Hbsub & Hb).
  destruct (RecordIO.Binary.ReadNext_run p (RecordIO.Binary.WriteAll ps) (reader_ ds) Hpl Hlen Hst) as (rd & -> & Hpl' & Hst').
  { destruct ps as [|q ps]; [done|]. intros c t Ec. destruct (RecordIO.Binary.WriteNext_head q) as (b' & t' & Hq & Hd).
    unfold RecordIO.Binary.WriteAll in Ec. cbn [fmap list_fmap concat] in Ec. rewrite Hq in Ec. injection Ec as <- _.
    unfold Decimal.is_digit in Hd. lia. }
  destruct (fill_buf_spec p (b ≫= fst) (heap ds)) as (a & h & -> & Hc & Hhl & Hother & Ha).
  { intros x Hx. apply (ds_arrays ds live Hok). left. by apply Hb. }
  destruct (Unmarshal_some (decoder_ ds) (fr_data (default empty_request (reqs !! r))) p (ds_dec ds live Hok))
    as (m & err & dec' & Hbu & -> & Hdec').
  set (ds' := mkFile h bs rd fr (<[r := mkFileRequest (a, length p) (as_request m)]> reqs) dec').
  assert (Hnew : requests ds' !! r = Some (mkFileRequest (a, length p) (as_request m))) by (by apply list_lookup_insert_eq).
  assert (Hlive : ∀ x, is_Some (live !! x) → requests ds' !! x = requests ds !! x).
  { intros x Hx. destruct (Hreqs x Hx) as [<- Hne]. cbn. apply list_lookup_insert_ne. congruence. }
  assert (Harr : ∀ x, is_Some (live !! x) → array_of ds' x = array_of ds x) by (intros x Hx; unfold array_of; by rewrite Hlive).
  assert (Hkeep : ∀ x y, is_Some (live !! x) → array_of ds x = Some y → h !! y = heap ds !! y).
  { intros x y Hx Hy. apply Hother; [apply (ds_arrays ds live Hok); right; by exists x|].
    intros Hby. apply Hb in Hby as [Hin _]. by apply (ds_excl ds live Hok x y). }
  assert (Hanew : ∀ x, a = Some x → (x < length h)%nat ∧ x ∉ omap fst bs ∧ ∀ y, is_Some (live !! y) → array_of ds y ≠ Some x).
  { intros x Hx. destruct (Ha x Hx) as [Hlt [Hbx| ->]]; (split; [done|]).
    - destruct (Hb x Hbx) as [Hp Hnp]. split; [done|]. intros y Hy Hyx. by apply (ds_excl ds live Hok y x).
    - split; [intros Hin%Hbsub|intros y Hy Hyx].
      + pose proof (ds_arrays ds live Hok (length (heap ds)) (or_introl Hin)). lia.
      + pose proof (ds_arrays ds live Hok (length (heap ds)) (or_intror (ex_intro _ y (conj Hy Hyx)))). lia. }
  assert (Hholds : holds ds' r p) by (eexists; split; [exact Hnew|]; split; [exact Hc|]; by exists m, err).
  exists r, m, err, ds'. split; [done|]. split; [done|]. split; [done|]. split; [|done].
  assert (Hins : ∀ x, is_Some (<[r := p]> live !! x) → x = r ∨ x ≠ r ∧ is_Some (live !! x)).
  { intros x Hx. destruct (decide (x = r)) as [->|Hne]; [by left|right]. by rewrite lookup_insert_ne in Hx. }
  assert (Hra : array_of ds' r = a) by (unfold array_of; by rewrite Hnew).
  split.
  - done.
  - done.
  - intros x Hx. assert (x ≠ r) by (by intros ->). rewrite lookup_insert_ne by done. cbn. rewrite length_insert.
    destruct (ds_free_dead ds live Hok x (Hfsub x Hx)). split; [done|lia].
  - intros x q Hq. destruct (decide (x = r)) as [->|Hne]; [rewrite lookup_insert_eq in Hq; by injection Hq as <-|].
    rewrite lookup_insert_ne in Hq by done. destruct (ds_holds ds live Hok x q Hq) as (req & Hreq & Hcq & Hm).
    exists req. rewrite Hlive by (by eexists). split; [done|]. split; [|done]. rewrite <-Hcq. apply contents_same.
    intros y Hy. apply (Hkeep x); [by eexists|]. unfold array_of. by rewrite Hreq.
  - done.
  - intros y [Hy|(x & Hx & Hy)]; cbn [heap ds'].
    + pose proof (ds_arrays ds live Hok y (or_introl (Hbsub y Hy))). lia.
    + destruct (Hins x Hx) as [->|[Hne Hx']]; [rewrite Hra in Hy; by apply Hanew|]. rewrite Harr in Hy by done.
      pose proof (ds_arrays ds live Hok y (or_intror (ex_intro _ x (conj Hx' Hy)))). lia.
  - intros x y Hx Hy. destruct (Hins x Hx) as [->|[Hne Hx']].
    + rewrite Hra in Hy. by destruct (Hanew y Hy) as (_ & ? & _).
    + rewrite Harr in Hy by done. intros Hin%Hbsub. by apply (ds_excl ds live Hok x y).
  - intros x1 x2 y Hx1 Hx2 Hy1 Hy2.
    destruct (Hins x1 Hx1) as [->|[Hne1 Hx1']], (Hins x2 Hx2) as [->|[Hne2 Hx2']]; [done| | |].
    + rewrite Hra in Hy1. rewrite Harr in Hy2 by done. destruct (Hanew y Hy1) as (_ & _ & Hex). by destruct (Hex x2 Hx2').
    + rewrite Hra in Hy2. rewrite Harr in Hy1 by done. destruct (Hanew y Hy2) as (_ & _ & Hex). by destruct (Hex x1 Hx1').
    + rewrite Harr in Hy1, Hy2 by done. by apply (ds_inj ds live Hok x1 x2 y).
Qed.

Lemma Release_ok ds live r : ds_ok ds live → is_Some (live !! r) → ds_ok (Release r ds) (delete r live).
Proof.
  intros Hok [p Hp]. destruct (ds_holds ds live Hok r p Hp) as (req & Hreq & _ & _).
  assert (Hps : pooled_arrays (Release r ds) = pooled_arrays ds ++ match (fr_bytes req).1 with Some a => [a] | None => [] end).
  { unfold pooled_arrays, Release. cbn. rewrite Hreq. cbn. unfold slice_Release. rewrite omap_app. cbn.
    by destruct (fr_bytes req) as [[a|] n]. }
  assert (Hr : array_of ds r = (fr_bytes req).1) by (unfold array_of; by rewrite Hreq).
  assert (Hdel : ∀ x q, delete r live !! x = Some q → x ≠ r ∧ live !! x = Some q) by (intros x q; rewrite lookup_delete_Some; naive_solver).
  split; cbn [decoder_ free requests heap Release].
  - by apply (ds_dec ds live).
  - apply NoDup_app. split; [by apply (ds_free ds live)|]. split; [|apply NoDup_singleton].
    intros x Hx ->%list_elem_of_singleton. destruct (ds_free_dead ds live Hok r Hx). congruence.
  - intros x [Hx| ->%list_elem_of_singleton]%elem_of_app.
    + destruct (ds_free_dead ds live Hok x Hx). split; [|done]. by rewrite lookup_delete_None; right.
    + split; [by apply lookup_delete_eq|by eapply lookup_lt_Some].
  - intros x q Hq. apply Hdel in Hq as [_ Hq]. exact (ds_holds ds live Hok x q Hq).
  - rewrite Hps. apply NoDup_app. split; [by apply (ds_pooled ds live)|]. split; [|destruct (fr_bytes req).1; [apply NoDup_singleton|constructor]].
    intros x Hx Hin. destruct (fr_bytes req).1 as [a|] eqn:Ea; [|by apply not_elem_of_nil in Hin].
    apply list_elem_of_singleton in Hin as ->. by apply (ds_excl ds live Hok r a).
  - rewrite Hps. intros a [Hin|(x & [q Hx] & Ha)].
    + apply elem_of_app in Hin as [Hin|Hin]; [apply (ds_arrays ds live Hok); by left|].
      destruct (fr_bytes req).1 as [a'|] eqn:Ea; [|by apply not_elem_of_nil in Hin]. apply list_elem_of_singleton in Hin as ->.
      apply (ds_arrays ds live Hok). right. exists r. by split; [eexists|].
    + apply (ds_arrays ds live Hok). right. exists x. apply Hdel in Hx as [_ Hx]. by split; [eexists|].
  - rewrite Hps. intros x a [q Hx] Ha Hin. apply Hdel in Hx as [Hne Hx]. apply elem_of_app in Hin as [Hin|Hin].
    + by apply (ds_excl ds live Hok x a); [eexists| |].
    + destruct (fr_bytes req).1 as [a'|] eqn:Ea; [|by apply not_elem_of_nil in Hin]. apply list_elem_of_singleton in Hin as ->.
      apply Hne. by apply (ds_inj ds live Hok x r a'); [eexists|eexists| |].
  - intros x1 x2 a [q1 H1] [q2 H2]. apply Hdel in H1 as [_ H1], H2 as [_ H2].
    by apply (ds_inj ds live Hok x1 x2 a); eexists.
Qed.

(** ** Runs *)
Definition run_ok (ps : list bytes) (s : list bytes * FileDataSource * gmap nat bytes) : Prop :=
  let '(log, ds, live) := s in
  ds_ok ds live ∧ plain (reader_ ds) ∧ ∃ rest, ps = log ++ rest ∧ stream_of (reader_ ds) = RecordIO.Binary.WriteAll rest.

Lemma step_fetch ps log ds live rest : Forall (λ p, zlen p < 2 ^ 63) ps → ps = log ++ rest →
  ds_ok ds live → plain (reader_ ds) → stream_of (reader_ ds) = RecordIO.Binary.WriteAll rest →
  match rest with
  | [] => ds_step OFetch (log, ds, live) = None
  | p :: _ => ∃ s, ds_step OFetch (log, ds, live) = Some s ∧ run_ok ps s
  end.
Proof.
  intros Hl -> Hok Hpl Hst. destruct rest as [|p rest].
  - unfold ds_step, Fetch. destruct (acquire_request ds) as [[r reqs] fr], (slice_Acquire (bufs ds)) as [b bs].
    by destruct (RecordIO.Binary.ReadNext_end (reader_ ds) Hpl Hst) as [rd ->].
  - apply Forall_app in Hl as [_ Hl]. apply Forall_cons in Hl as [Hl _].
    destruct (Fetch_ok ds live p rest Hok Hpl Hst Hl) as (r & m & err & ds' & Hf & Hd & Hh & Hok' & Hpl' & Hst' & _).
    unfold ds_step. rewrite Hf. destruct Hh as (req & Hreq & Hc & _). rewrite Hreq. change (default empty_request (Some req)) with req. rewrite Hc.
    eexists. split; [reflexivity|]. split; [done|]. split; [done|]. exists rest. by rewrite <-app_assoc.
Qed.

Lemma step_ok ps o s s' : Forall (λ p, zlen p < 2 ^ 63) ps → run_ok ps s → ds_step o s = Some s' → run_ok ps s'.
Proof.
  intros Hl. destruct s as [[log ds] live]. intros (Hok & Hpl & rest & Hps & Hst) Hs. destruct o as [|r].
  - pose proof (step_fetch ps log ds live rest Hl Hps Hok Hpl Hst) as Hf. destruct rest as [|p rest]; [congruence|].
    destruct Hf as (s1 & Hs1 & Hr). congruence.
  - cbn in Hs. case_decide; [|done]. injection Hs as <-. split; [by apply Release_ok|]. split; [done|]. by exists rest.
Qed.

Lemma run_run_ok ps os s s' : Forall (λ p, zlen p < 2 ^ 63) ps → run_ok ps s → ds_run os s = Some s' → run_ok ps s'.
Proof.
  intros Hl. revert s. induction os as [|o os IH]; intros s Hs Hr; cbn in Hr; [by injection Hr as <-|].
  apply bind_Some in Hr as (s1 & Hs1 & Hr). eapply IH; [|done]. by eapply step_ok.
Qed.

Lemma start_ok ps chunks dec : decoder_ok dec → concat chunks = RecordIO.Binary.WriteAll ps →
  run_ok ps ([], NewFileDataSource (NewReader ((λ c, (c, false)) <$> chunks)) dec, ∅).
Proof.
  intros Hdec Hc. split; [by apply init_ok|]. split.
  - unfold plain. cbn. apply Forall_fmap. by apply Forall_true.
  - exists ps. split; [done|]. unfold stream_of. cbn. by rewrite <-list_fmap_compose, list_fmap_id.
Qed.
End files.

(** The requests of a file are fetched in order, one record each, until the file
    ends.  However fetching and releasing interleave, as long as a client releases
    only requests it holds, a request it holds is its own: its buffer still holds
    the record it was fetched from, although buffers and request objects are reused,
    and it is what that record decodes to, so the message is intact until the
    request is released. *)
Theorem file_requests_isolated {L E} `{!JLexer L E, !JLexerLaws L E} extra dec (ps chunks : list bytes) os log ds live :
  decoder_ok dec → Forall (λ p, zlen p < 2 ^ 63) ps → concat chunks = RecordIO.Binary.WriteAll ps →
  ds_run (L := L) extra os ([], NewFileDataSource (NewReader ((λ c, (c, false)) <$> chunks)) dec, ∅) = Some (log, ds, live) →
  (∀ r p, live !! r = Some p → holds (L := L) ds r p) ∧
  ∃ rest, ps = log ++ rest ∧ (rest ≠ [] ↔ is_Some (ds_step (L := L) extra OFetch (log, ds, live))).
Proof.
  intros Hdec Hl Hc Hr.
  destruct (run_run_ok extra ps os _ _ Hl (start_ok ps chunks dec Hdec Hc) Hr) as (Hok & Hpl & rest & Hps & Hst).
  split; [apply Hok|]. exists rest. split; [done|].
  pose proof (step_fetch extra ps log ds live rest Hl Hps Hok Hpl Hst) as Hf. destruct rest as [|p rest].
  - rewrite Hf. split; [done|by intros [? ?]].
  - destruct Hf as (s & -> & _). by split; [eexists|].
Qed.

Import Toy.

Definition small_lru : LRU := mkLRU 4 ∅ [] 0.
Definition small_decoder : Decoder := mkDecoder (mkSafe small_lru small_lru) small_lru small_lru.

Lemma small_decoder_ok : decoder_ok small_decoder.
Proof.
  destruct (New_ok 4) as (l & Hl & Hok & _); [lia|]. cbn in Hl. injection Hl as <-. by split.
Qed.

Theorem file_requests_isolated_witness :
  let ps := [record_of example_data []; [10; 10; 10]; str "x"] in
  let start := ([], NewFileDataSource (NewReader [(RecordIO.Binary.WriteAll ps, false)]) small_decoder, ∅) in
  ∃ log ds live, ds_run (L := lexer) (λ _, 8%nat) [OFetch; ORelease 0; OFetch; OFetch] start = Some (log, ds, live) ∧
    log = ps ∧ ∀ r p, live !! r = Some p → holds (L := lexer) ds r p.
Proof.
  do 3 eexists. split; [vm_compute; reflexivity|]. split; [vm_compute; reflexivity|].
  refine (proj1 (file_requests_isolated (L := lexer) (λ _, 8%nat) small_decoder [record_of example_data []; [10; 10; 10]; str "x"]
      [RecordIO.Binary.WriteAll [record_of example_data []; [10; 10; 10]; str "x"]] [OFetch; ORelease 0; OFetch; OFetch] _ _ _
      small_decoder_ok _ eq_refl _)).
  - repeat (apply Forall_cons; split; [reflexivity|]). apply Forall_nil_2.
  - vm_compute. reflexivity.
Defined.
