(* ===== verification/Report.v ===== *)
(** * Report: what becomes of the results

    Models src/report: the supersimple and the simple reporter, which count the
    streams that went well, the reporter that forwards to several others, the one
    that does nothing, and the phout reporter ([Phout]).  A reporter hands out a
    stream state per stream and is called back on it ([Types.StreamState]). *)
From stdpp Require Import sorting.
From S2P Require Import Prelude Types Pool.

#[local] Open Scope Z_scope.

(** [types.LoaderReporter]: acquiring a state, and the calls on it; a state is
    named by its address. *)
Class LoaderReporter (R : Type) := {
  rep_Acquire : bytes → Z → R → nat * R;
  rep_Call : nat → StreamState → R → R
}.

(** ** A use of a reporter

    Streams are numbered in the order of their [Acquire]; the run keeps the state
    of each. *)
Inductive rep_op := RAcquire (tag : bytes) (streamID : Z) | RCall (k : nat) (c : StreamState).

Section runs.
Context {R : Type} `{!LoaderReporter R}.

Definition rep_step (o : rep_op) (s : R * list nat) : R * list nat :=
  match o with
  | RAcquire tag id => let '(a, r) := rep_Acquire tag id s.1 in (r, s.2 ++ [a])
  | RCall k c => match s.2 !! k with Some a => (rep_Call a c s.1, s.2) | None => s end
  end.
Definition rep_run (os : list rep_op) (s : R * list nat) : R * list nat := fold_left (λ s o, rep_step o s) os s.
End runs.

(** ** Counting reporters

    supersimple and simple keep the same counters, 32 bits wide for streams and 64
    for bytes, and a pool of states. *)
Section counting.
Context {S : Type}.

Record counters := mkCounters { ok : Z; nook : Z; req : Z; size : Z }.
Record Reporter := mkReporter { counts : counters; pool : list nat; states : list S }.

Definition New : Reporter := mkReporter (mkCounters 0 0 0 0) [] [].

Definition add_req (c : counters) : counters := mkCounters (ok c) (nook c) (u32 (req c + 1)) (size c).
Definition add_ok (c : counters) : counters := mkCounters (u32 (ok c + 1)) (nook c) (req c) (size c).
Definition add_nook (c : counters) : counters := mkCounters (ok c) (u32 (nook c + 1)) (req c) (size c).
Definition addSize (n : Z) (c : counters) : counters := mkCounters (ok c) (nook c) (req c) (u64 (size c + n)).

(** What differs: a fresh state, [reset], the calls, [result], and what [accept]
    counts. *)
Class Counting := { st_new : S; st_reset : S → S; st_call : StreamState → S → S; st_result : S → bool; st_accept : bool → counters → counters }.
Context `{!Counting}.

Definition count_Acquire (r : Reporter) : nat * Reporter :=
  match slice_Acquire (pool r) with
  | (Some a, p) => (a, mkReporter (add_req (counts r)) p (alter st_reset a (states r)))
  | (None, p) => (length (states r), mkReporter (add_req (counts r)) p (states r ++ [st_reset st_new]))
  end.

Definition count_Call (a : nat) (c : StreamState) (r : Reporter) : Reporter :=
  match c with
  | SetSize n => mkReporter (addSize n (counts r)) (pool r) (states r)
  | End_ =>
      match states r !! a with
      | Some s => mkReporter (st_accept (st_result s) (counts r)) (slice_Release a (pool r)) (states r)
      | None => r
      end
  | _ => mkReporter (counts r) (pool r) (alter (st_call c) a (states r))
  end.
End counting.
Arguments Reporter S : clear implicits.
Arguments Counting S : clear implicits.

#[export] Instance counting_reporter {S} `{!Counting S} : LoaderReporter (Reporter S) := {|
  rep_Acquire _ _ := count_Acquire; rep_Call := count_Call
|}.

(** *** report/supersimple: [noOk] *)
Module Supersimple.
(** [noOk], the state of a stream. *)
Definition call (c : StreamState) (noOk : bool) : bool :=
  match c with
  | OnHeader name value => if decide (name = str "grpc-status" ∧ value ≠ str "0") then true else noOk
  | RequestError | IoError | RSTStream _ | GoAway _ _ | Timeout => true
  | FirstByteSent | LastByteSent | SetSize _ | End_ => noOk
  end.
Definition result (noOk : bool) : bool := negb noOk.
Definition accept (ok : bool) (c : counters) : counters := if ok then add_ok c else add_nook c.

#[export] Instance counting : Counting bool :=
  {| st_new := false; st_reset _ := false; st_call := call; st_result := result; st_accept := accept |}.
End Supersimple.
#[export] Existing Instance Supersimple.counting.

(** *** report/simple *)
Module Simple.
Record streamState := mkState {
  timeouted : bool; grpcCodeStr : bytes; grpcMessageStr : bytes; code : Z; goAway : bool; ioErr : bool; requestErr : bool }.

(** [reset] leaves [goAway] and [requestErr]. *)
Definition reset (s : streamState) : streamState := mkState false [] [] 0 (goAway s) false (requestErr s).

Definition call (c : StreamState) (s : streamState) : streamState :=
  match c with
  | OnHeader name value =>
      if decide (name = str "grpc-status") then mkState (timeouted s) value (grpcMessageStr s) (code s) (goAway s) (ioErr s) (requestErr s)
      else if decide (name = str "grpc-message") then mkState (timeouted s) (grpcCodeStr s) value (code s) (goAway s) (ioErr s) (requestErr s)
      else s
  | RequestError => mkState (timeouted s) (grpcCodeStr s) (grpcMessageStr s) (code s) (goAway s) (ioErr s) true
  | IoError => mkState (timeouted s) (grpcCodeStr s) (grpcMessageStr s) (code s) (goAway s) true (requestErr s)
  | RSTStream c => mkState (timeouted s) (grpcCodeStr s) (grpcMessageStr s) c (goAway s) (ioErr s) (requestErr s)
  | GoAway _ _ => mkState (timeouted s) (grpcCodeStr s) (grpcMessageStr s) (code s) true (ioErr s) (requestErr s)
  | Timeout => mkState true (grpcCodeStr s) (grpcMessageStr s) (code s) (goAway s) (ioErr s) (requestErr s)
  | FirstByteSent | LastByteSent | SetSize _ | End_ => s
  end.

Definition result (s : streamState) : bool :=
  if timeouted s then false
  else if negb (code s =? 0) then false
  else if requestErr s then false
  else if ioErr s then false
  else if goAway s then false
  else bool_decide (grpcCodeStr s = str "0").

(** [accept] counts a good stream as [nook]. *)
Definition accept (ok : bool) (c : counters) : counters := if ok then add_nook c else add_ok c.

#[export] Instance counting : Counting streamState :=
  {| st_new := mkState false [] [] 0 false false false; st_reset := reset; st_call := call; st_result := result;
     st_accept := accept |}.
End Simple.
#[export] Existing Instance Simple.counting.

(** *** report/noop *)
Module Noop.
#[export] Instance reporter : LoaderReporter unit := {| rep_Acquire _ _ s := (0%nat, s); rep_Call _ _ s := s |}.
End Noop.

(** ** report/multi *)
Section multi.
Context {R : Type} `{!LoaderReporter R}.

(** [Multi]: the nested reporters, the pool of [multiState]s, to which nothing is
    ever released, and the [multiState]s. *)
Record Multi := mkMulti { nested : list R; multi_pool : list nat; multiStates : list (list nat) }.

Definition NewMutli (nested : list R) : Multi := mkMulti nested [] [].

(** What [multiState] calls on its states: [LastByteSent] calls [FirstByteSent]. *)
Definition forwarded (c : StreamState) : StreamState := match c with LastByteSent => FirstByteSent | c => c end.

Definition multi_Acquire (tag : bytes) (id : Z) (m : Multi) : nat * Multi :=
  let rs := rep_Acquire tag id <$> nested m in
  match slice_Acquire (multi_pool m) with
  | (Some a, p) => (a, mkMulti rs.*2 p (<[a := rs.*1]> (multiStates m)))
  | (None, p) => (length (multiStates m), mkMulti rs.*2 p (multiStates m ++ [rs.*1]))
  end.

Definition multi_Call (a : nat) (c : StreamState) (m : Multi) : Multi :=
  match multiStates m !! a with
  | Some ms => mkMulti (zip_with (λ a r, rep_Call a (forwarded c) r) ms (nested m)) (multi_pool m) (multiStates m)
  | None => m
  end.

#[export] Instance multi_reporter : LoaderReporter Multi := {| rep_Acquire := multi_Acquire; rep_Call := multi_Call |}.
End multi.
Arguments Multi R : clear implicits.

(** ** What the counters promise

    The calls each stream has seen, and whether it has ended; a client calls only
    on streams it has acquired and not ended. *)
Abbreviation history := (list StreamState * bool)%type.

Section counting_spec.
Context {S : Type} `{!Counting S} (verdict : list StreamState → bool).

Definition spec_step (o : rep_op) (s : list history * counters) : option (list history * counters) :=
  let '(hs, c) := s in
  match o with
  | RAcquire _ _ => Some (hs ++ [([], false)], add_req c)
  | RCall k call =>
      match hs !! k with
      | Some (h, false) =>
          match call with
          | End_ => Some (<[k := (h, true)]> hs, st_accept (verdict h) c)
          | SetSize n => Some (<[k := (h ++ [call], false)]> hs, addSize n c)
          | _ => Some (<[k := (h ++ [call], false)]> hs, c)
          end
      | _ => None
      end
  end.

Fixpoint spec_run (os : list rep_op) (s : list history * counters) : option (list history * counters) :=
  match os with [] => Some s | o :: os => s ← spec_step o s; spec_run os s end.

(** A fresh state and a reused one give the verdict that the calls since the
    [Acquire] deserve. *)
Class Faithful : Prop := {
  faithful_result s h : st_result (foldl (λ s c, st_call c s) (st_reset s) h) = verdict h;
  faithful_size s n : st_call (SetSize n) s = s
}.
Context `{!Faithful}.

Definition after (h : list StreamState) (s : S) : Prop := ∃ s0, s = foldl (λ s c, st_call c s) (st_reset s0) h.

Record count_inv (r : Reporter S) (handles : list nat) (hs : list history) (c : counters) : Prop := {
  ci_counts : counts r = c;
  ci_handles : length handles = length hs;
  ci_pool : NoDup (pool r);
  ci_bound a : a ∈ pool r → (a < length (states r))%nat;
  ci_live k h : hs !! k = Some (h, false) → ∃ a s, handles !! k = Some a ∧ states r !! a = Some s ∧ after h s ∧ a ∉ pool r;
  ci_inj k1 k2 h1 h2 : hs !! k1 = Some (h1, false) → hs !! k2 = Some (h2, false) → handles !! k1 = handles !! k2 → k1 = k2
}.

Lemma count_inv_New : count_inv New [] [] (mkCounters 0 0 0 0).
Proof. split; cbn; try done; [constructor|by intros a ?%not_elem_of_nil]. Qed.

Lemma acquire_inv r handles hs c : count_inv r handles hs c →
  count_inv (count_Acquire r).2 (handles ++ [(count_Acquire r).1]) (hs ++ [([], false)]) (add_req c).
Proof.
  intros [H1 H2 H3 H4 H5 H6]. unfold count_Acquire.
  assert (Hgen : ∀ a p ss, NoDup p → (∀ x, x ∈ p → x ∈ pool r) → a ∉ p → (∀ x, x ∈ p → (x < length ss)%nat) →
    (∃ s, ss !! a = Some s ∧ after [] s) →
    (∀ k h, hs !! k = Some (h, false) → ∃ x s, handles !! k = Some x ∧ ss !! x = Some s ∧ after h s ∧ x ∉ p ∧ x ≠ a) →
    count_inv (mkReporter (add_req (counts r)) p ss) (handles ++ [a]) (hs ++ [([], false)]) (add_req c)).
  { intros a p ss G1 G2 G3 G4 (s & G5 & G5') G6. split; cbn.
    - by rewrite H1.
    - rewrite !length_app, H2. done.
    - done.
    - done.
    - intros k h [Hk|[Hk Hh]]%lookup_app_Some.
      + destruct (G6 k h Hk) as (x & s' & Hx & Hs & Ha & Hp & _). exists x, s'. rewrite lookup_app_l by (by eapply lookup_lt_Some).
        by split_and!.
      + apply list_lookup_singleton_Some in Hh as [Hk0 [= <-]]. exists a, s. rewrite lookup_app_r by lia.
        replace (k - length handles)%nat with 0%nat by lia. by split_and!.
    - assert (Hnew : ∀ k1 h1, hs !! k1 = Some (h1, false) → (handles ++ [a]) !! k1 ≠ Some a).
      { intros k1 h1 Hk1 Heq. destruct (G6 k1 h1 Hk1) as (x & s' & Hx & _ & _ & _ & Hne).
        rewrite lookup_app_l in Heq by (by eapply lookup_lt_Some). congruence. }
      assert (Hlast : ∀ k, (length hs <= k)%nat → k = length hs → (handles ++ [a]) !! k = Some a).
      { intros k _ ->. rewrite lookup_app_r by lia. by rewrite H2, Nat.sub_diag. }
      intros k1 k2 h1 h2 [Hk1|[Hk1 Hh1]]%lookup_app_Some [Hk2|[Hk2 Hh2]]%lookup_app_Some Heq.
      + apply (H6 k1 k2 h1 h2 Hk1 Hk2). pose proof (lookup_lt_Some _ _ _ Hk1). pose proof (lookup_lt_Some _ _ _ Hk2).
        by rewrite !lookup_app_l in Heq by lia.
      + apply list_lookup_singleton_Some in Hh2 as [Hk0 _]. rewrite (Hlast k2) in Heq by lia. by destruct (Hnew k1 h1 Hk1).
      + apply list_lookup_singleton_Some in Hh1 as [Hk0 _]. rewrite (Hlast k1) in Heq by lia. symmetry in Heq. by destruct (Hnew k2 h2 Hk2).
      + apply list_lookup_singleton_Some in Hh1 as [? _], Hh2 as [? _]. lia. }
  destruct (slice_Acquire_cases (pool r)) as [[Hp ->]|(v & p & Hp & ->)]; cbn [fst snd]; apply Hgen.
  - constructor.
  - by intros ? ?%not_elem_of_nil.
  - apply not_elem_of_nil.
  - by intros ? ?%not_elem_of_nil.
  - eexists. rewrite lookup_app_r, Nat.sub_diag by lia. split; [reflexivity|by exists st_new].
  - intros k h Hk. destruct (H5 k h Hk) as (x & s & Hx & Hs & Ha & _). exists x, s. pose proof (lookup_lt_Some _ _ _ Hs).
    rewrite lookup_app_l by lia. split_and!; try done; [apply not_elem_of_nil|lia].
  - rewrite Hp in H3. by apply NoDup_app in H3 as (? & _).
  - intros x Hx. rewrite Hp. apply elem_of_app. by left.
  - rewrite Hp in H3. apply NoDup_app in H3 as (_ & Hv & _). intros Hin. apply (Hv v Hin). by apply list_elem_of_singleton.
  - intros x Hx. rewrite length_alter. apply H4. rewrite Hp. apply elem_of_app. by left.
  - destruct (lookup_lt_is_Some_2 (states r) v) as [s Hs]; [apply H4; rewrite Hp; apply elem_of_app; right; by apply list_elem_of_singleton|].
    exists (st_reset s). by rewrite list_lookup_alter_eq, Hs; split; [|exists s].
  - intros k h Hk. destruct (H5 k h Hk) as (x & s & Hx & Hs & Ha & Hnp). rewrite Hp in Hnp. exists x, s.
    assert (x ≠ v) by (intros ->; apply Hnp, elem_of_app; right; by apply list_elem_of_singleton).
    rewrite list_lookup_alter_ne by done. split_and!; try done. intros Hin. apply Hnp, elem_of_app. by left.
Qed.

Lemma insert_live {hs : list history} {k h h' k' g} : hs !! k = Some (h, false) →
  <[k := h']> hs !! k' = Some (g, false) → (k' = k ∧ h' = (g, false)) ∨ (k' ≠ k ∧ hs !! k' = Some (g, false)).
Proof.
  intros Hk Hg. destruct (decide (k' = k)) as [->|Hne].
  - left. rewrite list_lookup_insert_eq in Hg by (by eapply lookup_lt_Some). by injection Hg as ->.
  - right. by rewrite list_lookup_insert_ne in Hg.
Qed.

(** A call that only changes the state of its stream, and perhaps the bytes. *)
Lemma call_state_inv r handles hs c c' k h call a s s' : count_inv r handles hs c → hs !! k = Some (h, false) →
  handles !! k = Some a → states r !! a = Some s → after (h ++ [call]) s' → a ∉ pool r →
  count_inv (mkReporter c' (pool r) (<[a := s']> (states r))) handles (<[k := (h ++ [call], false)]> hs) c'.
Proof.
  intros [H1 H2 H3 H4 H5 H6] Hk Ha Hs Haf Hp. split; cbn.
  - done.
  - by rewrite length_insert.
  - done.
  - intros x Hx. rewrite length_insert. by apply H4.
  - intros k' g Hg. destruct (insert_live Hk Hg) as [[-> [= <-]]|[Hne Hg']].
    + exists a, s'. split; [done|]. by rewrite list_lookup_insert_eq by (by eapply lookup_lt_Some).
    + destruct (H5 k' g Hg') as (x & t & Hx & Ht & Hat & Hnp). exists x, t. split; [done|].
      rewrite list_lookup_insert_ne; [by split_and!|]. intros ->. apply Hne. apply (H6 k' k g h); [done|done|congruence].
  - intros k1 k2 h1 h2 Hk1 Hk2 Heq.
    destruct (insert_live Hk Hk1) as [[-> _]|[_ Hk1']], (insert_live Hk Hk2) as [[-> _]|[_ Hk2']]; [done| | |].
    + by apply (H6 k k2 h h2).
    + by apply (H6 k1 k h1 h).
    + by apply (H6 k1 k2 h1 h2).
Qed.

Lemma end_inv r handles hs c k h a s : count_inv r handles hs c → hs !! k = Some (h, false) →
  handles !! k = Some a → states r !! a = Some s → after h s → a ∉ pool r →
  count_inv (mkReporter (st_accept (st_result s) (counts r)) (slice_Release a (pool r)) (states r)) handles
    (<[k := (h, true)]> hs) (st_accept (verdict h) c).
Proof.
  intros [H1 H2 H3 H4 H5 H6] Hk Ha Hs [s0 Haf] Hp. subst s. rewrite faithful_result, H1.
  assert (Hold : ∀ k' g, <[k := (h, true)]> hs !! k' = Some (g, false) → k' ≠ k ∧ hs !! k' = Some (g, false)).
  { intros k' g Hg. by destruct (insert_live Hk Hg) as [[-> ?]|?]. }
  split; cbn.
  - done.
  - by rewrite length_insert.
  - apply NoDup_app. split; [done|]. split; [|apply NoDup_singleton]. by intros x Hx ->%list_elem_of_singleton.
  - intros x [Hx| ->%list_elem_of_singleton]%elem_of_app; [by apply H4|by eapply lookup_lt_Some].
  - intros k' g [Hne Hg]%Hold. destruct (H5 k' g Hg) as (x & t & Hx & Ht & Hat & Hnp). exists x, t. split_and!; try done.
    intros [Hin| ->%list_elem_of_singleton]%elem_of_app; [done|]. apply Hne. apply (H6 k' k g h); [done|done|congruence].
  - intros k1 k2 h1 h2 [_ Hk1]%Hold [_ Hk2]%Hold Heq. by apply (H6 k1 k2 h1 h2).
Qed.

Lemma spec_step_inv o r handles hs c hs' c' : count_inv r handles hs c → spec_step o (hs, c) = Some (hs', c') →
  count_inv (rep_step o (r, handles)).1 (rep_step o (r, handles)).2 hs' c'.
Proof.
  intros Hi Hs. destruct o as [tag id|k call]; cbn [spec_step] in Hs.
  - injection Hs as <- <-. cbn. pose proof (acquire_inv r handles hs c Hi) as Ha. by destruct (count_Acquire r) as [a r'].
  - destruct (hs !! k) as [[h [|]]|] eqn:Hk; try done.
    destruct (ci_live _ _ _ _ Hi k h Hk) as (a & s & Ha & Hst & Haf & Hp).
    pose proof (λ c' call s', call_state_inv r handles hs c c' k h call a s s' Hi Hk Ha Hst) as Hcall.
    cbn [rep_step fst snd]. rewrite Ha. cbn [fst snd rep_Call counting_reporter].
    assert (Hstep : ∀ call, after (h ++ [call]) (st_call call s)).
    { intros cl. destruct Haf as [s0 ->]. exists s0. by rewrite foldl_app. }
    assert (Hsame : ∀ call, alter (st_call call) a (states r) = <[a := st_call call s]> (states r)).
    { intros cl. apply list_eq. intros j. destruct (decide (a = j)) as [<-|Hne].
      - by rewrite list_lookup_alter_eq, list_lookup_insert_eq, Hst by (by eapply lookup_lt_Some).
      - by rewrite list_lookup_alter_ne, list_lookup_insert_ne. }
    unfold count_Call. destruct call; try (injection Hs as <- <-; rewrite ?Hsame, ?(ci_counts _ _ _ _ Hi); by apply Hcall).
    + injection Hs as <- <-. rewrite (ci_counts _ _ _ _ Hi). specialize (Hcall (addSize size0 c) (SetSize size0) (st_call (SetSize size0) s) (Hstep _) Hp).
      rewrite faithful_size in Hcall. by rewrite list_insert_id in Hcall.
    + rewrite Hst. injection Hs as <- <-. by apply end_inv.
Qed.

Lemma spec_run_inv os : ∀ r handles hs c hs' c', count_inv r handles hs c → spec_run os (hs, c) = Some (hs', c') →
  counts (rep_run os (r, handles)).1 = c'.
Proof.
  induction os as [|o os IH]; intros r handles hs c hs' c' Hi Hs; cbn [spec_run] in Hs.
  - injection Hs as <- <-. by apply (ci_counts _ _ _ _ Hi).
  - apply bind_Some in Hs as ([hs1 c1] & H1 & Hs). pose proof (spec_step_inv o r handles hs c hs1 c1 Hi H1) as Hi1.
    unfold rep_run. cbn [fold_left]. destruct (rep_step o (r, handles)) as [r1 handles1]. by eapply IH.
Qed.
End counting_spec.

(** ** supersimple *)
Definition bad (c : StreamState) : bool :=
  match c with
  | OnHeader name value => bool_decide (name = str "grpc-status" ∧ value ≠ str "0")
  | RequestError | IoError | RSTStream _ | GoAway _ _ | Timeout => true
  | _ => false
  end.
Definition supersimple_ok (h : list StreamState) : bool := negb (existsb bad h).

#[export] Instance supersimple_faithful : Faithful (S := bool) supersimple_ok.
Proof.
  split; [|done]. intros s h. cbn. unfold Supersimple.result, supersimple_ok. f_equal.
  assert (∀ b, foldl (λ s c, Supersimple.call c s) b h = b || existsb bad h) as H; [|by rewrite H].
  induction h as [|c h IH]; intros b; cbn [foldl existsb]; [by rewrite orb_false_r|]. rewrite IH.
  destruct c; cbn [Supersimple.call bad]; rewrite ?orb_true_r, ?orb_false_r; try done.
  case_decide as Hd; [by rewrite bool_decide_true, orb_true_r|by rewrite bool_decide_false].
Qed.

Definition sizes (h : list StreamState) : Z := zsum ((λ c, match c with SetSize n => n | _ => 0 end) <$> h).
Fixpoint total (f : history → Z) (hs : list history) : Z :=
  match hs with [] => 0 | h :: hs => f h + total f hs end.
Definition good1 (h : history) : Z := if h.2 && supersimple_ok h.1 then 1 else 0.
Definition failed1 (h : history) : Z := if h.2 && negb (supersimple_ok h.1) then 1 else 0.

(** What the counters of a run should show. *)
Definition tally (hs : list history) : counters :=
  mkCounters (u32 (total good1 hs)) (u32 (total failed1 hs)) (u32 (zlen hs)) (u64 (total (λ h, sizes h.1) hs)).

Lemma total_insert f (hs : list history) k h h' : hs !! k = Some h → total f (<[k := h']> hs) = total f hs - f h + f h'.
Proof.
  revert k. induction hs as [|g hs IH]; intros [|k] Hk; try done.
  - injection Hk as ->. cbn [insert list_insert total]. lia.
  - change (<[S k := h']> (g :: hs)) with (g :: <[k := h']> hs). cbn [total]. specialize (IH k Hk). lia.
Qed.

Lemma total_snoc f hs h : total f (hs ++ [h]) = total f hs + f h.
Proof. induction hs as [|g hs IH]; cbn [app total]; [lia|]. lia. Qed.

Lemma sizes_snoc h c : sizes (h ++ [c]) = sizes h + match c with SetSize n => n | _ => 0 end.
Proof. unfold sizes. rewrite fmap_app, zsum_app. cbn. lia. Qed.

Lemma u64_add_l a b : u64 (u64 a + b) = u64 (a + b).
Proof. unfold u64. apply Zplus_mod_idemp_l. Qed.

Lemma spec_tally o hs c' hs' : spec_step (S := bool) supersimple_ok o (hs, tally hs) = Some (hs', c') → c' = tally hs'.
Proof.
  destruct o as [tag id|k call]; cbn [spec_step].
  - intros [= <- <-]. unfold tally, add_req. rewrite !total_snoc, zlen_app. cbn. rewrite !Z.add_0_r. by rewrite u32_add_l.
  - destruct (hs !! k) as [[h [|]]|] eqn:Hk; try done.
    assert (Hlen : ∀ h', zlen (<[k := h']> hs) = zlen hs) by (intros h'; unfold zlen; by rewrite length_insert).
    unfold tally. destruct call; intros [= <- <-]; rewrite Hlen, !(total_insert _ hs k _ _ Hk);
      unfold good1, failed1; cbn [fst snd andb]; rewrite ?sizes_snoc, ?Z.add_0_r, ?Z.sub_0_r, ?Z.sub_add; try done.
    + unfold addSize. cbn [ok nook req size]. f_equal. rewrite u64_add_l. f_equal. lia.
    + cbn [st_accept Supersimple.counting]. unfold Supersimple.accept, add_ok, add_nook.
      destruct (supersimple_ok h); cbn [negb ok nook req size]; rewrite ?Z.add_0_r, ?u32_add_l; done.
Qed.

(** The counters of the default reporter are right, whatever streams share its
    state objects: a finished stream counts as good exactly when none of its calls
    since it was acquired was an error, a reset, a GOAWAY, a timeout or a
    grpc-status other than 0, every stream counts as a request, and the bytes are
    those of all requests, each count modulo the width of its counter. *)
Theorem supersimple_counts os hs c :
  spec_run (S := bool) supersimple_ok os ([], mkCounters 0 0 0 0) = Some (hs, c) →
  counts (rep_run os (New (S := bool), [])).1 = tally hs.
Proof.
  intros Hr. rewrite (spec_run_inv supersimple_ok os New [] [] _ _ _ count_inv_New Hr).
  change (mkCounters 0 0 0 0) with (tally []) in Hr. revert Hr. generalize (@nil history).
  induction os as [|o os IH]; intros hs0 Hr; cbn [spec_run] in Hr; [by injection Hr as <- <-|].
  apply bind_Some in Hr as ([hs1 c1] & H1 & Hr). apply spec_tally in H1 as ->. by eapply IH.
Qed.

Definition example_ops : list rep_op :=
  [RAcquire [] 3; RCall 0 (SetSize 100); RAcquire [] 5; RCall 0 (OnHeader (str "grpc-status") (str "13")); RCall 0 End_;
   RCall 1 (OnHeader (str "grpc-status") (str "0")); RAcquire [] 7; RCall 2 (OnHeader (str "grpc-status") (str "0"));
   RCall 2 End_; RCall 1 End_; RAcquire [] 9; RCall 3 (SetSize 7)].

(** ** simple *)

(** A stream that went well is counted as [nook], one that did not as [ok]. *)
Lemma simple_accept_swapped (r : Reporter Simple.streamState) a s : states r !! a = Some s →
  counts (count_Call a End_ r) = if Simple.result s then add_nook (counts r) else add_ok (counts r).
Proof. intros Hs. unfold count_Call. by rewrite Hs. Qed.

(** After a GOAWAY the state object never gives a good verdict again. *)
Lemma simple_goaway_sticks s h : Simple.goAway s = true →
  Simple.result (foldl (λ s c, Simple.call c s) (Simple.reset s) h) = false.
Proof.
  intros Hg. assert (Hk : ∀ t, Simple.goAway t = true → Simple.goAway (foldl (λ s c, Simple.call c s) t h) = true).
  { induction h as [|c h IH]; intros t Ht; [done|]. cbn [foldl]. apply IH. destruct c; cbn; try done. by repeat case_decide. }
  specialize (Hk (Simple.reset s) Hg). unfold Simple.result. rewrite Hk. by repeat case_match.
Qed.

(** ** multi *)
Definition forward_op (o : rep_op) : rep_op := match o with RAcquire t id => RAcquire t id | RCall k c => RCall k (forwarded c) end.

Section multi_spec.
Context {R : Type} `{!LoaderReporter R} (ns : list R).

(** Each nested reporter, alone. *)
Definition alone (os : list rep_op) (n : R) : R * list nat := rep_run (forward_op <$> os) (n, []).

Record multi_inv (os : list rep_op) (s : Multi R * list nat) : Prop := {
  mi_pool : multi_pool s.1 = [];
  mi_handles : s.2 = seq 0 (length (multiStates s.1));
  mi_nested : nested s.1 = fst ∘ alone os <$> ns;
  mi_states k : (k < length (multiStates s.1))%nat →
    ∃ ms, multiStates s.1 !! k = Some ms ∧ Forall2 (λ a n, (alone os n).2 !! k = Some a) ms ns;
  mi_count : Forall (λ n, length (alone os n).2 = length (multiStates s.1)) ns
}.

Lemma alone_snoc os o n : alone (os ++ [o]) n = rep_step (forward_op o) (alone os n).
Proof. unfold alone, rep_run. by rewrite fmap_app, fold_left_app. Qed.

Lemma multi_step os o s : multi_inv os s → multi_inv (os ++ [o]) (rep_step o s).
Proof.
  destruct s as [m hs]. intros [H1 H2 H3 H4 H5]. cbn [fst snd] in *. destruct o as [tag id|k c].
  - assert (Hal : ∀ n, alone (os ++ [RAcquire tag id]) n =
      ((rep_Acquire tag id (alone os n).1).2, (alone os n).2 ++ [(rep_Acquire tag id (alone os n).1).1])).
    { intros n. rewrite alone_snoc. cbn. by destruct (rep_Acquire tag id (alone os n).1). }
    cbn [rep_step fst snd rep_Acquire multi_reporter]. unfold multi_Acquire. rewrite H1. cbn [slice_Acquire last].
    split; cbn [fst snd multi_pool multiStates nested]; rewrite ?length_app; cbn [length].
    + done.
    + rewrite H2. by rewrite seq_app.
    + rewrite H3, <-!list_fmap_compose. apply list_fmap_ext. intros i n _. cbn. by rewrite Hal.
    + intros k Hk. destruct (decide (k < length (multiStates m))%nat) as [Hlt|Hge].
      * destruct (H4 k Hlt) as (ms & Hms & Hf). exists ms. rewrite lookup_app_l by done. split; [done|].
        eapply Forall2_impl; [exact Hf|]. cbn. intros a n Ha. rewrite Hal. cbn. by apply lookup_app_l_Some.
      * assert (k = length (multiStates m)) as -> by lia. eexists. rewrite lookup_app_r, Nat.sub_diag by lia. split; [reflexivity|].
        rewrite H3, <-!list_fmap_compose. apply Forall2_fmap_l. rewrite Forall_lookup in H5. apply Forall2_same_length_lookup.
        split; [done|]. intros i n n' Hn Hn'. assert (n' = n) as -> by congruence. cbn. rewrite Hal. cbn.
        rewrite lookup_app_r by (rewrite (H5 i n Hn); lia). by rewrite (H5 i n Hn), Nat.sub_diag.
    + eapply Forall_impl; [exact H5|]. cbn. intros n Hn. rewrite Hal. cbn. rewrite length_app, Hn. cbn. lia.
  - cbn [rep_step fst snd]. rewrite H2. destruct (decide (k < length (multiStates m))%nat) as [Hlt|Hge].
    + rewrite lookup_seq_lt by done. cbn [rep_Call multi_reporter Nat.add]. unfold multi_Call.
      destruct (H4 k Hlt) as (ms & Hms & Hf). rewrite Hms.
      assert (Hal : ∀ a n, (alone os n).2 !! k = Some a → alone (os ++ [RCall k c]) n = (rep_Call a (forwarded c) (alone os n).1, (alone os n).2)).
      { intros a n Ha. rewrite alone_snoc. cbn. by rewrite Ha. }
      split; cbn [fst snd multi_pool multiStates nested].
      * done.
      * done.
      * rewrite H3. clear H3 H4 H5 Hms. induction Hf as [|a n ms ns' Ha _ IH]; [done|]. cbn. rewrite (Hal a n Ha). f_equal. exact IH.
      * intros k' Hk'. destruct (H4 k' Hk') as (ms' & Hms' & Hf'). exists ms'. split; [done|].
        clear H3 H4 H5 Hms Hms'. revert ms' Hf'. induction Hf as [|a n ms ns' Ha _ IH]; intros ms' Hf'; inversion Hf'; subst; constructor.
        -- by rewrite (Hal a n Ha).
        -- by apply IH.
      * clear H3 H4 Hms. induction Hf as [|a n ms ns' Ha _ IH]; [by apply Forall_nil_2|]. apply Forall_cons in H5 as [Hn H5].
        apply Forall_cons. split; [by rewrite (Hal a n Ha)|by apply IH].
    + rewrite lookup_seq_ge by lia.
      assert (Hal : Forall (λ n, alone (os ++ [RCall k c]) n = alone os n) ns).
      { eapply Forall_impl; [exact H5|]. cbn. intros n Hn. rewrite alone_snoc. cbn. rewrite lookup_ge_None_2 by lia. by destruct (alone os n). }
      rewrite Forall_lookup in Hal. split; cbn [fst snd].
      * done.
      * done.
      * rewrite H3. apply list_fmap_ext. intros i n Hn. cbn. by rewrite (Hal i n Hn).
      * intros k' Hk'. destruct (H4 k' Hk') as (ms' & Hms' & Hf'). exists ms'. split; [done|].
        apply Forall2_same_length_lookup in Hf' as [Hlen Hf']. apply Forall2_same_length_lookup. split; [done|].
        intros i a n Ha Hn. rewrite (Hal i n Hn). by apply (Hf' i).
      * apply Forall_lookup. intros i n Hn. rewrite (Hal i n Hn). rewrite Forall_lookup in H5. by apply (H5 i).
Qed.

Lemma multi_run_inv os : multi_inv os (rep_run os (NewMutli ns, [])).
Proof.
  induction os as [|o os IH] using rev_ind.
  - split; cbn.
    + done.
    + done.
    + clear. induction ns as [|n l IH]; [done|]. cbn. by f_equal.
    + intros k Hk. lia.
    + by apply Forall_true.
  - unfold rep_run. rewrite fold_left_app. cbn. by apply multi_step.
Qed.
End multi_spec.

(** Each reporter behind a [Multi] is in the state it would be in alone, given the
    same streams and the same calls on them, except that it is told twice that the
    first byte was sent, and never that the last one was. *)
Theorem multi_broadcasts {R} `{!LoaderReporter R} (ns : list R) os i n :
  ns !! i = Some n →
  nested (rep_run os (NewMutli ns, [])).1 !! i = Some (alone os n).1.
Proof.
  intros Hn. rewrite (mi_nested ns os _ (multi_run_inv ns os)). rewrite list_lookup_fmap, Hn. done.
Qed.

Theorem multi_broadcasts_witness :
  counts <$> nested (rep_run example_ops (NewMutli [New (S := bool); New (S := bool)], [])).1 !! 1%nat = Some (mkCounters 2 1 4 107).
Proof.
  rewrite (multi_broadcasts [New (S := bool); New (S := bool)] example_ops 1 New eq_refl). vm_compute. reflexivity.
Defined.
