(* ===== verification/Ticker.v ===== *)
(** * Ticker: the lines a counting reporter prints

    Models [Run], [report], [write] and [total] of src/report/supersimple and
    src/report/simple: every second what has been counted since the last time, and
    at the end the counters.  [rp_step] runs that goroutine beside the calls on the
    streams.  The counters are those of [Report]; the rates in
    floating point and the text are left out. *)
From S2P Require Import Prelude Types Report.

#[local] Open Scope Z_scope.

(** What a line says; [pr_rate]: the bytes per second, when the period is at least a
    millisecond. *)
Record printed := mkPrinted { pr_total : Z; pr_ok : Z; pr_nook : Z; pr_req : Z; pr_rate : option Z }.

(** [write], on a period [d] in nanoseconds. *)
Definition write (c : counters) (d : Z) : printed :=
  let total := u32 (ok c + nook c) in
  let miliSeconds := Z.quot d (10 ^ 6) in
  mkPrinted total (ok c) (nook c) (req c) (if 0 <? miliSeconds then Some (u64 (size c * 1000) / miliSeconds) else None).

(** [last*]: the counters at the last report. *)
Record ticker := mkTicker {
  t_counts : counters; t_last : counters; t_lastTime : Z; t_start : Z; t_closed : bool; t_running : bool; t_printed : list printed
}.

Definition ticker_New (now : Z) : ticker := mkTicker (mkCounters 0 0 0 0) (mkCounters 0 0 0 0) now now false true [].

Definition since (c last : counters) : counters :=
  mkCounters (u32 (ok c - ok last)) (u32 (nook c - nook last)) (u32 (req c - req last)) (u64 (size c - size last)).

Definition report (now : Z) (t : ticker) : ticker :=
  mkTicker (t_counts t) (t_counts t) now (t_start t) (t_closed t) (t_running t)
    (t_printed t ++ [write (since (t_counts t) (t_last t)) (now - t_lastTime t)]).

Definition total (now : Z) (t : ticker) : ticker :=
  mkTicker (t_counts t) (t_last t) (t_lastTime t) (t_start t) (t_closed t) false
    (t_printed t ++ [write (t_counts t) (now - t_start t)]).

(** The streams move the counters at any time; the goroutine of [Run] takes a tick
    or, once [Close] has closed the channel, returns. *)
Inductive tick_label :=
| TCount (f : counters → counters)
| TTick (now : Z)
| TClose
| TReturn (now : Z).

Definition tick_step (l : tick_label) (t : ticker) : option ticker :=
  match l with
  | TCount f => Some (mkTicker (f (t_counts t)) (t_last t) (t_lastTime t) (t_start t) (t_closed t) (t_running t) (t_printed t))
  | TTick now => if t_running t then Some (report now t) else None
  | TClose =>
      if t_closed t then None
      else Some (mkTicker (t_counts t) (t_last t) (t_lastTime t) (t_start t) true (t_running t) (t_printed t))
  | TReturn now => if t_running t && t_closed t then Some (total now t) else None
  end.

Fixpoint tick_steps (ls : list tick_label) (t : ticker) : option ticker :=
  match ls with [] => Some t | l :: ls => t ← tick_step l t; tick_steps ls t end.

(** Counters in the range of their types. *)
Definition in_range (c : counters) : Prop :=
  is_u32 (ok c) ∧ is_u32 (nook c) ∧ is_u32 (req c) ∧ 0 <= size c < 2 ^ 64.
Definition counts_in_range (l : tick_label) : Prop := match l with TCount f => ∀ c, in_range c → in_range (f c) | _ => True end.

(** The periods printed so far add up to the counters at the last report. *)
Definition added_up (ps : list printed) (c : counters) : Prop :=
  u32 (zsum (pr_ok <$> ps)) = ok c ∧ u32 (zsum (pr_nook <$> ps)) = nook c ∧ u32 (zsum (pr_req <$> ps)) = req c.

Record tick_inv (t : ticker) (periods : list printed) : Prop := {
  ti_range : in_range (t_counts t);
  ti_sum : added_up periods (t_last t);
  ti_printed : if t_running t then t_printed t = periods
               else ∃ c d, t_printed t = periods ++ [write c d]
}.

Lemma u32_add_since a x y : u32 a = y → is_u32 x → u32 (a + u32 (x - y)) = x.
Proof.
  intros <- Hx. rewrite u32_add_r, <-u32_add_l. replace (u32 a + (x - u32 a)) with x by lia. by apply u32_id.
Qed.

Lemma report_adds ps c last d : added_up ps last → in_range c → added_up (ps ++ [write (since c last) d]) c.
Proof.
  intros (H1 & H2 & H3) (R1 & R2 & R3 & _). unfold added_up. rewrite !fmap_app, !zsum_app.
  cbn [fmap list_fmap write pr_ok pr_nook pr_req since ok nook req]. rewrite !zsum_cons. change (zsum []) with 0. rewrite !Z.add_0_r.
  by rewrite !u32_add_since.
Qed.

Lemma tick_step_inv l t t' periods : counts_in_range l → tick_step l t = Some t' → tick_inv t periods →
  ∃ more, tick_inv t' (periods ++ more).
Proof.
  intros Hl Ht [Hr Hs Hp]. destruct l as [f|now| |now]; cbn in Ht.
  - injection Ht as <-. exists []. rewrite app_nil_r. split; cbn; [by apply Hl|done|done].
  - destruct (t_running t) eqn:Erun; [|done]. injection Ht as <-. eexists [_]. unfold report. rewrite Erun. split; cbn; [done| |].
    + by apply report_adds.
    + by rewrite Hp.
  - destruct (t_closed t); [done|]. injection Ht as <-. exists []. rewrite app_nil_r. by split.
  - destruct (t_running t && t_closed t) eqn:Erun; [|done]. apply andb_true_iff in Erun as [Erun _]. rewrite Erun in Hp.
    injection Ht as <-. exists []. rewrite app_nil_r. split; cbn; [done|done|]. rewrite Hp. eauto.
Qed.

Lemma tick_steps_inv ls : ∀ t t' periods, Forall counts_in_range ls → tick_steps ls t = Some t' → tick_inv t periods →
  ∃ periods', tick_inv t' periods'.
Proof.
  induction ls as [|l ls IH]; intros t t' periods Hls Ht Hi; cbn in Ht; [injection Ht as <-; eauto|].
  apply Forall_cons in Hls as [Hl Hls]. apply bind_Some in Ht as (t1 & H1 & Ht).
  destruct (tick_step_inv l t t1 periods Hl H1 Hi) as [more Hi1]. by eapply IH.
Qed.

(** ** A reporter and its goroutine

    The calls on the streams come from the loader, at any time. *)
Inductive rp_label :=
| ROp (o : rep_op)
| RTick (now : Z)
| RClose
| RReturn (now : Z).

Definition rp_ops (ls : list rp_label) : list rep_op := omap (λ l, if l is ROp o then Some o else None) ls.

Section reporting.
Context {S : Type} `{!Counting S}.

(** The reporter with the streams handed out, and the rest of its fields; both
    hold the counters. *)
Record reporting := mkReporting { rp_streams : Reporter S * list nat; rp_ticker : ticker }.

Definition rp_New (now : Z) : reporting := mkReporting (New, []) (ticker_New now).

Definition rp_step (l : rp_label) (x : reporting) : option reporting :=
  match l with
  | ROp o =>
      let s := rep_step o (rp_streams x) in
      mkReporting s <$> tick_step (TCount (λ _, counts s.1)) (rp_ticker x)
  | RTick now => mkReporting (rp_streams x) <$> tick_step (TTick now) (rp_ticker x)
  | RClose => mkReporting (rp_streams x) <$> tick_step TClose (rp_ticker x)
  | RReturn now => mkReporting (rp_streams x) <$> tick_step (TReturn now) (rp_ticker x)
  end.

Fixpoint rp_steps (ls : list rp_label) (x : reporting) : option reporting :=
  match ls with [] => Some x | l :: ls => x ← rp_step l x; rp_steps ls x end.

(** The goroutine changes nothing of the streams, *)
Lemma rp_step_streams l x y : rp_step l x = Some y → rp_streams y = rep_run (rp_ops [l]) (rp_streams x).
Proof. destruct l; cbn [rp_step]; intros (t & _ & ->)%fmap_Some; done. Qed.

Lemma rp_steps_streams ls : ∀ x y, rp_steps ls x = Some y → rp_streams y = rep_run (rp_ops ls) (rp_streams x).
Proof.
  induction ls as [|l ls IH]; intros x y H; cbn [rp_steps] in H; [by injection H as ->|].
  apply bind_Some in H as (x1 & H1 & H). rewrite (IH x1 y H), (rp_step_streams l x x1 H1).
  unfold rep_run. rewrite <-fold_left_app. f_equal. by destruct l.
Qed.

(** and has the same counters. *)
Definition same_counts (x : reporting) : Prop := t_counts (rp_ticker x) = counts (rp_streams x).1.

Lemma rp_step_counts l x y : rp_step l x = Some y → same_counts x → same_counts y.
Proof.
  unfold same_counts. destruct l; cbn [rp_step]; intros (t & Ht & ->)%fmap_Some Hx; cbn [rp_ticker rp_streams];
    cbn [tick_step] in Ht; repeat case_match; by simplify_eq/=.
Qed.

Lemma rp_steps_counts ls : ∀ x y, rp_steps ls x = Some y → same_counts x → same_counts y.
Proof.
  induction ls as [|l ls IH]; intros x y H Hx; cbn [rp_steps] in H; [by injection H as <-|].
  apply bind_Some in H as (x1 & H1 & H). eapply IH; [done|]. by eapply rp_step_counts.
Qed.

Lemma rp_steps_app ls ls' x : rp_steps (ls ++ ls') x = x ← rp_steps ls x; rp_steps ls' x.
Proof. revert x. induction ls as [|l ls IH]; intros x; cbn; [done|]. destruct (rp_step l x); cbn; auto. Qed.

(** The steps of the goroutine alone. *)
Lemma rp_steps_ticks ls : ∀ x y, rp_steps ls x = Some y →
  (∀ ls1 ls2 z, ls = ls1 ++ ls2 → rp_steps ls1 x = Some z → in_range (counts (rp_streams z).1)) →
  ∃ tls, Forall counts_in_range tls ∧ tick_steps tls (rp_ticker x) = Some (rp_ticker y).
Proof.
  induction ls as [|l ls IH]; intros x y H Hr; cbn [rp_steps] in H; [injection H as <-; by exists []|].
  apply bind_Some in H as (x1 & H1 & H).
  destruct (IH x1 y H) as (tls & Htls & Ht).
  { intros ls1 ls2 z -> Hz. apply (Hr (l :: ls1) ls2 z); [done|]. cbn [rp_steps]. by rewrite H1. }
  assert (in_range (counts (rp_streams x1).1)) as Hx1 by (apply (Hr [l] ls); [done|]; cbn [rp_steps]; by rewrite H1).
  destruct l; cbn [rp_step] in H1; apply fmap_Some in H1 as (t & Hstep & ->); cbn [rp_ticker rp_streams] in *;
    lazymatch type of Hstep with tick_step ?tl _ = _ => exists (tl :: tls) end;
    (split; [apply Forall_cons; split; [first [exact I|exact (λ _ _, Hx1)]|exact Htls]|cbn [tick_steps]; rewrite Hstep; exact Ht]).
Qed.

(** [Run] returns once, after a last line. *)
Lemma rp_stopped ls : ∀ x y, rp_steps ls x = Some y → t_running (rp_ticker x) = false →
  t_printed (rp_ticker y) = t_printed (rp_ticker x) ∧ t_running (rp_ticker y) = false.
Proof.
  induction ls as [|l ls IH]; intros x y H Hx; cbn [rp_steps] in H; [by injection H as <-|].
  apply bind_Some in H as (x1 & H1 & H).
  assert (t_printed (rp_ticker x1) = t_printed (rp_ticker x) ∧ t_running (rp_ticker x1) = false) as [<- Hx1].
  { destruct l; cbn [rp_step] in H1; apply fmap_Some in H1 as (t & Ht & ->); cbn [tick_step] in Ht; rewrite ?Hx in Ht;
      cbn in *; repeat case_match; by simplify_eq/=. }
  by apply IH.
Qed.

Lemma rp_returned ls : ∀ x y, rp_steps ls x = Some y → t_running (rp_ticker x) = true → t_running (rp_ticker y) = false →
  ∃ ls1 now ls2 z, ls = ls1 ++ RReturn now :: ls2 ∧ rp_steps ls1 x = Some z ∧ t_running (rp_ticker z) = true ∧
    t_printed (rp_ticker y) = t_printed (rp_ticker z) ++ [write (t_counts (rp_ticker z)) (now - t_start (rp_ticker z))].
Proof.
  induction ls as [|l ls IH]; intros x y H Hx Hy; cbn [rp_steps] in H; [injection H as <-; congruence|].
  apply bind_Some in H as (x1 & H1 & H). destruct (t_running (rp_ticker x1)) eqn:Hx1.
  - destruct (IH x1 y H Hx1 Hy) as (ls1 & now & ls2 & z & -> & Hz & ?). exists (l :: ls1), now, ls2, z.
    split; [done|]. cbn [rp_steps]. by rewrite H1.
  - destruct (rp_stopped ls x1 y H Hx1) as [-> _]. clear IH H.
    destruct l as [o|now| |now]; cbn [rp_step] in H1; apply fmap_Some in H1 as (t & Ht & ->); cbn [tick_step] in Ht;
      try (exfalso; clear Hy; repeat case_match; simplify_eq/=; congruence).
    exists [], now, ls, x. rewrite Hx in Ht. cbn [andb] in Ht. case_match; [|done]. by simplify_eq/=.
Qed.

Lemma rp_started ls : ∀ x y, rp_steps ls x = Some y → t_start (rp_ticker y) = t_start (rp_ticker x).
Proof.
  induction ls as [|l ls IH]; intros x y H; cbn [rp_steps] in H; [by injection H as <-|].
  apply bind_Some in H as (x1 & H1 & H). rewrite (IH x1 y H).
  destruct l; cbn [rp_step] in H1; apply fmap_Some in H1 as (t & Ht & ->); cbn [tick_step] in Ht; repeat case_match; by simplify_eq/=.
Qed.
End reporting.
Arguments reporting S : clear implicits.

(** *** What supersimple prints *)

Lemma spec_run_app {S} `{!Counting S} (verdict : list StreamState → bool) os os' s :
  spec_run verdict (os ++ os') s = s ← spec_run verdict os s; spec_run verdict os' s.
Proof. revert s. induction os as [|o os IH]; intros s; cbn; [done|]. destruct (spec_step verdict o s); cbn; auto. Qed.

Lemma tally_in_range hs : in_range (tally hs).
Proof. unfold in_range, tally, u64. cbn. split_and!; try apply u32_is_u32; by apply Z.mod_pos_bound. Qed.

(** The counters after the steps, in the reporter and in its goroutine. *)
Lemma rp_tally now ls (x : reporting bool) hs c : rp_steps ls (rp_New now) = Some x →
  spec_run (S := bool) supersimple_ok (rp_ops ls) ([], mkCounters 0 0 0 0) = Some (hs, c) →
  counts (rp_streams x).1 = tally hs ∧ t_counts (rp_ticker x) = tally hs.
Proof.
  intros Hs Hr. assert (same_counts x) as -> by (apply (rp_steps_counts ls _ x Hs); reflexivity).
  rewrite (rp_steps_streams ls _ x Hs). cbn [rp_New rp_streams]. by rewrite (supersimple_counts _ _ _ Hr).
Qed.


Definition example_reporting : list rp_label :=
  (ROp <$> take 5 example_ops) ++ [RTick (10 ^ 9)] ++ (ROp <$> drop 5 example_ops) ++ [RTick (2 * 10 ^ 9); RClose; RReturn (2 * 10 ^ 9 + 1)].


(** *** simple

    [Run], [Close], [report], [total] and [write] of report/simple are, but for
    one [Stop] of the ticker, those of supersimple; they run on its own states. *)
Definition simple_write : counters → Z → printed := write.
Definition simple_total : Z → ticker → ticker := total.
Definition simple_report : Z → ticker → ticker := report.
Definition simple_step : rp_label → reporting Simple.streamState → option (reporting Simple.streamState) := rp_step.

(** It prints a stream that went well as one that did not. *)
Example simple_prints_swapped :
  (λ x, t_printed (rp_ticker x)) <$> (foldl (λ x l, x ≫= simple_step l) (Some (rp_New 0))
    [ROp (RAcquire [] 3); ROp (RCall 0 (OnHeader (str "grpc-status") (str "0"))); ROp (RCall 0 End_); RTick (10 ^ 9)]) =
    Some [simple_write (mkCounters 0 1 1 0) (10 ^ 9)].
Proof. vm_compute. reflexivity. Qed.
