(* ===== verification/Phout.v ===== *)
(** * Phout: the report line of a stream

    Models src/report/phout/phout.go: one line of twelve tab-separated columns per
    stream, written in the order in which the streams end. *)
From S2P Require Import Prelude Types Decimal Pool.

#[local] Open Scope Z_scope.

(** [streamState]: times are nanoseconds since the epoch, and of an I/O error the
    errno is kept that [errors.As] finds in it, if it does. *)
Record streamState := mkState {
  grpcCodeHeader : bytes; http2CodeHeader : bytes;
  requestError : bool; ioErr : option (option Z); rstStreamCode : option Z; goAwayCode : option Z; timeouted : bool;
  reqSize : Z; startTime : Z; endTime : Z; tag : bytes
}.

Definition reset (t : bytes) (now : Z) (s : streamState) : streamState :=
  mkState [] [] false None None None false 0 now (endTime s) t.

Definition new_state : streamState := mkState [] [] false None None None false 0 0 0 [].

Section calls.
(** The errno in an I/O error. *)
Context (errno : option Z).

(** The calls other than [End]. *)
Definition call (c : StreamState) (s : streamState) : streamState :=
  let '(mkState g h re io rst ga t sz st en tg) := s in
  match c with
  | SetSize n => mkState g h re io rst ga t n st en tg
  | OnHeader name value =>
      if decide (name = str "grpc-status") then mkState value h re io rst ga t sz st en tg
      else if decide (name = str ":status") then mkState g value re io rst ga t sz st en tg
      else s
  | RequestError => mkState g h true io rst ga t sz st en tg
  | IoError => mkState g h re (Some errno) rst ga t sz st en tg
  | RSTStream code => mkState g h re io (Some code) ga t sz st en tg
  | GoAway code _ => mkState g h re io rst (Some code) t sz st en tg
  | Timeout => mkState g h re io rst ga true sz st en tg
  | FirstByteSent | LastByteSent | End_ => s
  end.
End calls.

Definition tabChar : Z := 9.

(** The time columns: seconds and milliseconds of the start, and the microseconds
    the stream took. *)
Definition Unix (t : Z) : Z := t / 10 ^ 9.
Definition Nanosecond (t : Z) : Z := t mod 10 ^ 9.
Definition rtt (s : streamState) : Z := Z.quot (endTime s - startTime s) 1000.

Definition err_no (s : streamState) : bytes :=
  match ioErr s with
  | Some (Some e) => FormatInt e
  | Some None => FormatInt 999
  | None => str "0"
  end.

Definition proto_code (s : streamState) : bytes :=
  if requestError s then str "client_error"
  else match rstStreamCode s with
  | Some code => str "rst_" ++ FormatInt code
  | None =>
  match goAwayCode s with
  | Some code => str "goaway_" ++ FormatInt code
  | None =>
      if timeouted s then str "grpc_4"
      else if decide (http2CodeHeader s = []) then str "http2_1"
      else if decide (grpcCodeHeader s ≠ []) then str "grpc_" ++ grpcCodeHeader s
      else str "http2_1"
  end end.

(** [result]. *)
Definition result (s : streamState) : bytes :=
  let line := FormatInt (Unix (startTime s)) in
  let line := line ++ str "." in
  let line := line ++ FormatInt (Z.quot (Nanosecond (startTime s)) (10 ^ 6)) in
  let line := line ++ [tabChar] in
  let line := line ++ tag s in
  let line := line ++ [tabChar] in
  let line := line ++ FormatInt (rtt s) in
  let line := line ++ [tabChar] in
  let line := line ++ str "0" ++ [tabChar] in
  let line := line ++ str "0" ++ [tabChar] in
  let line := line ++ str "0" ++ [tabChar] in
  let line := line ++ str "0" ++ [tabChar] in
  let line := line ++ str "0" ++ [tabChar] in
  let line := line ++ FormatInt (reqSize s) in
  let line := line ++ [tabChar] in
  let line := line ++ str "0" ++ [tabChar] in
  let line := line ++ err_no s ++ [tabChar] in
  let line := line ++ proto_code s in
  line ++ [10].

(** ** Reading a line *)

(** The text up to the line's end, cut at the tabs. *)
Fixpoint columns_ (acc : bytes) (l : bytes) : option (list bytes * bytes) :=
  match l with
  | [] => None
  | c :: l =>
      if c =? 10 then Some ([acc], l)
      else if c =? tabChar then '(cs, r) ← columns_ [] l; Some (acc :: cs, r)
      else columns_ (acc ++ [c]) l
  end.
Definition columns (l : bytes) : option (list bytes * bytes) := columns_ [] l.

Definition clean (f : bytes) : Prop := 10 ∉ f ∧ tabChar ∉ f.

Lemma columns_clean acc f c l : clean f → columns_ acc (f ++ c :: l) = columns_ (acc ++ f) (c :: l).
Proof.
  revert acc. induction f as [|b f IH]; intros acc [Hn Ht]; [by rewrite app_nil_r|].
  apply not_elem_of_cons in Hn as [Hn1 Hn2], Ht as [Ht1 Ht2]. cbn [app columns_].
  rewrite (proj2 (Z.eqb_neq b 10)), (proj2 (Z.eqb_neq b tabChar)) by congruence.
  rewrite IH by done. by rewrite <-app_assoc.
Qed.

Lemma columns_tab f l : clean f → columns (f ++ tabChar :: l) = '(cs, r) ← columns l; Some (f :: cs, r).
Proof. intros Hf. unfold columns. by rewrite columns_clean. Qed.
Lemma columns_end f l : clean f → columns (f ++ 10 :: l) = Some ([f], l).
Proof. intros Hf. unfold columns. by rewrite columns_clean. Qed.

Lemma digits_clean f : Forall is_digit f → clean f.
Proof.
  intros H. split; intros Hin; rewrite list.Forall_forall in H; specialize (H _ Hin); unfold is_digit, tabChar in H; lia.
Qed.

Lemma FormatInt_clean n : clean (FormatInt n).
Proof.
  unfold FormatInt. destruct (Z.ltb_spec n 0) as [Hn|Hn].
  - destruct (digits_spec (- n)) as (_ & Hd & _); [lia|]. apply digits_clean in Hd as [? ?].
    split; apply not_elem_of_cons; done.
  - apply digits_clean. by destruct (digits_spec n) as (_ & Hd & _).
Qed.

Lemma clean_app f g : clean f → clean g → clean (f ++ g).
Proof. unfold clean. rewrite !not_elem_of_app. naive_solver. Qed.

#[export] Instance clean_dec f : Decision (clean f).
Proof. unfold clean. apply _. Defined.

Ltac clean_text := match goal with |- clean ?f => apply (bool_decide_unpack (clean f)); vm_compute; exact I end.

Lemma proto_code_clean s : clean (grpcCodeHeader s) → clean (proto_code s).
Proof.
  intros Hg. unfold proto_code. destruct (requestError s); [clean_text|].
  destruct (rstStreamCode s); [apply clean_app; [clean_text|apply FormatInt_clean]|].
  destruct (goAwayCode s); [apply clean_app; [clean_text|apply FormatInt_clean]|].
  destruct (timeouted s); [clean_text|]. case_decide; [clean_text|]. case_decide; [|clean_text].
  by apply clean_app; [clean_text|].
Qed.

Lemma err_no_clean s : clean (err_no s).
Proof. unfold err_no. destruct (ioErr s) as [[e|]|]; [apply FormatInt_clean|clean_text|clean_text]. Qed.

Definition time_column (t : Z) : bytes := FormatInt (Unix t) ++ str "." ++ FormatInt (Z.quot (Nanosecond t) (10 ^ 6)).

(** The columns of the line. *)
Definition line_columns (s : streamState) : list bytes :=
  [time_column (startTime s); tag s; FormatInt (rtt s); str "0"; str "0"; str "0"; str "0"; str "0";
   FormatInt (reqSize s); str "0"; err_no s; proto_code s].

Lemma result_columns s : result s = concat ((λ f, f ++ [tabChar]) <$> take 11 (line_columns s)) ++ proto_code s ++ [10].
Proof. unfold result, line_columns, time_column. cbn [take fmap list_fmap concat]. by rewrite <-!app_assoc. Qed.

(** The line of a stream has twelve columns, the same for every stream: when the
    tag and the status that the server sent hold no tab and no line end, a reader
    of the file gets exactly these columns back, and goes on with the next line.
    The last column is the outcome: the first that applies of an error of the
    client, a reset, a GOAWAY, a timeout, no HTTP status, the gRPC status, and a
    protocol error. *)
Theorem phout_line s rest : clean (tag s) → clean (grpcCodeHeader s) →
  columns (result s ++ rest) = Some (line_columns s, rest).
Proof.
  intros Ht Hg. rewrite result_columns, <-!app_assoc. unfold line_columns at 1.
  assert (Hz : clean (str "0")) by clean_text.
  assert (Htime : clean (time_column (startTime s))).
  { apply clean_app; [apply FormatInt_clean|]. apply clean_app; [clean_text|apply FormatInt_clean]. }
  cbn [take fmap list_fmap concat]. rewrite <-!app_assoc. cbn [app].
  repeat (rewrite columns_tab by (done || apply FormatInt_clean || apply err_no_clean)).
  rewrite columns_end by (by apply proto_code_clean). done.
Qed.

Theorem phout_line_witness :
  let s := mkState (str "5") (str "200") false None None None false 321 1700000000120456789 1700000000123456789 (str "/tag") in
  columns (result s ++ str "next") = Some ([str "1700000000.120"; str "/tag"; str "3000"; str "0"; str "0"; str "0"; str "0"; str "0";
    str "321"; str "0"; str "0"; str "grpc_5"], str "next").
Proof.
  exact (phout_line (mkState (str "5") (str "200") false None None None false 321 1700000000120456789 1700000000123456789 (str "/tag"))
    (str "next") ltac:(clean_text) ltac:(clean_text)).
Defined.

(** ** The time column *)

(** The milliseconds a reader finds in a decimal number of seconds. *)
Definition read_time (col : bytes) : option Z :=
  match span_digits col with
  | (sec, 46 :: frac) => Some (dec_val sec * 1000 + dec_val frac * 10 ^ (3 - zlen frac))
  | _ => None
  end.

Lemma digits_len n : 0 <= n < 1000 →
  zlen (digits n) = if n <? 10 then 1 else if n <? 100 then 2 else 3.
Proof.
  intros Hn. destruct (digits_spec n) as (_ & Hd & Hv & H1 & H2); [lia|].
  pose proof (dec_val_nonneg (digits n) Hd) as Hb. rewrite Hv in Hb.
  destruct (Z.ltb_spec n 10); [by apply H1|]. specialize (H2 ltac:(lia)).
  pose proof (digits_short n 3 ltac:(lia) ltac:(lia)). pose proof (zlen_nonneg (digits n)).
  assert (zlen (digits n) = 0 ∨ zlen (digits n) = 1 ∨ zlen (digits n) = 2 ∨ zlen (digits n) = 3) as [E|[E|[E|E]]] by lia;
    rewrite E in Hb, H2 |- *; destruct (Z.ltb_spec n 100); lia.
Qed.

(** The milliseconds are written without their leading zeros: the time column, read
    as the decimal number of seconds it is, gives the start of the stream to the
    millisecond exactly when that is a full second or at least a tenth of a second
    past one. *)
Theorem phout_time t : 0 <= t →
  read_time (time_column t) = Some (t / 10 ^ 6) ↔ (t / 10 ^ 6) mod 1000 = 0 ∨ 100 <= (t / 10 ^ 6) mod 1000.
Proof.
  intros Ht. set (ms := (t / 10 ^ 6) mod 1000). pose proof (Z.mod_pos_bound (t / 10 ^ 6) 1000 eq_refl) as Hms. fold ms in Hms.
  assert (Hq : Z.quot (Nanosecond t) (10 ^ 6) = ms).
  { pose proof (Z.div_mod t (10 ^ 6) ltac:(done)) as H1. pose proof (Z.mod_pos_bound t (10 ^ 6) eq_refl).
    pose proof (Z.div_mod (t / 10 ^ 6) 1000 ltac:(done)) as H2. fold ms in H2. unfold Nanosecond.
    assert (t mod 10 ^ 9 = 10 ^ 6 * ms + t mod 10 ^ 6) as ->.
    { symmetry. apply (Z.mod_unique_pos _ _ (t / 10 ^ 6 / 1000)); lia. }
    rewrite Z.quot_div_nonneg by lia. symmetry. apply (Z.div_unique_pos _ _ _ (t mod 10 ^ 6)); lia. }
  assert (Hu : t / 10 ^ 6 = Unix t * 1000 + ms).
  { unfold Unix. subst ms. change (10 ^ 9) with (10 ^ 6 * 1000). rewrite <-Z.div_div by lia.
    pose proof (Z.div_mod (t / 10 ^ 6) 1000 ltac:(done)). lia. }
  assert (Hpos : 0 <= Unix t) by (apply Z.div_pos; lia).
  unfold read_time, time_column. rewrite Hq, !FormatInt_nonneg by lia.
  destruct (digits_spec (Unix t) Hpos) as (_ & Hd1 & Hv1 & _), (digits_spec ms) as (_ & _ & Hv2 & _); [lia|].
  change (str ".") with [46]. rewrite span_digits_app; [|done|intros b r [= <- _]; unfold is_digit; lia].
  cbn [app]. rewrite Hv1, Hv2, digits_len, Hu by lia.
  destruct (Z.ltb_spec ms 10), (Z.ltb_spec ms 100); try lia.
  - change (10 ^ (3 - 1)) with 100. split; [intros [= He]; lia|intros [He|He]; [f_equal|]; lia].
  - change (10 ^ (3 - 2)) with 10. split; [intros [= He]; lia|intros [He|He]; [f_equal|]; lia].
  - change (10 ^ (3 - 3)) with 1. split; [intros _; by right|intros _; f_equal; lia].
Qed.

Theorem phout_time_witness :
  (read_time (time_column 1700000000005000000) = Some 1700000000005 ↔ 1700000000005 mod 1000 = 0 ∨ 100 <= 1700000000005 mod 1000) ∧
  read_time (time_column 1700000000005000000) = Some 1700000000500.
Proof. split; [apply (phout_time 1700000000005000000); lia|reflexivity]. Defined.
