(* ===== verification/PhoutFile.v ===== *)
(** * PhoutFile: the reporter that writes the lines

    Models [Reporter] of src/report/phout/phout.go: states of streams are pooled, a
    stream that ends is put on a channel of 256, and the goroutine of [Run] writes
    its line and returns its state to the pool, until [Close] closes the channel. *)
From S2P Require Import Prelude Types Decimal Pool Phout.

#[local] Open Scope Z_scope.

Inductive run_state := Running | Done (failed : bool).

(** A state is named by its address.  [p_lines]: what has been written to the
    buffered writer; [p_panicked]: a send on the closed channel. *)
Record Reporter := mkReporter {
  p_pool : list nat; p_states : list streamState; p_ch : list nat; p_closed : bool;
  p_run : run_state; p_lines : list bytes; p_panicked : bool
}.

Definition New : Reporter := mkReporter [] [] [] false Running [] false.

Definition chanSize : nat := Z.to_nat 256.

Definition Acquire (t : bytes) (now : Z) (r : Reporter) : nat * Reporter :=
  let '(o, free) := slice_Acquire (p_pool r) in
  let '(a, sts) := match o with
    | Some a => (a, p_states r)
    | None => (length (p_states r), p_states r ++ [new_state])
    end in
  (a, mkReporter free (alter (reset t now) a sts) (p_ch r) (p_closed r) (p_run r) (p_lines r) (p_panicked r)).

Definition with_end (now : Z) (s : streamState) : streamState :=
  let '(mkState g h re io rst ga t sz st _ tg) := s in mkState g h re io rst ga t sz st now tg.

(** The calls, the steps of [Run] and [Close]; [None]: not possible, or blocked. *)
Inductive op :=
| PAcquire (tag : bytes) (now : Z)
| PCall (a : nat) (errno : option Z) (c : StreamState)
| PEnd (a : nat) (now : Z)
| PWrite (ok : bool)
| PClose
| PRunEnd (ok : bool).  (** the channel is closed and empty; [Flush] *)

Definition step (o : op) (r : Reporter) : option Reporter :=
  let '(mkReporter free sts ch closed run lines panicked) := r in
  match o with
  | PAcquire t now => Some (Acquire t now r).2
  | PCall a errno c => Some (mkReporter free (alter (call errno c) a sts) ch closed run lines panicked)
  | PEnd a now =>
      let sts := alter (with_end now) a sts in
      if closed then Some (mkReporter free sts ch closed run lines true)
      else if decide (length ch < chanSize)%nat then Some (mkReporter free sts (ch ++ [a]) closed run lines panicked)
      else None
  | PWrite ok =>
      match run, ch with
      | Running, a :: ch =>
          if ok then
            s ← sts !! a;
            Some (mkReporter (slice_Release a free) sts ch closed run (lines ++ [result s]) panicked)
          else Some (mkReporter free sts ch closed (Done true) lines panicked)
      | _, _ => None
      end
  | PClose => if closed then Some (mkReporter free sts ch closed run lines true) else Some (mkReporter free sts ch true run lines panicked)
  | PRunEnd ok =>
      match run, ch with
      | Running, [] => if closed then Some (mkReporter free sts ch closed (Done (negb ok)) lines panicked) else None
      | _, _ => None
      end
  end.

Fixpoint steps (os : list op) (r : Reporter) : option Reporter :=
  match os with [] => Some r | o :: os => r ← step o r; steps os r end.

(** ** What the file promises

    The streams in use, each with the state its own calls give it, and the lines of
    those that have ended.  A client calls only on streams it has acquired and not
    ended, and ends none after [Close], which comes once. *)
Record spec := mkSpec { sp_live : gmap nat streamState; sp_closed : bool; sp_lines : list bytes }.

Definition spec_step (o : op) (r : Reporter) (s : spec) : option spec :=
  match o with
  | PAcquire t now => Some (mkSpec (<[(Acquire t now r).1 := reset t now new_state]> (sp_live s)) (sp_closed s) (sp_lines s))
  | PCall a errno c =>
      x ← sp_live s !! a; Some (mkSpec (<[a := call errno c x]> (sp_live s)) (sp_closed s) (sp_lines s))
  | PEnd a now =>
      x ← sp_live s !! a;
      if sp_closed s then None
      else Some (mkSpec (delete a (sp_live s)) (sp_closed s) (sp_lines s ++ [result (with_end now x)]))
  | PClose => if sp_closed s then None else Some (mkSpec (sp_live s) true (sp_lines s))
  | _ => Some s
  end.

Fixpoint both (os : list op) (r : Reporter) (s : spec) : option (Reporter * spec) :=
  match os with [] => Some (r, s) | o :: os => s' ← spec_step o r s; r' ← step o r; both os r' s' end.

(** Reused and fresh states differ only in the end time of the last use. *)
Definition same (s x : streamState) : Prop := with_end 0 s = with_end 0 x.

Lemma with_end_same now s x : same s x → with_end now s = with_end now x.
Proof. destruct s, x. unfold same. cbn. by intros [= -> -> -> -> -> -> -> -> -> ->]. Qed.
Lemma call_same errno c s x : same s x → same (call errno c s) (call errno c x).
Proof.
  destruct s, x. unfold same. cbn. intros [= -> -> -> -> -> -> -> -> -> ->].
  destruct c; cbn; try done. by repeat case_decide.
Qed.
Lemma reset_same t now s x : same (reset t now s) (reset t now x).
Proof. by destruct s, x. Qed.

Definition line_at (sts : list streamState) (a : nat) : bytes := result (default new_state (sts !! a)).

Record file_inv (r : Reporter) (s : spec) : Prop := {
  fi_nodup : NoDup (p_ch r ++ p_pool r);
  fi_bound a : a ∈ p_ch r ++ p_pool r → (a < length (p_states r))%nat ∧ sp_live s !! a = None;
  fi_live a x : sp_live s !! a = Some x → ∃ st, p_states r !! a = Some st ∧ same st x;
  fi_closed : sp_closed s = p_closed r;
  fi_lines : ∃ lost, sp_lines s = p_lines r ++ lost ++ (line_at (p_states r) <$> p_ch r) ∧ (p_run r ≠ Done true → lost = []);
  fi_few : (length (p_ch r) <= chanSize)%nat;
  fi_run : p_run r = Done false → p_ch r = [] ∧ p_closed r = true;
  fi_panic : p_panicked r = false
}.

Lemma new_inv : file_inv New (mkSpec ∅ false []).
Proof. split; cbn; try done; [apply NoDup_nil_2|by intros a ?%not_elem_of_nil|by exists []|lia]. Qed.

Lemma line_at_other (f : streamState → streamState) a sts (ch : list nat) : a ∉ ch → line_at (alter f a sts) <$> ch = line_at sts <$> ch.
Proof.
  intros Ha. apply list_fmap_ext. intros i b Hb. unfold line_at. rewrite list_lookup_alter_ne; [done|].
  intros ->. apply Ha. by eapply list_elem_of_lookup_2.
Qed.

Lemma file_acquire_inv t now r s : file_inv r s → sp_live s !! (Acquire t now r).1 = None ∧
  file_inv (Acquire t now r).2 (mkSpec (<[(Acquire t now r).1 := reset t now new_state]> (sp_live s)) (sp_closed s) (sp_lines s)).
Proof.
  intros [Hnd Hb Hl Hc Hln Hf Hr Hp]. unfold Acquire.
  assert (Hfar : ∀ a x, sp_live s !! a = Some x → (a < length (p_states r))%nat).
  { intros a x Ha. destruct (Hl a x Ha) as (st & Hst & _). by eapply lookup_lt_Some. }
  destruct (slice_Acquire_cases (p_pool r)) as [[E ->]|(v & k & E & ->)]; cbn [fst snd]; rewrite E in Hnd, Hb.
  - rewrite app_nil_r in Hnd, Hb. set (n := length (p_states r)).
    assert (sp_live s !! n = None) as Hn.
    { destruct (sp_live s !! n) eqn:En; [|done]. apply Hfar in En. lia. }
    assert (n ∉ p_ch r) as Hnch by (intros Hin; apply Hb in Hin; subst n; lia).
    split; [done|]. split; cbn; rewrite ?app_nil_r; try done.
    + intros a Ha. destruct (Hb a Ha) as [? ?]. rewrite length_alter, length_app. split; [cbn; lia|].
      rewrite lookup_insert_ne; [done|]. subst n. lia.
    + intros a x [[<- <-]|[Hne Ha]]%lookup_insert_Some.
      * exists (reset t now new_state). split; [|done]. rewrite list_lookup_alter_eq. subst n.
        by rewrite lookup_app_r, Nat.sub_diag by lia.
      * destruct (Hl a x Ha) as (st & Hst & Hs). exists st. rewrite list_lookup_alter_ne by done.
        rewrite lookup_app_l by (by eapply lookup_lt_Some). done.
    + destruct Hln as (lost & -> & Hlost). exists lost. split; [|done]. do 2 f_equal. rewrite line_at_other by done.
      apply list_fmap_ext. intros i b Hb'. unfold line_at. rewrite lookup_app_l; [done|]. apply Hb. by eapply list_elem_of_lookup_2.
  - assert (v ∉ p_ch r ++ k) as Hv.
    { rewrite app_assoc in Hnd. apply NoDup_app in Hnd as (_ & Hv & _). intros Hin. apply (Hv v Hin). by apply list_elem_of_singleton. }
    assert (Hin : ∀ a, a ∈ p_ch r ++ k → a ∈ p_ch r ++ k ++ [v]) by (intros a; rewrite !elem_of_app; naive_solver).
    destruct (Hb v) as [Hvl Hvn]; [rewrite !elem_of_app, list_elem_of_singleton; by auto|].
    split; [done|]. split; cbn; try done.
    + rewrite app_assoc in Hnd. by apply NoDup_app in Hnd as (? & _).
    + intros a Ha. destruct (Hb a (Hin a Ha)) as [? ?]. rewrite length_alter. split; [done|].
      rewrite lookup_insert_ne; [done|]. by intros ->.
    + intros a x [[<- <-]|[Hne Ha]]%lookup_insert_Some.
      * destruct (lookup_lt_is_Some_2 _ _ Hvl) as [st Hst]. exists (reset t now st).
        rewrite list_lookup_alter_eq, Hst. split; [done|apply reset_same].
      * destruct (Hl a x Ha) as (st & Hst & Hs). exists st. by rewrite list_lookup_alter_ne.
    + destruct Hln as (lost & -> & Hlost). exists lost. split; [|done]. do 2 f_equal. rewrite line_at_other; [done|].
      intros Hvc. apply Hv, elem_of_app. by left.
Qed.

(** A live state is not on its way to the file. *)
Lemma live_out r s a x : file_inv r s → sp_live s !! a = Some x → a ∉ p_ch r ++ p_pool r.
Proof. intros Hi Ha Hin. apply (fi_bound _ _ Hi) in Hin as [_ Hin]. congruence. Qed.

Lemma call_inv r s a x errno c : file_inv r s → sp_live s !! a = Some x →
  file_inv (mkReporter (p_pool r) (alter (call errno c) a (p_states r)) (p_ch r) (p_closed r) (p_run r) (p_lines r) (p_panicked r))
    (mkSpec (<[a := call errno c x]> (sp_live s)) (sp_closed s) (sp_lines s)).
Proof.
  intros Hi Ha. pose proof (live_out _ _ _ _ Hi Ha) as Hout. destruct Hi as [Hnd Hb Hl Hc Hln Hf Hr Hp].
  split; cbn; try done.
  - intros b Hb'. rewrite length_alter. destruct (Hb b Hb') as [? ?]. split; [done|]. rewrite lookup_insert_ne; [done|]. by intros ->.
  - intros b y [[<- <-]|[Hne Hy]]%lookup_insert_Some.
    + destruct (Hl a x Ha) as (st & Hst & Hs). exists (call errno c st). rewrite list_lookup_alter_eq, Hst.
      split; [done|by apply call_same].
    + destruct (Hl b y Hy) as (st & Hst & Hs). exists st. by rewrite list_lookup_alter_ne.
  - rewrite line_at_other; [done|]. intros Hin. apply Hout, elem_of_app. by left.
Qed.

Lemma file_end_inv r s a x now : file_inv r s → sp_live s !! a = Some x → sp_closed s = false → (length (p_ch r) < chanSize)%nat →
  file_inv (mkReporter (p_pool r) (alter (with_end now) a (p_states r)) (p_ch r ++ [a]) (p_closed r) (p_run r) (p_lines r) (p_panicked r))
    (mkSpec (delete a (sp_live s)) (sp_closed s) (sp_lines s ++ [result (with_end now x)])).
Proof.
  intros Hi Ha Hcl Hch. pose proof (live_out _ _ _ _ Hi Ha) as Hout. destruct Hi as [Hnd Hb Hl Hc Hln Hf Hr Hp].
  destruct (Hl a x Ha) as (st & Hst & Hs). split; cbn; try done.
  - rewrite <-app_assoc. cbn. rewrite <-Permutation_middle. by constructor.
  - intros b. rewrite length_alter, <-app_assoc. cbn. rewrite elem_of_app, elem_of_cons. intros Hb'.
    destruct (decide (b = a)) as [->|Hne].
    + split; [by eapply lookup_lt_Some|]. apply lookup_delete_eq.
    + rewrite lookup_delete_ne by done. apply Hb. rewrite elem_of_app. naive_solver.
  - intros b y [Hne Hy]%lookup_delete_Some. destruct (Hl b y Hy) as (st' & Hst' & Hs'). exists st'.
    by rewrite list_lookup_alter_ne.
  - destruct Hln as (lost & -> & Hlost). exists lost. split; [|done]. rewrite fmap_app, line_at_other.
    + cbn. assert (line_at (alter (with_end now) a (p_states r)) a = result (with_end now x)) as ->.
      { unfold line_at. rewrite list_lookup_alter_eq, Hst. cbn. by rewrite (with_end_same now st x Hs). }
      by rewrite <-!app_assoc.
    + intros Hin. apply Hout, elem_of_app. by left.
  - rewrite length_app. cbn. lia.
  - intros Hd. destruct (Hr Hd) as [_ Hcd]. congruence.
Qed.

Lemma write_inv r s a ch st : file_inv r s → p_run r = Running → p_ch r = a :: ch → p_states r !! a = Some st →
  file_inv (mkReporter (slice_Release a (p_pool r)) (p_states r) ch (p_closed r) (p_run r) (p_lines r ++ [result st]) (p_panicked r)) s.
Proof.
  intros [Hnd Hb Hl Hc Hln Hf Hr Hp] Hrun Hch Hst. rewrite Hch in *. unfold slice_Release. split; cbn; try done.
  - rewrite app_assoc, <-Permutation_cons_append. done.
  - intros b. rewrite app_assoc, <-Permutation_cons_append. apply Hb.
  - destruct Hln as (lost & -> & Hlost). exists []. rewrite (Hlost ltac:(by rewrite Hrun)). split; [|done]. cbn.
    unfold line_at at 1. rewrite Hst. by rewrite <-app_assoc.
  - cbn in Hf. lia.
  - by rewrite Hrun.
Qed.

Lemma file_step_inv o r s r' s' : file_inv r s → spec_step o r s = Some s' → step o r = Some r' → file_inv r' s'.
Proof.
  intros Hi Hs Hr. destruct o as [t now|a errno c|a now|ok| |]; cbn [spec_step] in Hs.
  - injection Hs as <-. destruct r as [free sts ch closed run lines panicked]. cbn [step] in Hr. injection Hr as <-. by apply file_acquire_inv.
  - apply bind_Some in Hs as (x & Hx & [= <-]). destruct r. cbn in Hr. injection Hr as <-. by eapply call_inv in Hi.
  - apply bind_Some in Hs as (x & Hx & Hs). destruct (sp_closed s) eqn:Hc; [done|]. injection Hs as <-.
    pose proof (fi_closed _ _ Hi) as Hc'. pose proof (file_end_inv r s a x now Hi Hx Hc) as He. destruct r; cbn in *.
    subst. rewrite Hc in Hr. case_decide; [|done]. injection Hr as <-. rewrite Hc in He. by apply He.
  - injection Hs as <-. destruct r as [free sts [|a ch] closed [|] lines panicked]; cbn in Hr; try done. destruct ok.
    + destruct (sts !! a) as [st|] eqn:Hst; [|done]. injection Hr as <-.
      by apply (write_inv _ _ a ch st Hi).
    + injection Hr as <-. destruct Hi as [Hnd Hb Hl Hc Hln Hf Hrun Hp]. cbn in *. split; cbn; try done.
      * by apply NoDup_cons in Hnd as [_ ?].
      * intros b Hb'. apply Hb. apply elem_of_cons. by right.
      * destruct Hln as (lost & -> & _). exists (lost ++ [line_at sts a]). split; [|done]. by rewrite <-!app_assoc.
      * lia.
  - destruct (sp_closed s) eqn:Hc; [done|]. injection Hs as <-. pose proof (fi_closed _ _ Hi) as Hc'. destruct r; cbn in *.
    rewrite Hc in Hc'. subst. injection Hr as <-. destruct Hi as [Hnd Hb Hl Hc' Hln Hf Hrun Hp]. split; try done.
    intros Hd. by destruct (Hrun Hd).
  - injection Hs as <-. destruct r as [free sts [|a ch] [|] [|] lines panicked]; cbn in Hr; try done. injection Hr as <-.
    destruct Hi as [Hnd Hb Hl Hc Hln Hf Hrun Hp]. cbn in *. split; cbn; try done. destruct Hln as (lost & -> & Hlost). exists lost. split; [done|].
    intros _. by apply Hlost.
Qed.

Lemma both_inv os : ∀ r s r' s', file_inv r s → both os r s = Some (r', s') → file_inv r' s'.
Proof.
  induction os as [|o os IH]; intros r s r' s' Hi Hb; cbn in Hb; [by injection Hb as <- <-|].
  apply bind_Some in Hb as (s1 & Hs1 & Hb). apply bind_Some in Hb as (r1 & Hr1 & Hb). eapply IH; [|done]. by eapply file_step_inv.
Qed.


Definition example_ops : list op :=
  [PAcquire (str "a") 1; PAcquire (str "b") 2; PCall 1 None (RSTStream 8); PEnd 1 5; PWrite true; PAcquire (str "c") 7;
   PCall 0 None (OnHeader (str ":status") (str "200")); PCall 0 None (OnHeader (str "grpc-status") (str "0")); PEnd 0 9; PClose;
   PWrite true; PRunEnd true].


(** A stream that ends after [Close] panics: the channel is closed. *)
Theorem end_after_close_panics r a now r' : p_closed r = true → step (PEnd a now) r = Some r' → p_panicked r' = true.
Proof. destruct r. cbn. intros ->. by intros [= <-]. Qed.

(** After a failed write [Run] has returned and nothing empties the channel: once it
    is full, every stream that ends blocks its receiver, for good. *)
Theorem failed_writer_blocks os r r' a now : p_run r = Done true → p_closed r = false → length (p_ch r) = chanSize → PClose ∉ os →
  steps os r = Some r' → step (PEnd a now) r' = None.
Proof.
  revert r. induction os as [|o os IH]; intros r Hr Hc Hl Hno Hs; cbn [steps] in Hs.
  - injection Hs as <-. destruct r as [free sts ch closed run lines pn]. cbn in *. subst. rewrite decide_False by lia. done.
  - apply bind_Some in Hs as (r1 & H1 & Hs). apply not_elem_of_cons in Hno as [Ho Hno].
    destruct r as [free sts ch closed run lines pn]. cbn in Hr, Hc, Hl. subst closed run.
    destruct o as [t nw|b e c|b nw|ok| |ok]; cbn [step] in H1; try done.
    + injection H1 as <-. eapply IH; [..|exact Hno|exact Hs]; unfold Acquire; cbn [p_pool]; by destruct (slice_Acquire free) as [[]].
    + injection H1 as <-. by eapply IH; [..|exact Hno|exact Hs].
    + rewrite decide_False in H1 by lia. done.
Qed.
