(* ===== verification/Scheduler.v ===== *)
(** * Scheduler: pacing the requests

    Models src/scheduler/scheduler.go (its linear profile is in [Line]) and the
    workers of src/cmd/framer/cmd_load.go that share one counter of requests and ask
    the scheduler when to send each. *)
From S2P Require Import Prelude Duration.

#[local] Open Scope Z_scope.

(** ** Schedulers

    [Next]: when to send the request numbered [currentReq], and whether to go on. *)
Class Scheduler (S : Type) := { Next : Z → S → Z * bool }.

Record Constant := mkConstant { interval : Z }.

(** [NewConstant]; [None]: the error.  The frequency is converted to a signed
    number. *)
Definition NewConstant (freq : Z) : option Constant :=
  if freq =? 0 then None else Some (mkConstant (Z.quot Second (i64 freq))).

#[export] Instance constant_scheduler : Scheduler Constant :=
  {| Next currentReq cp := (i64 (currentReq * interval cp), true) |}.

Definition Unlimited : Type := unit.
#[export] Instance unlimited_scheduler : Scheduler Unlimited := {| Next _ _ := (0, true) |}.

Record CountLimiter (S : Type) := NewCountLimiter { cl_s : S; limit : Z }.
Arguments NewCountLimiter {S} _ _.
Arguments cl_s {S} _.
Arguments limit {S} _.

#[export] Instance count_limiter {S} `{!Scheduler S} : Scheduler (CountLimiter S) :=
  {| Next currentReq cl := if limit cl <=? currentReq then (0, false) else Next currentReq (cl_s cl) |}.

(** ** What the command line selects: [AfterApply]

    A scheduler, and a limit on the duration unless none is given. *)
Definition maxDuration : Z := 2 ^ 63 - 1.
Definition rps_const (freq duration : Z) : option (Constant * Z) :=
  s ← NewConstant freq; Some (s, if duration =? 0 then maxDuration else duration).
Definition rps_unlimited (count duration : Z) : (Unlimited + CountLimiter Unlimited) * Z :=
  (if count =? 0 then inl tt else inr (NewCountLimiter (tt : Unlimited) (i64 count)),
   if duration =? 0 then maxDuration else duration).

(** ** The workers of [LoadCommand.Run]

    Each worker takes the next number of the shared counter, asks for its time,
    and stops on a refusal or when the time is past the limit; otherwise it sends
    a request.  [w_n]: the counter; [w_running]: the workers still in their loop;
    [w_sent]: the numbers of the requests sent, with their times. *)
Section workers.
Context {S : Type} `{!Scheduler S} (sched : S) (duration : Z).

Record load := mkLoad { w_n : Z; w_running : list bool; w_sent : list (Z * Z) }.

Definition Run_init (clients : nat) : load := mkLoad 0 (replicate clients true) [].

Definition admits (k : Z) : bool := let '(at_, ok) := Next k sched in ok && negb (duration <? at_).

(** One turn of the loop of worker [w]; [None]: it has stopped. *)
Definition turn (w : nat) (s : load) : option load :=
  match w_running s !! w with
  | Some true =>
      let k := i64 (w_n s + 1) in
      if admits k then Some (mkLoad k (w_running s) (w_sent s ++ [(k, (Next k sched).1)]))
      else Some (mkLoad k (<[w := false]> (w_running s)) (w_sent s))
  | _ => None
  end.

Fixpoint turns (ws : list nat) (s : load) : option load :=
  match ws with [] => Some s | w :: ws => s ← turn w s; turns ws s end.

Definition stopped (s : load) : nat := length (filter (λ b, b = false) (w_running s)).

(** The scheduler admits the first [last] requests and refuses those after them,
    as far as the workers look. *)
Context (last : Z) (clients : nat) (last_nonneg : 0 <= last) (small : last + Z.of_nat clients < 2 ^ 63).
Context (admits_iff : ∀ k, 1 <= k <= last + Z.of_nat clients → admits k = bool_decide (k <= last)).

Definition numbers (m : Z) : list (Z * Z) := (λ i, let k := Z.of_nat i + 1 in (k, (Next k sched).1)) <$> seq 0 (Z.to_nat m).

Record load_inv (s : load) : Prop := {
  li_len : length (w_running s) = clients;
  li_n : 0 <= w_n s <= last + Z.of_nat (stopped s);
  li_sent : w_sent s = numbers (Z.min (w_n s) last);
  li_stopped : (0 < stopped s)%nat → last < w_n s
}.

Lemma stopped_insert l w : l !! w = Some true →
  length (filter (λ b, b = false) (<[w := false]> l)) = Datatypes.S (length (filter (λ b, b = false) l)).
Proof.
  revert w. induction l as [|b l IH]; intros [|w] Hw; try done.
  - injection Hw as ->. done.
  - change (<[Datatypes.S w := false]> (b :: l)) with (b :: <[w := false]> l). cbn in Hw.
    rewrite !filter_cons. repeat case_decide; cbn [length]; by rewrite (IH w Hw).
Qed.

Lemma stopped_le l w : l !! w = Some true → (length (filter (λ b, b = false) l) < length l)%nat.
Proof.
  revert w. induction l as [|b l IH]; intros [|w] Hw; try done.
  - injection Hw as ->. rewrite filter_cons, decide_False by done. pose proof (length_filter (λ b, b = false) l). cbn. lia.
  - cbn in Hw. specialize (IH w Hw). rewrite filter_cons. case_decide; cbn [length]; lia.
Qed.

Lemma init_inv : load_inv (Run_init clients).
Proof.
  assert (stopped (Run_init clients) = 0%nat) as H.
  { unfold stopped. cbn. clear. induction clients as [|n IH]; [done|]. cbn [replicate]. by rewrite filter_cons, decide_False. }
  split; rewrite ?H; cbn; [apply length_replicate|lia|by rewrite Z.min_l by done|lia].
Qed.

Lemma numbers_snoc m : 0 <= m → numbers (m + 1) = numbers m ++ [(m + 1, (Next (m + 1) sched).1)].
Proof.
  intros Hm. unfold numbers. replace (Z.to_nat (m + 1)) with (Z.to_nat m + 1)%nat by lia.
  rewrite seq_app, fmap_app. cbn. by rewrite Z2Nat.id by done.
Qed.

Lemma turn_inv w s s' : load_inv s → turn w s = Some s' → load_inv s' ∧ w_n s' = w_n s + 1.
Proof.
  intros [H1 H2 H3 H4] Ht. unfold turn in Ht. destruct (w_running s !! w) as [[|]|] eqn:Hw; try done.
  pose proof (stopped_le _ _ Hw) as Hlt. rewrite H1 in Hlt. fold (stopped s) in Hlt.
  rewrite (i64_id (w_n s + 1)) in Ht by lia. rewrite admits_iff in Ht by lia.
  destruct (decide (w_n s + 1 <= last)) as [Hle|Hgt].
  - rewrite bool_decide_true in Ht by done. injection Ht as <-. split; [|done]. split; cbn -[stopped]; try done.
    + unfold stopped. cbn. fold (stopped s). lia.
    + rewrite H3, !Z.min_l by lia. by rewrite numbers_snoc by lia.
    + intros Hs. specialize (H4 Hs). lia.
  - rewrite bool_decide_false in Ht by done. injection Ht as <-. split; [|done].
    assert (stopped (mkLoad (w_n s + 1) (<[w:=false]> (w_running s)) (w_sent s)) = Datatypes.S (stopped s)) as Hst
      by (by apply stopped_insert).
    split; rewrite ?Hst; cbn [w_running w_n w_sent].
    + by rewrite length_insert.
    + lia.
    + rewrite H3. f_equal. lia.
    + lia.
Qed.

Lemma turns_inv ws s s' : load_inv s → turns ws s = Some s' → load_inv s' ∧ w_n s' = w_n s + zlen ws.
Proof.
  revert s. induction ws as [|w ws IH]; intros s Hi Ht; cbn in Ht.
  - injection Ht as <-. split; [done|]. rewrite zlen_nil. lia.
  - apply bind_Some in Ht as (s1 & H1 & Ht). destruct (turn_inv w s s1 Hi H1) as [Hi1 Hn1].
    destruct (IH s1 Hi1 Ht) as [Hi' Hn']. split; [done|]. rewrite zlen_cons. lia.
Qed.

Lemma stopped_length s : load_inv s → (stopped s <= clients)%nat.
Proof. intros Hi. rewrite <-(li_len s Hi). apply length_filter. Qed.

(** Requests go out once each, in the order of their numbers; a worker stops only
    when all of them have gone; and the workers together stop after a bounded
    number of turns. *)
Lemma load_exact ws s : turns ws (Run_init clients) = Some s →
  w_sent s = numbers (Z.min (zlen ws) last) ∧ zlen ws <= last + Z.of_nat clients ∧
  ((0 < stopped s)%nat → w_sent s = numbers last).
Proof.
  intros Ht. destruct (turns_inv ws _ _ init_inv Ht) as [Hi Hn]. cbn in Hn. split_and!.
  - rewrite (li_sent s Hi). f_equal. lia.
  - pose proof (li_n s Hi). pose proof (stopped_length s Hi). lia.
  - intros Hs. rewrite (li_sent s Hi). f_equal. pose proof (li_stopped s Hi Hs). lia.
Qed.
End workers.

(** ** Rates and limits *)
Lemma constant_admits freq D cp k : NewConstant freq = Some cp → 1 <= freq <= 10 ^ 9 → 0 <= D → 0 <= k → k * interval cp < 2 ^ 63 →
  0 < interval cp ∧ (Next k cp).1 = k * interval cp ∧ admits cp D k = bool_decide (k <= D / interval cp).
Proof.
  unfold NewConstant. intros Hc Hf HD Hk Hs. destruct (freq =? 0); [done|]. injection Hc as <-. cbn [interval] in *.
  assert (0 < Z.quot Second (i64 freq)) as Hpos.
  { rewrite i64_id by lia. change Second with (10 ^ 9). rewrite Z.quot_div_nonneg by lia. apply Z.div_str_pos. lia. }
  set (iv := Z.quot Second (i64 freq)) in *. split; [done|].
  unfold admits. cbn [Next constant_scheduler interval fst]. rewrite i64_id by nia. split; [done|]. cbn [andb].
  destruct (Z.ltb_spec D (k * iv)) as [Hlt|Hge]; cbn [negb].
  - rewrite bool_decide_false; [done|]. intros Hle. pose proof (Z.mul_div_le D iv Hpos). nia.
  - rewrite bool_decide_true; [done|]. apply Z.div_le_lower_bound; lia.
Qed.



Lemma turns_running {S} `{!Scheduler S} (sched : S) d ws s s' : (∀ k, admits sched d k = true) →
  turns sched d ws s = Some s' → w_running s' = w_running s.
Proof.
  intros Ha. revert s. induction ws as [|w ws IH]; intros s Ht; cbn in Ht; [by injection Ht as <-|].
  apply bind_Some in Ht as (s1 & H1 & Ht). rewrite (IH s1 Ht). unfold turn in H1.
  destruct (w_running s !! w) as [[|]|]; try done. rewrite Ha in H1. by injection H1 as <-.
Qed.

(** Every turn sends a request, with the time the scheduler gives. *)
Lemma turns_sent {S} `{!Scheduler S} (sched : S) d ws s s' (P : Z * Z → Prop) : (∀ k, admits sched d k = true) →
  (∀ k, P (k, (Next k sched).1)) → turns sched d ws s = Some s' → Forall P (w_sent s) →
  length (w_sent s') = (length (w_sent s) + length ws)%nat ∧ Forall P (w_sent s').
Proof.
  intros Ha HP. revert s. induction ws as [|w ws IH]; intros s Ht Hs; cbn in Ht; [injection Ht as <-; split; [cbn; lia|done]|].
  apply bind_Some in Ht as (s1 & H1 & Ht). unfold turn in H1.
  destruct (w_running s !! w) as [[|]|]; try done. rewrite Ha in H1. injection H1 as <-.
  destruct (IH _ Ht) as [Hl Hf].
  - apply Forall_app. split; [done|]. apply Forall_singleton, HP.
  - split; [|done]. rewrite Hl. cbn. rewrite length_app. cbn. lia.
Qed.

(** Limits of an unlimited rate.  A limit of [count] requests lets [count - 1] out:
    the first number the workers take is 1, and the limiter refuses the number
    [count].  A limit of the duration alone stops nothing: the time of every
    request is 0. *)
Theorem unlimited_limits count D clients sched d ws :
  0 < count → count + Z.of_nat clients < 2 ^ 63 → 0 <= D → rps_unlimited count D = (inr sched, d) →
  (∀ s, turns sched d ws (Run_init clients) = Some s →
    zlen (w_sent s) <= count - 1 ∧ ((0 < stopped s)%nat → zlen (w_sent s) = count - 1)) ∧
  (∀ s, turns (tt : Unlimited) d ws (Run_init clients) = Some s → w_running s = replicate clients true).
Proof.
  intros Hc Hs HD Hr. unfold rps_unlimited in Hr. rewrite (proj2 (Z.eqb_neq count 0)) in Hr by lia.
  rewrite i64_id in Hr by lia. injection Hr as <- Hd.
  assert (0 <= d) as Hd0 by (subst d; destruct (D =? 0); unfold maxDuration; lia).
  assert (Hneg : (d <? 0) = false) by (by apply Z.ltb_ge).
  split; intros s Ht.
  - assert (Hadm : ∀ k, 1 <= k <= count - 1 + Z.of_nat clients →
      admits (NewCountLimiter (tt : Unlimited) count) d k = bool_decide (k <= count - 1)).
    { intros k Hk. unfold admits. cbn [Next count_limiter limit cl_s unlimited_scheduler].
      destruct (Z.leb_spec count k); [rewrite bool_decide_false by lia; done|rewrite bool_decide_true by lia].
      cbn. by rewrite Hneg. }
    destruct (load_exact _ d (count - 1) clients ltac:(lia) ltac:(lia) Hadm ws s Ht) as (H1 & _ & H3).
    assert (Hlen : ∀ m, 0 <= m → zlen (numbers (NewCountLimiter (tt : Unlimited) count) m) = m).
    { intros m Hm. unfold zlen, numbers. rewrite length_fmap, length_seq. lia. }
    pose proof (zlen_nonneg ws). split.
    + rewrite H1, Hlen by lia. lia.
    + intros Hst. rewrite H3, Hlen by (done || lia). done.
  - apply (turns_running (S := Unlimited) tt d ws (Run_init clients) s); [|exact Ht]. intros k. unfold admits. cbn. by rewrite Hneg.
Qed.

Theorem unlimited_limits_witness :
  ∃ sched d, rps_unlimited 3 0 = (inr sched, d) ∧
    (∀ s, turns sched d [0; 0; 1; 0]%nat (Run_init 2) = Some s →
      zlen (w_sent s) <= 2 ∧ ((0 < stopped s)%nat → zlen (w_sent s) = 2)) ∧
    (∀ s, turns (tt : Unlimited) d [0; 0; 1; 0]%nat (Run_init 2) = Some s → w_running s = [true; true]).
Proof.
  do 2 eexists. split; [reflexivity|].
  apply (unlimited_limits 3 0 2 _ _ [0; 0; 1; 0]%nat ltac:(lia) ltac:(lia) ltac:(lia) eq_refl).
Defined.
