(* ===== verification/Line.v ===== *)
(** * Line: the rate that grows linearly

    Models [Line] of src/scheduler/scheduler.go and [RPSLine] of
    src/cmd/framer/cmd_load.go.  It computes in float64; the operations are those of
    IEEE 754 binary64, rounded to nearest, as the Standard Library specifies them
    ([SpecFloat]), one rounding per operation of the source. *)
From Stdlib Require Import SpecFloat.
From S2P Require Import Prelude Scheduler.

#[local] Open Scope Z_scope.

(** float64. *)
Definition float64 : Type := spec_float.
Definition prec : Z := 53.
Definition emax : Z := 1024.
Definition fadd : float64 → float64 → float64 := SFadd prec emax.
Definition fsub : float64 → float64 → float64 := SFsub prec emax.
Definition fmul : float64 → float64 → float64 := SFmul prec emax.
Definition fdiv : float64 → float64 → float64 := SFdiv prec emax.
Definition fsqrt : float64 → float64 := SFsqrt prec emax.
Definition of_int (n : Z) : float64 := binary_normalize prec emax n 0 false.

Section line.
(** The conversion of a float64 that no int64 is near to, which the language leaves
    to the implementation. *)
Context (conv : float64 → Z).

(** [time.Duration(f)]: the integer part. *)
Definition to_int64 (f : float64) : Z :=
  match f with
  | S754_zero _ => 0
  | S754_finite s m e =>
      let n := if 0 <=? e then Z.pos m * 2 ^ e else Z.pos m / 2 ^ (- e) in
      let n := if s then - n else n in
      if (- 2 ^ 63 <=? n) && (n <? 2 ^ 63) then n else conv f
  | _ => conv f
  end.

Record Line := mkLine { b : float64; twoA : float64; bSquare : float64; bilionDivA : float64 }.

(** [d/1e9] is a division of durations. *)
Definition NewLine (from to : float64) (d : Z) : Line :=
  let a := fdiv (fsub to from) (of_int (Z.quot d (10 ^ 9))) in
  let b := from in
  mkLine from (fmul (of_int 2) a) (fmul b b) (fdiv (of_int (10 ^ 9)) a).

(** The argument of the conversion in [Next]. *)
Definition line_time (currentReq : Z) (cp : Line) : float64 :=
  fmul (fsub (fsqrt (fadd (fmul (twoA cp) (of_int currentReq)) (bSquare cp))) (b cp)) (bilionDivA cp).

#[export] Instance line_scheduler : Scheduler Line := {| Next currentReq cp := (to_int64 (line_time currentReq cp), true) |}.

(** [RPSLine.AfterApply]: the scheduler and the limit of the duration. *)
Definition rps_line (from to : float64) (duration : Z) : Line * Z :=
  (NewLine from to duration, if duration =? 0 then maxDuration else duration).

(** ** Rates that are none *)

(** Infinite or not a number. *)
Definition no_number (f : float64) : bool := match f with S754_infinity _ | S754_nan => true | _ => false end.

Lemma fsub_same x : fsub x x = S754_zero false ∨ fsub x x = S754_nan.
Proof.
  unfold fsub, SFsub. destruct x as [[]|[]| |[] m e]; auto; left; rewrite Z.sub_diag; done.
Qed.

(** Times infinity there is no number. *)
Lemma fmul_inf x s : no_number (fmul x (S754_infinity s)) = true.
Proof. by destruct x. Qed.
Lemma fmul_nan x : no_number (fmul x S754_nan) = true.
Proof. by destruct x. Qed.

Lemma one_billion : of_int (10 ^ 9) = S754_finite false 8388608000000000 (-23).
Proof. vm_compute. reflexivity. Qed.

Lemma flat_no_number from d k : no_number (line_time k (NewLine from from d)) = true.
Proof.
  unfold line_time, NewLine. cbn [bilionDivA]. rewrite one_billion.
  assert (∀ x, (∃ s, fdiv (S754_zero false) x = S754_zero s) ∨ fdiv (S754_zero false) x = S754_nan) as Hz.
  { intros [s|s| |s m e]; cbn; eauto. }
  destruct (fsub_same from) as [-> | ->].
  - destruct (Hz (of_int (Z.quot d (10 ^ 9)))) as [[s ->] | ->]; [apply fmul_inf|apply fmul_nan].
  - apply fmul_nan.
Qed.

(** An infinite sum stays infinite or becomes no number. *)
Lemma fadd_inf s y : (∃ s', fadd (S754_infinity s) y = S754_infinity s') ∨ fadd (S754_infinity s) y = S754_nan.
Proof. destruct y as [u|[]| |u m e], s; cbn; eauto. Qed.
Lemma fsub_inf s y : (∃ s', fsub (S754_infinity s) y = S754_infinity s') ∨ fsub (S754_infinity s) y = S754_nan.
Proof. destruct y as [u|[]| |u m e], s; cbn; eauto. Qed.
Lemma fmul_from_inf s y : (∃ s', fmul (S754_infinity s) y = S754_infinity s') ∨ fmul (S754_infinity s) y = S754_nan.
Proof. destruct y as [u|u| |u m e]; cbn; eauto. Qed.
Lemma fsqrt_inf s : fsqrt (S754_infinity s) = S754_infinity false ∨ fsqrt (S754_infinity s) = S754_nan.
Proof. destruct s; cbn; auto. Qed.

Lemma short_no_number from to d k : 0 <= d < 10 ^ 9 → line_time k (NewLine from to d) = S754_nan.
Proof.
  intros Hd. unfold line_time, NewLine. cbn [twoA bSquare b bilionDivA]. rewrite one_billion, Z.quot_small by done.
  change (of_int 0) with (S754_zero false). change (of_int 2) with (S754_finite false 4503599627370496 (-51)).
  assert ((∃ s, fdiv (fsub to from) (S754_zero false) = S754_infinity s) ∨ fdiv (fsub to from) (S754_zero false) = S754_nan) as [[s ->]| ->].
  { destruct (fsub to from); cbn; eauto. }
  - change (fmul (S754_finite false 4503599627370496 (-51)) (S754_infinity s)) with (S754_infinity s).
    change (fdiv (S754_finite false 8388608000000000 (-23)) (S754_infinity s)) with (S754_zero s).
    destruct (fmul_from_inf s (of_int k)) as [[s1 ->]| ->]; [|done].
    destruct (fadd_inf s1 (fmul from from)) as [[s2 ->]| ->]; [|done].
    destruct (fsqrt_inf s2) as [-> | ->]; [|done].
    by destruct (fsub_inf false from) as [[s3 ->]| ->].
  - by destruct (fsub _ _).
Qed.
End line.


(** The conversion of amd64. *)
Definition amd64_conv (f : float64) : Z := - 2 ^ 63.


(** From 0 to 10 requests a second in 10 seconds: the request numbered 2 is due
    after two seconds, the request numbered 50 after ten. *)
Example line_times : let _ := line_scheduler amd64_conv in let cp := NewLine (of_int 0) (of_int 10) (10 * 10 ^ 9) in
  (λ k, (Next k cp).1) <$> [2; 8; 50] = [2 * 10 ^ 9; 4 * 10 ^ 9; 10 * 10 ^ 9].
Proof. vm_compute. reflexivity. Qed.
