(* ===== verification/Loader.v ===== *)
(** * Loader: setting up a connection, and its end

    Models src/loader/loader.go: the HTTP/2 preface and the settings of the server
    ([setupHTTP2]), the parts a connection is built from ([newLoader]), and what
    becomes of the streams when the server says GOAWAY ([runReciever]).  Reading
    and writing whole frames at set-up is done by golang.org/x/net/http2: which
    frame was read, and which writes succeed, are arguments. *)
From S2P Require Import Prelude FrameHeader Types Store Handlers FlowControl Limiter Pool.

#[local] Open Scope Z_scope.

(** [loaderConfig]. *)
Record loaderConfig := mkConfig {
  disableSendBatching : bool; timeout : Z;
  maxConcurrentStreams : Z; initialWindowSize : Z; maxDymanicTableSize : Z; maxFrameSize : Z; maxHeaderListSize : Z
}.

(** The identifiers of RFC 9113, section 6.5.2. *)
Definition SettingHeaderTableSize : Z := 1.
Definition SettingMaxConcurrentStreams : Z := 3.
Definition SettingInitialWindowSize : Z := 4.
Definition SettingMaxFrameSize : Z := 5.
Definition SettingMaxHeaderListSize : Z := 6.

(** One setting, in the loop of [setupHTTP2]; others are only logged. *)
Definition handle_setting (conf : loaderConfig) (s : Z * Z) : loaderConfig :=
  let '(mkConfig d t mcs iws mts mfs mhls) := conf in
  let '(id, val) := s in
  if id =? SettingInitialWindowSize then mkConfig d t mcs val mts mfs mhls
  else if id =? SettingMaxConcurrentStreams then mkConfig d t val iws mts mfs mhls
  else if id =? SettingHeaderTableSize then mkConfig d t mcs iws val mfs mhls
  else if id =? SettingMaxFrameSize then mkConfig d t mcs iws mts val mhls
  else if id =? SettingMaxHeaderListSize then mkConfig d t mcs iws mts mfs val
  else conf.

Definition clientPreface : bytes := str "PRI * HTTP/2.0" ++ [13; 10; 13; 10] ++ str "SM" ++ [13; 10; 13; 10].

(** The empty SETTINGS frame and the acknowledgement. *)
Definition settings_frame : bytes := header_bytes 0 FrameSettings 0 0.
Definition settings_ack : bytes := header_bytes 0 FrameSettings FlagSettingsAck 0.

(** The first frame of the server. *)
Inductive server_frame := SettingsFrame (settings : list (Z * Z)) | OtherFrame.

Inductive setup_error := PrefaceError | ReadFrameError | NotSettings | WriteSettingsError | WriteAckError.

(** [setupHTTP2]: the error, the configuration, and what was written before it;
    [write i]: the write numbered [i] succeeds. *)
Definition setupHTTP2 (write : nat → bool) (first : option server_frame) (conf : loaderConfig)
    : option setup_error * loaderConfig * bytes :=
  if negb (write 0%nat) then (Some PrefaceError, conf, [])
  else match first with
  | None => (Some ReadFrameError, conf, clientPreface)
  | Some OtherFrame => (Some NotSettings, conf, clientPreface)
  | Some (SettingsFrame ss) =>
      let conf := fold_left handle_setting ss conf in
      if negb (write 1%nat) then (Some WriteSettingsError, conf, clientPreface)
      else if negb (write 2%nat) then (Some WriteAckError, conf, clientPreface ++ settings_frame)
      else (None, conf, clientPreface ++ settings_frame ++ settings_ack)
  end.

Definition DefaultTimeout : Z := 11 * 10 ^ 9.
Definition DefaultMaxFrameSize : Z := 16384.
Definition DefaultMaxHeaderListSize : Z := 2 ^ 32 - 1.

(** What [newLoader] hands to the sender and the receiver. *)
Record Loader := mkLoader {
  l_timeout : Z;
  l_fcConn : FlowControl;
  l_pool : StreamsPool;
  l_limiter : noopLimiter + limiter;
  l_store : ShardedStreamsMap StreamsMap;
  l_tableSize : option Z;
  l_maxFrameSize : Z;
  l_maxHeaderListSize : Z;
  l_disableSendBatching : bool
}.

(** A value of 0 stands for a setting the server did not send. *)
Definition nonzero (v : Z) : option Z := if v =? 0 then None else Some v.

Definition newLoader (conf : loaderConfig) : Loader :=
  mkLoader
    (default DefaultTimeout (nonzero (timeout conf)))
    (NewFlowControl DefaultInitialWindowSize)
    (NewStreamsPool (Z.to_N <$> nonzero (initialWindowSize conf)))
    (Limiter.New (Z.to_N (maxConcurrentStreams conf)))
    loaderStore
    (nonzero (maxDymanicTableSize conf))
    (default DefaultMaxFrameSize (nonzero (maxFrameSize conf)))
    (default DefaultMaxHeaderListSize (nonzero (maxHeaderListSize conf)))
    (disableSendBatching conf).

(** ** Settings *)

(** The value a server announces for a setting: the last one it sends. *)
Fixpoint announced (id : Z) (ss : list (Z * Z)) : option Z :=
  match ss with
  | [] => None
  | (i, v) :: ss => match announced id ss with Some v => Some v | None => if i =? id then Some v else None end
  end.
Definition effective (id : Z) (ss : list (Z * Z)) : option Z := announced id ss ≫= nonzero.

Lemma handle_settings ss : ∀ conf,
  let conf' := fold_left handle_setting ss conf in
  maxConcurrentStreams conf' = default (maxConcurrentStreams conf) (announced SettingMaxConcurrentStreams ss) ∧
  initialWindowSize conf' = default (initialWindowSize conf) (announced SettingInitialWindowSize ss) ∧
  maxDymanicTableSize conf' = default (maxDymanicTableSize conf) (announced SettingHeaderTableSize ss) ∧
  maxFrameSize conf' = default (maxFrameSize conf) (announced SettingMaxFrameSize ss) ∧
  maxHeaderListSize conf' = default (maxHeaderListSize conf) (announced SettingMaxHeaderListSize ss) ∧
  timeout conf' = timeout conf ∧ disableSendBatching conf' = disableSendBatching conf.
Proof.
  induction ss as [|[i v] ss IH]; intros conf; [done|]. cbn [fold_left announced].
  destruct (IH (handle_setting conf (i, v))) as (H1 & H2 & H3 & H4 & H5 & H6 & H7).
  cbv zeta. rewrite H1, H2, H3, H4, H5, H6, H7. clear. destruct conf. unfold handle_setting, SettingHeaderTableSize,
    SettingMaxConcurrentStreams, SettingInitialWindowSize, SettingMaxFrameSize, SettingMaxHeaderListSize.
  destruct (Z.eqb_spec i 4), (Z.eqb_spec i 3), (Z.eqb_spec i 1), (Z.eqb_spec i 5), (Z.eqb_spec i 6); try lia; cbn;
    repeat (case_match; cbn); done.
Qed.

Lemma default_nonzero d o : default d (nonzero (default 0 o)) = default d (o ≫= nonzero).
Proof. by destruct o as [v|]. Qed.
Lemma nonzero_default o : nonzero (default 0 o) = o ≫= nonzero.
Proof. by destruct o as [v|]. Qed.

Definition no_settings (d : bool) (t : Z) : loaderConfig := mkConfig d t 0 0 0 0 0.

(** A handshake that succeeds. *)
Lemma setupHTTP2_run write first conf conf' sent : setupHTTP2 write first conf = (None, conf', sent) →
  ∃ ss, first = Some (SettingsFrame ss) ∧ conf' = fold_left handle_setting ss conf ∧
    sent = clientPreface ++ settings_frame ++ settings_ack.
Proof.
  unfold setupHTTP2. destruct (write 0%nat); [|done]. destruct first as [[ss|]|]; [|done..].
  destruct (write 1%nat), (write 2%nat); try done. intros [= <- <-]. by exists ss.
Qed.

(** What is made of the settings. *)
Lemma newLoader_settings d t ss :
  let l := newLoader (fold_left handle_setting ss (no_settings d t)) in
  l_maxFrameSize l = default 16384 (effective SettingMaxFrameSize ss) ∧
  l_maxHeaderListSize l = default (2 ^ 32 - 1) (effective SettingMaxHeaderListSize ss) ∧
  l_tableSize l = effective SettingHeaderTableSize ss ∧
  l_pool l = NewStreamsPool (Z.to_N <$> effective SettingInitialWindowSize ss) ∧
  l_limiter l = Limiter.New (Z.to_N (default 0 (announced SettingMaxConcurrentStreams ss))) ∧
  l_fcConn l = NewFlowControl 65535 ∧ l_store l = loaderStore.
Proof.
  destruct (handle_settings ss (no_settings d t)) as (E1 & E2 & E3 & E4 & E5 & _).
  cbv zeta. unfold newLoader. cbn [l_maxFrameSize l_maxHeaderListSize l_tableSize l_pool l_limiter l_fcConn l_store].
  rewrite E1, E2, E3, E4, E5. cbn [no_settings maxConcurrentStreams initialWindowSize maxDymanicTableSize maxFrameSize maxHeaderListSize].
  by rewrite !default_nonzero, !nonzero_default.
Qed.

(** C27: A connection follows the settings of the server: of each setting the last value
    sent counts, and the default of the protocol or of the program applies to one
    that was not sent or sent as 0, which for the concurrent streams and for the
    window is not what the value 0 says.  The client has then sent the preface, its
    settings and the acknowledgement; the window of the connection is 65535
    whatever the server announces.  When the first frame is not SETTINGS, or a
    read or a write fails, there is an error, and no acknowledgement was sent. *)
Theorem loader_follows_settings write first d t :
  match setupHTTP2 write first (no_settings d t) with
  | (None, conf, sent) =>
      ∃ ss, first = Some (SettingsFrame ss) ∧ sent = clientPreface ++ settings_frame ++ settings_ack ∧
        let l := newLoader conf in
        l_maxFrameSize l = default 16384 (effective SettingMaxFrameSize ss) ∧
        l_maxHeaderListSize l = default (2 ^ 32 - 1) (effective SettingMaxHeaderListSize ss) ∧
        l_tableSize l = effective SettingHeaderTableSize ss ∧
        Pool.initialWindowSize (l_pool l) = default 65535%N (Z.to_N <$> effective SettingInitialWindowSize ss) ∧
        (Forall (λ s, 0 <= s.2) ss → l_limiter l = match effective SettingMaxConcurrentStreams ss with
          | Some q => inr (mkLimiter (Z.to_N q)) | None => inl tt end) ∧
        l_fcConn l = NewFlowControl 65535
  | (Some e, _, sent) =>
      (∃ rest, clientPreface ++ settings_frame = sent ++ rest) ∧
      (write 0%nat = false ∨ first = None ∨ first = Some OtherFrame ∨ write 1%nat = false ∨ write 2%nat = false)
  end.
Proof.
  unfold setupHTTP2. destruct (write 0%nat) eqn:H0; cbn [negb]; [|split; [by eexists|by left]].
  destruct first as [[ss|]|]; [|split; [by eexists|naive_solver]..].
  destruct (write 1%nat) eqn:H1; cbn [negb]; [|split; [by eexists|naive_solver]].
  destruct (write 2%nat) eqn:H2; cbn [negb]; [|split; [exists []; by rewrite app_nil_r|naive_solver]].
  exists ss. split; [done|]. split; [done|]. destruct (newLoader_settings d t ss) as (-> & -> & -> & -> & -> & -> & _).
  cbv zeta. split_and!; try done. intros Hss. unfold effective, Limiter.New.
  assert (Hpos : ∀ v, announced SettingMaxConcurrentStreams ss = Some v → 0 <= v).
  { clear -Hss. induction Hss as [|[i v] ss Hv _ IH]; [done|]. cbn [announced]. intros w.
    destruct (announced SettingMaxConcurrentStreams ss); [by apply IH|]. case_match; [|done]. by intros [= <-]. }
  destruct (announced SettingMaxConcurrentStreams ss) as [v|]; [|done]. specialize (Hpos v eq_refl).
  cbn [default mbind option_bind]. unfold nonzero. destruct (Z.eqb_spec v 0) as [->|]; [done|].
  change (id v) with v. rewrite (proj2 (N.eqb_neq (Z.to_N v) 0)) by lia. done.
Qed.

(** ** GOAWAY *)
Section goaway.
Context {S HErr : Type} `{!StreamStore S}.
Context (ID : stream → Z).

(** What the loop over the streams does to one. *)
Definition goaway_stream (last code : Z) (debug : bytes) (s : stream) : list event :=
  if last <? ID s then [EvStream s (GoAway code debug); EvStream s End_] else [].

(** [runReciever], given how the receiver ended and whether the context was
    cancelled: the error it returns, and what it has done. *)
Definition runReciever (ctxDone : bool) (o : outcome (RecvError HErr) unit) (w : World S)
    : outcome (RecvError HErr) unit * World S :=
  match o with
  | Fail (GoAwayError code last debug) =>
      if ctxDone then (Ret tt, w)
      else
        let w := mkWorld (w_store w) (w_log w ++ concat (goaway_stream last code debug <$> store_Each (w_store w))) in
        if code =? 0 then (Ret tt, w) else (Fail (GoAwayError code last debug), w)
  | Fail e => if ctxDone then (Ret tt, w) else (Fail e, w)
  | o => (o, w)
  end.

(** C26: After a GOAWAY exactly the streams in flight that the server has not taken on
    are told so and ended, once each; the store keeps them, and their permits are
    not returned to the limiter.  The connection ends with an error unless the code
    is NO_ERROR. *)
Theorem goaway_ends_refused `{!StreamStoreSpec S} last code debug w :
  store_ok (w_store w) →
  ∃ kvs es, kvs ≡ₚ map_to_list (store_abs (w_store w)) ∧ w_log (runReciever false (Fail (GoAwayError code last debug)) w).2 = w_log w ++ es ∧
    es = concat ((λ kv, if last <? ID kv.2 then [EvStream kv.2 (GoAway code debug); EvStream kv.2 End_] else []) <$> kvs) ∧
    w_store (runReciever false (Fail (GoAwayError code last debug)) w).2 = w_store w ∧
    EvLimiterRelease ∉ es ∧
    ((runReciever false (Fail (GoAwayError code last debug)) w).1 = Ret tt ↔ code = 0).
Proof.
  intros Hok. destruct (store_Each_spec (w_store w) Hok) as (kvs & Hkvs & Heach).
  exists kvs. eexists. split; [done|]. split; [|split; [reflexivity|split]].
  - cbn. rewrite Heach. assert (∀ l : list (Z * stream), goaway_stream last code debug <$> l.*2 =
      (λ kv, if last <? ID kv.2 then [EvStream kv.2 (GoAway code debug); EvStream kv.2 End_] else []) <$> l) as ->
      by (intros l; by rewrite <-list_fmap_compose). by destruct (code =? 0).
  - cbn. by destruct (code =? 0).
  - split.
    + clear. induction kvs as [|[k s] kvs IH]; [apply not_elem_of_nil|]. cbn [fmap list_fmap concat snd]. rewrite not_elem_of_app.
      split; [|exact IH]. destruct (last <? ID s); [|apply not_elem_of_nil]. by rewrite !not_elem_of_cons; split_and!; [| |apply not_elem_of_nil].
    + cbn. destruct (Z.eqb_spec code 0); cbn; [done|]. split; [done|lia].
Qed.
End goaway.

(** Two streams in flight, on the stream ids 3 and 5 of two shards. *)
Definition example_store : ShardedStreamsMap StreamsMap :=
  default loaderStore (store_Set 3 30%nat loaderStore ≫= store_Set 5 50%nat).

Lemma example_store_ok : store_ok example_store.
Proof.
  destruct (run_ops_refines [OSet 3 30%nat; OSet 5 50%nat] loaderStore) as (s & E & Hok & _);
    [apply loaderStore_ok|repeat constructor|].
  assert (example_store = s) as ->; [|exact Hok].
  vm_compute in E. injection E as <-. by vm_compute.
Qed.

Theorem goaway_ends_refused_witness :
  let w := mkWorld example_store [] in
  let ID := λ s : stream, Z.of_nat s / 10 in
  let r := runReciever ID false (Fail (GoAwayError (HErr := unit) 7 3 [])) w in
  (∃ kvs es, kvs ≡ₚ map_to_list (store_abs example_store) ∧ w_log r.2 = [] ++ es ∧
    es = concat ((λ kv, if 3 <? ID kv.2 then [EvStream kv.2 (GoAway 7 []); EvStream kv.2 End_] else []) <$> kvs) ∧
    w_store r.2 = example_store ∧ EvLimiterRelease ∉ es ∧ (r.1 = Ret tt ↔ 7 = 0)) ∧
  w_log r.2 = [EvStream 50%nat (GoAway 7 []); EvStream 50%nat End_].
Proof.
  split; [|vm_compute; reflexivity].
  apply (goaway_ends_refused (HErr := unit) (λ s : stream, Z.of_nat s / 10) 3 7 [] (mkWorld example_store [])).
  exact example_store_ok.
Defined.
