(* ===== verification/TimeoutQueue.v ===== *)
(** * TimeoutQueue: the queue of deadlines

    Models src/loader/timeout_queue.go: requests are added with one timeout for all,
    and a goroutine of [Loader.Run] takes them in turn, waits for the deadline of
    each and handles it.  The lock is explicit, since [Next] can return with it
    held, and so is the moment between its check and its sleep. *)
From S2P Require Import Prelude.

#[local] Open Scope Z_scope.

(** Where the goroutine that calls [Next] is: before the lock, with the lock held
    and the queue found empty and open, asleep on the condition, waiting for a
    deadline, or done with [Next] having answered [false]. *)
Inductive next_pc := QEnter | QChecked | QAsleep | QTimer (id deadline : Z) | QClosed.

#[export] Instance next_pc_eq_dec : EqDecision next_pc.
Proof. solve_decision. Defined.

(** [q_out]: the requests handled, with deadline and time; [q_signals]: the calls of
    [Signal] that are due. *)
Record timeoutSliceQueue := mkQueue {
  q_items : list (Z * Z); q_locked : bool; q_done : bool; q_signals : nat; q_next : next_pc; q_out : list (Z * Z * Z)
}.

Definition NewTimeoutSliceQueue : timeoutSliceQueue := mkQueue [] false false 0 QEnter [].

Inductive qlabel :=
| QAdd (id now : Z) | QSignal | QClose          (** the others *)
| QNext | QSleep | QFire (now : Z) | QStop.     (** the goroutine *)

Section queue.
Context (timeout : Z).

Definition qstep (l : qlabel) (q : timeoutSliceQueue) : option timeoutSliceQueue :=
  let '(mkQueue items locked done signals next out) := q in
  match l with
  | QAdd id now => if locked then None else Some (mkQueue (items ++ [(id, now + timeout)]) locked done (S signals) next out)
  | QSignal =>
      match signals with
      | O => None
      | S n => Some (mkQueue items locked done n (if decide (next = QAsleep) then QEnter else next) out)
      end
  | QClose => if done then None else Some (mkQueue items locked true (S signals) next out)
  | QNext =>
      match next with
      | QEnter =>
          if locked then None
          else match items with
          | (id, deadline) :: items => Some (mkQueue items locked done signals (QTimer id deadline) out)
          | [] => if done then Some (mkQueue [] true done signals QClosed out) else Some (mkQueue [] true done signals QChecked out)
          end
      | _ => None
      end
  | QSleep => match next with QChecked => Some (mkQueue items false done signals QAsleep out) | _ => None end
  | QFire now =>
      match next with
      | QTimer id deadline => if deadline <=? now then Some (mkQueue items locked done signals QEnter (out ++ [(id, deadline, now)])) else None
      | _ => None
      end
  | QStop => match next with QTimer _ _ => if done then Some (mkQueue items locked done signals QClosed out) else None | _ => None end
  end.

Fixpoint qsteps (ls : list qlabel) (q : timeoutSliceQueue) : option timeoutSliceQueue :=
  match ls with [] => Some q | l :: ls => q ← qstep l q; qsteps ls q end.

Definition added (ls : list qlabel) : list (Z * Z) := omap (λ l, match l with QAdd id now => Some (id, now + timeout) | _ => None end) ls.

(** What is still to come: the request whose deadline is awaited, and the queue. *)
Definition ahead (q : timeoutSliceQueue) : list (Z * Z) :=
  match q_next q with QTimer id deadline => [(id, deadline)] | _ => [] end ++ q_items q.

Record queue_inv (ad : list (Z * Z)) (q : timeoutSliceQueue) (lost : list (Z * Z)) : Prop := {
  qi_added : ad = (fst <$> q_out q) ++ lost ++ ahead q;
  qi_lost : q_next q ≠ QClosed → lost = [];
  qi_time : Forall (λ o, o.1.2 <= o.2) (q_out q);
  qi_lock : q_locked q = true → q_next q = QChecked ∨ q_next q = QClosed;
  qi_checked : q_next q = QChecked → q_locked q = true ∧ q_items q = [];
  qi_asleep : q_next q = QAsleep → q_items q ≠ [] → (0 < q_signals q)%nat
}.

Lemma added_app ls ls' : added (ls ++ ls') = added ls ++ added ls'.
Proof. apply omap_app. Qed.

Lemma qstep_inv ad q lost l q' : queue_inv ad q lost → qstep l q = Some q' → ∃ lost', queue_inv (ad ++ added [l]) q' lost'.
Proof.
  intros [H1 H2 H3 H4 H5 H6] Hs. destruct q as [items locked done signals next out].
  destruct l as [id now| | | | |now|]; cbn in Hs; cbn [added omap list_omap]; rewrite ?app_nil_r; cbn in *.
  - destruct locked; [done|]. injection Hs as <-. exists lost. split; cbn; try done.
    + rewrite H1. unfold ahead. cbn. by rewrite <-!app_assoc.
    + intros Hn. by destruct (H5 Hn).
    + intros; lia.
  - destruct signals as [|n]; [done|]. injection Hs as <-. exists lost. case_decide as Hn; subst.
    + split; cbn; try done; [intros _; by apply H2|intros Hl; by destruct (H4 Hl)].
    + split; cbn; try done.
  - destruct done; [done|]. injection Hs as <-. exists lost. split; cbn; try done. intros; lia.
  - destruct next; try done. destruct locked; [done|]. assert (lost = []) as -> by (by apply H2). destruct items as [|[id dl] items].
    + exists []. destruct done; injection Hs as <-; split; cbn; auto; done.
    + injection Hs as <-. exists []. split; cbn; try done.
  - destruct next; try done. injection Hs as <-. exists lost. destruct (H5 eq_refl) as [_ ->].
    split; cbn; try done. intros _. by apply H2.
  - destruct next as [| | |id dl|]; try done. destruct (Z.leb_spec dl now); [|done]. injection Hs as <-. exists [].
    assert (lost = []) as -> by (by apply H2). split; cbn; try done.
    + rewrite H1. unfold ahead. cbn. by rewrite fmap_app, <-app_assoc.
    + apply Forall_app. split; [done|]. by apply Forall_singleton.
    + intros Hl. by destruct (H4 Hl).
  - destruct next as [| | |id dl|]; try done. destruct done; [|done]. injection Hs as <-. exists [(id, dl)].
    assert (lost = []) as -> by (by apply H2). split; cbn; try done; auto.
Qed.

Lemma qsteps_inv ls : ∀ ad q lost q', queue_inv ad q lost → qsteps ls q = Some q' → ∃ lost', queue_inv (ad ++ added ls) q' lost'.
Proof.
  induction ls as [|l ls IH]; intros ad q lost q' Hi Hs; cbn [qsteps] in Hs.
  - injection Hs as <-. rewrite app_nil_r. eauto.
  - apply bind_Some in Hs as (q1 & H1 & Hs). destruct (qstep_inv _ _ _ _ _ Hi H1) as [lost1 Hi1].
    destruct (IH _ _ _ _ Hi1 Hs) as [lost' Hi']. rewrite <-app_assoc, <-added_app in Hi'. eauto.
Qed.
End queue.

(** C29: Deadlines are handled in the order in which the requests were added, each once
    and none early; and as long as the queue is open no request is left behind a
    sleeping goroutine without a signal that will wake it. *)
Theorem timeouts_in_order timeout ls q : qsteps timeout ls NewTimeoutSliceQueue = Some q →
  ∃ rest, added timeout ls = (fst <$> q_out q) ++ rest ∧ (q_next q ≠ QClosed → rest = ahead q) ∧
    Forall (λ o, o.1.2 <= o.2) (q_out q) ∧
    (q_next q = QAsleep → q_items q ≠ [] → (0 < q_signals q)%nat).
Proof.
  intros Hs. destruct (qsteps_inv timeout ls [] NewTimeoutSliceQueue [] q) as [lost [H1 H2 H3 _ _ H6]]; [|done|].
  { split; cbn; try done. }
  exists (lost ++ ahead q). split_and!; try done. intros Hn. by rewrite (H2 Hn).
Qed.

Definition example_queue : list qlabel :=
  [QNext; QSleep; QAdd 3 5; QAdd 5 6; QSignal; QNext; QSignal; QFire 15; QNext; QFire 20; QNext; QSleep].

Theorem timeouts_in_order_witness : ∃ q, qsteps 10 example_queue NewTimeoutSliceQueue = Some q ∧ q_out q = [(3, 15, 15); (5, 16, 20)] ∧
  ∃ rest, added 10 example_queue = (fst <$> q_out q) ++ rest ∧ (q_next q ≠ QClosed → rest = ahead q) ∧
    Forall (λ o, o.1.2 <= o.2) (q_out q) ∧
    (q_next q = QAsleep → q_items q ≠ [] → (0 < q_signals q)%nat).
Proof.
  eexists. split; [vm_compute; reflexivity|]. split; [reflexivity|]. apply (timeouts_in_order 10 example_queue). vm_compute. reflexivity.
Defined.

(** [Next] on a closed, empty queue answers [false] and keeps the lock: from then on
    [Add] blocks for ever. *)
Theorem closed_queue_stays_locked timeout q q' : q_done q = true → q_items q = [] → q_next q = QEnter → qstep timeout QNext q = Some q' →
  ∀ ls q'', qsteps timeout ls q' = Some q'' → ∀ id now, qstep timeout (QAdd id now) q'' = None.
Proof.
  destruct q as [items [|] done signals next out]; cbn; intros -> -> -> [=]. subst q'.
  assert (∀ ls q q'', q_locked q = true → q_next q = QClosed → qsteps timeout ls q = Some q'' → q_locked q'' = true) as Hrun.
  { induction ls as [|l ls IH]; intros q q'' Hl Hn Hq; cbn in Hq; [by injection Hq as <-|]. apply bind_Some in Hq as (q1 & H1 & Hq).
    destruct q as [items lk dn sg nx ou]; cbn in *; subst. destruct l; cbn in H1; try done.
    - destruct sg; [done|]. injection H1 as <-. by eapply IH in Hq.
    - destruct dn; [done|]. injection H1 as <-. by eapply IH in Hq. }
  intros ls q'' Hq id now. assert (q_locked q'' = true) as Hl by (by eapply Hrun in Hq). destruct q''; cbn in *. by rewrite Hl.
Qed.

(** [Close] signals without the lock: between the check and the sleep of [Next] the
    signal finds nobody, and the goroutine sleeps on although the queue is closed. *)
Theorem close_signal_lost timeout : ∃ q, qsteps timeout [QNext; QClose; QSignal; QSleep] NewTimeoutSliceQueue = Some q ∧
  q_done q = true ∧ q_next q = QAsleep ∧ q_signals q = 0%nat ∧
  ∀ l q', qstep timeout l q = Some q' → ∃ id now, l = QAdd id now.
Proof.
  eexists. split; [reflexivity|]. split_and!; [done..|]. intros [] q'; cbn; try done. eauto.
Qed.
