(* ===== verification/LoaderRun.v ===== *)
(** * LoaderRun: the goroutines of a connection

    Models [Run], [runSender] and [Shutdown] of src/loader/loader.go: the sender, the
    receiver and the goroutine that cuts the connection off run in one group; the
    first to return cancels the context, which ends the others.  How the sender and
    the receiver end is theirs to say ([Sender], [Receiver]); what a connection error
    does to them after the deadline is set is the network's.  A goroutine looks at
    the context and returns in one step. *)
From S2P Require Import Prelude FrameHeader Types Store Handlers FlowControl Limiter Pool Loader.

#[local] Open Scope Z_scope.

Section run.
Context {S HErr E : Type} `{!StreamStore S} (ID : stream → Z).

Inductive run_error := SenderErr (e : E) | RecieverErr (e : RecvError HErr) | DeadlineErr.

(** [u_ctx]: the context of the group is done.  [u_err]: the first error.  The
    booleans say which goroutines still run; [u_crashed]: a panic, which nothing
    recovers. *)
Record group := mkGroup {
  u_ctx : bool; u_err : option run_error; u_sender : bool; u_reciever : bool; u_deadline : bool; u_crashed : bool; u_world : World S
}.

Definition group_init (w : World S) : group := mkGroup false None true true true false w.

Inductive ulabel :=
| USender (err : option E)                             (** [sender.Run] returns *)
| UReciever (o : outcome (RecvError HErr) unit)        (** [reciever.Run] returns *)
| UDeadline (ok : bool)                                (** [SetDeadline(now)], after the context is done *)
| UCancel.                                             (** the caller cancels *)

(** [errgroup] keeps the first error. *)
Definition first_error (old new : option run_error) : option run_error := match old with Some e => Some e | None => new end.

(** [runSender], when [sender.Run] has returned [err]. *)
Definition runSender (ctxDone : bool) (err : option E) : option run_error :=
  match err with Some e => if ctxDone then None else Some (SenderErr e) | None => None end.

Definition reciever_error (o : outcome (RecvError HErr) unit) : option run_error :=
  match o with Fail e => Some (RecieverErr e) | _ => None end.
Definition crashes (o : outcome (RecvError HErr) unit) : bool := match o with Panic | Diverged => true | _ => false end.

Definition ustep (l : ulabel) (g : group) : option group :=
  let '(mkGroup ctx err snd rcv dl crashed w) := g in
  if crashed then None
  else match l with
  | USender e => if snd then Some (mkGroup true (first_error err (runSender ctx e)) false rcv dl crashed w) else None
  | UReciever o =>
      if rcv then
        let '(o, w) := runReciever ID ctx o w in
        Some (mkGroup true (first_error err (reciever_error o)) snd false dl (crashes o) w)
      else None
  | UDeadline ok =>
      if dl && ctx then Some (mkGroup true (first_error err (if ok then None else Some DeadlineErr)) snd rcv false crashed w) else None
  | UCancel => Some (mkGroup true err snd rcv dl crashed w)
  end.

Fixpoint usteps (ls : list ulabel) (g : group) : option group :=
  match ls with [] => Some g | l :: ls => g ← ustep l g; usteps ls g end.

(** [g.Wait] returns. *)
Definition finished (g : group) : bool := negb (u_sender g) && negb (u_reciever g) && negb (u_deadline g).

(** What ends a connection: whoever comes first, the sender, the receiver or the
    caller. *)
Fixpoint ended_by (ls : list ulabel) (w : World S) : option run_error :=
  match ls with
  | USender e :: _ => runSender false e
  | UReciever o :: _ => reciever_error (runReciever ID false o w).1
  | UDeadline _ :: ls => ended_by ls w
  | UCancel :: _ | [] => None
  end.
Definition deadline_error (ls : list ulabel) : option run_error :=
  if existsb (λ l, match l with UDeadline false => true | _ => false end) ls then Some DeadlineErr else None.

(** Once the context is done only [SetDeadline] can still add an error. *)
Lemma after_done ls : ∀ g g', u_ctx g = true → usteps ls g = Some g' →
  u_err g' = first_error (u_err g) (deadline_error ls) ∧ u_ctx g' = true.
Proof.
  induction ls as [|l ls IH]; intros g g' Hc Hs; cbn in Hs.
  - injection Hs as <-. split; [by destruct (u_err g)|done].
  - apply bind_Some in Hs as (g1 & H1 & Hs). destruct g as [ctx err snd rcv dl [|] w]; cbn in H1; [done|]. cbn in Hc. subst ctx.
    unfold deadline_error in *. destruct l as [e|o|ok|]; cbn [existsb orb].
    + destruct snd; [|done]. injection H1 as <-. apply IH in Hs as [-> ->]; [|done]. destruct e; cbn; by destruct err.
    + destruct rcv; [|done]. destruct (runReciever ID true o w) as [o' w'] eqn:Er. injection H1 as <-.
      apply IH in Hs as [-> ->]; [|done]. cbn [u_err].
      assert (reciever_error o' = None) as -> by (destruct o as [|[]| |]; cbn in Er; by injection Er as <- <-). by destruct err.
    + destruct dl; [|done]. cbn in H1. injection H1 as <-. apply IH in Hs as [-> ->]; [|done]. cbn [u_err].
      by destruct ok, err; cbn; try case_match.
    + injection H1 as <-. by apply IH in Hs as [-> ->]; [|done].
Qed.

End run.

(** [Shutdown]: nothing to do when no stream is in use; otherwise [Run] again, with
    a context that ends when the streams are released; the connection is closed in
    both cases, and the errors are combined. *)
Definition Shutdown {Err} (inUse : Z) (run : option Err) (close : option Err) : list Err :=
  (if inUse =? 0 then [] else option_list run) ++ option_list close.

(** [NewLoader]: a deadline for the set-up, the handshake, the parts.  What was
    written before an error stays written. *)
Definition NewLoader (deadline_ok : bool) (write : nat → bool) (first : option server_frame) (timeout : Z) (disableSendBatching : bool)
    : (option setup_error + Loader) * bytes :=
  let conf := mkConfig disableSendBatching timeout 0 0 0 0 0 in
  if negb deadline_ok then (inl None, [])
  else match setupHTTP2 write first conf with
       | (Some e, _, sent) => (inl (Some e), sent)
       | (None, conf, sent) => (inr (newLoader conf), sent)
       end.

(** ** Requests that time out *)
Section timeouts.
Context {S HErr P : Type} `{!StreamStore S}.

(** The loop of [Run] over the timeout queue, for one request. *)
Definition handle_timeout (streamID : Z) : GM (P * World S) (RecvError HErr) unit :=
  s ← storeGetAndDelete streamID;
  match s with
  | Some s => emit_ (EvStream s End_)
  | None => mret tt
  end.

Fixpoint handle_timeouts (ids : list Z) : GM (P * World S) (RecvError HErr) unit :=
  match ids with [] => mret tt | id :: ids => handle_timeout id;; handle_timeouts ids end.

(** The streams a map gives up when keys are taken out in turn. *)
Fixpoint taken (m : gmap Z stream) (ids : list Z) : list stream :=
  match ids with
  | [] => []
  | id :: ids => option_list (m !! id) ++ taken (delete id m) ids
  end.

(** Each request handled whose stream is still in the store is ended, once, also
    when it is handled twice, and taken out; the others are left alone.  The permit
    of the stream is not given back. *)
Theorem timeouts_end_streams `{!StreamStoreSpec S} ids : ∀ (p : P) (w : World S),
  store_ok (w_store w) → Forall (store_key (S := S)) ids →
  ∃ w', handle_timeouts ids (p, w) = (Ret tt, (p, w')) ∧ store_ok (w_store w') ∧
    (∀ id, store_abs (w_store w') !! id = if decide (id ∈ ids) then None else store_abs (w_store w) !! id) ∧
    w_log w' = w_log w ++ ((λ s, EvStream s End_) <$> taken (store_abs (w_store w)) ids).
Proof.
  induction ids as [|id ids IH]; intros p w Hok Hk.
  - exists w. split; [done|]. split; [done|]. split; [|by rewrite app_nil_r]. intros id. by rewrite decide_False by apply not_elem_of_nil.
  - apply Forall_cons in Hk as [Hk Hks]. destruct (store_GetAndDelete_spec (w_store w) id Hok Hk) as (st & Hg & Hok1 & Habs).
    set (w1 := mkWorld st (w_log w ++ ((λ s, EvStream s End_) <$> option_list (store_abs (w_store w) !! id)))).
    assert (handle_timeout id (p, w) = (Ret tt, (p, w1))) as H1.
    { unfold handle_timeout, mbind, gm_bind, storeGetAndDelete. cbn [snd fst]. rewrite Hg.
      unfold w1. destruct (store_abs (w_store w) !! id); cbn; [done|]. by rewrite app_nil_r. }
    destruct (IH p w1 Hok1 Hks) as (w' & Hr & Hok' & Hlook & Hlog). exists w'. split_and!; [|done| |].
    + cbn [handle_timeouts]. unfold mbind at 1, gm_bind at 1. by rewrite H1.
    + intros i. rewrite Hlook. cbn [w1 w_store]. rewrite Habs. destruct (decide (i ∈ ids)) as [Hi|Hi].
      { by rewrite decide_True by by right. }
      destruct (decide (id = i)) as [<-|Hne]; [rewrite lookup_delete_eq; by rewrite decide_True by left|].
      rewrite lookup_delete_ne by done. by rewrite decide_False by (apply not_elem_of_cons; done).
    + rewrite Hlog. cbn [w1 w_log w_store taken]. by rewrite Habs, fmap_app, <-app_assoc.
Qed.
End timeouts.

Definition example_world : World (ShardedStreamsMap StreamsMap) := mkWorld example_store [].
Definition example_end : list (@ulabel unit Z) := [UReciever (Fail (GoAwayError 2 3 [])); UDeadline true; USender (Some 7)].

