(* ===== verification/LoadRun.v ===== *)
(** * LoadRun: the load command

    Models [LoadCommand.Run] of src/cmd/framer/cmd_load.go: what it sets up, and then
    its goroutines: for every connection one that runs the loader and one client
    that fetches, waits and sends, one for the reporter, and the command itself,
    which waits for the clients, closes the reporter and waits for the rest. *)
From S2P Require Import Prelude Scheduler.

#[local] Open Scope Z_scope.

(** ** Setting up *)
Record LoadCommand := mkLoadCommand { Addr : bytes; InmemRequests : bool; Clients : Z; Phout : bytes }.

Section setup.
Context {Conn L E : Type}.

Inductive load_error := InmemInit (e : E) | PhoutFile (e : E) | Dialing (e : E) | LoaderSetup (e : E).

(** The outside: reading the file into memory, creating the report file, dialling
    the [i]th connection and setting the loader up on it. *)
Record outside := mkOutside {
  inmem_Init : option E; os_Create : bytes → option E; createConn : nat → bytes → Conn + E; NewLoader : nat → Conn → L + E
}.

(** What the goroutines are started on: where requests come from, whether there is
    a report file, and the loaders. *)
Record started := mkStarted { st_inmem : bool; st_phout : option bytes; st_loaders : list L }.

Fixpoint make_loaders (w : outside) (addr : bytes) (i n : nat) : list L + load_error :=
  match n with
  | O => inl []
  | S n =>
      match createConn w i addr with
      | inr e => inr (Dialing e)
      | inl conn =>
          match NewLoader w i conn with
          | inr e => inr (LoaderSetup e)
          | inl l => match make_loaders w addr (S i) n with inl ls => inl (l :: ls) | inr e => inr e end
          end
      end
  end.

Definition setup (w : outside) (c : LoadCommand) : outcome load_error started :=
  match (if InmemRequests c then inmem_Init w else None) with
  | Some e => Fail (InmemInit e)
  | None =>
      if Clients c <? 0 then Panic  (** a negative [WaitGroup] counter *)
      else
        let phout := if decide (Phout c = []) then None else Some (Phout c) in
        match phout ≫= os_Create w with
        | Some e => Fail (PhoutFile e)
        | None =>
            match make_loaders w (Addr c) 0 (Z.to_nat (Clients c)) with
            | inr e => Fail e
            | inl ls => Ret (mkStarted (InmemRequests c) phout ls)
            end
        end
  end.
End setup.
Arguments outside : clear implicits.
Arguments load_error : clear implicits.

(** ** Running *)
Section run.
Context {S E : Type} `{!Scheduler S} (sched : S) (duration : Z).

Inductive client := CFetching | CNext | CSending (k : Z) | CWaiting | CEnded.

#[global] Instance client_eq_dec : EqDecision client.
Proof. solve_decision. Defined.

(** [l_runs]: the loaders still running; [l_cancelled]: those whose client is gone;
    [l_ctx], [l_err]: the context of the group and its first error; [l_closed]: the
    reporter is closed; [l_returned]: what the command has returned. *)
Record lsys := mkLsys {
  l_n : Z; l_clients : list client; l_sent : list (nat * Z);
  l_runs : list bool; l_cancelled : list bool; l_ctx : bool; l_err : option E;
  l_reporter : bool; l_closed : bool; l_panicked : bool; l_returned : option (option E)
}.

Definition lsys_init (n : nat) : lsys :=
  mkLsys 0 (replicate n CFetching) [] (replicate n true) (replicate n false) false None true false false None.

Inductive llabel :=
| LFetch (i : nat) (err : option E)      (** [dataSource.Fetch] *)
| LNext (i : nat)                        (** [scheduler.Next], and the sleep *)
| LRequest (i : nat)                     (** [l.DoRequest] *)
| LReleased (i : nat)                    (** [l.WaitResponses] returns *)
| LRunEnds (i : nat) (err : option E)    (** [l.Run] returns *)
| LStreamEnds (i : nat)                  (** a stream of loader [i] ends and is reported *)
| LReporter (err : option E)             (** [reporter.Run] returns *)
| LClose                                 (** [lgWG.Wait], [cancel], [reporter.Close] *)
| LReturn.                               (** [g.Wait] *)

(** A goroutine of the group returns. *)
Definition group_err (err : option E) (s : lsys) : lsys :=
  let '(mkLsys n cs sent runs canc ctx e rep cl pn ret) := s in
  match err with
  | None => s
  | Some err => mkLsys n cs sent runs canc true (match e with Some e => Some e | None => Some err end) rep cl pn ret
  end.

Definition set_client (i : nat) (c : client) (s : lsys) : lsys :=
  let '(mkLsys n cs sent runs canc ctx e rep cl pn ret) := s in mkLsys n (<[i := c]> cs) sent runs canc ctx e rep cl pn ret.
(** The deferred [lgCancel] and [lgWG.Done]. *)
Definition end_client (i : nat) (s : lsys) : lsys :=
  let '(mkLsys n cs sent runs canc ctx e rep cl pn ret) := s in
  mkLsys n (<[i := CEnded]> cs) sent runs (<[i := true]> canc) ctx e rep cl pn ret.

(** [phout]: the reporter has a report file, whose channel panics once closed. *)
Context (phout : bool).

Definition lstep (l : llabel) (s : lsys) : option lsys :=
  let '(mkLsys n cs sent runs canc ctx e rep cl pn ret) := s in
  if pn then None
  else match l with
  | LFetch i err =>
      match cs !! i with
      | Some CFetching => Some (match err with None => set_client i CNext s | Some _ => group_err err (end_client i s) end)
      | _ => None
      end
  | LNext i =>
      match cs !! i with
      | Some CNext =>
          let k := i64 (n + 1) in
          Some (mkLsys k (<[i := if admits sched duration k then CSending k else CWaiting]> cs) sent runs canc ctx e rep cl pn ret)
      | _ => None
      end
  | LRequest i =>
      match cs !! i with
      | Some (CSending k) => Some (mkLsys n (<[i := CFetching]> cs) (sent ++ [(i, k)]) runs canc ctx e rep cl pn ret)
      | _ => None
      end
  | LReleased i => match cs !! i with Some CWaiting => Some (end_client i s) | _ => None end
  | LRunEnds i err =>
      match runs !! i with
      | Some true => Some (group_err err (mkLsys n cs sent (<[i := false]> runs) canc ctx e rep cl pn ret))
      | _ => None
      end
  | LStreamEnds i =>
      match runs !! i with
      | Some true => Some (mkLsys n cs sent runs canc ctx e rep cl (pn || (phout && cl)) ret)
      | _ => None
      end
  | LReporter err =>
      if rep && (cl || bool_decide (err ≠ None)) then Some (group_err err (mkLsys n cs sent runs canc ctx e false cl pn ret)) else None
  | LClose => if negb cl && bool_decide (Forall (λ c, c = CEnded) cs) then Some (mkLsys n cs sent runs canc true e rep true pn ret) else None
  | LReturn =>
      match ret with
      | None => if cl && negb rep && bool_decide (Forall (λ b, b = false) runs) then Some (mkLsys n cs sent runs canc ctx e rep cl pn (Some e)) else None
      | Some _ => None
      end
  end.

Fixpoint lsteps (ls : list llabel) (s : lsys) : option lsys :=
  match ls with [] => Some s | l :: ls => s ← lstep l s; lsteps ls s end.

(** The errors the goroutines returned, in order. *)
Definition errors (ls : list llabel) : list E :=
  omap (λ l, match l with LFetch _ err | LRunEnds _ err | LReporter err => err | _ => None end) ls.

(** *** The invariant *)
Definition sending (c : client) : option Z := match c with CSending k => Some k | _ => None end.
Definition nexts (ls : list llabel) : Z := zlen (omap (λ l, match l with LNext i => Some i | _ => None end) ls).

Record linv (ls : list llabel) (s : lsys) : Prop := {
  li_n : l_n s = nexts ls;
  li_err : l_err s = head (errors ls);
  li_closed : l_closed s = true → Forall (λ c, c = CEnded) (l_clients s);
  li_returned e : l_returned s = Some e →
    l_closed s = true ∧ l_reporter s = false ∧ Forall (λ b, b = false) (l_runs s) ∧ e = l_err s;
  li_distinct : NoDup ((l_sent s).*2 ++ omap sending (l_clients s));
  li_admitted : Forall (λ k, 1 <= k <= l_n s ∧ admits sched duration k = true) ((l_sent s).*2 ++ omap sending (l_clients s))
}.

(** A client goes from one place of its loop to another. *)
Lemma sending_insert i c cs : cs !! i = Some c → ∃ rest, omap sending cs ≡ₚ option_list (sending c) ++ rest ∧
  ∀ c', omap sending (<[i := c']> cs) ≡ₚ option_list (sending c') ++ rest.
Proof.
  intros Hc. exists (omap sending (take i cs) ++ omap sending (drop (Datatypes.S i) cs)).
  assert (∀ c', omap sending (take i cs ++ c' :: drop (Datatypes.S i) cs) ≡ₚ
    option_list (sending c') ++ omap sending (take i cs) ++ omap sending (drop (Datatypes.S i) cs)) as Hp.
  { intros c'. rewrite omap_app. generalize (omap sending (take i cs)). intros l. cbn [omap list_omap].
    destruct (sending c'); cbn [option_list app]; [|done]. by rewrite <-Permutation_middle. }
  split; [by rewrite <-(take_drop_middle _ _ _ Hc) at 1|]. intros c'.
  rewrite insert_take_drop by (by eapply lookup_lt_Some). apply Hp.
Qed.

Lemma errors_app ls ls' : errors (ls ++ ls') = errors ls ++ errors ls'.
Proof. apply omap_app. Qed.
Lemma nexts_app ls ls' : nexts (ls ++ ls') = nexts ls + nexts ls'.
Proof. unfold nexts, zlen. rewrite omap_app, length_app. lia. Qed.

Lemma head_app {A} (l : list A) o : head (l ++ option_list o) = match head l with Some x => Some x | None => o end.
Proof. destruct l; [by destruct o|done]. Qed.

(** A step that leaves the clients and the requests alone. *)
Lemma linv_quiet ls s s' l err : linv ls s → errors [l] = option_list err → nexts [l] = 0 →
  l_n s' = l_n s → l_sent s' = l_sent s → l_clients s' = l_clients s →
  l_err s' = match l_err s with Some e => Some e | None => err end →
  (l_closed s' = true → Forall (λ c, c = CEnded) (l_clients s)) →
  (∀ e, l_returned s' = Some e → l_closed s' = true ∧ l_reporter s' = false ∧ Forall (λ b, b = false) (l_runs s') ∧ e = l_err s') →
  linv (ls ++ [l]) s'.
Proof.
  intros [H1 H2 H3 H4 H5 H6] He Hn En Es Ec Ee Hcl Hret. split.
  - by rewrite nexts_app, Hn, Z.add_0_r, En.
  - by rewrite errors_app, He, head_app, Ee, H2.
  - by rewrite Ec.
  - done.
  - by rewrite Es, Ec.
  - by rewrite Es, Ec, En.
Qed.

(** A step of a client that is not gone: then the reporter is open. *)
Lemma linv_client ls s s' l i c c' err new : linv ls s → l_clients s !! i = Some c → c ≠ CEnded →
  errors [l] = option_list err → l_err s' = match l_err s with Some e => Some e | None => err end →
  l_clients s' = <[i := c']> (l_clients s) → l_closed s' = l_closed s → l_returned s' = l_returned s →
  l_n s' = nexts (ls ++ [l]) → l_n s <= l_n s' →
  (l_sent s').*2 ++ option_list (sending c') ≡ₚ option_list new ++ (l_sent s).*2 ++ option_list (sending c) →
  (∀ k, new = Some k → l_n s < k <= l_n s' ∧ admits sched duration k = true) →
  linv (ls ++ [l]) s'.
Proof.
  intros [H1 H2 H3 H4 H5 H6] Hi Hc He Ee Ec Ecl Er En Hle Hp Hnew.
  assert (l_closed s = false) as Hopen.
  { destruct (l_closed s) eqn:E0; [|done]. destruct Hc. by apply (Forall_lookup_1 _ _ _ _ (H3 eq_refl) Hi). }
  destruct (sending_insert i c (l_clients s) Hi) as (rest & Hold & Hins).
  assert ((l_sent s').*2 ++ omap sending (l_clients s') ≡ₚ option_list new ++ (l_sent s).*2 ++ omap sending (l_clients s)) as Hall.
  { rewrite Ec, Hins, Hold, !app_assoc. apply Permutation_app_tail. by rewrite <-!app_assoc. }
  split; [done| | | | |].
  - by rewrite errors_app, He, head_app, Ee, H2.
  - by rewrite Ecl, Hopen.
  - intros e Hr. rewrite Er in Hr. destruct (H4 e Hr) as [Hcl _]. by rewrite Hopen in Hcl.
  - rewrite Hall. apply NoDup_app. split; [destruct new; cbn; [apply NoDup_singleton|constructor]|]. split; [|done].
    intros k Hk Hin. destruct new as [k'|]; [|by apply elem_of_nil in Hk]. apply list_elem_of_singleton in Hk as ->.
    rewrite list.Forall_forall in H6. destruct (H6 _ Hin) as [? _]. destruct (Hnew k' eq_refl) as [? _]. lia.
  - rewrite Hall. apply Forall_app. split; [|eapply Forall_impl; [exact H6|]; cbn; intros k [? ?]; split; [lia|done]].
    assert (0 <= l_n s) by (rewrite H1; unfold nexts, zlen; lia).
    destruct new as [k|]; [|constructor]. apply Forall_singleton. destruct (Hnew k eq_refl). split; [lia|done].
Qed.

(** What is left when a client's step is put through [linv_client]. *)
Ltac client_step e Hn := cbn; try done; try (by destruct e); try lia; try (rewrite nexts_app, Hn; unfold nexts, zlen; cbn; lia);
  try (by rewrite ?fmap_app, ?app_nil_r).

Lemma lstep_inv ls s l s' : zlen ls + 1 < 2 ^ 63 → linv ls s → lstep l s = Some s' → linv (ls ++ [l]) s'.
Proof.
  intros Hsmall Hi Hs. assert (0 <= nexts ls <= zlen ls) as Hnx.
  { unfold nexts, zlen. split; [lia|]. apply inj_le. clear. induction ls as [|x ls IH]; [done|]. cbn. destruct x; cbn; lia. }
  pose proof (li_n _ _ Hi) as Hn. pose proof (li_err _ _ Hi) as Herr. pose proof (li_closed _ _ Hi) as Hcl. pose proof (li_returned _ _ Hi) as Hret.
  destruct s as [n cs sent runs canc ctx e rep cl pn ret]. cbn [l_n l_err l_closed l_returned l_clients] in *.
  unfold lstep in Hs. destruct pn; [done|]. destruct l as [i err|i|i|i|i err|i|err| |].
  - destruct (cs !! i) as [[]|] eqn:Ec; try done. destruct err as [err|]; injection Hs as <-.
    + eapply (linv_client _ _ _ _ i CFetching CEnded (Some err) None Hi Ec); client_step e Hn.
    + eapply (linv_client _ _ _ _ i CFetching CNext None None Hi Ec); client_step e Hn.
  - destruct (cs !! i) as [[]|] eqn:Ec; try done. injection Hs as <-.
    assert (i64 (n + 1) = n + 1) as Hk by (unfold i64; rewrite Z.mod_small; lia). rewrite Hk.
    eapply (linv_client _ _ _ _ i CNext (if admits sched duration (n + 1) then CSending (n + 1) else CWaiting) None
      (if admits sched duration (n + 1) then Some (n + 1) else None) Hi Ec); client_step e Hn.
    + destruct (admits sched duration (n + 1)); cbn; [|done]. rewrite app_nil_r. by rewrite Permutation_app_comm.
    + intros k Ha. destruct (admits sched duration (n + 1)) eqn:E0; [|done]. injection Ha as <-. split; [lia|done].
  - destruct (cs !! i) as [[| |k| |]|] eqn:Ec; try done. injection Hs as <-.
    eapply (linv_client _ _ _ _ i (CSending k) CFetching None None Hi Ec); client_step e Hn.
  - destruct (cs !! i) as [[]|] eqn:Ec; try done. injection Hs as <-.
    eapply (linv_client _ _ _ _ i CWaiting CEnded None None Hi Ec); client_step e Hn.
  - destruct (runs !! i) as [[]|] eqn:Er; try done. injection Hs as <-.
    eapply (linv_quiet _ _ _ _ err Hi); destruct err; cbn; try done; try (by destruct e).
    all: intros x Hx; destruct (Hret x Hx) as (_ & _ & Hall & _); by discriminate (Forall_lookup_1 _ _ _ _ Hall Er).
  - destruct (runs !! i) as [[]|] eqn:Er; try done. injection Hs as <-. eapply (linv_quiet _ _ _ _ None Hi); cbn; try done. by destruct e.
  - destruct rep; [|done]. cbn [andb] in Hs. destruct (cl || _); [|done]. injection Hs as <-.
    eapply (linv_quiet _ _ _ _ err Hi); destruct err; cbn; try done; try (by destruct e).
    all: intros x Hx; by destruct (Hret x Hx) as (_ & ? & _).
  - destruct cl; [done|]. cbn [negb andb] in Hs. destruct (bool_decide_reflect (Forall (λ c, c = CEnded) cs)) as [Hall|]; [|done].
    injection Hs as <-. eapply (linv_quiet _ _ _ _ None Hi); cbn; try done; [by destruct e|]. intros x Hx. by destruct (Hret x Hx).
  - destruct ret; [done|]. destruct cl; [|done]. destruct rep; [done|]. cbn [negb andb] in Hs.
    destruct (bool_decide_reflect (Forall (λ b, b = false) runs)) as [Hall|]; [|done]. injection Hs as <-.
    eapply (linv_quiet _ _ _ _ None Hi); cbn; try done; [by destruct e|]. by intros x [= <-].
Qed.

Lemma linit_inv n : linv [] (lsys_init n).
Proof.
  assert (omap sending (replicate n CFetching) = []) as Hs by (by induction n).
  split; cbn; try done; rewrite Hs; constructor.
Qed.

Lemma lsteps_inv ls' : ∀ ls s s', zlen (ls ++ ls') < 2 ^ 63 → linv ls s → lsteps ls' s = Some s' → linv (ls ++ ls') s'.
Proof.
  induction ls' as [|l ls' IH]; intros ls s s' Hz Hi Hs; cbn [lsteps] in Hs; [injection Hs as <-; by rewrite app_nil_r|].
  apply bind_Some in Hs as (s1 & H1 & Hs). change (l :: ls') with ([l] ++ ls') in *. rewrite app_assoc in *.
  eapply IH; [done| |exact Hs]. eapply lstep_inv; [|exact Hi|exact H1]. unfold zlen in *. rewrite !length_app in Hz. cbn in Hz. lia.
Qed.
End run.


(** Two clients, one request each way; the second connection fails with error 7,
    and the command goes on to the end and returns it. *)
Definition example_load : list (@llabel Z) :=
  [LFetch 0 None; LFetch 1 None; LNext 0; LNext 1; LRequest 1; LRunEnds 1 (Some 7); LRequest 0; LFetch 0 None; LFetch 1 None;
   LNext 1; LNext 0; LStreamEnds 0; LReleased 0; LRunEnds 0 None; LReleased 1; LClose; LReporter None; LReturn].


(** Closing the reporter does not wait for the loaders: one that is still running
    when its client has given up waiting reports a stream on the closed channel of
    the report file, which panics. *)
Theorem close_before_receivers : ∃ s : @lsys Z,
  lsteps (NewCountLimiter (tt : Unlimited) 2) maxDuration true
    [LFetch 0 None; LNext 0; LRequest 0; LFetch 0 None; LNext 0; LReleased 0; LClose; LStreamEnds 0] (lsys_init 1) = Some s ∧
  l_panicked s = true.
Proof. eexists. split; [vm_compute; reflexivity|done]. Qed.
