(* ===== verification/Replies.v ===== *)
(** * Replies: what the receiver writes back

    The bytes the frame processors of src/loader/reciever/processor.go put on the
    priority channel: acknowledgements of PING and updates of the connection's
    window, each a whole HTTP/2 frame. *)

From S2P Require Import Prelude FrameHeader Types Store Framer Handlers Processor Receiver Effects.

Definition frame_bytes (f : frame) : bytes := f.1 ++ f.2.

(** The two kinds of reply. *)
Inductive is_reply : frame → Prop :=
| reply_ping payload : length payload = 8%nat → is_reply (mk_frame FramePing FlagPingAck 0 payload)
| reply_window inc payload : payload = [u8 (Z.shiftr inc 24); u8 (Z.shiftr inc 16); u8 (Z.shiftr inc 8); u8 inc] →
    is_reply (mk_frame FrameWindowUpdate 0 0 payload).

Lemma is_reply_wf f : is_reply f → frame_wf f.
Proof. intros [payload H|inc payload ->]; apply mk_frame_wf; unfold zlen; [rewrite H|]; reflexivity. Qed.

(** The frames put on the channel, in order. *)
Definition sent (es : list event) : list bytes := omap (λ e, match e with EvSend b => Some b | _ => None end) es.

Lemma sent_app es es' : sent (es ++ es') = sent es ++ sent es'.
Proof. apply omap_app. Qed.

Section replies.
Context {S D HErr : Type} `{!StreamStore S} `{!HpackDecoder D HErr}.
Implicit Types s : pstate S D.

(** All that has been sent from the events [es] on are whole replies. *)
Definition replies (w : World S) : Prop := ∃ fs, Forall is_reply fs ∧ sent (w_log w) = frame_bytes <$> fs.

Lemma replies_quiet e : sent [e] = [] → ∀ w, replies w → replies (log_app [e] w).
Proof. intros He w (fs & Hf & E). exists fs. split; [done|]. cbn [log_app w_log]. by rewrite sent_app, He, app_nil_r. Qed.
Hint Resolve replies_quiet : keeps.

Lemma replies_send f w : is_reply f → replies w → replies (log_app [EvSend (frame_bytes f)] w).
Proof.
  intros Hf (fs & Hfs & E). exists (fs ++ [f]). split; [by apply Forall_app; split; [|apply Forall_singleton]|].
  cbn [log_app w_log]. by rewrite sent_app, E, fmap_app.
Qed.

(** Taking a stream out of the store is not a reply. *)
Lemma replies_log st (w : World S) : replies w → replies (mkWorld st (w_log w)).
Proof. done. Qed.
Hint Resolve keeps_storeGetAndDelete keeps_storeDelete replies_log : keeps.

Lemma replies_onHeaders fs : keeps replies (onHeaders (S := S) (D := D) (HErr := HErr) fs).
Proof. induction fs; cbn; solve_keeps_log. Qed.
Lemma replies_hpackWrite p e : keeps replies (hpackWrite (S := S) (D := D) (HErr := HErr) p e).
Proof. pose proof replies_onHeaders. unfold hpackWrite. solve_keeps_log. Qed.
Hint Resolve replies_hpackWrite : keeps.

Lemma replies_headers h p i : keeps replies (headers_Process (S := S) (D := D) (HErr := HErr) h p i).
Proof. unfold headers_Process. solve_keeps_log. Qed.
Lemma replies_rst h p i : keeps replies (rst_Process (S := S) (HErr := HErr) h p i).
Proof. unfold rst_Process. solve_keeps_log. Qed.
Lemma replies_wu h p i : keeps replies (wu_Process (S := S) (HErr := HErr) h p i).
Proof. unfold wu_Process. solve_keeps_log. Qed.
Lemma replies_goaway h p i : keeps replies (goaway_Process (S := S) (HErr := HErr) h p i).
Proof. unfold goaway_Process. solve_keeps_log. Qed.
Lemma replies_settings h p i : keeps replies (settings_Process (S := S) (HErr := HErr) h p i).
Proof. unfold settings_Process. solve_keeps_log. Qed.

(** A PING carries eight bytes. *)
Definition ping_sized (f : frame) : Prop := Type_ f.1 = Some FramePing → length f.2 = 8%nat.

Lemma replies_ping h payload (p : pingFrameProcessor) (w : World S) :
  length payload = 8%nat → ping_inv p → replies w →
  let r := ping_Process (HErr := HErr) h payload false (p, w) in ping_inv r.2.1 ∧ replies r.2.2.
Proof.
  intros Hlen (Hcur & rest & Hnext) Hw. unfold ping_Process, mbind, gm_bind, get_state, put_state, emit_, gm_modify.
  cbn [fst snd currentPingAckFrame nextPingAckFrame]. rewrite Hcur, Hnext.
  rewrite slice_to_Some by (rewrite zlen_app; change (zlen pingAckHeader) with 9; pose proof (zlen_nonneg rest); lia).
  change 9 with (zlen pingAckHeader). rewrite take_zlen_app. cbn [gm_index mret gm_ret fst snd].
  split; [by split; eauto|].
  assert (pingAckHeader ++ payload = frame_bytes (mk_frame FramePing FlagPingAck 0 payload)) as ->.
  { unfold frame_bytes, mk_frame. cbn [fst snd]. unfold zlen. by rewrite Hlen. }
  apply (replies_send _ w); [by constructor|done].
Qed.

(** The end of a stream in a DATA frame: no reply, and the window as it was. *)
Lemma data_finish_run h p w : replies w → data_inv p →
  data_inv (data_finish (HErr := HErr) h (p, w)).2.1 ∧ replies (data_finish (HErr := HErr) h (p, w)).2.2.
Proof.
  intros Hw Hp. split; [|by apply (ltac:(unfold data_finish; solve_keeps_log) : keeps replies (data_finish (HErr := HErr) h))].
  enough ((data_finish (HErr := HErr) h (p, w)).2.1 = p) as -> by done.
  unfold data_finish, mbind, gm_bind. destruct (Flags h) as [fl|]; [|done]. cbn [gm_index mret gm_ret].
  destruct (flags_has fl FlagDataEndStream); [|done]. unfold emit_, gm_modify. cbn [fst snd].
  destruct (StreamID h) as [id|]; [|done]. cbn [gm_index mret gm_ret]. unfold storeGetAndDelete. cbn [fst snd].
  by destruct (store_GetAndDelete _ _) as [[[x|] st]|].
Qed.

Lemma replies_data h payload p (w : World S) :
  Length h = Some (zlen payload) → data_inv p → replies w →
  let r := data_Process (HErr := HErr) h payload false (p, w) in data_inv r.2.1 ∧ replies r.2.2.
Proof.
  intros Hlen (Hc & Hnx & Hacc) Hw. pose proof (zlen_nonneg payload). cbn zeta.
  assert (∀ m : PM S HErr dataFrameProcessor unit, ∀ p' w', m (p, w) = (Ret tt, (p', w')) → data_inv p' → replies w' →
    let r := (m;; data_finish (HErr := HErr) h) (p, w) in data_inv r.2.1 ∧ replies r.2.2) as Hseq.
  { intros m p' w' E Hp' Hw'. unfold mbind, gm_bind. rewrite E. by apply data_finish_run. }
  unfold data_Process. unfold mbind at 1, gm_bind at 1, get_state. rewrite Hlen.
  unfold mbind at 1, gm_bind at 1. cbn [gm_index mret gm_ret fst snd].
  destruct (Z.le_gt_cases windowUpdateMinValue (windowUpdateAcc p + zlen payload)) as [Hge|Hlt].
  - eapply (Hseq _ (mkData (nextWindowUpdateFrame p) (wu_frame (windowUpdateAcc p + zlen payload)) 0)).
    + cbn [fst]. rewrite (proj2 (Z.leb_le _ _)) by done. rewrite put_increment_spec by apply Hc. reflexivity.
    + split; [done|]. split; [apply wu_frame_template|]. done.
    + by apply (replies_send _ w (reply_window (windowUpdateAcc p + zlen payload) _ eq_refl)).
  - eapply (Hseq _ (mkData (currentWindowUpdateFrame p) (nextWindowUpdateFrame p) (windowUpdateAcc p + zlen payload))); [|split; [done|]; split; [done|]; cbn [windowUpdateAcc]; lia|done].
    cbn [fst]. rewrite (proj2 (Z.leb_gt _ _)) by lia. reflexivity.
Qed.

(** The processors' buffers, and what has been sent. *)
Definition reply_state s : Prop := ping_inv (ps_ping s) ∧ data_inv (ps_data s) ∧ replies (ps_world s).

Lemma ping_kind t : subprocessors !! Z.to_nat t = Some (Some PPing) → t = FramePing.
Proof.
  change FramePing with 6. intros H. enough (Z.to_nat t = 6%nat) by lia.
  revert H. generalize (Z.to_nat t). by do 10 (intros [|n]; [done|revert n]).
Qed.

Lemma reply_dispatch f s : frame_wf f → ping_sized f → reply_state s →
  reply_state (dispatch (D := D) (HErr := HErr) f.1 f.2 false s).2.
Proof.
  intros (_ & _ & Hlen) Hp (Hpi & Hda & Hw). destruct f as [h b]. cbn [fst snd] in *. unfold dispatch, mbind, gm_bind.
  destruct (Type_ h) as [t|] eqn:Ht; [|done]. cbn [gm_index mret gm_ret].
  destruct (subprocessors !! Z.to_nat t) as [[k|]|] eqn:Hk; [|done..]. cbn [gm_index mret gm_ret].
  assert (∀ P (m : PM S HErr P unit) (get : P), keeps replies m → replies (m (get, ps_world s)).2.2) as Hkeep
    by (intros P m get Hm; by apply Hm).
  destruct k; cbn [kind_Process]; unfold gm_zoom.
  - pose proof (replies_data h b (ps_data s) (ps_world s) Hlen Hda Hw) as [H1 H2].
    by destruct (data_Process _ _ _ _) as [? []].
  - pose proof (Hkeep _ _ (ps_headers s) (replies_headers h b false)) as H. by destruct (headers_Process _ _ _ _) as [? []].
  - pose proof (Hkeep _ _ (ps_rst s) (replies_rst h b false)) as H. by destruct (rst_Process _ _ _ _) as [? []].
  - pose proof (Hkeep _ _ tt (replies_settings h b false)) as H. by destruct (settings_Process _ _ _ _) as [? []].
  - assert (t = FramePing) as -> by (apply ping_kind, Hk).
    pose proof (replies_ping h b (ps_ping s) (ps_world s) (Hp Ht) Hpi Hw) as [H1 H2].
    by destruct (ping_Process _ _ _ _) as [? []].
  - pose proof (Hkeep _ _ (ps_goaway s) (replies_goaway h b false)) as H. by destruct (goaway_Process _ _ _ _) as [? []].
  - pose proof (Hkeep _ _ (ps_wu s) (replies_wu h b false)) as H. by destruct (wu_Process _ _ _ _) as [? []].
Qed.

Lemma reply_frames fs : Forall frame_wf fs → Forall ping_sized fs → ∀ s,
  reply_state s → reply_state (ReceiveFrames (D := D) (HErr := HErr) fs s).2.
Proof.
  induction 1 as [|f fs Hf _ IH]; intros Hp s Hs; [done|]. apply Forall_cons in Hp as [Hpf Hp].
  destruct (dispatch (D := D) (HErr := HErr) f.1 f.2 false s) as [o s'] eqn:Hd.
  rewrite (ReceiveFrames_cons _ _ _ _ _ Hd). pose proof (reply_dispatch f s Hf Hpf Hs) as H. rewrite Hd in H.
  destruct o; auto.
Qed.
End replies.

(** Whatever whole frames the server sends, in whatever pieces they arrive, as
    long as its PINGs have their eight bytes: what the receiver puts on the
    priority channel is whole frames, acknowledgements of PING and updates of
    the connection's window. *)
Lemma replies_sent {S D HErr} `{!StreamStore S} `{!HpackDecoder D HErr} `{!HpackLaws D HErr}
    (fs : list frame) (chunks : list bytes) (d : D) (st : S) :
  Forall frame_wf fs → Forall ping_sized fs → concat chunks = encode_frames fs →
  ∃ rs, Forall is_reply rs ∧
    sent (w_log (ps_world (Receive (HErr := HErr) chunks (NewDefaultProcessor d st)).2)) = frame_bytes <$> rs.
Proof.
  intros Hwf Hp Hc. destruct (receive_cut (HErr := HErr) fs chunks (NewDefaultProcessor d st) Hwf Hc) as (_ & -> & _).
  apply reply_frames; [done..|]. split; [by split; [|exists []]|]. split; [|by exists []].
  split; [done|]. split; [done|]. done.
Qed.
