(* ===== verification/Wire.v ===== *)
(** * Wire: what the connection carries

    Composes Request.v and Sender.v: the frames [SetUp] makes for the requests of
    a connection, queued by [send] and written by the two goroutines of
    src/loader/sender/sender.go among the priority frames of the receiver, seen as
    the bytes of HTTP/2 frames. *)

From S2P Require Import Prelude FrameHeader Types Store Framer Handlers Processor Receiver Replies Request Sender.

(** ** Whole frames among chunks *)

(** A frame of a request or a priority frame, and the chunks it is written in. *)
Inductive whole := WPrio (b : bytes) | WFrame (f : sframe).

Definition whole_chunks (u : whole) : list chunk :=
  match u with WPrio b => [Prio b] | WFrame f => Reg <$> f_chunks f end.
Definition flat (us : list whole) : list chunk := concat (whole_chunks <$> us).

Definition w_frames (us : list whole) : list sframe := omap (λ u, match u with WFrame f => Some f | _ => None end) us.
Definition w_prios (us : list whole) : list bytes := omap (λ u, match u with WPrio b => Some b | _ => None end) us.

Lemma flat_app us vs : flat (us ++ vs) = flat us ++ flat vs.
Proof. unfold flat. by rewrite fmap_app, concat_app. Qed.
Lemma w_frames_app us vs : w_frames (us ++ vs) = w_frames us ++ w_frames vs.
Proof. apply omap_app. Qed.
Lemma w_prios_app us vs : w_prios (us ++ vs) = w_prios us ++ w_prios vs.
Proof. apply omap_app. Qed.
Lemma flat_frames fs : flat (WFrame <$> fs) = Reg <$> chs fs.
Proof. induction fs as [|f fs IH]; [done|].
  change ((Reg <$> f_chunks f) ++ flat (WFrame <$> fs) = Reg <$> f_chunks f ++ chs fs). by rewrite IH, fmap_app.
Qed.
Lemma w_frames_frames fs : w_frames (WFrame <$> fs) = fs.
Proof. induction fs as [|f fs IH]; [done|]. cbn. by rewrite <-IH at 2. Qed.
Lemma w_prios_frames fs : w_prios (WFrame <$> fs) = [].
Proof. by induction fs. Qed.
Lemma flat_nil_prios us : flat us = [] → w_prios us = [].
Proof.
  induction us as [|u us IH]; [done|]. intros E. change (whole_chunks u ++ flat us = []) in E.
  apply app_eq_nil in E as [E1 E2]. destruct u as [b|f]; [done|]. exact (IH E2).
Qed.

Lemma if_bool {A} (b : bool) (x y z : A) : (if b then x else y) = z → (b = true ∧ x = z) ∨ (b = false ∧ y = z).
Proof. destruct b; auto. Qed.

Section whole.
Variable batched : bool.
Implicit Types s : sys.

(** What the processor has gathered from the index the next command starts at,
    and the frame it holds back meanwhile. *)
Definition start s : nat := match sy_pc s with Sending from _ => from | _ => base batched end.
Definition pending s : list chunk := drop (start s) (cur_buf s).
Definition held_back s : list sframe := match sy_pc s with Sending _ k => held k | _ => [] end.

(** The loop of the processor is at its select: nothing is held back. *)
Definition selecting s : Prop := ∀ from k, sy_pc s ≠ Sending from k.

Lemma selecting_start s : selecting s → start s = base batched ∧ held_back s = [].
Proof. intros H. unfold start, held_back. destruct (sy_pc s) eqn:E; try done. by destruct (H from k). Qed.

(** The units written or being written, and those gathered; outside [doWrite]
    no priority frame is among the latter. *)
Record wholes (fs : list sframe) (ps : list bytes) s (gone here : list whole) : Prop := {
  wh_gone : sy_conn s ++ inflight s = flat gone;
  wh_here : pending s = flat here;
  wh_frames : fs = w_frames gone ++ w_frames here ++ held_back s;
  wh_prios : ps = w_prios gone ++ w_prios here;
  wh_quiet : selecting s → w_prios here = []
}.

Definition apart s : Prop := ∀ f, sy_loop s = Busy f → fl_buf f ≠ sy_cur s.

(** After [doWrite]. *)
Lemma wholes_resume fs ps gone here k s :
  apart s → (base batched <= length (cur_buf s))%nat → w_prios here = [] →
  sy_conn s ++ inflight s = flat gone → drop (base batched) (cur_buf s) = flat here →
  fs = w_frames gone ++ w_frames here ++ held k → ps = w_prios gone →
  wholes fs ps (resume k s) gone (here ++ (WFrame <$> held k)).
Proof.
  intros Ha Hb Hq Hg Hh Hfs Hps. assert (w_prios (here ++ (WFrame <$> held k)) = []) as Hq'
    by (by rewrite w_prios_app, Hq, w_prios_frames).
  assert (held_back (resume k s) = []) as Hk by (by destruct k).
  split; rewrite ?Hq', ?Hk, ?app_nil_r; [| |by rewrite w_frames_app, w_frames_frames|done|done].
  - rewrite <-Hg. destruct k as [|f| |]; try done. cbn [resume]. f_equal. by apply (inflight_upd s).
  - rewrite flat_app, flat_frames, <-Hh. unfold pending, start. destruct k as [|f| |]; cbn [held].
    2: { unfold cur_buf at 1. cbn [resume set_pc append_frame sy_pc sy_cur sy_bufs]. rewrite upd_eq, drop_app_le by done.
         unfold chs. cbn. by rewrite app_nil_r. }
    all: by cbn; rewrite app_nil_r.
Qed.

(** Entering [doWrite]. *)
Lemma wholes_doWrite fs ps gone here from k s :
  apart s → (base batched <= length (cur_buf s))%nat → from = base batched ∨ drop from (cur_buf s) ≠ [] →
  sy_conn s ++ inflight s = flat gone → drop from (cur_buf s) = flat here →
  fs = w_frames gone ++ w_frames here ++ held k → ps = w_prios gone ++ w_prios here →
  ∃ here', wholes fs ps (doWrite batched from k s) gone here'.
Proof.
  intros Ha Hb Hfrom Hg Hh Hfs Hps. unfold doWrite. destruct (batched && _) eqn:E; [|exists here; split; try done; by intros []%(λ H, H from k)].
  apply andb_true_iff in E as [_ E%bool_decide_eq_true]. destruct Hfrom as [->|Hfrom]; [|done].
  rewrite E in Hh. pose proof (flat_nil_prios here (eq_sym Hh)) as Hq. rewrite Hq, app_nil_r in Hps.
  eexists. apply wholes_resume; try done. by rewrite E.
Qed.

(** Anything that leaves the buffers and the connection as they are. *)
Lemma wholes_same fs ps s s' gone here :
  sy_conn s' = sy_conn s → inflight s' = inflight s → pending s' = pending s → held_back s' = held_back s →
  w_prios here = [] → wholes fs ps s gone here → wholes fs ps s' gone here.
Proof. intros Hc Hi Hp Hh Hq [H1 H2 H3 H4 H5]. by split; rewrite ?Hc, ?Hi, ?Hp, ?Hh. Qed.

(** Gathering a frame. *)
Lemma wholes_append fs ps f s gone here :
  apart s → (base batched <= length (cur_buf s))%nat → selecting s →
  wholes fs ps s gone here → wholes (fs ++ [f]) ps (append_frame f s) gone (here ++ [WFrame f]).
Proof.
  intros Ha Hb Hs [H1 H2 H3 H4 H5]. destruct (selecting_start s Hs) as [Hst Hk].
  rewrite Hk, app_nil_r in H3. unfold pending in H2. rewrite Hst in H2. split.
  - rewrite <-H1. f_equal. by apply (inflight_upd s).
  - rewrite flat_app, <-H2. unfold pending.
    change (start (append_frame f s)) with (start s). rewrite Hst. unfold cur_buf at 1. cbn [append_frame sy_cur sy_bufs]. rewrite upd_eq, drop_app_le by done.
    unfold flat. cbn. by rewrite app_nil_r.
  - change (held_back (append_frame f s)) with (held_back s). rewrite Hk, app_nil_r, w_frames_app, H3, <-app_assoc. done.
  - by rewrite w_prios_app, app_nil_r.
  - intros _. by rewrite w_prios_app, app_nil_r, H5.
Qed.

(** A command made of all that is gathered, with the frame [k] holds back. *)
Lemma wholes_flush fs ps gone here k s :
  apart s → (base batched <= length (cur_buf s))%nat → selecting s → wholes fs ps s gone here →
  ∃ here', wholes (fs ++ held k) ps (doWrite batched (base batched) k s) gone here'.
Proof.
  intros Ha Hb Hs [H1 H2 H3 H4 H5]. destruct (selecting_start s Hs) as [Hst Hk].
  unfold pending in H2. rewrite Hst in H2. rewrite Hk, app_nil_r in H3.
  eapply wholes_doWrite; [done|done|by left|done|exact H2| |exact H4]. by rewrite H3, <-app_assoc.
Qed.

(** A priority frame goes before the frames gathered. *)
Lemma wholes_prio fs ps gone here b k s :
  apart s → (base batched <= length (cur_buf s))%nat → selecting s → held k = [] → (batched = false → cur_buf s = []) →
  wholes fs ps s gone here → ∃ here', wholes fs (ps ++ [b]) (doWrite batched 0 k (put_prio batched b s)) gone here'.
Proof.
  intros Ha Hb Hs Hk Hi [H1 H2 H3 H4 H5]. destruct (selecting_start s Hs) as [Hst Hk'].
  unfold pending in H2. rewrite Hst in H2. rewrite Hk', app_nil_r in H3. specialize (H5 Hs). rewrite H5, app_nil_r in H4.
  assert (cur_buf (put_prio batched b s) = Prio b :: drop (base batched) (cur_buf s)) as Hc.
  { unfold put_prio, cur_buf, base in *. destruct batched; cbn [set_buf sy_cur sy_bufs]; rewrite upd_eq.
    - by destruct (sy_bufs s (sy_cur s)).
    - by rewrite (Hi eq_refl). }
  assert (inflight (put_prio batched b s) = inflight s) as Hf
    by (unfold put_prio; destruct batched; by apply (inflight_upd s)).
  assert (sy_conn (put_prio batched b s) = sy_conn s ∧ sy_loop (put_prio batched b s) = sy_loop s ∧
    sy_cur (put_prio batched b s) = sy_cur s) as (Hcn & Hl & Hcu) by (unfold put_prio; by destruct batched).
  eapply (wholes_doWrite _ _ _ (WPrio b :: here)).
  - unfold apart. by rewrite Hl, Hcu.
  - rewrite Hc. cbn. unfold base. destruct batched; lia.
  - right. by rewrite Hc.
  - by rewrite Hcn, Hf.
  - rewrite Hc, drop_0, H2. done.
  - rewrite Hk, app_nil_r. exact H3.
  - cbn. change (omap _ here) with (w_prios here). by rewrite H5, H4.
Qed.

(** The command is taken: what was gathered is in flight. *)
Lemma wholes_handover fs ps gone here from k s c t p :
  sy_pc s = Sending from k → sy_loop s = Idle → (base batched <= length (sy_bufs s (negb (sy_cur s))))%nat →
  wholes fs ps s gone here →
  ∃ here', wholes fs ps (resume k (mkSys p (negb (sy_cur s))
      (upd (negb (sy_cur s)) (take (base batched) (sy_bufs s (negb (sy_cur s)))) (sy_bufs s))
      c t (Busy (mkFlight (sy_cur s) from)) (sy_conn s) (sy_called s))) (gone ++ here) here'.
Proof.
  intros Hpc Hl Hb [H1 H2 H3 H4 _]. unfold pending, start, held_back in *. rewrite Hpc in H2, H3.
  set (s1 := mkSys _ _ _ _ _ _ _ _).
  assert (cur_buf s1 = take (base batched) (sy_bufs s (negb (sy_cur s)))) as Hc by (unfold cur_buf; cbn; apply upd_eq).
  eexists. apply (wholes_resume _ _ _ []); try done.
  - intros f [= <-]. cbn. by destruct (sy_cur s).
  - rewrite Hc, length_take. lia.
  - unfold inflight in *. rewrite Hl, app_nil_r in H1. cbn. rewrite upd_ne by (by destruct (sy_cur s)).
    by rewrite flat_app, H1, <-H2.
  - rewrite Hc. by rewrite drop_ge by (rewrite length_take; lia).
  - by rewrite w_frames_app, H3, <-app_assoc.
  - by rewrite w_prios_app.
Qed.

Lemma inv_wholes fs ps s : inv batched fs ps s →
  apart s ∧ (∀ i, (base batched <= length (sy_bufs s i))%nat) ∧ (selecting s → batched = false → cur_buf s = []).
Proof.
  intros H. destruct (inv_core _ _ _ _ H) as (pp & Hc). split; [exact (core_apart _ _ _ _ _ _ Hc)|]. split.
  - intros i. unfold base. destruct batched eqn:Hb; [|lia].
    destruct (core_shape _ _ _ _ _ _ Hc i eq_refl) as (x & rs & ->). cbn. lia.
  - intros Hs. unfold inv in H. destruct (sy_pc s) as [| |from k|] eqn:E; [apply H..| |apply H]. by destruct (Hs from k).
Qed.

(** The steps of the processor at its select. *)
Definition selects (l : label) : Prop :=
  match l with LPrio _ | LFrame _ | LClose | LTimer | LDone => True | _ => False end.

#[local] Instance selects_dec l : Decision (selects l).
Proof. destruct l; apply _. Defined.

Lemma selects_selecting l s s' : selects l → step batched l s = Some s' → selecting s.
Proof. intros Hl Hs from k E. unfold step in Hs. rewrite E in Hs. by destruct l. Qed.

Lemma wholes_select fs ps l s s' gone here :
  inv batched fs ps s → selecting s → wholes fs ps s gone here → step batched l s = Some s' → selects l →
  ∃ here', wholes (fs ++ frames_of [l]) (ps ++ prios_of [l]) s' gone here'.
Proof.
  intros Hi Hs Hw Hstep Hl. destruct (inv_wholes _ _ _ Hi) as (Ha & Hb & He). specialize (He Hs).
  pose proof (wh_quiet _ _ _ _ _ Hw Hs) as Hq. specialize (Hb (sy_cur s)).
  assert (wholes fs ps (set_timer true s) gone here) as Hw' by (by apply (wholes_same fs ps s)).
  assert (∀ s1 k, s1 = s ∨ s1 = set_timer true s → ∃ here',
    wholes (fs ++ held k) ps (doWrite batched (base batched) k s1) gone here') as Hflush.
  { intros s1 k [->| ->]; by apply (wholes_flush _ _ _ here). }
  assert (∀ p, (∀ from k, p ≠ Sending from k) → ∃ here', wholes fs ps (set_pc p s) gone here') as Hpc.
  { intros p Hp. exists here. destruct (selecting_start s Hs), (selecting_start (set_pc p s) Hp).
    apply (wholes_same fs ps s); try done; [|congruence].
    unfold pending. change (cur_buf (set_pc p s)) with (cur_buf s). congruence. }
  assert (batched = true → base batched = 1%nat) as Hbase1 by (unfold base; by intros ->).
  assert (batched = false → base batched = 0%nat) as Hbase0 by (unfold base; by intros ->).
  unfold step in Hstep.
  destruct l as [b|f| | | | | | | |]; try done; cbn [frames_of prios_of omap list_omap]; rewrite ?app_nil_r.
  - destruct (sy_pc s); try done; injection Hstep as <-; by apply (wholes_prio _ _ _ here).
  - destruct (sy_pc s) eqn:Hp; try done. apply if_bool in Hstep as [[Hbt Hstep]|[Hbt Hstep]].
    + destruct (MaxBuffers <? _); injection Hstep as <-; [|eexists; by apply wholes_append].
      rewrite <-(Hbase1 Hbt). apply (Hflush _ (KFrame f)). by right.
    + injection Hstep as <-. rewrite <-(Hbase0 Hbt), <-(app_nil_r (fs ++ [f])).
      apply (wholes_flush _ _ _ (here ++ [WFrame f]) KLoop (append_frame f s)); try done; [|by apply wholes_append].
      rewrite Hbase0 by done. lia.
  - destruct (sy_pc s); try done. apply if_bool in Hstep as [[Hbt [= <-]]|[Hbt [= <-]]]; [|by apply Hpc].
    rewrite <-(Hbase1 Hbt), <-(app_nil_r fs). apply (Hflush _ KDrain). by right.
  - destruct (sy_pc s); try done. apply if_bool in Hstep as [[[Hbt _]%andb_true_iff [= <-]]|[_ [=]]].
    rewrite <-(Hbase1 Hbt), <-(app_nil_r fs). apply (Hflush _ KLoop). by left.
  - destruct (sy_pc s); try done; [|by injection Hstep as <-; apply Hpc].
    apply if_bool in Hstep as [[Hbt [= <-]]|[Hbt [= <-]]]; [|by apply Hpc].
    rewrite <-(Hbase1 Hbt), <-(app_nil_r fs). apply (Hflush _ KStop). by left.
Qed.

(** Taking the command, and the steps of the send loop. *)
Lemma wholes_loop fs ps l s s' gone here :
  inv batched fs ps s → alive l → ¬ selects l → wholes fs ps s gone here → step batched l s = Some s' →
  ∃ gone' here', wholes (fs ++ frames_of [l]) (ps ++ prios_of [l]) s' gone' here'.
Proof.
  intros Hi Hal Hl Hw Hstep. destruct (inv_wholes _ _ _ Hi) as (Ha & Hb & _). unfold step in Hstep.
  destruct l as [b|f| | | | | | | |]; try (by destruct Hl); try done; cbn [frames_of prios_of omap list_omap]; rewrite ?app_nil_r.
  - destruct (sy_pc s) as [| |from k|] eqn:Hp; try done. destruct (sy_loop s) eqn:Hlp; try done. injection Hstep as <-.
    exists (gone ++ here). by apply wholes_handover.
  - destruct (sy_loop s) as [|f|] eqn:Hlp; [by destruct (sy_pc s)| |by destruct (sy_pc s)].
    destruct (sy_bufs s (fl_buf f) !! fl_pos f) as [c|] eqn:Hc; [|by destruct (sy_pc s)].
    exists gone, here. destruct Hw as [H1 H2 H3 H4 H5].
    assert (sy_conn s ++ inflight s = (sy_conn s ++ [c]) ++ drop (S (fl_pos f)) (sy_bufs s (fl_buf f))) as E.
    { unfold inflight. rewrite Hlp, (drop_S _ c) by done. by rewrite <-app_assoc. }
    rewrite E in H1. unfold pending, start, held_back, selecting in *.
    destruct (sy_pc s) eqn:Hp; injection Hstep as <-; split; unfold pending, start, held_back, selecting; cbn; rewrite ?Hp; done.
  - destruct (sy_loop s) as [|f|] eqn:Hlp; [by destruct (sy_pc s)| |by destruct (sy_pc s)].
    destruct (sy_bufs s (fl_buf f) !! fl_pos f) as [c|] eqn:Hc; [by destruct (sy_pc s)|].
    exists gone, here. destruct Hw as [H1 H2 H3 H4 H5].
    assert (inflight s = []) as E by (unfold inflight; rewrite Hlp; by apply drop_ge, lookup_ge_None).
    rewrite E in H1. unfold pending, start, held_back, selecting in *.
    destruct (sy_pc s) eqn:Hp; injection Hstep as <-; split; unfold pending, start, held_back, selecting; cbn; rewrite ?Hp; done.
Qed.

Lemma wholes_steps ls : ∀ fs ps s s' gone here, Forall alive ls → inv batched fs ps s → wholes fs ps s gone here →
  steps batched ls s = Some s' → ∃ gone' here', wholes (fs ++ frames_of ls) (ps ++ prios_of ls) s' gone' here'.
Proof.
  induction ls as [|l ls IH]; intros fs ps s s' gone here Hl Hi Hw Hs; cbn [steps] in Hs.
  - simplify_eq. rewrite !app_nil_r. by eexists _, _.
  - apply Forall_cons in Hl as [Hl Hls]. apply bind_Some in Hs as (s1 & H1 & Hs).
    assert (∃ gone' here', wholes (fs ++ frames_of [l]) (ps ++ prios_of [l]) s1 gone' here') as (gone' & here' & Hw').
    { destruct (selects_dec l) as [Hsel|Hsel]; [|by eapply wholes_loop].
      exists gone. eapply wholes_select; try done. by eapply selects_selecting. }
    pose proof (inv_step batched fs ps l s s1 Hl Hi H1) as Hi'.
    change (l :: ls) with ([l] ++ ls). unfold frames_of, prios_of. rewrite !omap_app, !app_assoc. by eapply IH.
Qed.
End whole.

(** ** The bytes *)
Definition chunk_bytes (c : chunk) : bytes := match c with Prio b | Reg b => b end.
Definition written (l : list chunk) : bytes := concat (chunk_bytes <$> l).

Lemma written_app l k : written (l ++ k) = written l ++ written k.
Proof. unfold written. by rewrite fmap_app, concat_app. Qed.
Lemma written_Reg bs : written (Reg <$> bs) = concat bs.
Proof. unfold written. rewrite <-list_fmap_compose. f_equal. apply list_fmap_id. Qed.

(** The two sequences make the third, each in its order. *)
Inductive merged {A} : list A → list A → list A → Prop :=
| merged_nil : merged [] [] []
| merged_left x l k m : merged l k m → merged (x :: l) k (x :: m)
| merged_right x l k m : merged l k m → merged l (x :: k) (x :: m).

Lemma merged_Forall {A} (P : A → Prop) l k m : merged l k m → Forall P l → Forall P k → Forall P m.
Proof.
  induction 1 as [|x l k m _ IH|x l k m _ IH]; [done|..]; rewrite ?Forall_cons; naive_solver.
Qed.

(** Units that carry whole frames carry them whole. *)
Lemma flat_bytes us : ∀ fs ps, Forall2 (λ q f, concat (f_chunks q) = frame_bytes f) (w_frames us) fs →
  w_prios us = frame_bytes <$> ps → ∃ all, merged fs ps all ∧ written (flat us) = encode_frames all.
Proof.
  induction us as [|u us IH]; intros fs ps Hf Hp.
  - apply Forall2_nil_inv_l in Hf as ->. destruct ps; [|done]. exists []. split; [apply merged_nil|done].
  - change (flat (u :: us)) with (whole_chunks u ++ flat us). rewrite written_app. destruct u as [b|q].
    + destruct ps as [|p ps]; [done|]. injection Hp as -> Hp.
      destruct (IH fs ps Hf Hp) as (all & Hm & ->). exists (p :: all). split; [by apply merged_right|].
      unfold encode_frames, written, frame_bytes. cbn. by rewrite app_nil_r.
    + apply Forall2_cons_inv_l in Hf as (f & fs' & Hq & Hf & ->).
      destruct (IH fs' ps Hf Hp) as (all & Hm & ->). exists (f :: all). split; [by apply merged_left|].
      cbn [whole_chunks]. rewrite written_Reg, Hq. done.
Qed.

(** ** The requests of a connection *)
Definition queued (calls : list call) : list sframe := omap (λ c, match c with CQueue f => Some f | _ => None end) calls.

Lemma queued_app k l : queued (k ++ l) = queued k ++ queued l.
Proof. apply omap_app. Qed.

(** As far as the flow controls let through, from the [i]-th on. *)
Fixpoint granted {A} (ok : nat → bool) (i : nat) (l : list A) : list A :=
  match l with [] => [] | x :: l => if ok i then x :: granted ok (S i) l else [] end.

Lemma queued_granted s streamOk connOk id fs : ∀ i,
  f_chunks <$> queued (send_frames s streamOk connOk id i fs) = Chunks <$> granted (λ i, streamOk i && connOk i) i fs.
Proof.
  induction fs as [|f fs IH]; intros i; [done|]. cbn [send_frames granted].
  destruct (streamOk i), (connOk i); try done. cbn [andb fmap list_fmap]. rewrite <-IH. done.
Qed.

Lemma granted_Forall {A} (P : A → Prop) ok l : ∀ i, Forall P l → Forall P (granted ok i l).
Proof. induction l as [|x l IH]; intros i H; cbn; [done|]. inversion_clear H. destruct (ok i); [constructor; auto|done]. Qed.
Lemma granted_Forall2 {A B} (R : A → B → Prop) ok l k : Forall2 R l k → ∀ i, Forall2 R (granted ok i l) (granted ok i k).
Proof. induction 1; intros i; cbn; [constructor|]. destruct (ok i); by constructor. Qed.

Section requests.
Context {W : Type} `{!FieldWriter W}.
Variables (n limit : Z).

(** A request handed to [Send]: its adapter, the stream it gets, and what the two
    flow controls answer. *)
Record outgoing := mkOutgoing { o_adapter : RequestAdapter; o_stream : stream; o_streamOk : nat → bool; o_connOk : nat → bool }.

(** [Send] with [SetUp] and the connection's encoder in it. *)
Definition Send (o : outgoing) (streamID : Z) (w : W) : option (list call * Z * W) :=
  match SetUp n limit (u32 (streamID + 2)) (o_adapter o, w) with
  | (Ret (fs, err), (a, w)) =>
      let r := match err with None => inl fs | Some _ => inr tt end in
      Some (send (o_stream o) (Tag (o_adapter o)) (Size a) r (o_streamOk o) (o_connOk o) streamID, w)
  | _ => None
  end.

Fixpoint Sends (os : list outgoing) (streamID : Z) (w : W) : option (list call) :=
  match os with
  | [] => Some []
  | o :: os =>
      '(calls, id, w) ← Send o streamID w;
      rest ← Sends os id w;
      Some (calls ++ rest)
  end.

(** What a request is to look like on the connection. *)
Definition request_frames (id : Z) (block msg : bytes) : list frame :=
  block_frames n id true block ++ [mk_frame FrameData FlagDataEndStream id (grpc_prefix msg ++ msg)].

(** The frames of the requests, in order: none for one whose header list is too
    long, and only the first ones where a flow control says no. *)
Fixpoint expected (os : list outgoing) (streamID : Z) (w : W) : list frame :=
  match os with
  | [] => []
  | o :: os =>
      let a := o_adapter o in
      let id := u32 (streamID + 2) in
      let '(block, w) := request_block (default [] (default_WriteAdditional (metaMiddleware a))) a w in
      (if limit <? headerListSize a then []
       else granted (λ i, o_streamOk o i && o_connOk o i) 0 (request_frames id block (d_Message (data a)))) ++
      expected os id w
  end.

Record sendable (o : outgoing) : Prop := {
  so_prefix : prefix_ok (o_adapter o);
  so_middleware : is_Some (default_WriteAdditional (metaMiddleware (o_adapter o)));
  so_message : zlen (d_Message (data (o_adapter o))) <= n - 5
}.

Lemma request_frames_wf id block msg : 5 <= n < 2 ^ 24 → zlen msg <= n - 5 → Forall frame_wf (request_frames id block msg).
Proof.
  intros Hn Hm. apply Forall_app. split; [apply block_frames_wf; lia|]. apply Forall_singleton, mk_frame_wf.
  rewrite zlen_app. change (zlen (grpc_prefix msg)) with 5. lia.
Qed.

Lemma expected_wf os : 5 <= n < 2 ^ 24 → Forall sendable os → ∀ streamID w, Forall frame_wf (expected os streamID w).
Proof.
  intros Hn. induction 1 as [|o os Ho _ IH]; intros streamID w; [done|]. cbn [expected].
  destruct (request_block _ _ w) as [block w']. apply Forall_app. split; [|apply IH].
  destruct (limit <? _); [done|]. apply granted_Forall, request_frames_wf; [done|apply Ho].
Qed.

Lemma request_frames_chunks id block msg : 5 <= n < 2 ^ 24 → zlen msg <= n - 5 →
  Forall2 (λ F f, concat (Chunks F) = frame_bytes f)
    ((as_Frame <$> block_frames n id true block) ++ data_frames n id msg) (request_frames id block msg).
Proof.
  intros Hn Hm. rewrite data_frames_one by lia. apply Forall2_app.
  - apply Forall2_fmap_l, Forall2_same_length_lookup_2; [done|]. intros i x y Hx Hy. simplify_eq. cbn. by rewrite app_nil_r.
  - constructor; [|constructor]. unfold frame_bytes. cbn. by rewrite app_nil_r.
Qed.

(** A header list over the limit: no frame of the request is used, yet the encoder
    has gone on. *)
Lemma SetUp_rejected id additional a (w : W) : 5 <= n → prefix_ok a →
  default_WriteAdditional (metaMiddleware a) = Some additional → limit < headerListSize a →
  ∃ fs a', SetUp n limit id (a, w) =
    (Ret (fs, Some (ErrHeaderListSize (headerListSize a) limit)), (a', (request_block additional a w).2)) ∧
    data a' = data a.
Proof.
  intros Hn Hp Hadd Hlim. unfold SetUp. run_step. cbn [fst snd]. set (a0 := set_frames _ _).
  assert (Hrun := setUpHeaders_fields n limit id additional a0 w eq_refl Hadd). cbn zeta in Hrun.
  change (headerListSize a0) with (headerListSize a) in Hrun. rewrite (proj2 (Z.ltb_lt _ _)) in Hrun by done.
  run_with Hrun. set (a1 := set_headersBuf _ _).
  change (request_block additional a0 w) with (request_block additional a w) in *.
  destruct (setUpPayload_run n id a1 (request_block additional a w).2) as (f' & sz & Hrun' & Hsz); [done|unfold fh_ok; cbn; lia|done|].
  run_with Hrun'. run_step. eexists _, _. split; [reflexivity|done].
Qed.

(** One request: what it queues is what is expected of it. *)
Lemma Send_queues o streamID (w : W) : 5 <= n < 2 ^ 24 → sendable o →
  ∃ calls, Send o streamID w = Some (calls, u32 (streamID + 2),
      (request_block (default [] (default_WriteAdditional (metaMiddleware (o_adapter o)))) (o_adapter o) w).2) ∧
    ∀ os, ∃ mine, expected (o :: os) streamID w = mine ++ expected os (u32 (streamID + 2))
        (request_block (default [] (default_WriteAdditional (metaMiddleware (o_adapter o)))) (o_adapter o) w).2 ∧
      Forall2 (λ q f, concat (f_chunks q) = frame_bytes f) (queued calls) mine.
Proof.
  intros Hn [Hp [additional Hadd] Hm]. unfold Send. cbn [expected]. rewrite Hadd. cbn [default].
  destruct (Z.ltb_spec limit (headerListSize (o_adapter o))) as [Hlim|Hlim].
  - destruct (SetUp_rejected (u32 (streamID + 2)) additional (o_adapter o) w) as (fs & a' & -> & _); [lia|done..|].
    eexists. split; [reflexivity|]. intros os. exists []. destruct (request_block _ _ w). split; [done|constructor].
  - destruct (SetUp_run n limit (u32 (streamID + 2)) additional (o_adapter o) w) as (f & sz & -> & _); [lia|done..|].
    eexists. split; [reflexivity|]. intros os. destruct (request_block _ _ w) as [block w']. cbn [fst snd].
    eexists. split; [reflexivity|]. rewrite queued_app. cbn [queued omap list_omap app].
    change (omap _ ?l) with (queued l). apply (Forall2_fmap_l f_chunks (λ cs f, concat cs = frame_bytes f)).
    rewrite queued_granted. apply Forall2_fmap_l, granted_Forall2. by apply request_frames_chunks.
Qed.

Lemma Sends_queue os : 5 <= n < 2 ^ 24 → Forall sendable os → ∀ streamID (w : W),
  ∃ calls, Sends os streamID w = Some calls ∧
    Forall2 (λ q f, concat (f_chunks q) = frame_bytes f) (queued calls) (expected os streamID w).
Proof.
  intros Hn. induction 1 as [|o os Ho _ IH]; intros streamID w; [exists []; split; [done|constructor]|].
  destruct (Send_queues o streamID w Hn Ho) as (calls & Hs & He). destruct (He os) as (mine & Hmine & Hq).
  cbn [Sends]. rewrite Hs, Hmine. cbn [mbind option_bind].
  destruct (IH (u32 (streamID + 2)) (request_block (default [] (default_WriteAdditional (metaMiddleware (o_adapter o)))) (o_adapter o) w).2) as (rest & -> & Hr).
  eexists. split; [reflexivity|]. rewrite queued_app. by apply Forall2_app.
Qed.
End requests.

(** The chunks of units are those of their frames. *)
Lemma regs_flat us : regs (flat us) = chs (w_frames us).
Proof.
  induction us as [|u us IH]; [done|]. change (flat (u :: us)) with (whole_chunks u ++ flat us).
  rewrite regs_app, IH. destruct u as [b|f]; [done|]. cbn [whole_chunks]. by rewrite regs_Reg.
Qed.

(** From the start: what is on the connection and in flight is whole units; the
    frames accepted and not among them are gathered. *)
Lemma units_whole batched ls s : Forall alive ls → steps batched ls (sys_init batched) = Some s →
  ∃ gone rest, sy_conn s ++ inflight s = flat gone ∧ frames_of ls = w_frames gone ++ rest ∧
    w_prios gone `prefix_of` prios_of ls ∧ (gathered s = [] → chs rest = []).
Proof.
  intros Hl Hs. destruct (wholes_steps batched ls [] [] _ s [] [] Hl (inv_init batched)) as (gone & here & H).
  - split; try done. by destruct batched.
  - exact Hs.
  - destruct H as [H1 H2 H3 H4 _]. cbn [app] in H3, H4. exists gone, (w_frames here ++ held_back s).
    split; [done|]. split; [done|]. split; [rewrite H4; by eexists|].
    unfold gathered. intros [Hr Hk]%app_eq_nil. rewrite chs_app. change (chs (held_back s) = []) in Hk. rewrite Hk, app_nil_r.
    rewrite <-regs_flat, <-H2. unfold pending. rewrite <-(take_drop (start batched s) (cur_buf s)), regs_app in Hr.
    by apply app_eq_nil in Hr as [_ Hr].
Qed.

(** The frames of requests and the replies on a connection, with the queued frames
    they are; none is missing once the senders are done and nothing is left to
    write. *)
Lemma carried_by {W} `{!FieldWriter W} n limit os (w : W) calls acks batched ls s :
  5 <= n < 2 ^ 24 → Forall (sendable n) os → Sends n limit os 1 w = Some calls → Forall is_reply acks →
  Forall alive ls → frames_of ls `prefix_of` queued calls → prios_of ls `prefix_of` frame_bytes <$> acks →
  steps batched ls (sys_init batched) = Some s →
  ∃ fr qs rs all, written (sy_conn s ++ inflight s) = encode_frames all ∧ Forall frame_wf all ∧ merged qs rs all ∧
    qs `prefix_of` expected n limit os 1 w ∧ Forall is_reply rs ∧ frame_bytes <$> rs `prefix_of` prios_of ls ∧
    (frames_of ls = queued calls → gathered s = [] → qs = expected n limit os 1 w) ∧
    fr `prefix_of` frames_of ls ∧ Forall2 (λ q f, concat (f_chunks q) = frame_bytes f) fr qs.
Proof.
  intros Hn Hos Hcalls Hacks Hl Hqs Hrs Hs.
  destruct (units_whole batched ls s Hl Hs) as (gone & rest & -> & Hgf & Hgp & Hall).
  destruct (Sends_queue n limit os Hn Hos 1 w) as (calls' & Hc & Hq). rewrite Hcalls in Hc. injection Hc as <-.
  destruct Hqs as [more Hmore]. rewrite Hmore, Hgf, <-app_assoc in Hq.
  apply Forall2_app_inv_l in Hq as (qs & qs' & Hf & Hr & He).
  assert (w_prios gone `prefix_of` frame_bytes <$> acks) as [rest' Hgp'] by (by etrans).
  apply fmap_app_inv in Hgp' as (rs & rs' & Hp & _ & ->). destruct (flat_bytes gone qs rs Hf Hp) as (all & Hm & Hw).
  exists (w_frames gone), qs, rs, all.
  pose proof (expected_wf n limit os Hn Hos 1 w) as Hwf. rewrite He in Hwf |- *.
  apply Forall_app in Hwf as [Hwf Hwf']. apply Forall_app in Hacks as [Hacks _].
  split_and!; [done| |done|by eexists|done|by rewrite <-Hp| |rewrite Hgf; by eexists|done].
  - eapply merged_Forall; [exact Hm|done|]. eapply Forall_impl; [exact Hacks|]. apply is_reply_wf.
  - intros Hq Hg. rewrite <-Hq in Hmore. symmetry in Hmore. rewrite <-(app_nil_r (frames_of ls)) in Hmore at 2.
    apply app_inv_head in Hmore as ->. rewrite app_nil_r in Hr. specialize (Hall Hg).
    destruct Hr as [|q f rest qs' Hqf _]; [by rewrite app_nil_r|]. exfalso.
    apply Forall_cons in Hwf' as [(Hlen & _) _]. change (f_chunks q ++ chs rest = []) in Hall.
    apply app_eq_nil in Hall as [Hall _]. rewrite Hall in Hqf. apply (f_equal length) in Hqf.
    unfold frame_bytes in Hqf. rewrite length_app in Hqf. cbn in Hqf. lia.
Qed.


Lemma alive_frames fs : Forall alive (LFrame <$> fs).
Proof. by apply Forall_fmap, Forall_true. Qed.

Definition example_outgoing (msg : bytes) : outgoing := mkOutgoing (example_adapter msg) 0%nat (λ _, true) (λ _, true).
Definition example_os : list outgoing := [example_outgoing (str "hi"); mkOutgoing (example_adapter (str "no")) 0%nat (λ i, (i <? 1)%nat) (λ _, true)].
Definition example_queue : list sframe := default [] (queued <$> Sends 20 1000 example_os 1 0%nat).
Definition example_wire : list label :=
  (LFrame <$> take 2 example_queue) ++ [LPrio [0; 0; 8; 6; 1; 0; 0; 0; 0; 1; 2; 3; 4; 5; 6; 7; 8]; LHandOver; LWrite; LWrite; LWrite] ++
  (LFrame <$> drop 2 example_queue).


(** Between whole frames is not always a good place: with a header block of two
    frames a reply can come between HEADERS and its CONTINUATION, which HTTP/2
    forbids. *)
Theorem reply_splits_header_block :
  ∃ ls s F G, frames_of ls = take 2 example_queue ∧ steps true ls (sys_init true) = Some s ∧
    expected 20 1000 example_os 1 0%nat !! 0%nat = Some F ∧ expected 20 1000 example_os 1 0%nat !! 1%nat = Some G ∧
    Type_ G.1 = Some FrameContinuation ∧
    written (sy_conn s) = encode_frames [F; mk_frame FramePing FlagPingAck 0 [1; 2; 3; 4; 5; 6; 7; 8]; G].
Proof.
  exists ((LFrame <$> take 1 example_queue) ++ [LTimer; LHandOver; LWrite; LWrite; LCallbacks;
    LPrio [0; 0; 8; 6; 1; 0; 0; 0; 0; 1; 2; 3; 4; 5; 6; 7; 8]; LHandOver; LWrite; LCallbacks] ++
    (LFrame <$> take 1 (drop 1 example_queue)) ++ [LTimer; LHandOver; LWrite; LWrite; LCallbacks]).
  do 3 eexists. split; [vm_compute; reflexivity|]. split; [vm_compute; reflexivity|].
  split; [vm_compute; reflexivity|]. split; [vm_compute; reflexivity|]. by split.
Qed.

(** A request with too long a header list sends nothing, but the encoder of the
    connection keeps what its block has put into the dynamic table, which the
    peer never learns. *)
Theorem rejected_moves_encoder {W} `{!FieldWriter W} n limit o streamID additional (w : W) :
  5 <= n → prefix_ok (o_adapter o) → default_WriteAdditional (metaMiddleware (o_adapter o)) = Some additional →
  limit < headerListSize (o_adapter o) →
  ∃ calls, Send n limit o streamID w = Some (calls, u32 (streamID + 2), (request_block additional (o_adapter o) w).2) ∧
    queued calls = [] ∧ CLimiterRelease ∉ calls.
Proof.
  intros Hn Hp Hadd Hlim. unfold Send.
  destruct (SetUp_rejected n limit (u32 (streamID + 2)) additional (o_adapter o) w Hn Hp Hadd Hlim) as (fs & a' & -> & _).
  eexists. split; [reflexivity|]. split; [done|]. cbn. set_solver.
Qed.
