(* ===== verification/Windows.v ===== *)
(** * Windows: flow control of a connection

    Composes the sender (src/loader/sender/sender.go, [send]), the receiver
    (src/loader/reciever/processor.go), the loop over timeouts
    (src/loader/loader.go, [Run]), the pool of stream objects and the send windows
    (src/loader/streams/pool, src/loader/flowcontrol) over one store, call by call
    and frame by frame. *)

From S2P Require Import Prelude FrameHeader Types Store Framer Handlers Processor Receiver Effects.
From S2P Require Import Monitor FlowControl Pool Request Sender Loader LoaderRun Wire.
From stdpp Require Import fin_sets.
#[local] Open Scope Z_scope.

(** ** What frames carry *)

(** The DATA bytes of a queued frame, the stream it names. *)
Definition frame_data (b : bytes) : Z :=
  match Type_ b, Length b with Some t, Some l => if t =? FrameData then l else 0 | _, _ => 0 end.
Definition cost (q : sframe) : Z := frame_data (concat (f_chunks q)).
Definition on_stream (id : Z) (q : sframe) : Prop := StreamID (concat (f_chunks q)) = Some id.

#[export] Instance on_stream_dec id q : Decision (on_stream id q).
Proof. unfold on_stream. apply _. Defined.

Definition data_all (qs : list sframe) : Z := zsum (cost <$> qs).
Definition data_on (id : Z) (qs : list sframe) : Z := zsum (cost <$> base.filter (on_stream id) qs).

Lemma data_all_snoc qs q : data_all (qs ++ [q]) = data_all qs + cost q.
Proof. unfold data_all. rewrite fmap_app, zsum_app. cbn. lia. Qed.
Lemma data_on_snoc id qs q : data_on id (qs ++ [q]) = data_on id qs + if decide (on_stream id q) then cost q else 0.
Proof.
  unfold data_on. rewrite filter_app, fmap_app, zsum_app. f_equal.
  destruct (decide (on_stream id q)); [rewrite filter_cons_True|rewrite filter_cons_False]; cbn; lia || done.
Qed.

(** The credit a server has given to stream [id], the connection for 0. *)
Definition credit1 (id : Z) (f : frame) : Z :=
  match Type_ f.1 with
  | Some t => if (t =? FrameWindowUpdate) && bool_decide (StreamID f.1 = Some id) then be_val f.2 else 0
  | None => 0
  end.
Definition credit (id : Z) (fs : list frame) : Z := zsum (credit1 id <$> fs).

Lemma credit_snoc id fs f : credit id (fs ++ [f]) = credit id fs + credit1 id f.
Proof. unfold credit. rewrite fmap_app, zsum_app. cbn. lia. Qed.

(** ** The connection *)
Section windows.
Context {W S D HErr : Type} `{!FieldWriter W} `{!StreamStore S} `{!HpackDecoder D HErr}.

(** The pool with its stream objects and their windows, the window of the
    connection, the receiver with the store; the sender: the object of the request
    in hand, the calls it has yet to make, its last stream id, its encoder. What
    was queued, the replies, the frames that have come and the requests handed
    over are kept for the record. *)
Record wconn := mkW {
  wc_pool : StreamsPool; wc_fc : FlowControl; wc_recv : pstate S D;
  wc_stream : stream; wc_todo : list call; wc_id : Z; wc_enc : W;
  wc_queued : list sframe; wc_replies : list bytes; wc_seen : list frame; wc_asked : list outgoing }.

Definition with_pool p c := mkW p (wc_fc c) (wc_recv c) (wc_stream c) (wc_todo c) (wc_id c) (wc_enc c) (wc_queued c) (wc_replies c) (wc_seen c) (wc_asked c).
Definition with_fc f c := mkW (wc_pool c) f (wc_recv c) (wc_stream c) (wc_todo c) (wc_id c) (wc_enc c) (wc_queued c) (wc_replies c) (wc_seen c) (wc_asked c).
Definition with_recv r c := mkW (wc_pool c) (wc_fc c) r (wc_stream c) (wc_todo c) (wc_id c) (wc_enc c) (wc_queued c) (wc_replies c) (wc_seen c) (wc_asked c).
Definition with_todo l c := mkW (wc_pool c) (wc_fc c) (wc_recv c) (wc_stream c) l (wc_id c) (wc_enc c) (wc_queued c) (wc_replies c) (wc_seen c) (wc_asked c).
Definition queue f c := mkW (wc_pool c) (wc_fc c) (wc_recv c) (wc_stream c) (wc_todo c) (wc_id c) (wc_enc c) (wc_queued c ++ [f]) (wc_replies c) (wc_seen c) (wc_asked c).
Definition see f c := mkW (wc_pool c) (wc_fc c) (wc_recv c) (wc_stream c) (wc_todo c) (wc_id c) (wc_enc c) (wc_queued c) (wc_replies c) (wc_seen c ++ [f]) (wc_asked c).

Definition put_reply b c := mkW (wc_pool c) (wc_fc c) (wc_recv c) (wc_stream c) (wc_todo c) (wc_id c) (wc_enc c) (wc_queued c) (wc_replies c ++ [b]) (wc_seen c) (wc_asked c).

Definition wc_store c : S := w_store (ps_world (wc_recv c)).

(** The receiver with a world of which all calls have been made. *)
Definition settle (store : S) (s : pstate S D) : pstate S D :=
  mkPState (ps_data s) (ps_headers s) (ps_rst s) (ps_ping s) (ps_goaway s) (ps_wu s) (mkWorld store []).

(** The window of a stream object. *)
Definition set_window (s : stream) (g : FlowControl → FlowControl) (p : StreamsPool) : StreamsPool :=
  mkPool (pool p) (inUse p) (Pool.initialWindowSize p)
    (alter (λ x, mkStreamImpl (streamID x) (g (fc x)) (state_tag x)) s (objects p)).

Definition fc_add (n : Z) (f : FlowControl) : FlowControl := (fc_perform (FlowControl.Add (Z.to_N n)) f).1.

(** A call of the receiver or of the loop over timeouts on these objects: [End]
    gives a stream object back, [Add] enlarges a window, a reply goes to the
    priority channel. The limiter and the reports are not among them. *)
Definition deliver (e : event) (c : wconn) : wconn :=
  match e with
  | EvStream x End_ => with_pool (release x (wc_pool c)) c
  | EvFcAdd None n => with_fc (fc_add n (wc_fc c)) c
  | EvFcAdd (Some x) n => with_pool (set_window x (fc_add n) (wc_pool c)) c
  | EvSend b => put_reply b c
  | _ => c
  end.
Definition deliver_all (es : list event) (c : wconn) : wconn := foldl (λ c e, deliver e c) c es.

(** The answer of a wait that the calls of [send] to come suppose. *)
Definition goes_on (todo : list call) : bool :=
  match todo with CWaitConn _ :: _ | CQueue _ :: _ => true | _ => false end.

(** A call of [send], [None] while it has to wait. [WaitAllow] is left to
    [Permits]. *)
Definition wcall (x : call) (c : wconn) : option wconn :=
  match x with
  | CAcquire id tag =>
      let '(s, p) := Acquire id tag (wc_pool c) in
      if decide (s = wc_stream c) then Some (with_pool p c) else None
  | CEnd s => Some (with_pool (release s (wc_pool c)) c)
  | CStoreSet id s => store ← store_Set id s (wc_store c); Some (with_recv (settle store (wc_recv c)) c)
  | CWaitStream s n =>
      x ← objects (wc_pool c) !! s;
      '(ok, f) ← Wait (Z.to_N n) (fc x);
      if eqb ok (goes_on (wc_todo c)) then Some (with_pool (set_window s (λ _, f) (wc_pool c)) c) else None
  | CWaitConn n =>
      '(ok, f) ← Wait (Z.to_N n) (wc_fc c);
      if eqb ok (goes_on (wc_todo c)) then Some (with_fc f c) else None
  | CQueue f => Some (queue f c)
  | _ => Some c
  end.

Inductive wlabel :=
| WSend (o : outgoing)    (** a request is handed to [Send] *)
| WCall                   (** [send] makes its next call *)
| WFrame (f : frame)      (** the receiver handles a frame *)
| WTimeout (id : Z).      (** a request is taken from the timeout queue *)

Variables (n limit : Z).

Definition wstep (l : wlabel) (c : wconn) : option wconn :=
  match l with
  | WSend o =>
      match wc_todo c with
      | [] =>
          '(calls, id, w) ← Send n limit o (wc_id c) (wc_enc c);
          Some (mkW (wc_pool c) (wc_fc c) (wc_recv c) (o_stream o) calls id w (wc_queued c) (wc_replies c) (wc_seen c) (wc_asked c ++ [o]))
      | _ => None
      end
  | WCall => match wc_todo c with [] => None | x :: todo => wcall x (with_todo todo c) end
  | WFrame f =>
      match dispatch (HErr := HErr) f.1 f.2 false (wc_recv c) with
      | (Ret _, r) =>
          Some (see f (deliver_all (w_log (ps_world r)) (with_recv (settle (w_store (ps_world r)) r) c)))
      | _ => None
      end
  | WTimeout id =>
      match handle_timeout (HErr := HErr) id (tt, ps_world (wc_recv c)) with
      | (Ret _, (_, w)) => Some (deliver_all (w_log w) (with_recv (settle (w_store w) (wc_recv c)) c))
      | _ => None
      end
  end.

Fixpoint wsteps (ls : list wlabel) (c : wconn) : option wconn :=
  match ls with [] => Some c | l :: ls => c ← wstep l c; wsteps ls c end.

(** A connection before its first request. *)
Definition wconn_init (p : StreamsPool) (f : FlowControl) (d : D) (store : S) (w : W) : wconn :=
  mkW p f (NewDefaultProcessor d store) 0%nat [] 1 w [] [] [] [].

Definition wsends (ls : list wlabel) : Z := zsum ((λ l, match l with WSend _ => 1 | _ => 0 end) <$> ls).
End windows.

Arguments wconn : clear implicits.
Arguments wlabel : clear implicits.

(** ** What calls leave behind *)
Section made.
Context {W S D : Type} `{!StreamStore S}.
Implicit Types c : wconn W S D.

(** [c'] has made the calls [calls] of [c]: these frames were queued. *)
Record made (calls : list call) c c' : Prop := {
  md_queued : wc_queued c' = wc_queued c ++ queued calls;
  md_replies : wc_replies c' = wc_replies c;
  md_asked : wc_asked c' = wc_asked c;
  md_id : wc_id c' = wc_id c;
  md_enc : wc_enc c' = wc_enc c;
  md_ping : ps_ping (wc_recv c') = ps_ping (wc_recv c);
  md_data : ps_data (wc_recv c') = ps_data (wc_recv c)
}.

Lemma wcall_made x todo c c' : wcall x (with_todo todo c) = Some c' → wc_todo c' = todo ∧ made [x] c c'.
Proof.
  intros H. destruct x; cbn [wcall] in H;
    repeat first [apply bind_Some in H as (? & ? & H) | case_match]; simplify_eq;
    (split; [done|split; cbn; by rewrite ?app_nil_r]).
Qed.
End made.

(** ** What is left of a send *)

(** A request in hand has no stream object yet; it has one that the receiver
    does not know of; it has been stored, or is over. *)
Inductive mode := Before | Mine | Flowing.

Definition fresh (l : list call) : Prop := match l with [] | CWaitStream _ _ :: _ => True | _ => False end.

Section stage.
Variables (s : stream) (id : Z).

Inductive flow : list call → Prop :=
| flow_nil : flow []
| flow_queue q l : on_stream id q → 0 <= cost q < 2 ^ 32 → fresh l → flow l → flow (CQueue q :: l)
| flow_conn p q l : cost q = p → flow (CQueue q :: l) → flow (CWaitConn p :: CQueue q :: l)
| flow_conn_no p : 0 <= p → flow [CWaitConn p]
| flow_stream p l : flow (CWaitConn p :: l) → flow (CWaitStream s p :: CWaitConn p :: l)
| flow_stream_no p : 0 <= p → flow [CWaitStream s p].

Inductive stage : mode → list call → Prop :=
| stage_flow l : flow l → stage Flowing l
| stage_store l : fresh l → flow l → stage Mine (CStoreSet id s :: l)
| stage_size k l : stage Mine l → stage Mine (CSetSize s k :: l)
| stage_end : stage Mine [CEnd s]
| stage_error l : stage Mine l → stage Mine (CRequestError s :: l)
| stage_setup i l : stage Mine l → stage Mine (CSetUp i :: l)
| stage_acquire i tag l : stage Mine l → stage Before (CAcquire i tag :: l)
| stage_allow l : stage Before l → stage Before (CWaitAllow :: l).
End stage.

(** Taken from a window for the frame in hand, which is not queued yet. *)
Definition pend_s (l : list call) : Z := match l with CWaitConn p :: _ => p | CQueue q :: _ => cost q | _ => 0 end.
Definition pend_c (l : list call) : Z := match l with CQueue q :: _ => cost q | _ => 0 end.

Lemma stage_pend s id mo l : stage s id mo l → mo ≠ Flowing → pend_s l = 0 ∧ pend_c l = 0.
Proof. by destruct 1. Qed.
Lemma fresh_pend l : fresh l → pend_s l = 0 ∧ pend_c l = 0.
Proof. by destruct l as [|[] l]. Qed.
Lemma flow_pend s id l : flow s id l → 0 <= pend_s l ∧ 0 <= pend_c l.
Proof. destruct 1 as [|q l Hq Hc|p q l <- Hf| | |]; cbn; try lia. inversion Hf. lia. Qed.

(** [send] on frames that cost what they carry. *)
Definition fits (id : Z) (F : Frame) : Prop :=
  frame_data (concat (Chunks F)) = FlowControlPrice F ∧ 0 <= FlowControlPrice F < 2 ^ 32 ∧ StreamID (concat (Chunks F)) = Some id.

Lemma flow_frames s sOk cOk id fs : Forall (fits id) fs → ∀ i, flow s id (send_frames s sOk cOk id i fs) ∧ fresh (send_frames s sOk cOk id i fs).
Proof.
  induction 1 as [|F fs (Hd & Hp & Hs) _ IH]; intros i; cbn [send_frames]; [by split; [constructor|]|].
  destruct (IH (S i)) as [Hf Hfr]. destruct (sOk i); [destruct (cOk i)|]; (split; [|done]).
  - constructor. constructor; [done|]. constructor; [done|unfold cost; cbn; lia|done..].
  - constructor. constructor. lia.
  - constructor. lia.
Qed.

Lemma send_stage s tag size r sOk cOk streamID : (∀ fs, r = inl fs → Forall (fits (u32 (streamID + 2))) fs) →
  stage s (u32 (streamID + 2)) Before (send s tag size r sOk cOk streamID).1.
Proof.
  intros Hr. unfold send. cbn [fst app]. constructor. constructor. constructor. destruct r as [fs|]; [|repeat constructor].
  destruct (flow_frames s sOk cOk _ fs (Hr fs eq_refl) 0) as [Hf Hfr]. constructor. by constructor.
Qed.

(** The header of a frame with the rest behind it. *)
Lemma frame_data_header len t flags id rest : 0 <= len < 2 ^ 24 → is_byte t →
  frame_data (header_bytes len t flags id ++ rest) = if t =? FrameData then len else 0.
Proof.
  intros Hl Ht. unfold frame_data.
  change (Type_ (header_bytes len t flags id ++ rest)) with (Some (u8 t)).
  change (Length (header_bytes len t flags id ++ rest)) with (Length (header_bytes len t flags id)).
  by rewrite Length_header_bytes, u8_id.
Qed.
Lemma StreamID_header len t flags id rest : StreamID (header_bytes len t flags id ++ rest) = Some (u32 id).
Proof. exact (StreamID_header_bytes len t flags id). Qed.

Lemma fits_block n id first b : 0 < n < 2 ^ 24 → is_u32 id → Forall (fits id) (as_Frame <$> block_frames n id first b).
Proof.
  intros Hn Hid. apply Forall_fmap. pose proof (cut_short n b ltac:(lia)) as Hs.
  assert (∀ one p, zlen p <= n → fits id (as_Frame (block_frame n id one p))) as Hone.
  { intros one p Hp. pose proof (zlen_nonneg p). unfold fits, as_Frame, block_frame, mk_frame. cbn [Chunks FlowControlPrice concat fst].
    rewrite StreamID_header, u32_id, frame_data_header; [by destruct one|lia|by destruct one|done]. }
  unfold block_frames. destruct Hs as [|p ps Hp Hps]; [done|]. constructor; [by apply Hone|].
  apply Forall_fmap. eapply Forall_impl; [exact Hps|]. intros q Hq. by apply Hone.
Qed.

Lemma fits_data n id msg : n < 2 ^ 24 → zlen msg <= n - 5 → is_u32 id → Forall (fits id) (data_frames n id msg).
Proof.
  intros Hn Hm Hid. rewrite data_frames_one by done. constructor; [|done]. pose proof (zlen_nonneg msg).
  assert (zlen (grpc_prefix msg ++ msg) = zlen msg + 5) as Hz by (rewrite zlen_app; change (zlen (grpc_prefix msg)) with 5; lia).
  unfold fits, mk_frame. cbn [Chunks FlowControlPrice concat fst]. rewrite StreamID_header, u32_id, frame_data_header; [|lia|done..].
  by split; [|split; [lia|]].
Qed.

(** [Send], for every request and encoder. *)
Lemma Send_stage {W} `{!FieldWriter W} n limit o streamID (w : W) calls id w' : 5 <= n < 2 ^ 24 → sendable n o →
  Send n limit o streamID w = Some (calls, id, w') → id = u32 (streamID + 2) ∧ stage (o_stream o) id Before calls.
Proof.
  intros Hn [Hp [additional Hadd] Hm]. unfold Send. destruct (Z.ltb_spec limit (headerListSize (o_adapter o))) as [Hlim|Hlim].
  - destruct (SetUp_rejected n limit (u32 (streamID + 2)) additional (o_adapter o) w) as (fs & a' & -> & _); [lia|done..|].
    intros [= <- <- <-]. split; [done|]. by apply (send_stage _ (Tag (o_adapter o)) 0 (inr tt) (o_streamOk o) (o_connOk o) streamID).
  - destruct (SetUp_run n limit (u32 (streamID + 2)) additional (o_adapter o) w) as (f & sz & -> & _); [lia|done..|].
    intros [= <- <- <-]. split; [done|]. apply (send_stage _ _ _ (inl _) _ _ streamID). intros fs [= <-].
    pose proof (u32_is_u32 (streamID + 2)). apply Forall_app. split; [apply fits_block; [lia|done]|by apply fits_data; [lia|..]].
Qed.

(** ** Who has a stream object *)

(** Every stream stored has an object of its own that is in use; so has the request
    in hand before it is stored, and after it only under its id. *)
Record owns (m : gmap Z stream) (p : StreamsPool) (mo : mode) (s : stream) (id : Z) (used : gset stream) : Prop := {
  ow_pool : pool_ok p used;
  ow_used : ∀ i x, m !! i = Some x → x ∈ used;
  ow_inj : ∀ i j x, m !! i = Some x → m !! j = Some x → i = j;
  ow_mine : mo = Mine → s ∈ used ∧ ∀ i, m !! i ≠ Some s;
  ow_cur : mo = Flowing → ∀ i, m !! i = Some s → i = id
}.

Lemma owns_next m p mo s id used s' id' : owns m p mo s id used → owns m p Before s' id' used.
Proof. by intros [H1 H2 H3 _ _]. Qed.

Lemma owns_acquire m p s id used i tag s' p' : owns m p Before s id used → Acquire i tag p = (s', p') →
  owns m p' Mine s' id ({[s']} ∪ used).
Proof.
  intros [H1 H2 H3 _ _] Ha. pose proof (Acquire_spec i tag p used H1) as Hs. rewrite Ha in Hs.
  destruct Hs as (Hs & Hp & _ & _). split; [done| |done| |done].
  - intros j x Hx. apply elem_of_union_r. by eapply H2.
  - intros _. split; [set_solver|]. intros j Hj. by apply Hs, (H2 j).
Qed.

Lemma owns_store m p s id used : owns m p Mine s id used → owns (<[id := s]> m) p Flowing s id used.
Proof.
  intros [H1 H2 H3 H4 _]. destruct (H4 eq_refl) as [Hs Hm]. split; [done| | |done|].
  - intros i x. rewrite lookup_insert_Some. intros [[_ <-]|[_ Hi]]; [done|by eapply H2].
  - intros i j x. rewrite !lookup_insert_Some. intros [[<- <-]|[_ Hi]] [[<- E]|[_ Hj]]; subst; naive_solver.
  - intros _ i. rewrite lookup_insert_Some. intros [[<- _]|[_ Hi]]; [done|by destruct (Hm i)].
Qed.

(** Any object no longer stored, which is not the one of a request to be stored. *)
Lemma owns_release m p mo s id used x : owns m p mo s id used → x ∈ used → (∀ i, m !! i ≠ Some x) → (mo = Mine → x ≠ s) →
  owns m (release x p) mo s id (used ∖ {[x]}).
Proof.
  intros [H1 H2 H3 H4 H5] Hx Hm Hs. split; [by apply release_ok| |done| |done].
  - intros i y Hy. apply elem_of_difference. split; [by eapply H2|]. intros ->%elem_of_singleton. by destruct (Hm i).
  - intros E. destruct (H4 E) as [Hu Hn]. split; [|done]. apply elem_of_difference. split; [done|].
    intros E'%elem_of_singleton. by apply (Hs E).
Qed.

(** The request in hand is over before it was stored. *)
Lemma owns_end m p s id used : owns m p Mine s id used → owns m (release s p) Flowing s id (used ∖ {[s]}).
Proof.
  intros [H1 H2 H3 H4 _]. destruct (H4 eq_refl) as [Hs Hm]. apply owns_release; [|done..].
  split; try done. intros _ i Hi. by destruct (Hm i).
Qed.

Lemma owns_submap m m' p mo s id used : m' ⊆ m → owns m p mo s id used → owns m' p mo s id used.
Proof.
  intros Hsub [H1 H2 H3 H4 H5]. assert (∀ i x, m' !! i = Some x → m !! i = Some x) as H by (intros i x Hi; by eapply lookup_weaken).
  split; [done| | | |].
  - intros i x Hi%H. by eapply H2.
  - intros i j x Hi%H Hj%H. by eapply H3.
  - intros E. destruct (H4 E) as [? Hn]. split; [done|]. intros i Hi%H. by destruct (Hn i).
  - intros E i Hi%H. by apply H5.
Qed.

Lemma pool_window p used s g : pool_ok p used → pool_ok (set_window s g p) used.
Proof. intros [H1 H2 H3 H4]. split; cbn [set_window pool inUse objects]; try done. intros x. by rewrite length_alter. Qed.

Lemma owns_window m p mo s id used x g : owns m p mo s id used → owns m (set_window x g p) mo s id used.
Proof. intros [H1 H2 H3 H4 H5]. split; try done. by apply pool_window. Qed.

(** ** How much windows have left *)
Definition win (s : stream) (p : StreamsPool) : Z := from_option (λ x, fc_n (fc x)) 0 (objects p !! s).
Definition open_fc (f : FlowControl) : Prop := fc_ok f = true ∧ 0 <= fc_n f.

Lemma Wait_open k f ok f' : open_fc f → 0 <= k → Wait (Z.to_N k) f = Some (ok, f') →
  ok = true ∧ open_fc f' ∧ fc_n f' <= fc_n f - k.
Proof.
  intros [Hok Hn] Hk. unfold Wait, open_fc. destruct (N.eqb_spec (Z.to_N k) 0) as [E|E].
  - intros [= <- <-]. repeat split; [done|done|lia].
  - rewrite Hok, andb_true_r. destruct (Z.ltb_spec (fc_n f) (Z.of_N (Z.to_N k))); [done|]. intros [= <- <-]. cbn [fc_ok fc_n].
    rewrite Z2N.id in * by lia. pose proof (Z.mod_le (fc_n f - k) (2 ^ 32)). pose proof (u32_is_u32 (fc_n f - k)) as [? _].
    unfold u32 in *. repeat split; lia.
Qed.

Lemma fc_add_open k f : open_fc f → 0 <= k → open_fc (fc_add k f) ∧ fc_n (fc_add k f) <= fc_n f + k.
Proof.
  intros [Hok Hn] Hk. unfold fc_add, open_fc. cbn [fc_perform fst fc_ok fc_n]. rewrite Z2N.id by done.
  pose proof (Z.mod_le (fc_n f + k) (2 ^ 32)). pose proof (u32_is_u32 (fc_n f + k)) as [? _]. unfold u32 in *. split; [done|lia].
Qed.

Lemma win_window_eq s x g p : objects p !! s = Some x → win s (set_window s g p) = fc_n (g (fc x)).
Proof. unfold win, stream. intros H. cbn [set_window objects]. by rewrite list_lookup_alter_eq, H. Qed.
Lemma win_window_ne s s' g p : s ≠ s' → win s (set_window s' g p) = win s p.
Proof. intros H. unfold win. cbn [set_window objects]. by rewrite list_lookup_alter_ne by done. Qed.

Definition open_obj (x : streamImpl) : Prop := open_fc (fc x).

Lemma acquire_open i tag p s p' : Forall open_obj (objects p) → Acquire i tag p = (s, p') →
  Forall open_obj (objects p') ∧ Pool.initialWindowSize p' = Pool.initialWindowSize p.
Proof.
  intros Hp. assert (open_fc (NewFlowControl (Pool.initialWindowSize p))) as Hnew by (split; cbn; [done|lia]).
  unfold Acquire. destruct (slice_Acquire (pool p)) as [[x|] free]; intros [= <- <-]; (split; [|done]); cbn [objects];
    apply Forall_alter; try done; apply Forall_app; by split; [|apply Forall_singleton].
Qed.

Section within.
Context {W S D : Type} (iw : N).
Implicit Types c : wconn W S D.

(** What is queued and what the windows have left stay within [b0] for the
    connection, within [b1] for the stream in hand, within [bs i] for stream [i]. *)
Record within (mo : mode) (b0 b1 : Z) (bs : Z → Z) c : Prop := {
  wi_objs : Forall open_obj (objects (wc_pool c));
  wi_size : Pool.initialWindowSize (wc_pool c) = iw;
  wi_fc : open_fc (wc_fc c);
  wi_all : fc_n (wc_fc c) + data_all (wc_queued c) + pend_c (wc_todo c) <= b0;
  wi_win : mo = Flowing → win (wc_stream c) (wc_pool c) + data_on (wc_id c) (wc_queued c) + pend_s (wc_todo c) <= b1;
  wi_full : mo = Mine → win (wc_stream c) (wc_pool c) <= Z.of_N iw;
  wi_new : ∀ i, wc_id c < i ∨ mo ≠ Flowing ∧ wc_id c <= i → data_on i (wc_queued c) = 0;
  wi_on : ∀ i, data_on i (wc_queued c) <= bs i
}.

Lemma within_mono mo b0 b0' b1 b1' bs bs' c : b0 <= b0' → (mo = Flowing → b1 <= b1') → (∀ i, bs i <= bs' i) →
  within mo b0 b1 bs c → within mo b0' b1' bs' c.
Proof.
  intros H0 H1 Hs [? ? ? ? Hw ? ? Ho]. split; try done; [lia|intros E; specialize (Hw E); specialize (H1 E); lia|].
  intros i. specialize (Ho i). specialize (Hs i). lia.
Qed.

(** The receiver and the record of the frames do not matter. *)
Lemma within_recv mo b0 b1 bs r c : within mo b0 b1 bs c → within mo b0 b1 bs (with_recv r c).
Proof. by intros []. Qed.
Lemma within_see mo b0 b1 bs f c : within mo b0 b1 bs c → within mo b0 b1 bs (see f c).
Proof. by intros []. Qed.
Lemma within_release mo b0 b1 bs x c : within mo b0 b1 bs c → within mo b0 b1 bs (with_pool (release x (wc_pool c)) c).
Proof. by intros []. Qed.

Lemma within_reply mo b0 b1 bs b c : within mo b0 b1 bs c → within mo b0 b1 bs (put_reply b c).
Proof. by intros []. Qed.

(** What a window is enlarged by, [None] for the connection's. *)
Definition added_to (o : option stream) (es : list event) : Z :=
  zsum ((λ a : option stream * Z, if decide (a.1 = o) then a.2 else 0) <$> fc_adds es).

Lemma added_to_cons o e es : added_to o (e :: es) = added_to o [e] + added_to o es.
Proof. unfold added_to. change (e :: es) with ([e] ++ es). by rewrite fc_adds_app, fmap_app, zsum_app. Qed.

Lemma added_to_one o d k : added_to o [EvFcAdd d k] = if decide (d = o) then k else 0.
Proof. unfold added_to. cbn. by case_decide; cbn; lia. Qed.

Definition adds_nonneg (es : list event) : Prop := Forall (λ a, 0 <= a.2) (fc_adds es).

Lemma win_deliver x n s p : Forall open_obj (objects p) → 0 <= n →
  win s (set_window x (fc_add n) p) <= win s p + if decide (Some x = Some s) then n else 0.
Proof.
  intros Hp Hn. destruct (decide (Some x = Some s)) as [[= ->]|Hne]; [|rewrite win_window_ne by congruence; lia].
  destruct (objects p !! s) as [o|] eqn:Ho.
  - erewrite win_window_eq by done. pose proof (proj1 (Forall_lookup _ _) Hp s o Ho) as Ho'.
    destruct (fc_add_open n (fc o) Ho' Hn) as [_ H]. unfold win. rewrite Ho. exact H.
  - unfold win, stream in *. cbn [set_window objects]. rewrite list_lookup_alter_eq, Ho. cbn. lia.
Qed.

Lemma objs_window x n p : Forall open_obj (objects p) → 0 <= n → Forall open_obj (objects (set_window x (fc_add n) p)).
Proof. intros Hp Hn. apply Forall_alter; [done|]. intros o _ Ho. by apply fc_add_open. Qed.

Lemma within_deliver mo b0 b1 bs e c : within mo b0 b1 bs c → adds_nonneg [e] → (mo = Mine → added_to (Some (wc_stream c)) [e] = 0) →
  within mo (b0 + added_to None [e]) (b1 + added_to (Some (wc_stream c)) [e]) bs (deliver e c).
Proof.
  intros Hc Hn Hm. destruct e as [x [| | | | | | | | |]| |[x|] k|]; cbn [deliver];
    try (by apply (within_mono mo b0 _ b1 _ bs bs); unfold added_to; cbn; [lia|intros _; lia| |]; first [apply within_release|apply within_reply|idtac]).
  - assert (0 <= k) as Hk by (by apply (proj1 (Forall_singleton _ _)) in Hn). clear Hn; rename Hk into Hn. destruct Hc as [H1 H2 H3 H4 H5 H6 H7 H8].
    pose proof (win_deliver x k (wc_stream c) (wc_pool c) H1 Hn) as Hw. rewrite !added_to_one, (decide_False (P := Some x = None)) in * by done.
    split; cbn [with_pool wc_pool wc_fc wc_recv wc_stream wc_todo wc_id wc_queued]; try done.
    + by apply objs_window.
    + lia.
    + intros E. specialize (H5 E). lia.
    + intros E. specialize (H6 E). specialize (Hm E). lia.
  - assert (0 <= k) as Hk by (by apply (proj1 (Forall_singleton _ _)) in Hn). clear Hn; rename Hk into Hn. destruct Hc as [H1 H2 H3 H4 H5 H6 H7 H8].
    destruct (fc_add_open k (wc_fc c) H3 Hn) as [H9 H10].
    rewrite !added_to_one, (decide_True (P := None = None)), (decide_False (P := None = Some _)) in * by done.
    split; cbn [with_fc wc_pool wc_fc wc_recv wc_stream wc_todo wc_id wc_queued]; try done; [lia|].
    intros E. specialize (H5 E). lia.
Qed.

Lemma deliver_same e c : wc_stream (deliver e c) = wc_stream c ∧ wc_id (deliver e c) = wc_id c ∧ wc_todo (deliver e c) = wc_todo c ∧
  wc_recv (deliver e c) = wc_recv c ∧ wc_seen (deliver e c) = wc_seen c ∧ wc_queued (deliver e c) = wc_queued c.
Proof. by destruct e as [x [| | | | | | | | |]| |[x|] k|]. Qed.

Lemma deliver_all_same es : ∀ c, wc_stream (deliver_all es c) = wc_stream c ∧ wc_id (deliver_all es c) = wc_id c ∧
  wc_todo (deliver_all es c) = wc_todo c ∧ wc_recv (deliver_all es c) = wc_recv c ∧ wc_seen (deliver_all es c) = wc_seen c ∧
  wc_queued (deliver_all es c) = wc_queued c.
Proof.
  unfold deliver_all. induction es as [|e es IH]; intros c; [done|]. cbn [foldl].
  destruct (IH (deliver e c)) as (-> & -> & -> & -> & -> & ->). apply deliver_same.
Qed.

Lemma within_deliver_all mo bs es : ∀ b0 b1 c, within mo b0 b1 bs c → adds_nonneg es →
  (mo = Mine → Forall (λ a, a.1 ≠ Some (wc_stream c)) (fc_adds es)) →
  within mo (b0 + added_to None es) (b1 + added_to (Some (wc_stream c)) es) bs (deliver_all es c).
Proof.
  induction es as [|e es IH]; intros b0 b1 c Hc Hn Hm; [by rewrite !Z.add_0_r|].
  unfold adds_nonneg in *. change (e :: es) with ([e] ++ es) in Hn, Hm. rewrite fc_adds_app, Forall_app in Hn.
  rewrite fc_adds_app in Hm. destruct Hn as [Hn Hns]. destruct (deliver_same e c) as (Hs & _).
  rewrite !(added_to_cons _ e es), !Z.add_assoc. change (deliver_all (e :: es) c) with (deliver_all es (deliver e c)).
  rewrite <-Hs at 2. apply IH; [|done|].
  - apply within_deliver; [done..|]. intros E. specialize (Hm E). apply Forall_app in Hm as [Hm _].
    destruct e as [| |d k|]; try done. rewrite added_to_one. apply decide_False. by inversion Hm.
  - intros E. specialize (Hm E). apply Forall_app in Hm as [_ Hm]. by rewrite Hs.
Qed.
End within.

(** ** The invariant *)
Section steps.
Context {W S D HErr : Type} `{!FieldWriter W} `{!StreamStore S} `{!StreamStoreSpec S} `{!HpackDecoder D HErr}.
Variable iw : N.
Implicit Types c : wconn W S D.

Record conn_ok (mo : mode) (used : gset stream) (b0 b1 : Z) (bs : Z → Z) c : Prop := {
  ck_stage : stage (wc_stream c) (wc_id c) mo (wc_todo c);
  ck_store : store_ok (wc_store c);
  ck_log : w_log (ps_world (wc_recv c)) = [];
  ck_owns : owns (store_abs (wc_store c)) (wc_pool c) mo (wc_stream c) (wc_id c) used;
  ck_within : within iw mo b0 b1 bs c
}.

Ltac conn_cbn := cbn [with_pool with_fc with_recv with_todo queue see wc_store wc_pool wc_fc wc_recv wc_stream wc_todo wc_id
  wc_enc wc_queued wc_replies wc_seen wc_asked put_reply settle ps_world w_store w_log] in *.

(** *** The calls of [send] *)
Section call.
Variables (used : gset stream) (b0 : Z) (bs : Z → Z) (c : wconn W S D) (todo : list call).
Hypothesis Hbs : ∀ i, Z.of_N iw <= bs i.
Let b1 := bs (wc_id c).

(** Calls that change nothing here. *)
Lemma call_quiet mo x : wc_todo c = x :: todo → conn_ok mo used b0 b1 bs c → stage (wc_stream c) (wc_id c) mo todo → mo ≠ Flowing →
  conn_ok mo used b0 b1 bs (with_todo todo c).
Proof.
  intros Hx [H1 H2 H3 H4 [? ? ? Ha Hw ? ? ?]] Hs Hmo. pose proof (stage_pend _ _ _ _ H1 Hmo) as [_ P].
  destruct (stage_pend _ _ _ _ Hs Hmo) as [_ P']. split; try done. split; try done. conn_cbn. lia.
Qed.

Lemma call_acquire i tag s p : wc_todo c = CAcquire i tag :: todo → conn_ok Before used b0 b1 bs c →
  stage (wc_stream c) (wc_id c) Mine todo → Acquire i tag (wc_pool c) = (s, p) → s = wc_stream c →
  conn_ok Mine ({[s]} ∪ used) b0 b1 bs (with_pool p (with_todo todo c)).
Proof.
  intros Hx [H1 H2 H3 H4 [Ho Hz Hf Ha _ _ Hn Hd]] Hs Hacq ->. destruct (stage_pend _ _ _ _ Hs) as [_ P]; [done|].
  pose proof (stage_pend _ _ _ _ H1) as [_ P']; [done|]. destruct (acquire_open _ _ _ _ _ Ho Hacq) as [Ho' Hz'].
  split; conn_cbn; try done; [by eapply owns_acquire|]. split; conn_cbn; try done; [congruence|lia| |].
  - intros _. pose proof (Acquire_spec i tag (wc_pool c) used (ow_pool _ _ _ _ _ _ H4)) as Hspec. rewrite Hacq in Hspec.
    destruct Hspec as (_ & _ & Hobj & _). unfold win. rewrite Hobj, Hz. cbn. lia.
  - intros j [Hj|[_ Hj]]; apply Hn; [by left|by right].
Qed.

Lemma call_store i s store : wc_todo c = CStoreSet (wc_id c) (wc_stream c) :: todo → conn_ok Mine used b0 b1 bs c →
  fresh todo → flow (wc_stream c) (wc_id c) todo → store_key (S := S) (wc_id c) → i = wc_id c → s = wc_stream c →
  store_Set i s (wc_store c) = Some store →
  conn_ok Flowing used b0 b1 bs (with_recv (settle store (wc_recv c)) (with_todo todo c)).
Proof.
  intros Hx [H1 H2 H3 H4 [Ho Hz Hf Ha _ Hu Hn Hd]] Hfr Hfl Hk -> -> Hset. destruct (fresh_pend _ Hfr) as [P P'].
  pose proof (stage_pend _ _ _ _ H1) as [_ Q]; [done|].
  destruct (store_Set_spec (wc_store c) (wc_id c) (wc_stream c) H2 Hk) as (st & Hst & Hok & Habs). rewrite Hset in Hst. injection Hst as <-.
  split; conn_cbn; try done; [by constructor|rewrite Habs; by apply owns_store|]. split; conn_cbn; try done; [lia| |].
  - intros _. specialize (Hu eq_refl). rewrite (Hn (wc_id c)) by (by right). specialize (Hbs (wc_id c)). unfold b1. lia.
  - intros j [Hj|[? _]]; [|done]. apply Hn. by left.
Qed.

Lemma call_end : wc_todo c = [CEnd (wc_stream c)] → conn_ok Mine used b0 b1 bs c →
  conn_ok Flowing (used ∖ {[wc_stream c]}) b0 b1 bs (with_pool (release (wc_stream c) (wc_pool c)) (with_todo [] c)).
Proof.
  intros Hx [H1 H2 H3 H4 [Ho Hz Hf Ha _ Hu Hn Hd]]. rewrite Hx in Ha. cbn in Ha.
  split; conn_cbn; try done; [repeat constructor|by apply owns_end|]. split; conn_cbn; try done.
  - intros _. specialize (Hu eq_refl). rewrite (Hn (wc_id c)) by (by right). specialize (Hbs (wc_id c)). unfold b1, win in *. cbn. lia.
  - intros j [Hj|[? _]]; [|done]. apply Hn. by left.
Qed.

Lemma call_wait_stream p x f : wc_todo c = CWaitStream (wc_stream c) p :: todo → conn_ok Flowing used b0 b1 bs c →
  flow (wc_stream c) (wc_id c) todo → 0 <= p → pend_s todo = p → pend_c todo = 0 → objects (wc_pool c) !! wc_stream c = Some x →
  open_fc f → fc_n f <= fc_n (fc x) - p →
  conn_ok Flowing used b0 b1 bs (with_pool (set_window (wc_stream c) (λ _, f) (wc_pool c)) (with_todo todo c)).
Proof.
  intros Hx [H1 H2 H3 H4 [Ho Hz Hf Ha Hw _ Hn Hd]] Hfl Hp Hps Hpc Hobj Hopen Hle. rewrite Hx in Ha, Hw. cbn in Ha, Hw.
  split; conn_cbn; try done; [by constructor|by apply owns_window|]. split; conn_cbn; try done; [|lia|].
  - apply Forall_alter; [done|]. by intros o _ _.
  - intros _. specialize (Hw eq_refl). erewrite win_window_eq by done. unfold win in Hw. rewrite Hobj in Hw. cbn in Hw. lia.
Qed.

Lemma call_wait_conn p f : wc_todo c = CWaitConn p :: todo → conn_ok Flowing used b0 b1 bs c →
  flow (wc_stream c) (wc_id c) todo → 0 <= p → pend_s todo = p → pend_c todo = p →
  open_fc f → fc_n f <= fc_n (wc_fc c) - p → conn_ok Flowing used b0 b1 bs (with_fc f (with_todo todo c)).
Proof.
  intros Hx [H1 H2 H3 H4 [Ho Hz Hf Ha Hw _ Hn Hd]] Hfl Hp Hps Hpc Hopen Hle. rewrite Hx in Ha, Hw. cbn in Ha, Hw.
  split; conn_cbn; try done; [by constructor|]. split; conn_cbn; try done; [lia|].
  intros E. specialize (Hw E). lia.
Qed.

Lemma call_queue q : wc_todo c = CQueue q :: todo → conn_ok Flowing used b0 b1 bs c →
  on_stream (wc_id c) q → fresh todo → flow (wc_stream c) (wc_id c) todo → conn_ok Flowing used b0 b1 bs (queue q (with_todo todo c)).
Proof.
  intros Hx [H1 H2 H3 H4 [Ho Hz Hf Ha Hw _ Hn Hd]] Hon Hfr Hfl. rewrite Hx in Ha, Hw. cbn in Ha, Hw. destruct (fresh_pend _ Hfr) as [P P'].
  specialize (Hw eq_refl). assert (∀ i, i ≠ wc_id c → data_on i (wc_queued c ++ [q]) = data_on i (wc_queued c)) as Hne.
  { intros i Hi. rewrite data_on_snoc, decide_False; [lia|]. unfold on_stream in *. congruence. }
  assert (0 <= win (wc_stream c) (wc_pool c)) as Hwin.
  { unfold win. destruct (objects (wc_pool c) !! wc_stream c) as [o|] eqn:E; [|done].
    apply (proj1 (Forall_lookup _ _) Ho _ _) in E. apply E. }
  split; conn_cbn; try done; [by constructor|]. split; conn_cbn; try done.
  - rewrite data_all_snoc. lia.
  - intros _. rewrite data_on_snoc, decide_True by done. lia.
  - intros j [Hj|[? _]]; [|done]. rewrite Hne by lia. apply Hn. by left.
  - intros j. destruct (decide (j = wc_id c)) as [->|Hj]; [|by rewrite Hne].
    rewrite data_on_snoc, decide_True by done. unfold b1 in *. lia.
Qed.
End call.

Lemma call_ok mo used b0 bs c x todo c' : (∀ i, Z.of_N iw <= bs i) → store_key (S := S) (wc_id c) →
  wc_todo c = x :: todo → conn_ok mo used b0 (bs (wc_id c)) bs c → wcall x (with_todo todo c) = Some c' →
  ∃ mo' used', conn_ok mo' used' b0 (bs (wc_id c)) bs c' ∧ wc_id c' = wc_id c ∧ wc_seen c' = wc_seen c.
Proof.
  intros Hbs Hk Hx Hc Hcall. pose proof (ck_stage _ _ _ _ _ _ Hc) as Hs. rewrite Hx in Hs.
  pose proof (ck_within _ _ _ _ _ _ Hc) as [Ho _ Hf _ _ _ _ _].
  inversion Hs as [l Hfl|l Hfr Hfl|k l Hs'| |l Hs'|i l Hs'|i tag l Hs'|l Hs']; subst; cbn [wcall] in Hcall.
  - inversion Hfl as [|q l Hon Hq Hfr Hfl'|p q l Hp Hfl'|p Hp|p l Hfl'|p Hp]; subst; cbn [wcall] in Hcall; conn_cbn.
    + injection Hcall as <-. do 2 eexists. split; [by eapply call_queue|done].
    + apply bind_Some in Hcall as ([ok f] & Hw & Hcall). cbn [goes_on] in Hcall.
      assert (0 <= cost q) as Hq by (inversion Hfl'; lia).
      destruct (Wait_open _ _ _ _ Hf Hq Hw) as (-> & Hopen & Hle). injection Hcall as <-.
      do 2 eexists. split; [by eapply call_wait_conn|done].
    + apply bind_Some in Hcall as ([ok f] & Hw & Hcall). destruct (Wait_open _ _ _ _ Hf Hp Hw) as (-> & _ & _). done.
    + apply bind_Some in Hcall as (o & Hobj & Hcall). apply bind_Some in Hcall as ([ok f] & Hw & Hcall). cbn [goes_on] in Hcall.
      assert (0 <= p) as Hp by (inversion Hfl' as [| |? q ? <- Hfl''| | |]; [inversion Hfl''; lia|done]).
      pose proof (proj1 (Forall_lookup _ _) Ho _ _ Hobj) as Hob.
      destruct (Wait_open _ _ _ _ Hob Hp Hw) as (-> & Hopen & Hle). injection Hcall as <-.
      do 2 eexists. split; [by eapply call_wait_stream|done].
    + apply bind_Some in Hcall as (o & Hobj & Hcall). apply bind_Some in Hcall as ([ok f] & Hw & Hcall).
      pose proof (proj1 (Forall_lookup _ _) Ho _ _ Hobj) as Hob.
      destruct (Wait_open _ _ _ _ Hob Hp Hw) as (-> & _ & _). done.
  - apply bind_Some in Hcall as (store & Hset & [= <-]). do 2 eexists. split; [by eapply call_store|done].
  - injection Hcall as <-. do 2 eexists. split; [by eapply call_quiet|done].
  - injection Hcall as <-. do 2 eexists. split; [by eapply call_end|done].
  - injection Hcall as <-. do 2 eexists. split; [by eapply call_quiet|done].
  - injection Hcall as <-. do 2 eexists. split; [by eapply call_quiet|done].
  - conn_cbn. destruct (Acquire i tag (wc_pool c)) as [s p] eqn:Ha. destruct (decide (s = wc_stream c)) as [E|]; [|done].
    injection Hcall as <-. do 2 eexists. split; [by eapply call_acquire|done].
  - injection Hcall as <-. do 2 eexists. split; [by eapply call_quiet|done].
Qed.
(** *** The frames of the server *)
Lemma owns_deliver_all m mo s id es : ∀ used c, owns m (wc_pool c) mo s id used → NoDup (ended es) →
  (∀ x, x ∈ ended es → x ∈ used ∧ (∀ i, m !! i ≠ Some x) ∧ (mo = Mine → x ≠ s)) →
  ∃ used', owns m (wc_pool (deliver_all es c)) mo s id used'.
Proof.
  induction es as [|e es IH]; intros used c Hc Hnd Hes; [by exists used|].
  change (deliver_all (e :: es) c) with (deliver_all es (deliver e c)). change (e :: es) with ([e] ++ es) in Hnd, Hes.
  rewrite ended_app in Hnd, Hes. apply NoDup_app in Hnd as (_ & Hdis & Hnd).
  destruct e as [x [| | | | | | | | |]| |[x|] k|]; try (by eapply IH).
  - destruct (Hes x) as (Hu & Hm & Hs); [by left|]. eapply (IH (used ∖ {[x]})); [by apply owns_release|done|].
    intros y Hy. destruct (Hes y) as (? & ? & ?); [by right|]. split; [|done]. apply elem_of_difference. split; [done|].
    intros ->%elem_of_singleton. by apply (Hdis x); [left|].
  - eapply IH; [by apply owns_window|done..].
Qed.

(** A frame that names streams the store knows how to look up. *)
Definition frame_ok (f : frame) : Prop := frame_wf f ∧ names_key (S := S) f ∧ wu_sized (S := S) f.

Lemma credit1_nonneg i f : frame_ok f → 0 <= credit1 i f.
Proof.
  intros (_ & _ & Hwu). unfold credit1, wu_sized in *. destruct (Type_ f.1) as [t|]; [|done].
  destruct (Z.eqb_spec t FrameWindowUpdate) as [->|]; [|done]. destruct (Hwu eq_refl) as (_ & Hb & _).
  destruct (be_val_bound f.2 Hb). by case_bool_decide.
Qed.

(** What a frame adds is credit the server has given; nothing is added to the object
    of a request that is not stored yet. *)
Lemma adds_credited f m mo s id (p : StreamsPool) used es : frame_ok f → fc_adds es = wu_adds m f → owns m p mo s id used →
  adds_nonneg es ∧ added_to None es <= credit1 0 f ∧ (mo = Flowing → added_to (Some s) es <= credit1 id f) ∧
  (mo = Mine → Forall (λ a, a.1 ≠ Some s) (fc_adds es)).
Proof.
  intros Hf He Ho. pose proof (λ i, credit1_nonneg i f Hf) as Hn. destruct Hf as (_ & _ & Hwu).
  unfold adds_nonneg, added_to. rewrite He. unfold wu_adds, credit1, wu_sized in *.
  destruct (Type_ f.1) as [t|]; [|done]. destruct (StreamID f.1) as [i|]; [|by split_and!; intros; (apply Hn || done)].
  destruct (Z.eqb_spec t FrameWindowUpdate) as [->|]; [|done]. destruct (Hwu eq_refl) as (_ & Hb & _).
  destruct (be_val_bound f.2 Hb) as [Hv _]. cbn [andb] in *. unfold wu_events. cbn [fst snd].
  destruct (decide (i = 0)) as [->|Hi].
  - cbn. rewrite bool_decide_true by done. split_and!; [by apply Forall_singleton|rewrite decide_True by done; lia| |].
    + intros _. rewrite decide_False by done. specialize (Hn id). lia.
    + intros _. by apply Forall_singleton.
  - rewrite (bool_decide_false (Some i = Some 0)) by congruence. destruct (m !! i) as [x|] eqn:Hx; cbn.
    2: { by split_and!. }
    split_and!; [by apply Forall_singleton|rewrite decide_False by done; lia| |].
    + intros E. case_decide as Hxs; [|specialize (Hn id); cbn in *; lia]. injection Hxs as ->.
      rewrite (ow_cur _ _ _ _ _ _ Ho E i Hx), bool_decide_true by done. lia.
    + intros E. apply Forall_singleton. cbn. intros [= ->]. by destruct (ow_mine _ _ _ _ _ _ Ho E) as [_ H]; destruct (H i).
Qed.

Lemma frame_step mo used b0 b1 bs c f o r : frame_ok f → conn_ok mo used b0 b1 bs c →
  dispatch (HErr := HErr) f.1 f.2 false (wc_recv c) = (o, r) →
  let c' := see f (deliver_all (w_log (ps_world r)) (with_recv (settle (w_store (ps_world r)) r) c)) in
  ∃ used', conn_ok mo used' (b0 + credit1 0 f) (b1 + credit1 (wc_id c) f) (λ i, bs i + credit1 i f) c' ∧
    wc_id c' = wc_id c ∧ wc_seen c' = wc_seen c ++ [f].
Proof.
  intros Hf [H1 H2 H3 H4 H5] Hd. cbn zeta. set (m := store_abs (wc_store c)) in *.
  assert (ends_ok m [] (ps_world (wc_recv c))) as He.
  { apply ends_fresh; [done..|apply H4]. }
  destruct (Hf) as (Hwf & Hnk & Hwu). pose proof (ends_dispatch (HErr := HErr) m [] f (wc_recv c) Hnk He) as [E1 E2 E3 E4 E5 E6].
  pose proof (adds_dispatch (HErr := HErr) f (wc_recv c) Hwf Hwu H2) as Ha. rewrite H3, Hd in Ha. rewrite Hd in E1, E2, E3, E4, E5, E6.
  cbn [snd app] in *. set (es := w_log (ps_world r)) in *. set (c1 := with_recv _ c).
  destruct (adds_credited f m mo (wc_stream c) (wc_id c) (wc_pool c) used es) as (A1 & A2 & A3 & A4); [done..|].
  assert (∃ used', owns (store_abs (w_store (ps_world r))) (wc_pool (deliver_all es c1)) mo (wc_stream c) (wc_id c) used') as [used' Ho].
  { apply (owns_deliver_all _ _ _ _ _ used); [by eapply owns_submap|done|]. intros x Hx.
    destruct (E6 x Hx) as [Hx'|[i Hi]]; [by apply elem_of_nil in Hx'|]. split; [by eapply (ow_used _ _ _ _ _ _ H4)|]. split.
    - intros j Hj. by apply (E3 j x Hj).
    - intros Hm ->. by destruct (ow_mine _ _ _ _ _ _ H4 Hm) as [_ H]; destruct (H i). }
  destruct (deliver_all_same es c1) as (S1 & S2 & S3 & S4 & S5 & S6).
  exists used'. split; [|by conn_cbn; rewrite S2, S5].
  split; conn_cbn; rewrite ?S1, ?S2, ?S3; try done; unfold wc_store; conn_cbn; rewrite ?S4; try done.
  apply within_see. apply (within_mono iw mo (b0 + added_to None es) _ (b1 + added_to (Some (wc_stream c1)) es) _ bs).
  - lia.
  - intros E. specialize (A3 E). cbn in *. lia.
  - intros i. pose proof (credit1_nonneg i f Hf). lia.
  - apply within_deliver_all; [by apply within_recv|done..].
Qed.
(** *** Timeouts and requests *)
Lemma timeout_step mo used b0 b1 bs c i o w : store_key (S := S) i → conn_ok mo used b0 b1 bs c →
  handle_timeout (HErr := HErr) i (tt, ps_world (wc_recv c)) = (o, (tt, w)) →
  let c' := deliver_all (w_log w) (with_recv (settle (w_store w) (wc_recv c)) c) in
  ∃ used', conn_ok mo used' b0 b1 bs c' ∧ wc_id c' = wc_id c ∧ wc_seen c' = wc_seen c.
Proof.
  intros Hk [H1 H2 H3 H4 H5] Ht. cbn zeta. unfold handle_timeout, mbind, gm_bind, storeGetAndDelete in Ht. cbn [snd] in Ht.
  destruct (store_GetAndDelete_spec (wc_store c) i H2 Hk) as (st & Hg & Hok & Habs). unfold wc_store in Hg. rewrite Hg in Ht.
  assert (store_abs st ⊆ store_abs (wc_store c)) as Hsub by (rewrite Habs; apply delete_subseteq).
  pose proof (owns_submap _ _ _ _ _ _ _ Hsub H4) as Ho.
  destruct (store_abs (w_store (ps_world (wc_recv c))) !! i) as [x|] eqn:Hx; injection Ht as _ <-; conn_cbn; rewrite H3.
  - exists (used ∖ {[x]}). split; [|done]. split; [done|done|done| |by apply within_release, within_recv].
    apply owns_release; [done|by eapply (ow_used _ _ _ _ _ _ H4)| |].
    + intros j. change (store_abs st !! j ≠ Some x). rewrite Habs, lookup_delete_Some. intros [Hne Hj]. by apply Hne, (ow_inj _ _ _ _ _ _ H4 i j x).
    + intros Hm E. change (x = wc_stream c) in E. subst x. by destruct (ow_mine _ _ _ _ _ _ H4 Hm) as [_ H]; destruct (H i).
  - exists used. split; [|done]. split; [done..|by apply within_recv].
Qed.

Lemma send_step mo used b0 bs c calls id w o : wc_todo c = [] → conn_ok mo used b0 (bs (wc_id c)) bs c → wc_id c < id →
  stage (o_stream o) id Before calls →
  conn_ok Before used b0 (bs id) bs (mkW (wc_pool c) (wc_fc c) (wc_recv c) (o_stream o) calls id w (wc_queued c) (wc_replies c) (wc_seen c) (wc_asked c ++ [o])).
Proof.
  intros Hx [H1 H2 H3 H4 [Ho Hz Hf Ha _ _ Hn Hd]] Hid Hs. destruct (stage_pend _ _ _ _ Hs) as [_ P]; [done|]. rewrite Hx in Ha. cbn in Ha.
  split; try done; [by eapply owns_next|]. split; conn_cbn; try done; [lia|]. intros i Hi. apply Hn. left. lia.
Qed.

(** *** All steps *)
Variables (n limit : Z).
Hypotheses (Hn : 5 <= n < 2 ^ 24) (Hkeys : ∀ id, Z.odd id = true → store_key (S := S) id).

Definition label_ok (l : wlabel) : Prop :=
  match l with
  | WSend o => sendable n o
  | WFrame f => frame_ok f
  | WTimeout id => store_key (S := S) id
  | WCall => True
  end.

Variable cw : Z.

(** The windows to begin with and the credit given so far. *)
Definition conn_inv c : Prop := ∃ mo used,
  let bs i := Z.of_N iw + credit i (wc_seen c) in
  conn_ok mo used (cw + credit 0 (wc_seen c)) (bs (wc_id c)) bs c ∧ (∀ i, Z.of_N iw <= bs i) ∧
  Z.odd (wc_id c) = true ∧ 0 <= wc_id c.

Lemma conn_step l c c' : label_ok l → wc_id c + 2 * wsends [l] < 2 ^ 32 → conn_inv c → wstep (HErr := HErr) n limit l c = Some c' →
  conn_inv c' ∧ wc_id c' = wc_id c + 2 * wsends [l].
Proof.
  intros Hl Hb (mo & used & Hc & Hbs & Hodd & Hid) Hs. destruct l as [o| |f|i]; cbn [wstep label_ok] in *.
  - destruct (wc_todo c) eqn:Hx; [|done]. apply bind_Some in Hs as ([[calls id] w] & Hs & [= <-]).
    destruct (Send_stage n limit o (wc_id c) (wc_enc c) calls id w Hn Hl Hs) as [-> Hst].
    change (wsends [WSend o]) with 1 in *. rewrite u32_id in * by (unfold is_u32; lia). split; [|done].
    exists Before, used. cbn zeta. conn_cbn. split_and!; [|done| |lia].
    + by eapply (send_step mo used _ (λ i, Z.of_N iw + credit i (wc_seen c))); [|..|lia|].
    + rewrite Z.odd_add. by rewrite Hodd.
  - destruct (wc_todo c) as [|x todo] eqn:Hx; [done|].
    destruct (call_ok mo used _ (λ i, Z.of_N iw + credit i (wc_seen c)) c x todo c' Hbs (Hkeys _ Hodd) Hx Hc Hs) as (mo' & used' & Hc' & Hid' & Hseen).
    change (wsends [WCall]) with 0. rewrite Z.mul_0_r, Z.add_0_r. split; [|done]. exists mo', used'. cbn zeta. by rewrite Hid', Hseen.
  - destruct (dispatch f.1 f.2 false (wc_recv c)) as [[u| | |] r] eqn:Hd; try done. injection Hs as <-.
    destruct (frame_step mo used _ _ _ c f _ r Hl Hc Hd) as (used' & Hc' & Hid' & Hseen).
    change (wsends [WFrame f]) with 0. rewrite Z.mul_0_r, Z.add_0_r. split; [|done]. exists mo, used'. cbn zeta. rewrite Hid', Hseen.
    split; [|split; [|done]].
    + destruct Hc' as [? ? ? ? Hw]. split; try done. eapply within_mono; [..|exact Hw]; intros; rewrite credit_snoc; lia.
    + intros i. rewrite credit_snoc. pose proof (credit1_nonneg i f Hl). specialize (Hbs i). lia.
  - destruct (handle_timeout i (tt, ps_world (wc_recv c))) as [[u| | |] [[] w]] eqn:Hd; try done. injection Hs as <-.
    destruct (timeout_step mo used _ _ _ c i _ w Hl Hc Hd) as (used' & Hc' & Hid' & Hseen).
    change (wsends [WTimeout i]) with 0. rewrite Z.mul_0_r, Z.add_0_r. split; [|done]. exists mo, used'. cbn zeta. by rewrite Hid', Hseen.
Qed.

Lemma wsends_cons l (ls : list wlabel) : wsends (l :: ls) = wsends [l] + wsends ls.
Proof. unfold wsends. cbn [fmap list_fmap]. rewrite !zsum_cons. change (zsum []) with 0. lia. Qed.
Lemma wsends_app (ls ls' : list wlabel) : wsends (ls ++ ls') = wsends ls + wsends ls'.
Proof. unfold wsends. by rewrite fmap_app, zsum_app. Qed.
Lemma wsends_nonneg (ls : list wlabel) : 0 <= wsends ls.
Proof. induction ls as [|[] ls IH]; [done|..]; rewrite wsends_cons; cbn; lia. Qed.

Lemma conn_steps ls : ∀ c c', Forall label_ok ls → wc_id c + 2 * wsends ls < 2 ^ 32 → conn_inv c →
  wsteps (HErr := HErr) n limit ls c = Some c' → conn_inv c' ∧ wc_id c' = wc_id c + 2 * wsends ls.
Proof.
  induction ls as [|l ls IH]; intros c c' Hl Hb Hc Hs; cbn [wsteps] in Hs; [simplify_eq; by rewrite Z.add_0_r|].
  apply Forall_cons in Hl as [Hl Hls]. apply bind_Some in Hs as (c1 & H1 & Hs). rewrite wsends_cons in Hb. pose proof (wsends_nonneg ls).
  destruct (conn_step l c c1 Hl ltac:(lia) Hc H1) as [Hc1 Hid].
  destruct (IH c1 c') as [Hc' Hid']; [done|lia|done..|]. split; [done|]. rewrite (wsends_cons l ls). lia.
Qed.
End steps.

(** ** The properties *)

Lemma conn_start {W S D} `{!StreamStore S} `{!StreamStoreSpec S} (opt : option N) (k : N) (d : D) (store : S) (w : W) :
  store_ok store → store_abs store = ∅ →
  conn_inv (default DefaultInitialWindowSize opt) (Z.of_N k) (wconn_init (NewStreamsPool opt) (NewFlowControl k) d store w).
Proof.
  intros Hok Hempty. exists Flowing, ∅. cbn zeta. split; [|split; [|done]].
  - split; try done; [repeat constructor| |].
    + unfold wc_store. cbn [wconn_init wc_recv NewDefaultProcessor ps_world w_store]. rewrite Hempty.
      split; try done. apply new_pool_ok.
    + split; unfold data_all, data_on, credit, win, open_fc; cbn; try done; try (split; [done|]); intros; lia.
  - intros i. cbn. lia.
Qed.

(** What the invariant says of what is queued and of who has which object. *)
Lemma conn_inv_bounds {W S D} `{!StreamStore S} `{!StreamStoreSpec S} iw cw (c : wconn W S D) : conn_inv iw cw c →
  data_all (wc_queued c) <= cw + credit 0 (wc_seen c) ∧
  (∀ id, data_on id (wc_queued c) <= Z.of_N iw + credit id (wc_seen c)) ∧
  (∀ i j x, store_abs (wc_store c) !! i = Some x → store_abs (wc_store c) !! j = Some x → i = j) ∧
  (∀ i x, store_abs (wc_store c) !! i = Some x → x ∉ pool (wc_pool c)).
Proof.
  intros (mo & used & [H1 H2 H3 H4 [Ho Hz [Hf Hf'] Ha _ _ _ Hd]] & _). split_and!.
  - assert (0 <= pend_c (wc_todo c)) as Hp; [|lia]. destruct mo; [by rewrite (proj2 (stage_pend _ _ _ _ H1 ltac:(done)))..|].
    inversion H1; subst. by eapply flow_pend.
  - exact Hd.
  - apply H4.
  - intros i x Hx Hp. by eapply (pool_disjoint _ _ (ow_pool _ _ _ _ _ _ H4)), (ow_used _ _ _ _ _ _ H4).
Qed.

(** A connection as [newLoader] makes it. *)
Definition wconn_of {W D} (l : Loader) (d : D) (w : W) : wconn W (ShardedStreamsMap StreamsMap) D :=
  wconn_init (l_pool l) (l_fcConn l) d (l_store l) w.


(** A request of eleven DATA bytes with a window of ten: its [send] stops before
    DATA, goes on with the server's credit; the response ends the stream and the
    next request has its object. *)
Definition windows_run : list wlabel :=
  WSend (example_outgoing (str "hello!")) :: replicate 8 WCall ++
  [WFrame (mk_frame FrameWindowUpdate 0 3 [0; 0; 0; 5])] ++ replicate 3 WCall ++
  [WFrame (mk_frame FrameData FlagDataEndStream 3 [9]); WTimeout 3; WSend (example_outgoing (str "hi"))] ++ replicate 11 WCall.
Definition windows_start : wconn nat (ShardedStreamsMap StreamsMap) unit := wconn_init (NewStreamsPool (Some 10%N)) (NewFlowControl 65535) tt loaderStore 0%nat.

Lemma example_sendable msg : zlen msg <= 1000 → sendable 16384 (example_outgoing msg).
Proof. intros H. split; [by eexists|by eexists|]. change (zlen msg <= 16384 - 5). lia. Qed.

Lemma loader_frame_ok t flags id p : Z.odd (u32 id) = true ∨ u32 id = 0 ∧ (t = FrameWindowUpdate ∨ t = FramePing) → zlen p < 2 ^ 24 →
  (u8 t = FrameWindowUpdate → length p = 4%nat ∧ Forall is_byte p) →
  label_ok (S := ShardedStreamsMap StreamsMap) 16384 (WFrame (mk_frame t flags id p)).
Proof.
  intros Hid Hp Hwu. split; [by apply mk_frame_wf|]. split.
  - intros Hsp i. cbn [mk_frame fst]. rewrite StreamID_header_bytes. intros [= <-]. destruct Hid as [|[_ [-> | ->]]]; [done|discriminate Hsp..].
  - unfold wu_sized. intros [= Ht]. destruct (Hwu Ht) as [H4 Hb]. split; [done|]. split; [done|]. intros i. cbn [mk_frame fst].
    rewrite StreamID_header_bytes. intros [= <-] Hne. destruct Hid as [|[? _]]; [done|]. by destruct Hne.
Qed.

Ltac solve_label := first
  [ exact I | by apply example_sendable | exact (conj eq_refl I)
  | apply loader_frame_ok; [first [left; reflexivity|right; split; [reflexivity|first [left; reflexivity|right; reflexivity]]]
    |reflexivity|intros H; first [discriminate H|split; [reflexivity|by repeat constructor]]] ].
Ltac solve_labels := repeat (apply Forall_cons; split; [solve_label|]); apply Forall_nil_2.

