(* ===== verification/Credit.v ===== *)
(** * Credit: what a request that waits for its windows depends on

    On top of [Windows]: with credit from the server a request whose stream is open
    is queued to its end; a stream that ends meanwhile leaves [send]
    (src/loader/sender/sender.go) waiting for good. *)

From S2P Require Import Prelude FrameHeader Types Store Framer Handlers Processor Receiver Effects.
From S2P Require Import Monitor FlowControl Pool Request Sender Loader LoaderRun Wire Windows.
From stdpp Require Import fin_sets.
#[local] Open Scope Z_scope.

(** ** A stream that ends while its message waits *)
Section stuck.
Context {W S D HErr : Type} `{!FieldWriter W} `{!StreamStore S} `{!StreamStoreSpec S} `{!HpackDecoder D HErr}.
Variables (iw : N) (n limit cw : Z).
Hypotheses (Hn : 5 <= n < 2 ^ 24) (Hkeys : ∀ id, Z.odd id = true → store_key (S := S) id).
Implicit Types c : wconn W S D.

(** [send] waits for the window of its stream, which is no longer stored. *)
Definition stuck c : Prop := ∃ p rest x, wc_todo c = CWaitStream (wc_stream c) p :: rest ∧ store_abs (wc_store c) !! wc_id c = None ∧
  objects (wc_pool c) !! wc_stream c = Some x ∧ Wait (Z.to_N p) (fc x) = None.

(** Only the windows of streams that are stored are enlarged. *)
Lemma wu_adds_stored m f s : (∀ i, m !! i ≠ Some s) → Forall (λ a, a.1 ≠ Some s) (wu_adds m f).
Proof.
  intros H. unfold wu_adds, wu_events. destruct (Type_ f.1), (StreamID f.1) as [i|]; try done. case_match; [|done].
  cbn [fst snd]. destruct (decide (i = 0)); [by apply Forall_singleton|]. destruct (m !! i) as [x|] eqn:Hx; [|done].
  apply Forall_singleton. cbn. intros [= ->]. by destruct (H i).
Qed.

Lemma deliver_window s es : ∀ c, Forall (λ a, a.1 ≠ Some s) (fc_adds es) →
  fc <$> objects (wc_pool (deliver_all es c)) !! s = fc <$> objects (wc_pool c) !! s.
Proof.
  induction es as [|e es IH]; intros c Hes; [done|]. change (e :: es) with ([e] ++ es) in Hes.
  rewrite fc_adds_app in Hes. apply Forall_app in Hes as [He Hes].
  change (deliver_all (e :: es) c) with (deliver_all es (deliver e c)). rewrite (IH _ Hes).
  destruct e as [x [| | | | | | | | |]| |[x|] k|]; try done. cbn [deliver with_pool wc_pool set_window objects].
  apply (proj1 (Forall_singleton _ _)) in He. cbn in He. unfold stream in *. by rewrite list_lookup_alter_ne by congruence.
Qed.

(** What is delivered wakes nobody who waits for a stream that is not stored. *)
Lemma stuck_deliver c st r es : conn_inv iw cw c → stuck c → (∀ i, store_abs (wc_store c) !! i = None → store_abs st !! i = None) →
  ((∀ i, store_abs (wc_store c) !! i ≠ Some (wc_stream c)) → Forall (λ a, a.1 ≠ Some (wc_stream c)) (fc_adds es)) →
  stuck (deliver_all es (with_recv (settle st r) c)).
Proof.
  intros (mo & used & [H1 _ _ H4 _] & _) (p & rest & x & Htodo & Hgone & Hx & Hw) Hst Hes.
  assert (mo = Flowing) as -> by (rewrite Htodo in H1; by inversion H1).
  assert (∀ i, store_abs (wc_store c) !! i ≠ Some (wc_stream c)) as Hno.
  { intros i Hi. rewrite (ow_cur _ _ _ _ _ _ H4 eq_refl i Hi) in Hi. congruence. }
  set (c1 := with_recv _ c). destruct (deliver_all_same es c1) as (S1 & S2 & S3 & S4 & _).
  pose proof (deliver_window (wc_stream c) es c1 (Hes Hno)) as Hfc. change (objects (wc_pool c1)) with (objects (wc_pool c)) in Hfc.
  rewrite Hx in Hfc. cbn [fmap option_fmap option_map] in Hfc. apply fmap_Some in Hfc as (y & Hy & Hfc).
  exists p, rest, y. unfold wc_store. rewrite S1, S2, S3, S4. split; [done|]. split; [by apply Hst|]. split; [done|]. by rewrite <-Hfc.
Qed.

Lemma stuck_step l c c' : label_ok n l → conn_inv iw cw c → stuck c → wstep (HErr := HErr) n limit l c = Some c' →
  stuck c' ∧ wc_todo c' = wc_todo c ∧ wc_queued c' = wc_queued c.
Proof.
  intros Hl Hc Hstuck Hs. pose proof Hc as (mo & used & [_ H2 H3 H4 _] & _).
  destruct Hstuck as (p & rest & x & Htodo & Hgone & Hx & Hw). destruct l as [o| |f|i]; cbn [wstep label_ok] in *.
  - by rewrite Htodo in Hs.
  - rewrite Htodo in Hs. cbn [wcall with_todo wc_pool] in Hs. rewrite Hx in Hs. cbn [mbind option_bind] in Hs. by rewrite Hw in Hs.
  - destruct (dispatch f.1 f.2 false (wc_recv c)) as [[u| | |] r] eqn:Hd; try done. injection Hs as <-. destruct Hl as (Hwf & Hnk & Hwu).
    assert (ends_ok (store_abs (wc_store c)) [] (ps_world (wc_recv c))) as He.
    { apply ends_fresh; [done..|apply H4]. }
    pose proof (ends_dispatch (HErr := HErr) _ [] f (wc_recv c) Hnk He) as [_ _ _ _ Hsub _].
    pose proof (adds_dispatch (HErr := HErr) f (wc_recv c) Hwf Hwu H2) as Ha. rewrite H3, Hd in Ha. rewrite Hd in Hsub. cbn [snd app] in *.
    set (c1 := with_recv _ c). destruct (deliver_all_same (w_log (ps_world r)) c1) as (_ & _ & S3 & _ & _ & S6).
    split; [|split; [exact S3|exact S6]]. change (stuck (see f ?c)) with (stuck c). apply stuck_deliver; [done| | |].
    + by exists p, rest, x.
    + intros j Hj. by eapply lookup_weaken_None.
    + intros Hno. rewrite Ha. by apply wu_adds_stored.
  - destruct (handle_timeout i (tt, ps_world (wc_recv c))) as [[u| | |] [[] w]] eqn:Hd; try done. injection Hs as <-.
    destruct (deliver_all_same (w_log w) (with_recv (settle (w_store w) (wc_recv c)) c)) as (_ & _ & S3 & _ & _ & S6).
    split; [|by rewrite S3, S6]. unfold handle_timeout, mbind, gm_bind, storeGetAndDelete in Hd. cbn [snd] in Hd.
    destruct (store_GetAndDelete_spec (wc_store c) i H2 Hl) as (st & Hg & _ & Habs). unfold wc_store in Hg. rewrite Hg in Hd.
    apply stuck_deliver; [done|by exists p, rest, x| |].
    + intros j Hj. destruct (_ !! i) in Hd; injection Hd as _ <-; change (store_abs st !! j = None); by rewrite Habs, lookup_delete_None, Hj; right.
    + intros _. destruct (_ !! i) in Hd; injection Hd as _ <-; cbn [w_log]; rewrite H3; [|done]. by constructor.
Qed.
End stuck.

(** A stream that the server ends, or that times out, while its message waits for the
    window of the stream holds up the sender for good: nobody enlarges the window
    of a stream that is not stored, and nobody disables it. Whatever frames,
    credit and timeouts follow, nothing more is queued and no other request can
    be sent on the connection. *)
Theorem ended_stream_blocks_sender {W S D HErr} `{!FieldWriter W} `{!StreamStore S} `{!StreamStoreSpec S} `{!HpackDecoder D HErr}
    n limit (opt : option N) (d : D) (store : S) (w : W) ls c ls' c' :
  5 <= n < 2 ^ 24 → (∀ id, Z.odd id = true → store_key (S := S) id) →
  store_ok store → store_abs store = ∅ → Forall (label_ok n) (ls ++ ls') → 1 + 2 * wsends (ls ++ ls') < 2 ^ 32 →
  wsteps (HErr := HErr) n limit ls (wconn_init (NewStreamsPool opt) (NewFlowControl DefaultInitialWindowSize) d store w) = Some c → stuck c →
  wsteps (HErr := HErr) n limit ls' c = Some c' →
  wc_todo c' = wc_todo c ∧ wc_queued c' = wc_queued c ∧ ∀ o, wstep (HErr := HErr) n limit (WSend o) c' = None.
Proof.
  intros Hn Hkeys Hok Hempty Hl Hb Hs Hstuck Hs'. set (iw := default DefaultInitialWindowSize opt).
  assert (conn_inv iw (Z.of_N DefaultInitialWindowSize) c ∧ wc_id c + 2 * wsends ls' < 2 ^ 32) as [Hc Hid].
  { apply Forall_app in Hl as [Hl _]. rewrite wsends_app in Hb. pose proof (wsends_nonneg ls').
    destruct (conn_steps iw n limit Hn Hkeys (Z.of_N DefaultInitialWindowSize) ls
      (wconn_init (NewStreamsPool opt) (NewFlowControl DefaultInitialWindowSize) d store w) c) as [Hc Hid];
      [done|cbn; lia|by apply conn_start|done|]. split; [done|]. cbn in Hid. lia. }
  apply Forall_app in Hl as [_ Hl]. clear Hs Hb. revert c Hc Hid Hstuck Hs'.
  induction Hl as [|l ls' Hl _ IH]; intros c Hc Hid Hstuck Hs'; cbn [wsteps] in Hs'.
  - injection Hs' as <-. split; [done|]. split; [done|]. intros o. destruct Hstuck as (p & rest & x & Htodo & _). cbn. by rewrite Htodo.
  - apply bind_Some in Hs' as (c1 & H1 & Hs'). rewrite wsends_cons in Hid. pose proof (wsends_nonneg ls').
    destruct (stuck_step iw n limit (Z.of_N DefaultInitialWindowSize) l c c1 Hl Hc Hstuck H1) as (Hst1 & <- & <-).
    destruct (conn_step iw n limit Hn Hkeys _ l c c1 Hl ltac:(lia) Hc H1) as [Hc1 Hid1]. apply IH; [done|lia|done..].
Qed.

(** The request of [windows_run] is reset by the server before it has its window;
    more credit for the stream and for the connection is of no use. *)
Definition blocked_run : list wlabel := take 9 windows_run ++ [WFrame (mk_frame FrameRSTStream 0 3 [0; 0; 0; 8])].
Definition useless_credit : list wlabel :=
  [WFrame (mk_frame FrameWindowUpdate 0 3 [0; 1; 0; 0]); WFrame (mk_frame FrameWindowUpdate 0 0 [0; 1; 0; 0]); WTimeout 3].

Theorem ended_stream_blocks_sender_witness :
  ∃ c c', wsteps (HErr := unit) 16384 1000 blocked_run windows_start = Some c ∧
  wsteps (HErr := unit) 16384 1000 useless_credit c = Some c' ∧ length (wc_queued c') = 1%nat ∧
  wc_todo c' = wc_todo c ∧ wc_queued c' = wc_queued c ∧ ∀ o, wstep (HErr := unit) 16384 1000 (WSend o) c' = None.
Proof.
  do 2 eexists. split; [vm_compute; reflexivity|]. split; [vm_compute; reflexivity|]. split; [vm_compute; reflexivity|].
  apply (ended_stream_blocks_sender (HErr := unit) 16384 1000 (Some 10%N) tt loaderStore 0%nat blocked_run _ useless_credit).
  - lia.
  - done.
  - apply loaderStore_ok.
  - apply loaderStore_ok.
  - solve_labels.
  - reflexivity.
  - vm_compute. reflexivity.
  - do 3 eexists. split; [reflexivity|]. split; [vm_compute; reflexivity|]. split; [vm_compute; reflexivity|]. vm_compute. reflexivity.
  - vm_compute. reflexivity.
Defined.

(** ** A stream that stays open is served to the end *)
Section finish.
Context {W S D HErr : Type} `{!FieldWriter W} `{!StreamStore S} `{!StreamStoreSpec S} `{!HpackDecoder D HErr}.
Variables (iw : N) (n limit cw : Z).
Hypotheses (Hn : 5 <= n < 2 ^ 24) (Hkeys : ∀ id, Z.odd id = true → store_key (S := S) id).
Implicit Types c : wconn W S D.

(** The four bytes of an increment. *)
Definition be4 (k : Z) : bytes := [u8 (Z.shiftr k 24); u8 (Z.shiftr k 16); u8 (Z.shiftr k 8); u8 k].

Lemma be4_val k : is_u32 k → be_val (be4 k) = k.
Proof.
  intros Hk. unfold be4. rewrite !u8_shiftr by lia. unfold be_val, u8, is_u32 in *. cbn [foldl]. Z.div_mod_to_equations. lia.
Qed.
Lemma be4_bytes k : Forall is_byte (be4 k).
Proof. repeat (apply Forall_cons; split; [apply u8_is_byte|]). apply Forall_nil_2. Qed.

(** What a server does that lets the request in hand go on: it gives credit to the
    connection and to the stream; and [send] makes its calls. *)
Inductive helps (id : Z) : wlabel → Prop :=
| helps_call : helps id WCall
| helps_conn k : helps id (WFrame (mk_frame FrameWindowUpdate 0 0 (be4 k)))
| helps_stream k : helps id (WFrame (mk_frame FrameWindowUpdate 0 id (be4 k))).

Lemma wu_frame_ok' id k : is_u32 id → id = 0 ∨ Z.odd id = true → frame_ok (S := S) (mk_frame FrameWindowUpdate 0 id (be4 k)).
Proof.
  intros Hid Hodd. split; [by apply mk_frame_wf|]. split; [intros Hs; discriminate Hs|]. intros _. split; [done|]. split; [apply be4_bytes|].
  intros i. cbn [mk_frame fst]. rewrite StreamID_header_bytes, u32_id by done. intros [= <-] Hne. destruct Hodd; [done|by apply Hkeys].
Qed.

(** The request in hand is stored and has frames to queue, the flow controls willing. *)
Definition willing (l : list call) : Prop := match last l with None | Some (CQueue _) => True | _ => False end.

Record going c : Prop := {
  go_inv : conn_inv iw cw c;
  go_stored : store_abs (wc_store c) !! wc_id c = Some (wc_stream c);
  go_flow : flow (wc_stream c) (wc_id c) (wc_todo c);
  go_willing : willing (wc_todo c);
  go_small : wc_id c < 2 ^ 32
}.

Lemma going_object c : going c → ∃ x, objects (wc_pool c) !! wc_stream c = Some x ∧ open_fc (fc x).
Proof.
  intros [(mo & used & [_ _ _ Ho [Hobj _ _ _ _ _ _ _]] & _) Hst _ _ _].
  destruct (objects (wc_pool c) !! wc_stream c) as [x|] eqn:Hx.
  - exists x. split; [done|]. exact (proj1 (Forall_lookup _ _) Hobj _ _ Hx).
  - exfalso. apply lookup_ge_None in Hx. pose proof (ow_used _ _ _ _ _ _ Ho _ _ Hst) as Hu.
    assert (wc_stream c < length (objects (wc_pool c)))%nat; [|lia]. apply (pool_all _ _ (ow_pool _ _ _ _ _ _ Ho)). by right.
Qed.

Lemma going_step l c c' : helps (wc_id c) l → going c → wstep (HErr := HErr) n limit l c = Some c' →
  store_abs (wc_store c') = store_abs (wc_store c) → wc_stream c' = wc_stream c →
  flow (wc_stream c) (wc_id c) (wc_todo c') → willing (wc_todo c') → going c' ∧ wc_id c' = wc_id c.
Proof.
  intros Hl [Hi Hst Hf Hw Hs] Hstep Hstore Hstream Hf' Hw'. pose proof Hi as (_ & _ & _ & _ & Hodd & H0).
  assert (label_ok (S := S) n l ∧ wsends [l] = 0) as [Hok Hzero].
  { destruct Hl; (split; [|done]); [done|by apply wu_frame_ok'; [|left]|].
    apply wu_frame_ok'; [unfold is_u32; lia|by right]. }
  destruct (conn_step iw n limit Hn Hkeys cw l c c' Hok ltac:(lia) Hi Hstep) as [Hi' Hid]. rewrite Hzero, Z.add_0_r in Hid.
  split; [|done]. split; rewrite ?Hstore, ?Hstream, ?Hid; done.
Qed.

(** A WINDOW_UPDATE, handled. *)
Lemma credit_step c id k : conn_inv iw cw c → is_u32 id → is_u32 k → id = 0 ∨ Z.odd id = true → ∃ c',
  wstep (HErr := HErr) n limit (WFrame (mk_frame FrameWindowUpdate 0 id (be4 k))) c = Some c' ∧
  store_abs (wc_store c') = store_abs (wc_store c) ∧ wc_stream c' = wc_stream c ∧ wc_todo c' = wc_todo c ∧ wc_queued c' = wc_queued c ∧
  (id = 0 → wc_fc c' = fc_add k (wc_fc c)) ∧
  (∀ x, id ≠ 0 → store_abs (wc_store c) !! id = Some x → wc_pool c' = set_window x (fc_add k) (wc_pool c)).
Proof.
  intros (mo & used & [_ Hok Hlog _ _] & _) Hid Hk Hodd.
  destruct (wu_Process_run (HErr := HErr) (wc_recv c) id (be4 k) (store_abs (wc_store c) !! id)) as (p & Hrun).
  { split; [done|]. split; [done|]. apply be4_bytes. }
  { intros Hne. apply store_Get_spec; [done|]. destruct Hodd; [done|by apply Hkeys]. }
  cbn [wstep]. change ((mk_frame FrameWindowUpdate 0 id (be4 k)).2) with (be4 k). rewrite Hrun.
  eexists. split; [reflexivity|]. cbn [set_wu ps_world log_app w_store w_log]. rewrite Hlog. cbn [app].
  set (es := wu_events _ _). set (c1 := with_recv _ c). destruct (deliver_all_same es c1) as (S1 & S2 & S3 & S4 & S5 & S6).
  unfold wc_store. cbn [see wc_recv wc_stream wc_todo wc_queued wc_fc wc_pool]. rewrite S1, S3, S4, S6.
  do 4 (split; [done|]). subst es. unfold wu_events. cbn [fst snd]. rewrite be4_val by done. split.
  - intros ->. by rewrite decide_True.
  - intros x Hne Hx. rewrite decide_False by done. change (store_abs (wc_store c) !! id = Some x) in Hx. by rewrite Hx.
Qed.

(** Some steps that help, after which [c'] is what [c] is after its next call. *)
Definition passes (x : call) (todo : list call) c c' : Prop := ∃ ls, Forall (helps (wc_id c)) ls ∧ wsteps (HErr := HErr) n limit ls c = Some c' ∧
  going c' ∧ wc_id c' = wc_id c ∧ wc_todo c' = todo ∧ wc_queued c' = wc_queued c ++ queued [x].

Lemma flow_tail s id x l : flow s id (x :: l) → flow s id l.
Proof. inversion 1; try done; constructor. Qed.
Lemma willing_tail x l : willing (x :: l) → willing l.
Proof. by destruct l as [|y l]. Qed.

(** The call is made at once. *)
Lemma pass_now c x todo c' : going c → wc_todo c = x :: todo → wcall x (with_todo todo c) = Some c' →
  store_abs (wc_store c') = store_abs (wc_store c) → wc_stream c' = wc_stream c → passes x todo c c'.
Proof.
  intros Hc Ht Hcall Hst Hs. destruct (wcall_made x todo c c' Hcall) as [Htodo [M1 _ _ _ _ _ _]].
  assert (wstep (HErr := HErr) n limit WCall c = Some c') as Hstep by (cbn [wstep]; by rewrite Ht).
  destruct (going_step WCall c c' (helps_call _) Hc Hstep Hst Hs) as [Hc' Hid].
  - rewrite Htodo. eapply flow_tail. rewrite <-Ht. apply Hc.
  - rewrite Htodo. eapply willing_tail. rewrite <-Ht. apply Hc.
  - exists [WCall]. split; [repeat constructor|]. cbn [wsteps]. rewrite Hstep. done.
Qed.

(** First credit, then the call. *)
Lemma pass_after l c c1 x todo c' : helps (wc_id c) l → wstep (HErr := HErr) n limit l c = Some c1 → wc_id c1 = wc_id c →
  wc_queued c1 = wc_queued c → passes x todo c1 c' → passes x todo c c'.
Proof.
  intros Hl Hs Hid Hq (ls & Hls & Hsteps & H1 & H2 & H3 & H4). exists (l :: ls). rewrite Hid in *. rewrite Hq in H4.
  split; [by constructor|]. split; [|done]. cbn [wsteps]. by rewrite Hs.
Qed.

Lemma Wait_now k f : open_fc f → 0 <= k <= fc_n f → ∃ f', Wait (Z.to_N k) f = Some (true, f').
Proof.
  intros [Hok H0] Hk. unfold Wait. case_match; [by eexists|]. rewrite Hok, (proj2 (Z.ltb_ge _ _)) by lia. by eexists.
Qed.
Lemma topped_up k f : open_fc f → fc_n f < k < 2 ^ 32 → fc_n (fc_add (k - fc_n f) f) = k ∧ open_fc (fc_add (k - fc_n f) f).
Proof.
  intros Hf Hk. split; [|apply fc_add_open; [done|lia]]. destruct Hf as [_ H0]. cbn [fc_add fc_perform fst fc_n].
  rewrite Z2N.id by lia. rewrite u32_id by (unfold is_u32; lia). lia.
Qed.

Lemma flow_price s id p todo : flow s id (CWaitStream s p :: todo) ∨ flow s id (CWaitConn p :: todo) → willing todo → todo ≠ [] →
  0 <= p < 2 ^ 32 ∧ goes_on todo = true.
Proof.
  intros H Hw Hne. assert (∀ q l, flow s id (CQueue q :: l) → 0 <= cost q < 2 ^ 32) as Hq by (intros q l Hf; by inversion Hf).
  destruct H as [H|H]; inversion H as [| |? q l <- Hf| |? l Hf|]; subst; try done; [|split; [by eapply Hq|done]].
  split; [|done]. inversion Hf as [| |? q l' <- Hf'| | |]; subst; [by eapply Hq|done].
Qed.

Lemma pass_stream c p todo : going c → wc_todo c = CWaitStream (wc_stream c) p :: todo → ∃ c', passes (CWaitStream (wc_stream c) p) todo c c'.
Proof.
  intros Hc Ht. pose proof Hc as [Hi Hst Hf Hw Hsm]. rewrite Ht in Hf, Hw. pose proof Hi as (_ & _ & _ & _ & Hodd & H0).
  assert (todo ≠ []) as Hne by (intros ->; by destruct Hw).
  destruct (flow_price _ _ _ _ (or_introl Hf) (willing_tail _ _ Hw) Hne) as [Hp Hgo].
  assert (∀ c1 x, going c1 → wc_todo c1 = CWaitStream (wc_stream c1) p :: todo → objects (wc_pool c1) !! wc_stream c1 = Some x →
    open_fc (fc x) → p <= fc_n (fc x) → ∃ c', passes (CWaitStream (wc_stream c1) p) todo c1 c') as Hnow.
  { intros c1 x Hc1 Ht1 Hx Ho Hle. destruct (Wait_now p (fc x) Ho ltac:(lia)) as [f' Hwait]. eexists. eapply pass_now; [done|exact Ht1|..].
    - cbn [wcall with_todo wc_pool wc_todo]. rewrite Hx. cbn [mbind option_bind]. rewrite Hwait. cbn [mbind option_bind]. rewrite Hgo. reflexivity.
    - done.
    - done. }
  destruct (going_object c Hc) as (x & Hx & Ho). destruct (Z.le_gt_cases p (fc_n (fc x))) as [Hle|Hlt]; [by eapply Hnow|].
  set (k := p - fc_n (fc x)). destruct Ho as [Hok Hn0].
  assert (is_u32 (wc_id c)) as Hid32 by (unfold is_u32; lia). assert (wc_id c ≠ 0) as Hid0 by (intros E; by rewrite E in Hodd).
  destruct (credit_step c (wc_id c) k Hi Hid32 ltac:(unfold k, is_u32; lia) (or_intror Hodd)) as (c1 & Hs & S1 & S2 & S3 & S4 & _ & S6).
  specialize (S6 _ Hid0 Hst). destruct (going_step _ c c1 (helps_stream _ k) Hc Hs S1 S2) as [Hc1 Hid]; [by rewrite S3; apply Hc..|].
  destruct (topped_up p (fc x) (conj Hok Hn0) ltac:(lia)) as [T1 T2].
  destruct (Hnow c1 (mkStreamImpl (streamID x) (fc_add k (fc x)) (state_tag x))) as [c' Hpass]; [done|by rewrite S2, S3| |exact T2|cbn [fc]; fold k in T1; lia|].
  { rewrite S2, S6. cbn [set_window objects]. unfold stream in *. by rewrite list_lookup_alter_eq, Hx. }
  exists c'. rewrite S2 in Hpass. by eapply pass_after; [apply helps_stream|..].
Qed.

Lemma pass_conn c p todo : going c → wc_todo c = CWaitConn p :: todo → ∃ c', passes (CWaitConn p) todo c c'.
Proof.
  intros Hc Ht. pose proof Hc as [Hi Hst Hf Hw Hsm]. rewrite Ht in Hf, Hw.
  assert (todo ≠ []) as Hne by (intros ->; by destruct Hw).
  destruct (flow_price _ _ _ _ (or_intror Hf) (willing_tail _ _ Hw) Hne) as [Hp Hgo].
  assert (∀ c1, going c1 → wc_todo c1 = CWaitConn p :: todo → open_fc (wc_fc c1) → p <= fc_n (wc_fc c1) → ∃ c', passes (CWaitConn p) todo c1 c') as Hnow.
  { intros c1 Hc1 Ht1 Ho Hle. destruct (Wait_now p (wc_fc c1) Ho ltac:(lia)) as [f' Hwait]. eexists. eapply pass_now; [done|exact Ht1|..].
    - cbn [wcall with_todo wc_fc wc_todo]. rewrite Hwait. cbn [mbind option_bind]. rewrite Hgo. reflexivity.
    - done.
    - done. }
  assert (open_fc (wc_fc c)) as Ho by (destruct Hi as (mo & used & [_ _ _ _ [_ _ Ho _ _ _ _ _]] & _); done).
  destruct (Z.le_gt_cases p (fc_n (wc_fc c))) as [Hle|Hlt]; [by eapply Hnow|].
  set (k := p - fc_n (wc_fc c)). pose proof Ho as [_ Hn0].
  destruct (credit_step c 0 k Hi ltac:(done) ltac:(unfold k, is_u32; lia) (or_introl eq_refl)) as (c1 & Hs & S1 & S2 & S3 & S4 & S5 & _).
  specialize (S5 eq_refl). destruct (going_step _ c c1 (helps_conn _ k) Hc Hs S1 S2) as [Hc1 Hid]; [by rewrite S3; apply Hc..|].
  destruct (topped_up p (wc_fc c) Ho ltac:(lia)) as [T1 T2].
  destruct (Hnow c1) as [c' Hpass]; [done|by rewrite S3|by rewrite S5|rewrite S5; fold k in T1; lia|].
  exists c'. by eapply pass_after; [apply helps_conn|..].
Qed.

Lemma wsteps_app ls ls' c : wsteps (HErr := HErr) n limit (ls ++ ls') c = c1 ← wsteps (HErr := HErr) n limit ls c; wsteps (HErr := HErr) n limit ls' c1.
Proof. revert c. induction ls as [|l ls IH]; intros c; [done|]. cbn. destruct (wstep n limit l c); cbn; auto. Qed.

(** Call by call, to the end. *)
Lemma finish_all todo : ∀ c, going c → wc_todo c = todo → ∃ ls c', Forall (helps (wc_id c)) ls ∧ wsteps (HErr := HErr) n limit ls c = Some c' ∧
  wc_todo c' = [] ∧ wc_queued c' = wc_queued c ++ queued todo.
Proof.
  induction todo as [|x todo IH]; intros c Hc Ht; [exists [], c; split_and!; [constructor|done..|by rewrite app_nil_r]|].
  assert (∃ c1, passes x todo c c1) as (c1 & ls & Hls & Hs & Hc1 & Hid & Ht1 & Hq).
  { pose proof (go_flow _ Hc) as Hf. rewrite Ht in Hf. inversion Hf as [|q l|p q l|p|p l|p]; subst.
    - eexists. eapply pass_now; [done|exact Ht|reflexivity|done..].
    - by eapply pass_conn.
    - by eapply pass_conn.
    - by eapply pass_stream.
    - by eapply pass_stream. }
  destruct (IH c1 Hc1 Ht1) as (ls' & c' & Hls' & Hs' & Ht' & Hq'). rewrite Hid in Hls'.
  exists (ls ++ ls'), c'. split; [by apply Forall_app|]. split; [rewrite wsteps_app, Hs; exact Hs'|]. split; [done|].
  rewrite Hq', Hq, <-app_assoc. f_equal. change (x :: todo) with ([x] ++ todo). by rewrite queued_app.
Qed.
End finish.


