(* ===== verification/Peer.v ===== *)
(** * Peer: what the server reads

    The end of the sending side: the bytes of a connection ([Wire]) given to a
    server that reads HTTP/2 and gRPC by the book. The server here is a
    specification, after RFC 9113, RFC 7541 and the gRPC protocol, not a part of
    src/. *)

From S2P Require Import Prelude FrameHeader Types Store Framer Handlers Processor Receiver Replies Request Hpack Sender Wire.

(** ** A server *)

(** A request as the application behind the server sees it. *)
Record request := mkRequest { r_id : Z; r_fields : list (bytes * bytes); r_message : bytes }.

(** The header decoder, the last stream the client opened, the header block being
    read, the streams that have their headers with the data so far, and the
    requests complete. *)
Record server (R : Type) := mkServer {
  sv_dec : R; sv_last : Z; sv_block : option (Z * bytes);
  sv_open : gmap Z (list (bytes * bytes) * bytes); sv_done : list request }.
Arguments mkServer {R} _ _ _ _ _.
Arguments sv_dec {R} _.
Arguments sv_last {R} _.
Arguments sv_block {R} _.
Arguments sv_open {R} _.
Arguments sv_done {R} _.

(** A gRPC body of one message: not compressed, its length in four bytes, the
    message. *)
Definition grpc_message (body : bytes) : option bytes :=
  match body with
  | c :: b3 :: b2 :: b1 :: b0 :: msg =>
      if (c =? 0) && (be32 0 [b3; b2; b1; b0] =? zlen msg) then Some msg else None
  | _ => None
  end.

Section server.
Context {W R : Type} `{!FieldWriter W} `{!HpackPeer W R}.
Implicit Types (s : server R) (f : frame).

Definition server_init (r : R) : server R := mkServer r 0 None ∅ [].

(** The end of a header block. *)
Definition end_block (id : Z) (b : bytes) s : option (server R) :=
  '(fields, r) ← read_block (sv_dec s) b;
  Some (mkServer r (sv_last s) None (<[id := (fields, [])]> (sv_open s)) (sv_done s)).

(** The largest payload the server accepts: its SETTINGS_MAX_FRAME_SIZE. *)
Variable n : Z.

(** A frame from a client. Inside a header block only its CONTINUATION is
    allowed; a new stream has an odd id of 31 bits above all before; control frames of the
    connection change nothing here; all else is a connection error. *)
Definition serve_frame (t flags id : Z) (p : bytes) s : option (server R) :=
  match sv_block s with
  | Some (id0, b) =>
      if bool_decide (t = FrameContinuation ∧ id = id0) then
        if flags_has flags FlagHeadersEndHeaders then end_block id (b ++ p) s
        else Some (mkServer (sv_dec s) (sv_last s) (Some (id0, b ++ p)) (sv_open s) (sv_done s))
      else None
  | None =>
      if t =? FrameHeaders then
        if Z.odd id && (sv_last s <? id) && (id <? 2 ^ 31) then
          let s := mkServer (sv_dec s) id None (sv_open s) (sv_done s) in
          if flags_has flags FlagHeadersEndHeaders then end_block id p s
          else Some (mkServer (sv_dec s) id (Some (id, p)) (sv_open s) (sv_done s))
        else None
      else if t =? FrameData then
        '(fields, body) ← sv_open s !! id;
        if flags_has flags FlagDataEndStream then
          msg ← grpc_message (body ++ p);
          Some (mkServer (sv_dec s) (sv_last s) None (delete id (sv_open s)) (sv_done s ++ [mkRequest id fields msg]))
        else Some (mkServer (sv_dec s) (sv_last s) None (<[id := (fields, body ++ p)]> (sv_open s)) (sv_done s))
      else if ((t =? FramePing) || (t =? FrameWindowUpdate)) && (id =? 0) then Some s
      else None
  end.

Definition serve f s : option (server R) :=
  if n <? zlen f.2 then None else
  t ← Type_ f.1; flags ← Flags f.1; id ← StreamID f.1; serve_frame t flags id f.2 s.

Fixpoint serve_all (fs : list frame) s : option (server R) :=
  match fs with
  | [] => Some s
  | f :: fs => s ← serve f s; serve_all fs s
  end.

Lemma serve_all_app fs gs s : serve_all (fs ++ gs) s = s ← serve_all fs s; serve_all gs s.
Proof. revert s. induction fs as [|f fs IH]; intros s; [done|]. cbn. destruct (serve f s); cbn; auto. Qed.

(** Requests are only ever added. *)
Lemma serve_done f s s' : serve f s = Some s' → sv_done s `prefix_of` sv_done s'.
Proof.
  unfold serve, serve_frame, end_block. intros H. destruct (n <? _); [done|].
  repeat (first [case_match | apply bind_Some in H as (? & ? & H)]; simplify_eq/=; try done); by eexists.
Qed.

Lemma serve_all_done fs s s' : serve_all fs s = Some s' → sv_done s `prefix_of` sv_done s'.
Proof.
  revert s. induction fs as [|f fs IH]; intros s H; cbn in H; [by simplify_eq|].
  apply bind_Some in H as (s1 & H1 & H). etrans; [by eapply serve_done|by eapply IH].
Qed.

(** ** The frames of one request *)

Lemma serve_mk t flags id p s : is_byte t → is_byte flags → is_u32 id → zlen p <= n →
  serve (mk_frame t flags id p) s = serve_frame t flags id p s.
Proof.
  intros Ht Hf Hid Hp. unfold serve. cbn [mk_frame fst snd]. rewrite (proj2 (Z.ltb_ge _ _)) by done.
  change (Type_ (header_bytes ?l t flags id)) with (Some (u8 t)).
  change (Flags (header_bytes ?l t flags id)) with (Some (u8 flags)).
  rewrite StreamID_header_bytes. cbn [mbind option_bind]. by rewrite !u8_id, u32_id.
Qed.

Lemma grpc_message_framed msg : zlen msg < 2 ^ 32 → grpc_message (grpc_prefix msg ++ msg) = Some msg.
Proof.
  intros H. pose proof (zlen_nonneg msg). unfold grpc_message, grpc_prefix, prefix_bytes. cbn [app].
  rewrite be32_four; [|repeat (apply Forall_cons; split; [apply u8_is_byte|]); apply Forall_nil_2|done|done].
  enough (be_val [u8 (Z.shiftr (zlen msg) 24); u8 (Z.shiftr (zlen msg) 16); u8 (Z.shiftr (zlen msg) 8); u8 (zlen msg)] = zlen msg) as ->
    by (rewrite !Z.eqb_refl; reflexivity).
  rewrite !u8_shiftr by lia. unfold be_val, u8. cbn [foldl]. generalize dependent (zlen msg). intros l Hl Hl'.
  Z.div_mod_to_equations. lia.
Qed.

(** A header block in frames, from a server between blocks or inside this one. *)
Lemma serve_continuations id : 0 < n → is_u32 id → ∀ b s b0 fields r,
  sv_block s = Some (id, b0) → read_block (sv_dec s) (b0 ++ b) = Some (fields, r) →
  serve_all (block_frames n id false b) s =
    Some (mkServer r (sv_last s) None (<[id := (fields, [])]> (sv_open s)) (sv_done s)).
Proof.
  intros Hn Hid. induction b as [b Hb|b Hb IH] using (cut_ind n Hn); intros s b0 fields r Hs Hr;
    rewrite block_frames_step by done.
  - rewrite (proj2 (Z.ltb_lt _ _)) by done. cbn [serve_all]. unfold block_frame. rewrite (proj2 (Z.ltb_lt _ _)) by done.
    rewrite serve_mk by (done || lia). unfold serve_frame. rewrite Hs, bool_decide_true by done.
    change (flags_has FlagHeadersEndHeaders FlagHeadersEndHeaders) with true. unfold end_block. by rewrite Hr.
  - rewrite (proj2 (Z.ltb_ge _ _)) by done. cbn [serve_all]. unfold block_frame.
    rewrite (proj2 (Z.ltb_ge _ _)) by solve_len. rewrite serve_mk by (done || solve_len). unfold serve_frame.
    rewrite Hs, bool_decide_true by done. change (flags_has 0 FlagHeadersEndHeaders) with false. cbn [mbind option_bind].
    rewrite (IH (mkServer _ _ (Some (id, b0 ++ take (Z.to_nat n) b)) _ _) (b0 ++ take (Z.to_nat n) b) fields r);
      [done|done|]. by rewrite <-app_assoc, take_drop.
Qed.

Lemma serve_block id b s fields r : 0 < n → 0 <= id < 2 ^ 31 → Z.odd id = true → sv_last s < id →
  sv_block s = None → read_block (sv_dec s) b = Some (fields, r) →
  serve_all (block_frames n id true b) s =
    Some (mkServer r id None (<[id := (fields, [])]> (sv_open s)) (sv_done s)).
Proof.
  intros Hn Hid Hodd Hlast Hs Hr. assert (is_u32 id) as Hid' by (unfold is_u32; lia). rewrite block_frames_step by done.
  destruct (Z.ltb_spec (zlen b) n) as [Hb|Hb]; cbn [serve_all]; unfold block_frame.
  - rewrite (proj2 (Z.ltb_lt _ _)), serve_mk by (done || lia). unfold serve_frame. rewrite Hs. cbn [Z.eqb FrameHeaders Pos.eqb].
    rewrite Hodd, !(proj2 (Z.ltb_lt _ _)) by (done || lia). cbn [andb].
    change (flags_has FlagHeadersEndHeaders FlagHeadersEndHeaders) with true. unfold end_block. cbn [sv_dec]. by rewrite Hr.
  - rewrite (proj2 (Z.ltb_ge _ _)) by solve_len. rewrite serve_mk by (done || solve_len). unfold serve_frame. rewrite Hs. cbn [Z.eqb FrameHeaders Pos.eqb].
    rewrite Hodd, !(proj2 (Z.ltb_lt _ _)) by (done || lia). cbn [andb]. change (flags_has 0 FlagHeadersEndHeaders) with false.
    cbn [mbind option_bind]. rewrite (serve_continuations id Hn Hid' _ _ (take (Z.to_nat n) b) fields r); [done|done|].
    by rewrite take_drop.
Qed.

(** A whole request. *)
Lemma serve_request id block msg s fields r : 0 < n → 0 <= id < 2 ^ 31 → Z.odd id = true → sv_last s < id →
  zlen msg <= n - 5 → n < 2 ^ 24 → sv_block s = None → sv_open s !! id = None → read_block (sv_dec s) block = Some (fields, r) →
  serve_all (request_frames n id block msg) s =
    Some (mkServer r id None (sv_open s) (sv_done s ++ [mkRequest id fields msg])).
Proof.
  intros Hn Hid Hodd Hlast Hmsg Hmax Hs Hopen Hr. assert (is_u32 id) as Hid' by (unfold is_u32; lia). unfold request_frames. rewrite serve_all_app.
  rewrite (serve_block id block s fields r) by done. cbn [mbind option_bind serve_all].
  rewrite serve_mk by (done || rewrite zlen_app; change (zlen (grpc_prefix msg)) with 5; lia).
  unfold serve_frame. cbn [sv_block Z.eqb FrameHeaders FrameData sv_open sv_dec sv_last sv_done].
  rewrite lookup_insert_eq. cbn [mbind option_bind app].
  change (flags_has FlagDataEndStream FlagDataEndStream) with true. rewrite grpc_message_framed by lia. cbn [mbind option_bind].
  by rewrite delete_insert_id.
Qed.

(** ** All the requests of a connection *)

(** A request that goes out whole: its header list is accepted, and the flow
    controls let it through. *)
Record complete (limit : Z) (o : outgoing) : Prop := {
  co_limit : headerListSize (o_adapter o) <= limit;
  co_granted : ∀ i, o_streamOk o i && o_connOk o i = true
}.

Lemma granted_all {A} ok (l : list A) : (∀ i, ok i = true) → ∀ i, granted ok i l = l.
Proof. intros H. induction l as [|x l IH]; intros i; cbn; [done|]. by rewrite H, IH. Qed.

(** What was asked for: the fields of each request under its stream id, and its
    message. *)
Fixpoint asked (os : list outgoing) (streamID : Z) : list request :=
  match os with
  | [] => []
  | o :: os =>
      let a := o_adapter o in
      mkRequest (streamID + 2) (request_fields (default [] (default_WriteAdditional (metaMiddleware a))) a) (d_Message (data a)) ::
      asked os (streamID + 2)
  end.

Context `{!HpackPeerLaws W R}.

Lemma serve_expected limit os : 5 <= n < 2 ^ 24 → Forall (sendable n) os → Forall (complete limit) os →
  ∀ streamID (w : W) s, Z.odd streamID = true → 0 <= streamID → streamID + 2 * zlen os < 2 ^ 31 → sv_last s <= streamID →
  sv_block s = None → sv_open s = ∅ → in_step w (sv_dec s) →
  ∃ r last, serve_all (expected n limit os streamID w) s = Some (mkServer r last None ∅ (sv_done s ++ asked os streamID)).
Proof.
  intros Hn. induction 1 as [|o os Ho _ IH]; intros Hco streamID w s Hodd H0 Hb Hlast Hs Hopen Hstep.
  - exists (sv_dec s), (sv_last s). cbn. rewrite app_nil_r. destruct s; cbn in *; by subst.
  - apply Forall_cons in Hco as [[Hlim Hok] Hco]. rewrite zlen_cons in Hb. pose proof (zlen_nonneg os).
    cbn [expected asked]. rewrite u32_id by (unfold is_u32; lia).
    unfold request_block. destruct (read_encoded w (sv_dec s) (request_fields (default [] (default_WriteAdditional
      (metaMiddleware (o_adapter o)))) (o_adapter o)) Hstep) as (r & Hr & Hstep').
    destruct (encode_fields _ w) as [block w']. cbn [fst snd] in *.
    rewrite (proj2 (Z.ltb_ge _ _)), granted_all by done. rewrite serve_all_app.
    assert (Z.odd (streamID + 2) = true) as Hodd' by (by rewrite Z.odd_add, Hodd).
    pose proof (so_message _ _ Ho).
    rewrite (serve_request (streamID + 2) block _ s _ r) by (done || lia || by rewrite Hopen). cbn [mbind option_bind].
    destruct (IH Hco (streamID + 2) w' (mkServer r (streamID + 2) None (sv_open s) (sv_done s ++ [mkRequest (streamID + 2)
      (request_fields (default [] (default_WriteAdditional (metaMiddleware (o_adapter o)))) (o_adapter o))
      (d_Message (data (o_adapter o)))]))) as (r' & last & ->); cbn; try done; try lia.
    exists r', last. by rewrite <-app_assoc.
Qed.

(** ** Replies among them *)

(** A header block that one frame carries. *)
Definition whole_block f : Prop := Type_ f.1 = Some FrameHeaders →
  ∃ flags, Flags f.1 = Some flags ∧ flags_has flags FlagHeadersEndHeaders = true.

Lemma serve_reply f s : 8 <= n → is_reply f → sv_block s = None → serve f s = Some s.
Proof.
  intros Hn [payload H|inc payload ->] Hs; rewrite serve_mk by (done || unfold zlen; cbn; lia); unfold serve_frame; by rewrite Hs.
Qed.

Lemma serve_whole_block f s s' : whole_block f → sv_block s = None → serve f s = Some s' → sv_block s' = None.
Proof.
  unfold serve, serve_frame, end_block. intros Hf Hs H. rewrite Hs in H.
  destruct (n <? _); [done|]. destruct (Type_ f.1) as [t|] eqn:Ht; [|done]. destruct (Flags f.1) as [fl|] eqn:Hfl; [|done].
  destruct (StreamID f.1) as [id|]; [|done]. cbn [mbind option_bind] in H.
  destruct (Z.eqb_spec t FrameHeaders) as [->|Hne].
  - destruct (Hf Ht) as (flags & Hflags & Hend). simplify_eq. rewrite Hend in H.
    case_match; [|done]. by apply bind_Some in H as ([fields r] & _ & [= <-]).
  - repeat (first [case_match | apply bind_Some in H as (? & ? & H)]; simplify_eq/=; try done).
Qed.

Lemma serve_merged qs rs all : 8 <= n → merged qs rs all → Forall is_reply rs → rs = [] ∨ Forall whole_block qs →
  ∀ s s', sv_block s = None → serve_all qs s = Some s' → serve_all all s = Some s'.
Proof.
  intros Hn Hm. destruct (decide (rs = [])) as [->|Hne].
  - intros _ _ s s' _. enough (all = qs) as -> by done. remember [] as k eqn:E. by induction Hm; simplify_eq; try f_equal; auto.
  - intros Hr [?|Hw]; [done|]. clear Hne.
    induction Hm as [|x l k m _ IH|x l k m _ IH]; intros s s' Hs H; [done| |].
    + apply Forall_cons in Hw as [Hx Hw]. cbn [serve_all] in *. apply bind_Some in H as (s1 & H1 & H). rewrite H1.
      cbn [mbind option_bind]. apply IH; [done|done| |done]. by eapply serve_whole_block.
    + apply Forall_cons in Hr as [Hx Hr]. cbn [serve_all]. rewrite serve_reply by done. by apply IH.
Qed.
End server.

(** The requests a server has from a connection, with the queued frames it has
    them from. *)
Lemma served_by {W R} `{!FieldWriter W} `{!HpackPeer W R} `{!HpackPeerLaws W R}
    n limit os (w : W) (r : R) calls acks batched ls s :
  8 <= n < 2 ^ 24 → Forall (sendable n) os → Forall (complete limit) os → 1 + 2 * zlen os < 2 ^ 31 → in_step w r →
  Sends n limit os 1 w = Some calls → Forall is_reply acks →
  Forall alive ls → frames_of ls `prefix_of` queued calls → prios_of ls `prefix_of` frame_bytes <$> acks →
  prios_of ls = [] ∨ Forall whole_block (expected n limit os 1 w) →
  steps batched ls (sys_init batched) = Some s →
  ∃ fr qs rs all sv, written (sy_conn s ++ inflight s) = encode_frames all ∧ merged qs rs all ∧ Forall is_reply rs ∧
    fr `prefix_of` frames_of ls ∧ Forall2 (λ q f, concat (f_chunks q) = frame_bytes f) fr qs ∧ Forall frame_wf qs ∧
    serve_all n all (server_init r) = Some sv ∧
    sv_done sv `prefix_of` asked os 1 ∧ (frames_of ls = queued calls → gathered s = [] → sv_done sv = asked os 1).
Proof.
  intros Hn Hos Hco Hb Hstep Hcalls Hacks Hl Hqs Hrs Hblocks Hs.
  destruct (carried_by n limit os w calls acks batched ls s)
    as (fr & qs & rs & all & Hw & _ & Hm & [qs' He] & Hr & Hrs' & Hall & Hfr & Hfq); [lia|done..|].
  destruct (serve_expected n limit os ltac:(lia) Hos Hco 1 w (server_init r)) as (r' & last & Hall'); try done.
  rewrite He, serve_all_app in Hall'. apply bind_Some in Hall' as (sv & Hqsv & Hrest).
  assert (rs = [] ∨ Forall whole_block qs) as Hcond.
  { destruct Hblocks as [Hnil|Hbl]; [left|right; rewrite He in Hbl; by apply Forall_app in Hbl as [? _]].
    rewrite Hnil in Hrs'. by apply prefix_nil_inv, fmap_nil_inv in Hrs'. }
  exists fr, qs, rs, all, sv. do 5 (split; [done|]).
  split; [pose proof (expected_wf n limit os ltac:(lia) Hos 1 w) as Hwf; rewrite He in Hwf; by apply Forall_app in Hwf as [? _]|].
  split; [eapply serve_merged; done || lia|].
  pose proof (serve_all_done _ _ _ _ Hrest) as Hpre. cbn [sv_done] in Hpre. split; [done|].
  intros Hq Hg. specialize (Hall Hq Hg). rewrite Hall in He. rewrite <-(app_nil_r (expected n limit os 1 w)) in He at 1.
  apply app_inv_head in He as <-. cbn in Hrest. by simplify_eq.
Qed.

(** With the replies of a receiver on a stream of frames. *)
Lemma served {W R S D HErr} `{!FieldWriter W} `{!HpackPeer W R} `{!HpackPeerLaws W R}
    `{!StreamStore S} `{!HpackDecoder D HErr} `{!HpackLaws D HErr}
    n limit os (w : W) (r : R) calls (fs : list frame) (reads : list bytes) (d : D) (st : S) batched ls s :
  8 <= n < 2 ^ 24 → Forall (sendable n) os → Forall (complete limit) os → 1 + 2 * zlen os < 2 ^ 31 → in_step w r →
  Sends n limit os 1 w = Some calls → Forall frame_wf fs → Forall ping_sized fs → concat reads = encode_frames fs →
  Forall alive ls → frames_of ls `prefix_of` queued calls →
  prios_of ls `prefix_of` sent (w_log (ps_world (Receive (HErr := HErr) reads (NewDefaultProcessor d st)).2)) →
  prios_of ls = [] ∨ Forall whole_block (expected n limit os 1 w) →
  steps batched ls (sys_init batched) = Some s →
  ∃ all sv, written (sy_conn s ++ inflight s) = encode_frames all ∧ serve_all n all (server_init r) = Some sv ∧
    sv_done sv `prefix_of` asked os 1 ∧
    (frames_of ls = queued calls → gathered s = [] → sv_done sv = asked os 1).
Proof.
  intros Hn Hos Hco Hb Hstep Hcalls Hfs Hping Hreads Hl Hqs Hrs Hblocks Hs.
  destruct (replies_sent fs reads d st Hfs Hping Hreads) as (acks & Hacks & Ha). rewrite Ha in Hrs.
  destruct (served_by n limit os w r calls acks batched ls s) as (fr & qs & rs & all & sv & ? & _ & _ & _ & _ & _ & ? & ? & ?); [done..|].
  by exists all, sv.
Qed.


Definition peer_os : list outgoing := [example_outgoing (str "hi"); example_outgoing (str "again")].
Definition peer_calls : list call := default [] (Sends (W := TableCodec.table) 200 1000 peer_os 1 []).
Definition ping_reply : bytes := [0; 0; 8; 6; 1; 0; 0; 0; 0; 1; 2; 3; 4; 5; 6; 7; 8].

(** The frames of the first request, a reply, those of the second, all written. *)
Definition peer_run : list label :=
  (LFrame <$> take 2 (queued peer_calls)) ++ [LPrio ping_reply] ++
  [LHandOver; LWrite; LWrite; LWrite; LWrite; LWrite; LWrite; LCallbacks] ++
  (LFrame <$> drop 2 (queued peer_calls)) ++ [LTimer; LHandOver; LWrite; LWrite; LWrite; LWrite; LWrite; LCallbacks].

Lemma peer_blocks : Forall whole_block (expected 200 1000 peer_os 1 ([] : TableCodec.table)).
Proof.
  apply (Forall_impl (λ f, Flags f.1 = Some FlagHeadersEndHeaders ∨ Type_ f.1 = Some FrameData)).
  - vm_compute. by repeat (constructor; [by (left + right)|]).
  - intros f [Hf|Hf] Ht; [by exists FlagHeadersEndHeaders|]. rewrite Hf in Ht. done.
Qed.


(** After a request that was rejected, the server cannot read the next one: the
    encoder refers to fields that only it has seen. *)
Definition long_adapter : RequestAdapter :=
  setData (mkReqData (str "tag") (str "/s/m") [mkMeta (str "x") (str "over the limit of the server")] (str "lost"))
    (NewRequestAdapter (metaMiddleware (example_adapter []))).
Definition garbled_os : list outgoing :=
  [mkOutgoing long_adapter 0%nat (λ _, true) (λ _, true); example_outgoing (str "hi")].

Theorem rejected_request_garbles :
  ∃ all s, steps true ((LFrame <$> default [] (queued <$> Sends 200 20 garbled_os 1 ([] : TableCodec.table))) ++
      [LTimer; LHandOver; LWrite; LWrite; LWrite; LWrite; LWrite; LCallbacks]) (sys_init true) = Some s ∧
    Forall (sendable 200) garbled_os ∧ written (sy_conn s) = encode_frames all ∧ gathered s = [] ∧
    (StreamID ∘ fst <$> all) = [Some 5; Some 5] ∧
    serve_all 200 all (server_init ([] : TableCodec.table)) = None.
Proof.
  exists (expected 200 20 garbled_os 1 ([] : TableCodec.table)). eexists. split; [vm_compute; reflexivity|].
  split; [repeat (apply Forall_cons; split; [split; [by eexists|by eexists|vm_compute; congruence]|]); apply Forall_nil_2|].
  split; [vm_compute; reflexivity|]. split; [reflexivity|]. split; vm_compute; reflexivity.
Qed.
