(* ===== verification/Connection.v ===== *)
(** * Connection: one connection at work

    Composes [Windows] with the sender's two goroutines ([Sender]) and a server
    ([Peer]): [send] and the receiver put frames and replies into channels, the
    processor takes them out, the send loop writes them. This is what [newLoader]
    and [Run] of src/loader/loader.go put together. *)

From S2P Require Import Prelude FrameHeader Types Store Framer Handlers Processor Receiver Effects Replies.
From S2P Require Import FlowControl Pool Request Hpack Sender Loader LoaderRun Wire Windows Peer.
#[local] Open Scope Z_scope.

Section connection.
Context {W S D HErr : Type} `{!FieldWriter W} `{!StreamStore S} `{!HpackDecoder D HErr}.

(** The windows, pool, store, receiver and [send]; the processor with the send loop;
    what these two have done. The channels hold what was queued and sent as a
    reply and is not among it: without the bounds of the channels (16 frames, one
    reply), which only make [send] and the receiver wait. *)
Record connection := mkConnection { cx_streams : wconn W S D; cx_sys : sys; cx_done : list label }.

Inductive xlabel :=
| XStreams (l : wlabel)   (** [send], the receiver, the loop over timeouts *)
| XFrame                  (** the processor takes a frame, *)
| XReply                  (** a priority frame *)
| XSender (l : label).    (** and does all else; the send loop *)

Variables (n limit : Z) (batched : bool).

Definition advance (l : label) (c : connection) : option connection :=
  s ← step batched l (cx_sys c);
  Some (mkConnection (cx_streams c) s (cx_done c ++ [l])).

Definition xstep (l : xlabel) (c : connection) : option connection :=
  match l with
  | XStreams l => s ← wstep (HErr := HErr) n limit l (cx_streams c); Some (mkConnection s (cx_sys c) (cx_done c))
  | XFrame => f ← wc_queued (cx_streams c) !! length (frames_of (cx_done c)); advance (LFrame f) c
  | XReply => b ← wc_replies (cx_streams c) !! length (prios_of (cx_done c)); advance (LPrio b) c
  | XSender l => match l with LFrame _ | LPrio _ | LFail | LStopLoop => None | _ => advance l c end
  end.

Fixpoint xsteps (ls : list xlabel) (c : connection) : option connection :=
  match ls with [] => Some c | l :: ls => c ← xstep l c; xsteps ls c end.

(** The requests handed over in a run. *)
Definition requests (ls : list xlabel) : Z := zsum ((λ l, match l with XStreams (WSend _) => 1 | _ => 0 end) <$> ls).
End connection.

Arguments connection : clear implicits.

(** ** The channels *)
Section channels.
Context {W S D HErr : Type} `{!FieldWriter W} `{!StreamStore S} `{!HpackDecoder D HErr}.
Variables (n limit : Z).
Implicit Types c : wconn W S D.

Lemma deliver_all_made es : ∀ c, let c' := deliver_all es c in wc_replies c' = wc_replies c ++ sent es ∧ wc_asked c' = wc_asked c ∧ wc_enc c' = wc_enc c.
Proof.
  induction es as [|e es IH]; intros c; cbn zeta; [by rewrite app_nil_r|].
  change (deliver_all (e :: es) c) with (deliver_all es (deliver e c)). destruct (IH (deliver e c)) as (-> & -> & ->).
  change (e :: es) with ([e] ++ es). rewrite sent_app, app_assoc.
  destruct e as [x [| | | | | | | | |]| |[x|] k|b]; cbn; by rewrite ?app_nil_r.
Qed.

(** What is queued is what the requests handed over make [send] queue; the replies
    are whole frames. *)
Record channels_ok (w0 : W) c : Prop := {
  ch_sends : ∃ calls, (∀ more, Sends n limit (wc_asked c ++ more) 1 w0 = (λ k, calls ++ k) <$> Sends n limit more (wc_id c) (wc_enc c)) ∧
    queued calls = wc_queued c ++ queued (wc_todo c);
  ch_asked : Forall (sendable n) (wc_asked c);
  ch_replies : ∃ acks, Forall is_reply acks ∧ wc_replies c = frame_bytes <$> acks;
  ch_ping : ping_inv (ps_ping (wc_recv c));
  ch_data : data_inv (ps_data (wc_recv c))
}.

(** What was queued before [c'] was queued before. *)
Definition extends c c' : Prop := wc_queued c `prefix_of` wc_queued c' ∧ wc_replies c `prefix_of` wc_replies c'.

Lemma channels_send w0 c o calls id w : wc_todo c = [] → sendable n o → Send n limit o (wc_id c) (wc_enc c) = Some (calls, id, w) →
  channels_ok w0 c →
  channels_ok w0 (mkW (wc_pool c) (wc_fc c) (wc_recv c) (o_stream o) calls id w (wc_queued c) (wc_replies c) (wc_seen c) (wc_asked c ++ [o])).
Proof.
  intros Htodo Ho Hs [(before & Hb & Hq) Ha Hr Hp Hd]. split; cbn [wc_asked wc_id wc_enc wc_queued wc_todo wc_replies wc_recv]; try done.
  - exists (before ++ calls). split.
    + intros more. rewrite <-app_assoc, Hb. cbn [app Sends]. rewrite Hs. cbn [mbind option_bind].
      destruct (Sends n limit more id w) as [k|]; cbn; [|done]. by rewrite app_assoc.
    + rewrite queued_app, Hq, Htodo. by rewrite app_nil_r.
  - apply Forall_app. by split; [|apply Forall_singleton].
Qed.

Lemma channels_call w0 c x todo c' : wc_todo c = x :: todo → wcall x (with_todo todo c) = Some c' → channels_ok w0 c →
  channels_ok w0 c' ∧ extends c c' ∧ wc_asked c' = wc_asked c.
Proof.
  intros Htodo Hc [(before & Hb & Hq) Ha Hr Hp Hd]. destruct (wcall_made x todo c c' Hc) as [Ht [M1 M2 M3 M4 M5 M6 M7]].
  split; [|split; [|done]].
  - split; rewrite ?M2, ?M3, ?M6, ?M7; try done. exists before. split; [by rewrite M4, M5|].
    rewrite Hq, Htodo, Ht, M1, <-app_assoc. change (x :: todo) with ([x] ++ todo). by rewrite queued_app.
  - split; [rewrite M1; by eexists|by rewrite M2].
Qed.

(** The receiver and the loop over timeouts queue nothing; their replies are whole. *)
Lemma channels_deliver w0 c es r acks : channels_ok w0 c → Forall is_reply acks → sent es = frame_bytes <$> acks →
  ping_inv (ps_ping r) → data_inv (ps_data r) →
  channels_ok w0 (deliver_all es (with_recv r c)) ∧ extends c (deliver_all es (with_recv r c)) ∧
  wc_asked (deliver_all es (with_recv r c)) = wc_asked c.
Proof.
  intros [Hs Ha (before & Hb & Hr) _ _] Hacks Hes Hp Hd.
  destruct (deliver_all_made es (with_recv r c)) as (D1 & D2 & D3). destruct (deliver_all_same es (with_recv r c)) as (_ & S2 & S3 & S4 & _ & S6).
  cbn [with_recv wc_replies wc_asked wc_enc wc_id wc_todo wc_recv wc_queued] in *. split; [|split; [|done]].
  - split; rewrite ?D1, ?D2, ?D3, ?S2, ?S3, ?S4, ?S6; try done. exists (before ++ acks).
    split; [by apply Forall_app|]. by rewrite Hr, Hes, fmap_app.
  - split; [by rewrite S6|]. rewrite D1. by eexists.
Qed.

Lemma channels_step w0 l c c' : match l with WSend o => sendable n o | WFrame f => frame_wf f ∧ ping_sized f | _ => True end →
  w_log (ps_world (wc_recv c)) = [] → channels_ok w0 c → wstep (HErr := HErr) n limit l c = Some c' →
  channels_ok w0 c' ∧ extends c c' ∧ zlen (wc_asked c') = zlen (wc_asked c) + wsends [l].
Proof.
  intros Hl Hlog Hc Hs. destruct l as [o| |f|i]; cbn [wstep] in Hs; unfold wsends; cbn [fmap list_fmap]; rewrite zsum_cons; change (zsum []) with 0.
  - destruct (wc_todo c) eqn:Ht; [|done]. apply bind_Some in Hs as ([[calls id] w] & Hs & [= <-]).
    split; [by apply channels_send|]. split; [by split|]. cbn. rewrite zlen_app. unfold zlen. cbn. lia.
  - destruct (wc_todo c) as [|x todo] eqn:Ht; [done|]. destruct (channels_call w0 c x todo c' Ht Hs Hc) as (? & ? & ->).
    split; [done|]. split; [done|lia].
  - destruct (dispatch f.1 f.2 false (wc_recv c)) as [[u| | |] r] eqn:Hd; try done. injection Hs as <-. destruct Hl as [Hwf Hp].
    assert (reply_state (wc_recv c)) as Hr.
    { split; [apply Hc|]. split; [apply Hc|]. exists []. by rewrite Hlog. }
    pose proof (reply_dispatch (HErr := HErr) f (wc_recv c) Hwf Hp Hr) as (R1 & R2 & acks & Hacks & Hes). rewrite Hd in R1, R2, Hes. cbn [snd] in *.
    destruct (channels_deliver w0 c (w_log (ps_world r)) (settle (w_store (ps_world r)) r) acks Hc Hacks Hes R1 R2) as ([] & He & Ha).
    split; [by split|]. split; [done|]. change (wc_asked (see f ?c)) with (wc_asked c). rewrite Ha. lia.
  - destruct (handle_timeout i (tt, ps_world (wc_recv c))) as [[u| | |] [[] w]] eqn:Hd; try done. injection Hs as <-.
    assert (sent (w_log w) = []) as Hes.
    { unfold handle_timeout, mbind, gm_bind, storeGetAndDelete in Hd. cbn [snd] in Hd.
      destruct (store_GetAndDelete i _) as [[[x|] st]|]; [injection Hd as _ <-|injection Hd as _ <-|done]; cbn [snd w_log]; by rewrite Hlog. }
    destruct (channels_deliver w0 c (w_log w) (settle (w_store w) (wc_recv c)) [] Hc ltac:(constructor) Hes (ch_ping _ _ Hc) (ch_data _ _ Hc)) as (Hc' & He & ->).
    split; [done|]. split; [done|lia].
Qed.
End channels.

(** ** DATA on the connection *)
Definition payload (fs : list frame) : Z := zsum ((λ f : frame, frame_data f.1) <$> fs).
Definition payload_on (id : Z) (fs : list frame) : Z :=
  zsum ((λ f : frame, if bool_decide (StreamID f.1 = Some id) then frame_data f.1 else 0) <$> fs).

Lemma data_on_sum id qs : data_on id qs = zsum ((λ q, if bool_decide (on_stream id q) then cost q else 0) <$> qs).
Proof.
  unfold data_on. induction qs as [|q qs IH]; [done|]. rewrite fmap_cons, zsum_cons, <-IH.
  case_bool_decide; [rewrite filter_cons_True by done|rewrite filter_cons_False by done; lia]. done.
Qed.

(** A header decides, whatever follows it. *)
Lemma frame_bytes_fields f : length f.1 = 9%nat → frame_data (frame_bytes f) = frame_data f.1 ∧ StreamID (frame_bytes f) = StreamID f.1.
Proof. destruct f as [h p]. unfold frame_bytes. cbn [fst snd]. intros H. by nine h. Qed.

Lemma sums_chunks fr qs : Forall2 (λ q f, concat (f_chunks q) = frame_bytes f) fr qs → Forall frame_wf qs →
  data_all fr = payload qs ∧ ∀ id, data_on id fr = payload_on id qs.
Proof.
  intros H Hwf. setoid_rewrite data_on_sum. unfold data_all, payload, payload_on. induction H as [|q f fr qs Hq _ IH]; [done|].
  apply Forall_cons in Hwf as [[Hlen _] Hwf]. destruct (IH Hwf) as [IH1 IH2]. destruct (frame_bytes_fields f Hlen) as [F1 F2].
  rewrite !fmap_cons, !zsum_cons, IH1. unfold cost at 1. rewrite Hq, F1. split; [done|].
  intros id. rewrite !fmap_cons, !zsum_cons, IH2. unfold cost at 1. rewrite Hq, F1. f_equal.
  assert (bool_decide (on_stream id q) = bool_decide (StreamID f.1 = Some id)) as -> by (apply bool_decide_ext; unfold on_stream; by rewrite Hq, F2).
  done.
Qed.

Lemma zsum_merged {A} (g : A → Z) l k m : merged l k m → zsum (g <$> m) = zsum (g <$> l) + zsum (g <$> k).
Proof. induction 1; [done|..]; rewrite !fmap_cons, !zsum_cons; lia. Qed.

Lemma zsum_zero {A} (g : A → Z) l : Forall (λ x, g x = 0) l → zsum (g <$> l) = 0.
Proof. induction 1 as [|x l Hx _ IH]; [done|]. rewrite fmap_cons, zsum_cons. lia. Qed.

Lemma zsum_prefix {A} (g : A → Z) l k : l `prefix_of` k → Forall (λ x, 0 <= g x) k → zsum (g <$> l) <= zsum (g <$> k).
Proof.
  intros [m ->] [_ Hm]%Forall_app. rewrite fmap_app, zsum_app.
  induction Hm as [|x m Hx _ IH]; [cbn; lia|]. rewrite fmap_cons, zsum_cons. lia.
Qed.

Lemma reply_data f : is_reply f → frame_data f.1 = 0.
Proof. by intros [payload H|inc payload ->]. Qed.

Lemma frame_data_nonneg f : frame_wf f → 0 <= frame_data f.1.
Proof.
  intros (_ & _ & Hl). unfold frame_data. rewrite Hl. pose proof (zlen_nonneg f.2).
  destruct (Type_ f.1) as [t|]; [|done]. by case_match.
Qed.

(** What is written is some of what was queued, and replies that carry no DATA. *)
Lemma payload_bounds fr qs rs all queue : merged qs rs all → Forall is_reply rs →
  Forall2 (λ q f, concat (f_chunks q) = frame_bytes f) fr qs → Forall frame_wf qs →
  fr `prefix_of` queue → Forall (λ q, 0 <= cost q) queue →
  payload all <= data_all queue ∧ ∀ id, payload_on id all <= data_on id queue.
Proof.
  intros Hm Hr Hfq Hwf Hpre Hcost. destruct (sums_chunks fr qs Hfq Hwf) as [E1 E2]. split.
  - unfold payload. rewrite (zsum_merged _ _ _ _ Hm), (zsum_zero _ rs), Z.add_0_r.
    + fold (payload qs). rewrite <-E1. by apply zsum_prefix.
    + eapply Forall_impl; [exact Hr|]. apply reply_data.
  - intros id. unfold payload_on. rewrite (zsum_merged _ _ _ _ Hm), (zsum_zero _ rs), Z.add_0_r.
    + fold (payload_on id qs). rewrite <-E2, !data_on_sum. apply zsum_prefix; [done|].
      eapply Forall_impl; [exact Hcost|]. intros q Hq. cbn in *. by case_bool_decide.
    + eapply Forall_impl; [exact Hr|]. intros f Hf. cbn. rewrite (reply_data f Hf). by case_bool_decide.
Qed.

(** ** The invariant *)
Section inv.
Context {W S D HErr : Type} `{!FieldWriter W} `{!StreamStore S} `{!StreamStoreSpec S} `{!HpackDecoder D HErr}.
Variables (n limit : Z) (batched : bool) (iw : N) (cw : Z) (w0 : W).
Hypotheses (Hn : 5 <= n < 2 ^ 24) (Hkeys : ∀ id, Z.odd id = true → store_key (S := S) id).
Implicit Types c : connection W S D.

Record connection_ok c : Prop := {
  cn_streams : conn_inv iw cw (cx_streams c);
  cn_channels : channels_ok n limit w0 (cx_streams c);
  cn_frames : frames_of (cx_done c) `prefix_of` wc_queued (cx_streams c);
  cn_replies : prios_of (cx_done c) `prefix_of` wc_replies (cx_streams c);
  cn_alive : Forall alive (cx_done c);
  cn_steps : steps batched (cx_done c) (sys_init batched) = Some (cx_sys c)
}.

(** Requests whose message fits a frame; frames that name streams the store can
    look up, PINGs of eight bytes among them. *)
Definition xlabel_ok (l : xlabel) : Prop :=
  match l with
  | XStreams l => label_ok (S := S) n l ∧ match l with WFrame f => ping_sized f | _ => True end
  | _ => True
  end.

Lemma prefix_next {A} (l k : list A) x : l `prefix_of` k → k !! length l = Some x → (l ++ [x]) `prefix_of` k.
Proof. intros [m ->]. rewrite lookup_app_r, Nat.sub_diag by done. destruct m as [|y m]; [done|]. intros [= ->]. exists m. by rewrite <-app_assoc. Qed.

(** A step of the sender's goroutines, on what the channels offer. *)
Lemma advance_ok l c c' : connection_ok c → alive l →
  frames_of (cx_done c) ++ frames_of [l] `prefix_of` wc_queued (cx_streams c) →
  prios_of (cx_done c) ++ prios_of [l] `prefix_of` wc_replies (cx_streams c) →
  advance batched l c = Some c' → connection_ok c' ∧ cx_streams c' = cx_streams c.
Proof.
  intros [H1 H2 H3 H4 H5 H6] Hl Hf Hp Ha. unfold advance in Ha. apply bind_Some in Ha as (s & Hs & [= <-]).
  split; [|done]. split; cbn [cx_streams cx_done cx_sys]; try done.
  - unfold frames_of in *. by rewrite omap_app.
  - unfold prios_of in *. by rewrite omap_app.
  - apply Forall_app. by split; [|apply Forall_singleton].
  - rewrite steps_snoc, H6. exact Hs.
Qed.

Lemma connection_step l c c' : xlabel_ok l → wc_id (cx_streams c) + 2 * requests [l] < 2 ^ 32 → connection_ok c →
  xstep (HErr := HErr) n limit batched l c = Some c' →
  connection_ok c' ∧ wc_id (cx_streams c') = wc_id (cx_streams c) + 2 * requests [l] ∧
    zlen (wc_asked (cx_streams c')) = zlen (wc_asked (cx_streams c)) + requests [l].
Proof.
  intros Hl Hb Hc Hs. destruct l as [l| | |l]; cbn [xstep] in Hs.
  - apply bind_Some in Hs as (s & Hs & [= <-]). destruct Hl as [Hl Hp]. destruct Hc as [H1 H2 H3 H4 H5 H6].
    assert (requests [XStreams l] = wsends [l]) as Hr by (by destruct l). rewrite Hr in *.
    destruct (conn_step iw n limit Hn Hkeys cw l _ s Hl Hb H1 Hs) as [Hc1 Hid]. destruct H1 as (mo & used & Hck & _).
    destruct (channels_step n limit w0 l (cx_streams c) s) as (Hch & [E1 E2] & Ha); [|apply Hck|done|done|].
    { destruct l; try done. by split; [apply Hl|]. }
    split; [|done]. split; cbn [cx_streams cx_done cx_sys]; try done; by etrans.
  - apply bind_Some in Hs as (f & Hf & Hs). destruct (advance_ok (LFrame f) c c' Hc) as [Hc' ->]; [done| | |done|].
    + by apply prefix_next; [apply Hc|].
    + change (prios_of [LFrame f]) with ([] : list bytes). rewrite app_nil_r. apply Hc.
    + change (requests [XFrame]) with 0. split; [done|lia].
  - apply bind_Some in Hs as (b & Hb' & Hs). destruct (advance_ok (LPrio b) c c' Hc) as [Hc' ->]; [done| | |done|].
    + change (frames_of [LPrio b]) with ([] : list sframe). rewrite app_nil_r. apply Hc.
    + by apply prefix_next; [apply Hc|].
    + change (requests [XReply]) with 0. split; [done|lia].
  - assert (alive l ∧ frames_of [l] = [] ∧ prios_of [l] = [] ∧ advance batched l c = Some c') as (Hal & Hf & Hp & Hadv) by (by destruct l).
    destruct (advance_ok l c c' Hc Hal) as [Hc' ->]; [rewrite Hf, app_nil_r; apply Hc|rewrite Hp, app_nil_r; apply Hc|done|].
    change (requests [XSender l]) with 0. split; [done|lia].
Qed.

Lemma requests_cons l ls : requests (l :: ls) = requests [l] + requests ls.
Proof. unfold requests. rewrite !fmap_cons, !zsum_cons. change (zsum ((_ : xlabel → Z) <$> [])) with 0. lia. Qed.
Lemma requests_nonneg ls : 0 <= requests ls.
Proof. induction ls as [|[[]| | |] ls IH]; [done|..]; rewrite requests_cons; cbn; lia. Qed.

Lemma connection_steps ls : ∀ c c', Forall xlabel_ok ls → wc_id (cx_streams c) + 2 * requests ls < 2 ^ 32 → connection_ok c →
  xsteps (HErr := HErr) n limit batched ls c = Some c' →
  connection_ok c' ∧ zlen (wc_asked (cx_streams c')) = zlen (wc_asked (cx_streams c)) + requests ls.
Proof.
  induction ls as [|l ls IH]; intros c c' Hl Hb Hc Hs; cbn [xsteps] in Hs; [simplify_eq; split; [done|cbn; lia]|].
  apply Forall_cons in Hl as [Hl Hls]. apply bind_Some in Hs as (c1 & H1 & Hs). rewrite requests_cons in *. pose proof (requests_nonneg ls).
  destruct (connection_step l c c1 Hl ltac:(lia) Hc H1) as (Hc1 & Hid & Ha).
  destruct (IH c1 c' Hls ltac:(lia) Hc1 Hs) as [Hc' Ha']. split; [done|lia].
Qed.

(** What was queued is DATA of a length that is not negative. *)
Lemma queued_costs c : connection_ok c → Forall (sendable n) (wc_asked (cx_streams c)) → Forall (λ q, 0 <= cost q) (wc_queued (cx_streams c)).
Proof.
  intros [_ [(calls & Hs & Hq) _ _ _ _] _ _ _ _] Ha. specialize (Hs []). rewrite app_nil_r in Hs. cbn in Hs. rewrite app_nil_r in Hs.
  destruct (Sends_queue n limit _ Hn Ha 1 w0) as (calls' & Hc & Hf). rewrite Hs in Hc. injection Hc as <-.
  rewrite Hq in Hf. apply Forall2_app_inv_l in Hf as (fs & fs' & Hf & _ & He).
  pose proof (expected_wf n limit _ Hn Ha 1 w0) as Hwf. rewrite He in Hwf. apply Forall_app in Hwf as [Hwf _].
  clear -Hf Hwf. induction Hf as [|q f qs fs Hqf _ IH]; [constructor|]. apply Forall_cons in Hwf as [Hw Hwf]. constructor; [|by apply IH].
  unfold cost. rewrite Hqf. destruct (frame_bytes_fields f) as [-> _]; [apply Hw|by apply frame_data_nonneg].
Qed.
End inv.

(** A connection as [newLoader] makes it, with the sender's goroutines started. *)
Definition connection_of {W D} (l : Loader) (d : D) (w : W) : connection W (ShardedStreamsMap StreamsMap) D :=
  mkConnection (wconn_of l d w) (Sender.Run (NewSender (l_maxFrameSize l) (l_maxHeaderListSize l) (l_disableSendBatching l))) [].

Lemma connection_start {W D} `{!FieldWriter W} d t ss (dec : D) (w : W) :
  let l := newLoader (fold_left handle_setting ss (no_settings d t)) in
  connection_ok (l_maxFrameSize l) (l_maxHeaderListSize l) (negb (l_disableSendBatching l))
    (default DefaultInitialWindowSize (Z.to_N <$> effective SettingInitialWindowSize ss)) 65535 w (connection_of l dec w).
Proof.
  intros l. destruct (newLoader_settings d t ss) as (_ & _ & _ & Hpool & _ & Hfc & Hstore). fold l in Hpool, Hfc, Hstore.
  destruct loaderStore_ok as [Hok Hempty]. split; try done.
  - cbn [connection_of cx_streams]. unfold wconn_of. rewrite Hpool, Hfc, Hstore.
    exact (conn_start _ 65535 dec loaderStore w Hok Hempty).
  - split; try done.
    + exists []. split; [|done]. intros more. cbn [connection_of cx_streams wconn_of wconn_init wc_asked wc_id wc_enc app].
      by destruct (Sends _ _ more 1 w).
    + by exists [].
    + by split; [|exists []].
Qed.


(** The HEADERS of a request; a PING and its reply; the credit that its DATA waits for;
    the end of its stream; a second request on the same stream object. *)
Definition example_writes (k : nat) : list xlabel := XSender <$> LHandOver :: replicate k LWrite ++ [LCallbacks].
Definition connection_run : list xlabel :=
  XStreams (WSend (example_outgoing (str "hello!"))) :: replicate 8 (XStreams WCall) ++
  [XFrame; XStreams (WFrame (mk_frame FramePing 0 0 [1; 2; 3; 4; 5; 6; 7; 8])); XReply] ++ example_writes 3 ++
  [XStreams (WFrame (mk_frame FrameWindowUpdate 0 3 [0; 0; 0; 5]))] ++ replicate 3 (XStreams WCall) ++
  [XStreams (WFrame (mk_frame FrameData FlagDataEndStream 3 [9])); XStreams (WTimeout 3); XStreams (WSend (example_outgoing (str "hi")))] ++
  replicate 11 (XStreams WCall) ++ [XFrame; XFrame; XFrame; XSender LTimer] ++ example_writes 8.

Definition example_loader : Loader := newLoader (setupHTTP2 (λ _, true) (Some (SettingsFrame [(4, 10)])) (no_settings false 0)).1.2.
Definition connection_example : option (connection TableCodec.table (ShardedStreamsMap StreamsMap) unit) :=
  xsteps (HErr := unit) 16384 (2 ^ 32 - 1) true connection_run (connection_of example_loader tt []).

Lemma connection_blocks : Forall whole_block (expected 16384 (2 ^ 32 - 1) [example_outgoing (str "hello!"); example_outgoing (str "hi")] 1 ([] : TableCodec.table)).
Proof.
  apply (Forall_impl (λ f, Flags f.1 = Some FlagHeadersEndHeaders ∨ Type_ f.1 = Some FrameData)).
  - vm_compute. by repeat (constructor; [by (left + right)|]).
  - intros f [Hf|Hf] Ht; [by exists FlagHeadersEndHeaders|]. rewrite Hf in Ht. done.
Qed.

