(* ===== verification/Journey.v ===== *)
(** * Journey: from the request file to the server

    Composes the file data source with its reused buffers ([FileSource]), the
    sender ([Wire]) and a server ([Peer]): the client loop of
    src/cmd/framer/cmd_load.go on one connection, beside the clients of other
    connections that share the data source. *)

From S2P Require Import Prelude FrameHeader Types Store Framer Handlers Processor Receiver Replies Formats JsonKV JsonRead RecordIO Lru Pool.
From S2P Require Import Request Decoder FileSource Hpack Sender Wire Peer.

#[local] Open Scope Z_scope.

(** A request on its way: its stream, the request object that carries it, the
    record it was read from, what was handed to [Send], and the frames queued. *)
Record trip := mkTrip { t_id : Z; t_obj : nat; t_record : bytes; t_out : outgoing; t_frames : list sframe }.

(** The ids of the requests whose [Release] is among the callbacks. *)
Definition released_ids (cbs : list callback) : list Z := omap (λ c, match c with CbRelease id => Some id | _ => None end) cbs.

Section journey.
Context {L E W : Type} `{!JLexer L E} `{!FieldWriter W}.
Variables (extra : nat → nat) (n limit : Z) (batched : bool).

(** The data source, with what has been fetched and what is held by any client; the
    request the client has fetched and not yet sent; the connection's last stream
    id and encoder; the frames [send] has yet to put into the channel; the sender's
    goroutines; the requests sent, and the steps of the sender so far. *)
Record journey := mkJourney {
  j_ds : FileDataSource; j_log : list bytes; j_live : gmap nat bytes; j_hand : option (nat * bytes);
  j_id : Z; j_enc : W; j_todo : list sframe; j_sys : sys;
  j_trips : list trip; j_done : list label }.

Definition journey_init (s : Sender) (ds : FileDataSource) (w : W) : journey :=
  mkJourney ds [] ∅ None (last_streamID s) w [] (Sender.Run s) [] [].

(** A request whose release callback has not run. *)
Definition on_the_way (sy : sys) (t : trip) : Prop := t_id t ∉ released_ids (sy_called sy).

(** The release callback of a request. *)
Definition release_trip (ts : list trip) (id : Z) (s : FileDataSource * gmap nat bytes) : FileDataSource * gmap nat bytes :=
  match list_find (λ t, t_id t = id) ts with
  | Some (_, t) => (Release (t_obj t) s.1, delete (t_obj t) s.2)
  | None => s
  end.

(** A step of the sender, with the callbacks it runs. *)
Definition advance (l : label) (todo : list sframe) (j : journey) : option journey :=
  sy ← step batched l (j_sys j);
  let called := drop (length (sy_called (j_sys j))) (sy_called sy) in
  let '(ds, live) := foldl (λ s id, release_trip (j_trips j) id s) (j_ds j, j_live j) (released_ids called) in
  Some (mkJourney ds (j_log j) live (j_hand j) (j_id j) (j_enc j) todo sy (j_trips j) (j_done j ++ [l])).

(** Other clients release only what they hold. *)
Definition foreign (o : ds_op) (j : journey) : Prop :=
  match o with
  | OFetch => True
  | ORelease r => Forall (λ t, on_the_way (j_sys j) t → t_obj t ≠ r) (j_trips j) ∧ fst <$> j_hand j ≠ Some r
  end.
#[local] Instance foreign_dec o j : Decision (foreign o j).
Proof. unfold foreign, on_the_way. destruct o; apply _. Defined.

Inductive jlabel :=
| JFetch           (** the client fetches a request, *)
| JRequest (a : RequestAdapter) (s : stream) (streamOk connOk : nat → bool)
                   (** and sends it, on an adapter in any state *)
| JQueue           (** [send] puts its next frame into the channel *)
| JSend (l : label)  (** the sender's goroutines *)
| JOther (o : ds_op).  (** the client of another connection *)

Definition jstep (l : jlabel) (j : journey) : option journey :=
  match l with
  | JFetch =>
      match j_todo j, j_hand j, Fetch (L := L) extra (j_ds j) with
      | [], None, (Ret (r, None), ds) =>
          let p := contents (heap ds) (fr_bytes (default empty_request (requests ds !! r))) in
          Some (mkJourney ds (j_log j ++ [p]) (<[r := p]> (j_live j)) (Some (r, p)) (j_id j) (j_enc j) [] (j_sys j)
            (j_trips j) (j_done j))
      | _, _, _ => None
      end
  | JRequest a s streamOk connOk =>
      match j_todo j, j_hand j with
      | [], Some (r, p) =>
          let o := mkOutgoing (setData (fr_data (default empty_request (requests (j_ds j) !! r))) a) s streamOk connOk in
          '(calls, id, w) ← Send n limit o (j_id j) (j_enc j);
          Some (mkJourney (j_ds j) (j_log j) (j_live j) None id w (queued calls) (j_sys j)
            (j_trips j ++ [mkTrip id r p o (queued calls)]) (j_done j))
      | _, _ => None
      end
  | JQueue => match j_todo j with f :: todo => advance (LFrame f) todo j | [] => None end
  | JSend l => match l with LFrame _ | LFail | LStopLoop => None | _ => advance l (j_todo j) j end
  | JOther o =>
      if decide (foreign o j) then
        '(log, ds, live) ← ds_step (L := L) extra o (j_log j, j_ds j, j_live j);
        Some (mkJourney ds log live (j_hand j) (j_id j) (j_enc j) (j_todo j) (j_sys j) (j_trips j) (j_done j))
      else None
  end.

Fixpoint jsteps (ls : list jlabel) (j : journey) : option journey :=
  match ls with [] => Some j | l :: ls => j ← jstep l j; jsteps ls j end.

(** ** The callbacks of a request *)
Lemma released_ids_app l k : released_ids (l ++ k) = released_ids l ++ released_ids k.
Proof. apply omap_app. Qed.

Lemma frames_release s streamOk connOk id fs : ∀ i,
  let q := queued (send_frames s streamOk connOk id i fs) in
  released_ids (cbs q) `sublist_of` [id] ∧ ∀ a f b, q = a ++ f :: b → id ∈ released_ids (f_cbs f) → b = [].
Proof.
  induction fs as [|f fs IH]; intros i; cbn zeta; cbn [send_frames].
  { split; [apply sublist_nil_l|]. intros [|? a]; discriminate. }
  destruct (streamOk i); [destruct (connOk i)|];
    [|split; [apply sublist_nil_l|]; intros [|? a]; discriminate..].
  destruct (IH (S i)) as [H1 H2]. cbn [queued omap list_omap]. change (omap _ ?l) with (queued l).
  change (cbs (?x :: ?y)) with (f_cbs x ++ cbs y). cbn [f_cbs]. rewrite !released_ids_app.
  assert (released_ids (if decide (i = 0%nat) then [CbFirstByteSent s] else []) = []) as -> by (by case_decide).
  destruct fs as [|g fs]; [rewrite decide_True by done|rewrite decide_False by done]; cbn [app].
  - split; [done|]. intros [|? a] f0 b [= _ Hb]; [by symmetry|by destruct a].
  - split; [done|]. intros [|? a] f0 b [= Hf Hq] Hin; [|by eapply H2].
    rewrite <-Hf in Hin. cbn [f_cbs] in Hin. rewrite app_nil_r in Hin. case_decide; by apply not_elem_of_nil in Hin.
Qed.

Lemma Send_release o id (w : W) calls id' w' : Send n limit o id w = Some (calls, id', w') →
  id' = u32 (id + 2) ∧ released_ids (cbs (queued calls)) `sublist_of` [id'] ∧
  ∀ a f b, queued calls = a ++ f :: b → id' ∈ released_ids (f_cbs f) → b = [].
Proof.
  unfold Send. intros H. destruct (SetUp _ _ _ _) as [[[fs err]| | |] [a1 w1]]; try done.
  unfold send in H. injection H as <- <- _. split; [done|].
  destruct err as [e|]; [|apply (frames_release (o_stream o) (o_streamOk o) (o_connOk o) (u32 (id + 2)) fs 0)].
  split; [apply sublist_nil_l|]. intros [|? a]; discriminate.
Qed.

(** ** The requests sent *)

(** One after the other, from a stream id and a state of the encoder to others. *)
Fixpoint chained (ts : list trip) (id : Z) (w : W) (id' : Z) (w' : W) : Prop :=
  match ts with
  | [] => id' = id ∧ w' = w
  | t :: ts => ∃ calls w1, Send n limit (t_out t) id w = Some (calls, t_id t, w1) ∧ t_frames t = queued calls ∧ chained ts (t_id t) w1 id' w'
  end.

Lemma chained_snoc ts t : ∀ id w id1 w1 calls w2, chained ts id w id1 w1 → Send n limit (t_out t) id1 w1 = Some (calls, t_id t, w2) →
  t_frames t = queued calls → chained (ts ++ [t]) id w (t_id t) w2.
Proof.
  induction ts as [|t0 ts IH]; intros id w id1 w1 calls w2 Hc Hs Hq; cbn [app chained] in *.
  - destruct Hc as [-> ->]. by exists calls, w2.
  - destruct Hc as (c0 & w0 & H0 & Hq0 & Hc). exists c0, w0. split; [done|]. split; [done|]. by eapply IH.
Qed.

Lemma chained_Sends ts : ∀ id w id' w', chained ts id w id' w' →
  ∃ calls, Sends n limit (t_out <$> ts) id w = Some calls ∧ queued calls = concat (t_frames <$> ts).
Proof.
  induction ts as [|t ts IH]; intros id w id' w' Hc; cbn [chained] in Hc; [by exists []|].
  destruct Hc as (calls & w1 & Hs & Hq & Hc). destruct (IH _ _ _ _ Hc) as (rest & Hr & Hqr).
  exists (calls ++ rest). cbn [fmap list_fmap Sends concat]. rewrite Hs. cbn [mbind option_bind]. rewrite Hr. split; [done|].
  by rewrite queued_app, Hqr, Hq.
Qed.

(** Their ids are all different. *)
Lemma chained_ids ts : ∀ id w id' w', chained ts id w id' w' → 0 <= id → id + 2 * zlen ts < 2 ^ 32 →
  NoDup (t_id <$> ts) ∧ (∀ t, t ∈ ts → id < t_id t <= id') ∧ id' = id + 2 * zlen ts.
Proof.
  induction ts as [|t ts IH]; intros id w id' w' Hc H0 Hb; cbn [chained] in Hc.
  - destruct Hc as [-> _]. split; [constructor|]. split; [by intros ? ?%not_elem_of_nil|]. change (zlen []) with 0. lia.
  - destruct Hc as (calls & w1 & Hs & _ & Hc). rewrite zlen_cons in *. pose proof (zlen_nonneg ts).
    destruct (Send_release _ _ _ _ _ _ Hs) as [Hid _]. rewrite u32_id in Hid by (unfold is_u32; lia).
    destruct (IH _ _ _ _ Hc) as (Hnd & Hr & ->); [lia..|]. split; [|split; [|lia]].
    + cbn. apply NoDup_cons. split; [|done]. intros (t' & Ht' & Hin)%list_elem_of_fmap. specialize (Hr t' Hin). lia.
    + intros t' [->|Hin]%elem_of_cons; [lia|]. specialize (Hr t' Hin). lia.
Qed.

Lemma chained_at ts k t id w id' w' : chained ts id w id' w' → ts !! k = Some t →
  ∃ id0 w0 calls w1, Send n limit (t_out t) id0 w0 = Some (calls, t_id t, w1) ∧ t_frames t = queued calls.
Proof.
  revert k id w. induction ts as [|t0 ts IH]; intros [|k] id w Hc Hk; try done; cbn [chained] in Hc;
    destruct Hc as (calls & w1 & Hs & Hq & Hc); [|by eapply IH]. injection Hk as ->. eauto 10.
Qed.

Lemma chained_release ts : ∀ id w id' w', chained ts id w id' w' →
  released_ids (cbs (concat (t_frames <$> ts))) `sublist_of` t_id <$> ts.
Proof.
  induction ts as [|t ts IH]; intros id w id' w' Hc; cbn [chained] in Hc; [done|].
  destruct Hc as (calls & w1 & Hs & Hq & Hc). destruct (Send_release _ _ _ _ _ _ Hs) as (_ & Hr & _).
  cbn [fmap list_fmap concat]. rewrite cbs_app, released_ids_app, Hq. apply (sublist_app _ [t_id t]); [done|by eapply IH].
Qed.

Lemma chained_take k ts : ∀ id w id' w', chained ts id w id' w' → ∃ id1 w1, chained (take k ts) id w id1 w1.
Proof.
  revert k. induction ts as [|t ts IH]; intros [|k] id w id' w' Hc; try by exists id, w.
  destruct Hc as (calls & w1 & Hs & Hq & Hc). destruct (IH k _ _ _ _ Hc) as (id2 & w2 & Hc'). exists id2, w2, calls, w1. done.
Qed.

(** A request whose release callback is among those of the first frames has all its
    frames among them, and so have the requests before it. *)
Lemma released_whole ts k t fin rest id w id' w' : chained ts id w id' w' → NoDup (t_id <$> ts) → ts !! k = Some t →
  concat (t_frames <$> ts) = fin ++ rest → t_id t ∈ released_ids (cbs fin) →
  concat (t_frames <$> take (S k) ts) `prefix_of` fin.
Proof.
  intros Hc Hnd Hk Hfin Hin. destruct (chained_at ts k t id w id' w' Hc Hk) as (id0 & w0 & calls & w1 & Hs & Hq).
  destruct (Send_release _ _ _ _ _ _ Hs) as (_ & _ & Hlast). rewrite <-Hq in Hlast.
  assert (t_id t ∉ released_ids (cbs (concat (t_frames <$> take k ts)))) as Hbefore.
  { destruct (chained_take k ts _ _ _ _ Hc) as (id2 & w2 & Hc'). intros Hb.
    eapply elem_of_sublist in Hb; [|by eapply chained_release].
    rewrite <-(take_drop_middle ts k t Hk), fmap_app in Hnd. apply NoDup_app in Hnd as (_ & Hnd & _).
    apply (Hnd _ Hb). by left. }
  set (before := concat (t_frames <$> take k ts)) in *.
  assert (concat (t_frames <$> take (S k) ts) = before ++ t_frames t) as ->.
  { rewrite (take_S_r ts k t Hk), fmap_app, concat_app. cbn. by rewrite app_nil_r. }
  assert (∃ after, concat (t_frames <$> ts) = (before ++ t_frames t) ++ after) as [after Hall].
  { rewrite <-(take_drop_middle ts k t Hk), fmap_app, concat_app. cbn. rewrite app_assoc. by eexists. }
  rewrite Hall in Hfin. destruct (prefix_weak_total fin (before ++ t_frames t) (fin ++ rest)) as [[b Hb]|]; [by eexists|by rewrite <-Hfin; eexists| |done].
  assert (∃ fin1 f fin2, fin = fin1 ++ f :: fin2 ∧ t_id t ∈ released_ids (f_cbs f)) as (fin1 & f & fin2 & -> & Hf).
  { clear -Hin. induction fin as [|f fin IH]; [by apply not_elem_of_nil in Hin|].
    change (cbs (f :: fin)) with (f_cbs f ++ cbs fin) in Hin. rewrite released_ids_app in Hin.
    apply elem_of_app in Hin as [Hin|Hin]; [by exists [], f, fin|].
    destruct (IH Hin) as (a & g & b & -> & Hg). by exists (f :: a), g, b. }
  rewrite <-app_assoc in Hb. cbn [app] in Hb. destruct (decide (length before <= length fin1)%nat) as [Hle|Hgt].
  - destruct (app_eq_prefix before (t_frames t) fin1 (f :: fin2 ++ b) Hb Hle) as (m & -> & Ht).
    apply Hlast in Ht; [|done]. apply app_eq_nil in Ht as [-> ->]. rewrite app_nil_r in Hb. rewrite Hb. done.
  - exfalso. apply Hbefore. destruct (app_eq_prefix fin1 (f :: fin2 ++ b) before (t_frames t) (eq_sym Hb) ltac:(lia)) as (m & -> & Ht).
    destruct m as [|f' m]; [rewrite app_nil_r in Hgt; lia|]. injection Ht as -> _.
    rewrite cbs_app, released_ids_app. apply elem_of_app. right. change (cbs (f' :: m)) with (f_cbs f' ++ cbs m).
    rewrite released_ids_app. apply elem_of_app. by left.
Qed.

(** ** The data source under all its clients *)
Context `{!JLexerLaws L E}.
Variable ps : list bytes.
Hypothesis Hps : Forall (λ p, zlen p < 2 ^ 63) ps.

(** [R]: the requests released.  The others are held, by objects of their own, and
    so is the request in the client's [hand]. *)
Record holding (ts : list trip) (R : list Z) (hand : option (nat * bytes)) (s : list bytes * FileDataSource * gmap nat bytes) : Prop := {
  ho_run : run_ok (L := L) ps s;
  ho_live t : t ∈ ts → t_id t ∉ R → s.2 !! t_obj t = Some (t_record t);
  ho_own t1 t2 : t1 ∈ ts → t2 ∈ ts → t_id t1 ∉ R → t_id t2 ∉ R → t_obj t1 = t_obj t2 → t_id t1 = t_id t2;
  ho_hand r p : hand = Some (r, p) → s.2 !! r = Some p ∧ ∀ t, t ∈ ts → t_id t ∉ R → t_obj t ≠ r
}.

Lemma release_holding ts R hand id log ds live : holding ts R hand (log, ds, live) → id ∉ R →
  let s := release_trip ts id (ds, live) in holding ts (R ++ [id]) hand (log, s.1, s.2).
Proof.
  intros [Hrun Hlive Hown Hhand] Hid. cbn zeta. unfold release_trip.
  assert (∀ t, t_id t ∉ R ++ [id] → t_id t ∉ R ∧ t_id t ≠ id) as Hout by (intros t Ht; set_solver).
  destruct (list_find _ ts) as [[i t]|] eqn:Hf; cbn [fst snd].
  - apply list_find_Some in Hf as (Hi & <- & _). pose proof (list_elem_of_lookup_2 _ _ _ Hi) as Hin.
    pose proof (Hlive t Hin Hid) as Ht. cbn [snd] in Ht. split.
    + eapply (step_ok extra ps (ORelease (t_obj t))); [done|exact Hrun|]. cbn. by rewrite decide_True by (by eexists).
    + intros t' Hin' [Hr Hne]%Hout. cbn [snd]. rewrite lookup_delete_ne; [by apply Hlive|]. intros Ho. apply Hne. symmetry. by apply Hown.
    + intros t1 t2 H1 H2 [Hr1 _]%Hout [Hr2 _]%Hout. by apply Hown.
    + intros r p [Hr Hobj]%Hhand. cbn [snd]. rewrite lookup_delete_ne by (by apply Hobj). split; [done|].
      intros t' Hin' [Hr' _]%Hout. by apply Hobj.
  - split; [done|..].
    + intros t' Hin' [Hr _]%Hout. by apply Hlive.
    + intros t1 t2 H1 H2 [Hr1 _]%Hout [Hr2 _]%Hout. by apply Hown.
    + intros r p [Hr Hobj]%Hhand. split; [done|]. intros t' Hin' [Hr' _]%Hout. by apply Hobj.
Qed.

Lemma releases_holding ts hand ids log : ∀ R ds live, holding ts R hand (log, ds, live) → NoDup (R ++ ids) →
  let s := foldl (λ s id, release_trip ts id s) (ds, live) ids in holding ts (R ++ ids) hand (log, s.1, s.2).
Proof.
  induction ids as [|id ids IH]; intros R ds live Hh Hnd; cbn zeta; cbn [foldl]; [by rewrite app_nil_r|].
  assert (id ∉ R) as Hid by (apply NoDup_app in Hnd as (_ & Hnd & _); intros Hin; apply (Hnd _ Hin); by left).
  pose proof (release_holding ts R hand id log ds live Hh Hid) as Hh'. cbn zeta in Hh'.
  destruct (release_trip ts id (ds, live)) as [ds' live'].
  specialize (IH (R ++ [id]) ds' live' Hh'). rewrite <-app_assoc in IH. by apply IH.
Qed.

(** A fetch, for whomever. *)
Lemma fetch_holding ts R hand log ds live r err ds' : holding ts R hand (log, ds, live) → Fetch (L := L) extra ds = (Ret (r, err), ds') →
  let req := default empty_request (requests ds' !! r) in
  let p := contents (heap ds') (fr_bytes req) in
  holding ts R hand (log ++ [p], ds', <[r := p]> live) ∧ (∀ t, t ∈ ts → t_id t ∉ R → t_obj t ≠ r) ∧
  ∃ m, Binary.Unmarshal (L := L) (mkData [] [] [] []) p = Some (m, err).
Proof.
  intros [Hrun Hlive Hown Hhand] Hf. cbn zeta. pose proof Hrun as (Hok & Hpl & rest & Hrest & Hst).
  destruct rest as [|p rest].
  { exfalso. unfold Fetch in Hf. destruct (acquire_request ds) as [[r0 reqs] fr], (slice_Acquire (bufs ds)) as [b bs].
    destruct (RecordIO.Binary.ReadNext_end (reader_ ds) Hpl Hst) as [rd Hrd]. rewrite Hrd in Hf. done. }
  assert (zlen p < 2 ^ 63) as Hp by (rewrite Hrest in Hps; by apply Forall_app in Hps as [_ [??]%Forall_cons]).
  destruct (Fetch_ok extra ds live p rest Hok Hpl Hst Hp) as (r0 & m & err0 & ds0 & Hf0 & Hd & Hh & Hok' & Hpl' & Hst' & Hm).
  rewrite Hf0 in Hf. injection Hf as -> -> ->.
  destruct Hh as (req & Hreq & Hc & _). rewrite Hreq. change (default empty_request (Some req)) with req.
  rewrite Hc. assert (∀ t, t ∈ ts → t_id t ∉ R → t_obj t ≠ r) as Hnew.
  { intros t Hin Ht Ho. specialize (Hlive t Hin Ht). cbn [snd] in Hlive. congruence. }
  split; [|split; [done|by exists m]]. split.
  - split; [done|]. split; [done|]. exists rest. by rewrite <-app_assoc.
  - intros t Hin Ht. cbn [snd]. rewrite lookup_insert_ne; [by apply Hlive|]. intros Ho. by apply (Hnew t).
  - done.
  - intros r1 p1 [Hr1 Hobj]%Hhand. split; [|done]. cbn [snd] in *. rewrite lookup_insert_ne; congruence.
Qed.

(** ** The invariant *)
Definition record_read (t : trip) : Prop :=
  ∃ m, Binary.Unmarshal (L := L) (mkData [] [] [] []) (t_record t) = Some (m, None) ∧ data (o_adapter (t_out t)) = as_request m.

Record jinv (w0 : W) (j : journey) : Prop := {
  ji_source : holding (j_trips j) (released_ids (sy_called (j_sys j))) (j_hand j) (j_log j, j_ds j, j_live j);
  ji_hand r p : j_hand j = Some (r, p) → ∃ m, Binary.Unmarshal (L := L) (mkData [] [] [] []) p = Some (m, None);
  ji_alive : Forall alive (j_done j);
  ji_steps : steps batched (j_done j) (sys_init batched) = Some (j_sys j);
  ji_frames : frames_of (j_done j) ++ j_todo j = concat (t_frames <$> j_trips j);
  ji_sent : chained (j_trips j) 1 w0 (j_id j) (j_enc j);
  ji_read : Forall record_read (j_trips j);
  ji_order : (t_record <$> j_trips j) ++ option_list (snd <$> j_hand j) `sublist_of` j_log j
}.

Lemma jinv_init disable w0 chunks dec : batched = negb disable → decoder_ok dec → concat chunks = RecordIO.Binary.WriteAll ps →
  jinv w0 (journey_init (NewSender n limit disable) (NewFileDataSource (NewReader ((λ c, (c, false)) <$> chunks)) dec) w0).
Proof.
  intros Hd Hdec Hc. unfold journey_init, Sender.Run. cbn [NewSender disableSendBatching last_streamID]. rewrite <-Hd. split; cbn; try done.
  split; [by apply start_ok|by intros t ?%not_elem_of_nil|by intros t1 t2 ?%not_elem_of_nil|done].
Qed.

Lemma advance_trips l todo j j' : advance l todo j = Some j' → j_trips j' = j_trips j.
Proof. unfold advance. intros (sy & _ & H)%bind_Some. destruct (foldl _ _ _). by injection H as <-. Qed.

Lemma advance_inv w0 l todo j j' : jinv w0 j → alive l → frames_of [l] ++ todo = j_todo j → 1 + 2 * zlen (j_trips j) < 2 ^ 32 →
  advance l todo j = Some j' → jinv w0 j'.
Proof.
  intros [H1 Hhand H2 H3 H4 H5 H6 H7] Hl Htodo Hb Ha. unfold advance in Ha. apply bind_Some in Ha as (sy & Hsy & Ha).
  destruct (step_called _ _ _ _ Hsy) as [called Hcalled]. rewrite Hcalled, drop_app_length in Ha.
  assert (steps batched (j_done j ++ [l]) (sys_init batched) = Some sy) as Hsteps by (rewrite steps_snoc, H3; exact Hsy).
  assert (Forall alive (j_done j ++ [l])) as Halive by (apply Forall_app; split; [done|]; by apply Forall_singleton).
  assert (frames_of (j_done j ++ [l]) ++ todo = concat (t_frames <$> j_trips j)) as Hframes.
  { unfold frames_of in *. rewrite omap_app, <-app_assoc, <-H4, <-Htodo. done. }
  destruct (called_written batched _ sy Halive Hsteps) as (fin & rest & Hfin & Hcbs & _).
  assert (NoDup (released_ids (sy_called (j_sys j)) ++ released_ids called)) as Hnd.
  { rewrite <-released_ids_app, <-Hcalled, Hcbs. destruct (chained_ids _ _ _ _ _ H5) as (Hnd & _); [lia|lia|].
    eapply sublist_NoDup; [exact Hnd|]. etrans; [|by eapply chained_release]. rewrite <-Hframes, Hfin, <-app_assoc, cbs_app, released_ids_app.
    by apply sublist_inserts_r. }
  pose proof (releases_holding _ _ _ _ _ _ _ H1 Hnd) as Hh. cbn zeta in Hh.
  destruct (foldl _ _ _) as [ds live]. injection Ha as <-.
  split; cbn [j_trips j_sys j_log j_ds j_live j_hand j_done j_todo j_id j_enc]; try done. by rewrite Hcalled, released_ids_app.
Qed.

Lemma jstep_inv w0 l j j' : jinv w0 j → 1 + 2 * zlen (j_trips j') < 2 ^ 32 → jstep l j = Some j' → jinv w0 j'.
Proof.
  intros Hj Hb Hs. destruct l as [|a s streamOk connOk| |l|o]; cbn [jstep] in Hs.
  - destruct (j_todo j) as [|] eqn:Htodo; [|done]. destruct (j_hand j) eqn:Hnone; [done|].
    destruct (Fetch extra (j_ds j)) as [[[r [e|]]|e| |] ds'] eqn:Hf; try done. injection Hs as <-.
    destruct Hj as [H1 Hhand H2 H3 H4 H5 H6 H7]. destruct (fetch_holding _ _ _ _ _ _ _ _ _ H1 Hf) as ([Hrun Hlive Hown _] & Hnew & m & Hm).
    rewrite Htodo in H4. rewrite Hnone in H7. cbn [fmap option_fmap option_map option_list] in H7. rewrite app_nil_r in H7.
    split; cbn [j_trips j_sys j_log j_ds j_live j_hand j_done j_todo j_id j_enc]; try done.
    + split; [done..|]. intros r0 p0 [= <- <-]. cbn [snd]. by rewrite lookup_insert_eq.
    + intros r0 p0 [= <- <-]. by exists m.
    + by apply sublist_app.
  - destruct (j_todo j) as [|] eqn:Htodo; [|done]. destruct (j_hand j) as [[r p]|] eqn:Hsome; [|done].
    destruct Hj as [H1 Hhand H2 H3 H4 H5 H6 H7]. destruct (Hhand r p Hsome) as [m Hm]. rewrite Htodo in H4. rewrite Hsome in H1, H7.
    destruct H1 as [Hrun Hlive Hown Hh]. destruct (Hh r p eq_refl) as [Hr Hnew]. cbn [snd] in Hr.
    destruct Hrun as (Hok & Hpl & rest). destruct (ds_holds _ _ Hok r p Hr) as (req & Hreq & Hcont & d & err & Hu & Hdata).
    rewrite Hm in Hu. injection Hu as <- <-. rewrite Hreq in Hs. change (default empty_request (Some req)) with req in Hs.
    apply bind_Some in Hs as ([[calls id] w] & Hsend & [= <-]).
    split; cbn [j_trips j_sys j_log j_ds j_live j_hand j_done j_todo j_id j_enc]; try done.
    + split; [done|..|done].
      * intros t' [Hin| ->%list_elem_of_singleton]%elem_of_app Ht; [by apply Hlive|done].
      * intros t1 t2 [Hi1| ->%list_elem_of_singleton]%elem_of_app [Hi2| ->%list_elem_of_singleton]%elem_of_app Ht1 Ht2 Ho.
        -- by apply Hown.
        -- by destruct (Hnew t1 Hi1 Ht1).
        -- by destruct (Hnew t2 Hi2 Ht2).
        -- done.
    + rewrite app_nil_r in H4. rewrite H4, fmap_app, concat_app. cbn. by rewrite app_nil_r.
    + by eapply (chained_snoc _ (mkTrip id r p _ (queued calls))).
    + apply Forall_app. split; [done|]. apply Forall_singleton. exists m. by split.
    + rewrite fmap_app, app_nil_r. exact H7.
  - destruct (j_todo j) as [|f todo] eqn:Htodo; [done|]. apply (advance_inv w0 (LFrame f) todo j); [done|done|by rewrite Htodo| |done].
    by rewrite (advance_trips _ _ _ _ Hs) in Hb.
  - assert (alive l ∧ frames_of [l] = [] ∧ advance l (j_todo j) j = Some j') as (Hl & Hfr & Ha) by (by destruct l).
    apply (advance_inv w0 l (j_todo j) j); [done|done|by rewrite Hfr| |done].
    by rewrite (advance_trips _ _ _ _ Ha) in Hb.
  - case_decide as Hfor; [|done]. apply bind_Some in Hs as ([[log ds] live] & Ho & [= <-]).
    destruct Hj as [H1 Hhand H2 H3 H4 H5 H6 H7]. split; try done; cbn [j_trips j_sys j_log j_ds j_live j_hand j_done j_todo j_id j_enc].
    + destruct o as [|r].
      * cbn [ds_step] in Ho. destruct (Fetch extra (j_ds j)) as [[[r err]|e| |] ds'] eqn:Hf; try done. injection Ho as <- <- <-.
        by destruct (fetch_holding _ _ _ _ _ _ _ _ _ H1 Hf) as (Hh & _).
      * destruct H1 as [Hrun Hlive Hown Hh]. destruct Hfor as [Hfor Hne]. rewrite list.Forall_forall in Hfor.
        assert (live = delete r (j_live j)) as -> by (cbn [ds_step] in Ho; case_decide; [|done]; by injection Ho).
        split; [by eapply (step_ok extra)| |done|].
        -- intros t Hin Ht. cbn [snd]. rewrite lookup_delete_ne; [by apply Hlive|]. intros Hr. by apply (Hfor t Hin Ht).
        -- intros r1 p1 Hr1. destruct (Hh r1 p1 Hr1) as [Hl Hobj]. rewrite Hr1 in Hne. cbn [snd] in *.
           rewrite lookup_delete_ne; [done|]. intros ->. by apply Hne.
    + destruct o as [|r]; cbn [ds_step] in Ho.
      * destruct (Fetch extra (j_ds j)) as [[[r err]|e| |] ds']; try done. injection Ho as <- _ _. by apply sublist_inserts_r.
      * case_decide; [|done]. by injection Ho as <- _ _.
Qed.

Lemma jstep_trips l j j' : jstep l j = Some j' → j_trips j `prefix_of` j_trips j'.
Proof.
  destruct l as [|a s streamOk connOk| |l|o]; cbn [jstep]; intros H.
  - repeat case_match; try done. by injection H as <-.
  - repeat case_match; try done. apply bind_Some in H as ([[calls id] w] & _ & [= <-]). by eexists.
  - case_match; [done|]. by rewrite (advance_trips _ _ _ _ H).
  - destruct l; try done; by rewrite (advance_trips _ _ _ _ H).
  - case_decide; [|done]. by apply bind_Some in H as ([[log ds] live] & _ & [= <-]).
Qed.

Lemma jsteps_trips ls : ∀ j j', jsteps ls j = Some j' → j_trips j `prefix_of` j_trips j'.
Proof.
  induction ls as [|l ls IH]; intros j j' H; cbn [jsteps] in H; [by injection H as ->|].
  apply bind_Some in H as (j1 & H1 & H). etrans; [by eapply jstep_trips|by apply IH].
Qed.

Lemma jsteps_inv w0 ls : ∀ j j', jinv w0 j → 1 + 2 * zlen (j_trips j') < 2 ^ 32 → jsteps ls j = Some j' → jinv w0 j'.
Proof.
  induction ls as [|l ls IH]; intros j j' Hj Hb H; cbn [jsteps] in H; [by injection H as <-|].
  apply bind_Some in H as (j1 & H1 & H). apply (IH j1); [|done|done]. eapply jstep_inv; [exact Hj| |exact H1].
  destruct (jsteps_trips ls j1 j' H) as [more Hmore]. rewrite Hmore, zlen_app in Hb. pose proof (zlen_nonneg more). lia.
Qed.

(** What the server should have of a request, from its record. *)
Definition arrival (t : trip) : request :=
  match Binary.Unmarshal (L := L) (mkData [] [] [] []) (t_record t) with
  | Some (m, _) =>
      let a := setData (as_request m) (o_adapter (t_out t)) in
      mkRequest (t_id t) (request_fields (default [] (default_WriteAdditional (metaMiddleware a))) a) (Formats.Message m)
  | None => mkRequest (t_id t) [] []
  end.

Lemma asked_arrivals ts : ∀ id w id' w', chained ts id w id' w' → Forall record_read ts → 0 <= id → id + 2 * zlen ts < 2 ^ 32 →
  asked (t_out <$> ts) id = arrival <$> ts.
Proof.
  induction ts as [|t ts IH]; intros id w id' w' Hc Hr H0 Hb; [done|]. cbn [chained] in Hc.
  destruct Hc as (calls & w1 & Hs & _ & Hc). apply Forall_cons in Hr as [(m & Hm & Hd) Hr].
  rewrite zlen_cons in Hb. pose proof (zlen_nonneg ts).
  destruct (Send_release _ _ _ _ _ _ Hs) as [Hid _]. rewrite u32_id in Hid by (unfold is_u32; lia).
  cbn [fmap list_fmap asked]. rewrite <-Hid, (IH (t_id t) w1 id' w' Hc Hr) by lia. f_equal.
  unfold arrival. rewrite Hm. assert (setData (as_request m) (o_adapter (t_out t)) = o_adapter (t_out t)) as ->.
  { rewrite <-Hd. unfold setData. by destruct (o_adapter (t_out t)). }
  cbn zeta. by rewrite Hd.
Qed.

(** A request is held by its object until it is written. *)
Lemma record_stays w0 j k t : jinv w0 j → 1 + 2 * zlen (j_trips j) < 2 ^ 32 → j_trips j !! k = Some t →
  holds (L := L) (j_ds j) (t_obj t) (t_record t) ∨ chs (concat (t_frames <$> take (S k) (j_trips j))) `prefix_of` regs (sy_conn (j_sys j)).
Proof.
  intros [H1 _ H2 H3 H4 H5 _ _] Hb Hk. destruct (decide (t_id t ∈ released_ids (sy_called (j_sys j)))) as [Hin|Hout].
  - right. destruct (called_written batched _ _ H2 H3) as (fin & rest & Hfin & Hcbs & Hconn). rewrite Hcbs in Hin.
    destruct (chained_ids _ _ _ _ _ H5) as (Hnd & _); [lia|lia|]. rewrite Hfin, <-app_assoc in H4.
    destruct (released_whole _ k t fin _ _ _ _ _ H5 Hnd Hk (eq_sym H4) Hin) as [more ->].
    etrans; [|exact Hconn]. rewrite chs_app. by eexists.
  - left. destruct H1 as [(Hok & _) Hlive _ _]. apply (ds_holds _ _ Hok). apply Hlive; [|done]. by eapply list_elem_of_lookup_2.
Qed.
End journey.


Import Toy.

(** Three records; the connection's client takes the first and the third, another
    one the second, into the array of the first, which has been written by then. *)
Definition journey_records : list bytes :=
  [record_of example_data []; record_of (mkData (str "other") (str "/s/n") [] (str "theirs")) [];
   record_of (mkData (str "t") (str "/s/m") [] (str "more")) []].
Definition journey_start : journey (W := TableCodec.table) :=
  journey_init (NewSender 200 1000 false) (NewFileDataSource (NewReader [(RecordIO.Binary.WriteAll journey_records, false)]) small_decoder) [].
Definition journey_request : list jlabel := [JFetch; JRequest (example_adapter []) 0%nat (λ _, true) (λ _, true); JQueue; JQueue].
Definition write_out : list jlabel := [JSend LTimer; JSend LHandOver] ++ replicate 5 (JSend LWrite) ++ [JSend LCallbacks].
Definition journey_run : list jlabel := journey_request ++ write_out ++ [JOther OFetch] ++ journey_request ++ write_out.

